(* ===== verification/_CoqProject ===== *)
-Q . S2P
Prelude.v
Crawl.v
PexView.v
PexGossip.v
PexRounds.v
Stm.v
StmTxn.v
Routing.v
RoutingTable.v
RoutingProps.v
Query.v
Pulse.v
ClusterView.v
ClusterClient.v
Router.v
Membership.v
Announcer.v
Directory.v
BootSocket.v
Survey.v
Proto.v
PexExchange.v
StaticBook.v
CrawlService.v
BootUtil.v
BootService.v
Multicast.v
Sealer.v
Discover.v
Command.v
PexStore.v
PexStream.v
PexService.v
Vat.v
Capnp.v
Api.v
Bindings.v
Schemas.v
Capabilities.v
