(* ===== verification/Prelude.v ===== *)
(** * CASM: verification library

    CASM is a toolkit for peer-to-peer clusters.  Its parts are:

    - bootstrapping ([src/pkg/boot]): finding first peers by surveying a multicast group
      or crawling an address range, over a socket that signs, validates, caches and
      dispatches packets;
    - peer exchange ([src/pkg/pex]): a gossip protocol that keeps a bounded, ageing view of
      each namespace;
    - the cluster ([src/pkg/cluster]): heartbeats over pubsub feed a routing table with
      expiring records ([src/pkg/stm] is its transactional store), which is queried locally
      and through a remote view;
    - protocol ids, vats and futures ([src/pkg/casm.go], [vat.go], [rpc.go],
      [util/proto]), used by all of them;
    - a second signed socket with a caching sealer ([src/pkg/socket]), the [discover]
      command ([src/internal/cmd/discover]), and the bindings generated from the Cap'n Proto
      schemas ([src/internal/api]).

    ** Files

    - [Prelude] (this file): Go outcomes ([Ret], [Fail], [Panic]), machine integers, byte
      strings, big-endian coding, Go slices with capacity, shared list lemmas.
    - [Crawl]: [boot/crawl/strategy.go] and the transcoder of [crawl.go].
    - [PexView], [PexGossip], [PexRounds]: [pex/record.go], [store.go], [gossip.go]; the
      first holds views, the second the merge policy, rounds and the cache, the third the
      properties and the interleaving of rounds.
    - [PexStore], [PexService]: the namespaces of [pex/store.go] in their shared datastore;
      the exchange of [pex/pex.go] from its construction to its rounds.
    - [StmTxn]: transactions of [stm/txn.go], table references and watch channels.
    - [Stm], [Routing], [RoutingTable], [RoutingProps]: [stm/*.go] and
      [cluster/routing/*.go]; indexers, table, properties.
    - [Query]: [cluster/query/*.go].  [Pulse]: [cluster/pulse/*.go].
    - [ClusterView]: [cluster/query.go], [server.go], [client.go], [view.go].
    - [ClusterClient]: the iterators and futures of [cluster/client.go] and their release.
    - [Router]: [cluster/cluster.go], [clock.go].  [Announcer]: its heartbeat goroutine.
    - [Membership]: router, validator and table composed.  [Directory]: with the remote view
      on top, the cluster as its clients see it.
    - [BootSocket]: [boot/socket/*.go].  [Survey]: [boot/survey/*.go].
    - [BootService]: the serving loops of [boot/socket], [survey] and [crawl] end to end.
    - [Multicast]: [survey/multicast.go], [gradual.go], the protocols both services register.
    - [Proto]: [util/proto/*.go], the ids of [casm.go] and [vat.go], [rpc.go].
    - [PexStream]: the streams of a gossip round, [pex/gossip.go].
    - [Vat]: [vat.go], the hosts and LZ4 stream of [casm.go], [util/metrics].
    - [PexExchange]: [pex/pex.go], [discovery.go], [option.go], [boot/static.go].
      [StaticBook]: the rest of [boot/static.go].
    - [CrawlService]: the crawler of [boot/crawl/crawl.go] and the senders of
      [boot/socket/socket.go] it uses.
    - [BootUtil]: [boot/util/util.go], [boot/namespace.go], [ParseCIDR].
    - [Sealer]: [pkg/socket/*.go], over a heap of buffers.
    - [Discover]: [internal/cmd/discover/*.go], [internal/util/log/logutil.go].  [Command]:
      the flags, hooks and signals around it, [cmd/casm/main.go].
    - [Capnp]: the interface to Cap'n Proto messages.  [Api]: [internal/api/boot], [pex]
      and [routing] over it.  [Bindings]: [internal/api/debug] and [testing], the rest of
      the others, and the laws all accessors obey.  [Schemas]: type ids, registration, textual
      forms and lists of all five.  [Capabilities]: fields that hold a capability, and the
      parameters of [View.Iter].

    ** How code becomes definitions

    A function that returns an error is a function into [outcome]; a Go panic is the value
    [Panic], so that "does not panic" is a statement about the definition.  Mutable objects
    are records passed and returned, or, where sharing matters (the closures of query
    constraints, the buffers of pooled slices, the channels of subscriptions), entries of a
    heap; the push of a gossip round, which appends into the array of the round's view,
    returns that view as it leaves it ([PexGossip.pushBuffer]).  Integers keep their width:
    hops and sequence numbers are 64-bit, heartbeat TTLs 32-bit milliseconds, ports and distances as in the source.  Concurrency is a transition
    system with one transition per atomic operation (a critical section, an atomic flag, a
    channel operation): [PexRounds.round_step], [RoutingProps.cstep], [Router.rstep],
    [ClusterView.hstep], [BootSocket.sstep] and [BootSocket.ostep], [PexExchange.pstep], [PexExchange.dstep],
    [Sealer.istep] and [Sealer.hstep], [Vat.vstep], [PexService.lstep] and [ClusterClient.cstep].

    Library code is a parameter with the laws its documentation gives: go-memdb
    ([RoutingTable.MemdbLaws] over the interface of [Stm]), go-datastore ([PexGossip.Datastore]),
    [sort.Sort] ([PexView.SortSpec]), the buffer pool ([Routing.PoolSpec]), the 2Q cache
    ([BootSocket.Cache2QLaws]), the LRU cache and the buffer pool of the sealer
    ([Sealer.LRULaws], [Sealer.PoolLaws]), the LZ4 writer ([Vat.Lz4Laws]), stream
    negotiation ([Vat.negotiates]), Cap'n Proto messages ([Capnp.CapnpLaws]), datastore keys and
    wrappers ([PexStore.KeyLaws], [PexStore.WrapLaws]), memdb transactions
    ([StmTxn.MemTxnLaws]), lookups by index ([Directory.IndexLaws]), backoffs
    ([Announcer.BackoffLaws]), the protocol registry ([Multicast.ProtocolsLaws]), the runner
    of commands ([Command.CliLaws]), the schema registry, lists and capability tables of
    Cap'n Proto ([Schemas.RegistryLaws], [Schemas.CompositeLaws], [Capabilities.CapsLaws]),
    base58, semantic versions, envelope signatures, jitter and clocks.  Each property that
    uses such a law has a witness with a concrete instance.

    ** What is proved

    - Gossip: a merge rejects invalid views and otherwise stays within MaxView, invents no
      record, never lists the local peer, fills the view and protects the oldest records;
      sequential rounds keep the cache authentic and within MaxView + 1 (the push overwrites
      an entry of the round's view, which is then neither merged nor deleted), overlapping
      rounds need not; hop counters overflow; a round over its stream delivers what was pushed, rejects a
      broken push, and implements the transition system of rounds.  Namespaces of one datastore
      with plain, unnested paths do not see each other's records, and the service's calls keep its cache.
    - Exchange: plain namespaces, gossipers with their contexts and stream handlers
      correspond through every interleaving and none is left after closing; the grace period
      of an advertisement;
      boot trackers are unique and end with the call that started them; a caller caught by
      closing waits forever.
    - Membership: a member whose announcements arrive stays in the table, one that falls
      silent leaves it; the default jitter lets a live member be evicted.  The heartbeat
      goroutine survives failures, and what it publishes is the router's heartbeat as the
      metadata hook has left it.
    - Directory: queries by peer, host and metadata over the network answer with the rows of
      the table; a member that announces itself is found by them, one that has fallen
      silent is listed no more.
    - Routing table: which records are accepted, what a run of upserts and clock advances
      leaves, what interleaved transactions can and cannot do.  A transaction reaches the
      tables it has references to and no others.
    - Queries: iteration is filtering and truncation of the snapshot, and terminates; range
      queries need a record beyond their bound.
    - Pulse, view and router: the validator agrees with the table; the remote view shows
      the table; the iterator protocol loses nothing and does not get stuck while the stream is
      open, a released iterator can end the call of Next in progress, and a further call past
      the end blocks; indices survive the wire; background work starts once and announcements
      are paced; a stopped router can panic in a late call.
    - Boot: a CIDR crawl visits each host once, port ranges are exact, survey distances are
      nested, packets are authenticated, subscriptions are never used after closing nor closed twice,
      advertisements live for their TTL, cached packets are of the right kind; [FindPeers] of
      the crawler sends one request to each host of its block; a survey finds an advertised
      peer end to end (packets within the 2048 bytes of the read buffer), a response reaches
      exactly the subscriptions of its namespace, and forged datagrams change nothing;
      unicast packets are invisible to the multicast socket; a gradual survey
      asks with growing distances for 255 rounds, so that who answers once is asked by all
      later requests;
      a static address book is built from its strings or fails with the first bad one, sorts
      by peer id and delivers its peers without blocking;
      the service [Dial] and
      [Listen] build is determined by the protocols of the address.
    - Sealer: the cache implements plain sealing for records whose keys do not collide, and
      sequential use of the socket sends
      envelopes only; concurrent writes can send a recycled buffer.
    - Command: [emit] sends the number of packets asked for, or does not stop at an
      interrupt; [listen] prints what it cannot verify and panics on unknown packets; the
      socket a subcommand opens is closed once, by its teardown or by the serving goroutine,
      unless something panics; the first signal ends the
      context and later ones are swallowed; the defaults of the flags.
    - Bindings: packets, heartbeats and indexes written through the generated accessors are
      what the other files assume to be read; every pair of accessors is a lens, so fields
      do not overlap and lie within their structs; promises resolve to what the accessors
      return; stubs reach the methods of their names; the schemas register together; the
      elements of a new list have their struct's size; capabilities survive in messages, and
      the parameters of [View.Iter] arrive.
    - Protocols and vats: matchers separate namespaces; transport selection terminates;
      connecting works exactly within a namespace; metrics count the connections through
      every interleaving; an embargo leaves open streams alone; closing an LZ4 stream loses
      what is buffered.

    ** Fuel

    [Query.drain] and the view's streams take one unit per record and one for the end: more
    fuel than records is enough, and the theorems ask for just that.  [Proto.Upgrade] takes
    one unit per path component, [Multicast.mc_stream] one per datagram read.
    The crawl loops are bounded by the size of the range, which their theorems supply;
    [Discover.send_loop] takes one unit per packet and one for the end.
    [PexExchange.atomic_wait] is shown to return for no fuel when its single load finds
    nothing.

    ** Not modelled, and why

    Mocks, which are generated test doubles; the conversions of the bindings, which only
    rename methods of the library ([ToPtr], [IsValid], [Message], [AddRef] and the like), and
    their compressed schemas, which are data; usage texts and terminal colours of the
    command; logging and metrics output; the operating system's sockets and multicast
    calls.  Protocol ids are treated as bytes, which agrees with the code on valid UTF-8. *)

From stdpp Require Import base list gmap strings sorting.
From Stdlib Require Import ZArith Lia Ascii.

Declare Scope casm_scope.
Delimit Scope casm_scope with casm.
Open Scope casm_scope.
Open Scope Z_scope.

(** ** Go outcomes

    A Go call returns normally ([Ret]), returns a non-nil [error] ([Fail]) or
    panics ([Panic]).  [E] is the error type of the component. *)
Inductive outcome (E A : Type) : Type :=
| Ret (a : A)
| Fail (e : E)
| Panic.

Arguments Ret {E A} a.
Arguments Fail {E A} e.
Arguments Panic {E A}.

Definition bind {E A B} (c : outcome E A) (k : A → outcome E B) : outcome E B :=
  match c with
  | Ret a => k a
  | Fail e => Fail e
  | Panic => Panic
  end.

Notation "x <~ c ;; k" := (bind c (λ x, k))
  (at level 60, c at next level, right associativity) : casm_scope.

Definition is_ret {E A} (c : outcome E A) : bool :=
  match c with Ret _ => true | _ => false end.

#[global] Instance outcome_eq_dec {E A} `{EqDecision E, EqDecision A} :
  EqDecision (outcome E A).
Proof. solve_decision. Defined.

Lemma bind_Ret_inv {E A B} (c : outcome E A) (k : A → outcome E B) b :
  bind c k = Ret b → ∃ a, c = Ret a ∧ k a = Ret b.
Proof. destruct c; simpl; try discriminate; eauto. Qed.

Lemma bind_Panic_inv {E A B} (c : outcome E A) (k : A → outcome E B) :
  bind c k = Panic → c = Panic ∨ ∃ a, c = Ret a ∧ k a = Panic.
Proof. destruct c; simpl; try discriminate; eauto. Qed.

Lemma bind_assoc {E A B C} (c : outcome E A) (f : A → outcome E B)
    (g : B → outcome E C) :
  bind (bind c f) g = bind c (λ a, bind (f a) g).
Proof. by destruct c. Qed.

(** [mapM] over outcomes: a Go loop that stops at the first error. *)
Fixpoint omapM {E A B} (f : A → outcome E B) (l : list A) : outcome E (list B) :=
  match l with
  | [] => Ret []
  | a :: l' => b <~ f a ;; bs <~ omapM f l' ;; Ret (b :: bs)
  end.

Lemma omapM_Forall2 {E A B} (f : A → outcome E B) l k :
  omapM f l = Ret k ↔ Forall2 (λ a b, f a = Ret b) l k.
Proof.
  revert k; induction l as [|a l IH]; intros k; simpl.
  - split; [intros [= <-]; constructor | by inversion 1].
  - split.
    + intros (b & Hb & (bs & Hbs & [= <-])%bind_Ret_inv)%bind_Ret_inv.
      constructor; [done|]. by apply IH.
    + inversion 1 as [|? b ? bs Hb Hbs]; subst. rewrite Hb. simpl.
      apply IH in Hbs. by rewrite Hbs.
Qed.

(** ** Machine-width integers

    A Go integer of width [w] is a [Z] in its range; every arithmetic operation
    that can leave the range is followed by the wrap-around. *)
Definition wrap_u (w : Z) (z : Z) : Z := z `mod` 2 ^ w.
Definition wrap_i (w : Z) (z : Z) : Z := (z + 2 ^ (w - 1)) `mod` 2 ^ w - 2 ^ (w - 1).

Abbreviation u8 := (wrap_u 8).
Abbreviation u16 := (wrap_u 16).
Abbreviation u32 := (wrap_u 32).
Abbreviation u64 := (wrap_u 64).
Abbreviation i32 := (wrap_i 32).
Abbreviation i64 := (wrap_i 64).

Definition in_u (w z : Z) : Prop := 0 ≤ z < 2 ^ w.
Definition in_i (w z : Z) : Prop := - 2 ^ (w - 1) ≤ z < 2 ^ (w - 1).

Lemma wrap_u_small w z : in_u w z → wrap_u w z = z.
Proof. apply Z.mod_small. Qed.

Lemma wrap_u_range w z : 0 ≤ w → in_u w (wrap_u w z).
Proof. intros Hw. apply Z.mod_pos_bound. apply Z.pow_pos_nonneg; lia. Qed.

Lemma wrap_i_small w z : 0 < w → in_i w z → wrap_i w z = z.
Proof.
  intros Hw Hz. unfold wrap_i, in_i in *.
  assert (2 ^ w = 2 * 2 ^ (w - 1)) as Hp.
  { rewrite <-Z.pow_succ_r by lia. f_equal; lia. }
  rewrite Z.mod_small; lia.
Qed.

Lemma wrap_i_range w z : 0 < w → in_i w (wrap_i w z).
Proof.
  intros Hw. unfold wrap_i, in_i.
  assert (2 ^ w = 2 * 2 ^ (w - 1)) as Hp.
  { rewrite <-Z.pow_succ_r by lia. f_equal; lia. }
  assert (0 < 2 ^ w) by (apply Z.pow_pos_nonneg; lia).
  pose proof (Z.mod_pos_bound (z + 2 ^ (w - 1)) (2 ^ w)). lia.
Qed.

(** ** Bytes, byte strings and their lexicographic order

    Go's [byte] is a [Z] in [0..255]; [string] and [[]byte] are lists of them. *)
Abbreviation bytes := (list Z).

Definition is_byte (b : Z) : Prop := 0 ≤ b < 256.

#[global] Instance is_byte_dec b : Decision (is_byte b).
Proof. unfold is_byte. apply _. Defined.

Definition wf_bytes (l : bytes) : Prop := Forall is_byte l.

Lemma wf_bytes_snoc l b : wf_bytes (l ++ [b]) ↔ wf_bytes l ∧ is_byte b.
Proof. unfold wf_bytes. by rewrite Forall_app, Forall_singleton. Qed.

(** Bitwise operations stay within a byte. *)
Lemma byte_bits a : 0 ≤ a → (is_byte a ↔ ∀ i, 8 ≤ i → Z.testbit a i = false).
Proof.
  intros Ha. unfold is_byte. split.
  - intros [_ Hlt] i Hi. destruct (decide (a = 0)) as [->|]; [apply Z.bits_0|].
    apply Z.bits_above_log2; [lia|]. assert (Z.log2 a < 8) by (apply Z.log2_lt_pow2; lia). lia.
  - intros Hbits. split; [done|]. destruct (Z.lt_ge_cases a 256) as [|Hge]; [done|].
    assert (8 ≤ Z.log2 a) as Hlog by (change 8 with (Z.log2 256); by apply Z.log2_le_mono).
    assert (Z.testbit a (Z.log2 a) = true) by (apply Z.bit_log2; lia).
    rewrite Hbits in *; done.
Qed.

Lemma lxor_byte a b : is_byte a → is_byte b → is_byte (Z.lxor a b).
Proof.
  intros Ha Hb. pose proof (proj1 (byte_bits a (proj1 Ha)) Ha) as Ba.
  pose proof (proj1 (byte_bits b (proj1 Hb)) Hb) as Bb.
  apply byte_bits; [apply Z.lxor_nonneg; unfold is_byte in *; lia|].
  intros i Hi. by rewrite Z.lxor_spec, Ba, Bb.
Qed.

Lemma land_byte a b : is_byte a → is_byte b → is_byte (Z.land a b).
Proof.
  intros Ha Hb. pose proof (proj1 (byte_bits a (proj1 Ha)) Ha) as Ba.
  apply byte_bits; [apply Z.land_nonneg; unfold is_byte in *; lia|].
  intros i Hi. by rewrite Z.land_spec, Ba.
Qed.

Lemma lor_byte a b : is_byte a → is_byte b → is_byte (Z.lor a b).
Proof.
  intros Ha Hb. pose proof (proj1 (byte_bits a (proj1 Ha)) Ha) as Ba.
  pose proof (proj1 (byte_bits b (proj1 Hb)) Hb) as Bb.
  apply byte_bits; [apply Z.lor_nonneg; unfold is_byte in *; lia|].
  intros i Hi. by rewrite Z.lor_spec, Ba, Bb.
Qed.

(** String literals: [bs "id"] is the byte string of the Go literal. *)
Definition bs (s : string) : bytes :=
  (λ a, Z.of_N (N_of_ascii a)) <$> String.list_ascii_of_string s.

Definition bytes_eqb (a b : bytes) : bool := bool_decide (a = b).

(** [bytes.Compare(a, b) < 0], the order of memdb's radix tree. *)
Fixpoint bytes_ltb (a b : bytes) : bool :=
  match a, b with
  | _, [] => false
  | [], _ :: _ => true
  | x :: a', y :: b' => if x <? y then true else if y <? x then false else bytes_ltb a' b'
  end.

Definition bytes_leb (a b : bytes) : bool := negb (bytes_ltb b a).

Lemma bytes_ltb_irrefl a : bytes_ltb a a = false.
Proof. induction a as [|x a IH]; [done|]. simpl. by rewrite Z.ltb_irrefl. Qed.

Lemma bytes_leb_refl a : bytes_leb a a = true.
Proof. unfold bytes_leb. by rewrite bytes_ltb_irrefl. Qed.

Lemma bytes_ltb_tricho a b : bytes_ltb a b = false → bytes_ltb b a = false → a = b.
Proof.
  revert b; induction a as [|x a IH]; intros [|y b]; simpl; try done.
  destruct (Z.ltb_spec x y), (Z.ltb_spec y x); try done; try lia.
  intros. f_equal; [lia|auto].
Qed.

Lemma bytes_ltb_trans a b c : bytes_ltb a b = true → bytes_ltb b c = true → bytes_ltb a c = true.
Proof.
  revert b c; induction a as [|x a IH]; intros [|y b] [|z c]; simpl; try done.
  destruct (Z.ltb_spec x y), (Z.ltb_spec y x), (Z.ltb_spec y z), (Z.ltb_spec z y),
    (Z.ltb_spec x z), (Z.ltb_spec z x); try done; try lia; eauto.
Qed.

Lemma bytes_ltb_asym a b : bytes_ltb a b = true → bytes_ltb b a = false.
Proof.
  intros Hab. destruct (bytes_ltb b a) eqn:Hba; [|done].
  pose proof (bytes_ltb_trans _ _ _ Hab Hba) as Haa. by rewrite bytes_ltb_irrefl in Haa.
Qed.

Lemma bytes_leb_lt_eq a b : bytes_leb a b = true ↔ bytes_ltb a b = true ∨ a = b.
Proof.
  unfold bytes_leb. rewrite negb_true_iff. split.
  - intros Hba. destruct (bytes_ltb a b) eqn:Hab; [by left|right]. by apply bytes_ltb_tricho.
  - intros [Hab| ->]; [by apply bytes_ltb_asym|apply bytes_ltb_irrefl].
Qed.

Lemma bytes_leb_trans a b c : bytes_leb a b = true → bytes_leb b c = true → bytes_leb a c = true.
Proof.
  rewrite !bytes_leb_lt_eq. intros [H1| ->] [H2| ->]; eauto using bytes_ltb_trans.
Qed.

Lemma bytes_leb_total a b : bytes_leb a b = true ∨ bytes_leb b a = true.
Proof.
  rewrite !bytes_leb_lt_eq. destruct (bytes_ltb a b) eqn:Hab, (bytes_ltb b a) eqn:Hba; auto.
  rewrite (bytes_ltb_tricho a b); auto.
Qed.

Fixpoint prefixb (p s : bytes) : bool :=
  match p, s with
  | [], _ => true
  | _ :: _, [] => false
  | x :: p', y :: s' => (x =? y) && prefixb p' s'
  end.

Lemma prefixb_spec p s : prefixb p s = true ↔ ∃ t, s = p ++ t.
Proof.
  revert s; induction p as [|x p IH]; intros s; simpl; [by split; eauto|].
  destruct s as [|y s]; [by split; [|intros [? ?]]|].
  rewrite andb_true_iff, Z.eqb_eq, IH.
  split; [intros [-> [t ->]]; eauto | intros [t [= -> ->]]; eauto].
Qed.

(** ** Big-endian encoding ([encoding/binary].BigEndian) *)
Fixpoint be_decode_acc (acc : Z) (l : bytes) : Z :=
  match l with
  | [] => acc
  | b :: l' => be_decode_acc (acc * 256 + b) l'
  end.
Definition be_decode (l : bytes) : Z := be_decode_acc 0 l.

Fixpoint be_encode (n : nat) (z : Z) : bytes :=
  match n with
  | O => []
  | S n' => be_encode n' (z / 256) ++ [z `mod` 256]
  end.

Lemma be_decode_acc_app acc l k :
  be_decode_acc acc (l ++ k) = be_decode_acc (be_decode_acc acc l) k.
Proof. revert acc; induction l as [|b l IH]; intros acc; simpl; [done|]. by rewrite IH. Qed.

Lemma be_decode_snoc l b : be_decode (l ++ [b]) = be_decode l * 256 + b.
Proof. unfold be_decode. by rewrite be_decode_acc_app. Qed.

Lemma be_encode_length n z : length (be_encode n z) = n.
Proof.
  revert z; induction n as [|n IH]; intros z; simpl; [done|].
  rewrite length_app, IH. simpl; lia.
Qed.

Lemma be_encode_wf n z : wf_bytes (be_encode n z).
Proof.
  revert z; induction n as [|n IH]; intros z; simpl; [constructor|].
  apply Forall_app; split; [apply IH|]. repeat constructor; apply Z.mod_pos_bound; lia.
Qed.

Lemma pow256_S n : 256 ^ Z.of_nat (S n) = 256 * 256 ^ Z.of_nat n.
Proof. rewrite Nat2Z.inj_succ, Z.pow_succ_r by lia. done. Qed.

Lemma pow256_pos n : 0 < 256 ^ Z.of_nat n.
Proof. apply Z.pow_pos_nonneg; lia. Qed.

Lemma be_decode_encode n z : be_decode (be_encode n z) = z `mod` 256 ^ Z.of_nat n.
Proof.
  revert z; induction n as [|n IH]; intros z.
  - simpl. by rewrite Z.mod_1_r.
  - cbn [be_encode]. rewrite be_decode_snoc, IH, pow256_S.
    pose proof (pow256_pos n).
    rewrite (Z.rem_mul_r z 256 (256 ^ Z.of_nat n)) by (clear IH; lia). ring.
Qed.

Lemma be_encode_app n m z :
  be_encode (n + m) z = be_encode n (z / 256 ^ Z.of_nat m) ++ be_encode m z.
Proof.
  revert z; induction m as [|m IH]; intros z.
  - rewrite Nat.add_0_r. simpl. by rewrite Z.div_1_r, app_nil_r.
  - rewrite Nat.add_succ_r. cbn [be_encode]. rewrite IH, app_assoc, pow256_S.
    by rewrite Z.div_div by (pose proof (pow256_pos m); lia).
Qed.

Lemma be_decode_range l :
  wf_bytes l → 0 ≤ be_decode l < 256 ^ Z.of_nat (length l).
Proof.
  induction l as [|b l IH] using rev_ind; intros Hwf; [by simpl|].
  apply wf_bytes_snoc in Hwf as [Hl Hb].
  rewrite be_decode_snoc, length_app, Nat.add_1_r, pow256_S.
  unfold is_byte in Hb. specialize (IH Hl). revert IH.
  generalize (256 ^ Z.of_nat (length l)). intros P IH. lia.
Qed.

Lemma be_encode_decode l :
  wf_bytes l → be_encode (length l) (be_decode l) = l.
Proof.
  induction l as [|b l IH] using rev_ind; intros Hwf; [done|].
  apply wf_bytes_snoc in Hwf as [Hl Hb].
  unfold is_byte in Hb.
  rewrite length_app, Nat.add_1_r, be_decode_snoc. cbn [be_encode].
  rewrite Z.div_add_l, Z.div_small, Z.add_0_r, IH by (done || lia).
  by rewrite Z.add_comm, Z_mod_plus_full, Z.mod_small.
Qed.

Lemma be_decode_inj l k :
  wf_bytes l → wf_bytes k → length l = length k →
  be_decode l = be_decode k → l = k.
Proof.
  intros Hl Hk Hlen Heq.
  rewrite <-(be_encode_decode l), <-(be_encode_decode k) by done.
  by rewrite Hlen, Heq.
Qed.

Lemma be_decode_acc_shift acc l :
  be_decode_acc acc l = acc * 256 ^ Z.of_nat (length l) + be_decode l.
Proof.
  revert acc; induction l as [|b l IH]; intros acc.
  - unfold be_decode; simpl; lia.
  - unfold be_decode. cbn [be_decode_acc length].
    rewrite (IH (acc * 256 + b)), (IH (0 * 256 + b)), pow256_S. lia.
Qed.

Lemma be_decode_cons b l :
  be_decode (b :: l) = b * 256 ^ Z.of_nat (length l) + be_decode l.
Proof. unfold be_decode at 1. cbn [be_decode_acc]. by rewrite be_decode_acc_shift. Qed.

(** On equal lengths the radix-tree order is the numeric order: the reason the
    table's time index is big-endian. *)
Lemma bytes_ltb_be l k :
  wf_bytes l → wf_bytes k → length l = length k →
  bytes_ltb l k = (be_decode l <? be_decode k).
Proof.
  revert k; induction l as [|x l IH]; intros [|y k] Hl Hk Hlen; try done.
  apply Forall_cons in Hl as [Hx Hl], Hk as [Hy Hk].
  simpl in Hlen. injection Hlen as Hlen. cbn [bytes_ltb].
  rewrite !be_decode_cons, Hlen, (IH k) by done.
  pose proof (be_decode_range l Hl) as Bl. pose proof (be_decode_range k Hk) as Bk.
  rewrite Hlen in Bl. pose proof (pow256_pos (length k)) as Hp.
  set (P := 256 ^ Z.of_nat (length k)) in *.
  destruct (Z.ltb_spec x y); [symmetry; apply Z.ltb_lt; nia|].
  destruct (Z.ltb_spec y x); [symmetry; apply Z.ltb_ge; nia|].
  assert (x = y) as -> by lia.
  destruct (Z.ltb_spec (be_decode l) (be_decode k)), (Z.ltb_spec (y * P + be_decode l) (y * P + be_decode k)); lia.
Qed.

(** ** Go slices

    A slice shares a backing array with whatever it was sliced from; the visible
    elements are the first [slen] ones.  The nil slice is the one without a backing
    array.  Re-slicing beyond the capacity panics, as in Go. *)
Record goslice := Slice { backing : bytes; slen : nat }.

Definition contents (s : goslice) : bytes := take (slen s) (backing s).
Definition scap (s : goslice) : nat := length (backing s).
Definition nil_slice : goslice := Slice [] 0.
Definition make_slice (len cap : nat) : goslice := Slice (replicate cap 0) len.

Definition reslice {E} (s : goslice) (n : nat) : outcome E goslice :=
  if (n <=? scap s)%nat then Ret (Slice (backing s) n) else Panic.

(** Go's built-in [copy(dst, src)]. *)
Definition copy_slice (dst : goslice) (src : bytes) : goslice :=
  let k := Nat.min (slen dst) (length src) in
  Slice (take k src ++ drop k (backing dst)) (slen dst).

(** An in-place loop over the visible elements. *)
Definition write_slice (s : goslice) (l : bytes) : goslice :=
  Slice (l ++ drop (length l) (backing s)) (slen s).

Lemma copy_slice_contents s l :
  length l = slen s → contents (copy_slice s l) = l.
Proof.
  intros Hl. unfold contents, copy_slice; simpl.
  rewrite Hl, Nat.min_id, <-Hl, firstn_all. by rewrite take_app_length.
Qed.

Lemma write_slice_contents s l :
  length l = slen s → contents (write_slice s l) = l.
Proof.
  intros Hl. unfold contents, write_slice; simpl. rewrite <-Hl. by rewrite take_app_length.
Qed.

Lemma copy_slice_scap s l :
  length l = slen s → (slen s ≤ scap s)%nat → scap (copy_slice s l) = scap s.
Proof.
  intros Hl Hc. unfold scap, copy_slice in *; simpl.
  rewrite length_app, length_take, length_drop. lia.
Qed.

Lemma write_slice_scap s l :
  (length l ≤ scap s)%nat → scap (write_slice s l) = scap s.
Proof. intros Hc. unfold scap, write_slice in *; simpl. rewrite length_app, length_drop. lia. Qed.

(** ** Lists *)
Section lists.
Context {A : Type} (P : A → Prop) `{∀ x, Decision (P x)}.

Lemma filter_none (l : list A) : (∀ x, x ∈ l → ¬ P x) → filter P l = [].
Proof.
  induction l as [|x l IH]; intros Hn; [done|].
  rewrite filter_cons_False by (apply Hn; left). apply IH. intros y Hy. apply Hn. by right.
Qed.

Lemma filter_all (l : list A) : (∀ x, x ∈ l → P x) → filter P l = l.
Proof.
  induction l as [|x l IH]; intros Hn; [done|].
  rewrite filter_cons_True by (apply Hn; left). f_equal. apply IH. intros y Hy. apply Hn. by right.
Qed.
End lists.
