(* ===== verification/Crawl.v ===== *)
(** * Crawl strategies ([src/pkg/boot/crawl])

    [PortRange] and [CIDR] are the two [Range] iterators of [strategy.go], with the
    standard-library operations on [net.IP] and [net.IPNet] they call; [TranscoderCIDR]
    is the multiaddr transcoder of [crawl.go].  Addresses are byte slices as in the
    code; the theorems relate them to the integers they encode. *)

From stdpp Require Import base list gmap strings sorting.
From Stdlib Require Import ZArith Lia.
From S2P Require Import Prelude.

Open Scope Z_scope.

(** ** [net]: addresses, networks *)
Module net.

Definition IPv4len : nat := 4.
Definition IPv6len : nat := 16.

Definition v4InV6Prefix : bytes := [0;0;0;0;0;0;0;0;0;0;255;255].

(** [IP.To4]: [None] is the nil result. *)
Definition To4 (ip : bytes) : option bytes :=
  if (length ip =? IPv4len)%nat then Some ip
  else if (length ip =? IPv6len)%nat && bytes_eqb (take 12 ip) v4InV6Prefix
  then Some (drop 12 ip) else None.

Definition Equal (ip x : bytes) : bool :=
  if (length ip =? length x)%nat then bytes_eqb ip x
  else if (length ip =? IPv4len)%nat && (length x =? IPv6len)%nat
  then bytes_eqb (take 12 x) v4InV6Prefix && bytes_eqb ip (drop 12 x)
  else if (length ip =? IPv6len)%nat && (length x =? IPv4len)%nat
  then bytes_eqb (take 12 ip) v4InV6Prefix && bytes_eqb (drop 12 ip) x
  else false.

Record IPNet := { IP : bytes; Mask : bytes }.

Definition networkNumberAndMask (n : IPNet) : bytes * bytes :=
  let nn := match To4 (IP n) with
            | Some x => Some x
            | None => if (length (IP n) =? IPv6len)%nat then Some (IP n) else None
            end in
  match nn with
  | None => ([], [])
  | Some ip =>
      if (length (Mask n) =? IPv4len)%nat
      then if (length ip =? IPv4len)%nat then (ip, Mask n) else ([], [])
      else if (length (Mask n) =? IPv6len)%nat
      then (ip, if (length ip =? IPv4len)%nat then drop 12 (Mask n) else Mask n)
      else ([], [])
  end.

Definition masked_eqb (m a b : bytes) : bool :=
  bool_decide (zip_with Z.land a m = zip_with Z.land b m).

Definition Contains (n : IPNet) (ip : bytes) : bool :=
  let '(nn, m) := networkNumberAndMask n in
  let ip := match To4 ip with Some x => x | None => ip end in
  if negb (length ip =? length nn)%nat then false
  else masked_eqb m nn ip.

End net.

(** ** [net.Addr] values a [Range] can fill in *)
Record addrKind := mkAddr { aIP : goslice; aPort : Z; aZone : bytes }.

Inductive Addr :=
| UDPAddr (a : addrKind)
| TCPAddr (a : addrKind)
| OtherAddr.

Definition zero_addr : addrKind := mkAddr nil_slice 0 [].

(** ** [PortRange] *)
Record PortRange := { prIP : bytes; Low : Z; High : Z; index : Z }.

Definition loopback : bytes := [0;0;0;0;0;0;0;0;0;0;255;255;127;0;0;1].

Definition PortRange_Reset (p : PortRange) : PortRange :=
  let ip := if (length (prIP p) =? 0)%nat then loopback else prIP p in
  let '(lo, hi) := if (Low p =? 0) && (High p =? 0) then (1024, 65535) else (Low p, High p) in
  {| prIP := ip; Low := lo; High := hi; index := lo |}.

Definition NewPortRange (ip : bytes) (low high : Z) : PortRange :=
  PortRange_Reset {| prIP := ip; Low := u16 low; High := u16 high; index := 0 |}.

Definition nextPort (p : PortRange) : Z * bool * PortRange :=
  if negb (index p =? 0) && (index p <=? High p)
  then (index p, true,
        {| prIP := prIP p; Low := Low p; High := High p; index := u16 (index p + 1) |})
  else (0, false, p).

Definition PortRange_Next (p : PortRange) (addr : Addr) : bool * Addr * PortRange :=
  match addr with
  | UDPAddr a =>
      let '(port, ok, p') := nextPort p in
      (ok, UDPAddr (mkAddr (Slice (prIP p) (length (prIP p))) port (aZone a)), p')
  | TCPAddr a =>
      let '(port, ok, p') := nextPort p in
      (ok, TCPAddr (mkAddr (Slice (prIP p) (length (prIP p))) port (aZone a)), p')
  | OtherAddr => (false, OtherAddr, p)
  end.

Definition addr_port (a : Addr) : Z :=
  match a with UDPAddr k | TCPAddr k => aPort k | OtherAddr => 0 end.

Definition addr_ip (a : Addr) : bytes :=
  match a with UDPAddr k | TCPAddr k => contents (aIP k) | OtherAddr => [] end.

(** [for p.Next(&addr) { visit(addr.Port) }], the loop of [Crawler.FindPeers]. *)
Fixpoint port_loop (fuel : nat) (p : PortRange) (addr : Addr) : option (list Z) :=
  match fuel with
  | O => None
  | S fuel' =>
      let '(ok, addr', p') := PortRange_Next p addr in
      if ok then cons (addr_port addr') <$> port_loop fuel' p' addr' else Some []
  end.

(** ** [CIDR] *)
Inductive error :=
| ErrCIDROverflow
| ErrSyntax
| ErrRange
| ErrParseCIDR.

#[global] Instance error_eq_dec : EqDecision error.
Proof. solve_decision. Defined.

Abbreviation res := (outcome error).

Record CIDR := mkCIDR {
  cPort : Z;
  cNet : option net.IPNet;      (* [None]: nil pointer *)
  cip : goslice;
  cbcst : goslice;
  cmask : goslice;
}.

(** Dereferencing [c.Net]. *)
Definition deref_net (c : CIDR) : res net.IPNet :=
  match cNet c with Some n => Ret n | None => Panic end.

Definition complement (m : bytes) : bytes := (λ b, Z.lxor b 255) <$> m.

(** [for i := range dst { dst[i] op= src[i] }]; indexing [src] out of range panics. *)
Fixpoint maskloop (f : Z → Z → Z) (dst src : bytes) : res bytes :=
  match dst, src with
  | [], _ => Ret []
  | _ :: _, [] => Panic
  | x :: dst', y :: src' => r <~ maskloop f dst' src' ;; Ret (f x y :: r)
  end.

Definition xormask := maskloop Z.lxor.
Definition andmask := maskloop Z.land.

Definition resetIP (c : CIDR) : CIDR :=
  let ip := if (scap (cip c) =? 0)%nat then make_slice net.IPv6len net.IPv6len else cip c in
  mkCIDR (cPort c) (cNet c) (Slice (backing ip) 0) (cbcst c) (cmask c).

(** The loop of [setBroadcast], from the last byte to the first:
    [bcst[k] = Net.IP[k] | ^mask[k']]. *)
Fixpoint broadcast_rev (ip_rev mask_rev : bytes) : res bytes :=
  match mask_rev, ip_rev with
  | [], _ => Ret ip_rev
  | _ :: _, [] => Panic
  | m :: ms, b :: bs' => r <~ broadcast_rev bs' ms ;; Ret (Z.lor b (Z.lxor m 255) :: r)
  end.

Definition setBroadcast (c : CIDR) : res CIDR :=
  n <~ deref_net c ;;
  let b := if (scap (cbcst c) <? net.IPv6len)%nat
           then make_slice net.IPv6len net.IPv6len else cbcst c in
  b <~ reslice b (length (net.IP n)) ;;
  let b := copy_slice b (net.IP n) in
  r <~ broadcast_rev (rev (contents b)) (rev (net.Mask n)) ;;
  Ret (mkCIDR (cPort c) (cNet c) (cip c) (write_slice b (rev r)) (cmask c)).

(** [rnd] stands for the bytes [crypto/rand.Read] produces. *)
Definition setRandomMask (rnd : nat → Z) (c : CIDR) : res CIDR :=
  n <~ deref_net c ;;
  let m := if (scap (cmask c) <? length (net.IP n))%nat
           then make_slice 0 net.IPv6len else cmask c in
  m <~ reslice m (length (net.IP n)) ;;
  let m := write_slice m ((λ i, u8 (rnd i)) <$> seq 0 (slen m)) in
  let netmask := complement (net.Mask n) in
  r <~ andmask (contents m) netmask ;;
  let n' := {| net.IP := net.IP n; net.Mask := complement netmask |} in
  Ret (mkCIDR (cPort c) (Some n') (cip c) (cbcst c) (write_slice m r)).

Definition CIDR_Reset (rnd : nat → Z) (c : CIDR) : res CIDR :=
  c <~ setBroadcast (resetIP c) ;; setRandomMask rnd c.

(** [NewCIDR(cidr, port)()].  [parsed] is the result of [net.ParseCIDR(cidr)]: the
    subnet, or its error (with a nil subnet).  The strategy's value is returned beside
    the error, as in the source. *)
Definition NewCIDR (rnd : nat → Z) (parsed : option net.IPNet) (port : Z)
    : res (CIDR * option error) :=
  let c := mkCIDR port parsed nil_slice nil_slice nil_slice in
  c <~ CIDR_Reset rnd c ;;
  Ret (c, match parsed with Some _ => None | None => Some ErrParseCIDR end).

Definition more (c : CIDR) : res bool :=
  n <~ deref_net c ;; Ret (net.Contains n (contents (cip c))).

Definition ensureIP (n : net.IPNet) (ip : goslice) : res goslice :=
  if (scap ip <? length (net.IP n))%nat
  then Ret (make_slice (length (net.IP n)) net.IPv6len)
  else reslice ip (length (net.IP n)).

(** [for i := len-1; i >= 0; i-- { if ip[i]++; ip[i] > 0 { break } }] *)
Fixpoint incr_rev (l : bytes) : bytes :=
  match l with
  | [] => []
  | b :: l' => let b' := u8 (b + 1) in if 0 <? b' then b' :: l' else b' :: incr_rev l'
  end.

Definition incr_bytes (l : bytes) : bytes := rev (incr_rev (rev l)).

Definition incrIP (c : CIDR) : CIDR :=
  mkCIDR (cPort c) (cNet c) (write_slice (cip c) (incr_bytes (contents (cip c))))
    (cbcst c) (cmask c).

Definition skip (c : CIDR) (n : net.IPNet) (ip : goslice) : res (bool * goslice) :=
  let ip := copy_slice ip (contents (cip c)) in
  x <~ xormask (contents ip) (contents (cmask c)) ;;
  let ip := write_slice ip x in
  Ret (net.Equal (contents ip) (contents (cbcst c)) || net.Equal (contents ip) (net.IP n), ip).

(** [for c.skip(ip) { c.incrIP() }]: [None] is "out of fuel". *)
Fixpoint skip_loop (fuel : nat) (c : CIDR) (n : net.IPNet) (ip : goslice)
    : option (res (CIDR * goslice)) :=
  match fuel with
  | O => None
  | S fuel' =>
      match skip c n ip with
      | Ret (true, ip') => skip_loop fuel' (incrIP c) n ip'
      | Ret (false, ip') => Some (Ret (c, ip'))
      | Fail e => Some (Fail e)
      | Panic => Some Panic
      end
  end.

(** The address bits visited consecutively contain the network and the broadcast address
    at most once each, so three evaluations of [skip] always suffice
    ([skip_loop_spec] below). *)
Definition skip_fuel : nat := 3.

Definition nextIP (c : CIDR) (n : net.IPNet) (ip : goslice) : option (res (CIDR * goslice)) :=
  match ensureIP n ip with
  | Ret ip =>
      if (slen (cip c) =? 0)%nat
      then match reslice (cip c) (slen ip) : res goslice with
           | Ret cip' =>
               skip_loop skip_fuel
                 (mkCIDR (cPort c) (cNet c) (copy_slice cip' (net.IP n)) (cbcst c) (cmask c)) n ip
           | Fail e => Some (Fail e)
           | Panic => Some Panic
           end
      else skip_loop skip_fuel (incrIP c) n ip
  | Fail e => Some (Fail e)
  | Panic => Some Panic
  end.

Definition cidr_bind (c : CIDR) (a : addrKind) : option (res (CIDR * addrKind)) :=
  match deref_net c with
  | Ret n =>
      match nextIP c n (aIP a) with
      | Some (Ret (c', ip')) => Some (Ret (c', mkAddr ip' (cPort c) (aZone a)))
      | Some (Fail e) => Some (Fail e)
      | Some Panic => Some Panic
      | None => None
      end
  | Fail e => Some (Fail e)
  | Panic => Some Panic
  end.

Definition CIDR_Next (c : CIDR) (addr : Addr) : option (res (bool * Addr * CIDR)) :=
  match addr with
  | UDPAddr a =>
      match cidr_bind c a with
      | Some r => Some (x <~ r ;; ok <~ more (fst x) ;; Ret (ok, UDPAddr (snd x), fst x))
      | None => None
      end
  | TCPAddr a =>
      match cidr_bind c a with
      | Some r => Some (x <~ r ;; ok <~ more (fst x) ;; Ret (ok, TCPAddr (snd x), fst x))
      | None => None
      end
  | OtherAddr => Some (ok <~ more c ;; Ret (ok, OtherAddr, c))
  end.

(** [for c.Next(&addr) { visit(addr.IP) }], the loop of [Crawler.FindPeers]: the list of
    IPs visited before [Next] first returns false. *)
Fixpoint cidr_loop (fuel : nat) (c : CIDR) (addr : Addr) : option (res (list bytes)) :=
  match fuel with
  | O => None
  | S fuel' =>
      match CIDR_Next c addr with
      | Some (Ret (true, addr', c')) =>
          match cidr_loop fuel' c' addr' with
          | Some (Ret l) => Some (Ret (addr_ip addr' :: l))
          | r => r
          end
      | Some (Ret (false, _, _)) => Some (Ret [])
      | Some (Fail e) => Some (Fail e)
      | Some Panic => Some Panic
      | None => None
      end
  end.

(** ** [TranscoderCIDR] ([crawl.go]) *)
Definition is_digit (b : Z) : bool := (48 <=? b) && (b <=? 57).

(** [strconv.ParseUint(s, 10, 8)] *)
Fixpoint parse_digits (acc : Z) (s : bytes) : res Z :=
  match s with
  | [] => Ret acc
  | b :: s' => if is_digit b then parse_digits (acc * 10 + (b - 48)) s' else Fail ErrSyntax
  end.

Definition ParseUint8 (s : bytes) : res Z :=
  match s with
  | [] => Fail ErrSyntax
  | _ => n <~ parse_digits 0 s ;; if 255 <? n then Fail ErrRange else Ret n
  end.

(** [strconv.FormatUint(n, 10)] for a byte *)
Definition FormatUint8 (n : Z) : bytes :=
  if n <? 10 then [48 + n]
  else if n <? 100 then [48 + n / 10; 48 + n `mod` 10]
  else [48 + n / 100; 48 + (n / 10) `mod` 10; 48 + n `mod` 10].

Definition StringToBytes (cidrBlock : bytes) : res bytes :=
  num <~ ParseUint8 cidrBlock ;;
  if 128 <? num then Fail ErrCIDROverflow else Ret [u8 num].

Definition BytesToString (b : bytes) : res bytes :=
  match b with
  | [] => Panic
  | x :: rest => if (0 <? length rest)%nat || (128 <? x) then Fail ErrCIDROverflow
                 else Ret (FormatUint8 x)
  end.

Definition ValidateBytes (b : bytes) : res unit :=
  match b with
  | [] => Panic
  | x :: _ => if 128 <? u8 x then Fail ErrCIDROverflow else Ret tt
  end.

(** ** Byte-wise operations are the integer operations *)
Section bytewise.

Lemma testbit_snoc x a i :
  is_byte a → 0 ≤ i → Z.testbit (x * 256 + a) i = if i <? 8 then Z.testbit a i else Z.testbit x (i - 8).
Proof.
  intros Ha Hi. unfold is_byte in Ha.
  replace (x * 256 + a) with (a + x * 2 ^ 8) by lia.
  destruct (Z.ltb_spec i 8) as [Hlt|Hge].
  - rewrite <-(Z.mod_pow2_bits_low (a + x * 2 ^ 8) 8 i) by lia.
    rewrite Z_mod_plus_full, Z.mod_pow2_bits_low by lia. done.
  - replace i with (i - 8 + 8) at 1 by lia.
    rewrite <-Z.div_pow2_bits by lia.
    rewrite Z.div_add by lia. rewrite (Z.div_small a) by lia. done.
Qed.

(** A bitwise operation that maps bytes to bytes commutes with the encoding. *)
Lemma be_decode_zip (f : Z → Z → Z) (g : bool → bool → bool) :
  (∀ a b i, 0 ≤ i → Z.testbit (f a b) i = g (Z.testbit a i) (Z.testbit b i)) →
  (∀ a b, is_byte a → is_byte b → is_byte (f a b)) →
  f 0 0 = 0 →
  ∀ l k, wf_bytes l → wf_bytes k → length l = length k →
  be_decode (zip_with f l k) = f (be_decode l) (be_decode k).
Proof.
  intros Hbit Hbyte H0 l. induction l as [|a l IH] using rev_ind; intros k Hl Hk Hlen.
  - by destruct k.
  - destruct k as [|b k _] using rev_ind.
    { rewrite length_app in Hlen; simpl in Hlen; lia. }
    rewrite !length_app in Hlen. simpl in Hlen.
    apply wf_bytes_snoc in Hl as [Hl Ha], Hk as [Hk Hb].
    rewrite zip_with_app by lia. simpl. rewrite !be_decode_snoc, IH by (done || lia).
    apply Z.bits_inj'. intros i Hi.
    rewrite Hbit by done. rewrite !testbit_snoc by (try done; by apply Hbyte).
    destruct (Z.ltb_spec i 8); by rewrite Hbit by lia.
Qed.
End bytewise.

Lemma wf_zip (f : Z → Z → Z) l k :
  (∀ a b, is_byte a → is_byte b → is_byte (f a b)) →
  wf_bytes l → wf_bytes k → wf_bytes (zip_with f l k).
Proof.
  intros Hf Hl. revert k. induction Hl as [|a l Ha Hl IH]; intros [|b k] Hk; simpl; try constructor.
  - apply Forall_cons in Hk as [Hb Hk]. by apply Hf.
  - apply Forall_cons in Hk as [Hb Hk]. by apply IH.
Qed.

Create HintDb casm_bytes.
#[export] Hint Resolve lxor_byte land_byte lor_byte wf_zip be_encode_wf : casm_bytes.

Lemma be_decode_lxor l k :
  wf_bytes l → wf_bytes k → length l = length k →
  be_decode (zip_with Z.lxor l k) = Z.lxor (be_decode l) (be_decode k).
Proof.
  apply (be_decode_zip _ xorb); auto with casm_bytes. intros. apply Z.lxor_spec.
Qed.

Lemma be_decode_land l k :
  wf_bytes l → wf_bytes k → length l = length k →
  be_decode (zip_with Z.land l k) = Z.land (be_decode l) (be_decode k).
Proof.
  apply (be_decode_zip _ andb); auto with casm_bytes. intros. apply Z.land_spec.
Qed.

Lemma be_decode_lor l k :
  wf_bytes l → wf_bytes k → length l = length k →
  be_decode (zip_with Z.lor l k) = Z.lor (be_decode l) (be_decode k).
Proof.
  apply (be_decode_zip _ orb); auto with casm_bytes. intros. apply Z.lor_spec.
Qed.

Lemma lxor_255 b : is_byte b → Z.lxor b 255 = 255 - b.
Proof.
  intros Hb.
  assert (∀ n : nat, (n < 256)%nat → Z.lxor (Z.of_nat n) 255 = 255 - Z.of_nat n) as H.
  { assert (Forall (λ n, Z.lxor (Z.of_nat n) 255 = 255 - Z.of_nat n) (seq 0 256)) as HF.
    { apply (bool_decide_unpack _). vm_compute. done. }
    intros n Hn. rewrite Forall_forall in HF. apply HF. apply elem_of_seq. lia. }
  unfold is_byte in Hb. specialize (H (Z.to_nat b)). rewrite Z2Nat.id in H by lia. apply H. lia.
Qed.

Lemma complement_length m : length (complement m) = length m.
Proof. unfold complement. by rewrite length_fmap. Qed.

Lemma complement_wf m : wf_bytes m → wf_bytes (complement m).
Proof.
  intros H. unfold complement. apply Forall_fmap. eapply Forall_impl; [exact H|].
  intros b Hb; simpl. apply lxor_byte; [done|]. unfold is_byte; lia.
Qed.

Lemma complement_decode m :
  wf_bytes m → be_decode (complement m) = 256 ^ Z.of_nat (length m) - 1 - be_decode m.
Proof.
  induction m as [|b m IH] using rev_ind; intros Hwf; [done|].
  apply wf_bytes_snoc in Hwf as [Hm Hb]. unfold complement.
  rewrite fmap_app. simpl. rewrite !be_decode_snoc, length_app, Nat.add_1_r, pow256_S.
  fold (complement m). rewrite IH, lxor_255 by done. ring.
Qed.

Lemma complement_involutive m : wf_bytes m → complement (complement m) = m.
Proof.
  intros H. unfold complement. rewrite <-list_fmap_compose. rewrite <-(list_fmap_id m) at 2.
  apply list_fmap_ext. intros i b Hb. simpl. rewrite Z.lxor_assoc, Z.lxor_nilpotent. apply Z.lxor_0_r.
Qed.

Lemma maskloop_zip f dst src :
  length dst = length src → maskloop f dst src = Ret (zip_with f dst src).
Proof.
  revert src; induction dst as [|x d IH]; intros [|y s] Hlen; try done.
  simpl. rewrite IH by (simpl in Hlen; lia). done.
Qed.

Lemma incr_rev_length l : length (incr_rev l) = length l.
Proof. induction l as [|b l IH]; simpl; [done|]. case_match; simpl; lia. Qed.

Lemma incr_bytes_length l : length (incr_bytes l) = length l.
Proof. unfold incr_bytes. by rewrite length_rev, incr_rev_length, length_rev. Qed.

Lemma incr_bytes_snoc l b :
  incr_bytes (l ++ [b]) =
  if 0 <? u8 (b + 1) then l ++ [u8 (b + 1)] else incr_bytes l ++ [u8 (b + 1)].
Proof.
  unfold incr_bytes. rewrite rev_unit. simpl.
  case_match; simpl; [by rewrite rev_involutive|done].
Qed.

(** [incrIP] adds one to the big-endian integer, wrapping at its width. *)
Lemma incr_bytes_spec l :
  wf_bytes l →
  wf_bytes (incr_bytes l) ∧
  be_decode (incr_bytes l) = (be_decode l + 1) `mod` 256 ^ Z.of_nat (length l).
Proof.
  induction l as [|b l IH] using rev_ind; intros Hwf; [by split; [constructor|]|].
  apply wf_bytes_snoc in Hwf as [Hl Hb]. destruct (IH Hl) as [IHwf IHd].
  rewrite incr_bytes_snoc, length_app, Nat.add_1_r, pow256_S, be_decode_snoc.
  pose proof (be_decode_range l Hl) as Hr. pose proof (pow256_pos (length l)) as Hp.
  revert Hr Hp IHd. generalize (256 ^ Z.of_nat (length l)) as P; intros P Hr Hp IHd.
  unfold is_byte in Hb. destruct (Z.ltb_spec 0 (u8 (b + 1))) as [Hpos|Hz].
  - assert (u8 (b + 1) = b + 1) as Hu.
    { unfold wrap_u in *. destruct (decide (b = 255)) as [->|]; [done|]. rewrite Z.mod_small; lia. }
    rewrite Hu in *. split; [apply wf_bytes_snoc; split; [done|]|].
    { pose proof (wrap_u_range 8 (b + 1)). rewrite Hu in *. unfold in_u, is_byte in *. lia. }
    rewrite be_decode_snoc, Z.mod_small; [lia|].
    pose proof (wrap_u_range 8 (b + 1)) as Hr8. rewrite Hu in Hr8. unfold in_u in Hr8. nia.
  - assert (b = 255) as ->.
    { unfold wrap_u in *. destruct (decide (b = 255)) as [->|]; [done|].
      rewrite Z.mod_small in Hz; lia. }
    change (u8 (255 + 1)) with 0. split; [apply wf_bytes_snoc; split; [done|unfold is_byte; lia]|].
    rewrite be_decode_snoc, IHd.
    replace (be_decode l * 256 + 255 + 1) with (256 * (be_decode l + 1)) by lia.
    rewrite Z.mul_mod_distr_l by lia. lia.
Qed.

(** Only the addresses ::ffff:0:0/96 are read as IPv4 by [To4]. *)
Lemma To4_none_16 a :
  0 ≤ a < 256 ^ Z.of_nat net.IPv6len → 2 ^ 48 ≤ a ∨ a = 0 →
  net.To4 (be_encode net.IPv6len a) = None.
Proof.
  unfold net.IPv6len. intros Ha Hp. unfold net.To4. rewrite be_encode_length.
  cbn [Nat.eqb net.IPv4len net.IPv6len andb]. unfold bytes_eqb. case_bool_decide as Heq; [|done].
  exfalso. change 16%nat with (12 + 4)%nat in Heq.
  rewrite be_encode_app, take_app_length' in Heq by (by rewrite be_encode_length).
  apply (f_equal be_decode) in Heq. rewrite be_decode_encode in Heq.
  change (be_decode net.v4InV6Prefix) with 65535 in Heq.
  rewrite Z.mod_small in Heq.
  - pose proof (Z.mod_pos_bound a (256 ^ Z.of_nat 4)) as Hm.
    pose proof (Z.div_mod a (256 ^ Z.of_nat 4)) as Hd. rewrite Heq in Hd.
    destruct Hp as [Hp| ->]; [|done].
    change (256 ^ Z.of_nat 4) with 4294967296 in *. change (2 ^ 48) with 281474976710656 in Hp. lia.
  - split; [apply Z.div_pos; lia|]. apply Z.div_lt_upper_bound; [done|].
    change (256 ^ Z.of_nat 4 * 256 ^ Z.of_nat 12) with (256 ^ Z.of_nat 16). lia.
Qed.

(** ** The block of addresses a network denotes

    A network of [w] address bytes with [h] host bits: [N] is its number.  IPv6 networks
    inside the first 2^48 addresses are excluded: [net.IP.To4] reads part of that range as
    IPv4. *)
Section block.
Context (w : nat) (N h : Z).

Definition block_ok : Prop :=
  (w = net.IPv4len ∨ (w = net.IPv6len ∧ 2 ^ 48 ≤ N)) ∧
  0 ≤ h < 8 * Z.of_nat w ∧ 0 ≤ N < 256 ^ Z.of_nat w ∧ N `mod` 2 ^ h = 0.

Definition block_net : net.IPNet :=
  {| net.IP := be_encode w N; net.Mask := be_encode w (256 ^ Z.of_nat w - 2 ^ h) |}.

(** The hosts of the block: every address but the network and the broadcast address. *)
Definition block_hosts : list bytes := be_encode w <$> seqZ (N + 1) (2 ^ h - 2).

Hypothesis Hok : block_ok.

Abbreviation W := (256 ^ Z.of_nat w).
Abbreviation SZ := (2 ^ h).

Lemma W_pow : W = 2 ^ (8 * Z.of_nat w).
Proof. rewrite Z.pow_mul_r by lia. done. Qed.

Lemma SZ_pos : 0 < SZ.
Proof. apply Z.pow_pos_nonneg; destruct Hok; lia. Qed.

Lemma W_SZ : W = SZ * 2 ^ (8 * Z.of_nat w - h).
Proof. rewrite W_pow, <-Z.pow_add_r by (destruct Hok; lia). f_equal; lia. Qed.

Lemma top_ge_2 : 2 ≤ 2 ^ (8 * Z.of_nat w - h).
Proof. apply (Z.pow_le_mono_r 2 1); destruct Hok; lia. Qed.

Lemma N_mult : N = SZ * (N / SZ).
Proof.
  pose proof SZ_pos. destruct Hok as (_ & _ & _ & Hm).
  pose proof (Z.div_mod N SZ). lia.
Qed.

Lemma N_SZ_le : N + SZ ≤ W.
Proof.
  pose proof SZ_pos. pose proof N_mult as HN. rewrite W_SZ. destruct Hok as (_ & _ & HNr & _).
  rewrite W_SZ in HNr. assert (N / SZ < 2 ^ (8 * Z.of_nat w - h)) by (apply Z.div_lt_upper_bound; lia).
  nia.
Qed.

Lemma w_cases : (w = 4 ∨ w = 16)%nat.
Proof. destruct Hok as ([->|[-> _]] & _); auto. Qed.

(** Bits of a number split at position [h]. *)
Lemma testbit_split q k i :
  0 ≤ k < SZ → 0 ≤ i →
  Z.testbit (SZ * q + k) i = if i <? h then Z.testbit k i else Z.testbit q (i - h).
Proof.
  intros Hk Hi. assert (0 ≤ h) by (destruct Hok; lia).
  replace (SZ * q + k) with (k + q * 2 ^ h) by lia.
  destruct (Z.ltb_spec i h).
  - rewrite <-(Z.mod_pow2_bits_low (k + q * 2 ^ h) h i) by lia.
    rewrite Z_mod_plus_full, Z.mod_pow2_bits_low by lia. done.
  - replace i with (i - h + h) at 1 by lia. rewrite <-Z.div_pow2_bits by lia.
    rewrite Z.div_add by lia. rewrite (Z.div_small k) by lia. done.
Qed.

Lemma low_bits k : 0 ≤ k → (k < SZ ↔ ∀ i, h ≤ i → Z.testbit k i = false).
Proof.
  intros Hk. assert (0 ≤ h) by (destruct Hok; lia). split.
  - intros Hlt i Hi. rewrite <-(Z.mod_small k (2 ^ h)) by lia. apply Z.mod_pow2_bits_high; lia.
  - intros Hb. assert (k = k `mod` 2 ^ h) as ->; [|apply Z.mod_pos_bound, SZ_pos].
    apply Z.bits_inj'. intros i Hi. destruct (Z.lt_ge_cases i h).
    + by rewrite Z.mod_pow2_bits_low by lia.
    + by rewrite Z.mod_pow2_bits_high, Hb by lia.
Qed.

Lemma lxor_low a b : 0 ≤ a < SZ → 0 ≤ b < SZ → 0 ≤ Z.lxor a b < SZ.
Proof.
  intros Ha Hb. assert (0 ≤ Z.lxor a b) by (apply Z.lxor_nonneg; lia). split; [done|].
  apply low_bits; [done|]. intros i Hi. rewrite Z.lxor_spec.
  by rewrite (proj1 (low_bits a (proj1 Ha)) (proj2 Ha)), (proj1 (low_bits b (proj1 Hb)) (proj2 Hb)).
Qed.

(** XOR with a host mask permutes the hosts and fixes the network part. *)
Lemma lxor_split q k r :
  0 ≤ k < SZ → 0 ≤ r < SZ → Z.lxor (SZ * q + k) r = SZ * q + Z.lxor k r.
Proof.
  intros Hk Hr. pose proof (lxor_low k r Hk Hr). apply Z.bits_inj'. intros i Hi.
  rewrite Z.lxor_spec, !testbit_split by done. destruct (Z.ltb_spec i h).
  - by rewrite Z.lxor_spec.
  - rewrite (proj1 (low_bits r (proj1 Hr)) (proj2 Hr)) by lia. by rewrite xorb_false_r.
Qed.

Lemma land_mask q k :
  0 ≤ k < SZ → 0 ≤ SZ * q + k < W → Z.land (SZ * q + k) (W - SZ) = SZ * q.
Proof.
  intros Hk Hr. assert (0 ≤ h < 8 * Z.of_nat w) as Hh by (destruct Hok; lia).
  pose proof SZ_pos. rewrite <-(Z.add_0_r (SZ * q)) at 2.
  apply Z.bits_inj'. intros i Hi. rewrite Z.land_spec.
  replace (W - SZ) with (SZ * (2 ^ (8 * Z.of_nat w - h) - 1) + 0) by (rewrite W_SZ; ring).
  rewrite !testbit_split by lia. destruct (Z.ltb_spec i h); [by rewrite Z.bits_0, andb_false_r|].
  replace (2 ^ (8 * Z.of_nat w - h) - 1) with (Z.ones (8 * Z.of_nat w - h))
    by (rewrite Z.ones_equiv; lia).
  destruct (Z.lt_ge_cases (i - h) (8 * Z.of_nat w - h)).
  - rewrite Z.ones_spec_low by lia. by rewrite andb_true_r.
  - rewrite Z.ones_spec_high, andb_false_r by lia. symmetry.
    assert (0 ≤ q < 2 ^ (8 * Z.of_nat w - h)) as Hq by (rewrite W_SZ in Hr; nia).
    rewrite <-(Z.mod_small q (2 ^ (8 * Z.of_nat w - h))) by done.
    apply Z.mod_pow2_bits_high; lia.
Qed.

Lemma lor_hostmask : Z.lor N (SZ - 1) = N + SZ - 1.
Proof.
  pose proof SZ_pos. rewrite N_mult at 1. replace (N + SZ - 1) with (SZ * (N / SZ) + (SZ - 1))
    by (rewrite <-N_mult; lia).
  apply Z.bits_inj'. intros i Hi. rewrite Z.lor_spec.
  rewrite <-(Z.add_0_r (SZ * (N / SZ))) at 1. rewrite !testbit_split by lia.
  destruct (Z.ltb_spec i h); [by rewrite Z.bits_0|].
  assert (Z.testbit (SZ - 1) i = false) as ->; [|by rewrite orb_false_r].
  apply low_bits; lia.
Qed.

Abbreviation enc := (be_encode w).

Lemma enc_decode a : 0 ≤ a < W → be_decode (enc a) = a.
Proof. intros Ha. by rewrite be_decode_encode, Z.mod_small. Qed.

Lemma enc_inj a b : 0 ≤ a < W → 0 ≤ b < W → enc a = enc b → a = b.
Proof. intros Ha Hb Heq. by rewrite <-(enc_decode a), <-(enc_decode b), Heq. Qed.

Lemma enc_decoded l a : wf_bytes l → length l = w → be_decode l = a → l = enc a.
Proof. intros Hwf <- <-. by rewrite be_encode_decode. Qed.

Lemma enc_lxor a b :
  0 ≤ a < W → 0 ≤ b < W → zip_with Z.lxor (enc a) (enc b) = enc (Z.lxor a b).
Proof.
  intros Ha Hb. apply enc_decoded; [eauto with casm_bytes| |].
  - rewrite length_zip_with, !be_encode_length. lia.
  - rewrite be_decode_lxor, !enc_decode; auto with casm_bytes. by rewrite !be_encode_length.
Qed.

Lemma enc_incr a : 0 ≤ a < W → incr_bytes (enc a) = enc ((a + 1) `mod` W).
Proof.
  intros Ha. destruct (incr_bytes_spec (enc a)) as [Hwf Hd]; [apply be_encode_wf|].
  apply enc_decoded; [done|by rewrite incr_bytes_length, be_encode_length|].
  by rewrite Hd, enc_decode, be_encode_length.
Qed.

Definition plain (a : Z) : Prop := w = net.IPv6len → 2 ^ 48 ≤ a ∨ a = 0.

Lemma enc_To4 a :
  0 ≤ a < W → plain a →
  match net.To4 (enc a) with Some x => x | None => enc a end = enc a.
Proof.
  intros Ha Hp. unfold net.To4. rewrite be_encode_length.
  destruct (Nat.eqb_spec w net.IPv4len) as [|Hne]; [done|].
  destruct (Nat.eqb_spec w net.IPv6len) as [Hw|]; [|done].
  specialize (Hp Hw). rewrite Hw in *. pose proof (To4_none_16 a Ha Hp) as HT.
  unfold net.To4 in HT. rewrite be_encode_length in HT. cbn [Nat.eqb net.IPv4len net.IPv6len] in *.
  by rewrite HT.
Qed.

Lemma N_plain : plain N.
Proof. intros Hw. destruct Hok as ([Hw'|[_ ?]] & _); [by rewrite Hw in Hw'|by left]. Qed.

Lemma block_nnm : net.networkNumberAndMask block_net = (enc N, enc (W - SZ)).
Proof.
  unfold net.networkNumberAndMask, block_net; cbn [net.IP net.Mask].
  pose proof (enc_To4 N (proj1 (proj2 (proj2 Hok))) N_plain) as HT.
  destruct (net.To4 (enc N)) as [x|] eqn:E; rewrite ?HT, !be_encode_length.
  - subst x. unfold net.IPv4len, net.IPv6len in *.
    destruct w_cases as [->| ->]; [done|]. simpl. done.
  - unfold net.To4 in E. rewrite be_encode_length in E.
    destruct w_cases as [Hw|Hw]; unfold net.IPv4len, net.IPv6len in *; rewrite Hw in *; [done|].
    cbn [Nat.eqb]. by rewrite be_encode_length.
Qed.

Lemma contains_spec a :
  0 ≤ a < W → plain a → net.Contains block_net (enc a) = bool_decide (a / SZ = N / SZ).
Proof.
  intros Ha Hp. unfold net.Contains. rewrite block_nnm, enc_To4 by done.
  rewrite !be_encode_length, Nat.eqb_refl. cbn [negb]. unfold net.masked_eqb.
  pose proof SZ_pos as HS. pose proof (proj1 (proj2 (proj2 Hok))) as HN.
  assert (0 ≤ W - SZ < W) as HM by (pose proof N_SZ_le; lia).
  assert (∀ x, 0 ≤ x < W → be_decode (zip_with Z.land (enc x) (enc (W - SZ))) = SZ * (x / SZ)) as Hl.
  { intros x Hx. rewrite be_decode_land, !enc_decode; auto with casm_bytes; [|by rewrite !be_encode_length].
    pose proof (Z.div_mod x SZ). pose proof (Z.mod_pos_bound x SZ HS).
    replace x with (SZ * (x / SZ) + x `mod` SZ) at 1 by lia. apply land_mask; lia. }
  apply bool_decide_ext. split; intros Heq.
  - apply (f_equal be_decode) in Heq. rewrite !Hl in Heq by done. nia.
  - apply be_decode_inj; [by eauto with casm_bytes..| |by rewrite !Hl, Heq].
    rewrite !length_zip_with, !be_encode_length. done.
Qed.

(** ** The traversal as a counter

    While the crawl runs, [c.ip] is [N + k] for a counter [k]; [r] is the random mask. *)
Context (r : Z) (port : Z).
Hypothesis Hr : 0 ≤ r < SZ.

Definition pos (k : Z) : Z := (N + k) `mod` W.

Record inv (c : CIDR) (k : Z) : Prop := {
  inv_net : cNet c = Some block_net;
  inv_ip : contents (cip c) = enc (pos k);
  inv_iplen : slen (cip c) = w;
  inv_ipcap : (w ≤ scap (cip c))%nat;
  inv_bcst : contents (cbcst c) = enc (N + SZ - 1);
  inv_mask : contents (cmask c) = enc r;
}.

Lemma pos_low k : 0 ≤ k < SZ → pos k = N + k.
Proof.
  intros Hk. pose proof N_SZ_le. unfold pos. apply Z.mod_small.
  destruct Hok as (_ & _ & HN & _). lia.
Qed.

Lemma pos_range k : 0 ≤ pos k < W.
Proof. apply Z.mod_pos_bound, pow256_pos. Qed.

Lemma pos_succ k : (pos k + 1) `mod` W = pos (k + 1).
Proof. unfold pos. rewrite Zplus_mod_idemp_l. f_equal; lia. Qed.

Lemma inv_incr c k : inv c k → inv (incrIP c) (k + 1).
Proof.
  intros [Hn Hi Hl Hc Hb Hm]. split; try done; simpl.
  - rewrite write_slice_contents.
    + rewrite Hi, enc_incr by apply pos_range. by rewrite pos_succ.
    + by rewrite incr_bytes_length, Hi, be_encode_length.
  - rewrite write_slice_scap; [done|]. rewrite incr_bytes_length, Hi, be_encode_length. done.
Qed.

(** The end position lies outside the block. *)
Lemma pos_end_div : pos SZ / SZ ≠ N / SZ.
Proof.
  pose proof SZ_pos as HS. pose proof N_SZ_le as Hle. pose proof top_ge_2. pose proof W_SZ.
  destruct Hok as (_ & _ & HN & _). unfold pos.
  destruct (decide (N + SZ = W)) as [He|Hne].
  - rewrite He, Z.mod_same by (pose proof (pow256_pos w); lia). rewrite Z.div_0_l by lia.
    intros Heq. pose proof N_mult as HNm. rewrite <-Heq in HNm. nia.
  - rewrite Z.mod_small by lia. replace (N + SZ) with (N + 1 * SZ) by lia. rewrite Z.div_add by lia. lia.
Qed.

Lemma pos_plain k : 0 ≤ k ≤ SZ → plain (pos k).
Proof.
  intros Hk Hw. destruct Hok as ([Hw4|[_ HN]] & _ & HNr & _); [unfold net.IPv4len, net.IPv6len in *; lia|].
  pose proof N_SZ_le as Hle. unfold pos.
  destruct (decide (N + k = W)) as [->|Hne].
  - right. apply Z.mod_same. pose proof (pow256_pos w); lia.
  - left. rewrite Z.mod_small; lia.
Qed.

Definition visit (k : Z) : Z := Z.lxor (pos k) r.

Lemma visit_low k : 0 ≤ k < SZ → visit k = N + Z.lxor k r.
Proof.
  intros Hk. unfold visit. rewrite pos_low by done. rewrite N_mult at 1.
  rewrite lxor_split by done. by rewrite <-N_mult.
Qed.

Lemma visit_range k : 0 ≤ visit k < W.
Proof.
  pose proof SZ_pos. unfold visit. pose proof (pos_range k) as Hp.
  pose proof (Z.div_mod (pos k) SZ). pose proof (Z.mod_pos_bound (pos k) SZ SZ_pos) as Hm.
  replace (pos k) with (SZ * (pos k / SZ) + pos k `mod` SZ) by lia.
  rewrite lxor_split by done. pose proof (lxor_low _ _ Hm Hr).
  pose proof W_SZ as HW. rewrite HW in *. pose proof top_ge_2.
  assert (pos k / SZ < 2 ^ (8 * Z.of_nat w - h)) by (apply Z.div_lt_upper_bound; lia).
  assert (0 ≤ pos k / SZ) by (apply Z.div_pos; lia). nia.
Qed.

Lemma visit_div k : visit k / SZ = pos k / SZ.
Proof.
  pose proof SZ_pos. unfold visit.
  pose proof (Z.div_mod (pos k) SZ). pose proof (Z.mod_pos_bound (pos k) SZ SZ_pos) as Hm.
  replace (pos k) with (SZ * (pos k / SZ) + pos k `mod` SZ) at 1 by lia.
  rewrite lxor_split by done. pose proof (lxor_low _ _ Hm Hr).
  rewrite Z.add_comm, (Z.mul_comm SZ), Z.div_add by lia. rewrite (Z.div_small (Z.lxor _ _)) by done. lia.
Qed.

(** Positions [skip] passes over: the network and the broadcast address. *)
Definition skipped (k : Z) : bool :=
  bool_decide (visit k = N + SZ - 1) || bool_decide (visit k = N).

Lemma skipped_end : skipped SZ = false.
Proof.
  pose proof SZ_pos. pose proof pos_end_div as Hd. rewrite <-visit_div in Hd.
  unfold skipped. apply orb_false_iff. split; apply bool_decide_eq_false; intros Heq; rewrite Heq in Hd; apply Hd; [|done].
  pose proof N_mult as HN. rewrite HN at 1. replace (SZ * (N / SZ) + SZ - 1) with (SZ - 1 + (N / SZ) * SZ) by lia.
  rewrite Z.div_add, (Z.div_small (SZ - 1)) by lia. lia.
Qed.

Record buf_ok (ip : goslice) : Prop := { buf_len : slen ip = w; buf_cap : (w ≤ scap ip)%nat }.

Lemma equal_enc x a :
  0 ≤ x < W → 0 ≤ a < W → net.Equal (enc x) (enc a) = bool_decide (x = a).
Proof.
  intros Hx Ha. unfold net.Equal. rewrite !be_encode_length, Nat.eqb_refl. unfold bytes_eqb.
  apply bool_decide_ext. split; [by apply enc_inj|by intros ->].
Qed.

Lemma skip_spec c k ip :
  inv c k → buf_ok ip →
  ∃ ip', skip c block_net ip = Ret (skipped k, ip') ∧ buf_ok ip' ∧ contents ip' = enc (visit k).
Proof.
  intros [Hn Hi Hl Hc Hb Hm] [Bl Bc]. unfold skip.
  pose proof N_SZ_le. pose proof SZ_pos. pose proof (visit_range k) as Hv.
  pose proof (proj1 (proj2 (proj2 Hok))) as HN.
  assert (length (contents (cip c)) = slen ip) as Hlen by (by rewrite Hi, be_encode_length).
  rewrite copy_slice_contents by done. unfold xormask.
  rewrite maskloop_zip by (by rewrite Hi, Hm, !be_encode_length). cbn [bind].
  rewrite Hi, Hm, enc_lxor by (apply pos_range || lia). fold (visit k).
  set (ip' := write_slice _ _). assert (contents ip' = enc (visit k)) as Hc'.
  { apply write_slice_contents. simpl. by rewrite be_encode_length. }
  exists ip'. rewrite Hc', Hb. cbn [net.IP block_net].
  rewrite !equal_enc by lia.
  split_and!; [done| |done]. split; [done|]. unfold ip'.
  assert (scap (copy_slice ip (enc (pos k))) = scap ip) as Hcap.
  { apply copy_slice_scap; [by rewrite be_encode_length|lia]. }
  rewrite write_slice_scap; rewrite Hcap; [done|by rewrite be_encode_length].
Qed.

(** The two skipped counters, and how many of them are still ahead of [k]. *)
Lemma skipped_cases k :
  0 ≤ k < SZ → skipped k = true → k = r ∨ k = Z.lxor (SZ - 1) r.
Proof.
  intros Hk Hs. unfold skipped in Hs. rewrite visit_low in Hs by done.
  apply orb_true_iff in Hs as [Hs|Hs]; apply bool_decide_eq_true in Hs.
  - right. replace (SZ - 1) with (Z.lxor k r) by lia.
    by rewrite Z.lxor_assoc, Z.lxor_nilpotent, Z.lxor_0_r.
  - left. apply Z.lxor_eq. lia.
Qed.

Definition ahead (k : Z) : nat :=
  (if k <=? r then 1 else 0) + (if k <=? Z.lxor (SZ - 1) r then 1 else 0).

Lemma skip_loop_spec fuel c k ip :
  (ahead k < fuel)%nat → 0 ≤ k ≤ SZ → inv c k → buf_ok ip →
  ∃ k' c' ip', skip_loop fuel c block_net ip = Some (Ret (c', ip')) ∧
    k ≤ k' ≤ SZ ∧ (∀ j, k ≤ j < k' → skipped j = true) ∧ skipped k' = false ∧
    inv c' k' ∧ cPort c' = cPort c ∧ buf_ok ip' ∧ contents ip' = enc (visit k').
Proof.
  revert c k ip. induction fuel as [|fuel IH]; intros c k ip Hf Hk Hinv Hbuf; [lia|].
  destruct (skip_spec c k ip Hinv Hbuf) as (ip' & Hs & Hbuf' & Hc). cbn [skip_loop]. rewrite Hs.
  destruct (skipped k) eqn:Hsk.
  - assert (k < SZ) as Hlt.
    { destruct (decide (k = SZ)) as [->|]; [by rewrite skipped_end in Hsk|lia]. }
    destruct (IH (incrIP c) (k + 1) ip') as (k' & c' & ip2 & H1 & H2 & H3 & H4 & H5 & H6 & H7 & H8);
      [|lia|by apply inv_incr|done|].
    { pose proof (skipped_cases k ltac:(lia) Hsk). unfold ahead in *.
      destruct (Z.leb_spec k r), (Z.leb_spec k (Z.lxor (SZ - 1) r)),
        (Z.leb_spec (k + 1) r), (Z.leb_spec (k + 1) (Z.lxor (SZ - 1) r)); lia. }
    exists k', c', ip2. split_and!; try done; try lia.
    intros j Hj. destruct (decide (j = k)) as [->|]; [done|]. apply H3. lia.
  - exists k, c, ip'. split_and!; try done; lia.
Qed.

(** The state before the first call, and the state before visiting counter [k]. *)
Inductive ready : CIDR → Z → Prop :=
| ready_fresh c :
    cNet c = Some block_net → slen (cip c) = 0%nat → (w ≤ scap (cip c))%nat →
    contents (cbcst c) = enc (N + SZ - 1) → contents (cmask c) = enc r → ready c 0
| ready_running c k : inv c (k - 1) → ready c k.

Lemma next_start c k ip :
  ready c k → 0 ≤ k ≤ SZ →
  ∃ c0 ip0, nextIP c block_net ip = skip_loop skip_fuel c0 block_net ip0 ∧
    inv c0 k ∧ cPort c0 = cPort c ∧ buf_ok ip0.
Proof.
  intros Hready Hk. pose proof w_cases as Hw.
  assert (∃ ip0, ensureIP block_net ip = Ret ip0 ∧ buf_ok ip0) as (ip0 & He & Hb0).
  { unfold ensureIP. cbn [net.IP block_net]. rewrite be_encode_length.
    destruct (Nat.ltb_spec (scap ip) w) as [Hlt|Hge].
    - eexists; split; [done|]. split; [done|]. unfold scap; simpl. lia.
    - unfold reslice. destruct (Nat.leb_spec w (scap ip)); [|lia]. eexists; split; [done|]. by split. }
  unfold nextIP. rewrite He. destruct Hready as [c Hn Hl Hc Hb Hm|c k Hinv].
  - rewrite Hl. cbn [Nat.eqb]. unfold reslice.
    rewrite (buf_len _ Hb0). destruct (Nat.leb_spec w (scap (cip c))) as [_|]; [|lia].
    do 2 eexists; split; [reflexivity|]. split_and!; [|done|done].
    assert (contents (copy_slice (Slice (backing (cip c)) w) (enc N)) = enc N) as Hcp.
    { apply copy_slice_contents. by rewrite be_encode_length. }
    split; try done; cbn [cip cNet cbcst cmask net.IP block_net].
    + rewrite Hcp, pos_low, Z.add_0_r by (pose proof SZ_pos; lia). done.
    + rewrite copy_slice_scap; [done|by rewrite be_encode_length|done].
  - rewrite (inv_iplen _ _ Hinv). destruct (Nat.eqb_spec w 0); [lia|].
    do 2 eexists; split; [reflexivity|]. split_and!; [|done|done].
    replace k with (k - 1 + 1) by lia. by apply inv_incr.
Qed.

Lemma ahead_le k : (ahead k < skip_fuel)%nat.
Proof. unfold ahead, skip_fuel. repeat case_match; lia. Qed.

Lemma more_spec c k : inv c k → 0 ≤ k ≤ SZ → more c = Ret (bool_decide (k < SZ)).
Proof.
  intros Hinv Hk. unfold more, deref_net. rewrite (inv_net _ _ Hinv). cbn [bind].
  rewrite (inv_ip _ _ Hinv), contains_spec by (apply pos_range || by apply pos_plain).
  f_equal. apply bool_decide_ext. destruct (decide (k = SZ)) as [->|Hne].
  - split; [by intros ?%pos_end_div|lia].
  - split; [lia|]. intros _. pose proof SZ_pos. rewrite pos_low by lia. rewrite N_mult at 1.
    rewrite Z.add_comm, (Z.mul_comm SZ), Z.div_add, Z.div_small by lia. lia.
Qed.

Lemma next_spec c k a :
  ready c k → 0 ≤ k ≤ SZ →
  ∃ k' c' a', CIDR_Next c (UDPAddr a) = Some (Ret (bool_decide (k' < SZ), UDPAddr a', c')) ∧
    k ≤ k' ≤ SZ ∧ (∀ j, k ≤ j < k' → skipped j = true) ∧ skipped k' = false ∧
    ready c' (k' + 1) ∧ contents (aIP a') = enc (visit k') ∧ aPort a' = cPort c.
Proof.
  intros Hready Hk. destruct (next_start c k (aIP a) Hready Hk) as (c0 & ip0 & Hn & Hinv & Hp & Hbuf).
  destruct (skip_loop_spec skip_fuel c0 k ip0 (ahead_le k) Hk Hinv Hbuf)
    as (k' & c' & ip' & Hs & H1 & H2 & H3 & H4 & H5 & _ & H6).
  exists k', c', (mkAddr ip' (cPort c) (aZone a)).
  assert (cNet c = Some block_net) as HN by (destruct Hready as [|? ? Hi]; [done|apply (inv_net _ _ Hi)]).
  split_and!; try done; try lia; [|constructor; by replace (k' + 1 - 1) with k' by lia].
  unfold CIDR_Next, cidr_bind, deref_net. rewrite HN, Hn, Hs. cbn [bind fst snd].
  rewrite (more_spec c' k') by (done || lia). done.
Qed.

Definition todo (k : Z) : list Z := filter (λ j, skipped j = false) (seqZ k (SZ - k)).

Lemma todo_skip k k' :
  k ≤ k' ≤ SZ → (∀ j, k ≤ j < k' → skipped j = true) → todo k = todo k'.
Proof.
  intros Hk Hs. unfold todo. replace (SZ - k) with ((k' - k) + (SZ - k')) by lia.
  rewrite seqZ_app by lia. rewrite filter_app. replace (k + (k' - k)) with k' by lia.
  replace (filter _ (seqZ k (k' - k))) with (@nil Z); [done|]. symmetry.
  apply filter_none. intros j Hj. apply elem_of_seqZ in Hj. rewrite Hs by lia. done.
Qed.

Lemma todo_cons k : k < SZ → skipped k = false → todo k = k :: todo (k + 1).
Proof.
  intros Hk Hs. unfold todo. rewrite seqZ_cons by lia.
  rewrite filter_cons_True by done. by replace (Z.pred (SZ - k)) with (SZ - Z.succ k) by lia.
Qed.

Lemma loop_spec fuel c k a :
  ready c k → 0 ≤ k ≤ SZ → (Z.to_nat (SZ - k) < fuel)%nat →
  cidr_loop fuel c (UDPAddr a) = Some (Ret ((λ j, enc (visit j)) <$> todo k)).
Proof.
  revert c k a. induction fuel as [|fuel IH]; intros c k a Hready Hk Hf; [lia|].
  destruct (next_spec c k a Hready Hk) as (k' & c' & a' & Hn & H1 & H2 & H3 & H4 & H5 & _).
  cbn [cidr_loop]. rewrite Hn, (todo_skip k k') by done. case_bool_decide as Hlt.
  - rewrite (IH c' (k' + 1) a') by (done || lia). rewrite (todo_cons k') by done.
    cbn [addr_ip]. rewrite H5. done.
  - assert (k' = SZ) as -> by lia. unfold todo. by rewrite Z.sub_diag.
Qed.

(** Every host is visited, and only once. *)
Lemma todo_hosts : (λ j, enc (visit j)) <$> todo 0 ≡ₚ block_hosts.
Proof.
  pose proof SZ_pos. unfold block_hosts.
  rewrite (list_fmap_compose visit enc). apply Permutation_map. apply NoDup_Permutation.
  - apply NoDup_fmap_2_strong; [|apply NoDup_filter, NoDup_seqZ].
    intros i j Hi Hj. apply list_elem_of_filter in Hi as [_ Hi], Hj as [_ Hj].
    apply elem_of_seqZ in Hi, Hj. rewrite !visit_low by lia. intros Heq.
    assert (Z.lxor i r = Z.lxor j r) as Hx by lia. apply (f_equal (λ z, Z.lxor z r)) in Hx.
    by rewrite !Z.lxor_assoc, Z.lxor_nilpotent, !Z.lxor_0_r in Hx.
  - apply NoDup_seqZ.
  - intros x. rewrite list_elem_of_fmap, elem_of_seqZ. split.
    + intros (j & -> & Hj). apply list_elem_of_filter in Hj as [Hs Hj]. apply elem_of_seqZ in Hj.
      unfold skipped in Hs. apply orb_false_iff in Hs as [Hs1%bool_decide_eq_false Hs2%bool_decide_eq_false].
      rewrite visit_low in * by lia. pose proof (lxor_low j r ltac:(lia) Hr). lia.
    + intros Hx. pose proof (lxor_low (x - N) r ltac:(lia) Hr) as Hl.
      assert (visit (Z.lxor (x - N) r) = x) as Hv.
      { rewrite visit_low by lia. rewrite Z.lxor_assoc, Z.lxor_nilpotent, Z.lxor_0_r. lia. }
      exists (Z.lxor (x - N) r). split; [done|]. apply list_elem_of_filter. split.
      * unfold skipped. rewrite Hv. apply orb_false_iff. split; apply bool_decide_eq_false; lia.
      * apply elem_of_seqZ. lia.
Qed.
End block.

(** [Reset] leaves the iterator at the start of the block, with some host mask. *)
Section init.
Context (w : nat) (N h : Z) (Hok : block_ok w N h).

Lemma broadcast_rev_snoc ip m b c :
  broadcast_rev (rev (ip ++ [b])) (rev (m ++ [c])) =
  (x <~ broadcast_rev (rev ip) (rev m) ;; Ret (Z.lor b (Z.lxor c 255) :: x)).
Proof. by rewrite !rev_unit. Qed.

Lemma broadcast_rev_spec ip m :
  length ip = length m →
  broadcast_rev (rev ip) (rev m) = Ret (rev (zip_with Z.lor ip (complement m))).
Proof.
  revert m; induction ip as [|b ip IH] using rev_ind; intros m Hlen.
  - by destruct m.
  - destruct m as [|c m _] using rev_ind; rewrite !length_app in Hlen; simpl in Hlen; [lia|].
    rewrite broadcast_rev_snoc, IH by lia. simpl. unfold complement. rewrite fmap_app.
    rewrite zip_with_app by (rewrite length_fmap; lia). simpl. by rewrite rev_unit.
Qed.

Lemma hostmask_decode : be_decode (complement (net.Mask (block_net w N h))) = 2 ^ h - 1.
Proof.
  pose proof (SZ_pos w N h Hok). pose proof (N_SZ_le w N h Hok). pose proof (proj1 (proj2 (proj2 Hok))).
  cbn [net.Mask block_net]. rewrite complement_decode by apply be_encode_wf.
  rewrite be_encode_length, be_decode_encode, Z.mod_small by lia. lia.
Qed.

Lemma setBroadcast_spec c :
  cNet c = Some (block_net w N h) → scap (cbcst c) = 0%nat →
  ∃ b, setBroadcast c = Ret (mkCIDR (cPort c) (cNet c) (cip c) b (cmask c)) ∧
    contents b = be_encode w (N + 2 ^ h - 1).
Proof.
  intros Hn Hcap. pose proof (w_cases w N h Hok) as Hw. pose proof (proj1 (proj2 (proj2 Hok))) as HN.
  unfold setBroadcast, deref_net. rewrite Hn, Hcap. cbn [bind].
  change (0 <? net.IPv6len)%nat with true. cbv iota. unfold reslice.
  cbn [net.IP block_net]. rewrite be_encode_length.
  change (scap (make_slice net.IPv6len net.IPv6len)) with 16%nat.
  destruct (Nat.leb_spec w 16); [|lia]. cbn [bind].
  rewrite copy_slice_contents by (by rewrite be_encode_length).
  rewrite broadcast_rev_spec by (cbn [net.Mask block_net]; by rewrite !be_encode_length). cbn [bind].
  eexists; split; [done|]. rewrite rev_involutive.
  rewrite write_slice_contents
    by (rewrite length_zip_with, complement_length; cbn [net.Mask block_net]; rewrite !be_encode_length; simpl; lia).
  apply (enc_decoded w).
  - apply wf_zip; [apply lor_byte|apply be_encode_wf|apply complement_wf, be_encode_wf].
  - rewrite length_zip_with, complement_length. cbn [net.Mask block_net]. rewrite !be_encode_length. lia.
  - rewrite be_decode_lor, hostmask_decode, (enc_decode w) by
      (done || apply be_encode_wf || apply complement_wf, be_encode_wf
       || (rewrite complement_length; cbn [net.Mask block_net]; by rewrite !be_encode_length)).
    apply (lor_hostmask w N h Hok).
Qed.

Lemma setRandomMask_spec rnd c :
  cNet c = Some (block_net w N h) → scap (cmask c) = 0%nat →
  ∃ m r, setRandomMask rnd c = Ret (mkCIDR (cPort c) (cNet c) (cip c) (cbcst c) m) ∧
    0 ≤ r < 2 ^ h ∧ contents m = be_encode w r.
Proof.
  intros Hn Hcap. pose proof (w_cases w N h Hok) as Hw. pose proof (SZ_pos w N h Hok) as HS.
  unfold setRandomMask, deref_net. rewrite Hn, Hcap. cbn [bind net.IP block_net].
  rewrite be_encode_length. destruct (Nat.ltb_spec 0 w); [|lia]. unfold reslice.
  change (scap (make_slice 0 net.IPv6len)) with 16%nat.
  destruct (Nat.leb_spec w 16); [|lia]. cbn [bind slen].
  set (R := (λ i, u8 (rnd i)) <$> seq 0 w).
  assert (length R = w) as HR by (unfold R; by rewrite length_fmap, length_seq).
  assert (wf_bytes R) as HRw.
  { unfold R. apply Forall_fmap, Forall_forall. intros i _. simpl.
    apply (wrap_u_range 8). lia. }
  rewrite write_slice_contents by done. unfold andmask.
  assert (length R = length (complement (net.Mask (block_net w N h)))) as Hlm.
  { rewrite complement_length. cbn [net.Mask block_net]. by rewrite be_encode_length. }
  rewrite maskloop_zip by done. cbn [bind].
  assert (complement (complement (net.Mask (block_net w N h))) = net.Mask (block_net w N h)) as ->.
  { apply complement_involutive, be_encode_wf. }
  set (X := zip_with Z.land R _).
  assert (wf_bytes X) as HX by (apply wf_zip; [apply land_byte|done|apply complement_wf, be_encode_wf]).
  assert (length X = w) as HXl by (unfold X; rewrite length_zip_with, <-Hlm; lia).
  eexists _, (be_decode X). split; [done|]. split.
  - unfold X. rewrite be_decode_land, hostmask_decode by (done || apply complement_wf, be_encode_wf).
    pose proof (be_decode_range R HRw). split; [apply Z.land_nonneg; lia|].
    replace (2 ^ h - 1) with (Z.ones h) by (rewrite Z.ones_equiv; lia).
    rewrite Z.land_ones by (destruct Hok; lia). by apply Z.mod_pos_bound.
  - rewrite write_slice_contents by done. by apply (enc_decoded w).
Qed.

Lemma NewCIDR_spec rnd port :
  ∃ c r, NewCIDR rnd (Some (block_net w N h)) port = Ret (c, None) ∧
    0 ≤ r < 2 ^ h ∧ ready w N h r c 0 ∧ cPort c = port.
Proof.
  unfold NewCIDR, CIDR_Reset. set (c0 := resetIP _).
  destruct (setBroadcast_spec c0) as (b & Hb & Hbc); [done..|]. rewrite Hb. cbn [bind].
  set (c1 := mkCIDR _ _ _ _ _).
  destruct (setRandomMask_spec rnd c1) as (m & r & Hm & Hr & Hmc); [done..|]. rewrite Hm. cbn [bind].
  eexists _, r. split; [done|]. split_and!; try done; [apply Hr..|].
  constructor; try done. cbn. pose proof (w_cases w N h Hok). lia.
Qed.
End init.

(** The CIDR crawl visits every host address of the block exactly once, skips the
    network and the broadcast address, and then stops: for every choice of the random
    mask, [NewCIDR] succeeds and the loop over [Next] returns a permutation of the block's
    hosts, for any number of iterations above the block size. *)
Theorem cidr_visits_hosts_once rnd w N h port a :
  block_ok w N h →
  ∃ c l, NewCIDR rnd (Some (block_net w N h)) port = Ret (c, None) ∧
    l ≡ₚ block_hosts w N h ∧
    ∀ fuel, (Z.to_nat (2 ^ h) < fuel)%nat → cidr_loop fuel c (UDPAddr a) = Some (Ret l).
Proof.
  intros Hok. destruct (NewCIDR_spec w N h Hok rnd port) as (c & r & Hn & Hr & Hready & _).
  exists c, ((λ j, be_encode w (visit w N r j)) <$> todo w N h r 0). split_and!; [done|by apply todo_hosts|].
  intros fuel Hf. pose proof (SZ_pos w N h Hok). apply (loop_spec w N h Hok r Hr); [done|lia|].
  by rewrite Z.sub_0_r.
Qed.

Lemma cidr_visits_hosts_once_witness :
  block_ok 4 (be_decode [10; 0; 0; 248]) 3 ∧
  ∃ c l, NewCIDR (λ i, 41 * Z.of_nat i) (Some (block_net 4 (be_decode [10; 0; 0; 248]) 3)) 8822 = Ret (c, None) ∧
    l ≡ₚ block_hosts 4 (be_decode [10; 0; 0; 248]) 3 ∧
    ∀ fuel, (Z.to_nat (2 ^ 3) < fuel)%nat → cidr_loop fuel c (UDPAddr zero_addr) = Some (Ret l).
Proof.
  assert (block_ok 4 (be_decode [10; 0; 0; 248]) 3) as Hok.
  { split_and!; [by left|lia|lia|vm_compute; done..]. }
  split; [exact Hok|]. apply (cidr_visits_hosts_once _ 4 _ 3 8822 zero_addr Hok).
Defined.

(** A CIDR string that [net.ParseCIDR] rejects makes the strategy panic: [Reset]
    dereferences the nil subnet before the error can be returned. *)
Theorem new_cidr_parse_error_panics rnd port : NewCIDR rnd None port = Panic.
Proof. done. Qed.

(** ** Port ranges *)
Definition port_inv (p : PortRange) : Prop :=
  in_u 16 (Low p) ∧ in_u 16 (High p) ∧ in_u 16 (index p).

Lemma NewPortRange_inv ip low high : port_inv (NewPortRange ip low high).
Proof.
  pose proof (wrap_u_range 16 low ltac:(lia)). pose proof (wrap_u_range 16 high ltac:(lia)).
  unfold NewPortRange, PortRange_Reset, port_inv; simpl.
  destruct ((u16 low =? 0) && (u16 high =? 0)); simpl; unfold in_u; unfold in_u in *; split_and!; lia.
Qed.

Lemma port_loop_step fuel p a :
  port_inv p →
  port_loop (S fuel) p (UDPAddr a) =
  (if negb (index p =? 0) && (index p <=? High p)
   then cons (index p) <$> port_loop fuel
          {| prIP := prIP p; Low := Low p; High := High p; index := u16 (index p + 1) |}
          (UDPAddr (mkAddr (Slice (prIP p) (length (prIP p))) (index p) (aZone a)))
   else Some []).
Proof. intros _. cbn [port_loop PortRange_Next]. unfold nextPort. by destruct (negb _ && _). Qed.

(** The ports from the current index to [High], whatever the index wraps to. *)
Lemma port_loop_spec fuel p a :
  port_inv p → 0 < index p → (Z.to_nat (High p + 1 - index p) < fuel)%nat →
  port_loop fuel p (UDPAddr a) = Some (seqZ (index p) (High p + 1 - index p)).
Proof.
  revert p a. induction fuel as [|fuel IH]; intros p a Hinv Hpos Hf; [lia|].
  rewrite port_loop_step by done. destruct Hinv as (HL & HH & HI).
  destruct (Z.eqb_spec (index p) 0); [lia|]. destruct (Z.leb_spec (index p) (High p)) as [Hle|Hgt]; cbn [negb andb].
  - rewrite (seqZ_cons (index p)) by lia. unfold in_u in *.
    destruct (decide (index p = 65535)) as [Heq|Hne].
    + rewrite Heq. change (u16 (65535 + 1)) with 0. destruct fuel; [lia|].
      assert (High p = 65535) as -> by lia. done.
    + rewrite (wrap_u_small 16) by (unfold in_u; lia).
      rewrite IH; simpl; unfold port_inv, in_u; simpl; [|split_and!; lia|lia|lia].
      do 2 f_equal. f_equal; lia.
  - rewrite seqZ_nil by lia. done.
Qed.

(** [NewPortRange(ip, low, high)] iterates exactly over the ports from [low] to
    [high] in order and then stops, also when [high] is 65535 and the 16-bit index wraps;
    with both bounds 0 it covers the non-reserved ports 1024..65535. *)
Theorem port_range_iterates ip low high a :
  0 ≤ low < 2 ^ 16 → 0 ≤ high < 2 ^ 16 → low ≠ 0 ∨ high = 0 →
  let lo := if (low =? 0) then 1024 else low in
  let hi := if (low =? 0) then 65535 else high in
  ∀ fuel, 65536 < Z.of_nat fuel →
  port_loop fuel (NewPortRange ip low high) (UDPAddr a) = Some (seqZ lo (hi + 1 - lo)).
Proof.
  intros Hl Hh Hor lo hi fuel Hf. pose proof (NewPortRange_inv ip low high) as Hinv.
  assert (index (NewPortRange ip low high) = lo ∧ High (NewPortRange ip low high) = hi) as [Hi Hh'].
  { unfold NewPortRange, PortRange_Reset, lo, hi; simpl. rewrite !wrap_u_small by done.
    destruct (Z.eqb_spec low 0), (Z.eqb_spec high 0); cbn; split; try done; lia. }
  rewrite port_loop_spec; [by rewrite Hi, Hh'|done| |].
  - rewrite Hi. unfold lo. destruct (Z.eqb_spec low 0); lia.
  - rewrite Hi, Hh'. unfold lo, hi in *. destruct (Z.eqb_spec low 0); lia.
Qed.

Lemma port_range_iterates_witness :
  port_loop (Z.to_nat 65540) (NewPortRange [] 65534 65535) (UDPAddr zero_addr) = Some (seqZ 65534 (65535 + 1 - 65534)).
Proof.
  apply (port_range_iterates [] 65534 65535 zero_addr); [lia|lia|left; lia|lia].
Defined.

(** ** The CIDR transcoder *)
Definition transcoder_ok (n : nat) : bool :=
  let b := Z.of_nat n in
  match BytesToString [b] with
  | Ret s => bool_decide (StringToBytes s = Ret [b]) && is_ret (ValidateBytes [b])
  | _ => false
  end.

Definition transcoder_overflows (n : nat) : bool :=
  let b := 129 + Z.of_nat n in
  bool_decide (BytesToString [b] = Fail ErrCIDROverflow ∧ ValidateBytes [b] = Fail ErrCIDROverflow ∧
    StringToBytes (FormatUint8 b) = Fail ErrCIDROverflow).

(** Transcoding a CIDR suffix of at most 128 bits to text and back is the identity,
    and such a suffix passes validation; above 128 both directions report an overflow. *)
Theorem transcoder_roundtrip b :
  (0 ≤ b ≤ 128 → ∃ s, BytesToString [b] = Ret s ∧ StringToBytes s = Ret [b] ∧ ValidateBytes [b] = Ret tt) ∧
  (128 < b < 256 → BytesToString [b] = Fail ErrCIDROverflow ∧ ValidateBytes [b] = Fail ErrCIDROverflow ∧
     StringToBytes (FormatUint8 b) = Fail ErrCIDROverflow).
Proof.
  split; intros Hb.
  - assert (Forall (λ n, transcoder_ok n = true) (seq 0 129)) as HF by (apply (bool_decide_unpack _); vm_compute; done).
    rewrite Forall_forall in HF. specialize (HF (Z.to_nat b)). unfold transcoder_ok in HF.
    rewrite Z2Nat.id in HF by lia. specialize (HF ltac:(apply elem_of_seq; lia)).
    destruct (BytesToString [b]) as [s| |] eqn:E; try done. exists s.
    apply andb_true_iff in HF as [Hs%bool_decide_eq_true Hv]. split_and!; try done.
    unfold ValidateBytes in *. by destruct (128 <? u8 b).
  - assert (Forall (λ n, transcoder_overflows n = true) (seq 0 127)) as HF by (apply (bool_decide_unpack _); vm_compute; done).
    rewrite Forall_forall in HF. specialize (HF (Z.to_nat (b - 129)) ltac:(apply elem_of_seq; lia)).
    unfold transcoder_overflows in HF. rewrite Z2Nat.id in HF by lia.
    replace (129 + (b - 129)) with b in HF by lia. by apply bool_decide_eq_true in HF.
Qed.
