(* ===== verification/PexView.v ===== *)
(** * Gossip records and views ([src/pkg/pex/record.go], [src/pkg/pex/store.go])

    A [View] is a slice of gossip records.  This file models the record and view
    operations of [record.go] and the view combinators of [store.go] that [View.Bind]
    composes ([filter], [isNot], [merged], [dedupe], [shuffled], [sorted], [head], [tail],
    [decay], [appendLocal]), with the lemmas the gossip protocol uses.

    Randomness is explicit: [shuffled] takes the numbers drawn by [rand.Shuffle], [decay]
    the samples of [rand.Float64].  [sort.Sort] is any function with its documented
    contract ([SortSpec]): it is not stable, so its result is not unique. *)

From stdpp Require Import base list gmap strings sorting.
From Stdlib Require Import ZArith Lia.
From Stdlib Require QArith_base.
From S2P Require Import Prelude.

Open Scope Z_scope.

(** ** Data *)
Record PeerRecord := mkPeerRecord { PeerID : bytes; Seq : Z; Addrs : list bytes }.

(** [pex.Gossip] is the Cap'n Proto struct behind a record: its hop counter (uint64) and
    the signed envelope. *)
Record Gossip := mkGossip { gHop : Z; gEnvelope : bytes }.

Record GossipRecord := mkRecord { g : Gossip; peerRecord : PeerRecord }.

Abbreviation View := (list GossipRecord).

#[global] Instance PeerRecord_eq_dec : EqDecision PeerRecord.
Proof. solve_decision. Defined.
#[global] Instance Gossip_eq_dec : EqDecision Gossip.
Proof. solve_decision. Defined.
#[global] Instance GossipRecord_eq_dec : EqDecision GossipRecord.
Proof. solve_decision. Defined.

Inductive cause := ErrInvalidRange | ErrInvalidSignature.

Inductive error :=
| ErrEmptyView                      (* ValidationError{Message: "empty view"} *)
| ErrPeerHop (id : bytes)           (* ValidationError{"peer ..", ErrInvalidRange} *)
| ErrSenderHop (id : bytes)         (* ValidationError{"sender ..", ErrInvalidRange} *)
| ErrSignature                      (* ValidationError{Cause: ErrInvalidSignature} *)
| ErrNotPeerRecord                  (* "not a peer record" *)
| ErrExternal (code : Z).           (* an error of a library or of the network *)

#[global] Instance error_eq_dec : EqDecision error.
Proof. solve_decision. Defined.

Abbreviation res := (outcome error).

(** [ValidationError.Is(target)], for the sentinel causes of the package. *)
Definition error_is (e : error) (target : cause) : bool :=
  match e, target with
  | ErrPeerHop _, ErrInvalidRange | ErrSenderHop _, ErrInvalidRange => true
  | ErrSignature, ErrInvalidSignature => true
  | _, _ => false
  end.

(** ** Records ([record.go]) *)
Definition id_of (r : GossipRecord) : bytes := PeerID (peerRecord r).
Definition seq_of (r : GossipRecord) : Z := Seq (peerRecord r).
Definition Hop (r : GossipRecord) : Z := gHop (g r).

Definition SetHop (r : GossipRecord) (h : Z) : GossipRecord :=
  mkRecord (mkGossip h (gEnvelope (g r))) (peerRecord r).

Definition IncrHop (r : GossipRecord) : GossipRecord := SetHop r (u64 (Hop r + 1)).

(** [lastUint64]: [u = (u << 8) | uint64(s[len(s)-i-1])] for [i] from 0 to 7; indexing
    before the start of a short string panics. *)
Fixpoint lastUint64_loop (n : nat) (i : nat) (u : Z) (s : bytes) : res Z :=
  match n with
  | O => Ret u
  | S n' =>
      match rev s !! i with
      | Some b => lastUint64_loop n' (S i) (Z.lor (u64 (Z.shiftl u 8)) b) s
      | None => Panic
      end
  end.

Definition lastUint64 (s : bytes) : res Z := lastUint64_loop 8 0 0 s.

Definition Distance (r : GossipRecord) (id : bytes) : res Z :=
  a <~ lastUint64 (id_of r) ;; b <~ lastUint64 id ;; Ret (Z.lxor a b).

(** Reading a record from a message.  The Cap'n Proto accessors and the libp2p envelope
    are library code: [envelope_of] is [ReadRootGossip] followed by [Envelope()],
    [consume] is [record.ConsumeTypedEnvelope] into a peer record (with the public key of
    the envelope), [matches] is [peer.ID.MatchesPublicKey]. *)
Section read_message.
Context {msg pubkey : Type}.
Context (read_gossip : msg → res Gossip)
        (consume : bytes → res (PeerRecord * pubkey))
        (matches : bytes → pubkey → bool).

Definition ReadMessage (m : msg) : res GossipRecord :=
  gg <~ read_gossip m ;;
  e <~ consume (gEnvelope gg) ;;
  if matches (PeerID (fst e)) (snd e)
  then Ret (mkRecord gg (fst e))
  else Fail ErrSignature.
End read_message.

(** [NewGossipRecord(env)]: [env_record] is [env.Record()] narrowed to a peer record by
    the type assertion, [marshal] is [env.Marshal()]; a new message has hop 0. *)
Definition NewGossipRecord (env_record : res (option PeerRecord)) (marshal : res bytes)
    : res GossipRecord :=
  r <~ env_record ;;
  match r with
  | None => Fail ErrNotPeerRecord
  | Some rec => b <~ marshal ;; Ret (mkRecord (mkGossip 0 b) rec)
  end.

(** ** Views ([record.go]) *)
Fixpoint find (id : bytes) (v : View) : option GossipRecord :=
  match v with
  | [] => None
  | have :: v' => if bytes_eqb id (id_of have) then Some have else find id v'
  end.

Definition last_of (v : View) : res GossipRecord :=
  match last v with Some r => Ret r | None => Panic end.

Fixpoint check_hops (v : View) : res unit :=
  match v with
  | [] => Ret tt
  | r :: v' => if Hop r =? 0 then Fail (ErrPeerHop (id_of r)) else check_hops v'
  end.

Definition Validate (v : View) : res unit :=
  if (length v =? 0)%nat then Fail ErrEmptyView
  else
    _ <~ check_hops (take (length v - 1) v) ;;
    s <~ last_of v ;;
    if negb (Hop s =? 0) then Fail (ErrSenderHop (id_of s)) else Ret tt.

Definition PeerRecords (v : View) : list PeerRecord := peerRecord <$> v.

Definition incrHops (v : View) : View := IncrHop <$> v.

Fixpoint diff (v other : View) : View :=
  match v with
  | [] => []
  | r :: v' => match find (id_of r) other with
               | Some _ => diff v' other
               | None => r :: diff v' other
               end
  end.

(** ** View combinators ([store.go]) *)
Definition Bind {A} (v : View) (f : View → A) : A := f v.

Fixpoint filter_view (f : GossipRecord → bool) (v : View) : View :=
  match v with
  | [] => []
  | r :: v' => if f r then r :: filter_view f v' else filter_view f v'
  end.

Definition isNot (self : bytes) : View → View :=
  filter_view (λ r, negb (bytes_eqb self (id_of r))).

Definition dedupe_keep (other : View) (keepEqual : bool) (r : GossipRecord) : bool :=
  match find (id_of r) other with
  | None => true
  | Some have =>
      let newer := (seq_of have <? seq_of r) || (Hop r <? Hop have) in
      if keepEqual
      then newer || ((seq_of r =? seq_of have) && (Hop r =? Hop have))
      else newer
  end.

Definition dedupe (other : View) (keepEqual : bool) : View → View :=
  filter_view (dedupe_keep other keepEqual).

Definition merged (tl : View) (v : View) : View :=
  Bind v (dedupe tl true) ++ Bind tl (dedupe v false).

(** [rand.Shuffle(n, swap)]: [for i := n-1; i > 0; i-- { j := intn(i+1); swap(i, j) }];
    [rnd i] is the number drawn at step [i]. *)
Definition swap {A} (l : list A) (i j : nat) : list A :=
  match l !! i, l !! j with
  | Some x, Some y => <[j := x]> (<[i := y]> l)
  | _, _ => l
  end.

Fixpoint shuffle_loop {A} (rnd : nat → nat) (i : nat) (l : list A) : list A :=
  match i with
  | O => l
  | S i' => shuffle_loop rnd i' (swap l i (rnd i `mod` (i + 1))%nat)
  end.

Definition shuffled (rnd : nat → nat) (v : View) : View :=
  shuffle_loop rnd (length v - 1) v.

Definition head (n : Z) (v : View) : res View :=
  if n <? 0 then Panic
  else Ret (if n <? Z.of_nat (length v) then take (Z.to_nat n) v else v).

Definition tail (n : Z) (v : View) : res View :=
  if n <? 0 then Panic
  else Ret (if n <? Z.of_nat (length v) then drop (length v - Z.to_nat n) v else v).

(** [decay(d, maxDecay)]: [draw k] is the [k]-th sample of [rand.Float64]. *)
Fixpoint decay_loop (fuel : nat) (draw : nat → QArith_base.Q) (d : QArith_base.Q)
    (k : nat) (maxDecay : Z) (v : View) : View :=
  match fuel with
  | O => v
  | S fuel' =>
      if (0 <? length v)%nat && negb (QArith_base.Qle_bool d (draw k)) && (0 <? maxDecay)
      then decay_loop fuel' draw d (S k) (maxDecay - 1) (take (length v - 1) v)
      else v
  end.

(** The loop removes one element per iteration, so [length v] iterations are enough. *)
Definition decay (draw : nat → QArith_base.Q) (d : QArith_base.Q) (maxDecay : Z) (v : View) : View :=
  decay_loop (length v) draw d 0 maxDecay v.

(** [sort.Sort(v)] sorts by [Less], the hop counter. *)
Class SortSpec (sort : View → View) := {
  sort_perm : ∀ v, sort v ≡ₚ v;
  sort_sorted : ∀ v, Sorted (λ a b, Hop a ≤ Hop b) (sort v);
}.

(** An implementation of the contract (merge sort). *)
#[global] Instance hop_le_dec : RelDecision (λ a b : GossipRecord, Hop a ≤ Hop b).
Proof. intros a b. apply _. Defined.

Definition sort_by_hop (v : View) : View := merge_sort (λ a b, Hop a ≤ Hop b) v.

#[global] Instance sort_by_hop_spec : SortSpec sort_by_hop.
Proof.
  split.
  - apply merge_sort_Permutation.
  - intros v. apply Sorted_merge_sort. intros a b. lia.
Qed.

(** [appendLocal(rec)]: a failure to build the local record panics. *)
Definition appendLocal (self : res GossipRecord) (v : View) : res View :=
  match self with
  | Ret r => Ret (v ++ [r])
  | Fail _ | Panic => Panic
  end.

(** ** Facts about views *)
Abbreviation ids v := (id_of <$> v).

Lemma bytes_eqb_eq a b : bytes_eqb a b = true ↔ a = b.
Proof. apply bool_decide_eq_true. Qed.

Lemma find_Some id v r : find id v = Some r → r ∈ v ∧ id_of r = id.
Proof.
  induction v as [|x v IH]; simpl; [done|]. destruct (bytes_eqb id (id_of x)) eqn:E.
  - intros [= ->]. apply bytes_eqb_eq in E. split; [left|done].
  - intros [Hin Hid]%IH. split; [by right|done].
Qed.

Lemma find_None id v : find id v = None ↔ id ∉ ids v.
Proof.
  induction v as [|x v IH]; simpl; [set_solver|]. destruct (bytes_eqb id (id_of x)) eqn:E.
  - apply bytes_eqb_eq in E as ->. split; [done|]. intros []. by left.
  - assert (id ≠ id_of x) by (intros ->; unfold bytes_eqb in E; by rewrite bool_decide_eq_true_2 in E).
    rewrite IH. set_solver.
Qed.

Lemma find_is_Some r v : r ∈ v → ∃ h, find (id_of r) v = Some h.
Proof.
  intros Hr. destruct (find (id_of r) v) as [h|] eqn:E; [eauto|].
  apply find_None in E. destruct E. by apply list_elem_of_fmap_2.
Qed.

Lemma find_NoDup v r : NoDup (ids v) → r ∈ v → find (id_of r) v = Some r.
Proof.
  intros Hnd Hr. destruct (find_is_Some r v Hr) as [h Hh]. rewrite Hh. f_equal.
  apply find_Some in Hh as [Hin Hid]. apply list_elem_of_lookup in Hr as [i Hi], Hin as [j Hj].
  assert (i = j) as ->; [|congruence].
  eapply NoDup_lookup; [exact Hnd|by rewrite list_lookup_fmap, Hi|rewrite list_lookup_fmap, Hj; simpl; by rewrite Hid].
Qed.

Lemma filter_view_elem f v r : r ∈ filter_view f v ↔ f r = true ∧ r ∈ v.
Proof.
  induction v as [|x v IH]; simpl; [set_solver|]. destruct (f x) eqn:E.
  - rewrite !elem_of_cons, IH. naive_solver.
  - rewrite elem_of_cons, IH. naive_solver congruence.
Qed.

Lemma filter_view_sublist f v : filter_view f v `sublist_of` v.
Proof. induction v as [|x v IH]; simpl; [done|]. destruct (f x); by constructor. Qed.

Lemma filter_view_id f v : (∀ r, r ∈ v → f r = true) → filter_view f v = v.
Proof.
  induction v as [|x v IH]; intros Hf; simpl; [done|].
  rewrite Hf by left. f_equal. apply IH. intros r Hr. apply Hf. by right.
Qed.

Lemma sublist_NoDup {A} (l k : list A) : l `sublist_of` k → NoDup k → NoDup l.
Proof.
  induction 1 as [|x l k H IH|x l k H IH]; intros Hnd; [done| |].
  - apply NoDup_cons in Hnd as [Hx Hnd]. constructor; [|auto]. intros Hin. apply Hx.
    by eapply elem_of_sublist.
  - apply NoDup_cons in Hnd as [_ Hnd]. auto.
Qed.

Lemma ids_filter_sublist f v : ids (filter_view f v) `sublist_of` ids v.
Proof. induction v as [|x v IH]; simpl; [done|]. destruct (f x); by constructor. Qed.

Lemma merged_submseteq tl v : merged tl v ⊆+ v ++ tl.
Proof. apply submseteq_app; apply sublist_submseteq, filter_view_sublist. Qed.

Lemma merged_disjoint tl v :
  (∀ id, id ∈ ids v → id ∉ ids tl) → merged tl v = v ++ tl.
Proof.
  intros Hd. unfold merged, Bind, dedupe. f_equal; apply filter_view_id; intros r Hr; unfold dedupe_keep.
  - assert (find (id_of r) tl = None) as ->; [|done]. apply find_None, Hd. by apply list_elem_of_fmap_2.
  - assert (find (id_of r) v = None) as ->; [|done]. apply find_None. intros Hin. apply (Hd _ Hin).
    by apply list_elem_of_fmap_2.
Qed.

(** Between two copies of a record, one of them is kept. *)
Lemma dedupe_total a b tl v :
  find (id_of a) tl = Some b → find (id_of b) v = Some a →
  dedupe_keep tl true a = true ∨ dedupe_keep v false b = true.
Proof.
  intros Ha Hb. unfold dedupe_keep. rewrite Ha, Hb.
  destruct (Z.ltb_spec (seq_of b) (seq_of a)), (Z.ltb_spec (Hop a) (Hop b)),
    (Z.ltb_spec (seq_of a) (seq_of b)), (Z.ltb_spec (Hop b) (Hop a)),
    (Z.eqb_spec (seq_of a) (seq_of b)), (Z.eqb_spec (Hop a) (Hop b)); simpl; auto; lia.
Qed.

Lemma dedupe_drop tl k a :
  dedupe_keep tl k a = false →
  ∃ b, find (id_of a) tl = Some b ∧ seq_of a ≤ seq_of b ∧ Hop b ≤ Hop a.
Proof.
  unfold dedupe_keep. destruct (find (id_of a) tl) as [b|]; [|done]. intros Hk. exists b.
  split; [done|]. destruct (Z.ltb_spec (seq_of b) (seq_of a)), (Z.ltb_spec (Hop a) (Hop b)); try lia;
    destruct k; simpl in Hk; done.
Qed.

(** The heads of two views for one peer: the kept one is at least as new. *)
Lemma merged_pair tl v a b :
  find (id_of a) v = Some a → find (id_of a) tl = Some b →
  ∃ x, x ∈ merged tl v ∧ id_of x = id_of a ∧ seq_of a ≤ seq_of x ∧ seq_of b ≤ seq_of x.
Proof.
  intros Ha Hb. pose proof (find_Some _ _ _ Ha) as [Hav _]. pose proof (find_Some _ _ _ Hb) as [Hbt Hid].
  assert (find (id_of b) v = Some a) as Hba by (by rewrite Hid).
  unfold merged, Bind, dedupe.
  destruct (dedupe_keep tl true a) eqn:Ka; destruct (dedupe_keep v false b) eqn:Kb.
  - destruct (Z.le_ge_cases (seq_of a) (seq_of b)); [exists b|exists a];
      rewrite elem_of_app, !filter_view_elem; split_and!; auto; lia.
  - apply dedupe_drop in Kb as (a' & Ha' & Hs & _). assert (a' = a) as -> by congruence.
    exists a. rewrite elem_of_app, !filter_view_elem. split_and!; auto; lia.
  - apply dedupe_drop in Ka as (b' & Hb' & Hs & _). assert (b' = b) as -> by congruence.
    exists b. rewrite elem_of_app, !filter_view_elem. split_and!; auto; lia.
  - destruct (dedupe_total a b tl v Hb Hba); congruence.
Qed.

(** Merging never loses the latest sequence number of a peer. *)
Lemma merged_latest tl v r :
  r ∈ v ++ tl → ∃ x, x ∈ merged tl v ∧ id_of x = id_of r ∧ seq_of r ≤ seq_of x.
Proof.
  intros Hr. destruct (find (id_of r) v) as [a|] eqn:Ea, (find (id_of r) tl) as [b|] eqn:Eb.
  - pose proof (find_Some _ _ _ Ea) as [_ Hida]. pose proof (find_Some _ _ _ Eb) as [_ Hidb].
    rewrite <-Hida in Ea, Eb. destruct (merged_pair tl v a b Ea Eb) as (x & Hx & Hid & H1 & H2).
    destruct (dedupe_keep tl true r) eqn:K1.
    + destruct (decide (r ∈ v)) as [Hv|Hv].
      * exists r. split_and!; [|done|lia]. apply elem_of_app; left. by apply filter_view_elem.
      * apply elem_of_app in Hr as [?|Ht]; [done|].
        destruct (dedupe_keep v false r) eqn:K2.
        -- exists r. split_and!; [|done|lia]. apply elem_of_app; right. by apply filter_view_elem.
        -- apply dedupe_drop in K2 as (a' & Ha' & Hs & _). rewrite <-Hida in Ha'.
           assert (a' = a) as -> by congruence. exists x. split_and!; [done|congruence|lia].
    + apply dedupe_drop in K1 as (b' & Hb' & Hs & _). rewrite <-Hida in Hb'.
      assert (b' = b) as -> by congruence. exists x. split_and!; [done|congruence|lia].
  - exists r. split_and!; [|done|lia]. apply elem_of_app; left. apply filter_view_elem.
    unfold dedupe_keep. rewrite Eb. split; [done|]. apply elem_of_app in Hr as [?|Ht]; [done|].
    apply find_None in Eb. destruct Eb. by apply list_elem_of_fmap_2.
  - exists r. split_and!; [|done|lia]. apply elem_of_app; right. apply filter_view_elem.
    unfold dedupe_keep. rewrite Ea. split; [done|]. apply elem_of_app in Hr as [Hv|?]; [|done].
    apply find_None in Ea. destruct Ea. by apply list_elem_of_fmap_2.
  - apply find_None in Ea, Eb. apply elem_of_app in Hr as [Hv|Ht]; [destruct Ea|destruct Eb];
      by apply list_elem_of_fmap_2.
Qed.

(** Two copies of a peer's record cross when one has both the higher sequence number and
    the higher hop count. *)
Definition crossing (a b : GossipRecord) : Prop :=
  id_of a = id_of b ∧
  ((seq_of a < seq_of b ∧ Hop a < Hop b) ∨ (seq_of b < seq_of a ∧ Hop b < Hop a)).

Lemma merged_both_crossing tl v a b :
  find (id_of a) tl = Some b → find (id_of b) v = Some a →
  (dedupe_keep tl true a = true ∧ dedupe_keep v false b = true ↔ crossing a b).
Proof.
  intros Ha Hb. pose proof (find_Some _ _ _ Hb) as [_ Hid]. unfold dedupe_keep, crossing. rewrite Ha, Hb.
  destruct (Z.ltb_spec (seq_of b) (seq_of a)), (Z.ltb_spec (Hop a) (Hop b)),
    (Z.ltb_spec (seq_of a) (seq_of b)), (Z.ltb_spec (Hop b) (Hop a)),
    (Z.eqb_spec (seq_of a) (seq_of b)), (Z.eqb_spec (Hop a) (Hop b)); simpl;
    split; intros; destruct_and?; try done; split_and?; auto; try lia.
Qed.

(** Without crossing copies, merging two duplicate-free views is duplicate-free. *)
Lemma merged_NoDup tl v :
  NoDup (ids v) → NoDup (ids tl) →
  (∀ a b, a ∈ v → b ∈ tl → ¬ crossing a b) → NoDup (ids (merged tl v)).
Proof.
  intros Hv Ht Hx. unfold merged, Bind. rewrite fmap_app. apply NoDup_app. split_and!.
  - eapply sublist_NoDup; [apply ids_filter_sublist|done].
  - intros id (a & -> & Ha)%list_elem_of_fmap (b & Hid & Hb)%list_elem_of_fmap.
    apply filter_view_elem in Ha as [Ka Ha], Hb as [Kb Hb]. apply (Hx a b Ha Hb).
    eapply merged_both_crossing; [| |split; [exact Ka|exact Kb]].
    + rewrite Hid. by apply find_NoDup.
    + rewrite <-Hid. by apply find_NoDup.
  - eapply sublist_NoDup; [apply ids_filter_sublist|done].
Qed.

(** [rand.Shuffle] permutes. *)
Lemma swap_perm {A} (l : list A) i j : swap l i j ≡ₚ l.
Proof.
  unfold swap. destruct (l !! i) as [x|] eqn:Hi; [|done]. destruct (l !! j) as [y|] eqn:Hj; [|done].
  destruct (decide (i = j)) as [->|Hne].
  - assert (x = y) as -> by congruence. rewrite list_insert_insert_eq, list_insert_id by done. done.
  - by apply Permutation_insert_swap.
Qed.

Lemma shuffle_loop_perm {A} rnd i (l : list A) : shuffle_loop rnd i l ≡ₚ l.
Proof.
  revert l; induction i as [|i IH]; intros l; [done|]. cbn [shuffle_loop]. rewrite IH. apply swap_perm.
Qed.

Lemma shuffled_perm rnd v : shuffled rnd v ≡ₚ v.
Proof. apply shuffle_loop_perm. Qed.

Lemma head_Ret n v : 0 ≤ n → head n v = Ret (take (Z.to_nat n) v).
Proof.
  intros Hn. unfold head. destruct (Z.ltb_spec n 0); [lia|]. f_equal.
  destruct (Z.ltb_spec n (Z.of_nat (length v))); [done|]. rewrite take_ge by lia. done.
Qed.

Lemma tail_Ret n v : 0 ≤ n → tail n v = Ret (drop (length v - Z.to_nat n) v).
Proof.
  intros Hn. unfold tail. destruct (Z.ltb_spec n 0); [lia|]. f_equal.
  destruct (Z.ltb_spec n (Z.of_nat (length v))); [done|].
  replace (length v - Z.to_nat n)%nat with 0%nat by lia. done.
Qed.

(** [decay] drops records from the end, at most [maxDecay] of them. *)
Lemma decay_loop_prefix fuel draw d k m v :
  ∃ n, decay_loop fuel draw d k m v = take (length v - n) v ∧ (n ≤ length v)%nat ∧ Z.of_nat n ≤ Z.max m 0.
Proof.
  revert k m v. induction fuel as [|fuel IH]; intros k m v; cbn [decay_loop].
  { exists 0%nat. rewrite Nat.sub_0_r, firstn_all. split_and!; [done|lia..]. }
  destruct (Nat.ltb_spec 0 (length v)) as [Hlen|Hlen]; cbn [andb];
    [|exists 0%nat; rewrite Nat.sub_0_r, firstn_all; split_and!; [done|lia..]].
  destruct (negb _) eqn:Hq; cbn [andb];
    [|exists 0%nat; rewrite Nat.sub_0_r, firstn_all; split_and!; [done|lia..]].
  destruct (Z.ltb_spec 0 m);
    [|exists 0%nat; rewrite Nat.sub_0_r, firstn_all; split_and!; [done|lia..]].
  destruct (IH (S k) (m - 1) (take (length v - 1) v)) as (n & Hn & Hle & Hm).
  exists (S n). rewrite Hn, length_take, take_take. rewrite length_take in Hle.
  split_and!; [f_equal; lia|lia..].
Qed.

Lemma decay_prefix draw d m v :
  ∃ n, decay draw d m v = take (length v - n) v ∧ (n ≤ length v)%nat ∧ Z.of_nat n ≤ Z.max m 0.
Proof. apply decay_loop_prefix. Qed.

(** With every sample at or above the decay probability, nothing is dropped. *)
Lemma decay_no_draw draw d m v :
  (∀ k, QArith_base.Qle_bool d (draw k) = true) → decay draw d m v = v.
Proof.
  intros Hd. unfold decay. destruct (length v) eqn:E; [done|]. cbn [decay_loop].
  by rewrite Hd, andb_false_r.
Qed.

(** ** Validation *)
Lemma check_hops_spec v : check_hops v = Ret tt ↔ Forall (λ r, Hop r ≠ 0) v.
Proof.
  induction v as [|r v IH]; simpl; [by split|]. rewrite Forall_cons, <-IH.
  destruct (Z.eqb_spec (Hop r) 0); naive_solver.
Qed.

Lemma check_hops_no_panic v : check_hops v ≠ Panic.
Proof. induction v as [|r v IH]; simpl; [done|]. by destruct (Hop r =? 0). Qed.

Lemma take_snoc_length {A} (l : list A) x : take (length (l ++ [x]) - 1) (l ++ [x]) = l.
Proof. rewrite length_app. simpl. rewrite Nat.add_sub. apply take_app_length. Qed.

Lemma Validate_snoc v s :
  Validate (v ++ [s]) =
  (_ <~ check_hops v ;; if negb (Hop s =? 0) then Fail (ErrSenderHop (id_of s)) else Ret tt).
Proof.
  unfold Validate. rewrite take_snoc_length. unfold last_of. rewrite last_snoc.
  rewrite length_app, Nat.add_comm. cbn [length Nat.add Nat.eqb]. by destruct (check_hops v).
Qed.

Lemma Validate_spec v :
  Validate v = Ret tt ↔ ∃ v' s, v = v' ++ [s] ∧ Forall (λ r, Hop r ≠ 0) v' ∧ Hop s = 0.
Proof.
  destruct v as [|s v _] using rev_ind.
  - split; [done|]. intros (v' & s & H & _). by destruct v'.
  - rewrite Validate_snoc. split.
    + intros (u & Hu & Hs)%bind_Ret_inv. destruct u. apply check_hops_spec in Hu.
      exists v, s. split_and!; [done..|]. destruct (Z.eqb_spec (Hop s) 0); done.
    + intros (v' & s' & [-> [= ->]]%app_inj_tail & Hv & Hs).
      apply check_hops_spec in Hv. rewrite Hv. simpl. rewrite Hs. done.
Qed.

Lemma Validate_no_panic v : Validate v ≠ Panic.
Proof.
  destruct v as [|s v _] using rev_ind; [done|]. rewrite Validate_snoc.
  pose proof (check_hops_no_panic v). destruct (check_hops v); simpl; try done. by destruct (negb _).
Qed.

(** ** [diff] *)
Lemma diff_elem v other r : r ∈ diff v other ↔ r ∈ v ∧ id_of r ∉ ids other.
Proof.
  induction v as [|x v IH]; simpl; [set_solver|].
  destruct (find (id_of x) other) as [h|] eqn:E.
  - apply find_Some in E as [Hh Hid]. rewrite IH, elem_of_cons. split; [naive_solver|].
    intros [[->|Hr] Hn]; [|done]. destruct Hn. rewrite <-Hid. by apply list_elem_of_fmap_2.
  - apply find_None in E. rewrite !elem_of_cons, IH. naive_solver.
Qed.
