(* ===== verification/PexGossip.v ===== *)
(** * The gossip protocol ([src/pkg/pex/gossip.go], store operations of [store.go])

    - [merge] is the view-merging policy, [pushBuffer] what a round sends (and what that
      does to the view it was taken from, whose array the buffer shares), [pull] what it
      reads, [GetPushView] and [GetCachedPeers] the reads of the cache.
    - [LoadView] and [StoreRecords] go through the [Datastore] interface: go-datastore is
      library code, stated as a typeclass with the laws its documentation gives.
    - [round_step] interleaves the critical sections of concurrent gossip rounds of one
      gossiper, the way [mutexGetPushView] and [mutexMergeAndStore] take the lock. *)

From stdpp Require Import base list gmap strings sorting.
From Stdlib Require Import ZArith Lia.
From Stdlib Require QArith_base.
From S2P Require Import Prelude PexView.

Open Scope Z_scope.

(** ** Configuration *)
Record GossipConfig := {
  MaxView : Z; Swap : Z; Protect : Z; Decay : QArith_base.Q;
  Tick : Z; Timeout : Z; MaxMsgSize : Z;
}.

Definition second : Z := 1000000000.
Definition minute : Z := 60 * second.

Definition DefaultGossipConfig : GossipConfig := {|
  MaxView := 32; Swap := 10; Protect := 5; Decay := QArith_base.Qmake 5 1000;
  Tick := minute * 5; Timeout := second * 30; MaxMsgSize := 2048 |}.

Definition min (n1 n2 : Z) : Z := if n1 <=? n2 then n1 else n2.
Definition max (n1 n2 : Z) : Z := if n1 <=? n2 then n2 else n1.

Lemma min_spec a b : min a b = Z.min a b.
Proof. unfold min. destruct (Z.leb_spec a b); lia. Qed.
Lemma max_spec a b : max a b = Z.max a b.
Proof. unfold max. destruct (Z.leb_spec a b); lia. Qed.

Abbreviation len v := (Z.of_nat (length v)).

(** ** Merging *)
Section merge.
Context (sort : View → View) `{!SortSpec sort}.
Context (cfg : GossipConfig) (self : bytes).
Context (rnd : nat → nat) (draw : nat → QArith_base.Q).

Definition merge (local remote : View) : res View :=
  _ <~ Validate remote ;;
  (* Remove duplicates and combine local and remote records *)
  let newLocal := Bind (Bind local (merged remote)) (isNot self) in
  (* Apply swapping *)
  let s := min (Swap cfg) (max (len newLocal - MaxView cfg) 0) in
  newLocal <~ Bind newLocal (tail (len newLocal - s)) ;;
  let newLocal := Bind newLocal sort in
  (* Apply retention *)
  let r := min (min (Protect cfg) (MaxView cfg)) (len newLocal) in
  let maxDecay := min r (max (len newLocal - MaxView cfg) 0) in
  oldest <~ Bind newLocal (tail r) ;;
  let oldest := Bind oldest (decay draw (Decay cfg) maxDecay) in
  (* Apply random eviction *)
  let c := MaxView cfg - len oldest in
  newLocal <~ Bind newLocal (head (max (len newLocal - r) 0)) ;;
  newLocal <~ Bind (Bind newLocal (shuffled rnd)) (head c) ;;
  (* Merge with oldest nodes *)
  let newLocal := Bind newLocal (merged oldest) in
  Ret (incrHops newLocal).

(** The views the policy goes through, by name. *)
Definition union_view (local remote : View) : View := isNot self (merged remote local).

Definition after_swap (u : View) : View :=
  sort (drop (length u - Z.to_nat (len u - Z.min (Swap cfg) (Z.max (len u - MaxView cfg) 0))) u).

Definition protect_count (v : View) : Z := Z.min (Z.min (Protect cfg) (MaxView cfg)) (len v).

Definition oldest_of (v : View) : View :=
  decay draw (Decay cfg) (Z.min (protect_count v) (Z.max (len v - MaxView cfg) 0))
    (drop (length v - Z.to_nat (protect_count v)) v).

Definition survivors (v : View) : View :=
  take (Z.to_nat (MaxView cfg - len (oldest_of v)))
    (shuffled rnd (take (Z.to_nat (len v - protect_count v)) v)).

Definition cfg_ok : Prop := 0 ≤ MaxView cfg ∧ 0 ≤ Protect cfg.

Hypothesis Hcfg : cfg_ok.

Lemma oldest_of_split v :
  ∃ n, oldest_of v = take (Z.to_nat (protect_count v) - n) (drop (length v - Z.to_nat (protect_count v)) v) ∧
    (n ≤ Z.to_nat (protect_count v))%nat ∧
    Z.of_nat n ≤ Z.min (protect_count v) (Z.max (len v - MaxView cfg) 0) ∧
    length (oldest_of v) = (Z.to_nat (protect_count v) - n)%nat.
Proof.
  assert (0 ≤ protect_count v ≤ len v) as Hp by (unfold protect_count, cfg_ok in *; lia).
  unfold oldest_of.
  destruct (decay_prefix draw (Decay cfg) (Z.min (protect_count v) (Z.max (len v - MaxView cfg) 0))
    (drop (length v - Z.to_nat (protect_count v)) v)) as (n & Hn & Hle & Hm).
  rewrite length_drop in *.
  replace (length v - (length v - Z.to_nat (protect_count v)))%nat with (Z.to_nat (protect_count v)) in * by lia.
  exists n. rewrite Hn. split_and!; [done|lia|lia|]. rewrite length_take, length_drop. lia.
Qed.

(** The code's arithmetic never makes [head] or [tail] panic on a sane configuration, so
    [merge] is the composition of the named stages. *)
Lemma merge_stages local remote :
  merge local remote =
  (_ <~ Validate remote ;;
   let v := after_swap (union_view local remote) in
   Ret (incrHops (merged (oldest_of v) (survivors v)))).
Proof.
  unfold merge. destruct (Validate remote); [|done..]. cbn [bind]. unfold Bind.
  fold (union_view local remote). set (u := union_view local remote).
  rewrite !min_spec, !max_spec.
  rewrite tail_Ret by (unfold cfg_ok in *; lia). cbn [bind].
  fold (after_swap u). set (v := after_swap u).
  rewrite !min_spec, !max_spec. fold (protect_count v).
  assert (0 ≤ protect_count v ≤ len v) as Hp by (unfold protect_count, cfg_ok in *; lia).
  rewrite tail_Ret by lia. cbn [bind]. fold (oldest_of v).
  rewrite Z.max_l by lia. rewrite head_Ret by lia. cbn [bind].
  destruct (oldest_of_split v) as (n & _ & _ & _ & Ho).
  rewrite head_Ret by (unfold protect_count, cfg_ok in *; lia). done.
Qed.

Lemma after_swap_length u :
  len (after_swap u) = len u - Z.max 0 (Z.min (Swap cfg) (Z.max (len u - MaxView cfg) 0)).
Proof.
  unfold after_swap. rewrite (Permutation_length (sort_perm _)), length_drop. unfold cfg_ok in *. lia.
Qed.

Lemma after_swap_submseteq u : after_swap u ⊆+ u.
Proof.
  unfold after_swap. rewrite sort_perm. apply sublist_submseteq, sublist_drop.
Qed.

Lemma after_swap_fits u : len u ≤ MaxView cfg → after_swap u ≡ₚ u.
Proof.
  intros Hfit. unfold after_swap. rewrite sort_perm.
  replace (length u - _)%nat with 0%nat by lia. done.
Qed.

(** The protected records and the rest partition the sorted view. *)
Lemma take_drop_protect v :
  take (Z.to_nat (len v - protect_count v)) v ++ drop (length v - Z.to_nat (protect_count v)) v = v.
Proof.
  assert (0 ≤ protect_count v ≤ len v) as Hp by (unfold protect_count, cfg_ok in *; lia).
  replace (length v - Z.to_nat (protect_count v))%nat with (Z.to_nat (len v - protect_count v)) by lia.
  apply take_drop.
Qed.

Lemma parts_submseteq v : survivors v ++ oldest_of v ⊆+ v.
Proof.
  rewrite <-(take_drop_protect v) at 3. apply submseteq_app.
  - unfold survivors. etrans; [apply sublist_submseteq, sublist_take|]. by rewrite shuffled_perm.
  - destruct (oldest_of_split v) as (n & -> & _). apply sublist_submseteq, sublist_take.
Qed.

Lemma parts_length v :
  len (survivors v) + len (oldest_of v) = Z.min (MaxView cfg) (len v - (protect_count v - len (oldest_of v))).
Proof.
  assert (0 ≤ protect_count v ≤ len v ∧ protect_count v ≤ MaxView cfg) as Hp
    by (unfold protect_count, cfg_ok in *; lia).
  destruct (oldest_of_split v) as (n & _ & Hn & _ & Ho).
  unfold survivors. rewrite length_take, (Permutation_length (shuffled_perm _ _)), length_take. lia.
Qed.

Lemma union_submseteq local remote : union_view local remote ⊆+ local ++ remote.
Proof.
  unfold union_view. etrans; [apply sublist_submseteq, filter_view_sublist|]. apply merged_submseteq.
Qed.

Lemma union_not_self local remote r : r ∈ union_view local remote → id_of r ≠ self.
Proof.
  intros [Hk _]%filter_view_elem. intros Heq. rewrite Heq in Hk.
  unfold bytes_eqb in Hk. by rewrite bool_decide_eq_true_2 in Hk.
Qed.

Lemma submseteq_NoDup_ids (v u : View) : v ⊆+ u → NoDup (ids u) → NoDup (ids v).
Proof.
  intros Hsub Hnd. assert (ids v ⊆+ ids u) as Hids by (by apply fmap_submseteq).
  apply submseteq_Permutation in Hids as [k Hk]. rewrite Hk in Hnd. by apply NoDup_app in Hnd as (? & _ & _).
Qed.

Lemma final_merge_parts v :
  NoDup (ids v) → merged (oldest_of v) (survivors v) = survivors v ++ oldest_of v.
Proof.
  intros Hnd. apply merged_disjoint. intros id Hs Ho.
  pose proof (submseteq_NoDup_ids _ _ (parts_submseteq v) Hnd) as Hp. rewrite fmap_app in Hp.
  apply NoDup_app in Hp as (_ & Hd & _). by apply (Hd id).
Qed.
End merge.

(** ** What a round sends and receives *)

(** [head] returns a slice of the array of [local], and the [append] of [appendLocal] writes
    into that array when it has room: a view that starts where [buffer] does sees it. *)
Definition overwritten (local buffer : View) : View :=
  take (length local) (buffer ++ drop (length buffer) local).

(** The buffer to send, and what [r.local] is after it has been built. *)
Definition pushBuffer (cfg : GossipConfig) (self : res GossipRecord) (local : View) : res (View * View) :=
  buffer <~ Bind local (head (Z.quot (MaxView cfg) 2 - 1)) ;;
  buffer <~ Bind buffer (appendLocal self) ;;
  Ret (buffer, overwritten local buffer).

(** [push]: encode the buffer in order, stopping at the first error, then flush.
    [encode] and [flush] are the LZ4/Cap'n Proto writer. *)
Definition push (cfg : GossipConfig) (self : res GossipRecord)
    (encode : GossipRecord → res unit) (flush : res unit) (local : View) : res unit :=
  p <~ pushBuffer cfg self local ;;
  _ <~ omapM encode (fst p) ;;
  flush.

(** The results of successive [dec.Decode()] calls; the end of the list is [io.EOF]. *)
Inductive decoded (msg : Type) := DMsg (m : msg) | DErr (e : error).
Arguments DMsg {msg}. Arguments DErr {msg}.

Fixpoint pull {msg} (read : msg → res GossipRecord) (stream : list (decoded msg)) : res View :=
  match stream with
  | [] => Ret []
  | DErr e :: _ => Fail e
  | DMsg m :: stream' => r <~ read m ;; v <~ pull read stream' ;; Ret (r :: v)
  end.

(** The buffer is a prefix of the view and the local record, which has taken the place of the
    record that followed the prefix. *)
Lemma pushBuffer_shape cfg self local buffer local' :
  pushBuffer cfg self local = Ret (buffer, local') →
  ∃ r v w, self = Ret r ∧ buffer = v ++ [r] ∧ local = v ++ w ∧
    local' = v ++ match w with [] => [] | _ :: w' => r :: w' end.
Proof.
  unfold pushBuffer, Bind. intros (v & Hv & (b & Hb & [= <- <-])%bind_Ret_inv)%bind_Ret_inv.
  destruct self as [r| |]; simplify_eq/=.
  assert (∃ w, local = v ++ w) as [w ->].
  { unfold head in Hv. destruct (_ <? 0); [done|]. injection Hv as <-.
    destruct (_ <? _); [by eexists; rewrite take_drop|by exists []; rewrite app_nil_r]. }
  exists r, v, w. split_and!; [done..|]. unfold overwritten. destruct w as [|x w].
  - rewrite !app_nil_r, drop_ge by (rewrite length_app; lia). by rewrite app_nil_r, take_app_length.
  - rewrite drop_app_ge by (rewrite length_app; cbn; lia).
    replace (length (v ++ [r]) - length v)%nat with 1%nat by (rewrite length_app; cbn; lia). cbn [drop]. rewrite <-app_assoc. cbn.
    apply take_ge. rewrite !length_app. cbn. lia.
Qed.

(** ** The view cache *)
Inductive batch_op := BDelete (k : bytes) | BPut (k v : bytes).

(** go-datastore's [Batching]: [ds_query] is [Query] with prefix "/" and [Rest]; [ds_batch],
    [ds_delete] and [ds_put] may fail while the batch is built; [ds_commit] applies it. *)
Class Datastore (St : Type) := {
  ds_query : St → res (list (bytes * bytes));
  ds_batch : St → res unit;
  ds_delete : St → bytes → res unit;
  ds_put : St → bytes → bytes → res unit;
  ds_commit : St → list batch_op → St * option error;
  ds_sync : St → option error;
}.

Definition apply_op (op : batch_op) (m : gmap bytes bytes) : gmap bytes bytes :=
  match op with BDelete k => delete k m | BPut k v => <[k := v]> m end.

Definition apply_ops (ops : list batch_op) (m : gmap bytes bytes) : gmap bytes bytes :=
  foldl (flip apply_op) m ops.

(** The documented behaviour: a query lists the stored entries, a committed batch applies
    its operations in order. *)
Class DatastoreLaws (St : Type) `{Datastore St} := {
  ds_contents : St → gmap bytes bytes;
  ds_query_ok : ∀ st es, ds_query st = Ret es → es ≡ₚ map_to_list (ds_contents st);
  ds_commit_ok : ∀ st ops st', ds_commit st ops = (st', None) →
    ds_contents st' = apply_ops ops (ds_contents st);
}.

(** An in-memory implementation ([ds.NewMapDatastore]). *)
#[global] Instance map_datastore : Datastore (gmap bytes bytes) := {
  ds_query m := Ret (map_to_list m);
  ds_batch _ := Ret tt;
  ds_delete _ _ := Ret tt;
  ds_put _ _ _ := Ret tt;
  ds_commit m ops := (apply_ops ops m, None);
  ds_sync _ := None;
}.

#[global] Instance map_datastore_laws : DatastoreLaws (gmap bytes bytes).
Proof.
  refine {| ds_contents := λ m, m |}.
  - by intros st es [= <-].
  - by intros st ops st' [= <-].
Defined.

Section cache.
Context {St : Type} `{Datastore St}.
Context {msg pubkey : Type}.
Context (key : bytes → bytes)                      (* ds.NewKey(id.String()) *)
        (marshal : Gossip → res bytes)             (* Message().Marshal() *)
        (unmarshal : bytes → res msg)              (* capnp.Unmarshal *)
        (read_gossip : msg → res Gossip)
        (consume : bytes → res (PeerRecord * pubkey))
        (matches : bytes → pubkey → bool).

Definition Key (r : GossipRecord) : bytes := key (id_of r).

Definition read_entry (e : bytes * bytes) : res GossipRecord :=
  m <~ unmarshal (snd e) ;; ReadMessage read_gossip consume matches m.

Definition LoadView (st : St) : res View :=
  es <~ ds_query st ;; omapM read_entry es.

Definition put_op (st : St) (r : GossipRecord) : res batch_op :=
  b <~ marshal (g r) ;; _ <~ ds_put st (Key r) b ;; Ret (BPut (Key r) b).

Definition delete_op (st : St) (r : GossipRecord) : res batch_op :=
  _ <~ ds_delete st (Key r) ;; Ret (BDelete (Key r)).

Definition build_batch (st : St) (old new : View) : res (list batch_op) :=
  _ <~ ds_batch st ;;
  dels <~ omapM (delete_op st) (diff old new) ;;
  puts <~ omapM (put_op st) new ;;
  Ret (dels ++ puts).

(** The new store and the error: nothing is written unless the whole batch was built. *)
Definition StoreRecords (st : St) (old new : View) : res (St * option error) :=
  match build_batch st old new with
  | Ret ops =>
      let '(st', err) := ds_commit st ops in
      match err with
      | None => Ret (st', ds_sync st')
      | Some e => Ret (st', Some e)
      end
  | Fail e => Ret (st, Some e)
  | Panic => Panic
  end.

(** ** The gossiper *)
Context (sort : View → View).

(** [GetCachedPeers]: the shuffled view, nil when the cache is empty. *)
Definition GetCachedPeers (rnd : nat → nat) (st : St) : res (list PeerRecord) :=
  view <~ LoadView st ;;
  if (length view =? 0)%nat then Ret [] else Ret (peerRecord <$> Bind view (shuffled rnd)).

(** [mutexGetPushView]: the oldest [Protect] records last, the others shuffled. *)
Definition GetPushView (cfg : GossipConfig) (rnd : nat → nat) (st : St) : res View :=
  local <~ LoadView st ;;
  let local := Bind local sort in
  oldest <~ Bind local (tail (Protect cfg)) ;;
  young <~ Bind local (head (len local - len oldest)) ;;
  Ret (Bind young (shuffled rnd) ++ oldest).

(** [mutexMergeAndStore]: the new store, the error, and the [EvtPeersUpdated] emitted. *)
Definition MergeAndStore (cfg : GossipConfig) (self : bytes) (rnd : nat → nat)
    (draw : nat → QArith_base.Q) (st : St) (local remote : View)
    : res (St * option error * option (list PeerRecord)) :=
  match merge sort cfg self rnd draw local remote with
  | Ret newLocal =>
      r <~ StoreRecords st local newLocal ;;
      Ret (fst r, snd r, match snd r with None => Some (PeerRecords newLocal) | Some _ => None end)
  | Fail e => Ret (st, Some e, None)
  | Panic => Panic
  end.
End cache.

(** ** Facts about the cache *)
Lemma omapM_perm {E A B} (f : A → outcome E B) l l' v' :
  l ≡ₚ l' → omapM f l' = Ret v' → ∃ v, omapM f l = Ret v ∧ v ≡ₚ v'.
Proof.
  intros Hp Hv'. assert (∃ v, Forall2 (λ a b, f a = Ret b) l v ∧ v ≡ₚ v') as (v & Hv & Hvp).
  { apply omapM_Forall2 in Hv'. revert l Hp. induction Hv' as [|a b l' v' Hab H IH]; intros l Hp.
    - apply Permutation_nil_r in Hp as ->. exists []. by split.
    - symmetry in Hp. apply Permutation_cons_inv_l in Hp as (l1 & l2 & -> & Hp).
      destruct (IH (l1 ++ l2)) as (v & Hv & Hvp); [done|].
      apply Forall2_app_inv_l in Hv as (v1 & v2 & Hv1 & Hv2 & ->).
      exists (v1 ++ b :: v2). split; [by apply Forall2_app; [|constructor]|].
      rewrite <-Hvp. by rewrite Permutation_middle. }
  exists v. split; [by apply omapM_Forall2|done].
Qed.

Section cache_facts.
Context {St : Type} `{DatastoreLaws St}.
Context {msg pubkey : Type}.
Context (key : bytes → bytes) `{!Inj (=) (=) key}.
Context (marshal : Gossip → res bytes) (unmarshal : bytes → res msg)
        (read_gossip : msg → res Gossip)
        (consume : bytes → res (PeerRecord * pubkey))
        (matches : bytes → pubkey → bool).

(** Cap'n Proto reads back what it marshalled. *)
Class CapnpSpec : Prop := capnp_roundtrip : ∀ gg b,
  marshal gg = Ret b → ∃ m, unmarshal b = Ret m ∧ read_gossip m = Ret gg.
Context `{!CapnpSpec}.

(** The record carries the self-signed envelope of its peer record. *)
Definition authentic (r : GossipRecord) : Prop :=
  ∃ pk, consume (gEnvelope (g r)) = Ret (peerRecord r, pk) ∧ matches (id_of r) pk = true.

Abbreviation read := (ReadMessage read_gossip consume matches).
Abbreviation entry := (read_entry unmarshal read_gossip consume matches).
Abbreviation load := (LoadView unmarshal read_gossip consume matches).
Abbreviation store := (StoreRecords key marshal).
Abbreviation rkey := (Key key).

Lemma ReadMessage_authentic m r : read m = Ret r → authentic r.
Proof.
  intros (gg & Hg & ([p pk] & He & Hr)%bind_Ret_inv)%bind_Ret_inv. simpl in Hr.
  destruct (matches (PeerID p) pk) eqn:Hm; [|done]. injection Hr as <-. by exists pk.
Qed.

Lemma authentic_IncrHop r : authentic r → authentic (IncrHop r).
Proof. done. Qed.

Lemma entry_roundtrip k r b :
  authentic r → marshal (g r) = Ret b → entry (k, b) = Ret r.
Proof.
  intros (pk & Hc & Hm) Hb. destruct (capnp_roundtrip _ _ Hb) as (m & Hu & Hr).
  unfold read_entry, ReadMessage. simpl. rewrite Hu. simpl. rewrite Hr. simpl. rewrite Hc. simpl.
  unfold id_of in Hm. rewrite Hm. by destruct r.
Qed.

Lemma pull_authentic stream v : pull read stream = Ret v → Forall authentic v.
Proof.
  revert v; induction stream as [|[m|e] s IH]; intros v; simpl; [by intros [= <-]| |done].
  intros (r & Hr & (w & Hw & [= <-])%bind_Ret_inv)%bind_Ret_inv.
  constructor; [by eapply ReadMessage_authentic|auto].
Qed.

(** *** The batch [StoreRecords] commits *)
Lemma build_batch_ok (st : St) old new ops :
  build_batch key marshal st old new = Ret ops →
  ∃ bs, Forall2 (λ r b, marshal (g r) = Ret b) new bs ∧
    ops = (BDelete ∘ rkey <$> diff old new) ++ zip_with BPut (rkey <$> new) bs.
Proof.
  unfold build_batch. intros (? & _ & (dels & Hd & (puts & Hp & [= <-])%bind_Ret_inv)%bind_Ret_inv)%bind_Ret_inv.
  apply omapM_Forall2 in Hd, Hp.
  assert (dels = BDelete ∘ rkey <$> diff old new) as ->.
  { induction Hd as [|r d l k Hrd _ IH]; simpl; [done|]. f_equal; [|done].
    unfold delete_op in Hrd. by apply bind_Ret_inv in Hrd as (? & _ & [= <-]). }
  assert (∃ bs, Forall2 (λ r b, marshal (g r) = Ret b) new bs ∧ puts = zip_with BPut (rkey <$> new) bs)
    as (bs & Hbs & ->); [|eauto].
  clear -Hp. induction Hp as [|r p l k Hrp _ (bs & Hbs & ->)]; [by exists []|].
  apply bind_Ret_inv in Hrp as (b & Hb & (? & _ & [= <-])%bind_Ret_inv).
  exists (b :: bs). split; [by constructor|done].
Qed.

Lemma apply_deletes_lookup ks m k :
  apply_ops (BDelete <$> ks) m !! k = if decide (k ∈ ks) then None else m !! k.
Proof.
  revert m; induction ks as [|k0 ks IH]; intros m; simpl; [done|].
  change (apply_ops (BDelete <$> ks) (delete k0 m) !! k = if decide (k ∈ k0 :: ks) then None else m !! k).
  rewrite IH. destruct (decide (k ∈ ks)), (decide (k ∈ k0 :: ks)); try done; [set_solver| |].
  - assert (k0 = k) as -> by set_solver. apply lookup_delete_eq.
  - apply lookup_delete_ne. set_solver.
Qed.

Lemma apply_puts_dom ks bs m :
  length ks = length bs →
  dom (apply_ops (zip_with BPut ks bs) m) = dom m ∪ list_to_set ks.
Proof.
  revert bs m; induction ks as [|k ks IH]; intros [|b bs] m Hl; try done.
  - simpl. set_solver.
  - change (apply_ops (zip_with BPut (k :: ks) (b :: bs)) m) with (apply_ops (zip_with BPut ks bs) (<[k:=b]> m)).
    rewrite IH by (simpl in Hl; lia). rewrite dom_insert_L. set_solver.
Qed.

Lemma apply_puts_nodup ks bs m :
  length ks = length bs → NoDup ks → dom m ⊆ list_to_set ks →
  apply_ops (zip_with BPut ks bs) m = list_to_map (zip ks bs).
Proof.
  intros Hl Hnd Hd. assert (∀ k, k ∉ ks → m !! k = None) as Hout.
  { intros k Hk. apply not_elem_of_dom. intros Hin. apply Hk. apply Hd in Hin. by apply elem_of_list_to_set in Hin. }
  clear Hd. revert bs m Hl Hout. induction Hnd as [|k ks Hk Hnd IH]; intros [|b bs] m Hl Hout; try done.
  - apply map_eq. intros i. simpl. rewrite Hout by set_solver. by rewrite lookup_empty.
  - change (apply_ops (zip_with BPut (k :: ks) (b :: bs)) m) with (apply_ops (zip_with BPut ks bs) (<[k:=b]> m)).
    simpl. injection Hl as Hl.
    assert (apply_ops (zip_with BPut ks bs) (<[k:=b]> m) = <[k:=b]> (apply_ops (zip_with BPut ks bs) (delete k m))) as ->.
    { clear -Hk Hl. revert bs Hl m. induction ks as [|k' ks IH]; intros [|b' bs] Hl m; try done.
      - simpl. by rewrite insert_delete_eq.
      - change (apply_ops (zip_with BPut ks bs) (<[k':=b']> (<[k:=b]> m)) =
          <[k:=b]> (apply_ops (zip_with BPut ks bs) (<[k':=b']> (delete k m)))).
        rewrite insert_insert_ne by set_solver. rewrite IH by (set_solver || (simpl in Hl; lia)).
        by rewrite delete_insert_ne by set_solver. }
    f_equal. apply IH; [done|]. intros i Hi. destruct (decide (i = k)) as [->|Hne]; [apply lookup_delete_eq|].
    rewrite lookup_delete_ne by done. apply Hout. set_solver.
Qed.

Lemma committed_contents (st : St) old new ops :
  build_batch key marshal st old new = Ret ops → snd (ds_commit st ops) = None →
  ∃ bs, Forall2 (λ r b, marshal (g r) = Ret b) new bs ∧
    ds_contents (fst (ds_commit st ops)) =
      apply_ops (zip_with BPut (rkey <$> new) bs)
        (apply_ops (BDelete <$> (rkey <$> diff old new)) (ds_contents st)).
Proof.
  intros Hb Hc. destruct (ds_commit st ops) as [st1 e1] eqn:Hcm. simpl in *. subst e1.
  destruct (build_batch_ok _ _ _ _ Hb) as (bs & Hbs & ->). exists bs. split; [done|].
  rewrite (ds_commit_ok _ _ _ Hcm). unfold apply_ops. rewrite foldl_app. by rewrite <-list_fmap_compose.
Qed.

Lemma apply_puts_lookup new bs m k b :
  Forall2 (λ r b, marshal (g r) = Ret b) new bs →
  apply_ops (zip_with BPut (rkey <$> new) bs) m !! k = Some b →
  (∃ r, r ∈ new ∧ rkey r = k ∧ marshal (g r) = Ret b) ∨ (¬ (k ∈ rkey <$> new) ∧ m !! k = Some b).
Proof.
  intros HF. revert m. induction HF as [|r b0 new bs Hr HF IH]; intros m Hk.
  - right. split; [set_solver|done].
  - change (apply_ops (zip_with BPut (rkey <$> new) bs) (<[rkey r := b0]> m) !! k = Some b) in Hk.
    apply IH in Hk as [(r' & ? & ? & ?)|[Hn Hk]]; [left; exists r'; set_solver|].
    rewrite lookup_insert in Hk. case_decide as Heq.
    + injection Hk as <-. left. exists r. set_solver.
    + right. split; [set_solver|done].
Qed.

(** *** The cache invariant: every entry is an authentic record under its own key. *)
Definition store_wf (st : St) : Prop := ∀ k b, ds_contents st !! k = Some b →
  ∃ r, entry (k, b) = Ret r ∧ rkey r = k.

Definition keys_of (v : View) : gset bytes := list_to_set (rkey <$> v).

Lemma load_entries st v :
  load st = Ret v → ∃ es, es ≡ₚ map_to_list (ds_contents st) ∧ Forall2 (λ e r, entry e = Ret r) es v.
Proof.
  intros (es & Hq & Hm)%bind_Ret_inv. exists es. split; [by apply ds_query_ok|by apply omapM_Forall2].
Qed.

Lemma load_keys st v :
  store_wf st → load st = Ret v →
  rkey <$> v ≡ₚ (map_to_list (ds_contents st)).*1 ∧ Forall authentic v.
Proof.
  intros Hwf (es & Hp & HF)%load_entries. split.
  - rewrite <-Hp. assert (rkey <$> v = es.*1) as ->; [|done].
    assert (∀ e, e ∈ es → ds_contents st !! fst e = Some (snd e)) as Hes.
    { intros [k b] He. apply elem_of_map_to_list. by rewrite <-Hp. }
    clear Hp. induction HF as [|[k b] r es v Hr HF IH]; [done|]. simpl. f_equal.
    + destruct (Hwf k b) as (r' & Hr' & Hk); [apply (Hes (k, b)); left|]. congruence.
    + apply IH. intros e He. apply Hes. by right.
  - clear Hp. induction HF as [|e r es v Hr HF IH]; constructor; [|done].
    apply bind_Ret_inv in Hr as (m & _ & Hr). by eapply ReadMessage_authentic.
Qed.

Lemma load_dom st v : store_wf st → load st = Ret v →
  keys_of v = dom (ds_contents st) ∧ NoDup (ids v) ∧ Forall authentic v.
Proof.
  intros Hwf Hl. destruct (load_keys st v Hwf Hl) as [Hk Ha]. split_and!; [| |done].
  - unfold keys_of. apply set_eq. intros k. rewrite elem_of_list_to_set, Hk, elem_of_dom.
    rewrite list_elem_of_fmap. split.
    + intros ([k' b] & -> & He). apply elem_of_map_to_list in He. by exists b.
    + intros [b Hb]. exists (k, b). split; [done|]. by apply elem_of_map_to_list.
  - apply (NoDup_fmap_1 key). assert (key <$> (id_of <$> v) = rkey <$> v) as ->.
    { by rewrite <-list_fmap_compose. }
    rewrite Hk. apply NoDup_fst_map_to_list.
Qed.

(** Storing a view replaces what the old one names; entries it does not name stay. *)
Lemma store_commits st old new ops st' X :
  build_batch key marshal st old new = Ret ops → ds_commit st ops = (st', None) →
  store_wf st → dom (ds_contents st) ⊆ keys_of old ∪ X → Forall authentic new →
  dom (ds_contents st') ⊆ keys_of new ∪ X ∧ store_wf st'.
Proof.
  intros Hb Hc Hwf Hold Hauth.
  destruct (committed_contents st old new ops Hb) as (bs & Hbs & Hct); [by rewrite Hc|].
  rewrite Hc in Hct. simpl in Hct.
  assert (∀ k b, apply_ops (BDelete <$> (rkey <$> diff old new)) (ds_contents st) !! k = Some b →
    ds_contents st !! k = Some b ∧ (k ∈ rkey <$> new ∨ k ∈ X)) as Hleft.
  { intros k b Hk. rewrite apply_deletes_lookup in Hk. case_decide as Hd; [done|]. split; [done|].
    assert (k ∈ dom (ds_contents st)) as Hin by (apply elem_of_dom; eauto).
    apply Hold, elem_of_union in Hin as [Hin|]; [left|by right]. apply elem_of_list_to_set in Hin.
    apply list_elem_of_fmap in Hin as (r & -> & Hr).
    destruct (decide (id_of r ∈ ids new)) as [Hi|Hi].
    - apply list_elem_of_fmap in Hi as (r' & Heq & Hr'). apply list_elem_of_fmap. exists r'.
      split; [|done]. unfold Key. by rewrite Heq.
    - destruct Hd. apply list_elem_of_fmap_2. apply diff_elem. done. }
  split.
  - rewrite Hct, apply_puts_dom by (rewrite length_fmap; by eapply Forall2_length).
    intros k. unfold keys_of. rewrite !elem_of_union, elem_of_dom, elem_of_list_to_set.
    intros [[b Hkb]|Hk]; [by eapply Hleft|by left].
  - intros k b Hk. rewrite Hct in Hk. apply (apply_puts_lookup new bs) in Hk; [|done].
    destruct Hk as [(r & Hr & Hkey & Hrb)|[Hn Hk]].
    + exists r. split; [|done]. apply entry_roundtrip; [|done]. rewrite Forall_forall in Hauth. by apply Hauth.
    + apply Hwf. by apply Hleft.
Qed.
End cache_facts.
