(* ===== verification/PexRounds.v ===== *)
(** * Properties of the gossip protocol

    The theorems on [merge] and on the push side, then gossip rounds as steps: [round_step]
    interleaves the critical sections of the rounds of one gossiper. *)

From stdpp Require Import base list gmap strings sorting relations.
From Stdlib Require Import ZArith Lia.
From Stdlib Require QArith_base.
From S2P Require Import Prelude PexView PexGossip.

Open Scope Z_scope.

(** ** Concrete data for the witnesses *)
Definition rec (id seq hop : Z) : GossipRecord :=
  mkRecord (mkGossip hop [seq; id]) (mkPeerRecord [id] seq []).

Definition no_draw : nat → QArith_base.Q := λ _, QArith_base.Qmake 1 2.

Definition cfg_small (maxview swp prot : Z) : GossipConfig := {|
  MaxView := maxview; Swap := swp; Protect := prot; Decay := QArith_base.Qmake 5 1000;
  Tick := minute * 5; Timeout := second * 30; MaxMsgSize := 2048 |}.

Definition local3 : View := [rec 1 1 3; rec 2 1 2; rec 3 1 7].
Definition remote3 : View := [rec 4 1 5; rec 2 2 1; rec 9 1 0].

(** ** Merging *)

(** C4. On a configuration with non-negative [MaxView] and [Protect], [merge] never panics:
    it fails exactly with the validation error of the remote view, and otherwise returns a
    view of at most [MaxView] records. *)
Theorem merge_bounded sort `{!SortSpec sort} cfg self rnd draw local remote :
  cfg_ok cfg →
  match Validate remote with
  | Ret _ => ∃ v, merge sort cfg self rnd draw local remote = Ret v ∧ len v ≤ MaxView cfg
  | Fail e => merge sort cfg self rnd draw local remote = Fail e
  | Panic => False
  end.
Proof.
  intros Hcfg. rewrite merge_stages by done. pose proof (Validate_no_panic remote).
  destruct (Validate remote) as [[]|e|]; simpl; [|done..]. eexists; split; [done|].
  set (v := after_swap _ _ _). pose proof (parts_length cfg rnd draw Hcfg v) as Hl.
  pose proof (submseteq_length _ _ (merged_submseteq (oldest_of cfg draw v) (survivors cfg rnd draw v))) as Hm.
  unfold incrHops. rewrite length_fmap. rewrite length_app in Hm. lia.
Qed.

Lemma merge_bounded_witness :
  ∃ v, merge sort_by_hop (cfg_small 3 1 1) [7] (λ i, i) no_draw local3 remote3 = Ret v ∧ len v ≤ 3.
Proof.
  pose proof (merge_bounded sort_by_hop (cfg_small 3 1 1) [7] (λ i, i) no_draw local3 remote3) as H.
  apply H. split; simpl; lia.
Defined.

(** C5. Merging invents nothing: the new view consists of distinct objects of the local and
    remote views (each record is used at most as often as it was received), with the hop
    counter incremented (mod 2^64) and everything else unchanged, and it never contains
    the local peer. *)
Theorem merge_origin sort `{!SortSpec sort} cfg self rnd draw local remote v :
  cfg_ok cfg → merge sort cfg self rnd draw local remote = Ret v →
  ∃ v0, v = incrHops v0 ∧ v0 ⊆+ local ++ remote ∧ self ∉ ids v.
Proof.
  intros Hcfg. rewrite merge_stages by done. intros (? & _ & [= <-])%bind_Ret_inv.
  set (u := union_view self local remote). set (w := after_swap sort cfg u).
  assert (merged (oldest_of cfg draw w) (survivors cfg rnd draw w) ⊆+ u) as Hu.
  { etrans; [apply merged_submseteq|]. etrans; [by apply parts_submseteq|]. by apply after_swap_submseteq. }
  eexists; split; [done|]. split; [etrans; [exact Hu|apply union_submseteq]|].
  unfold incrHops. rewrite <-list_fmap_compose. intros (r & Heq & Hr)%list_elem_of_fmap.
  eapply elem_of_submseteq in Hr; [|exact Hu]. by apply union_not_self in Hr.
Qed.

Lemma merge_origin_witness :
  ∃ v, merge sort_by_hop (cfg_small 3 1 1) [9] (λ i, i) no_draw local3 remote3 = Ret v ∧
  ∃ v0, v = incrHops v0 ∧ v0 ⊆+ local3 ++ remote3 ∧ [9] ∉ ids v.
Proof.
  eexists; split; [vm_compute; reflexivity|].
  apply (merge_origin sort_by_hop (cfg_small 3 1 1) [9] (λ i, i) no_draw local3 remote3);
    [split; simpl; lia|vm_compute; reflexivity].
Defined.

(** When the union of the two views names each peer once, the new view names each peer
    once and is filled to capacity: it has exactly [min(|union|, MaxView)] records; and a
    union that fits is kept whole. *)
Theorem merge_fills_view sort `{!SortSpec sort} cfg self rnd draw local remote v :
  cfg_ok cfg → NoDup (ids (union_view self local remote)) →
  merge sort cfg self rnd draw local remote = Ret v →
  len v = Z.min (len (union_view self local remote)) (MaxView cfg) ∧ NoDup (ids v) ∧
  (len (union_view self local remote) ≤ MaxView cfg → v ≡ₚ incrHops (union_view self local remote)).
Proof.
  intros Hcfg Hnd. rewrite merge_stages by done. intros (? & _ & [= <-])%bind_Ret_inv.
  set (u := union_view self local remote) in *. set (w := after_swap sort cfg u).
  pose proof (after_swap_submseteq sort cfg u) as Hwu. fold w in Hwu.
  pose proof (submseteq_NoDup_ids _ _ Hwu Hnd) as Hw.
  rewrite final_merge_parts by done. set (parts := survivors cfg rnd draw w ++ oldest_of cfg draw w).
  assert (ids (incrHops parts) = ids parts) as Hids by (unfold incrHops; by rewrite <-list_fmap_compose).
  assert (len parts = Z.min (len u) (MaxView cfg)) as Hx.
  { unfold parts. rewrite length_app. pose proof (parts_length cfg rnd draw Hcfg w) as Hp.
    pose proof (after_swap_length sort cfg Hcfg u) as Hs. fold w in Hs.
    destruct (oldest_of_split cfg draw Hcfg w) as (n & _ & Hn & Hm & Ho).
    unfold protect_count, cfg_ok in *. lia. }
  split_and!.
  - unfold incrHops. by rewrite length_fmap.
  - rewrite Hids. eapply submseteq_NoDup_ids; [by apply parts_submseteq|done].
  - intros Hfit. unfold incrHops. apply Permutation_map.
    apply submseteq_length_Permutation; [etrans; [by apply parts_submseteq|done]|lia].
Qed.

Lemma merge_fills_view_witness :
  ∃ v, merge sort_by_hop (cfg_small 3 1 1) [7] (λ i, i) no_draw local3 remote3 = Ret v ∧
  len v = Z.min (len (union_view [7] local3 remote3)) 3 ∧ NoDup (ids v) ∧
  (len (union_view [7] local3 remote3) ≤ 3 → v ≡ₚ incrHops (union_view [7] local3 remote3)).
Proof.
  eexists; split; [vm_compute; reflexivity|].
  apply (merge_fills_view sort_by_hop (cfg_small 3 1 1) [7] (λ i, i) no_draw local3 remote3);
    [split; simpl; lia|apply (bool_decide_unpack _); vm_compute; done|vm_compute; reflexivity].
Defined.

(** Deduplication keeps the latest information: for every record received or held, the
    union holds a record of the same peer with at least its sequence number; and when no
    two copies of a peer's record cross (one with both the higher sequence number and the
    higher hop count) the union of duplicate-free views names each peer once. *)
Theorem union_keeps_latest self local remote :
  (∀ r, r ∈ local ++ remote → id_of r ≠ self →
     ∃ x, x ∈ union_view self local remote ∧ id_of x = id_of r ∧ seq_of r ≤ seq_of x) ∧
  (NoDup (ids local) → NoDup (ids remote) →
   (∀ a b, a ∈ local → b ∈ remote → ¬ crossing a b) → NoDup (ids (union_view self local remote))).
Proof.
  split.
  - intros r Hr Hself. destruct (merged_latest remote local r Hr) as (x & Hx & Hid & Hs).
    exists x. split; [|done]. apply filter_view_elem. split; [|done].
    unfold bytes_eqb. rewrite bool_decide_eq_false_2; [done|congruence].
  - intros Hl Hr Hx. eapply sublist_NoDup; [apply ids_filter_sublist|]. by apply merged_NoDup.
Qed.

(** Crossing copies are both kept: a peer whose newer record has travelled further is
    present twice in the merged view. *)
Theorem merge_keeps_crossing_duplicates :
  ∃ v, merge sort_by_hop DefaultGossipConfig [7] (λ i, i) no_draw [rec 1 2 5] [rec 1 1 3; rec 9 1 0] = Ret v ∧
    rec 1 2 6 ∈ v ∧ rec 1 1 4 ∈ v.
Proof. eexists; split; [vm_compute; reflexivity|]. split; apply (bool_decide_unpack _); vm_compute; done. Qed.

(** Partition resistance: of the [Protect] oldest records of the swapped, sorted view,
    all but the [n <= |view| - MaxView] that decay dropped survive the merge; and every
    protected record is at least as old as every other record.  In particular all of them
    survive a merge that fits in [MaxView]. *)
Theorem merge_protects_oldest sort `{!SortSpec sort} cfg self rnd draw local remote v :
  cfg_ok cfg → NoDup (ids (union_view self local remote)) →
  merge sort cfg self rnd draw local remote = Ret v →
  let w := after_swap sort cfg (union_view self local remote) in
  let old := drop (length w - Z.to_nat (protect_count cfg w)) w in
  (∃ n, Z.of_nat n ≤ Z.max (len w - MaxView cfg) 0 ∧
     incrHops (take (length old - n) old) ⊆+ v) ∧
  (∀ a b, a ∈ take (length w - length old) w → b ∈ old → Hop a ≤ Hop b) ∧
  len old = Z.min (Z.min (Protect cfg) (MaxView cfg)) (len w).
Proof.
  intros Hcfg Hnd. rewrite merge_stages by done. intros (? & _ & [= <-])%bind_Ret_inv w old.
  fold w. pose proof (after_swap_submseteq sort cfg (union_view self local remote)) as Hwu. fold w in Hwu.
  pose proof (submseteq_NoDup_ids _ _ Hwu Hnd) as Hw.
  assert (0 ≤ protect_count cfg w ≤ len w) as Hp by (unfold protect_count, cfg_ok in *; lia).
  assert (len old = protect_count cfg w) as Hold by (unfold old; rewrite length_drop; lia).
  split_and!; [| |done].
  - destruct (oldest_of_split cfg draw Hcfg w) as (n & Ho & Hn & Hm & _). exists n. split; [lia|].
    rewrite final_merge_parts by done. rewrite Ho. fold old.
    replace (Z.to_nat (protect_count cfg w) - n)%nat with (length old - n)%nat by lia.
    apply fmap_submseteq, submseteq_inserts_l. done.
  - intros a b Ha Hb.
    assert (StronglySorted (λ a b, Hop a ≤ Hop b) w) as Hs.
    { apply Sorted_StronglySorted; [intros ? ? ? ? ?; lia|]. unfold w, after_swap; apply sort_sorted. }
    rewrite <-(take_drop (length w - length old) w) in Hs. apply StronglySorted_app in Hs as (Hs & _ & _).
    apply Hs; [done|]. unfold old in Hb. by replace (length w - length old)%nat with (length w - Z.to_nat (protect_count cfg w))%nat by lia.
Qed.

Lemma merge_protects_oldest_witness :
  ∃ v, merge sort_by_hop (cfg_small 3 1 1) [7] (λ i, i) no_draw local3 remote3 = Ret v ∧
  let w := after_swap sort_by_hop (cfg_small 3 1 1) (union_view [7] local3 remote3) in
  let old := drop (length w - Z.to_nat (protect_count (cfg_small 3 1 1) w)) w in
  (∃ n, Z.of_nat n ≤ Z.max (len w - 3) 0 ∧ incrHops (take (length old - n) old) ⊆+ v) ∧
  (∀ a b, a ∈ take (length w - length old) w → b ∈ old → Hop a ≤ Hop b) ∧
  len old = Z.min (Z.min 1 3) (len w).
Proof.
  eexists; split; [vm_compute; reflexivity|].
  apply (merge_protects_oldest sort_by_hop (cfg_small 3 1 1) [7] (λ i, i) no_draw local3 remote3);
    [split; simpl; lia|apply (bool_decide_unpack _); vm_compute; done|vm_compute; reflexivity].
Defined.

(** Decay removes the oldest protected records first: whatever it drops from a view
    sorted by age is at least as old as everything it keeps.  (The protocol description
    says the youngest record of the protected buffer is evicted.) *)
Theorem decay_drops_oldest draw d m v a b :
  Sorted (λ a b, Hop a ≤ Hop b) v →
  a ∈ decay draw d m v → b ∈ drop (length (decay draw d m v)) v → Hop a ≤ Hop b.
Proof.
  intros Hs Ha Hb. destruct (decay_prefix draw d m v) as (n & Hn & Hle & _).
  assert (StronglySorted (λ a b, Hop a ≤ Hop b) v) as Hss.
  { apply Sorted_StronglySorted; [intros ? ? ? ? ?; lia|done]. }
  rewrite Hn in Ha, Hb. rewrite length_take in Hb. rewrite Nat.min_l in Hb by lia.
  rewrite <-(take_drop (length v - n) v) in Hss. apply StronglySorted_app in Hss as (Hs' & _ & _). by apply Hs'.
Qed.

Lemma decay_drops_oldest_witness :
  decay (λ _, QArith_base.Qmake 0 1) (QArith_base.Qmake 5 1000) 1 [rec 1 1 2; rec 2 1 9] = [rec 1 1 2] ∧
  Hop (rec 1 1 2) ≤ Hop (rec 2 1 9).
Proof.
  split; [vm_compute; reflexivity|].
  apply (decay_drops_oldest (λ _, QArith_base.Qmake 0 1) (QArith_base.Qmake 5 1000) 1 [rec 1 1 2; rec 2 1 9]).
  - repeat constructor. simpl. unfold Hop; simpl; lia.
  - apply (bool_decide_unpack _); vm_compute; done.
  - apply (bool_decide_unpack _); vm_compute; done.
Defined.

(** ** Pushing *)

(** What an honest node pushes, its peer accepts: if every cached record has a positive
    hop count and the local record has hop 0 (a fresh record), the pushed buffer is built
    without panic and passes [Validate]; it has at most [MaxView/2] records. *)
Theorem push_passes_validation cfg self local :
  2 ≤ MaxView cfg → Hop self = 0 → Forall (λ r, Hop r ≠ 0) local →
  ∃ b local', pushBuffer cfg (Ret self) local = Ret (b, local') ∧ Validate b = Ret tt ∧ len b ≤ MaxView cfg / 2.
Proof.
  intros Hm Hs Hl. unfold pushBuffer, Bind. rewrite Z.quot_div_nonneg by lia.
  assert (1 ≤ MaxView cfg / 2) by (apply Z.div_le_lower_bound; lia).
  rewrite head_Ret by lia. simpl. do 2 eexists; split; [done|]. split.
  - apply Validate_spec. do 2 eexists; split; [done|]. split; [|done]. by apply Forall_take.
  - rewrite length_app, length_take. simpl. lia.
Qed.

Lemma push_passes_validation_witness :
  ∃ b local', pushBuffer DefaultGossipConfig (Ret (rec 7 1 0)) local3 = Ret (b, local') ∧ Validate b = Ret tt ∧ len b ≤ 32 / 2.
Proof.
  apply (push_passes_validation DefaultGossipConfig (rec 7 1 0) local3); [simpl; lia|done|].
  repeat constructor; unfold Hop; simpl; lia.
Defined.

(** A configuration with [MaxView < 2] cannot push: the buffer size [MaxView/2 - 1] is
    negative and [head] panics. *)
Theorem push_small_maxview_panics cfg self local :
  MaxView cfg < 2 → pushBuffer cfg self local = Panic.
Proof.
  intros Hm. unfold pushBuffer, Bind, head.
  assert (Z.quot (MaxView cfg) 2 - 1 < 0) as Hq.
  { pose proof (Z.quot_lt (MaxView cfg) 2). destruct (Z.lt_ge_cases (MaxView cfg) 0).
    - assert (Z.quot (MaxView cfg) 2 ≤ 0); [|lia]. rewrite <-(Z.opp_involutive (MaxView cfg)), Z.quot_opp_l by lia.
      assert (0 ≤ (- MaxView cfg) ÷ 2) by (apply Z.quot_pos; lia). lia.
    - rewrite Z.quot_div_nonneg by lia. assert (MaxView cfg / 2 < 1) by (apply Z.div_lt_upper_bound; lia). lia. }
  destruct (Z.ltb_spec (Z.quot (MaxView cfg) 2 - 1) 0); [done|lia].
Qed.

Lemma push_small_maxview_panics_witness : pushBuffer (cfg_small 1 0 0) (Ret (rec 7 1 0)) [] = Panic.
Proof. apply (push_small_maxview_panics (cfg_small 1 0 0) (Ret (rec 7 1 0)) []). simpl; lia. Defined.

(** The hop counter is not protected against overflow: a remote record with hop
    2^64-1 passes validation, is stored with hop 0, and from then on the buffer the node
    pushes is rejected by every honest peer. *)
Theorem hop_overflow_poisons_push :
  ∃ v b v', merge sort_by_hop DefaultGossipConfig [7] (λ i, i) no_draw [] [rec 4 1 (2 ^ 64 - 1); rec 9 1 0] = Ret v ∧
    rec 4 1 0 ∈ v ∧
    pushBuffer DefaultGossipConfig (Ret (rec 7 1 0)) v = Ret (b, v') ∧
    Validate b = Fail (ErrPeerHop [4]).
Proof.
  do 3 eexists; split; [vm_compute; reflexivity|]. split; [apply (bool_decide_unpack _); vm_compute; done|].
  split; [vm_compute; reflexivity|]. vm_compute. reflexivity.
Qed.

(** ** Gossip rounds of one gossiper

    A round takes the gossiper's lock twice: once to read the view it pushes
    ([mutexGetPushView]) and once to merge and store ([mutexMergeAndStore]); the network
    exchange in between runs without it.  [w_rounds] holds the view of each running round;
    building the buffer to push writes into it. *)
Section rounds.
Context {St : Type} `{DatastoreLaws St}.
Context {msg pubkey : Type}.
Context (key : bytes → bytes) (marshal : Gossip → res bytes) (unmarshal : bytes → res msg)
        (read_gossip : msg → res Gossip) (consume : bytes → res (PeerRecord * pubkey))
        (matches : bytes → pubkey → bool).
Context (sort : View → View).
Context (cfg : GossipConfig) (self : bytes).

(** A round has read its view; its push has built the buffer. *)
Inductive phase := Prepared (local : View) | Pushed (local : View).

Record world := mkWorld { w_store : St; w_rounds : gmap nat phase }.

Inductive round_step : world → world → Prop :=
| step_prepare i rnd local w :
    w_rounds w !! i = None →
    GetPushView unmarshal read_gossip consume matches sort cfg rnd (w_store w) = Ret local →
    round_step w (mkWorld (w_store w) (<[i := Prepared local]> (w_rounds w)))
| step_push i r local buffer local' w :
    w_rounds w !! i = Some (Prepared local) → id_of r = self →
    pushBuffer cfg (Ret r) local = Ret (buffer, local') →
    round_step w (mkWorld (w_store w) (<[i := Pushed local']> (w_rounds w)))
| step_finish i rnd draw stream local remote st' err evt w :
    w_rounds w !! i = Some (Pushed local) →
    pull (ReadMessage read_gossip consume matches) stream = Ret remote →
    MergeAndStore key marshal sort cfg self rnd draw (w_store w) local remote = Ret (st', err, evt) →
    round_step w (mkWorld st' (delete i (w_rounds w)))
| step_abort i w :
    round_step w (mkWorld (w_store w) (delete i (w_rounds w))).

(** The discipline of the protocol description: one gossip round at a time. *)
Definition seq_step (w w' : world) : Prop := round_step w w' ∧ (size (w_rounds w') ≤ 1)%nat.

Context `{!Inj (=) (=) key} `{!SortSpec sort} `{!CapnpSpec marshal unmarshal read_gossip}.
Context (Hcfg : cfg_ok cfg) (Hcommit : ∀ (st : St) ops, snd (ds_commit st ops) = None).

Abbreviation auth := (authentic consume matches).
Abbreviation keys := (keys_of key).

Lemma GetPushView_perm rnd st local :
  GetPushView unmarshal read_gossip consume matches sort cfg rnd st = Ret local →
  ∃ v, LoadView unmarshal read_gossip consume matches st = Ret v ∧ local ≡ₚ v.
Proof.
  intros (v & Hv & Hl)%bind_Ret_inv. exists v. split; [done|]. unfold Bind in Hl.
  destruct Hcfg as [_ HP]. rewrite tail_Ret in Hl by done. simpl in Hl.
  set (s := sort v) in *. assert (s ≡ₚ v) as Hs by apply sort_perm.
  rewrite head_Ret in Hl by (rewrite length_drop; lia). simpl in Hl. injection Hl as <-.
  rewrite shuffled_perm, <-Hs, length_drop.
  replace (Z.to_nat _) with (length s - Z.to_nat (Protect cfg))%nat by lia. by rewrite take_drop.
Qed.

Lemma keys_perm v v' : v ≡ₚ v' → keys v = keys v'.
Proof. intros Hp. unfold keys_of. by rewrite Hp. Qed.

Lemma Forall_auth_submseteq v u : v ⊆+ u → Forall auth u → Forall auth v.
Proof.
  intros Hsub HF. apply Forall_forall. intros r Hr. rewrite Forall_forall in HF. apply HF.
  by eapply elem_of_submseteq.
Qed.

Lemma keys_size v : (size (keys v) ≤ length v)%nat.
Proof.
  unfold keys_of. induction v as [|r v IH]; [apply Nat.eq_le_incl, (size_empty (C:=gset bytes))|]. cbn [fmap list_fmap list_to_set].
  pose proof (size_union_alt {[Key key r]} (list_to_set (Key key <$> v) : gset bytes)) as Hs.
  rewrite size_singleton in Hs. simpl in *.
  assert (size (list_to_set (Key key <$> v) ∖ {[Key key r]} : gset bytes) ≤ size (list_to_set (Key key <$> v) : gset bytes))%nat.
  { apply subseteq_size. set_solver. }
  lia.
Qed.

(** A record of the view of a round: one of the cache, or the local one the push put there. *)
Definition known (r : GossipRecord) : Prop := auth r ∨ id_of r = self.

(** The view of a round names what is cached, but for the entry a push may have overwritten. *)
Definition covers (local : View) (n : nat) (st : St) : Prop :=
  Forall known local ∧ ∃ X, (size X ≤ n)%nat ∧ dom (ds_contents st) ⊆ keys local ∪ X.

(** The invariant of a sequential run. *)
Definition cache_inv (w : world) : Prop :=
  store_wf key unmarshal read_gossip consume matches (w_store w) ∧
  Z.of_nat (size (ds_contents (w_store w))) ≤ MaxView cfg + 1 ∧
  (size (w_rounds w) ≤ 1)%nat ∧
  ∀ i ph, w_rounds w !! i = Some ph →
    match ph with Prepared local => covers local 0 (w_store w) | Pushed local => covers local 1 (w_store w) end.

Lemma merge_authentic rnd draw local remote v :
  merge sort cfg self rnd draw local remote = Ret v →
  Forall known local → Forall auth remote → Forall auth v ∧ len v ≤ MaxView cfg.
Proof.
  intros Hm Hl Hr. rewrite merge_stages in Hm by done.
  apply bind_Ret_inv in Hm as (? & _ & [= <-]). set (w := after_swap _ _ _).
  assert (merged (oldest_of cfg draw w) (survivors cfg rnd draw w) ⊆+ union_view self local remote) as Hsub.
  { etrans; [apply merged_submseteq|]. etrans; [by apply parts_submseteq|]. by apply after_swap_submseteq. }
  assert (Forall auth (union_view self local remote)) as Hu.
  { apply Forall_forall. intros r Hin. pose proof (union_not_self _ _ _ _ Hin) as Hn.
    eapply elem_of_submseteq in Hin; [|apply union_submseteq]. rewrite Forall_forall in Hl, Hr.
    apply elem_of_app in Hin as [Hin|Hin]; [by destruct (Hl r Hin)|by apply Hr]. }
  split.
  - apply Forall_fmap. eapply Forall_impl; [by eapply Forall_auth_submseteq|]. intros r. apply authentic_IncrHop.
  - unfold incrHops. rewrite length_fmap. pose proof (parts_length cfg rnd draw Hcfg w) as Hp.
    pose proof (submseteq_length _ _ (merged_submseteq (oldest_of cfg draw w) (survivors cfg rnd draw w))) as Hml.
    rewrite length_app in Hml. lia.
Qed.

(** Building the buffer overwrites at most one record. *)
Lemma push_covers r local buffer local' st :
  pushBuffer cfg (Ret r) local = Ret (buffer, local') → id_of r = self → covers local 0 st → covers local' 1 st.
Proof.
  intros (r' & v & w & [= <-] & _ & -> & ->)%pushBuffer_shape Hid [Hk (X & HX & Hd)].
  assert (X = ∅) as -> by (apply leibniz_equiv, size_empty_inv; lia).
  apply Forall_app in Hk as [Hv Hw]. destruct w as [|x w]; [split; [by apply Forall_app|exists ∅; rewrite size_empty; split; [lia|exact Hd]]|].
  apply Forall_cons in Hw as [_ Hw]. split; [apply Forall_app; split; [done|]; constructor; [by right|done]|].
  exists {[Key key x]}. rewrite size_singleton. split; [done|]. etrans; [exact Hd|]. unfold keys_of.
  rewrite !fmap_app, !list_to_set_app_L. cbn. set_solver.
Qed.

(** One finished round replaces the cache it was computed from, but for the entry its push
    overwrote, or leaves it alone. *)
Lemma finish_round rnd draw st local remote st' err evt :
  MergeAndStore key marshal sort cfg self rnd draw st local remote = Ret (st', err, evt) →
  store_wf key unmarshal read_gossip consume matches st → covers local 1 st → Forall auth remote →
  (err ≠ None ∧ st' = st) ∨
  (store_wf key unmarshal read_gossip consume matches st' ∧
   Z.of_nat (size (ds_contents st')) ≤ MaxView cfg + 1).
Proof.
  intros Hm Hwf [Hl (X & HX & Hk)] Hr. unfold MergeAndStore in Hm.
  destruct (merge sort cfg self rnd draw local remote) as [v|e|] eqn:Hmerge; [|injection Hm as <- <- <-; by left|done].
  apply bind_Ret_inv in Hm as ([st1 e1] & Hs & [= <- <- <-]). simpl.
  destruct (merge_authentic _ _ _ _ _ Hmerge Hl Hr) as [Hv Hlen].
  destruct (build_batch key marshal st local v) as [ops|e|] eqn:Hb.
  - right. unfold StoreRecords in Hs. rewrite Hb in Hs. destruct (ds_commit st ops) as [st2 e2] eqn:Hc.
    pose proof (Hcommit st ops) as Hc2. rewrite Hc in Hc2. simpl in Hc2. subst e2. injection Hs as -> _.
    destruct (store_commits key marshal unmarshal read_gossip consume matches st local v ops st1 X) as [Hd Hwf']; auto.
    split; [done|]. rewrite <-size_dom. apply subseteq_size in Hd. pose proof (keys_size v).
    pose proof (size_union_alt (keys v) X). assert (size (X ∖ keys v) ≤ size X)%nat by (apply subseteq_size; set_solver). lia.
  - unfold StoreRecords in Hs. rewrite Hb in Hs. injection Hs as <- <-. by left.
  - unfold StoreRecords in Hs. by rewrite Hb in Hs.
Qed.

Lemma only_round {A} (m : gmap nat A) i j x y :
  (size m ≤ 1)%nat → m !! i = Some x → m !! j = Some y → i = j.
Proof.
  intros Hs Hi Hj. destruct (decide (i = j)) as [|Hne]; [done|exfalso].
  assert (size (<[i := x]> (<[j := y]> (∅ : gmap nat A))) ≤ size m)%nat as Hle.
  { apply map_subseteq_size. apply map_subseteq_spec. intros k z. rewrite !lookup_insert.
    repeat case_decide; subst; try done; by intros [= <-]. }
  rewrite !map_size_insert_None in Hle by (by rewrite ?lookup_insert_ne). rewrite map_size_empty in Hle. lia.
Qed.

Lemma cache_inv_step w w' : cache_inv w → seq_step w w' → cache_inv w'.
Proof.
  intros (Hwf & Hsz & Hr1 & Hr) [Hstep Hr1'].
  destruct Hstep as [i rnd local w Hi Hg|i r local buffer local' w Hi Hid Hb|i rnd draw stream local remote st' err evt w Hi Hp Hm|i w];
    unfold cache_inv; simpl in *.
  - split_and!; [done..|]. intros j ph Hj. rewrite lookup_insert in Hj. case_decide as Heq; [|by eapply Hr].
    injection Hj as <-. destruct (GetPushView_perm _ _ _ Hg) as (v & Hv & Hperm).
    destruct (load_dom key unmarshal read_gossip consume matches _ _ Hwf Hv) as (Hd & _ & Ha). split.
    + rewrite Hperm. eapply Forall_impl; [exact Ha|]. by left.
    + exists ∅. rewrite size_empty, (keys_perm _ _ Hperm), Hd. split; [done|set_solver].
  - split_and!; [done..|]. intros j ph Hj. rewrite lookup_insert in Hj. case_decide as Heq; [|by eapply Hr].
    injection Hj as <-. eapply push_covers; [done|done|]. exact (Hr i _ Hi).
  - pose proof (Hr i _ Hi) as Hc. apply pull_authentic in Hp.
    assert (∀ j ph, delete i (w_rounds w) !! j = Some ph → False) as Hnone.
    { intros j ph [Hne Hj]%lookup_delete_Some. exact (Hne (only_round _ _ _ _ _ Hr1 Hi Hj)). }
    destruct (finish_round _ _ _ _ _ _ _ _ Hm Hwf Hc Hp) as [[_ ->]|[? ?]]; split_and!; try done; by intros ? ? ?%Hnone.
  - split_and!; [done..|]. intros j ph [_ Hj]%lookup_delete_Some. by apply (Hr j).
Qed.

Lemma cache_inv_empty st : ds_contents st = ∅ → cache_inv (mkWorld st ∅).
Proof.
  intros Hemp. unfold cache_inv; simpl. rewrite Hemp.
  split_and!; [|rewrite map_size_empty; destruct Hcfg; lia|rewrite map_size_empty; lia|by intros ? ?; rewrite lookup_empty].
  intros k b. by rewrite Hemp, lookup_empty.
Qed.

Lemma cache_inv_run w w' : cache_inv w → rtc seq_step w w' → cache_inv w'.
Proof. intros Hinv Hrun. revert Hinv. induction Hrun; eauto using cache_inv_step. Qed.
End rounds.

(** C6. Rounds run one at a time keep the cache bounded: starting from an empty cache, after
    any sequence of rounds (completed, failed or aborted, with any peers and any random
    choices), if no commit fails, the cache holds at most [MaxView + 1] records, each stored
    under the key of its own peer and readable as an authentic record.  ([MaxView] are what
    a merge leaves; one more may be the entry that the push overwrote in the view of the
    round, which the round then neither merges nor deletes.) *)
Theorem sequential_rounds_bounded {St} `{DatastoreLaws St} {msg pubkey} key marshal
    (unmarshal : bytes → res msg) read_gossip (consume : bytes → res (PeerRecord * pubkey)) matches
    sort cfg self (st0 : St) w :
  Inj (=) (=) key → SortSpec sort → CapnpSpec marshal unmarshal read_gossip → cfg_ok cfg →
  (∀ (st : St) ops, snd (ds_commit st ops) = None) → ds_contents st0 = ∅ →
  rtc (seq_step key marshal unmarshal read_gossip consume matches sort cfg self) (mkWorld st0 ∅) w →
  Z.of_nat (size (ds_contents (w_store w))) ≤ MaxView cfg + 1 ∧
  store_wf key unmarshal read_gossip consume matches (w_store w).
Proof.
  intros Hinj Hsort Hcap Hcfg Hcommit Hemp Hrun.
  assert (cache_inv key unmarshal read_gossip consume matches cfg self w) as (? & ? & _); [|done].
  eapply (cache_inv_run key marshal unmarshal read_gossip consume matches sort cfg self Hcfg Hcommit); [|exact Hrun].
  by apply cache_inv_empty.
Qed.

(** A concrete codec: a message is the struct itself, the envelope [seq; id] signs the peer
    record of [id]. *)
Module toy.
Definition marshal (gg : Gossip) : res bytes := Ret (gHop gg :: gEnvelope gg).
Definition unmarshal (b : bytes) : res Gossip :=
  match b with h :: e => Ret (mkGossip h e) | [] => Fail (ErrExternal 0) end.
Definition read_gossip (m : Gossip) : res Gossip := Ret m.
Definition consume (e : bytes) : res (PeerRecord * bytes) :=
  match e with seq :: id => Ret (mkPeerRecord id seq [], id) | [] => Fail (ErrExternal 1) end.
Definition matches (id pk : bytes) : bool := bytes_eqb id pk.

#[global] Instance capnp_spec : CapnpSpec marshal unmarshal read_gossip.
Proof. intros gg b [= <-]. exists gg. destruct gg. done. Qed.

Abbreviation step := (round_step (St:=gmap bytes bytes) id marshal unmarshal read_gossip consume matches sort_by_hop).
Abbreviation sstep := (seq_step (St:=gmap bytes bytes) id marshal unmarshal read_gossip consume matches sort_by_hop).

Definition msgs (v : View) : list (decoded Gossip) := (λ r, DMsg (g r)) <$> v.

Definition finish (cfg : GossipConfig) (st : gmap bytes bytes) (local remote : View) : gmap bytes bytes :=
  match MergeAndStore id marshal sort_by_hop cfg [7] (λ i, i) no_draw st local remote with
  | Ret (st', _, _) => st'
  | _ => st
  end.
End toy.

(** A round of peer 7: what it reads, the buffer it pushes, the messages it gets and the
    cache it leaves. *)
Lemma toy_round cfg i st local buffer local' remote st' err evt rounds :
  rounds !! i = None →
  GetPushView toy.unmarshal toy.read_gossip toy.consume toy.matches sort_by_hop cfg (λ i, i) st = Ret local →
  pushBuffer cfg (Ret (rec 7 1 0)) local = Ret (buffer, local') →
  pull (ReadMessage toy.read_gossip toy.consume toy.matches) (toy.msgs remote) = Ret remote →
  MergeAndStore id toy.marshal sort_by_hop cfg [7] (λ i, i) no_draw st local' remote = Ret (st', err, evt) →
  size rounds = 0%nat → rtc (toy.sstep cfg [7]) (mkWorld st rounds) (mkWorld st' rounds).
Proof.
  intros Hi Hl Hb Hp Hm Hs.
  assert (rounds = delete i (<[i := Pushed local']> (<[i := Prepared local]> rounds))) as Hr.
  { by rewrite insert_insert_eq, delete_insert_id. }
  eapply rtc_l; [split; [by apply (step_prepare _ _ _ _ _ _ _ _ _ i (λ i, i) local)|cbn; by rewrite map_size_insert_None, Hs]|].
  eapply rtc_l; [split; [eapply (step_push _ _ _ _ _ _ _ _ _ i (rec 7 1 0)); [cbn; apply lookup_insert_eq|done|exact Hb]|]|].
  { cbn. rewrite insert_insert_eq. by rewrite map_size_insert_None, Hs. }
  apply rtc_once. split; [|cbn; lia].
  pose proof (step_finish (St:=gmap bytes bytes) id toy.marshal toy.unmarshal toy.read_gossip toy.consume toy.matches
    sort_by_hop cfg [7] i (λ i, i) no_draw (toy.msgs remote) local' remote st' err evt
    (mkWorld st (<[i := Pushed local']> (<[i := Prepared local]> rounds))) (lookup_insert_eq _ _ _) Hp Hm) as Hf.
  cbn [w_rounds] in Hf. by rewrite <-Hr in Hf.
Qed.

(** The cache after a first round, and after a second one that had read the empty cache. *)
Definition run1 : gmap bytes bytes := Eval vm_compute in
  toy.finish (cfg_small 2 2 0) ∅ [] [rec 3 1 1; rec 4 1 0].
Definition run2 : gmap bytes bytes := Eval vm_compute in
  toy.finish (cfg_small 2 2 0) run1 [] [rec 5 1 1; rec 6 1 0].

(** The cache after a round that read [run1]. *)
Definition run1_read : View := Eval vm_compute in
  match GetPushView toy.unmarshal toy.read_gossip toy.consume toy.matches sort_by_hop (cfg_small 2 2 0) (λ i, i) run1
  with Ret v => v | _ => [] end.
Definition run1_pushed : View := Eval vm_compute in
  match pushBuffer (cfg_small 2 2 0) (Ret (rec 7 1 0)) run1_read with Ret (_, v) => v | _ => [] end.
Definition run3 : gmap bytes bytes := Eval vm_compute in
  toy.finish (cfg_small 2 2 0) run1 run1_pushed [rec 5 1 1; rec 6 1 0].

Lemma run1_reached : rtc (toy.sstep (cfg_small 2 2 0) [7]) (mkWorld ∅ ∅) (mkWorld run1 ∅).
Proof.
  eapply (toy_round (cfg_small 2 2 0) 0 ∅ [] [rec 7 1 0] [] [rec 3 1 1; rec 4 1 0] run1); vm_compute; reflexivity.
Qed.

Lemma run3_reached : rtc (toy.sstep (cfg_small 2 2 0) [7]) (mkWorld run1 ∅) (mkWorld run3 ∅).
Proof.
  eapply (toy_round (cfg_small 2 2 0) 0 run1 run1_read [rec 7 1 0] run1_pushed [rec 5 1 1; rec 6 1 0] run3); vm_compute; reflexivity.
Qed.

Lemma sequential_rounds_bounded_witness :
  size run3 = 3%nat ∧
  Z.of_nat (size (ds_contents run3)) ≤ MaxView (cfg_small 2 2 0) + 1 ∧
  store_wf id toy.unmarshal toy.read_gossip toy.consume toy.matches run3.
Proof.
  split; [vm_compute; reflexivity|].
  apply (sequential_rounds_bounded id toy.marshal toy.unmarshal toy.read_gossip toy.consume toy.matches
    sort_by_hop (cfg_small 2 2 0) [7] (∅ : gmap bytes bytes) (mkWorld run3 ∅)).
  - apply _.
  - apply _.
  - apply _.
  - split; simpl; lia.
  - done.
  - done.
  - etrans; [exact run1_reached|exact run3_reached].
Defined.

(** The push overwrites a record of the view its round is going to merge: the record is
    lost to the merge and, not being deleted either, stays in the cache next to what the
    merge left.  With [MaxView = 2] two rounds, one after the other, leave three records, one
    of them neither merged nor aged. *)
Theorem push_overwrites_local :
  pushBuffer (cfg_small 2 2 0) (Ret (rec 7 1 0)) run1_read = Ret ([rec 7 1 0], run1_pushed) ∧
  (∃ x, x ∈ run1_read ∧ ¬ (x ∈ run1_pushed) ∧ run3 !! id_of x = run1 !! id_of x ∧ is_Some (run1 !! id_of x)) ∧
  rtc (toy.sstep (cfg_small 2 2 0) [7]) (mkWorld ∅ ∅) (mkWorld run3 ∅) ∧
  MaxView (cfg_small 2 2 0) < Z.of_nat (size run3).
Proof.
  split; [vm_compute; reflexivity|]. split.
  - eexists (List.hd (rec 0 0 0) run1_read).
    split; [apply (bool_decide_unpack _); vm_compute; done|]. split; [apply (bool_decide_unpack _); vm_compute; done|].
    split; [vm_compute; reflexivity|vm_compute; by eexists].
  - split; [|vm_compute; reflexivity]. etrans; [exact run1_reached|exact run3_reached].
Qed.

(** Two rounds in flight at once break the bound: each reads the same view, and the
    second to store deletes only what it read, so the records stored by the first remain.
    With [MaxView = 2] the cache ends up with four records. *)
Theorem concurrent_rounds_overflow :
  ∃ w, rtc (toy.step (cfg_small 2 2 0) [7]) (mkWorld ∅ ∅) w ∧
    MaxView (cfg_small 2 2 0) + 1 < Z.of_nat (size (ds_contents (w_store w))).
Proof.
  eexists (mkWorld run2 _). split; [|vm_compute; reflexivity].
  eapply rtc_l; [apply (step_prepare _ _ _ _ _ _ _ _ _ 0 (λ i, i) []); vm_compute; reflexivity|].
  eapply rtc_l; [apply (step_prepare _ _ _ _ _ _ _ _ _ 1 (λ i, i) []); vm_compute; reflexivity|].
  eapply rtc_l; [eapply (step_push _ _ _ _ _ _ _ _ _ 0 (rec 7 1 0) []); vm_compute; reflexivity|].
  eapply rtc_l; [eapply (step_push _ _ _ _ _ _ _ _ _ 1 (rec 7 1 0) []); vm_compute; reflexivity|].
  eapply rtc_l; [eapply (step_finish _ _ _ _ _ _ _ _ _ 0 (λ i, i) no_draw (toy.msgs [rec 3 1 1; rec 4 1 0]) [] [rec 3 1 1; rec 4 1 0] run1);
    vm_compute; reflexivity|].
  eapply rtc_l; [eapply (step_finish _ _ _ _ _ _ _ _ _ 1 (λ i, i) no_draw (toy.msgs [rec 5 1 1; rec 6 1 0]) [] [rec 5 1 1; rec 6 1 0] run2);
    vm_compute; reflexivity|]. apply rtc_refl.
Qed.
