(* ===== verification/Stm.v ===== *)
(** * Transactions ([src/pkg/stm])

    The [stm] package wraps [hashicorp/go-memdb], an in-memory database with immutable
    snapshots: a factory of table schemas, a scheduler that opens transactions, and the
    transactions.  The database itself is a parameter: the class [Memdb] has one operation
    per memdb call.  A transaction holds the snapshot it works on; a write transaction
    changes its own copy until [Commit] makes it the scheduler's.

    An iterator is the list of rows it will yield: memdb documents that the results of a
    [ResultIterator] "reflect a snapshot of the table at the time the ResultIterator is
    created", also when the transaction changes the table during the iteration. *)

From stdpp Require Import base list gmap strings.
From Stdlib Require Import ZArith.
From S2P Require Import Prelude.

Section stm.
Context {E V TableSchema : Type}.

(** [memdb.MemDB] and [memdb.Txn]. [D] is the type of database states; the boolean of the
    writing operations is the mode of the transaction. *)
Class Memdb (D : Type) := {
  NewMemDB : option (gmap bytes TableSchema) → outcome E D;
  db_insert : bool → D → bytes → V → outcome E D;
  db_delete : bool → D → bytes → V → outcome E D;
  db_deletePrefix : bool → D → bytes → bytes → bytes → outcome E (D * bool);
  db_deleteAll : bool → D → bytes → bytes → list V → outcome E (D * Z);
  db_first : D → bytes → bytes → list V → outcome E (option V);
  db_last : D → bytes → bytes → list V → outcome E (option V);
  db_longestPrefix : D → bytes → bytes → list V → outcome E (option V);
  db_get : D → bytes → bytes → list V → outcome E (list V);
  db_getReverse : D → bytes → bytes → list V → outcome E (list V);
  db_lowerBound : D → bytes → bytes → list V → outcome E (list V);
  db_reverseLowerBound : D → bytes → bytes → list V → outcome E (list V) }.

Record TableRef := mkTableRef { name : bytes }.

(** ** Factory *)
Record Factory := mkFactory { fschema : option (gmap bytes TableSchema) }.

Definition Register (f : Factory) (n : bytes) (t : TableSchema)
    : outcome E (Factory * TableRef) :=
  let tables := match fschema f with None => ∅ | Some m => m end in
  match tables !! n with
  | Some _ => Panic
  | None => Ret (mkFactory (Some (<[n := t]> tables)), mkTableRef n)
  end.

(** ** Scheduler and transactions *)
Record Scheduler (D : Type) := mkScheduler { sdb : D }.
Record Txn (D : Type) := mkTxn { txn : D; write : bool }.
Arguments mkScheduler {D} sdb.
Arguments sdb {D} s.
Arguments mkTxn {D} txn write.
Arguments txn {D} t.
Arguments write {D} t.

Section ops.
Context {D : Type} `{Memdb D}.

Definition NewScheduler (f : Factory) : outcome E (Scheduler D) :=
  d <~ NewMemDB (fschema f) ;; Ret (mkScheduler d).

Definition Scheduler_Txn (s : Scheduler D) (w : bool) : Txn D := mkTxn (sdb s) w.

Definition Scheduler_Snapshot (s : Scheduler D) : Scheduler D := mkScheduler (sdb s).

(** [Commit] of a read transaction changes nothing. *)
Definition Commit (s : Scheduler D) (t : Txn D) : Scheduler D :=
  if write t then mkScheduler (txn t) else s.

Definition Abort (s : Scheduler D) (t : Txn D) : Scheduler D := s.

Definition Insert (t : Txn D) (table : TableRef) (v : V) : outcome E (Txn D) :=
  d <~ db_insert (write t) (txn t) (name table) v ;; Ret (mkTxn d (write t)).

Definition Delete (t : Txn D) (table : TableRef) (v : V) : outcome E (Txn D) :=
  d <~ db_delete (write t) (txn t) (name table) v ;; Ret (mkTxn d (write t)).

Definition DeletePrefix (t : Txn D) (table : TableRef) (ix prefix : bytes)
    : outcome E (Txn D * bool) :=
  p <~ db_deletePrefix (write t) (txn t) (name table) ix prefix ;;
  Ret (mkTxn (fst p) (write t), snd p).

Definition DeleteAll (t : Txn D) (table : TableRef) (ix : bytes) (args : list V)
    : outcome E (Txn D * Z) :=
  p <~ db_deleteAll (write t) (txn t) (name table) ix args ;;
  Ret (mkTxn (fst p) (write t), snd p).

Definition First (t : Txn D) (table : TableRef) (ix : bytes) (args : list V) :=
  db_first (txn t) (name table) ix args.

Definition Last (t : Txn D) (table : TableRef) (ix : bytes) (args : list V) :=
  db_last (txn t) (name table) ix args.

Definition LongestPrefix (t : Txn D) (table : TableRef) (ix : bytes) (args : list V) :=
  db_longestPrefix (txn t) (name table) ix args.

Definition Get (t : Txn D) (table : TableRef) (ix : bytes) (args : list V) :=
  db_get (txn t) (name table) ix args.

Definition GetReverse (t : Txn D) (table : TableRef) (ix : bytes) (args : list V) :=
  db_getReverse (txn t) (name table) ix args.

Definition LowerBound (t : Txn D) (table : TableRef) (ix : bytes) (args : list V) :=
  db_lowerBound (txn t) (name table) ix args.

Definition ReverseLowerBound (t : Txn D) (table : TableRef) (ix : bytes) (args : list V) :=
  db_reverseLowerBound (txn t) (name table) ix args.

Definition Txn_Snapshot (t : Txn D) : Txn D := mkTxn (txn t) false.
End ops.
End stm.

Arguments Memdb E V TableSchema D : clear implicits.
Arguments mkScheduler {D} sdb.
Arguments sdb {D} s.
Arguments mkTxn {D} txn write.
Arguments txn {D} t.
Arguments write {D} t.
Arguments Factory TableSchema : clear implicits.
