(* ===== verification/StmTxn.v ===== *)
(** * The life of a transaction ([src/pkg/stm/txn.go])

    [Stm] models the reads and writes of a transaction.  This file adds what a transaction
    is beyond them: it is open until it is committed or aborted, it may record the changes
    it makes, a write transaction runs deferred functions when it commits, and its reads may
    be watched.
    The transaction of go-memdb is the parameter: class [MemTxn] has its methods, and
    [MemTxnLaws] what the comments of [txn.go] say of them.  The theorems are about what
    the package adds, its references to tables: a holder of some of them reaches the tables
    they designate and no others. *)

From stdpp Require Import base list gmap strings.
From Stdlib Require Import ZArith.
From S2P Require Import Prelude Stm.

Section lifecycle.
Context {E V : Type}.

(** A change that was made: the table, and the object before and after. *)
Record Change := mkChange { ch_Table : bytes; ch_Before : option V; ch_After : option V }.

(** [*memdb.Txn] as an object of state [X]; [W] is the type of watch channels, [F] of the
    functions given to [Defer].  [x_Commit] also returns the functions it called, in order,
    and [x_Snapshot] may return nil. *)
Class MemTxn (X W F : Type) := {
  x_TrackChanges : X → X;
  x_Changes : X → option (list Change);
  x_Defer : F → X → X;
  x_Insert : bytes → V → X → outcome E X;
  x_Delete : bytes → V → X → outcome E X;
  x_DeletePrefix : bytes → bytes → bytes → X → outcome E (X * bool);
  x_DeleteAll : bytes → bytes → list V → X → outcome E (X * Z);
  x_FirstWatch : X → bytes → bytes → list V → outcome E (W * option V);
  x_LastWatch : X → bytes → bytes → list V → outcome E (W * option V);
  x_Commit : X → X * list F;
  x_Abort : X → X;
  x_Snapshot : X → option X }.

(** ** The wrappers *)
Section ops.
Context {X W F : Type} `{MemTxn X W F}.

Definition TrackChanges (t : X) : X := x_TrackChanges t.
Definition Txn_Abort (t : X) : X := x_Abort t.
Definition Txn_Commit (t : X) : X * list F := x_Commit t.
Definition Txn_Insert (t : X) (table : TableRef) (v : V) : outcome E X := x_Insert (name table) v t.
Definition Txn_Delete (t : X) (table : TableRef) (v : V) : outcome E X := x_Delete (name table) v t.
Definition Txn_DeletePrefix (t : X) (table : TableRef) (ix prefix : bytes) : outcome E (X * bool) :=
  x_DeletePrefix (name table) ix prefix t.
Definition Txn_DeleteAll (t : X) (table : TableRef) (ix : bytes) (args : list V) : outcome E (X * Z) :=
  x_DeleteAll (name table) ix args t.
Definition FirstWatch (t : X) (table : TableRef) (ix : bytes) (args : list V) : outcome E (W * option V) :=
  x_FirstWatch t (name table) ix args.
Definition LastWatch (t : X) (table : TableRef) (ix : bytes) (args : list V) : outcome E (W * option V) :=
  x_LastWatch t (name table) ix args.
Definition Changes (t : X) : option (list Change) := x_Changes t.
Definition Defer (t : X) (fn : F) : X := x_Defer fn t.
Definition Snapshot (t : X) : option X := x_Snapshot t.

(** What a holder of a transaction and some references can do with them. *)
Inductive op :=
| OInsert (table : TableRef) (v : V)
| ODelete (table : TableRef) (v : V)
| ODeletePrefix (table : TableRef) (ix prefix : bytes)
| ODeleteAll (table : TableRef) (ix : bytes) (args : list V)
| ODefer (fn : F).

Definition exec (o : op) (t : X) : outcome E X :=
  match o with
  | OInsert table v => Txn_Insert t table v
  | ODelete table v => Txn_Delete t table v
  | ODeletePrefix table ix prefix => p <~ Txn_DeletePrefix t table ix prefix ;; Ret (fst p)
  | ODeleteAll table ix args => p <~ Txn_DeleteAll t table ix args ;; Ret (fst p)
  | ODefer fn => Ret (Defer t fn)
  end.

Fixpoint exec_all (os : list op) (t : X) : outcome E X :=
  match os with [] => Ret t | o :: os' => t' <~ exec o t ;; exec_all os' t' end.

Definition table_of (o : op) : option TableRef :=
  match o with
  | OInsert table _ | ODelete table _ | ODeletePrefix table _ _ | ODeleteAll table _ _ => Some table
  | ODefer _ => None
  end.

Definition deferred_of (os : list op) : list F :=
  omap (λ o, match o with ODefer fn => Some fn | _ => None end) os.
End ops.

(** ** What go-memdb promises *)
Class MemTxnLaws (X W F : Type) `{MemTxn X W F} := {
  open : X → Prop;                     (* neither committed nor aborted *)
  writing : X → Prop;                  (* a write transaction, or a read transaction *)
  pending : X → list F;                (* deferred so far, the oldest first *)
  rows : X → bytes → gmap bytes V;     (* a table, by the bytes of its id *)
  x_write n X1 X2 :                    (* a write touches the table it names *)
    ((∃ v, x_Insert n v X1 = Ret X2) ∨ (∃ v, x_Delete n v X1 = Ret X2) ∨
     (∃ ix p b, x_DeletePrefix n ix p X1 = Ret (X2, b)) ∨ (∃ ix a k, x_DeleteAll n ix a X1 = Ret (X2, k))) →
    (∀ m, m ≠ n → rows X2 m = rows X1 m) ∧ pending X2 = pending X1 ∧ (open X1 → open X2) ∧
    (writing X2 ↔ writing X1) ∧
    ∀ cs, x_Changes X1 = Some cs → ∃ cs', x_Changes X2 = Some cs' ∧
      ∀ c, c ∈ cs' → c ∈ cs ∨ ch_Table c = n;
  x_defer f t :
    pending (x_Defer f t) = pending t ++ [f] ∧ (∀ n, rows (x_Defer f t) n = rows t n) ∧
    (open t → open (x_Defer f t)) ∧ (writing (x_Defer f t) ↔ writing t) ∧
    x_Changes (x_Defer f t) = x_Changes t;
  x_watch_rows t t' n ix args :        (* a read depends on the table it names *)
    rows t n = rows t' n →
    (∀ w v, x_FirstWatch t n ix args = Ret (w, v) → ∃ w', x_FirstWatch t' n ix args = Ret (w', v)) ∧
    (∀ w v, x_LastWatch t n ix args = Ret (w, v) → ∃ w', x_LastWatch t' n ix args = Ret (w', v));
  x_track t : open t → ∃ cs, x_Changes (x_TrackChanges t) = Some cs;
  x_track_keeps t : (∀ n, rows (x_TrackChanges t) n = rows t n) ∧ pending (x_TrackChanges t) = pending t ∧
    (open t → open (x_TrackChanges t)) ∧ (writing (x_TrackChanges t) ↔ writing t);
  x_commit t : open t → writing t → (x_Commit t).2 = rev (pending t) ∧ ¬ open (x_Commit t).1;
  x_commit_noop t : ¬ open t ∨ ¬ writing t → x_Commit t = (t, []);
  x_abort t : open t → writing t → ¬ open (x_Abort t) ∧ x_Changes (x_Abort t) = None;
  x_abort_noop t : ¬ open t ∨ ¬ writing t → x_Abort t = t;
  x_snapshot t : open t → ∃ t', x_Snapshot t = Some t' ∧ open t' ∧ ¬ writing t' ∧
    ∀ n, rows t' n = rows t n;
  x_snapshot_done t : ¬ open t → x_Snapshot t = None }.
End lifecycle.

Arguments Change V : clear implicits.
Arguments MemTxn E V X W F : clear implicits.
Arguments MemTxnLaws E V X W F {_}.
Arguments op V F : clear implicits.

(** Registering tables one after the other. *)
Fixpoint register_all {E S} (ts : list (bytes * S)) (f : Factory S) : outcome E (Factory S * list TableRef) :=
  match ts with
  | [] => Ret (f, [])
  | (n, s) :: ts' =>
      p <~ Register f n s ;; q <~ register_all ts' (fst p) ;; Ret (fst q, snd p :: snd q)
  end.

(** ** Facts *)
Lemma register_all_fresh {E S} ts (f f' : Factory S) refs :
  register_all (E:=E) ts f = Ret (f', refs) →
  NoDup refs ∧ ∀ r, r ∈ refs → default ∅ (fschema f) !! name r = None.
Proof.
  revert f f' refs. induction ts as [|[n s] ts IH]; cbn; intros f f' refs.
  { intros [= <- <-]. split; [constructor|]. by intros r ?%elem_of_nil. }
  unfold Register. replace (match fschema f with Some m => m | None => ∅ end) with (default ∅ (fschema f)) by by destruct (fschema f).
  destruct (default ∅ (fschema f) !! n) eqn:Hn; [done|]. cbn.
  intros ([f1 refs1] & (Hd & Hf)%IH & [= <- <-])%bind_Ret_inv. cbn in *. split.
  - constructor; [|done]. intros Hin. specialize (Hf _ Hin). cbn in Hf. by rewrite lookup_insert_eq in Hf.
  - intros r [->|Hr]%elem_of_cons; [done|]. specialize (Hf _ Hr). by apply lookup_insert_None in Hf as [? _].
Qed.

Section facts.
Context {E V X W F : Type} `{!MemTxn E V X W F} `{!MemTxnLaws E V X W F}.

Lemma exec_write n (t t' : X) :
  ((∃ v, x_Insert n v t = Ret t') ∨ (∃ v, x_Delete n v t = Ret t') ∨
   (∃ ix p b, x_DeletePrefix n ix p t = Ret (t', b)) ∨ (∃ ix a k, x_DeleteAll n ix a t = Ret (t', k))) →
  (∀ m, Some (mkTableRef n) ≠ Some (mkTableRef m) → rows t' m = rows t m) ∧ pending t' = pending t ++ [] ∧
  (open t → open t') ∧ (writing t' ↔ writing t) ∧
  ∀ cs, Changes t = Some cs → ∃ cs', Changes t' = Some cs' ∧
    ∀ c, c ∈ cs' → c ∈ cs ∨ Some (mkTableRef n) = Some (mkTableRef (ch_Table c)).
Proof.
  intros (Hr & Hp & Ho & Hw & Hc)%x_write. rewrite app_nil_r. split; [|split_and!; try done].
  - intros m Hm. apply Hr. congruence.
  - intros cs Hcs. destruct (Hc cs Hcs) as (cs' & Hcs' & Hin). exists cs'. split; [done|].
    intros c [?| <-]%Hin; auto.
Qed.

Lemma exec_confined (o : op V F) (t t' : X) :
  exec o t = Ret t' →
  (∀ m, table_of o ≠ Some (mkTableRef m) → rows t' m = rows t m) ∧ pending t' = pending t ++ deferred_of [o] ∧
  (open t → open t') ∧ (writing t' ↔ writing t) ∧
  ∀ cs, Changes t = Some cs → ∃ cs', Changes t' = Some cs' ∧
    ∀ c, c ∈ cs' → c ∈ cs ∨ table_of o = Some (mkTableRef (ch_Table c)).
Proof.
  destruct o as [[n] v|[n] v|[n] ix p|[n] ix a|f]; cbn -[app];
    unfold Txn_Insert, Txn_Delete, Txn_DeletePrefix, Txn_DeleteAll, Defer.
  - intros Ht. apply exec_write; eauto.
  - intros Ht. apply exec_write; eauto.
  - intros ([t1 b] & Ht & [= <-])%bind_Ret_inv. apply exec_write; eauto 10.
  - intros ([t1 b] & Ht & [= <-])%bind_Ret_inv. apply exec_write; eauto 10.
  - intros [= <-]. destruct (x_defer f t) as (Hp & Hr & Ho & Hw & Hc). unfold Changes. rewrite Hc.
    split; [auto|]. split; [done|]. split; [done|]. split; [done|]. intros cs Hcs. exists cs. auto.
Qed.

Lemma exec_all_confined os (t t' : X) :
  exec_all os t = Ret t' →
  (∀ m, (∀ o, o ∈ os → table_of o ≠ Some (mkTableRef m)) → rows t' m = rows t m) ∧
  pending t' = pending t ++ deferred_of os ∧ (open t → open t') ∧ (writing t' ↔ writing t) ∧
  ∀ cs, Changes t = Some cs → ∃ cs', Changes t' = Some cs' ∧
    ∀ c, c ∈ cs' → c ∈ cs ∨ ∃ o, o ∈ os ∧ table_of o = Some (mkTableRef (ch_Table c)).
Proof.
  revert t. induction os as [|o os IH]; cbn -[deferred_of]; intros t.
  { intros [= <-]. rewrite app_nil_r. do 4 (split; [done|]). intros cs Hcs. exists cs. auto. }
  intros (t1 & (Hr & Hp & Ho & Hw & Hc)%exec_confined & (Hr' & Hp' & Ho' & Hw' & Hc')%IH)%bind_Ret_inv.
  split; [|split; [|split; [|split]]].
  - intros m Hm. rewrite Hr', Hr; [done|apply Hm; by left|]. intros o' Ho''. apply Hm. by right.
  - rewrite Hp', Hp, <-app_assoc. f_equal. unfold deferred_of. cbn. by destruct o.
  - auto.
  - by rewrite Hw', Hw.
  - intros cs (cs1 & Hcs1 & Hin1)%Hc. destruct (Hc' cs1 Hcs1) as (cs2 & Hcs2 & Hin2). exists cs2. split; [done|].
    intros c [[?|?]%Hin1|(o' & ? & ?)]%Hin2; [by left|right; exists o; split; [by left|done]|].
    right. exists o'. split; [by right|done].
Qed.

(** The functions deferred in a write transaction run at its commit, in reverse order and
    once; those of a read transaction never do. *)
Lemma deferred_at_commit os (t t' : X) :
  exec_all os t = Ret t' → open t →
  (writing t → (Txn_Commit t').2 = rev (deferred_of os) ++ rev (pending t) ∧
               Txn_Commit (Txn_Commit t').1 = ((Txn_Commit t').1, [])) ∧
  (¬ writing t → Txn_Commit t' = (t', [])).
Proof.
  intros (_ & Hp & Ho & Hw & _)%exec_all_confined Hopen. unfold Txn_Commit. split; intros Hm.
  - destruct (x_commit t') as [-> Hn]; [auto|by apply Hw|]. rewrite Hp, rev_app_distr.
    split; [done|]. apply x_commit_noop. by left.
  - apply x_commit_noop. right. by rewrite Hw.
Qed.
End facts.

(** ** Properties *)

(** C26. A table reference is a capability: of the references that registrations at a new
    factory returned no two designate the same table.  So whatever sequence of insertions
    and deletions an open transaction carries out through the others, the first and last
    object of any query through this reference, in the transaction or in a snapshot of it,
    are those from before, and a change log that was empty when tracking began has no
    entry for its table. *)
Theorem refs_confine {E V X W F S} `{!MemTxn E V X W F} `{!MemTxnLaws E V X W F}
    (ts : list (bytes * S)) (f : Factory S) (refs : list TableRef) (i : nat) (r : TableRef)
    (t t' : X) (os : list (op V F)) :
  register_all (E:=E) ts (mkFactory None) = Ret (f, refs) → refs !! i = Some r →
  open t → Changes (TrackChanges t) = Some [] →
  (∀ o r', o ∈ os → table_of o = Some r' → ∃ j, j ≠ i ∧ refs !! j = Some r') →
  exec_all os (TrackChanges t) = Ret t' →
  (∃ cs, Changes t' = Some cs ∧ ∀ c, c ∈ cs → ch_Table c ≠ name r) ∧
  (∃ s, Snapshot t' = Some s ∧ ∀ t1, t1 = t' ∨ t1 = s →
     (∀ ix args w v, FirstWatch t r ix args = Ret (w, v) → ∃ w', FirstWatch t1 r ix args = Ret (w', v)) ∧
     (∀ ix args w v, LastWatch t r ix args = Ret (w, v) → ∃ w', LastWatch t1 r ix args = Ret (w', v))).
Proof.
  intros [Hnd _]%register_all_fresh Hi Hopen Hc0 Hos (Hr & _ & Ho & _ & Hc)%exec_all_confined.
  assert (∀ o, o ∈ os → table_of o ≠ Some r) as Hne.
  { intros o Hin Ht. destruct (Hos o r Hin Ht) as (j & Hj & Hrj). by apply Hj, (NoDup_lookup _ _ _ _ Hnd Hrj Hi). }
  destruct (x_track_keeps t) as (Hk & _ & Hko & _).
  assert (rows t (name r) = rows t' (name r)) as Hrows.
  { rewrite Hr, Hk; [done|]. intros o Hin. destruct r. by apply Hne. }
  split.
  - destruct (Hc [] Hc0) as (cs & Hcs & Hin). exists cs. split; [done|].
    intros c [Hbad%elem_of_nil|(o & Ho' & Ht)]%Hin Heq; [done|]. apply (Hne o Ho'). rewrite Ht, Heq. by destruct r.
  - destruct (x_snapshot t') as (s & Hs & _ & _ & Hrs); [auto|]. exists s. split; [done|].
    intros t1 Ht1. assert (rows t (name r) = rows t1 (name r)) as H1.
    { destruct Ht1 as [->| ->]; [done|]. by rewrite Hrs. }
    split; intros ix args w v; apply (x_watch_rows _ _ _ _ _ H1).
Qed.

(** ** A concrete transaction *)
Module toy_txn.
Record mtx := mkMtx {
  m_db : gmap bytes (gmap bytes bytes); m_log : option (list (Change bytes)); m_open : bool;
  m_write : bool; m_def : list nat }.

Definition table (n : bytes) (t : mtx) : gmap bytes bytes := default ∅ (m_db t !! n).

(** Replace a table, recording a change of the objects given. *)
Definition update (n : bytes) (rows : gmap bytes bytes) (cs : list (Change bytes)) (t : mtx) : outcome unit mtx :=
  if m_open t && m_write t then Ret (mkMtx (<[n := rows]> (m_db t)) ((λ l, l ++ cs) <$> m_log t) true true (m_def t))
  else Fail tt.

Definition removed (n : bytes) (v : bytes) : Change bytes := mkChange n (Some v) None.
Definition without (n : bytes) (vs : list bytes) (t : mtx) : gmap bytes bytes :=
  foldr (λ v m, delete v m) (table n t) vs.
Definition keys (n : bytes) (t : mtx) : list bytes := (map_to_list (table n t)).*1.

#[global] Instance mtx_txn : MemTxn unit bytes mtx unit nat := {|
  x_TrackChanges t := if m_open t then mkMtx (m_db t) (Some (default [] (m_log t))) true (m_write t) (m_def t) else t;
  x_Changes t := m_log t;
  x_Defer f t := mkMtx (m_db t) (m_log t) (m_open t) (m_write t) (m_def t ++ [f]);
  x_Insert n v t := update n (<[v := v]> (table n t)) [mkChange n (table n t !! v) (Some v)] t;
  x_Delete n v t := update n (without n [v] t) [removed n v] t;
  x_DeletePrefix n _ p t :=
    let ks := filter (λ k, prefixb p k = true) (keys n t) in
    t' <~ update n (without n ks t) (removed n <$> ks) t ;; Ret (t', negb (length ks =? 0)%nat);
  x_DeleteAll n _ args t :=
    t' <~ update n (without n args t) (removed n <$> args) t ;; Ret (t', Z.of_nat (length args));
  x_FirstWatch t n _ _ := Ret (tt, head (keys n t));
  x_LastWatch t n _ _ := Ret (tt, last (keys n t));
  x_Commit t :=
    if m_open t && m_write t then (mkMtx (m_db t) (m_log t) false true (m_def t), rev (m_def t)) else (t, []);
  x_Abort t := if m_open t && m_write t then mkMtx (m_db t) None false true (m_def t) else t;
  x_Snapshot t := if m_open t then Some (mkMtx (m_db t) None true false []) else None |}.

Lemma update_ok n rows cs t t' :
  update n rows cs t = Ret t' → (∀ c, c ∈ cs → ch_Table c = n) →
  (∀ m, m ≠ n → table m t' = table m t) ∧ m_def t' = m_def t ∧ (m_open t = true → m_open t' = true) ∧
  (m_write t' = true ↔ m_write t = true) ∧
  ∀ l, m_log t = Some l → ∃ l', m_log t' = Some l' ∧ ∀ c, c ∈ l' → c ∈ l ∨ ch_Table c = n.
Proof.
  unfold update. destruct (m_open t), (m_write t); try done. intros [= <-] Hc. unfold table. cbn.
  split; [|split_and!; try done].
  - intros m Hm. by rewrite lookup_insert_ne.
  - intros l ->. exists (l ++ cs). split; [done|]. intros c [?|?]%elem_of_app; auto.
Qed.

Lemma removed_table n (vs : list bytes) (c : Change bytes) : c ∈ removed n <$> vs → ch_Table c = n.
Proof. by intros (v & -> & _)%list_elem_of_fmap. Qed.

#[global, program] Instance mtx_laws : MemTxnLaws unit bytes mtx unit nat := {|
  open t := m_open t = true; writing t := m_write t = true; pending := m_def; rows t n := table n t |}.
Next Obligation.
  cbn. intros n t t' [[v Ht]|[[v Ht]|[(ix & p & b & Ht)|(ix & a & k & Ht)]]].
  - apply (update_ok _ _ _ _ _ Ht). by intros c ->%list_elem_of_singleton.
  - apply (update_ok _ _ _ _ _ Ht). by intros c ->%list_elem_of_singleton.
  - apply bind_Ret_inv in Ht as (t1 & Ht & [= <- <-]). apply (update_ok _ _ _ _ _ Ht), removed_table.
  - apply bind_Ret_inv in Ht as (t1 & Ht & [= <- <-]). apply (update_ok _ _ _ _ _ Ht), removed_table.
Qed.
Next Obligation. by intros f t. Qed.
Next Obligation.
  cbn. intros t t' n ix args Hr. unfold keys. rewrite Hr. split; intros w v [= <- <-]; by exists tt.
Qed.
Next Obligation. cbn. intros t ->. cbn. by eexists. Qed.
Next Obligation. cbn. intros t. by destruct (m_open t) eqn:Ho. Qed.
Next Obligation. cbn. intros t -> ->. by split. Qed.
Next Obligation. cbn. intros t. destruct (m_open t), (m_write t); naive_solver. Qed.
Next Obligation. cbn. intros t -> ->. by split. Qed.
Next Obligation. cbn. intros t. destruct (m_open t), (m_write t); naive_solver. Qed.
Next Obligation. cbn. intros t ->. eexists. by split_and!. Qed.
Next Obligation. cbn. intros t. by destruct (m_open t). Qed.
End toy_txn.

(** Two tables: objects are inserted and deleted in the second, the first is unchanged. *)
Definition toy_t0 : toy_txn.mtx := toy_txn.mkMtx {[ bs "a" := {[ [1]%Z := [1]%Z ]} ]} None true true [7%nat].
Definition toy_ops : list (op bytes nat) :=
  [OInsert (mkTableRef (bs "b")) [2]%Z; ODefer 8%nat; ODelete (mkTableRef (bs "b")) [2]%Z; ODefer 9%nat].
Definition toy_t1 : toy_txn.mtx :=
  match exec_all toy_ops (TrackChanges toy_t0) with Ret t => t | _ => toy_t0 end.

Lemma refs_confine_witness :
  FirstWatch toy_t1 (mkTableRef (bs "a")) [] [] = Ret (tt, Some [1]%Z) ∧
  ∃ cs, Changes toy_t1 = Some cs ∧ ∀ c, c ∈ cs → ch_Table c ≠ bs "a".
Proof.
  destruct (refs_confine (E:=unit) (S:=unit) [(bs "a", tt); (bs "b", tt)] (mkFactory (Some {[bs "a" := tt; bs "b" := tt]}))
    [mkTableRef (bs "a"); mkTableRef (bs "b")] 0 (mkTableRef (bs "a")) toy_t0 toy_t1 toy_ops) as (Hc & s & _ & Hf).
  - vm_compute. reflexivity.
  - reflexivity.
  - reflexivity.
  - reflexivity.
  - intros o r' Ho Ht. exists 1%nat. split; [discriminate|]. unfold toy_ops in Ho.
    repeat (apply elem_of_cons in Ho as [->|Ho]; [cbn in Ht |- *; congruence|]). by apply elem_of_nil in Ho.
  - vm_compute. reflexivity.
  - split; [|exact Hc]. destruct (Hf _ (or_introl eq_refl)) as [Hw0 _]. destruct (Hw0 [] [] tt (Some [1]%Z)) as [[] Hw]; [vm_compute; reflexivity|exact Hw].
Defined.
