(* ===== verification/Routing.v ===== *)
(** * Routing records, identifiers and the table schema
    ([src/pkg/cluster/routing/routing.go], [src/pkg/cluster/routing/schema.go])

    Instance identifiers with their hexadecimal text form, metadata fields and the five
    indexers of the routing table's schema.

    Go's [any] is the inductive [any]: a value with its dynamic type.  An optional
    interface ([PeerIndex], [HostIndex], ...) that a value may implement is an [option]
    field; the type switches of [schema.go] are the matches on those fields, in the order
    of their cases.

    Buffers come from [go-buffer-pool], which does not clear them: [pool n] is the buffer
    a call of [pool.Get(n)] returns, with any content ([PoolSpec]).  [b58] is
    [base58.Encode]. *)

From stdpp Require Import base list gmap strings.
From Stdlib Require Import ZArith Lia.
From S2P Require Import Prelude.

Open Scope Z_scope.

(** ** Errors *)
Inductive rerror :=
| ErrInvalidByte (b : Z)      (* hex.InvalidByteError *)
| ErrLength                   (* hex.ErrLength *)
| ErrMissingKey               (* "missing key" *)
| ErrSeparator                (* "separator not found" *)
| ErrType                     (* "invalid type: .." *)
| ErrNArgs (n : nat)          (* "expected one argument (got ..)" *)
| ErrNotFound                 (* memdb.ErrNotFound *)
| ErrMissingIndex             (* memdb: "missing value for index" *)
| ErrLimit (n : Z)            (* "expected limit > 0 (got ..)" *)
| ErrInvalidIndex             (* "invalid index: .." *)
| ErrNotIndex                 (* "not a peer index", "not a host index", .. *)
| ErrExt (code : Z)           (* an error of a library *)
| OutOfFuel.                  (* the iteration bound of the model, never an error of the code *)

#[global] Instance rerror_eq_dec : EqDecision rerror.
Proof. solve_decision. Defined.

Abbreviation rres := (outcome rerror).

(** ** Hexadecimal ([encoding/hex]) *)
Definition hextable (v : Z) : Z := if v <? 10 then 48 + v else 87 + v.

Definition reverseHex (c : Z) : option Z :=
  if (48 <=? c) && (c <=? 57) then Some (c - 48)
  else if (97 <=? c) && (c <=? 102) then Some (c - 87)
  else if (65 <=? c) && (c <=? 70) then Some (c - 55)
  else None.

(** [dst[i] = b]: an index outside the slice panics. *)
Definition set_byte (dst : bytes) (i : nat) (b : Z) : rres bytes :=
  if (i <? length dst)%nat then Ret (<[i := b]> dst) else Panic.

Fixpoint hex_Encode (dst : bytes) (i : nat) (src : bytes) : rres bytes :=
  match src with
  | [] => Ret dst
  | v :: src' =>
      d1 <~ set_byte dst i (hextable (Z.shiftr v 4)) ;;
      d2 <~ set_byte d1 (S i) (hextable (Z.land v 15)) ;;
      hex_Encode d2 (S (S i)) src'
  end.

Fixpoint hex_Decode (dst : bytes) (i : nat) (src : bytes) : rres bytes :=
  match src with
  | [] => Ret dst
  | [p] => match reverseHex p with
           | None => Fail (ErrInvalidByte p)
           | Some _ => Fail ErrLength
           end
  | p :: q :: src' =>
      match reverseHex p with
      | None => Fail (ErrInvalidByte p)
      | Some a =>
          match reverseHex q with
          | None => Fail (ErrInvalidByte q)
          | Some b =>
              d <~ set_byte dst i (Z.lor (Z.shiftl a 4) b) ;;
              hex_Decode d (S i) src'
          end
      end
  end.

(** ** Instance identifiers *)
Class PoolSpec (pool : nat → bytes) : Prop := pool_length n : length (pool n) = n.

(** [binary.BigEndian.PutUint64(buf, v)]: the first eight bytes of [buf]. *)
Definition PutUint64 (buf : bytes) (v : Z) : rres bytes :=
  if (8 <=? length buf)%nat then Ret (be_encode 8 (u64 v) ++ drop 8 buf) else Panic.

(** [binary.BigEndian.Uint64(buf)]: panics on fewer than eight bytes. *)
Definition Uint64 (buf : bytes) : rres Z :=
  if (8 <=? length buf)%nat then Ret (be_decode (take 8 buf)) else Panic.

Section id.
Context (pool : nat → bytes).

Definition Bytes (id : Z) : rres bytes := PutUint64 (pool 8) id.

Definition String_ (id : Z) : rres bytes :=
  b <~ Bytes id ;; hex_Encode (pool 16) 0 b.

(** [UnmarshalText] sets [*id]; the result is the new value. *)
Definition UnmarshalText (b : bytes) : rres Z :=
  buf <~ hex_Decode (pool 8) 0 b ;; Uint64 buf.

Definition MarshalText (id : Z) : rres bytes :=
  b <~ PutUint64 (pool 16) id ;;
  buf <~ Bytes id ;;
  hex_Encode b 0 buf.
End id.

(** ** Metadata *)

(** A Cap'n Proto text list: the result of reading each element. *)
Abbreviation Meta := (list (rres bytes)).

Record MetaField := mkField { fKey : bytes; fValue : bytes }.

#[global] Instance MetaField_eq_dec : EqDecision MetaField.
Proof. solve_decision. Defined.

(** [strings.Split(s, sep)] for a one-byte separator. *)
Fixpoint Split (sep : Z) (s : bytes) : list bytes :=
  match s with
  | [] => [[]]
  | c :: s' =>
      if c =? sep then [] :: Split sep s'
      else match Split sep s' with
           | w :: ws => (c :: w) :: ws
           | [] => [[c]]
           end
  end.

(** [strings.Join(ss, sep)]. *)
Fixpoint Join (sep : bytes) (ss : list bytes) : bytes :=
  match ss with
  | [] => []
  | [w] => w
  | w :: ws => w ++ sep ++ Join sep ws
  end.

Definition eq_sign : Z := 61.

Definition ParseField (s : bytes) : rres MetaField :=
  match Split eq_sign s with
  | [] => Fail ErrMissingKey
  | [_] => Fail ErrSeparator
  | w :: ws => Ret (mkField w (Join [eq_sign] ws))
  end.

Definition MetaField_String (f : MetaField) : bytes :=
  if bytes_eqb (fKey f) [] then [] else fKey f ++ [eq_sign] ++ fValue f.

Definition Meta_Len (m : Meta) : nat := length m.

(** Reading past the end of a Cap'n Proto list panics. *)
Definition Meta_At (m : Meta) (i : nat) : rres MetaField :=
  match m !! i with
  | None => Panic
  | Some e => s <~ e ;; ParseField s
  end.

Fixpoint Meta_Get_loop (m : Meta) (n i : nat) (key : bytes) : rres bytes :=
  match n with
  | O => Ret []
  | S n' =>
      f <~ Meta_At m i ;;
      if bytes_eqb (fKey f) key then Ret (fValue f) else Meta_Get_loop m n' (S i) key
  end.

Definition Meta_Get (m : Meta) (key : bytes) : rres bytes := Meta_Get_loop m (Meta_Len m) 0 key.

Definition Meta_Index (m : Meta) : rres (list bytes) := omapM id m.

(** ** Records and values *)

(** [routing.Record] with the optional interfaces a record may implement.  [Seq] may
    panic (a heartbeat reads it from the message's sequence bytes); the text accessors
    may fail. *)
Record RecordI := mkRecordI {
  Server : Z;
  Peer : bytes;
  Seq : rres Z;
  TTL : Z;
  Host : rres bytes;
  RMeta : rres Meta;
  PeerBytes : option (rres bytes);
  ServerBytes : option (rres bytes);
  HostBytes : option (rres bytes) }.

(** [*record]: a record with its deadline (nanoseconds since the Unix epoch). *)
Record record := mkrecord { rec_Record : RecordI; Deadline : Z }.

(** [routing.Index] and the optional interfaces the schema looks for. *)
Record IndexI := mkIndexI {
  ix_String : bytes;
  ix_Prefix : bool;
  ix_PeerBytes : option (rres bytes);
  ix_ServerBytes : option (rres bytes);
  ix_HostBytes : option (rres bytes);
  ix_MetaBytes : option (rres bytes) }.

Inductive any :=
| AnyRecord (r : RecordI)
| Any_record (r : record)
| AnyIndex (ix : IndexI)
| AnyPeerID (id : bytes)
| AnyID (id : Z)
| AnyString (s : bytes)
| AnyBytes (b : bytes)
| AnyTime (t : Z)
| AnyOther.

(** Methods of [record]: the assertions [r.Record.(PeerIndex)] and
    [r.Record.(HostIndex)] panic when the wrapped record lacks the interface. *)
Definition record_PeerBytes (r : record) : rres bytes :=
  match PeerBytes (rec_Record r) with Some b => b | None => Panic end.

Definition record_HostBytes (r : record) : rres bytes :=
  match HostBytes (rec_Record r) with Some b => b | None => Panic end.

(** The dynamic type tests [v.(I)]. *)
Definition to_PeerIndex (v : any) : option (rres bytes) :=
  match v with
  | AnyRecord r => PeerBytes r
  | Any_record r => Some (record_PeerBytes r)
  | AnyIndex ix => ix_PeerBytes ix
  | _ => None
  end.

Definition to_ServerIndex (v : any) : option (rres bytes) :=
  match v with
  | AnyRecord r => ServerBytes r
  | AnyIndex ix => ix_ServerBytes ix
  | _ => None
  end.

Definition to_HostIndex (v : any) : option (rres bytes) :=
  match v with
  | AnyRecord r => HostBytes r
  | Any_record r => Some (record_HostBytes r)
  | AnyIndex ix => ix_HostBytes ix
  | _ => None
  end.

Definition to_MetaIndex (v : any) : option (rres bytes) :=
  match v with AnyIndex ix => ix_MetaBytes ix | _ => None end.

Definition to_Record (v : any) : option RecordI :=
  match v with
  | AnyRecord r => Some r
  | Any_record r => Some (rec_Record r)
  | _ => None
  end.

(** ** The indexers ([schema.go]) *)

(** [return err == nil, index, err]. *)
Definition ok_if_no_err (c : rres bytes) : rres (bool * bytes) := b <~ c ;; Ret (true, b).

Section indexers.
Context (pool : nat → bytes) (b58 : bytes → bytes).

Definition peerToBytes (id : bytes) : bytes := b58 id.

Definition one_arg (args : list any) : rres any :=
  match args with [a] => Ret a | _ => Fail (ErrNArgs (length args)) end.

Definition idIndexer_FromObject (obj : any) : rres (bool * bytes) :=
  match to_PeerIndex obj with
  | Some index => ok_if_no_err index
  | None => match to_Record obj with
            | Some r => Ret (true, peerToBytes (Peer r))
            | None => Fail ErrType
            end
  end.

Definition idIndexer_FromArgs (args : list any) : rres bytes :=
  arg <~ one_arg args ;;
  match to_PeerIndex arg with
  | Some b => b
  | None =>
      match to_Record arg with
      | Some r => Ret (peerToBytes (Peer r))
      | None => match arg with
                | AnyPeerID id => Ret (peerToBytes id)
                | AnyString s => Ret s
                | _ => Fail ErrType
                end
      end
  end.

Definition serverIndexer_FromObject (obj : any) : rres (bool * bytes) :=
  match to_ServerIndex obj with
  | Some index => ok_if_no_err index
  | None => match to_Record obj with
            | Some r => index <~ MarshalText pool (Server r) ;; Ret (true, index)
            | None => Fail ErrType
            end
  end.

Definition serverIndexer_FromArgs (args : list any) : rres bytes :=
  arg <~ one_arg args ;;
  match to_ServerIndex arg with
  | Some b => b
  | None =>
      match to_Record arg with
      | Some r => MarshalText pool (Server r)
      | None => match arg with
                | AnyID id => MarshalText pool id
                | AnyString s => Ret s
                | AnyBytes b => Ret b
                | _ => Fail ErrType
                end
      end
  end.

(** [time.Time] is a number of nanoseconds since the Unix epoch; [UnixNano] is an int64. *)
Definition UnixNano (t : Z) : Z := i64 t.

Definition timeToBytes (t : Z) : rres bytes := PutUint64 (pool 8) (u64 (UnixNano t)).

Definition argsToTime (args : list any) : rres Z :=
  arg <~ one_arg args ;;
  match arg with AnyTime t => Ret t | _ => Fail ErrType end.

Definition timeIndexer_FromObject (obj : any) : rres (bool * bytes) :=
  match obj with
  | Any_record r => b <~ timeToBytes (Deadline r) ;; Ret (true, b)
  | _ => Fail ErrType
  end.

Definition timeIndexer_FromArgs (args : list any) : rres bytes :=
  t <~ argsToTime args ;; timeToBytes t.

(** [return len(index) != 0, index, err]. *)
Definition hostnameIndexer_FromObject (obj : any) : rres (bool * bytes) :=
  match to_HostIndex obj with
  | Some index => b <~ index ;; Ret (negb (bytes_eqb b []), b)
  | None =>
      match to_Record obj with
      | Some r =>
          name <~ Host r ;;
          if bytes_eqb name [] then Ret (false, []) else Ret (true, name)
      | None => Fail ErrType
      end
  end.

Definition hostnameIndexer_FromArgs (args : list any) : rres bytes :=
  arg <~ one_arg args ;;
  match to_HostIndex arg with
  | Some b => b
  | None =>
      match to_Record arg with
      | Some r => name <~ Host r ;; Ret name
      | None => match arg with
                | AnyString s => Ret s
                | _ => Fail ErrType
                end
      end
  end.

Definition metaIndexer_FromObject (obj : any) : rres (bool * list bytes) :=
  match to_Record obj with
  | Some r =>
      meta <~ RMeta r ;;
      if (Meta_Len meta =? 0)%nat then Ret (false, [])
      else indexes <~ Meta_Index meta ;; Ret (true, indexes)
  | None => Fail ErrType
  end.

Definition metaIndexer_FromArgs (args : list any) : rres bytes :=
  arg <~ one_arg args ;;
  match to_MetaIndex arg with
  | Some b => b
  | None => match arg with
            | AnyString s => Ret s
            | _ => Fail ErrType
            end
  end.

(** ** The schema

    The [record] table: its indexes with the flags [Unique] and [AllowMissing]. *)
Inductive indexer := idIndexer | serverIndexer | timeIndexer | hostnameIndexer | metaIndexer.

Record IndexSchema := mkIndexSchema {
  Name : bytes; Unique : bool; AllowMissing : bool; Indexer : indexer }.

Definition schema : list IndexSchema :=
  [ mkIndexSchema (bs "id") true false idIndexer;
    mkIndexSchema (bs "server") true false serverIndexer;
    mkIndexSchema (bs "ttl") false false timeIndexer;
    mkIndexSchema (bs "host") false true hostnameIndexer;
    mkIndexSchema (bs "meta") false true metaIndexer ].

Definition FromObject (ix : indexer) (obj : any) : rres (bool * list bytes) :=
  let single c := p <~ c ;; Ret (fst p, [snd p]) in
  match ix with
  | idIndexer => single (idIndexer_FromObject obj)
  | serverIndexer => single (serverIndexer_FromObject obj)
  | timeIndexer => single (timeIndexer_FromObject obj)
  | hostnameIndexer => single (hostnameIndexer_FromObject obj)
  | metaIndexer => metaIndexer_FromObject obj
  end.

Definition FromArgs (ix : indexer) (args : list any) : rres bytes :=
  match ix with
  | idIndexer => idIndexer_FromArgs args
  | serverIndexer => serverIndexer_FromArgs args
  | timeIndexer => timeIndexer_FromArgs args
  | hostnameIndexer => hostnameIndexer_FromArgs args
  | metaIndexer => metaIndexer_FromArgs args
  end.

(** What memdb does with an object on insertion: every index of the schema reads its
    values; a missing value is an error unless [AllowMissing]. *)
Definition index_obj (s : IndexSchema) (obj : any) : rres (list bytes) :=
  p <~ FromObject (Indexer s) obj ;;
  if fst p then Ret (snd p)
  else if AllowMissing s then Ret [] else Fail ErrMissingIndex.

Definition check_indexes (obj : any) : rres (list (list bytes)) :=
  omapM (λ s, index_obj s obj) schema.
End indexers.

(** ** Facts about the text form *)
Fixpoint hexstr (l : bytes) : bytes :=
  match l with
  | [] => []
  | v :: l' => hextable (Z.shiftr v 4) :: hextable (Z.land v 15) :: hexstr l'
  end.

Definition digits_ok (v : Z) : bool :=
  match reverseHex (hextable (Z.shiftr v 4)), reverseHex (hextable (Z.land v 15)) with
  | Some a, Some b => Z.lor (Z.shiftl a 4) b =? v
  | _, _ => false
  end.

Lemma digits_ok_byte v : is_byte v → digits_ok v = true.
Proof.
  intros Hv. assert (forallb digits_ok (seqZ 0 256) = true) as Hall by by vm_compute.
  rewrite forallb_forall in Hall. apply Hall, list_elem_of_In, elem_of_seqZ.
  unfold is_byte in Hv. lia.
Qed.

Lemma hexstr_length l : length (hexstr l) = (2 * length l)%nat.
Proof. induction l as [|v l IH]; [done|]. simpl. rewrite IH. lia. Qed.

Lemma hex_Encode_spec dst i src :
  (i + 2 * length src ≤ length dst)%nat →
  hex_Encode dst i src =
    Ret (take i dst ++ hexstr src ++ drop (i + 2 * length src) dst).
Proof.
  revert dst i; induction src as [|v src IH]; intros dst i Hle; cbn [hex_Encode].
  - simpl. by rewrite Nat.add_0_r, take_drop.
  - cbn [length] in Hle. unfold set_byte at 1.
    rewrite (proj2 (Nat.ltb_lt _ _)) by lia. cbn [bind]. unfold set_byte at 1.
    rewrite length_insert, (proj2 (Nat.ltb_lt _ _)) by lia. cbn [bind].
    rewrite IH by (rewrite !length_insert; lia). f_equal.
    set (a := hextable (Z.shiftr v 4)). set (b := hextable (Z.land v 15)).
    change (hexstr (v :: src)) with ([a; b] ++ hexstr src).
    rewrite !drop_insert_lt by lia.
    rewrite (take_S_r _ (S i) b) by (rewrite list_lookup_insert_eq; [done|rewrite length_insert; lia]).
    rewrite take_insert_ge by lia.
    rewrite (take_S_r _ i a) by (rewrite list_lookup_insert_eq; [done|lia]).
    rewrite take_insert_ge by lia. rewrite <-!app_assoc. simpl.
    do 5 f_equal. lia.
Qed.

Lemma hex_Decode_spec dst i l :
  wf_bytes l → (i + length l ≤ length dst)%nat →
  hex_Decode dst i (hexstr l) = Ret (take i dst ++ l ++ drop (i + length l) dst).
Proof.
  intros Hwf; revert dst i; induction Hwf as [|v l Hv Hl IH]; intros dst i Hle.
  - simpl. by rewrite Nat.add_0_r, take_drop.
  - pose proof (digits_ok_byte v Hv) as Hd. unfold digits_ok in Hd.
    change (hexstr (v :: l))
      with (hextable (Z.shiftr v 4) :: hextable (Z.land v 15) :: hexstr l).
    cbn [hex_Decode]. cbn [length] in Hle.
    destruct (reverseHex _) as [a|]; [|done]. destruct (reverseHex _) as [b|]; [|done].
    apply Z.eqb_eq in Hd. rewrite Hd. unfold set_byte.
    rewrite (proj2 (Nat.ltb_lt _ _)) by lia. cbn [bind].
    rewrite IH by (rewrite length_insert; lia). f_equal.
    rewrite drop_insert_lt by lia.
    rewrite (take_S_r _ i v) by (rewrite list_lookup_insert_eq; [done|lia]).
    rewrite take_insert_ge by lia. rewrite <-!app_assoc. simpl. do 4 f_equal. lia.
Qed.

Lemma hex_Decode_overflow dst i l :
  wf_bytes l → (i ≤ length dst < i + length l)%nat →
  hex_Decode dst i (hexstr l) = Panic.
Proof.
  intros Hwf; revert dst i; induction Hwf as [|v l Hv Hl IH]; intros dst i Hle.
  - simpl in Hle. lia.
  - pose proof (digits_ok_byte v Hv) as Hd. unfold digits_ok in Hd.
    change (hexstr (v :: l))
      with (hextable (Z.shiftr v 4) :: hextable (Z.land v 15) :: hexstr l).
    cbn [hex_Decode]. cbn [length] in Hle.
    destruct (reverseHex _) as [a|]; [|done]. destruct (reverseHex _) as [b|]; [|done].
    unfold set_byte. destruct (Nat.ltb_spec i (length dst)); [|done]. cbn [bind].
    apply IH. rewrite length_insert. lia.
Qed.

Section id_text.
Context (pool : nat → bytes) `{PoolSpec pool}.

Lemma Bytes_spec id : Bytes pool id = Ret (be_encode 8 (u64 id)).
Proof.
  unfold Bytes, PutUint64. rewrite !pool_length. cbn [Nat.leb].
  rewrite drop_ge by (rewrite pool_length; done). by rewrite app_nil_r.
Qed.

Lemma String_spec id : String_ pool id = Ret (hexstr (be_encode 8 (u64 id))).
Proof.
  unfold String_. rewrite Bytes_spec. cbn [bind].
  rewrite hex_Encode_spec by (rewrite be_encode_length, pool_length; lia).
  rewrite be_encode_length, drop_ge by (rewrite pool_length; lia). by rewrite app_nil_r.
Qed.

Lemma MarshalText_spec id : MarshalText pool id = Ret (hexstr (be_encode 8 (u64 id))).
Proof.
  unfold MarshalText. rewrite Bytes_spec. unfold PutUint64.
  rewrite pool_length. cbn [Nat.leb bind].
  rewrite hex_Encode_spec
    by (rewrite length_app, !be_encode_length, length_drop, pool_length; lia).
  rewrite be_encode_length, (drop_ge (_ ++ _))
    by (rewrite length_app, be_encode_length, length_drop, pool_length; lia).
  by rewrite app_nil_r.
Qed.

Lemma UnmarshalText_spec l :
  wf_bytes l → (length l ≤ 8)%nat →
  UnmarshalText pool (hexstr l) = Ret (be_decode (l ++ drop (length l) (pool 8%nat))).
Proof.
  intros Hwf Hl. unfold UnmarshalText.
  rewrite hex_Decode_spec by (done || (rewrite pool_length; lia)). cbn [bind].
  unfold Uint64. rewrite take_0, app_nil_l, Nat.add_0_l.
  assert (length (l ++ drop (length l) (pool 8)) = 8%nat) as Hlen
    by (rewrite length_app, length_drop, pool_length; lia).
  rewrite Hlen. cbn [Nat.leb]. by rewrite take_ge by lia.
Qed.
End id_text.

(** An instance identifier survives its text form: [MarshalText] and [String] write
    the same sixteen digits whatever the pooled buffers contained, and [UnmarshalText]
    reads the identifier back. *)
Theorem id_text_roundtrip (pool pool' : nat → bytes) (id : Z) :
  PoolSpec pool → PoolSpec pool' → in_u 64 id →
  ∃ t, MarshalText pool id = Ret t ∧ length t = 16%nat ∧
       String_ pool' id = Ret t ∧ UnmarshalText pool' t = Ret id.
Proof.
  intros Hp Hp' Hid. exists (hexstr (be_encode 8 (u64 id))).
  rewrite MarshalText_spec, String_spec, hexstr_length, be_encode_length by done.
  rewrite UnmarshalText_spec
    by (done || apply be_encode_wf || (rewrite be_encode_length; lia)).
  rewrite be_encode_length, drop_ge by (rewrite pool_length; lia).
  rewrite app_nil_r, be_decode_encode, (wrap_u_small 64 id) by done.
  repeat split. f_equal. by apply Z.mod_small.
Qed.

Lemma id_text_roundtrip_witness :
  ∃ t, MarshalText (λ n, replicate n 255) 42 = Ret t ∧ length t = 16%nat ∧
       String_ (λ n, replicate n 7) 42 = Ret t ∧ UnmarshalText (λ n, replicate n 7) t = Ret 42.
Proof.
  apply (id_text_roundtrip (λ n, replicate n 255) (λ n, replicate n 7) 42).
  - intros n. apply length_replicate.
  - intros n. apply length_replicate.
  - split; vm_compute; congruence.
Defined.

(** [UnmarshalText] does not check the length of its input: a text of fewer than
    sixteen digits succeeds, and the identifier ends in whatever the pooled buffer held;
    a text of more than sixteen digits panics. *)
Theorem unmarshal_text_unchecked_length (pool : nat → bytes) (l : bytes) :
  PoolSpec pool → wf_bytes l →
  UnmarshalText pool (hexstr l) =
    if (length l <=? 8)%nat then Ret (be_decode (l ++ drop (length l) (pool 8%nat))) else Panic.
Proof.
  intros Hp Hwf. destruct (Nat.leb_spec (length l) 8%nat).
  - by apply UnmarshalText_spec.
  - unfold UnmarshalText. by rewrite hex_Decode_overflow by (done || rewrite pool_length; lia).
Qed.

Lemma unmarshal_text_unchecked_length_witness :
  UnmarshalText (λ n, replicate n 1) (bs "ff") = Ret (255 * 256 ^ 7 + 282578800148737) ∧
  UnmarshalText (λ n, replicate n 0) (bs "ff") = Ret (255 * 256 ^ 7) ∧
  UnmarshalText (λ n, replicate n 0) (bs "000000000000000000") = Panic.
Proof.
  split; [|split].
  - change (bs "ff") with (hexstr [255]).
    rewrite (unmarshal_text_unchecked_length (λ n, replicate n 1) [255]
      (λ n, length_replicate n 1)) by (repeat constructor; vm_compute; congruence).
    by vm_compute.
  - by vm_compute.
  - by vm_compute.
Defined.

(** ** Facts about metadata fields *)
Lemma Split_nonempty sep s : Split sep s ≠ [].
Proof. destruct s as [|c s]; simpl; [done|]. by destruct (c =? sep), (Split sep s). Qed.

Lemma Split_no_sep sep s : sep ∉ s → Split sep s = [s].
Proof.
  induction s as [|c s IH]; intros Hs; [done|]. apply not_elem_of_cons in Hs as [Hc Hs].
  simpl. rewrite (proj2 (Z.eqb_neq c sep)) by congruence. by rewrite IH.
Qed.

Lemma Split_sep sep k v : sep ∉ k → Split sep (k ++ sep :: v) = k :: Split sep v.
Proof.
  induction k as [|c k IH]; intros Hk; simpl.
  - by rewrite Z.eqb_refl.
  - apply not_elem_of_cons in Hk as [Hc Hk].
    rewrite (proj2 (Z.eqb_neq c sep)) by congruence. by rewrite IH.
Qed.

Lemma Join_cons sep w ws : ws ≠ [] → Join sep (w :: ws) = w ++ sep ++ Join sep ws.
Proof. by destruct ws. Qed.

Lemma Join_Split sep s : Join [sep] (Split sep s) = s.
Proof.
  induction s as [|c s IH]; [done|]. cbn [Split]. destruct (Z.eqb_spec c sep) as [->|Hc].
  - rewrite Join_cons by apply Split_nonempty. by rewrite IH.
  - pose proof (Split_nonempty sep s). destruct (Split sep s) as [|w ws]; [done|].
    destruct ws as [|w' ws]; simpl in *; by rewrite <-IH.
Qed.

Lemma split_first sep (s : bytes) :
  sep ∉ s ∨ ∃ k v, s = k ++ sep :: v ∧ sep ∉ k.
Proof.
  induction s as [|c s [Hs|(k & v & -> & Hk)]]; [left; apply not_elem_of_nil| |];
    destruct (decide (c = sep)) as [->|Hc].
  - right. exists [], s. split; [done|apply not_elem_of_nil].
  - left. apply not_elem_of_cons. split; congruence.
  - right. exists [], (k ++ sep :: v). split; [done|apply not_elem_of_nil].
  - right. exists (c :: k), v. split; [done|]. apply not_elem_of_cons. split; congruence.
Qed.

Lemma ParseField_split k v : eq_sign ∉ k → ParseField (k ++ eq_sign :: v) = Ret (mkField k v).
Proof.
  intros Hk. unfold ParseField. rewrite Split_sep by done.
  pose proof (Split_nonempty eq_sign v). pose proof (Join_Split eq_sign v) as HJ.
  destruct (Split eq_sign v); [done|]. by rewrite HJ.
Qed.

(** [ParseField] splits at the first [=]: it fails, with the separator error, exactly
    on texts without one (so "missing key" is never returned), and otherwise gives the
    key before and the value after it.  Printing a field with a non-empty key that has no
    [=] and parsing it back gives the field, whatever the value. *)
Theorem metafield_roundtrip :
  (∀ s, (ParseField s = Fail ErrSeparator ∧ eq_sign ∉ s) ∨
        ∃ f, ParseField s = Ret f ∧ s = fKey f ++ [eq_sign] ++ fValue f ∧ eq_sign ∉ fKey f) ∧
  (∀ f, fKey f ≠ [] → eq_sign ∉ fKey f → ParseField (MetaField_String f) = Ret f).
Proof.
  split.
  - intros s. destruct (split_first eq_sign s) as [Hs|(k & v & -> & Hk)].
    + left. split; [|done]. unfold ParseField. by rewrite Split_no_sep.
    + right. exists (mkField k v). by rewrite ParseField_split.
  - intros [k v] Hk Hsep. simpl in *. unfold MetaField_String, bytes_eqb. simpl.
    rewrite bool_decide_false by done. by apply ParseField_split.
Qed.

Lemma metafield_roundtrip_witness :
  ParseField (MetaField_String (mkField (bs "region") (bs "a=b"))) =
    Ret (mkField (bs "region") (bs "a=b")).
Proof.
  apply (proj2 metafield_roundtrip); [done|].
  apply (bool_decide_unpack _). by vm_compute.
Defined.

(** ** Facts about the time index *)
Definition time_ok (t : Z) : Prop := 0 ≤ t < 2 ^ 63.

Section time_index.
Context (pool : nat → bytes) `{PoolSpec pool}.

Lemma timeToBytes_spec t : timeToBytes pool t = Ret (be_encode 8 (u64 (UnixNano t))).
Proof.
  unfold timeToBytes, PutUint64. rewrite pool_length. cbn [Nat.leb].
  rewrite drop_ge, app_nil_r by (rewrite pool_length; done).
  by rewrite (wrap_u_small 64 (u64 _)) by (apply wrap_u_range; lia).
Qed.

Lemma UnixNano_ok t : time_ok t → u64 (UnixNano t) = t.
Proof.
  intros Ht. unfold UnixNano. rewrite wrap_i_small by (unfold in_i, time_ok in *; lia).
  apply wrap_u_small. unfold in_u, time_ok in *. lia.
Qed.

(** The radix-tree order of two encoded times is their order in time. *)
Lemma time_index_order a b :
  time_ok a → time_ok b →
  bytes_ltb (be_encode 8 (u64 (UnixNano a))) (be_encode 8 (u64 (UnixNano b))) = (a <? b).
Proof.
  intros Ha Hb. rewrite bytes_ltb_be by (apply be_encode_wf || by rewrite !be_encode_length).
  rewrite !be_decode_encode, !UnixNano_ok by done.
  unfold time_ok in *. by rewrite !Z.mod_small by (simpl; lia).
Qed.
End time_index.
