(* ===== verification/RoutingTable.v ===== *)
(** * The routing table ([src/pkg/cluster/routing/table.go], [query.go])

    The table keeps a clock and a memdb table of records indexed by peer, instance,
    deadline, host and metadata.  [Upsert] checks a record in a read transaction and
    inserts it in a write transaction; [Advance] evicts the records whose deadline has
    passed and then moves the clock.

    [MemdbLaws] states what the code relies on of memdb, with the source's own indexers
    ([Routing.schema]); [memdb_map] is a concrete database that satisfies it.  The second
    half is the refinement: the table implements a map from peer keys to records with a
    deadline ([spec_upsert], [spec_advance]). *)

From stdpp Require Import base list gmap strings sorting.
From Stdlib Require Import ZArith Lia.
From S2P Require Import Prelude Stm Routing.

Open Scope Z_scope.

Section table.
Context (pool : nat → bytes) (b58 : bytes → bytes).
Context {D : Type} `{!Memdb rerror any (list IndexSchema) D}.

Record Table := mkTable { clock : Z; records : TableRef; sched : Scheduler D }.

Definition clock_Load (table : Table) : Z := clock table.
Definition clock_Store (table : Table) (t : Z) : Table :=
  mkTable t (records table) (sched table).

(** An error of [NewScheduler] panics. *)
Definition New (t0 : Z) : rres Table :=
  p <~ Register (E := rerror) (mkFactory None) (bs "record") schema ;;
  match NewScheduler (fst p) with
  | Ret s => Ret (mkTable t0 (snd p) s)
  | _ => Panic
  end.

(** ** Advance *)
Definition expiredRecords (table : Table) (tx : Txn D) (t : Z) : rres bool :=
  match ReverseLowerBound tx (records table) (bs "ttl") [AnyTime t] with
  | Ret it => Ret (match it with [] => false | _ :: _ => true end)
  | _ => Panic
  end.

Fixpoint drop_loop (table : Table) (wx : Txn D) (it : list any) : rres (Txn D) :=
  match it with
  | [] => Ret wx
  | r :: it' => match Delete wx (records table) r with
                | Ret wx' => drop_loop table wx' it'
                | _ => Panic
                end
  end.

Definition dropExpired (table : Table) (wx : Txn D) (t : Z) : rres (Txn D) :=
  match ReverseLowerBound wx (records table) (bs "ttl") [AnyTime t] with
  | Ret it => drop_loop table wx it
  | _ => Panic
  end.

(** The deferred calls run in reverse order: the commit, then the clock. *)
Definition Advance (table : Table) (t : Z) : rres Table :=
  if clock_Load table <? t then
    expired <~ expiredRecords table (Scheduler_Txn (sched table) false) t ;;
    if expired then
      wx <~ dropExpired table (Scheduler_Txn (sched table) true) t ;;
      Ret (clock_Store (mkTable (clock table) (records table) (Commit (sched table) wx)) t)
    else Ret (clock_Store table t)
  else Ret table.

(** ** Upsert *)

(** The two prefer rules of [valid]; the operands are evaluated left to right. *)
Definition newer (old rec : RecordI) : rres bool :=
  if Server old =? Server rec
  then so <~ Seq old ;; sn <~ Seq rec ;; Ret (so <? sn)
  else so <~ Seq old ;; sn <~ Seq rec ;; Ret (sn <? so).

Definition valid (table : Table) (tx : Txn D) (rec : RecordI) : rres bool :=
  match First tx (records table) (bs "id") [AnyRecord rec] with
  | Ret None => Ret true
  | Fail _ => Ret false
  | Ret (Some v) => match to_Record v with
                    | Some old => newer old rec
                    | None => Panic
                    end
  | Panic => Panic
  end.

Definition withDeadline (table : Table) (rec : RecordI) : record :=
  mkrecord rec (clock_Load table + TTL rec).

Definition upsert (table : Table) (wx : Txn D) (rec : RecordI) : rres (Txn D) :=
  match Insert wx (records table) (Any_record (withDeadline table rec)) with
  | Ret wx' => Ret wx'
  | _ => Panic
  end.

(** The write half of [Upsert]: a transaction of its own. *)
Definition upsert_commit (table : Table) (rec : RecordI) : rres Table :=
  wx <~ upsert table (Scheduler_Txn (sched table) true) rec ;;
  Ret (mkTable (clock table) (records table) (Commit (sched table) wx)).

Definition Upsert (table : Table) (rec : RecordI) : rres (bool * Table) :=
  ok <~ valid table (Scheduler_Txn (sched table) false) rec ;;
  if ok then table' <~ upsert_commit table rec ;; Ret (true, table')
  else Ret (false, table).

(** ** Snapshots ([query.go]) *)
Record query := mkQuery { q_records : TableRef; q_tx : Txn D }.

Definition Table_Snapshot (table : Table) : query :=
  mkQuery (records table) (Scheduler_Txn (sched table) false).

Definition index (ix : IndexI) : bytes :=
  if ix_Prefix ix then ix_String ix ++ bs "_prefix" else ix_String ix.

(** [iterator.Next] asserts that a row is a record; the iterator is the list of the
    records it will yield. *)
Definition iterate (f : Txn D → TableRef → bytes → list any → rres (list any))
    (q : query) (ix : IndexI) : rres (list RecordI) :=
  it <~ f (q_tx q) (q_records q) (index ix) [AnyIndex ix] ;;
  omapM (λ v, match to_Record v with Some r => Ret r | None => Panic end) it.

Definition query_Get := iterate Get.
Definition query_GetReverse := iterate GetReverse.
Definition query_LowerBound := iterate LowerBound.
Definition query_ReverseLowerBound := iterate ReverseLowerBound.
End table.

Arguments Table D : clear implicits.
Arguments query D : clear implicits.

(** ** What the table relies on of memdb

    [row d k] is the row of the [record] table with primary key [k], [scan d] the table
    in the order of its primary index.  The contract of [ReverseLowerBound] leaves open
    whether a row whose value equals the bound is returned. *)
Section laws.
Context (pool : nat → bytes) (b58 : bytes → bytes).
Context {D : Type} `{!Memdb rerror any (list IndexSchema) D}.

Definition tbl : bytes := bs "record".

Class MemdbLaws (row : D → bytes → option any) (scan : D → list (bytes * any)) : Prop := {
  new_memdb m :
    m !! tbl = Some schema → ∃ d, NewMemDB (Some m) = Ret d ∧ ∀ k, row d k = None;
  first_id d args :
    db_first d tbl (bs "id") args = (k <~ idIndexer_FromArgs b58 args ;; Ret (row d k));
  insert_ok d v k rest :
    check_indexes pool b58 v = Ret ([k] :: rest) →
    ∃ d', db_insert true d tbl v = Ret d' ∧
          ∀ k', row d' k' = if decide (k' = k) then Some v else row d k';
  insert_err d v :
    is_ret (check_indexes pool b58 v) = false → is_ret (db_insert true d tbl v) = false;
  delete_ok d v k v0 :
    idIndexer_FromObject b58 v = Ret (true, k) → row d k = Some v0 →
    ∃ d', db_delete true d tbl v = Ret d' ∧
          ∀ k', row d' k' = if decide (k' = k) then None else row d k';
  rlb_ttl d t kt :
    timeIndexer_FromArgs pool [t] = Ret kt →
    ∃ ks it, db_reverseLowerBound d tbl (bs "ttl") [t] = Ret it ∧
      NoDup ks ∧ Forall2 (λ k v, row d k = Some v) ks it ∧
      ∀ k v kv, row d k = Some v → timeIndexer_FromObject pool v = Ret (true, kv) →
        (k ∈ ks → bytes_leb kv kt = true) ∧ (bytes_ltb kv kt = true → k ∈ ks);
  scan_sorted d : StronglySorted (λ a b, bytes_ltb a.1 b.1 = true) (scan d);
  scan_rows d k v : (k, v) ∈ scan d ↔ row d k = Some v;
  get_id_prefix d a p :
    idIndexer_FromArgs b58 [a] = Ret p →
    db_get d tbl (bs "id_prefix") [a] =
      Ret (snd <$> filter (λ kv, prefixb p kv.1 = true) (scan d)) ∧
    db_getReverse d tbl (bs "id_prefix") [a] =
      Ret (rev (snd <$> filter (λ kv, prefixb p kv.1 = true) (scan d)));
  lower_bound_id d a p :
    idIndexer_FromArgs b58 [a] = Ret p →
    db_lowerBound d tbl (bs "id") [a] =
      Ret (snd <$> filter (λ kv, bytes_leb p kv.1 = true) (scan d)) ∧
    db_reverseLowerBound d tbl (bs "id") [a] =
      Ret (rev (snd <$> filter (λ kv, bytes_leb kv.1 p = true) (scan d))) }.
End laws.

(** ** A concrete database *)
Section concrete.
Context (pool : nat → bytes) (b58 : bytes → bytes).

Abbreviation mdb := (gmap bytes any).

Definition kv_leb (a b : bytes * any) : Prop := bytes_leb a.1 b.1 = true.

#[local] Instance kv_leb_dec a b : Decision (kv_leb a b).
Proof. unfold kv_leb. apply _. Defined.

Definition m_scan (d : mdb) : list (bytes * any) := merge_sort kv_leb (map_to_list d).

(** The entries of an index: each value of each row, in order of the values. *)
Definition m_entries (s : IndexSchema) (d : mdb) : list (bytes * any) :=
  merge_sort kv_leb
    (map_to_list d ≫= λ kv, match index_obj pool b58 s kv.2 with
                            | Ret vals => (λ x, (x, kv.2)) <$> vals
                            | _ => []
                            end).

Definition find_index (ix : bytes) : option IndexSchema :=
  list_find (λ s, Name s = ix ∨ Name s ++ bs "_prefix" = ix) schema ≫= λ p, Some p.2.

Definition m_query (flt : bytes → bytes → bool) (d : mdb) (ix : bytes) (args : list any)
    : rres (list any) :=
  match find_index ix with
  | None => Fail (ErrExt 1)
  | Some s =>
      p <~ FromArgs pool b58 (Indexer s) args ;;
      Ret (snd <$> filter (λ kv, flt p kv.1 = true)
                     (if bytes_eqb (Name s) (bs "id") then m_scan d else m_entries s d))
  end.

Definition m_get (d : mdb) (ix : bytes) (args : list any) : rres (list any) :=
  m_query (if bool_decide (ix ∈ (Name <$> schema)) then bytes_eqb else prefixb) d ix args.

Definition rev_res (c : rres (list any)) : rres (list any) := l <~ c ;; Ret (rev l).

Definition m_insert (w : bool) (d : mdb) (t : bytes) (v : any) : rres mdb :=
  if negb w || negb (bytes_eqb t tbl) then Fail (ErrExt 2)
  else vals <~ check_indexes pool b58 v ;;
       match vals with
       | [k] :: _ => Ret (<[k := v]> d)
       | _ => Fail ErrMissingIndex
       end.

Definition m_delete (w : bool) (d : mdb) (t : bytes) (v : any) : rres mdb :=
  if negb w || negb (bytes_eqb t tbl) then Fail (ErrExt 2)
  else p <~ idIndexer_FromObject b58 v ;;
       match d !! p.2 with
       | Some _ => Ret (delete p.2 d)
       | None => Fail ErrNotFound
       end.

Definition m_first (d : mdb) (ix : bytes) (args : list any) : rres (option any) :=
  if bytes_eqb ix (bs "id") then k <~ idIndexer_FromArgs b58 args ;; Ret (d !! k)
  else l <~ m_get d ix args ;; Ret (head l).

#[global] Instance memdb_map : Memdb rerror any (list IndexSchema) mdb := {|
  NewMemDB m := match m with Some _ => Ret ∅ | None => Fail (ErrExt 3) end;
  db_insert := m_insert;
  db_delete := m_delete;
  db_deletePrefix _ _ _ _ _ := Fail (ErrExt 4);
  db_deleteAll _ _ _ _ _ := Fail (ErrExt 4);
  db_first d _ := m_first d;
  db_last d _ ix args := l <~ m_get d ix args ;; Ret (last l);
  db_longestPrefix _ _ _ _ := Fail (ErrExt 4);
  db_get d _ := m_get d;
  db_getReverse d _ ix args := rev_res (m_get d ix args);
  db_lowerBound d _ := m_query bytes_leb d;
  db_reverseLowerBound d _ ix args := rev_res (m_query (λ p k, bytes_leb k p) d ix args) |}.
End concrete.

Section concrete_laws.
Context (pool : nat → bytes) (b58 : bytes → bytes) `{PoolSpec pool}.

#[local] Existing Instance memdb_map.
#[local] Existing Instance kv_leb_dec.

#[local] Instance kv_leb_total : Total kv_leb.
Proof. intros a b. apply bytes_leb_total. Qed.

#[local] Instance kv_leb_trans : Transitive kv_leb.
Proof. intros a b c. apply bytes_leb_trans. Qed.

Lemma m_scan_perm d : m_scan d ≡ₚ map_to_list d.
Proof. apply merge_sort_Permutation. Qed.

Lemma m_scan_rows d k v : (k, v) ∈ m_scan d ↔ d !! k = Some v.
Proof. by rewrite m_scan_perm, elem_of_map_to_list. Qed.

(** Sorting a list with distinct keys sorts it strictly. *)
Lemma sorted_strict (l : list (bytes * any)) :
  StronglySorted kv_leb l → NoDup l.*1 →
  StronglySorted (λ a b, bytes_ltb a.1 b.1 = true) l.
Proof.
  induction 1 as [|a l Hs IH Hall]; intros Hnd; [constructor|].
  simpl in Hnd. apply NoDup_cons in Hnd as [Ha Hnd]. constructor; [by apply IH|].
  rewrite Forall_forall in Hall |- *. intros b Hb.
  destruct (proj1 (bytes_leb_lt_eq _ _) (Hall b Hb)) as [Hlt|Heq]; [done|].
  exfalso. apply Ha. rewrite Heq. by apply list_elem_of_fmap_2.
Qed.

Lemma m_scan_sorted d : StronglySorted (λ a b, bytes_ltb a.1 b.1 = true) (m_scan d).
Proof.
  apply sorted_strict.
  - apply StronglySorted_merge_sort; apply _.
  - rewrite m_scan_perm. apply NoDup_fst_map_to_list.
Qed.

Definition ttl_schema : IndexSchema := mkIndexSchema (bs "ttl") false false timeIndexer.

(** The index entries of a row in the deadline index. *)
Definition ttl_entry (kv : bytes * any) : list (bytes * any) :=
  match index_obj pool b58 ttl_schema kv.2 with
  | Ret vals => (λ x, (x, kv.2)) <$> vals
  | _ => []
  end.

Lemma ttl_entry_case kv :
  ttl_entry kv = match timeIndexer_FromObject pool kv.2 with
                 | Ret (true, x) => [(x, kv.2)]
                 | _ => []
                 end.
Proof.
  unfold ttl_entry, index_obj. cbn [Indexer ttl_schema FromObject].
  by destruct (timeIndexer_FromObject pool kv.2) as [[[] x]| |].
Qed.

Definition ttl_selected (P : bytes → bool) (kv : bytes * any) : bool :=
  match timeIndexer_FromObject pool kv.2 with
  | Ret (true, x) => P x
  | _ => false
  end.

Lemma ttl_entries_filter P (l : list (bytes * any)) :
  snd <$> filter (λ e, P e.1 = true) (l ≫= ttl_entry) =
  snd <$> filter (λ kv, ttl_selected P kv = true) l.
Proof.
  induction l as [|kv l IH]; [done|]. rewrite bind_cons, filter_app, fmap_app, IH.
  rewrite ttl_entry_case.
  destruct (timeIndexer_FromObject pool kv.2) as [[[] x]| |] eqn:Hk;
    [destruct (P x) eqn:HP|..];
    [rewrite (filter_cons_True (λ kv, ttl_selected P kv = true))
       by (unfold ttl_selected; by rewrite Hk)
    |rewrite (filter_cons_False (λ kv, ttl_selected P kv = true))
       by (unfold ttl_selected; rewrite Hk; congruence) ..]; try done.
  - by rewrite filter_cons_True by done.
  - by rewrite filter_cons_False by (simpl; congruence).
Qed.

Lemma m_rlb_ttl d t kt :
  timeIndexer_FromArgs pool [t] = Ret kt →
  ∃ l, db_reverseLowerBound (Memdb := memdb_map pool b58) d tbl (bs "ttl") [t] = Ret l.*2 ∧
       l ≡ₚ filter (λ kv, ttl_selected (λ x, bytes_leb x kt) kv = true) (map_to_list d).
Proof.
  intros Ht.
  set (Q := λ kv, ttl_selected (λ x, bytes_leb x kt) kv = true).
  assert (db_reverseLowerBound (Memdb := memdb_map pool b58) d tbl (bs "ttl") [t] =
    Ret (rev (snd <$> filter (λ e, bytes_leb e.1 kt = true)
                (merge_sort kv_leb (map_to_list d ≫= ttl_entry))))) as Hq.
  { unfold db_reverseLowerBound. cbn [memdb_map]. unfold m_query, rev_res.
    change (find_index (bs "ttl")) with (Some ttl_schema). cbn [Indexer ttl_schema FromArgs].
    by rewrite Ht. }
  assert (rev (snd <$> filter (λ e, bytes_leb e.1 kt = true)
                (merge_sort kv_leb (map_to_list d ≫= ttl_entry)))
          ≡ₚ snd <$> filter Q (map_to_list d)) as Hp.
  { rewrite <-Permutation_rev. unfold Q. rewrite <-ttl_entries_filter.
    by rewrite (merge_sort_Permutation kv_leb (map_to_list d ≫= ttl_entry)). }
  apply Permutation_map_inv in Hp as (l & Hl & Hlp). exists l. split; [|done].
  rewrite Hq. f_equal. exact Hl.
Qed.

Lemma m_insert_true d v :
  m_insert pool b58 true d tbl v =
    vals <~ check_indexes pool b58 v ;;
    match vals with [k] :: _ => Ret (<[k := v]> d) | _ => Fail ErrMissingIndex end.
Proof. reflexivity. Qed.

Lemma m_delete_true d v :
  m_delete b58 true d tbl v =
    p <~ idIndexer_FromObject b58 v ;;
    match d !! p.2 with Some _ => Ret (delete p.2 d) | None => Fail ErrNotFound end.
Proof. reflexivity. Qed.

#[global] Instance memdb_map_laws :
  MemdbLaws (Memdb0 := memdb_map pool b58) pool b58 (λ d k, d !! k) m_scan.
Proof.
  split.
  - intros m _. exists ∅. split; [done|apply lookup_empty].
  - done.
  - intros d v k rest Hc. eexists. unfold db_insert, memdb_map.
    rewrite m_insert_true, Hc. split; [done|].
    intros k'. destruct (decide (k' = k)) as [->|]; [apply lookup_insert_eq|by apply lookup_insert_ne].
  - intros d v Hc. unfold db_insert, memdb_map. rewrite m_insert_true.
    by destruct (check_indexes pool b58 v).
  - intros d v k v0 Hk Hrow. eexists. unfold db_delete, memdb_map.
    rewrite m_delete_true, Hk. cbn [bind snd]. rewrite Hrow.
    split; [done|]. intros k'.
    destruct (decide (k' = k)) as [->|]; [apply lookup_delete_eq|by apply lookup_delete_ne].
  - intros d t kt Ht. destruct (m_rlb_ttl d t kt Ht) as (l & Hq & Hl).
    exists l.*1, l.*2. split; [done|]. split; [|split].
    + rewrite Hl. eapply NoDup_fmap_fst; [|by apply NoDup_filter, NoDup_map_to_list].
      intros k v v' [_ Hv]%list_elem_of_filter [_ Hv']%list_elem_of_filter.
      apply elem_of_map_to_list in Hv, Hv'. congruence.
    + apply Forall2_fmap_2. apply Forall_Forall2_diag. rewrite Forall_forall.
      intros [k v]. rewrite Hl, list_elem_of_filter, elem_of_map_to_list. by intros [_ ?].
    + intros k v kv Hv Hkv. rewrite list_elem_of_fmap. split.
      * intros ([k' v'] & -> & Hin). rewrite Hl, list_elem_of_filter, elem_of_map_to_list in Hin.
        destruct Hin as [Hsel Hv']. cbn in Hv, Hv'. rewrite Hv in Hv'. injection Hv' as <-.
        unfold ttl_selected in Hsel. cbn in Hsel. by rewrite Hkv in Hsel.
      * intros Hlt. exists (k, v). split; [done|].
        rewrite Hl, list_elem_of_filter, elem_of_map_to_list. split; [|done].
        unfold ttl_selected. cbn. rewrite Hkv. apply bytes_leb_lt_eq. by left.
  - intros d. apply m_scan_sorted.
  - intros d k v. apply m_scan_rows.
  - intros d a p Hp. unfold db_get, db_getReverse, memdb_map, m_get, m_query, rev_res.
    change (find_index (bs "id_prefix"))
      with (Some (mkIndexSchema (bs "id") true false idIndexer)).
    cbn [Indexer FromArgs Name]. by rewrite Hp.
  - intros d a p Hp. unfold db_lowerBound, db_reverseLowerBound, memdb_map, m_query, rev_res.
    change (find_index (bs "id")) with (Some (mkIndexSchema (bs "id") true false idIndexer)).
    cbn [Indexer FromArgs Name]. by rewrite Hp.
Qed.
End concrete_laws.

(** ** Refinement: the table is a map from peer keys to records with a deadline *)

(** A record the schema can index under key [k]: it has both optional interfaces the
    wrapper delegates to, and its texts can be read. *)
Definition indexable (rec : RecordI) (k : bytes) : Prop :=
  PeerBytes rec = Some (Ret k) ∧
  (∃ h, HostBytes rec = Some (Ret h)) ∧
  ∃ m ms, RMeta rec = Ret m ∧ Meta_Index m = Ret ms.

(** A record with key [k] and sequence number [s]. *)
Definition wf_record (rec : RecordI) (k : bytes) (s : Z) : Prop :=
  indexable rec k ∧ Seq rec = Ret s.

Section check.
Context (pool : nat → bytes) (b58 : bytes → bytes) `{PoolSpec pool}.

Lemma id_index_record r k :
  indexable (rec_Record r) k →
  idIndexer_FromObject b58 (Any_record r) = Ret (true, k) ∧
  idIndexer_FromArgs b58 [AnyRecord (rec_Record r)] = Ret k.
Proof.
  intros (Hp & _). unfold idIndexer_FromObject, idIndexer_FromArgs. cbn.
  unfold record_PeerBytes. by rewrite Hp.
Qed.

Lemma server_index_record r :
  serverIndexer_FromObject pool (Any_record r) =
    Ret (true, hexstr (be_encode 8 (u64 (Server (rec_Record r))))).
Proof.
  unfold serverIndexer_FromObject. cbn [to_ServerIndex to_Record].
  by rewrite MarshalText_spec.
Qed.

Lemma ttl_index_record r :
  timeIndexer_FromObject pool (Any_record r) =
    Ret (true, be_encode 8 (u64 (UnixNano (Deadline r)))).
Proof. unfold timeIndexer_FromObject. by rewrite timeToBytes_spec. Qed.

Lemma check_indexes_Ret r k :
  indexable (rec_Record r) k → ∃ rest, check_indexes pool b58 (Any_record r) = Ret ([k] :: rest).
Proof.
  intros Hix. pose proof (id_index_record r k Hix) as [Hid _].
  destruct Hix as (Hp & (h & Hh) & (m & ms & Hm & Hms)).
  unfold check_indexes, schema, index_obj, FromObject.
  cbn [omapM Indexer AllowMissing].
  rewrite Hid, server_index_record, ttl_index_record.
  unfold hostnameIndexer_FromObject, metaIndexer_FromObject.
  cbn [to_HostIndex to_Record]. unfold record_HostBytes. rewrite Hh, Hm.
  cbn [bind fst snd]. rewrite Hms.
  destruct (negb (bytes_eqb h [])), (Meta_Len m =? 0)%nat; eexists; reflexivity.
Qed.

Lemma check_indexes_inv r :
  is_ret (check_indexes pool b58 (Any_record r)) = true → ∃ k, indexable (rec_Record r) k.
Proof.
  unfold check_indexes, schema, index_obj, FromObject.
  cbn [omapM Indexer AllowMissing].
  rewrite server_index_record, ttl_index_record.
  unfold idIndexer_FromObject, hostnameIndexer_FromObject, metaIndexer_FromObject.
  cbn [to_HostIndex to_PeerIndex to_Record]. unfold record_HostBytes, record_PeerBytes, indexable.
  destruct (PeerBytes (rec_Record r)) as [[k| |]|]; try done.
  destruct (HostBytes (rec_Record r)) as [[h| |]|];
    cbn [bind fst snd ok_if_no_err]; try done.
  destruct (RMeta (rec_Record r)) as [m| |]; cbn [bind fst snd].
  2-3: by destruct (negb _).
  destruct (Meta_Len m =? 0)%nat eqn:Hl; [|destruct (Meta_Index m) as [ms| |] eqn:Hms].
  - intros _. exists k. split; [done|]. split; [by eexists|].
    apply Nat.eqb_eq, nil_length_inv in Hl. subst m. by exists [], [].
  - intros _. exists k. split; [done|]. split; by repeat eexists.
  - by destruct (negb _).
  - by destruct (negb _).
Qed.
End check.

Section refinement.
Context (pool : nat → bytes) (b58 : bytes → bytes) `{PoolSpec pool}.
Context {D : Type} `{!Memdb rerror any (list IndexSchema) D}.
Context (row : D → bytes → option any) (scan : D → list (bytes * any)).
Context `{!MemdbLaws pool b58 row scan}.

Definition rows_are (d : D) (m : gmap bytes record) : Prop :=
  ∀ k, row d k = Any_record <$> m !! k.

(** The table holds exactly the rows of [m], each under the key its record indexes as. *)
Record Represents (table : Table D) (m : gmap bytes record) : Prop := {
  rep_ref : records table = mkTableRef tbl;
  rep_rows : rows_are (sdb (sched table)) m;
  rep_keys k r : m !! k = Some r → ∃ s, wf_record (rec_Record r) k s }.

Lemma New_represents t0 :
  ∃ table, New t0 = Ret table ∧ clock table = t0 ∧ Represents table ∅.
Proof.
  destruct (new_memdb pool b58 (row := row) (scan := scan)
    (<[bs "record" := schema]> ∅)) as (d & Hd & Hrow); [apply lookup_insert_eq|].
  exists (mkTable t0 (mkTableRef tbl) (mkScheduler d)).
  unfold New, Register. cbn [fschema bind fst snd].
  rewrite lookup_empty. cbn [bind fst snd]. unfold NewScheduler. cbn [fschema].
  rewrite Hd. split; [done|]. split; [done|]. split; [done| |].
  - intros k. cbn. by rewrite Hrow, lookup_empty.
  - intros k r. by rewrite lookup_empty.
Qed.

Lemma valid_represents table m rec k s :
  Represents table m → wf_record rec k s →
  valid table (Scheduler_Txn (sched table) false) rec =
    match m !! k with
    | None => Ret true
    | Some old => newer (rec_Record old) rec
    end.
Proof.
  intros Hrep [Hix _]. unfold valid, First. rewrite (rep_ref _ _ Hrep). cbn [name txn Scheduler_Txn].
  rewrite (first_id pool b58 (row := row) (scan := scan)).
  pose proof (proj2 (id_index_record b58 (mkrecord rec 0) k Hix)) as Hid.
  cbn [rec_Record] in Hid. rewrite Hid. cbn [bind].
  rewrite (rep_rows _ _ Hrep k). by destruct (m !! k).
Qed.

Lemma newer_spec old rec ko so k s :
  wf_record old ko so → wf_record rec k s →
  newer old rec = Ret (if Server old =? Server rec then so <? s else s <? so).
Proof. intros [_ Ho] [_ Hs]. unfold newer. rewrite Ho, Hs. by destruct (_ =? _). Qed.

Lemma upsert_commit_represents table m rec k s :
  Represents table m → wf_record rec k s →
  ∃ table', upsert_commit table rec = Ret table' ∧ clock table' = clock table ∧
    Represents table' (<[k := mkrecord rec (clock table + TTL rec)]> m).
Proof.
  intros Hrep Hwf. set (r := mkrecord rec (clock table + TTL rec)).
  destruct (check_indexes_Ret pool b58 r k (proj1 Hwf)) as [rest Hc].
  destruct (insert_ok pool b58 (row := row) (scan := scan) (sdb (sched table)) _ _ _ Hc)
    as (d' & Hd' & Hrows).
  exists (mkTable (clock table) (mkTableRef tbl) (mkScheduler d')).
  unfold upsert_commit, upsert, Insert, withDeadline, clock_Load.
  rewrite (rep_ref _ _ Hrep). cbn [name write txn Scheduler_Txn]. fold r.
  rewrite Hd'. split; [done|]. split; [done|]. split; [done| |].
  - intros k'. cbn [sdb sched]. rewrite Hrows. destruct (decide (k' = k)) as [->|Hne].
    + by rewrite lookup_insert_eq.
    + by rewrite lookup_insert_ne, (rep_rows _ _ Hrep k').
  - intros k' r'. destruct (decide (k' = k)) as [->|Hne].
    + rewrite lookup_insert_eq. intros [= <-]. eauto.
    + rewrite lookup_insert_ne by done. apply (rep_keys _ _ Hrep).
Qed.

(** The abstract decision of [Upsert]. *)
Definition accepts (m : gmap bytes record) (rec : RecordI) (k : bytes) (s : Z) : Prop :=
  match m !! k with
  | None => True
  | Some old => ∃ so, Seq (rec_Record old) = Ret so ∧
                 if Server (rec_Record old) =? Server rec then so < s else s < so
  end.

Lemma Upsert_represents table m rec k s :
  Represents table m → wf_record rec k s →
  ∃ acc table', Upsert table rec = Ret (acc, table') ∧ clock table' = clock table ∧
    (acc = true ↔ accepts m rec k s) ∧
    Represents table' (if acc then <[k := mkrecord rec (clock table + TTL rec)]> m else m).
Proof.
  intros Hrep Hwf. unfold Upsert, accepts. rewrite (valid_represents _ _ _ _ _ Hrep Hwf).
  destruct (upsert_commit_represents _ _ _ _ _ Hrep Hwf) as (table' & Hu & Hclk & Hrep').
  destruct (m !! k) as [old|] eqn:Hold.
  - destruct (rep_keys _ _ Hrep _ _ Hold) as [so Hso].
    rewrite (newer_spec _ _ _ _ _ _ Hso Hwf). cbn [bind].
    set (b := if _ =? _ then _ else _).
    assert (b = true ↔ ∃ so', Seq (rec_Record old) = Ret so' ∧
      (if Server (rec_Record old) =? Server rec then so' < s else s < so')) as Hb.
    { destruct Hso as [_ Hso]. subst b. split.
      - intros Hb. exists so. split; [done|]. by destruct (_ =? _); apply Z.ltb_lt.
      - intros (so' & Hso' & Hlt). rewrite Hso in Hso'. injection Hso' as <-.
        by destruct (_ =? _); apply Z.ltb_lt. }
    destruct b.
    + rewrite Hu. by exists true, table'.
    + by exists false, table.
  - cbn [bind]. rewrite Hu. by exists true, table'.
Qed.

(** Dropping a list of rows. *)
Lemma drop_loop_spec table m ks it d :
  records table = mkTableRef tbl →
  (∀ k r, m !! k = Some r → ∃ s, wf_record (rec_Record r) k s) →
  rows_are d m → NoDup ks → Forall2 (λ k v, row d k = Some v) ks it →
  ∃ d', drop_loop table (mkTxn d true) it = Ret (mkTxn d' true) ∧
        rows_are d' (filter (λ kr, kr.1 ∉ ks) m).
Proof.
  intros Href Hkeys Hrows Hnd Hit. revert d m Hkeys Hrows Hnd Hit.
  revert it. induction ks as [|k ks IH]; intros it d m Hkeys Hrows Hnd Hit.
  - inversion Hit; subst. exists d. split; [done|].
    rewrite map_filter_id; [done|]. intros k r _. apply not_elem_of_nil.
  - inversion Hit as [|? v ? it' Hk Hit']; subst. apply NoDup_cons in Hnd as [Hni Hnd].
    pose proof Hk as Hm. rewrite (Hrows k) in Hm.
    apply fmap_Some in Hm as (r & Hm & ->).
    destruct (Hkeys _ _ Hm) as [s [Hix _]].
    destruct (id_index_record b58 r k Hix) as [Hid _].
    destruct (delete_ok pool b58 (row := row) (scan := scan) _ _ _ _ Hid Hk) as (d1 & Hd1 & Hrow1).
    assert (rows_are d1 (delete k m)) as Hrows1.
    { intros k'. rewrite Hrow1. destruct (decide (k' = k)) as [->|Hne].
      - by rewrite lookup_delete_eq.
      - by rewrite lookup_delete_ne, (Hrows k'). }
    destruct (IH it' d1 (delete k m)) as (d' & Hd' & Hrows').
    { intros k' r' [_ Hk']%lookup_delete_Some. eauto. }
    { done. } { done. }
    { clear -Hit' Hrow1 Hni. induction Hit' as [|k' v' ks it Hk' Hit' IHit]; [constructor|].
      apply not_elem_of_cons in Hni as [Hne Hni]. constructor; [|by apply IHit].
      rewrite Hrow1. by rewrite decide_False by congruence. }
    exists d'. split.
    + cbn [drop_loop]. unfold Delete. rewrite Href. cbn [write txn name]. by rewrite Hd1.
    + intros k'. rewrite (Hrows' k'). f_equal. apply option_eq. intros r'.
      rewrite !map_lookup_filter_Some, lookup_delete_Some. cbn.
      rewrite not_elem_of_cons. naive_solver.
Qed.

Definition times_ok (m : gmap bytes record) : Prop :=
  ∀ k r, m !! k = Some r → time_ok (Deadline r).

(** What [ReverseLowerBound] on the deadline index returns. *)
Lemma expired_query table m t w :
  Represents table m → times_ok m → time_ok t →
  ∃ ks it, ReverseLowerBound (mkTxn (sdb (sched table)) w) (records table) (bs "ttl") [AnyTime t]
             = Ret it ∧ NoDup ks ∧ Forall2 (λ k v, row (sdb (sched table)) k = Some v) ks it ∧
    ∀ k r, m !! k = Some r →
      (k ∈ ks → Deadline r ≤ t) ∧ (Deadline r < t → k ∈ ks).
Proof.
  intros Hrep Htimes Ht. unfold ReverseLowerBound. rewrite (rep_ref _ _ Hrep). cbn [txn name].
  assert (timeIndexer_FromArgs pool [AnyTime t] = Ret (be_encode 8 (u64 (UnixNano t)))) as Hkt
    by (unfold timeIndexer_FromArgs; cbn [argsToTime one_arg bind]; by apply timeToBytes_spec).
  destruct (rlb_ttl pool b58 (row := row) (scan := scan) (sdb (sched table)) _ _ Hkt)
    as (ks & it & Hit & Hnd & Hrows & Hin).
  exists ks, it. split; [done|]. split; [done|]. split; [done|]. intros k r Hk.
  destruct (Hin k (Any_record r) (be_encode 8 (u64 (UnixNano (Deadline r))))) as [H1 H2].
  { by rewrite (rep_rows _ _ Hrep k), Hk. }
  { by apply ttl_index_record. }
  pose proof (Htimes _ _ Hk) as Hd.
  unfold bytes_leb in H1. rewrite time_index_order in H1 by done.
  rewrite time_index_order in H2 by done. split.
  - intros Hks. specialize (H1 Hks). apply negb_true_iff, Z.ltb_ge in H1. lia.
  - intros Hlt. apply H2. by apply Z.ltb_lt.
Qed.

Definition advanced (m : gmap bytes record) (t : Z) (m' : gmap bytes record) : Prop :=
  m' ⊆ m ∧
  (∀ k r, m' !! k = Some r → t ≤ Deadline r) ∧
  (∀ k r, m !! k = Some r → t < Deadline r → m' !! k = Some r).

Lemma Advance_represents table m t :
  Represents table m → times_ok m → time_ok t → clock table < t →
  ∃ table' m', Advance table t = Ret table' ∧ clock table' = t ∧
    Represents table' m' ∧ advanced m t m'.
Proof.
  intros Hrep Htimes Ht Hclk. unfold Advance, clock_Load.
  rewrite (proj2 (Z.ltb_lt _ _) Hclk).
  destruct (expired_query table m t false Hrep Htimes Ht) as (ks & it & Hit & _ & Hrows & Hin).
  unfold expiredRecords, Scheduler_Txn. rewrite Hit. cbn [bind].
  destruct it as [|v it].
  - inversion Hrows; subst. exists (clock_Store table t), m. split; [done|]. split; [done|].
    split; [split; apply Hrep|]. split; [done|]. split; [|done].
    intros k r Hk. destruct (Z.le_gt_cases t (Deadline r)); [done|].
    exfalso. apply (not_elem_of_nil k), (Hin k r Hk). lia.
  - clear ks v it Hit Hrows Hin.
    destruct (expired_query table m t true Hrep Htimes Ht) as (ks & it & Hit & Hnd & Hrows & Hin).
    unfold dropExpired. rewrite Hit.
    destruct (drop_loop_spec table m ks it _ (rep_ref _ _ Hrep) (rep_keys _ _ Hrep)
      (rep_rows _ _ Hrep) Hnd Hrows) as (d' & Hd' & Hrows').
    rewrite Hd'. cbn [bind]. eexists _, _. split; [done|]. split; [done|]. split.
    + split; [apply Hrep|exact Hrows'|]. intros k r [Hk _]%map_lookup_filter_Some.
      by apply (rep_keys _ _ Hrep).
    + split; [apply map_filter_subseteq|]. split.
      * intros k r [Hk Hni]%map_lookup_filter_Some. cbn in Hni.
        destruct (Z.le_gt_cases t (Deadline r)); [done|]. exfalso. apply Hni, (Hin k r Hk). lia.
      * intros k r Hk Hlt. apply map_lookup_filter_Some. split; [done|]. cbn.
        intros Hks. apply (Hin k r Hk) in Hks. lia.
Qed.
End refinement.
