(* ===== verification/RoutingProps.v ===== *)
(** * Properties of the routing table

    Theorems about [RoutingTable]: the decision and effect of [Upsert], what [Advance]
    evicts, runs of operations one at a time, and runs in which the two transactions of
    concurrent [Upsert]s interleave ([cstep]).  All but the anomalies hold for every
    database that satisfies [MemdbLaws]; the anomalies and the witnesses run on
    [memdb_map]. *)

From stdpp Require Import base list gmap strings sorting.
From Stdlib Require Import ZArith Lia.
From S2P Require Import Prelude Stm Routing RoutingTable.

Open Scope Z_scope.

(** ** Operations in sequence *)
Inductive op := OUpsert (rec : RecordI) | OAdvance (t : Z).

(** Inputs in range: records the schema can index, with a TTL that a heartbeat can carry
    (32 bits of milliseconds), and times of day well inside the int64 nanoseconds. *)
Definition max_ttl : Z := 2 ^ 53.
Definition max_time : Z := 2 ^ 62.

Definition good_op (o : op) : Prop :=
  match o with
  | OUpsert rec => (∃ k s, wf_record rec k s) ∧ 0 < TTL rec ≤ max_ttl
  | OAdvance t => 0 ≤ t ≤ max_time
  end.

Section runs.
Context {D : Type} `{!Memdb rerror any (list IndexSchema) D}.

Fixpoint run (table : Table D) (ops : list op) : rres (list bool * Table D) :=
  match ops with
  | [] => Ret ([], table)
  | OUpsert rec :: ops' =>
      p <~ Upsert table rec ;;
      q <~ run (snd p) ops' ;;
      Ret (fst p :: fst q, snd q)
  | OAdvance t :: ops' => table' <~ Advance table t ;; run table' ops'
  end.

(** ** Concurrent operations

    Validators run concurrently and a single goroutine advances the clock.  An [Upsert]
    that passed [valid] waits in [pending] for its write transaction; an [Advance] that
    has evicted waits in [advancing] to store the clock. *)
Record cstate := mkC { ct : Table D; pending : list RecordI; advancing : option Z }.

Inductive cstep : cstate → cstate → Prop :=
| c_check ct p a rec :
    good_op (OUpsert rec) →
    valid ct (Scheduler_Txn (sched ct) false) rec = Ret true →
    cstep (mkC ct p a) (mkC ct (rec :: p) a)
| c_commit ct ct' p1 p2 a rec :
    upsert_commit ct rec = Ret ct' →
    cstep (mkC ct (p1 ++ rec :: p2) a) (mkC ct' (p1 ++ p2) a)
| c_none_expired ct p t :
    good_op (OAdvance t) → clock ct < t →
    expiredRecords ct (Scheduler_Txn (sched ct) false) t = Ret false →
    cstep (mkC ct p None) (mkC ct p (Some t))
| c_drop ct p t wx :
    good_op (OAdvance t) → clock ct < t →
    dropExpired ct (Scheduler_Txn (sched ct) true) t = Ret wx →
    cstep (mkC ct p None)
          (mkC (mkTable (clock ct) (records ct) (Commit (sched ct) wx)) p (Some t))
| c_store ct p t :
    cstep (mkC ct p (Some t)) (mkC (clock_Store ct t) p None).
End runs.

Arguments cstate D : clear implicits.

Section props.
Context (pool : nat → bytes) (b58 : bytes → bytes) `{PoolSpec pool}.
Context {D : Type} `{!Memdb rerror any (list IndexSchema) D}.
Context (row : D → bytes → option any) (scan : D → list (bytes * any)).
Context `{!MemdbLaws pool b58 row scan}.

(** The rows a sequence of operations leaves: live, and among those inserted. *)
Definition live_rows (c : Z) (recs : list RecordI) (m : gmap bytes record) : Prop :=
  ∀ k r, m !! k = Some r →
    c ≤ Deadline r ≤ c + TTL (rec_Record r) ∧ rec_Record r ∈ recs ∧
    0 < TTL (rec_Record r) ≤ max_ttl.

Definition upserted (ops : list op) : list RecordI :=
  omap (λ o, match o with OUpsert rec => Some rec | OAdvance _ => None end) ops.

Definition final_clock (c : Z) (ops : list op) : Z :=
  foldl (λ c o, match o with OUpsert _ => c | OAdvance t => Z.max c t end) c ops.

Lemma live_times_ok c recs m : 0 ≤ c ≤ max_time → live_rows c recs m → times_ok m.
Proof.
  intros Hc Hlive k r Hk. destruct (Hlive k r Hk) as (Hd & _ & Httl).
  unfold time_ok, max_ttl, max_time in *. lia.
Qed.

Lemma upsert_live table m recs rec :
  Represents row table m → live_rows (clock table) recs m → good_op (OUpsert rec) →
  ∃ acc table' m', Upsert table rec = Ret (acc, table') ∧ clock table' = clock table ∧
    Represents row table' m' ∧ live_rows (clock table) (recs ++ [rec]) m'.
Proof.
  intros Hrep Hlive [(k & s & Hwf) Httl].
  destruct (Upsert_represents pool b58 row scan _ _ _ _ _ Hrep Hwf)
    as (acc & table1 & Hu & Hclk & _ & Hrep1).
  eexists acc, table1, _. split; [done|]. split; [done|]. split; [exact Hrep1|].
  intros k' r Hk'.
  assert (m !! k' = Some r ∨ r = mkrecord rec (clock table + TTL rec)) as [Hold| ->].
  { destruct acc; [|by left]. apply lookup_insert_Some in Hk'. naive_solver. }
  - destruct (Hlive _ _ Hold) as (? & ? & ?). rewrite elem_of_app. auto.
  - cbn. split; [lia|]. split; [|done]. apply elem_of_app. right. by apply list_elem_of_singleton.
Qed.

Lemma advance_live table m recs t :
  Represents row table m → 0 ≤ clock table ≤ max_time → live_rows (clock table) recs m →
  0 ≤ t ≤ max_time →
  ∃ table' m', Advance table t = Ret table' ∧ clock table' = Z.max (clock table) t ∧
    Represents row table' m' ∧ live_rows (clock table') recs m'.
Proof.
  intros Hrep Hc Hlive Ht. destruct (Z.lt_ge_cases (clock table) t) as [Hlt|Hge].
  - destruct (Advance_represents pool b58 row scan table m t Hrep)
      as (table1 & m1 & Ha & Hclk & Hrep1 & Hsub & Hlo & _);
      [by apply (live_times_ok (clock table) recs)|unfold time_ok, max_time in *; lia|done|].
    exists table1, m1. split; [done|]. split; [lia|]. split; [done|].
    rewrite Hclk. intros k r Hk. pose proof (Hlo _ _ Hk).
    pose proof (lookup_weaken _ _ _ _ Hk Hsub) as Hk0.
    destruct (Hlive _ _ Hk0) as (? & ? & ?). split; [lia|done].
  - exists table, m. unfold Advance, clock_Load. rewrite (proj2 (Z.ltb_ge _ _) Hge).
    split; [done|]. split; [lia|]. by split.
Qed.

Lemma run_live table m recs ops :
  Represents row table m → 0 ≤ clock table ≤ max_time → live_rows (clock table) recs m →
  Forall good_op ops →
  ∃ outs table' m', run table ops = Ret (outs, table') ∧ Represents row table' m' ∧
    clock table' = final_clock (clock table) ops ∧ length outs = length (upserted ops) ∧
    live_rows (clock table') (recs ++ upserted ops) m'.
Proof.
  intros Hrep Hc Hlive Hops. revert table m recs Hrep Hc Hlive.
  induction Hops as [|o ops Ho Hops IH]; intros table m recs Hrep Hc Hlive.
  - exists [], table, m. unfold upserted. cbn. by rewrite app_nil_r.
  - destruct o as [rec|t]; cbn [run].
    + destruct (upsert_live _ _ _ _ Hrep Hlive Ho) as (acc & table1 & m1 & Hu & Hclk & Hrep1 & Hl1).
      rewrite Hu. cbn [bind fst snd]. rewrite <-Hclk in Hc, Hl1.
      destruct (IH _ _ _ Hrep1 Hc Hl1) as (outs & table' & m' & Hr & Hrep' & Hfc & Hlen & Hl).
      rewrite Hr. cbn [bind fst snd]. exists (acc :: outs), table', m'.
      rewrite Hfc, Hclk in *. rewrite <-app_assoc in Hl. simpl. by rewrite Hlen.
    + destruct (advance_live _ _ _ _ Hrep Hc Hlive Ho) as (table1 & m1 & Ha & Hclk & Hrep1 & Hl1).
      rewrite Ha. cbn [bind]. change (0 ≤ t ≤ max_time) in Ho.
      destruct (IH _ _ _ Hrep1 ltac:(lia) Hl1) as (outs & table' & m' & Hr & Hrep' & Hfc & Hlen & Hl).
      exists outs, table', m'. rewrite Hclk in Hfc. done.
Qed.

(** ** One instance: only the newest record survives *)
Definition same_instance (k : bytes) (v : Z) (rec : RecordI) : Prop :=
  Server rec = v ∧ ∃ s, wf_record rec k s.

(** The row of [k] is the record with the largest sequence number among [seen]. *)
Definition keeps_max (k : bytes) (v : Z) (seen : list RecordI) (m : gmap bytes record) : Prop :=
  match m !! k with
  | None => seen = []
  | Some r => rec_Record r ∈ seen ∧ Server (rec_Record r) = v ∧
      ∃ s, Seq (rec_Record r) = Ret s ∧
        ∀ rec' s', rec' ∈ seen → Seq rec' = Ret s' → s' ≤ s
  end.

Lemma upsert_keeps_max table m k v seen rec :
  Represents row table m → keeps_max k v seen m → same_instance k v rec →
  ∃ acc table' m', Upsert table rec = Ret (acc, table') ∧ Represents row table' m' ∧
    keeps_max k v (seen ++ [rec]) m'.
Proof.
  intros Hrep Hmax (Hsrv & s & Hwf).
  destruct (Upsert_represents pool b58 row scan _ _ _ _ _ Hrep Hwf)
    as (acc & table1 & Hu & Hclk & Hacc & Hrep1).
  eexists acc, table1, _. split; [done|]. split; [exact Hrep1|].
  unfold keeps_max, accepts in *. destruct Hwf as [_ Hseq].
  destruct (m !! k) as [old|] eqn:Hold.
  - destruct Hmax as (Hin & Hso & so & Hseqo & Hub).
    rewrite Hso, Hsrv, Z.eqb_refl in Hacc.
    destruct acc.
    + destruct (proj1 Hacc eq_refl) as (so' & Hso' & Hlt).
      rewrite Hseqo in Hso'. injection Hso' as <-. rewrite lookup_insert_eq. cbn.
      split; [apply elem_of_app; right; by apply list_elem_of_singleton|]. split; [done|].
      exists s. split; [done|]. intros rec' s' [Hr| ->%list_elem_of_singleton]%elem_of_app Hs'.
      * specialize (Hub _ _ Hr Hs'). lia.
      * rewrite Hseq in Hs'. injection Hs' as <-. lia.
    + rewrite Hold. split; [by apply elem_of_app; left|]. split; [done|].
      exists so. split; [done|]. intros rec' s' [Hr| ->%list_elem_of_singleton]%elem_of_app Hs'; [eauto|].
      rewrite Hseq in Hs'. injection Hs' as <-. destruct (Z.le_gt_cases s so); [done|].
      exfalso. cut (false = true); [done|]. apply Hacc. eauto with lia.
  - subst seen. destruct acc; [|discriminate (proj2 Hacc I)]. rewrite lookup_insert_eq. cbn.
    split; [by apply list_elem_of_singleton|]. split; [done|]. exists s. split; [done|].
    intros rec' s' ->%list_elem_of_singleton Hs'. rewrite Hseq in Hs'. injection Hs' as <-. lia.
Qed.

Lemma run_keeps_max table m k v seen recs :
  Represents row table m → keeps_max k v seen m → Forall (same_instance k v) recs →
  ∃ outs table' m', run table (OUpsert <$> recs) = Ret (outs, table') ∧
    Represents row table' m' ∧ keeps_max k v (seen ++ recs) m'.
Proof.
  intros Hrep Hmax Hall. revert table m seen Hrep Hmax.
  induction Hall as [|rec recs Hrec _ IH]; intros table m seen Hrep Hmax.
  - rewrite app_nil_r. eexists _, _, _. by cbn.
  - destruct (upsert_keeps_max _ _ _ _ _ _ Hrep Hmax Hrec) as (acc & t1 & m1 & Hu & Hrep1 & Hmax1).
    destruct (IH _ _ _ Hrep1 Hmax1) as (outs & t2 & m2 & Hr & Hrep2 & Hmax2).
    cbn [fmap list_fmap run]. rewrite Hu. cbn [bind fst snd].
    change (list_fmap _ _ OUpsert recs) with (OUpsert <$> recs). rewrite Hr.
    eexists _, _, _. rewrite <-app_assoc in Hmax2. by cbn.
Qed.





End props.

Section errors.
Context (pool : nat → bytes) (b58 : bytes → bytes).
Context {D : Type} `{!Memdb rerror any (list IndexSchema) D}.
Context (row : D → bytes → option any) (scan : D → list (bytes * any)).

Lemma upsert_errors (table : Table D) (m : gmap bytes record) (rec : RecordI) :
  PoolSpec pool → MemdbLaws pool b58 row scan → Represents row table m →
  (∀ k, idIndexer_FromArgs b58 [AnyRecord rec] = Ret k → m !! k = None →
        (∀ k', ¬ indexable rec k') → Upsert table rec = Panic) ∧
  (∀ k r, idIndexer_FromArgs b58 [AnyRecord rec] = Ret k → m !! k = Some r →
        Seq rec = Panic → Upsert table rec = Panic) ∧
  (∀ e, PeerBytes rec = Some (Fail e) → Upsert table rec = Ret (false, table)).
Proof.
  intros Hpool Hlaws Hrep.
  assert (∀ k, idIndexer_FromArgs b58 [AnyRecord rec] = Ret k →
    valid table (Scheduler_Txn (sched table) false) rec =
      match m !! k with None => Ret true | Some old => newer (rec_Record old) rec end) as Hvalid.
  { intros k Hk. unfold valid, First. rewrite (rep_ref _ _ _ Hrep). cbn [name txn Scheduler_Txn].
    rewrite (first_id pool b58 (row := row) (scan := scan)), Hk. cbn [bind].
    rewrite (rep_rows _ _ _ Hrep k). by destruct (m !! k). }
  split; [|split].
  - intros k Hk Hm Hix. unfold Upsert. rewrite (Hvalid k Hk), Hm. cbn [bind].
    assert (upsert_commit table rec = Panic) as ->; [|done].
    unfold upsert_commit, upsert, Insert. rewrite (rep_ref _ _ _ Hrep).
    cbn [name txn write Scheduler_Txn].
    set (v := Any_record _).
    assert (is_ret (check_indexes pool b58 v) = false) as Hc.
    { apply not_true_is_false. intros Hc. apply check_indexes_inv in Hc as [k' Hk']; [|done].
      by eapply Hix. }
    pose proof (insert_err pool b58 (row := row) (scan := scan) (sdb (sched table)) v Hc) as He.
    by destruct (db_insert true _ tbl v).
  - intros k r Hk Hm Hseq. unfold Upsert. rewrite (Hvalid k Hk), Hm.
    destruct (rep_keys _ _ _ Hrep _ _ Hm) as [so [_ Hso]].
    unfold newer. rewrite Hso, Hseq. by destruct (_ =? _).
  - intros e He. unfold Upsert, valid, First. rewrite (rep_ref _ _ _ Hrep).
    cbn [name txn Scheduler_Txn].
    rewrite (first_id pool b58 (row := row) (scan := scan)).
    unfold idIndexer_FromArgs. cbn. by rewrite He.
Qed.
End errors.

(** ** A concrete table for the witnesses *)
Module concrete.
Definition pool0 (n : nat) : bytes := replicate n 0.
Definition b58 (b : bytes) : bytes := b.

Lemma pool0_spec : PoolSpec pool0.
Proof. intros n. apply length_replicate. Qed.

Definition rec (peer : bytes) (server seq ttl : Z) : RecordI :=
  mkRecordI server peer (Ret seq) ttl (Ret (bs "h")) (Ret [Ret (bs "a=b")])
    (Some (Ret peer)) None (Some (Ret (bs "h"))).

Lemma rec_wf peer server seq ttl : wf_record (rec peer server seq ttl) peer seq.
Proof.
  split; [|done]. split; [done|]. split; [by eexists|]. by eexists [Ret (bs "a=b")], [bs "a=b"].
Qed.

#[global] Instance db : Memdb rerror any (list IndexSchema) (gmap bytes any) :=
  memdb_map pool0 b58.

Definition row (d : gmap bytes any) (k : bytes) : option any := d !! k.

Lemma laws : MemdbLaws pool0 b58 row m_scan.
Proof. exact (memdb_map_laws pool0 b58). Qed.

Definition table0 : Table (gmap bytes any) := mkTable 100 (mkTableRef tbl) (mkScheduler ∅).

Lemma table0_represents : Represents row table0 ∅.
Proof.
  split; [done| |].
  - intros k. unfold row. by rewrite !lookup_empty.
  - intros k r. by rewrite lookup_empty.
Qed.

Definition rec1 : RecordI := rec (bs "p") 7 3 50.
Definition table1 : Table (gmap bytes any) :=
  mkTable 100 (mkTableRef tbl) (mkScheduler {[bs "p" := Any_record (mkrecord rec1 150)]}).

Lemma table1_represents : Represents row table1 {[bs "p" := mkrecord rec1 150]}.
Proof.
  split; [done| |].
  - intros k. unfold row, table1. cbn [sdb sched].
    destruct (decide (k = bs "p")) as [->|Hne].
    + by rewrite !lookup_singleton_eq.
    + by rewrite !lookup_singleton_ne.
  - intros k r [<- <-]%lookup_singleton_Some. exists 3. apply rec_wf.
Qed.
End concrete.

Section theorems.
Context (pool : nat → bytes) (b58 : bytes → bytes).
Context {D : Type} `{!Memdb rerror any (list IndexSchema) D}.
Context (row : D → bytes → option any) (scan : D → list (bytes * any)).

(** C3. [Upsert] of a well-formed record never fails on a well-formed table.  It accepts the
    record of an unknown peer; a record of the instance that is stored exactly when its
    sequence number is larger; and one of another instance when its sequence number is
    smaller, but not when it is larger (for equal ones see [tie_keeps_stored]).  Acceptance
    stores the record with the deadline "clock plus TTL" and leaves every other peer alone;
    rejection leaves the table as it is. *)
Theorem upsert_decides (table : Table D) (m : gmap bytes record) (rec : RecordI) k s :
  PoolSpec pool → MemdbLaws pool b58 row scan →
  Represents row table m → wf_record rec k s →
  ∃ acc table', Upsert table rec = Ret (acc, table') ∧ clock table' = clock table ∧
    match m !! k with
    | None => acc = true
    | Some old => ∃ so, Seq (rec_Record old) = Ret so ∧
        (Server (rec_Record old) = Server rec → acc = bool_decide (so < s)) ∧
        (Server (rec_Record old) ≠ Server rec → so ≠ s → acc = bool_decide (s < so))
    end ∧
    Represents row table' (if acc then <[k := mkrecord rec (clock table + TTL rec)]> m else m).
Proof.
  intros Hpool Hlaws Hrep Hwf.
  destruct (Upsert_represents pool b58 row scan table m rec k s Hrep Hwf) as (acc & table' & Hu & Hc & Hacc & Hrep').
  exists acc, table'. split; [done|]. split; [done|]. split; [|done]. unfold accepts in Hacc.
  destruct (m !! k) as [old|] eqn:Hold; [|by apply Hacc].
  destruct (rep_keys row _ _ Hrep _ _ Hold) as (so & _ & Hso). exists so. split; [done|].
  assert (acc = true ↔ if Server (rec_Record old) =? Server rec then so < s else s < so) as Ha.
  { rewrite Hacc. split; [intros (so' & Hso' & H); rewrite Hso in Hso'; by injection Hso' as <-|by exists so]. }
  clear Hacc. split.
  - intros He. rewrite (proj2 (Z.eqb_eq _ _) He) in Ha. destruct acc; symmetry; [by apply bool_decide_eq_true, Ha|].
    apply bool_decide_eq_false. by rewrite <-Ha.
  - intros Hne _. rewrite (proj2 (Z.eqb_neq _ _) Hne) in Ha. destruct acc; symmetry; [by apply bool_decide_eq_true, Ha|].
    apply bool_decide_eq_false. by rewrite <-Ha.
Qed.

(** Between two instances with the same sequence number the stored record is kept, although
    a comment in [valid] says that the newly received one is preferred. *)
Theorem tie_keeps_stored (table : Table D) (m : gmap bytes record) (rec : RecordI) k s old :
  PoolSpec pool → MemdbLaws pool b58 row scan → Represents row table m → wf_record rec k s →
  m !! k = Some old → Seq (rec_Record old) = Ret s → Server (rec_Record old) ≠ Server rec →
  ∃ table', Upsert table rec = Ret (false, table') ∧ Represents row table' m.
Proof.
  intros Hpool Hlaws Hrep Hwf Hold Hs Hne.
  destruct (Upsert_represents pool b58 row scan table m rec k s Hrep Hwf) as (acc & table' & Hu & Hc & Hacc & Hrep').
  unfold accepts in Hacc. rewrite Hold in Hacc. destruct acc; [exfalso|by exists table'].
  destruct (proj1 Hacc eq_refl) as (so & Hso & Hlt). rewrite (proj2 (Z.eqb_neq _ _) Hne) in Hlt.
  rewrite Hs in Hso. injection Hso as <-. lia.
Qed.

(** [Upsert] does not validate what it stores: on a record of an unknown peer that
    the schema cannot index (an unreadable host or metadata text, or no optional
    [PeerIndex] or [HostIndex] interface) it panics; on a peer already in the table it
    panics when the new record's sequence number cannot be read; only an unreadable peer
    makes it return false. *)
Theorem upsert_failures (table : Table D) (m : gmap bytes record) (rec : RecordI) :
  PoolSpec pool → MemdbLaws pool b58 row scan → Represents row table m →
  (∀ k, idIndexer_FromArgs b58 [AnyRecord rec] = Ret k → m !! k = None →
        (∀ k', ¬ indexable rec k') → Upsert table rec = Panic) ∧
  (∀ k r, idIndexer_FromArgs b58 [AnyRecord rec] = Ret k → m !! k = Some r →
        Seq rec = Panic → Upsert table rec = Panic) ∧
  (∀ e, PeerBytes rec = Some (Fail e) → Upsert table rec = Ret (false, table)).
Proof. apply (upsert_errors pool b58 row scan). Qed.

(** [Advance(t)] never fails; it does nothing when [t] is not after the clock, and
    otherwise moves the clock to [t] and evicts exactly the expired records: every record
    left has a deadline of at least [t], and every record with a later deadline is left
    untouched. *)
Theorem advance_evicts_expired (table : Table D) (m : gmap bytes record) (t : Z) :
  PoolSpec pool → MemdbLaws pool b58 row scan →
  Represents row table m → times_ok m → time_ok t →
  ∃ table' m', Advance table t = Ret table' ∧ clock table' = Z.max (clock table) t ∧
    Represents row table' m' ∧
    if clock table <? t then
      m' ⊆ m ∧ (∀ k r, m' !! k = Some r → t ≤ Deadline r) ∧
      (∀ k r, m !! k = Some r → t < Deadline r → m' !! k = Some r)
    else table' = table ∧ m' = m.
Proof.
  intros Hpool Hlaws Hrep Htimes Ht. destruct (Z.ltb_spec (clock table) t) as [Hlt|Hge].
  - destruct (Advance_represents pool b58 row scan table m t Hrep Htimes Ht Hlt)
      as (table' & m' & Ha & Hc & Hrep' & Hadv).
    exists table', m'. rewrite Hc. split; [done|]. split; [lia|done].
  - exists table, m. unfold Advance, clock_Load. rewrite (proj2 (Z.ltb_ge _ _) Hge).
    split; [done|]. split; [lia|done].
Qed.

(** C7. Any sequence of [Upsert]s of well-formed records (indexable, with a sequence number
    and a positive TTL within [max_ttl]) and [Advance]s to times within [max_time] from a new
    table runs without a panic.
    Afterwards the clock is the latest time seen, and every row is live (its deadline is
    not before the clock, and at most one TTL after it) and is one of the records
    given. *)
Theorem table_runs_live (t0 : Z) (ops : list op) :
  PoolSpec pool → MemdbLaws pool b58 row scan →
  0 ≤ t0 ≤ max_time → Forall good_op ops →
  ∃ table outs table' m, New t0 = Ret table ∧ run table ops = Ret (outs, table') ∧
    clock table' = final_clock t0 ops ∧ length outs = length (upserted ops) ∧
    Represents row table' m ∧
    ∀ k r, m !! k = Some r →
      clock table' ≤ Deadline r ≤ clock table' + TTL (rec_Record r) ∧
      rec_Record r ∈ upserted ops.
Proof.
  intros Hpool Hlaws Ht0 Hops.
  destruct (New_represents pool b58 row scan t0) as (table & Hnew & Hclk & Hrep).
  rewrite <-Hclk in Ht0.
  destruct (run_live pool b58 row scan table ∅ [] ops Hrep Ht0) as
    (outs & table' & m & Hr & Hrep' & Hfc & Hlen & Hl); [|done|].
  { intros k r. by rewrite lookup_empty. }
  exists table, outs, table', m. split; [done|]. split; [done|].
  split; [by rewrite Hfc, Hclk|]. split; [done|]. split; [done|].
  intros k r Hk. destruct (Hl k r Hk) as (? & ? & _). done.
Qed.

(** As long as a peer runs a single instance, the table keeps its newest record, in
    whatever order the records arrive: after any sequence of [Upsert]s of one instance's
    records, the row is one of them and no other has a larger sequence number. *)
Theorem single_instance_keeps_max (table : Table D) (m : gmap bytes record) k v recs :
  PoolSpec pool → MemdbLaws pool b58 row scan →
  Represents row table m → m !! k = None → recs ≠ [] → Forall (same_instance k v) recs →
  ∃ outs table' m' r s, run table (OUpsert <$> recs) = Ret (outs, table') ∧
    Represents row table' m' ∧ m' !! k = Some r ∧ rec_Record r ∈ recs ∧
    Seq (rec_Record r) = Ret s ∧
    ∀ rec' s', rec' ∈ recs → Seq rec' = Ret s' → s' ≤ s.
Proof.
  intros Hpool Hlaws Hrep Hk Hne Hall.
  destruct (run_keeps_max pool b58 row scan table m k v [] recs Hrep)
    as (outs & table' & m' & Hr & Hrep' & Hmax); [|done|].
  { unfold keeps_max. by rewrite Hk. }
  unfold keeps_max in Hmax. simpl in Hmax.
  destruct (m' !! k) as [r|] eqn:Hk'; [|done].
  destruct Hmax as (Hin & _ & s & Hs & Hub). by exists outs, table', m', r, s.
Qed.

End theorems.

(** ** Witnesses *)
Section witnesses.
Import concrete.

Lemma upsert_decides_witness :
  ∃ acc table', Upsert table1 (rec (bs "p") 7 4 60) = Ret (acc, table') ∧
    clock table' = 100 ∧ acc = true.
Proof.
  destruct (upsert_decides pool0 b58 row m_scan table1 _ (rec (bs "p") 7 4 60) (bs "p") 4
    pool0_spec laws table1_represents (rec_wf _ _ _ _)) as (acc & table' & Hu & Hc & Hacc & _).
  exists acc, table'. split; [exact Hu|]. split; [exact Hc|].
  rewrite lookup_singleton_eq in Hacc. destruct Hacc as (so & [= <-] & Hsame & _). exact (Hsame eq_refl).
Defined.

(** A heartbeat whose host text cannot be read. *)
Definition bad_host : RecordI :=
  mkRecordI 7 (bs "q") (Ret 1) 50 (Fail (ErrExt 0)) (Ret []) (Some (Ret (bs "q"))) None
    (Some (Fail (ErrExt 0))).

Lemma upsert_failures_witness : Upsert table1 bad_host = Panic.
Proof.
  apply (proj1 (upsert_failures pool0 b58 row m_scan table1 _ bad_host
    pool0_spec laws table1_represents) (bs "q")).
  - reflexivity.
  - by rewrite lookup_singleton_ne.
  - intros k (_ & [h Hh] & _). discriminate Hh.
Defined.

Lemma advance_evicts_expired_witness :
  ∃ table' m', Advance table1 151 = Ret table' ∧ clock table' = 151 ∧
    Represents row table' m' ∧ m' !! bs "p" = None.
Proof.
  destruct (advance_evicts_expired pool0 b58 row m_scan table1 _ 151
    pool0_spec laws table1_represents) as (table' & m' & Ha & Hc & Hr & Hsub & Hlo & _).
  - intros k r [_ <-]%lookup_singleton_Some. split; vm_compute; congruence.
  - split; vm_compute; congruence.
  - exists table', m'. split; [exact Ha|]. split; [exact Hc|]. split; [exact Hr|].
    destruct (m' !! bs "p") as [r|] eqn:Hk; [|done]. exfalso.
    pose proof (lookup_weaken _ _ _ _ Hk Hsub) as Hk0.
    apply lookup_singleton_Some in Hk0 as [_ <-]. specialize (Hlo _ _ Hk). cbn in Hlo. lia.
Defined.

Lemma table_runs_live_witness :
  ∃ table outs table' m, New 100 = Ret table ∧
    run table [OUpsert (rec (bs "p") 7 1 50); OAdvance 120; OUpsert (rec (bs "p") 7 2 50)]
      = Ret (outs, table') ∧
    clock table' = 120 ∧ length outs = 2%nat ∧ Represents row table' m.
Proof.
  destruct (table_runs_live pool0 b58 row m_scan 100
    [OUpsert (rec (bs "p") 7 1 50); OAdvance 120; OUpsert (rec (bs "p") 7 2 50)]
    pool0_spec laws) as (table & outs & table' & m & H1 & H2 & H3 & H4 & H5 & _).
  - split; vm_compute; congruence.
  - repeat constructor; try (vm_compute; congruence); eexists _, _; apply rec_wf.
  - exists table, outs, table', m. exact (conj H1 (conj H2 (conj H3 (conj H4 H5)))).
Defined.

Lemma single_instance_keeps_max_witness :
  ∃ outs table' m' r s,
    run table0 (OUpsert <$> [rec (bs "p") 7 9 50; rec (bs "p") 7 4 50]) = Ret (outs, table') ∧
    Represents row table' m' ∧ m' !! bs "p" = Some r ∧
    Seq (rec_Record r) = Ret s ∧ 9 ≤ s.
Proof.
  destruct (single_instance_keeps_max pool0 b58 row m_scan table0 ∅ (bs "p") 7
    [rec (bs "p") 7 9 50; rec (bs "p") 7 4 50] pool0_spec laws table0_represents)
    as (outs & table' & m' & r & s & H1 & H2 & H3 & H4 & H5 & H6).
  - apply lookup_empty.
  - discriminate.
  - repeat constructor; eexists; apply rec_wf.
  - exists outs, table', m', r, s. split; [exact H1|]. split; [exact H2|]. split; [exact H3|].
    split; [exact H5|]. apply (H6 (rec (bs "p") 7 9 50)); [left|reflexivity].
Defined.

End witnesses.

(** ** Anomalies *)
Section anomalies.
Import concrete.

Definition stale : RecordI := rec (bs "p") 7 5 50.
Definition fresh : RecordI := rec (bs "p") 7 6 50.

Lemma fresh_good : good_op (OUpsert fresh).
Proof. split; [by eexists _, _; apply rec_wf|split; vm_compute; congruence]. Qed.


(** [Upsert] checks a record in one transaction and writes it in another, so two
    concurrent calls can both pass the check: a table that already holds the newer record
    of an instance is overwritten by the older one. *)
Theorem concurrent_upsert_stale :
  ∃ s1 s2, rtc cstep (mkC table0 [] None) s1 ∧ cstep s1 s2 ∧ pending s2 = [] ∧
    row (sdb (sched (ct s1))) (bs "p") = Some (Any_record (mkrecord fresh 150)) ∧
    row (sdb (sched (ct s2))) (bs "p") = Some (Any_record (mkrecord stale 150)).
Proof.
  assert (good_op (OUpsert stale)) as Hg1.
  { split; [by eexists _, _; apply rec_wf|split; vm_compute; congruence]. }
  eexists (mkC _ [stale] None), (mkC _ [] None). split; [|split; [|split; [done|]]].
  - eapply rtc_l. { apply (c_check _ _ _ stale Hg1). reflexivity. }
    eapply rtc_l. { apply (c_check _ _ _ fresh fresh_good). reflexivity. }
    apply rtc_once. apply (c_commit _ _ [] [stale] _ fresh). vm_compute. reflexivity.
  - apply (c_commit _ _ [] [] _ stale). vm_compute. reflexivity.
  - by vm_compute.
Qed.

(** The rule for records of different instances can undo the rule for one instance:
    two instances of one peer that are heard alternately make the table accept a record
    of the first instance that is older than one it already stored. *)
Theorem instance_flap_regresses :
  ∃ table, run table0
    [OUpsert (rec (bs "p") 7 5 50); OUpsert (rec (bs "p") 8 3 50); OUpsert (rec (bs "p") 7 2 50)]
    = Ret ([true; true; true], table) ∧
  row (sdb (sched table)) (bs "p") = Some (Any_record (mkrecord (rec (bs "p") 7 2 50) 150)).
Proof. eexists. split; [vm_compute; reflexivity|by vm_compute]. Qed.
End anomalies.
