(* ===== verification/Query.v ===== *)
(** * Queries over a routing snapshot ([src/pkg/cluster/query])

    A query is a selector (where to start in the table) bound to constraints (filters,
    limits, bounds).  Go builds it from closures and iterator objects that keep state:
    the remaining count of [Limit], the [reached] flag of [To], the [stop] flag of a
    [predicateIter] and the cursor of the underlying iterator.  These are cells of a heap
    here, so that sharing is visible: the counter belongs to the constraint, not to the
    iterator made from it.

    [next] is [Iterator.Next]; the fuel bounds the loop of [filterIter] and is enough as
    soon as it exceeds the number of records left ([next_rep]).  [denote] is the
    list-level meaning of a query, and [query_drains] the refinement. *)

From stdpp Require Import base list gmap strings.
From Stdlib Require Import ZArith Lia.
From S2P Require Import Prelude Routing.

Open Scope Z_scope.

(** ** Heap *)
Inductive cell := CInt (n : Z) | CBool (b : bool) | CRecs (l : list RecordI).

Abbreviation heap := (list cell).

Definition alloc (h : heap) (c : cell) : nat * heap := (length h, h ++ [c]).

Definition load_int (h : heap) (c : nat) : rres Z :=
  match h !! c with Some (CInt n) => Ret n | _ => Panic end.
Definition load_bool (h : heap) (c : nat) : rres bool :=
  match h !! c with Some (CBool b) => Ret b | _ => Panic end.
Definition load_recs (h : heap) (c : nat) : rres (list RecordI) :=
  match h !! c with Some (CRecs l) => Ret l | _ => Panic end.

(** ** Matchers and iterators *)

(** A matcher is called with the record of the iterator, which is nil ([None]) when the
    iterator is exhausted. *)
Inductive Matcher :=
| MatchFn (f : option RecordI → rres bool)   (* a function without state *)
| MatchLimit (n : nat)                       (* the closure of [Limit], over cell [n] *)
| MatchLeq (reached : nat) (m : Matcher).    (* the closure of [leq], over cell [reached] *)

Fixpoint Match (m : Matcher) (r : option RecordI) (h : heap) : rres (bool * heap) :=
  match m with
  | MatchFn f => b <~ f r ;; Ret (b, h)
  | MatchLimit c =>
      n <~ load_int h c ;;
      Ret (0 <? n, <[c := CInt (i64 (n - 1))]> h)
  | MatchLeq c m' =>
      p <~ Match m' r h ;;
      reached <~ load_bool (snd p) c ;;
      let reached' := reached || fst p in
      Ret (negb reached' || fst p, <[c := CBool reached']> (snd p))
  end.

Inductive Iter :=
| SnapIter (cur : nat)                              (* an iterator of the snapshot *)
| filterIter (m : Matcher) (it : Iter)
| predicateIter (stop : nat) (m : Matcher) (it : Iter).

(** The loop of [filterIter.Next], over the wrapped iterator's [Next]. *)
Fixpoint filter_next (nx : heap → rres (option RecordI * heap)) (m : Matcher)
    (fuel : nat) (h : heap) : rres (option RecordI * heap) :=
  match fuel with
  | O => Fail OutOfFuel
  | S fuel' =>
      p <~ nx h ;;
      match fst p with
      | None => Ret (None, snd p)
      | Some r =>
          q <~ Match m (Some r) (snd p) ;;
          if fst q then Ret (Some r, snd q) else filter_next nx m fuel' (snd q)
      end
  end.

Fixpoint next (fuel : nat) (it : Iter) (h : heap) : rres (option RecordI * heap) :=
  match it with
  | SnapIter cur =>
      l <~ load_recs h cur ;;
      match l with
      | [] => Ret (None, h)
      | r :: l' => Ret (Some r, <[cur := CRecs l']> h)
      end
  | filterIter m it' => filter_next (next fuel it') m fuel h
  | predicateIter stop m it' =>
      s <~ load_bool h stop ;;
      if s then Ret (None, h)
      else
        p <~ next fuel it' h ;;
        q <~ Match m (fst p) (snd p) ;;
        if fst q then Ret (fst p, snd q)
        else Ret (None, <[stop := CBool true]> (snd q))
  end.

(** [for r := it.Next(); r != nil; r = it.Next()]. *)
Fixpoint drain (fuel : nat) (it : Iter) (h : heap) : rres (list RecordI * heap) :=
  match fuel with
  | O => Fail OutOfFuel
  | S fuel' =>
      p <~ next fuel it h ;;
      match fst p with
      | None => Ret ([], snd p)
      | Some r => q <~ drain fuel' it (snd p) ;; Ret (r :: fst q, snd q)
      end
  end.

(** ** Snapshots and their reversal ([query.go]) *)
Record Snapshot := mkSnapshot {
  snap_Get : IndexI → rres (list RecordI);
  snap_GetReverse : IndexI → rres (list RecordI);
  snap_LowerBound : IndexI → rres (list RecordI);
  snap_ReverseLowerBound : IndexI → rres (list RecordI) }.

(** [Query.Snapshot] with its dynamic type: a snapshot of the table or a [reversed] one. *)
Inductive Query := Direct (s : Snapshot) | reversed (q : Query).

Definition Reverse (q : Query) : Query :=
  match q with reversed r => r | Direct _ => reversed q end.

Fixpoint Query_snapshot (q : Query) : Snapshot :=
  match q with
  | Direct s => s
  | reversed r =>
      let s := Query_snapshot r in
      mkSnapshot (snap_GetReverse s) (snap_Get s) (snap_ReverseLowerBound s) (snap_LowerBound s)
  end.

(** ** Selectors ([selector.go]) *)
Abbreviation Selector := (Snapshot → heap → rres (Iter * heap)).
Abbreviation Constraint := (Iter → Selector).

Definition Selector_Bind (selection : Selector) (f : Constraint) : Selector :=
  λ q h, p <~ selection q h ;; f (fst p) q (snd p).

(** The iterator over the records a snapshot operation returns. *)
Definition snap_iter (c : rres (list RecordI)) (h : heap) : rres (Iter * heap) :=
  l <~ c ;; let p := alloc h (CRecs l) in Ret (SnapIter (fst p), snd p).

Definition Select (index : IndexI) : Selector := λ q h, snap_iter (snap_Get q index) h.

Definition From_ (index : IndexI) : Selector := λ q h, snap_iter (snap_LowerBound q index) h.

Definition all : IndexI := mkIndexI (bs "id") true (Some (Ret [])) None None None.

Definition All : Selector := Select all.

Definition Failure (e : rerror) : Selector := λ _ _, Fail e.

(** ** Constraints ([constraint.go]) *)
Definition just (it : Iter) : Selector := λ _ h, Ret (it, h).

Definition failure (e : rerror) : Constraint := λ _, Failure e.

Definition Where (m : Matcher) : Constraint := λ it, just (filterIter m it).

(** A new [predicateIter] has its own [stop] flag. *)
Definition While (m : Matcher) : Constraint :=
  λ it _ h, let p := alloc h (CBool false) in Ret (predicateIter (fst p) m it, snd p).

(** [Limit] allocates its counter when the constraint is made. *)
Definition Limit (n : Z) (h : heap) : Constraint * heap :=
  if n <=? 0 then (failure (ErrLimit n), h)
  else let p := alloc h (CInt n) in (While (MatchLimit (fst p)), snd p).

Definition First (h : heap) : Constraint * heap := Limit 1 h.

(** [leq] allocates its flag when it is made. *)
Definition leq (m : Matcher) (h : heap) : Matcher * heap :=
  let p := alloc h (CBool false) in (MatchLeq (fst p) m, snd p).

(** ** Matching an index *)

(** An index with the accessors [matchIndex] looks for besides those of the schema. *)
Record QIndex := mkQIndex {
  qix : IndexI;
  qix_Peer : option (rres bytes);
  qix_Host : option (rres bytes);
  qix_Meta : option (rres Meta) }.

(** Calling a method of a nil record panics. *)
Definition on_record {A} (f : RecordI → rres A) (r : option RecordI) : rres A :=
  match r with None => Panic | Some rec => f rec end.

Definition matchPeer (index : QIndex) : rres Matcher :=
  id <~ match ix_PeerBytes (qix index) with
        | Some b => b
        | None => match qix_Peer index with
                  | Some id => id
                  | None => Fail ErrNotIndex
                  end
        end ;;
  if ix_Prefix (qix index)
  then Ret (MatchFn (on_record (λ r, Ret (prefixb id (Peer r)))))
  else Ret (MatchFn (on_record (λ r, Ret (bytes_eqb (Peer r) id)))).

Definition strEq (s0 s1 : bytes) : bool := bytes_eqb s0 s1.

(** [strings.HasPrefix(s, prefix)]. *)
Definition HasPrefix (s prefix : bytes) : bool := prefixb prefix s.

(** [return err == nil && match(s, target)]. *)
Definition matchStr (mtch : bytes → bytes → bool) (f : rres bytes) (target : bytes)
    : rres bool :=
  match f with
  | Ret s => Ret (mtch s target)
  | Fail _ => Ret false
  | Panic => Panic
  end.

Definition matchHost (index : QIndex) : rres Matcher :=
  host <~ match ix_HostBytes (qix index) with
          | Some b => b
          | None => match qix_Host index with
                    | Some h => h
                    | None => Fail ErrNotIndex
                    end
          end ;;
  if ix_Prefix (qix index)
  then Ret (MatchFn (on_record (λ r, matchStr strEq (Host r) host)))
  else Ret (MatchFn (on_record (λ r, matchStr HasPrefix (Host r) host))).

(** The loop of [metaEq] over the fields of the record. *)
Fixpoint metaEq_loop (mtch : bytes → bytes → bool) (rmeta meta : Meta) (n i : nat) : rres bool :=
  match n with
  | O => Ret true
  | S n' =>
      match Meta_At rmeta i with
      | Panic => Panic
      | Fail _ => Ret false
      | Ret f =>
          match Meta_Get meta (fKey f) with
          | Panic => Panic
          | Fail _ => Ret false
          | Ret value =>
              if mtch value (fValue f) then metaEq_loop mtch rmeta meta n' (S i) else Ret false
          end
      end
  end.

Definition metaEq (mtch : bytes → bytes → bool) (r : RecordI) (meta : Meta) : rres bool :=
  match RMeta r with
  | Panic => Panic
  | Fail _ => Ret false
  | Ret rmeta =>
      if (Meta_Len rmeta =? 0)%nat then Ret (Meta_Len meta =? 0)%nat
      else metaEq_loop mtch rmeta meta (Meta_Len rmeta) 0
  end.

Definition matchMeta (index : QIndex) : rres Matcher :=
  match qix_Meta index with
  | None => Fail ErrNotIndex
  | Some m =>
      meta <~ m ;;
      if ix_Prefix (qix index)
      then Ret (MatchFn (on_record (λ r, metaEq HasPrefix r meta)))
      else Ret (MatchFn (on_record (λ r, metaEq strEq r meta)))
  end.

Definition matchIndex (index : QIndex) : rres Matcher :=
  let s := ix_String (qix index) in
  if bytes_eqb s (bs "id") then matchPeer index
  else if bytes_eqb s (bs "host") then matchHost index
  else if bytes_eqb s (bs "meta") then matchMeta index
  else Fail ErrInvalidIndex.

(** A panic while the index is read happens when the constraint is made. *)
Definition To (index : QIndex) (h : heap) : rres (Constraint * heap) :=
  match matchIndex index with
  | Ret matcher => let p := leq matcher h in Ret (While (fst p), snd p)
  | Fail e => Ret (failure e, h)
  | Panic => Panic
  end.

Definition Range (min : IndexI) (max : QIndex) (h : heap) : rres (Selector * heap) :=
  p <~ To max h ;; Ret (Selector_Bind (From_ min) (fst p), snd p).

(** ** Running a query *)
Definition Query_Iter (q : Query) (sel : Selector) (cs : list Constraint) (h : heap)
    : rres (Iter * heap) :=
  foldl Selector_Bind sel cs (Query_snapshot q) h.

(** The iterator of a successful query is not nil. *)
Definition Lookup (fuel : nat) (q : Query) (sel : Selector) (cs : list Constraint) (h : heap)
    : rres (option RecordI * heap) :=
  p <~ Query_Iter q sel cs h ;; next fuel (fst p) (snd p).

(** ** The list an iterator will yield *)
Fixpoint m_cells (m : Matcher) : list nat :=
  match m with
  | MatchFn _ => []
  | MatchLimit c => [c]
  | MatchLeq c m' => c :: m_cells m'
  end.

Fixpoint cells (it : Iter) : list nat :=
  match it with
  | SnapIter c => [c]
  | filterIter m it' => m_cells m ++ cells it'
  | predicateIter c m it' => c :: m_cells m ++ cells it'
  end.

(** [rep h it l n]: in heap [h] the iterator yields the records [l], and [n] bounds the
    records it will read. *)
Inductive rep (h : heap) : Iter → list RecordI → nat → Prop :=
| rep_snap c l :
    h !! c = Some (CRecs l) → rep h (SnapIter c) l (length l)
| rep_filter f p it l n :
    (∀ r, f (Some r) = Ret (p r)) → rep h it l n →
    rep h (filterIter (MatchFn f) it) (filter (λ r, p r = true) l) n
| rep_limit c k b m it l n :
    h !! c = Some (CBool b) → h !! k = Some (CInt m) → (b = false → 0 ≤ m < 2 ^ 63) →
    c ≠ k → c ∉ cells it → k ∉ cells it → rep h it l n →
    rep h (predicateIter c (MatchLimit k) it) (if b then [] else take (Z.to_nat m) l) n.

Definition agree (cs : list nat) (h h' : heap) : Prop := ∀ c, c ∈ cs → h' !! c = h !! c.

Lemma rep_frame h h' it l n : rep h it l n → agree (cells it) h h' → rep h' it l n.
Proof.
  intros Hrep Ha. induction Hrep as [c l Hc|f p it l n Hf Hr IH|c k b m it l n Hc Hk Hm Hck Hci Hki Hr IH].
  - apply rep_snap. rewrite Ha; [done|left].
  - apply rep_filter; [done|]. apply IH. intros c Hc. apply Ha. simpl. done.
  - apply rep_limit; try done.
    + rewrite Ha; [done|left].
    + rewrite Ha; [done|]. right. left.
    + apply IH. intros c' Hc'. apply Ha. do 2 right. done.
Qed.

(** What a call of [Next] does to an iterator that yields [l]. *)
Definition steps (nx : heap → rres (option RecordI * heap)) (it : Iter) (h : heap)
    (l : list RecordI) (n : nat) : Prop :=
  ∃ h' n', nx h = Ret (head l, h') ∧ rep h' it (tail l) n' ∧ (n' ≤ n)%nat ∧
    (l ≠ [] → (n' < n)%nat) ∧ ∀ c, c ∉ cells it → h' !! c = h !! c.

Lemma filter_steps nx f p it h l n fuel :
  (∀ r, f (Some r) = Ret (p r)) →
  (∀ h l n, rep h it l n → (n < fuel)%nat → steps nx it h l n) →
  ∀ k, (k ≤ fuel)%nat → rep h it l n → (n < k)%nat →
  steps (filter_next nx (MatchFn f) k) (filterIter (MatchFn f) it) h
    (filter (λ r, p r = true) l) n.
Proof.
  intros Hf Hnx k. revert h l n. induction k as [|k IH]; intros h l n Hk Hrep Hn; [lia|].
  destruct (Hnx h l n Hrep ltac:(lia)) as (h1 & n1 & Hnext & Hrep1 & Hle & Hlt & Hfr).
  destruct l as [|r l].
  - exists h1, n1. cbn [filter_next]. rewrite Hnext. cbn.
    split; [done|]. split; [|split; [done|split; [done|exact Hfr]]].
    apply (rep_filter _ f p it [] n1); done.
  - specialize (Hlt ltac:(done)). destruct (p r) eqn:Hp.
    + exists h1, n1. cbn [filter_next]. rewrite Hnext. cbn [bind fst snd head].
      cbn [Match]. rewrite Hf, Hp. cbn [bind fst snd].
      rewrite filter_cons_True by done. cbn. split; [done|].
      split; [by apply rep_filter|]. split; [lia|]. split; [lia|exact Hfr].
    + destruct (IH h1 l n1) as (h2 & n2 & Hn2 & Hrep2 & Hle2 & Hlt2 & Hfr2); [lia|done|lia|].
      exists h2, n2. cbn [filter_next]. rewrite Hnext. cbn [bind fst snd head].
      cbn [Match]. rewrite Hf, Hp. cbn [bind fst snd]. rewrite Hn2.
      rewrite filter_cons_False by congruence. split; [done|]. split; [done|].
      split; [lia|]. split; [intros _; lia|]. intros c Hc. rewrite Hfr2 by done.
      by apply Hfr.
Qed.

(** The matcher of [Limit] only changes its own counter. *)
Lemma limit_match h k m r :
  h !! k = Some (CInt m) → 0 ≤ m < 2 ^ 63 →
  Match (MatchLimit k) r h = Ret (0 <? m, <[k := CInt (m - 1)]> h) ∧
  <[k := CInt (m - 1)]> h !! k = Some (CInt (m - 1)) ∧
  ∀ c, c ≠ k → <[k := CInt (m - 1)]> h !! c = h !! c.
Proof.
  intros Hk Hm. cbn [Match]. unfold load_int. rewrite Hk. cbn [bind].
  assert (i64 (m - 1) = m - 1) as -> by (apply wrap_i_small; [lia|unfold in_i; lia]).
  split; [done|]. split; [by eapply list_lookup_insert_eq, lookup_lt_Some|].
  intros c Hc. by apply list_lookup_insert_ne.
Qed.

Lemma rep_insert h c x it l n : rep h it l n → c ∉ cells it → rep (<[c := x]> h) it l n.
Proof.
  intros Hrep Hc. eapply rep_frame; [exact Hrep|]. intros c' Hc'.
  apply list_lookup_insert_ne. by intros ->.
Qed.

Lemma limit_steps nx c k it h l n b m :
  h !! c = Some (CBool b) → h !! k = Some (CInt m) → (b = false → 0 ≤ m < 2 ^ 63) →
  c ≠ k → c ∉ cells it → k ∉ cells it → rep h it l n → steps nx it h l n →
  steps (λ h, s <~ load_bool h c ;;
      if s then Ret (None, h)
      else p <~ nx h ;; q <~ Match (MatchLimit k) (fst p) (snd p) ;;
           if fst q then Ret (fst p, snd q) else Ret (None, <[c := CBool true]> (snd q)))
    (predicateIter c (MatchLimit k) it) h (if b then [] else take (Z.to_nat m) l) n.
Proof.
  intros Hc Hk Hm Hck Hci Hki Hrep Hnx. unfold steps at 1, load_bool. rewrite Hc. cbn [bind].
  destruct b.
  { exists h, n. split; [done|]. split; [by apply (rep_limit _ c k true m it l)|]. by repeat split. }
  specialize (Hm eq_refl). destruct Hnx as (h1 & n1 & Hnext & Hrep1 & Hle & Hlt & Hfr).
  rewrite Hnext. cbn [bind fst snd].
  destruct (limit_match h1 k m (head l)) as (Hmt & Hk2 & Hfr2); [by rewrite Hfr|done|].
  rewrite Hmt. cbn [bind fst snd]. set (h2 := <[k := CInt (m - 1)]> h1) in *.
  assert (rep h2 it (tail l) n1) as Hrep2 by by apply rep_insert.
  assert (h2 !! c = Some (CBool false)) as Hc2 by by rewrite Hfr2, Hfr.
  destruct (Z.ltb_spec 0 m) as [Hpos|Hneg].
  - exists h2, n1. replace (Z.to_nat m) with (S (Z.to_nat (m - 1))) by lia.
    split; [by destruct l|]. split.
    { replace (tail (take (S (Z.to_nat (m - 1))) l))
        with (if false then [] else take (Z.to_nat (m - 1)) (tail l))
        by (destruct l; simpl; by rewrite ?take_nil).
      apply (rep_limit h2 c k false (m - 1)); try done. lia. }
    split; [done|]. split; [intros Hl; apply Hlt; by destruct l|].
    intros c'. cbn. rewrite !not_elem_of_cons. intros (? & ? & ?). by rewrite Hfr2, Hfr.
  - replace (Z.to_nat m) with O by lia. eexists _, n1. cbn. split; [done|].
    split; [|split; [done|split; [done|]]].
    + apply (rep_limit _ c k true (m - 1) it (tail l)); try done.
      * by eapply list_lookup_insert_eq, lookup_lt_Some.
      * by rewrite list_lookup_insert_ne.
      * by apply rep_insert.
    + intros c'. rewrite !not_elem_of_cons. intros (? & ? & ?).
      by rewrite list_lookup_insert_ne, Hfr2, Hfr.
Qed.

(** [Next] yields the records of [rep] one by one; the fuel suffices as soon as it
    exceeds the number of records left to read. *)
Lemma next_rep fuel h it l n :
  rep h it l n → (n < fuel)%nat → steps (next fuel it) it h l n.
Proof.
  revert h l n. induction it as [c|m it IH|c m it IH]; intros h l n Hrep Hn.
  - inversion Hrep as [? ? Hc| |]; subst. destruct l as [|r l].
    + exists h, 0%nat. cbn. unfold load_recs. rewrite Hc. by repeat split.
    + exists (<[c := CRecs l]> h), (length l). cbn. unfold load_recs. rewrite Hc. cbn.
      split; [done|]. split.
      { by eapply rep_snap, list_lookup_insert_eq, lookup_lt_Some. }
      split; [lia|]. split; [lia|]. intros c' Hc'. rewrite list_lookup_insert_ne; [done|].
      intros ->. apply Hc'. left.
  - inversion Hrep as [|f p ? l0 ? Hf Hr|]; subst. cbn [next].
    apply (filter_steps _ f p it h l0 n fuel); auto.
  - inversion Hrep as [| |? k b mm ? l0 ? Hc Hk Hm Hck Hci Hki Hr]; subst.
    apply (limit_steps (next fuel it) c k it h l0 n); auto.
Qed.

Lemma drain_rep fuel h it l n :
  rep h it l n → (n < fuel)%nat → ∃ h', drain fuel it h = Ret (l, h').
Proof.
  revert h l n. induction fuel as [|fuel IH]; intros h l n Hrep Hn; [lia|].
  destruct (next_rep (S fuel) _ _ _ _ Hrep Hn) as (h' & n' & Hnext & Hrep' & _ & Hlt & _).
  cbn [drain]. rewrite Hnext. cbn [bind fst snd]. destruct l as [|r l]; cbn [head]; [by eexists|].
  destruct (IH h' l n' Hrep') as (h'' & Hd); [specialize (Hlt ltac:(done)); lia|].
  rewrite Hd. by eexists.
Qed.

(** ** The meaning of a query *)
Inductive cspec := SWhere (p : RecordI → bool) | SLimit (n : Z).

(** The constraints as the caller builds them, one after the other. *)
Fixpoint build (cs : list cspec) (h : heap) : list Constraint * heap :=
  match cs with
  | [] => ([], h)
  | SWhere p :: cs' =>
      let q := build cs' h in
      (Where (MatchFn (on_record (λ r, Ret (p r)))) :: fst q, snd q)
  | SLimit n :: cs' =>
      let c := Limit n h in let q := build cs' (snd c) in (fst c :: fst q, snd q)
  end.

Definition denote1 (l : list RecordI) (c : cspec) : list RecordI :=
  match c with
  | SWhere p => filter (λ r, p r = true) l
  | SLimit n => take (Z.to_nat n) l
  end.

Definition denote (l : list RecordI) (cs : list cspec) : list RecordI := foldl denote1 l cs.

Definition cspec_ok (c : cspec) : Prop :=
  match c with SWhere _ => True | SLimit n => 0 < n < 2 ^ 63 end.

(** Constraints whose counters are untouched and not among the cells [used]. *)
Inductive ready (h : heap) : list nat → list Constraint → list cspec → Prop :=
| ready_nil used : ready h used [] []
| ready_where used p Cs cs :
    ready h used Cs cs →
    ready h used (Where (MatchFn (on_record (λ r, Ret (p r)))) :: Cs) (SWhere p :: cs)
| ready_limit used k n Cs cs :
    h !! k = Some (CInt n) → 0 < n < 2 ^ 63 → k ∉ used → ready h (k :: used) Cs cs →
    ready h used (While (MatchLimit k) :: Cs) (SLimit n :: cs).

Lemma ready_weaken h used used' Cs cs :
  ready h used Cs cs → (∀ c, c ∈ used' → c ∈ used ∨ (length h ≤ c)%nat) → ready h used' Cs cs.
Proof.
  intros Hr. revert used'. induction Hr as [|? ? ? ? Hr IH|? k n Cs cs Hk Hn Hni Hr IH];
    intros used' Hsub; [constructor|constructor; auto|].
  apply lookup_lt_Some in Hk as Hlt. constructor; [done|done| |].
  - intros Hin. destruct (Hsub _ Hin); [done|lia].
  - apply IH. intros c [->|Hc]%elem_of_cons; [left; left|].
    destruct (Hsub _ Hc); [left; by right|by right].
Qed.

Lemma ready_alloc h used Cs cs x : ready h used Cs cs → ready (h ++ [x]) used Cs cs.
Proof.
  induction 1 as [|? ? ? ? Hr IH|? k n Cs cs Hk Hn Hni Hr IH]; constructor; auto.
  by apply lookup_app_l_Some.
Qed.

Lemma build_ready cs h used :
  Forall cspec_ok cs → Forall (λ c, (c < length h)%nat) used →
  ready (snd (build cs h)) used (fst (build cs h)) cs ∧ h `prefix_of` snd (build cs h).
Proof.
  intros Hok. revert h used. induction Hok as [|[p|n] cs Hc Hok IH]; intros h used Hu.
  - split; [constructor|done].
  - destruct (IH h used Hu). cbn. split; [by constructor|done].
  - cbn [build]. unfold Limit. cbn in Hc. rewrite (proj2 (Z.leb_gt n 0)) by lia.
    cbn [alloc fst snd].
    destruct (IH (h ++ [CInt n]) (length h :: used)) as [Hr Hpre].
    { constructor; [rewrite length_app; simpl; lia|].
      eapply Forall_impl; [exact Hu|]. intros c. rewrite length_app. lia. }
    split; [|by etrans; [|exact Hpre]; apply prefix_app_r].
    constructor; [|done| |done].
    + eapply prefix_lookup_Some; [|exact Hpre]. by rewrite lookup_app_r, Nat.sub_diag by lia.
    + intros Hin. rewrite Forall_forall in Hu. specialize (Hu _ Hin). lia.
Qed.

Lemma rep_cells h it l n c : rep h it l n → c ∈ cells it → (c < length h)%nat.
Proof.
  induction 1; cbn; rewrite ?elem_of_cons, ?elem_of_nil; intros; destruct_or?; subst;
    eauto using lookup_lt_Some; done.
Qed.

(** Applying the constraints one after the other to an iterator. *)
Fixpoint apply_cs (Cs : list Constraint) (it : Iter) (q : Snapshot) (h : heap)
    : rres (Iter * heap) :=
  match Cs with
  | [] => Ret (it, h)
  | C :: Cs' => p <~ C it q h ;; apply_cs Cs' (fst p) q (snd p)
  end.

Lemma foldl_Bind Cs (sel : Selector) q h :
  foldl Selector_Bind sel Cs q h = p <~ sel q h ;; apply_cs Cs (fst p) q (snd p).
Proof.
  revert sel. induction Cs as [|C Cs IH]; intros sel; cbn [foldl apply_cs].
  - destruct (sel q h) as [[]| |]; done.
  - rewrite IH. unfold Selector_Bind. by rewrite bind_assoc.
Qed.

Lemma apply_cs_rep Cs cs q h it l n :
  rep h it l n → ready h (cells it) Cs cs →
  ∃ it' h', apply_cs Cs it q h = Ret (it', h') ∧ rep h' it' (denote l cs) n.
Proof.
  revert Cs h it l. induction cs as [|c cs IH]; intros Cs h it l Hrep Hr;
    inversion Hr as [|? p Cs' ? Hr'|? k m Cs' ? Hk Hm Hni Hr']; subst.
  - by exists it, h.
  - apply (IH Cs' h (filterIter (MatchFn (on_record (λ r, Ret (p r)))) it)); [|done].
    by apply (rep_filter _ _ p).
  - set (c := length h). set (h1 := h ++ [CBool false]).
    assert (h1 !! k = Some (CInt m)) as Hk1 by by apply lookup_app_l_Some.
    assert (h1 !! c = Some (CBool false)) as Hc1 by (subst h1 c; by rewrite lookup_app_r, Nat.sub_diag by lia).
    apply lookup_lt_Some in Hk.
    apply (IH Cs' h1 (predicateIter c (MatchLimit k) it)).
    + apply (rep_limit h1 c k false m it l n); try done; [lia|subst c; lia| |].
      * intros Hc. apply (rep_cells _ _ _ _ _ Hrep) in Hc. subst c. lia.
      * eapply rep_frame; [exact Hrep|]. intros c' Hc'.
        apply (rep_cells _ _ _ _ _ Hrep) in Hc'. subst h1. by rewrite lookup_app_l.
    + apply ready_alloc. eapply ready_weaken; [exact Hr'|].
      intros c' [->|Hc']%elem_of_cons; [right; subst c; lia|by left].
Qed.

(** The selectors that read the snapshot, and the records they select. *)
Inductive selects (q : Snapshot) : Selector → list RecordI → Prop :=
| selects_get ix l : snap_Get q ix = Ret l → selects q (Select ix) l
| selects_from ix l : snap_LowerBound q ix = Ret l → selects q (From_ ix) l.

Lemma selects_run q sel l h :
  selects q sel l → sel q h = Ret (SnapIter (length h), h ++ [CRecs l]).
Proof. intros [ix k Hk|ix k Hk]; unfold Select, From_, snap_iter; by rewrite Hk. Qed.

Lemma query_rep q sel cs l :
  selects (Query_snapshot q) sel l → Forall cspec_ok cs →
  ∃ it h, Query_Iter q sel (fst (build cs [])) (snd (build cs [])) = Ret (it, h) ∧
    rep h it (denote l cs) (length l).
Proof.
  intros Hsel Hok. unfold Query_Iter. rewrite foldl_Bind, (selects_run _ _ _ _ Hsel).
  cbn [bind fst snd]. destruct (build_ready cs [] [] Hok) as [Hr _]; [constructor|].
  apply apply_cs_rep.
  - apply rep_snap. by rewrite lookup_app_r, Nat.sub_diag by lia.
  - apply ready_alloc. eapply ready_weaken; [exact Hr|].
    intros c ->%list_elem_of_singleton. by right.
Qed.

(** ** Properties *)

(** C10. A query built from [Select] or [From] and any list of [Where] and [Limit]
    constraints means what it says: iterating it yields exactly the records of the
    snapshot in order, with every filter and limit applied in the order given, and the
    iteration ends; [Lookup] returns the first of them, or nil when there is none. *)
Theorem query_drains (q : Query) (sel : Selector) (cs : list cspec) (l : list RecordI) fuel :
  selects (Query_snapshot q) sel l → Forall cspec_ok cs → (length l < fuel)%nat →
  (∃ it h h', Query_Iter q sel (fst (build cs [])) (snd (build cs [])) = Ret (it, h) ∧
     drain fuel it h = Ret (foldl (λ l c, match c with
                                          | SWhere p => filter (λ r, p r = true) l
                                          | SLimit n => take (Z.to_nat n) l
                                          end) l cs, h')) ∧
  ∃ h', Lookup fuel q sel (fst (build cs [])) (snd (build cs [])) = Ret (head (denote l cs), h').
Proof.
  intros Hsel Hok Hfuel. destruct (query_rep q sel cs l Hsel Hok) as (it & h & Hq & Hrep).
  split.
  - destruct (drain_rep fuel h it _ _ Hrep Hfuel) as [h' Hd]. by exists it, h, h'.
  - unfold Lookup. rewrite Hq. cbn [bind fst snd].
    destruct (next_rep fuel _ _ _ _ Hrep Hfuel) as (h' & _ & Hn & _). by exists h'.
Qed.

Definition rec_seq (s : Z) : RecordI :=
  mkRecordI 0 [s] (Ret s) 1 (Ret []) (Ret []) None None None.

Definition snap_of (l : list RecordI) : Snapshot :=
  mkSnapshot (λ _, Ret l) (λ _, Ret (rev l)) (λ _, Ret l) (λ _, Ret (rev l)).

Definition recs5 : list RecordI := rec_seq <$> [1; 2; 3; 4; 5].

Lemma query_drains_witness :
  ∃ h', Lookup 6 (Direct (snap_of recs5)) All
    (fst (build [SWhere (λ r, bool_decide (Seq r ≠ Ret 1)); SLimit 2] []))
    (snd (build [SWhere (λ r, bool_decide (Seq r ≠ Ret 1)); SLimit 2] [])) =
  Ret (Some (rec_seq 2), h').
Proof.
  destruct (query_drains (Direct (snap_of recs5)) All
    [SWhere (λ r, bool_decide (Seq r ≠ Ret 1)); SLimit 2] recs5 6) as [_ [h' Hl]].
  - apply selects_get. reflexivity.
  - repeat constructor.
  - cbn. lia.
  - exists h'. exact Hl.
Defined.

(** ** Bounds: [To] and [Range] *)

(** An iterator of the snapshot bounded by [leq]: the stop flag [c], the flag [k], the
    cursor [s]. *)
Record leq_state (h : heap) (c k s : nat) (reached : bool) (l : list RecordI) : Prop := {
  leq_stop : h !! c = Some (CBool false);
  leq_reached : h !! k = Some (CBool reached);
  leq_cursor : h !! s = Some (CRecs l);
  leq_distinct : c ≠ k ∧ c ≠ s ∧ k ≠ s }.

(** The records it yields; [None] is a panic. *)
Fixpoint leq_list (p : RecordI → bool) (reached : bool) (l : list RecordI)
    : option (list RecordI) :=
  match l with
  | [] => None
  | r :: l' =>
      if negb (reached || p r) || p r then cons r <$> leq_list p (reached || p r) l' else Some []
  end.

Lemma next_leq g p c k s h reached r l fuel :
  (∀ r, g r = Ret (p r)) → leq_state h c k s reached (r :: l) →
  let ok := negb (reached || p r) || p r in
  ∃ h', next fuel (predicateIter c (MatchLeq k (MatchFn (on_record g))) (SnapIter s)) h =
          Ret (if ok then Some r else None, h') ∧
        (ok = true → leq_state h' c k s (reached || p r) l).
Proof.
  intros Hg [Hc Hk Hs (Hck & Hcs & Hks)]. cbn [next Match on_record]. unfold load_bool at 1, load_recs.
  rewrite Hc. cbn [bind]. rewrite Hs. cbn [bind fst snd on_record]. rewrite Hg. cbn [bind fst snd].
  unfold load_bool. rewrite list_lookup_insert_ne, Hk by done. cbn [bind fst snd].
  destruct (negb _ || _); eexists; (split; [done|]); [intros _|done].
  apply lookup_lt_Some in Hs as Hsl, Hk as Hkl. split; [| | |done].
  - by rewrite !list_lookup_insert_ne.
  - by rewrite list_lookup_insert_eq by (rewrite length_insert; done).
  - rewrite list_lookup_insert_ne by done. by rewrite list_lookup_insert_eq.
Qed.

Lemma drain_leq g p c k s h reached l fuel :
  (∀ r, g r = Ret (p r)) → leq_state h c k s reached l → (length l < fuel)%nat →
  match leq_list p reached l with
  | Some out => ∃ h', drain fuel (predicateIter c (MatchLeq k (MatchFn (on_record g))) (SnapIter s)) h
                        = Ret (out, h')
  | None => drain fuel (predicateIter c (MatchLeq k (MatchFn (on_record g))) (SnapIter s)) h = Panic
  end.
Proof.
  intros Hg. revert h reached l. induction fuel as [|fuel IH]; intros h reached l Hst Hf; [lia|].
  destruct l as [|r l].
  - destruct Hst as [Hc Hk Hs _]. cbn [leq_list drain next]. unfold load_bool, load_recs.
    rewrite Hc. cbn [bind]. by rewrite Hs.
  - destruct (next_leq g p c k s h reached r l (S fuel) Hg Hst) as (h' & Hn & Hst').
    cbn [leq_list drain]. rewrite Hn. destruct (negb (reached || p r) || p r); cbn [bind fst snd].
    + specialize (IH h' _ l (Hst' eq_refl) ltac:(simpl in Hf; lia)).
      destruct (leq_list p (reached || p r) l); cbn [fmap option_fmap option_map].
      * destruct IH as [h'' ->]. by eexists.
      * by rewrite IH.
    + by eexists.
Qed.

Lemma leq_list_reached p l2 tl :
  Forall (λ r, p r = true) l2 →
  leq_list p true (l2 ++ tl) = app l2 <$> leq_list p true tl.
Proof.
  induction 1 as [|r l2 Hr _ IH]; cbn; [by destruct (leq_list p true tl)|].
  rewrite Hr, IH. by destruct (leq_list p true tl).
Qed.

Lemma leq_list_split p l1 l2 tl :
  Forall (λ r, p r = false) l1 → Forall (λ r, p r = true) l2 → l2 ≠ [] →
  leq_list p false (l1 ++ l2 ++ tl) = app (l1 ++ l2) <$> leq_list p true tl.
Proof.
  intros H1 H2 Hne. induction H1 as [|r l1 Hr _ IH]; cbn [leq_list app].
  - destruct H2 as [|r l2 Hr H2]; [done|]. cbn. rewrite Hr, leq_list_reached by done.
    by destruct (leq_list p true tl).
  - rewrite Hr. cbn [orb negb]. rewrite IH. by destruct (leq_list p true tl).
Qed.

Lemma leq_list_none p l : Forall (λ r, p r = false) l → leq_list p false l = None.
Proof. induction 1 as [|r l Hr _ IH]; [done|]. cbn. by rewrite Hr, IH. Qed.

(** A query bounded by [To] (and so [Range]) yields the records up to the last one
    that matches the bound, provided that a non-matching record follows them in the
    table.  When the records run out first, because the bound matches the last records
    of the table or no record at all, the matcher is called with the nil record and the
    iteration panics. *)
Theorem to_needs_a_record_beyond (q : Query) sel index C h0 g p l fuel :
  selects (Query_snapshot q) sel l → To index [] = Ret (C, h0) →
  matchIndex index = Ret (MatchFn (on_record g)) → (∀ r, g r = Ret (p r)) →
  (length l < fuel)%nat →
  ∃ it h, Query_Iter q sel [C] h0 = Ret (it, h) ∧
    (∀ l1 l2 x l3, l = l1 ++ l2 ++ x :: l3 → Forall (λ r, p r = false) l1 →
       Forall (λ r, p r = true) l2 → l2 ≠ [] → p x = false →
       ∃ h', drain fuel it h = Ret (l1 ++ l2, h')) ∧
    (∀ l1 l2, l = l1 ++ l2 → Forall (λ r, p r = false) l1 → Forall (λ r, p r = true) l2 →
       drain fuel it h = Panic).
Proof.
  intros Hsel HTo Hmi Hg Hfuel. unfold To in HTo. rewrite Hmi in HTo. injection HTo as <- <-.
  unfold Query_Iter. rewrite foldl_Bind, (selects_run _ _ _ _ Hsel). cbn.
  eexists _, _. split; [done|].
  match goal with |- context [drain _ ?it ?h] => set (it0 := it); set (hh := h) end.
  assert (leq_state hh 2 0 1 false l) as Hst by by split.
  pose proof (drain_leq g p 2 0 1 hh false l fuel Hg Hst Hfuel) as Hd. fold it0 in Hd.
  split.
  - intros l1 l2 x l3 -> H1 H2 Hne Hx. rewrite leq_list_split in Hd by done.
    cbn in Hd. rewrite Hx in Hd. cbn in Hd. by rewrite app_nil_r in Hd.
  - intros l1 l2 -> H1 H2. destruct (decide (l2 = [])) as [->|Hne].
    + rewrite app_nil_r in Hd. by rewrite leq_list_none in Hd.
    + pose proof (leq_list_split p l1 l2 [] H1 H2 Hne) as Hl. rewrite app_nil_r in Hl.
      by rewrite Hl in Hd.
Qed.

Definition peer_ix (b : bytes) : QIndex :=
  mkQIndex (mkIndexI (bs "id") false (Some (Ret b)) None None None) None None None.

Lemma to_needs_a_record_beyond_witness :
  ∃ C h0 it h h', To (peer_ix [3]) [] = Ret (C, h0) ∧
    Query_Iter (Direct (snap_of recs5)) All [C] h0 = Ret (it, h) ∧
    drain 6 it h = Ret (rec_seq <$> [1; 2; 3], h').
Proof.
  eexists _, _.
  destruct (to_needs_a_record_beyond (Direct (snap_of recs5)) All (peer_ix [3]) _ _
    (λ r, Ret (bytes_eqb (Peer r) [3])) (λ r, bytes_eqb (Peer r) [3]) recs5 6
    (selects_get (snap_of recs5) all recs5 eq_refl) eq_refl eq_refl (λ _, eq_refl)
    ltac:(cbn; lia)) as (it & h & Hq & Hok & _).
  destruct (Hok (rec_seq <$> [1; 2]) [rec_seq 3] (rec_seq 4) [rec_seq 5]) as [h' Hd];
    [done|by repeat constructor|by repeat constructor|done|done|].
  exists it, h, h'. split; [reflexivity|]. split; [exact Hq|exact Hd].
Defined.

(** ** Sharing *)

(** The counter of [Limit] belongs to the constraint value: a constraint used for two
    queries counts across both, so the second query of a [Limit(3)] over five records
    yields nothing. *)
Theorem limit_reuse_shares_counter :
  let q := Direct (snap_of recs5) in
  let '(C, h0) := Limit 3 [] in
  ∃ it1 h1 h2 it2 h3 h4,
    Query_Iter q All [C] h0 = Ret (it1, h1) ∧ drain 6 it1 h1 = Ret (take 3 recs5, h2) ∧
    Query_Iter q All [C] h2 = Ret (it2, h3) ∧ drain 6 it2 h3 = Ret ([], h4).
Proof.
  cbn [Limit Z.leb Z.compare alloc fst snd]. repeat eexists; vm_compute; reflexivity.
Qed.

(** The host matcher has its two cases exchanged: for a prefix index it tests
    equality with the host, for an exact index it tests the prefix. *)
Theorem match_host_swapped (index : QIndex) (r : RecordI) (host name : bytes) :
  ix_HostBytes (qix index) = Some (Ret host) → Host r = Ret name →
  ∃ f, matchHost index = Ret (MatchFn f) ∧
    f (Some r) = Ret (if ix_Prefix (qix index) then bytes_eqb name host else prefixb host name).
Proof.
  intros Hh Hn. unfold matchHost. rewrite Hh. cbn [bind].
  destruct (ix_Prefix _); eexists; (split; [done|]); cbn; by rewrite Hn.
Qed.

Definition host_ix (prefix : bool) (b : bytes) : QIndex :=
  mkQIndex (mkIndexI (bs "host") prefix None None (Some (Ret b)) None) None None None.

Definition rec_host (b : bytes) : RecordI :=
  mkRecordI 0 [] (Ret 0) 1 (Ret b) (Ret []) None None None.

Lemma match_host_swapped_witness :
  ∃ f, matchHost (host_ix false (bs "node")) = Ret (MatchFn f) ∧
       f (Some (rec_host (bs "node-7"))) = Ret true.
Proof.
  destruct (match_host_swapped (host_ix false (bs "node")) (rec_host (bs "node-7"))
    (bs "node") (bs "node-7") eq_refl eq_refl) as (f & Hf & Hr).
  exists f. split; [exact Hf|]. rewrite Hr. reflexivity.
Defined.
