(* ===== verification/Pulse.v ===== *)
(** * Heartbeats and their validation ([src/pkg/cluster/pulse])

    A heartbeat is a Cap'n Proto struct with a TTL in milliseconds (32 bits), the instance
    identifier, a host name and metadata; a pubsub message carries it together with the
    sender and a sequence number.  [NewValidator] turns a message into a routing record
    and upserts it.

    The struct is the record [api_Heartbeat]; its text fields are the results of reading
    them, since a message from the network may hold broken pointers.  Decoding is library
    code and a parameter: [unmarshal] is [capnp.UnmarshalPacked], [read_root] is
    [api.ReadRootHeartbeat]. *)

From stdpp Require Import base list gmap strings.
From Stdlib Require Import ZArith Lia.
From S2P Require Import Prelude Stm Routing RoutingTable RoutingProps.

Open Scope Z_scope.

(** ** Heartbeats ([heartbeat.go]) *)
Definition Millisecond : Z := 1000000.
Definition Second : Z := 1000 * Millisecond.
Definition DefaultTTL : Z := i64 (Second * 10).

Record api_Heartbeat := mkHeartbeat {
  hb_ttl : Z;                (* uint32 *)
  hb_server : Z;             (* uint64 *)
  hb_host : rres bytes;
  hb_meta : rres Meta }.

(** A new root struct: all fields zero. *)
Definition NewHeartbeat : api_Heartbeat := mkHeartbeat 0 0 (Ret []) (Ret []).

(** Go's integer division truncates towards zero. *)
Definition SetTTL (h : api_Heartbeat) (d : Z) : api_Heartbeat :=
  mkHeartbeat (u32 (Z.quot d Millisecond)) (hb_server h) (hb_host h) (hb_meta h).

Definition Heartbeat_TTL (h : api_Heartbeat) : Z :=
  let d := i64 (Millisecond * hb_ttl h) in if d =? 0 then DefaultTTL else d.

Definition SetServer (h : api_Heartbeat) (id : Z) : api_Heartbeat :=
  mkHeartbeat (hb_ttl h) (u64 id) (hb_host h) (hb_meta h).

Definition Heartbeat_Server (h : api_Heartbeat) : Z := hb_server h.

Definition SetHost (h : api_Heartbeat) (name : bytes) : api_Heartbeat :=
  mkHeartbeat (hb_ttl h) (hb_server h) (Ret name) (hb_meta h).

Definition Heartbeat_Meta (h : api_Heartbeat) : rres Meta := hb_meta h.

Section heartbeat.
(** [set i s] is the result of writing text [s] at index [i] of the new list; [new n] the
    result of allocating it. *)
Context (new : nat → rres unit) (set : nat → bytes → rres unit).

(** A list whose elements have not been written reads as empty texts. *)
Fixpoint SetMeta_loop (i : nat) (fields : list MetaField) (m : Meta) : Meta * rres unit :=
  match fields with
  | [] => (m, Ret tt)
  | f :: fields' =>
      match set i (MetaField_String f) with
      | Ret _ => SetMeta_loop (S i) fields' (<[i := Ret (MetaField_String f)]> m)
      | e => (m, e)
      end
  end.

Definition SetMeta (h : api_Heartbeat) (fields : list MetaField) : api_Heartbeat * rres unit :=
  match new (length fields) with
  | Ret _ =>
      let p := SetMeta_loop 0 fields (replicate (length fields) (Ret [])) in
      (mkHeartbeat (hb_ttl h) (hb_server h) (hb_host h) (Ret (fst p)), snd p)
  | e => (h, e)
  end.
End heartbeat.

(** ** Messages and validation ([pulse.go]) *)
Record Message := mkMessage { From : bytes; Seqno : bytes; Data : bytes }.

Record routingRecord := mkRR { rr_peer : bytes; rr_seq : bytes; rr_hb : api_Heartbeat }.

Inductive ValidationResult := ValidationAccept | ValidationReject | ValidationIgnore.

(** [pulse.RoutingTable]: what the validator needs of a routing table. *)
Class RoutingTableI (T : Type) := rt_Upsert : T → RecordI → rres (bool * T).

Section pulse.
Context (b58 : bytes → bytes).
Context {msg : Type} (unmarshal : bytes → rres msg) (read_root : msg → rres api_Heartbeat).

Definition ReadMessage (m : msg) : rres api_Heartbeat := read_root m.

(** [Bind] sets the heartbeat and the message's validator data; the result is the
    heartbeat. *)
Definition Heartbeat_Bind (m : Message) : rres api_Heartbeat :=
  c <~ unmarshal (Data m) ;; ReadMessage c.

Definition record (m : Message) : rres routingRecord :=
  c <~ unmarshal (Data m) ;;
  hb <~ ReadMessage c ;;
  Ret (mkRR (From m) (Seqno m) hb).

Definition rr_PeerBytes (r : routingRecord) : rres bytes := Ret (b58 (rr_peer r)).

Definition rr_Seq (r : routingRecord) : rres Z := Uint64 (rr_seq r).

(** The record as the routing table sees it: [HostBytes] is the accessor of the embedded
    struct, and there is no [ServerBytes]. *)
Definition as_Record (r : routingRecord) : RecordI :=
  mkRecordI (Heartbeat_Server (rr_hb r)) (rr_peer r) (rr_Seq r) (Heartbeat_TTL (rr_hb r))
    (hb_host (rr_hb r)) (Heartbeat_Meta (rr_hb r))
    (Some (rr_PeerBytes r)) None (Some (hb_host (rr_hb r))).

Definition NewValidator {T} `{RoutingTableI T} (rt : T) (m : Message)
    : rres (ValidationResult * T) :=
  match record m with
  | Ret rec =>
      p <~ rt_Upsert rt (as_Record rec) ;;
      if fst p then Ret (ValidationAccept, snd p) else Ret (ValidationIgnore, snd p)
  | Fail _ => Ret (ValidationReject, rt)
  | Panic => Panic
  end.
End pulse.

(** The routing table discharges the interface. *)
#[global] Instance table_routing {D} `{!Memdb rerror any (list IndexSchema) D} :
  RoutingTableI (Table D) := Upsert.

(** ** Facts *)
Definition wf_hb (h : api_Heartbeat) : Prop := in_u 32 (hb_ttl h) ∧ in_u 64 (hb_server h).

Lemma TTL_range h : wf_hb h → 0 < Heartbeat_TTL h ≤ max_ttl.
Proof.
  intros [Ht _]. unfold Heartbeat_TTL. cbv zeta. unfold in_u in Ht.
  assert (i64 (Millisecond * hb_ttl h) = Millisecond * hb_ttl h) as ->.
  { apply wrap_i_small; [lia|]. unfold in_i, Millisecond. lia. }
  unfold max_ttl, Millisecond. destruct (Z.eqb_spec (1000000 * hb_ttl h) 0) as [_|Hne].
  - vm_compute. split; congruence.
  - lia.
Qed.

(** A message the validator can turn into a table row. *)
Definition readable (h : api_Heartbeat) : Prop :=
  (∃ name, hb_host h = Ret name) ∧ ∃ m ms, hb_meta h = Ret m ∧ Meta_Index m = Ret ms.

Lemma as_Record_wf b58 r :
  readable (rr_hb r) → (8 ≤ length (rr_seq r))%nat →
  wf_record (as_Record b58 r) (b58 (rr_peer r)) (be_decode (take 8 (rr_seq r))).
Proof.
  intros [[name Hname] (m & ms & Hm & Hms)] Hlen. split.
  - split; [done|]. split; [exists name; cbn; by rewrite Hname|]. exists m, ms. done.
  - cbn. unfold rr_Seq, Uint64. by rewrite (proj2 (Nat.leb_le _ _) Hlen).
Qed.

(** ** Properties *)

(** The TTL of a heartbeat is what was set, in whole milliseconds of 32 bits: a
    duration of whole milliseconds below 2^32 ms is read back unchanged, a sub-millisecond
    remainder is dropped, and a value that becomes zero (less than a millisecond, or a
    multiple of 2^32 ms) is read as the default of ten seconds.  It is always positive. *)
Theorem heartbeat_ttl_roundtrip (h : api_Heartbeat) (d : Z) :
  Heartbeat_TTL (SetTTL h d) =
    (let ms := Z.quot d Millisecond `mod` 2 ^ 32 in
     if ms =? 0 then 10 * Second else ms * Millisecond) ∧
  0 < Heartbeat_TTL (SetTTL h d) ∧
  (0 < d < 2 ^ 32 * Millisecond → (Millisecond | d) → Heartbeat_TTL (SetTTL h d) = d).
Proof.
  assert (Heartbeat_TTL (SetTTL h d) =
    let ms := Z.quot d Millisecond `mod` 2 ^ 32 in
    if ms =? 0 then 10 * Second else ms * Millisecond) as Heq.
  { unfold Heartbeat_TTL, SetTTL. cbn [hb_ttl]. unfold wrap_u. cbv zeta.
    pose proof (Z.mod_pos_bound (Z.quot d Millisecond) (2 ^ 32) ltac:(lia)) as Hr.
    set (ms := Z.quot d Millisecond `mod` 2 ^ 32) in *.
    rewrite wrap_i_small by (unfold in_i, Millisecond; lia).
    unfold Millisecond at 1. destruct (Z.eqb_spec (1000000 * ms) 0), (Z.eqb_spec ms 0);
      first [reflexivity | unfold Millisecond; lia]. }
  split; [done|]. split; rewrite Heq; cbv zeta.
  - pose proof (Z.mod_pos_bound (Z.quot d Millisecond) (2 ^ 32) ltac:(lia)).
    destruct (Z.eqb_spec (Z.quot d Millisecond `mod` 2 ^ 32) 0);
      unfold Second, Millisecond in *; lia.
  - intros Hd [z ->]. rewrite Z.quot_mul by (unfold Millisecond; lia).
    rewrite Z.mod_small by (unfold Millisecond in Hd; lia).
    destruct (Z.eqb_spec z 0); [unfold Millisecond in Hd; lia|done].
Qed.

Lemma heartbeat_ttl_roundtrip_witness :
  Heartbeat_TTL (SetTTL NewHeartbeat (10 * Millisecond)) = 10 * Millisecond.
Proof.
  apply (proj2 (proj2 (heartbeat_ttl_roundtrip NewHeartbeat (10 * Millisecond)))).
  - split; vm_compute; congruence.
  - exists 10. reflexivity.
Defined.

Section validator.
Context (pool : nat → bytes) (b58 : bytes → bytes).
Context {msg : Type} (unmarshal : bytes → rres msg) (read_root : msg → rres api_Heartbeat).
Context {D : Type} `{!Memdb rerror any (list IndexSchema) D}.
Context (row : D → bytes → option any) (scan : D → list (bytes * any)).

(** C8. The validator classifies every well-formed message without failing: it accepts a
    message exactly when the routing table accepts its record (unknown peer, newer
    sequence number of the same instance, or smaller one of another instance) and then
    the record is in the table; it ignores the message, leaving the table alone, when the
    table has a preferable record; a message that does not decode is rejected and changes
    nothing. *)
Theorem validator_classifies (table : Table D) (m : gmap bytes Routing.record)
    (pm : Message) :
  PoolSpec pool → MemdbLaws pool b58 row scan → Represents row table m →
  match record unmarshal read_root pm with
  | Ret r =>
      readable (rr_hb r) → (8 ≤ length (Seqno pm))%nat →
      let rec := as_Record b58 r in let k := b58 (From pm) in
      let s := be_decode (take 8 (Seqno pm)) in
      ∃ res table', NewValidator b58 unmarshal read_root table pm = Ret (res, table') ∧
        (res = ValidationAccept ∧ accepts m rec k s ∧
           Represents row table' (<[k := mkrecord rec (clock table + TTL rec)]> m) ∨
         res = ValidationIgnore ∧ ¬ accepts m rec k s ∧ Represents row table' m)
  | Fail _ => NewValidator b58 unmarshal read_root table pm = Ret (ValidationReject, table)
  | Panic => NewValidator b58 unmarshal read_root table pm = Panic
  end.
Proof.
  intros Hpool Hlaws Hrep. unfold NewValidator.
  destruct (record unmarshal read_root pm) as [r|e|] eqn:Hrec; [|done|done].
  intros Hread Hlen.
  assert (rr_peer r = From pm ∧ rr_seq r = Seqno pm) as [Hp Hs].
  { unfold record in Hrec. apply bind_Ret_inv in Hrec as (c & _ & Hrec).
    apply bind_Ret_inv in Hrec as (hb & _ & [= <-]). done. }
  rewrite <-Hs, <-Hp in *. cbv zeta.
  destruct (Upsert_represents pool b58 row scan table m _ _ _ Hrep
    (as_Record_wf b58 r Hread Hlen)) as (acc & table' & Hu & _ & Hacc & Hrep').
  unfold rt_Upsert, table_routing. rewrite Hu. cbn [bind fst snd]. destruct acc.
  - exists ValidationAccept, table'. split; [done|]. left. naive_solver.
  - exists ValidationIgnore, table'. split; [done|]. right. split; [done|].
    split; [|done]. intros Ha. by apply Hacc in Ha.
Qed.

(** Two kinds of message crash the receiver instead of being rejected: one whose
    sequence number has fewer than eight bytes, from a peer that is already in the table,
    and one from an unknown peer whose host or metadata cannot be read. *)
Theorem validator_panics (table : Table D) (m : gmap bytes Routing.record)
    (pm : Message) (r : routingRecord) :
  PoolSpec pool → MemdbLaws pool b58 row scan → Represents row table m →
  record unmarshal read_root pm = Ret r →
  (m !! b58 (rr_peer r) ≠ None → (length (rr_seq r) < 8)%nat →
   NewValidator b58 unmarshal read_root table pm = Panic) ∧
  (m !! b58 (rr_peer r) = None → ¬ readable (rr_hb r) →
   NewValidator b58 unmarshal read_root table pm = Panic).
Proof.
  intros Hpool Hlaws Hrep Hrec.
  assert (∀ table', Upsert table (as_Record b58 r) = Panic →
    table' = table → NewValidator b58 unmarshal read_root table' pm = Panic) as Hv.
  { intros ? Hu ->. unfold NewValidator. rewrite Hrec. unfold rt_Upsert, table_routing.
    by rewrite Hu. }
  assert (∀ k, k = b58 (rr_peer r) →
    idIndexer_FromArgs b58 [AnyRecord (as_Record b58 r)] = Ret k) as Hid by by intros ? ->.
  destruct (upsert_errors pool b58 row scan table m (as_Record b58 r) Hpool Hlaws Hrep)
    as (He1 & He2 & _).
  split.
  - intros Hm Hlen. apply Hv; [|done].
    destruct (m !! b58 (rr_peer r)) as [old|] eqn:Hold; [|done].
    apply (He2 _ old (Hid _ eq_refl) Hold). cbn. unfold rr_Seq, Uint64.
    by rewrite (proj2 (Nat.leb_gt _ _) Hlen).
  - intros Hm Hread. apply Hv; [|done]. apply (He1 _ (Hid _ eq_refl) Hm).
    intros k' (_ & [h Hh] & (mm & ms & Hmm & Hms)). apply Hread. cbn in Hh, Hmm.
    injection Hh as Hh. split; [by exists h|by exists mm, ms].
Qed.
End validator.

(** ** Witnesses *)
Section witnesses.
Import concrete.

Definition toy_unmarshal (b : bytes) : rres bytes := Ret b.

Definition toy_read (b : bytes) : rres api_Heartbeat :=
  if bytes_eqb b (bs "ok") then Ret (mkHeartbeat 50 7 (Ret (bs "h")) (Ret [Ret (bs "a=b")]))
  else if bytes_eqb b (bs "bad") then Ret (mkHeartbeat 50 7 (Fail (ErrExt 0)) (Ret []))
  else Fail (ErrExt 1).

Lemma validator_classifies_witness :
  ∃ table', NewValidator concrete.b58 toy_unmarshal toy_read table1
    (mkMessage (bs "q") [0; 0; 0; 0; 0; 0; 0; 9] (bs "ok")) = Ret (ValidationAccept, table').
Proof.
  destruct (validator_classifies pool0 concrete.b58 toy_unmarshal toy_read row m_scan table1 _
    (mkMessage (bs "q") [0; 0; 0; 0; 0; 0; 0; 9] (bs "ok"))
    pool0_spec laws table1_represents) as (res & table' & Hv & [(Hres & _)|(_ & Hna & _)]).
  - split; [by eexists|]. by eexists [Ret (bs "a=b")], [bs "a=b"].
  - cbn. lia.
  - exists table'. rewrite Hv, Hres. reflexivity.
  - exfalso. apply Hna. unfold accepts. by rewrite lookup_singleton_ne.
Defined.

Lemma validator_panics_witness :
  NewValidator concrete.b58 toy_unmarshal toy_read table1 (mkMessage (bs "p") [1] (bs "ok"))
    = Panic ∧
  NewValidator concrete.b58 toy_unmarshal toy_read table1
    (mkMessage (bs "q") [0; 0; 0; 0; 0; 0; 0; 1] (bs "bad")) = Panic.
Proof.
  split.
  - refine (proj1 (validator_panics pool0 concrete.b58 toy_unmarshal toy_read row m_scan table1 _
      (mkMessage (bs "p") [1] (bs "ok")) _ pool0_spec laws table1_represents _) _ _).
    + reflexivity.
    + cbn [rr_peer From]. unfold concrete.b58. by rewrite lookup_singleton_eq.
    + cbn. lia.
  - refine (proj2 (validator_panics pool0 concrete.b58 toy_unmarshal toy_read row m_scan table1 _
      (mkMessage (bs "q") [0; 0; 0; 0; 0; 0; 0; 1] (bs "bad")) _ pool0_spec laws
      table1_represents _) _ _).
    + reflexivity.
    + cbn [rr_peer From]. unfold concrete.b58. by rewrite lookup_singleton_ne.
    + intros [[name Hn] _]. discriminate Hn.
Defined.
End witnesses.
