(* ===== verification/ClusterView.v ===== *)
(** * The cluster view over RPC
    ([src/pkg/cluster/server.go], [client.go], [view.go], [query.go])

    A client describes a query as Cap'n Proto structs ([bindIndex] and its cases), the
    server turns them back into a [query.Selector] over a snapshot of its routing table
    and copies the selected records into the reply ([copyRecord]), and the client wraps
    each received struct as a routing record ([newRecord]).  The iterator of the client is
    fed by the server's streaming calls through two channels; that protocol is the
    transition system [hstep] at the end.

    Structs are records and unions inductive types; the guarded accessors
    of a union panic when another member is set, as in the generated code.  [put] says whether storing a text in a
    message succeeds (it fails when the message cannot grow). *)

From stdpp Require Import base list gmap strings sorting.
From Stdlib Require Import ZArith Lia.
From S2P Require Import Prelude Stm Routing RoutingTable RoutingProps Query Pulse.

Open Scope Z_scope.

(** ** Structs *)
Inductive Index_Which := Which_peer (s : bytes) | Which_server (b : bytes)
                       | Which_host (s : bytes) | Which_meta (s : bytes).

Record View_Index := mkVIndex { vi_which : Index_Which; vi_prefix : bool }.

Inductive View_Selector :=
| Selector_all
| Selector_match (ix : rres View_Index)
| Selector_from (ix : rres View_Index)
| Selector_other.

Record View_Record := mkVRecord {
  vr_peer : rres bytes; vr_seq : Z; vr_heartbeat : rres api_Heartbeat }.

(** ** Describing a query ([query.go], [view.go]) *)

(** A client-side index with the accessors [bindIndex] looks for. *)
Record CIndex := mkCIndex {
  cix : IndexI;
  cix_Peer : option bytes;
  cix_Server : option Z;
  cix_Host : option (rres bytes);
  cix_MetaField : option (rres MetaField) }.

Section bind_index.
Context (pool : nat → bytes) (b58 : bytes → bytes) (put : bytes → rres unit).

Definition set_which (w : Index_Which) (text : bytes) (prefix : bool) : rres View_Index :=
  _ <~ put text ;; Ret (mkVIndex w prefix).

(** [peer.ID.String()] is the base58 form. *)
Definition bindPeer (prefix : bool) (index : CIndex) : rres View_Index :=
  match ix_PeerBytes (cix index) with
  | Some c => b <~ c ;; set_which (Which_peer b) b prefix
  | None => match cix_Peer index with
            | Some id => set_which (Which_peer (b58 id)) (b58 id) prefix
            | None => Fail ErrNotIndex
            end
  end.

Definition bindServer (prefix : bool) (index : CIndex) : rres View_Index :=
  match ix_ServerBytes (cix index) with
  | Some c => b <~ c ;; set_which (Which_server b) b prefix
  | None => match cix_Server index with
            | Some id => b <~ MarshalText pool id ;; set_which (Which_server b) b prefix
            | None => Fail ErrNotIndex
            end
  end.

Definition bindHost (prefix : bool) (index : CIndex) : rres View_Index :=
  match ix_HostBytes (cix index) with
  | Some c => b <~ c ;; set_which (Which_host b) b prefix
  | None => match cix_Host index with
            | Some c => b <~ c ;; set_which (Which_host b) b prefix
            | None => Fail ErrNotIndex
            end
  end.

Definition bindMeta (prefix : bool) (index : CIndex) : rres View_Index :=
  match ix_MetaBytes (cix index) with
  | Some c => b <~ c ;; set_which (Which_meta b) b prefix
  | None => match cix_MetaField index with
            | Some c => f <~ c ;;
                set_which (Which_meta (MetaField_String f)) (MetaField_String f) prefix
            | None => Fail ErrNotIndex
            end
  end.

(** [fn] is the allocation of the target struct. *)
Definition bindIndex (fn : rres unit) (index : CIndex) : rres View_Index :=
  _ <~ fn ;;
  let prefix := ix_Prefix (cix index) in
  let s := ix_String (cix index) in
  if bytes_eqb s (bs "id") || bytes_eqb s (bs "peer") then bindPeer prefix index
  else if bytes_eqb s (bs "server") then bindServer prefix index
  else if bytes_eqb s (bs "host") then bindHost prefix index
  else if bytes_eqb s (bs "meta") then bindMeta prefix index
  else Fail ErrInvalidIndex.

(** The client's selectors: [SelectorStruct → error]. *)
Abbreviation CSelector := (rres View_Selector).

Definition CAll : CSelector := Ret Selector_all.
Definition CMatch (fn : rres unit) (index : CIndex) : CSelector :=
  t <~ bindIndex fn index ;; Ret (Selector_match (Ret t)).
Definition CFrom (fn : rres unit) (index : CIndex) : CSelector :=
  t <~ bindIndex fn index ;; Ret (Selector_from (Ret t)).
End bind_index.

(** ** Query parameters ([view.go]) *)
Record QueryParams := mkParams { qp_selector : View_Selector; qp_constraints : list bool }.

Section new_query.
Context (new_selector : rres unit) (new_constraints : nat → rres unit).

Definition bindSelector (s : rres View_Selector) : rres View_Selector :=
  _ <~ new_selector ;; s.

(** Each constraint writes its own struct of the list; the first error stops the loop. *)
Fixpoint bindConstraints_loop (cs : list (rres unit)) : rres (list bool) :=
  match cs with
  | [] => Ret []
  | c :: cs' => _ <~ c ;; l <~ bindConstraints_loop cs' ;; Ret (true :: l)
  end.

Definition bindConstraints (cs : list (rres unit)) : rres (list bool) :=
  _ <~ new_constraints (length cs) ;; bindConstraints_loop cs.

Definition NewQuery (s : rres View_Selector) (cs : list (rres unit)) : rres QueryParams :=
  sel <~ bindSelector s ;; c <~ bindConstraints cs ;; Ret (mkParams sel c).
End new_query.

(** ** The server's selector ([server.go]) *)

(** [index]: the struct as a routing index.  It has the byte accessors of all four indexes.
    The generated [PeerBytes], [HostBytes] and [MetaBytes] read the text of the union's
    pointer whichever member is set; [ServerBytes] is the generated [Server], which panics
    unless that member is set.  Read as a text, data has to end with a zero byte. *)
Definition data_as_text (b : bytes) : bytes :=
  match last b with Some z => if z =? 0 then removelast b else [] | None => [] end.

Definition which_text (w : Index_Which) : bytes :=
  match w with
  | Which_peer s | Which_host s | Which_meta s => s
  | Which_server b => data_as_text b
  end.

Definition index_String (ix : View_Index) : bytes :=
  match vi_which ix with
  | Which_peer _ => bs "id"
  | Which_server _ => bs "server"
  | Which_host _ => bs "host"
  | Which_meta _ => bs "meta"
  end.

Definition index_ (ix : View_Index) : IndexI :=
  mkIndexI (index_String ix) (vi_prefix ix)
    (Some (Ret (which_text (vi_which ix))))
    (Some (match vi_which ix with Which_server s => Ret s | _ => Panic end))
    (Some (Ret (which_text (vi_which ix))))
    (Some (Ret (which_text (vi_which ix)))).

Definition selector (s : View_Selector) : Selector :=
  match s with
  | Selector_all => All
  | Selector_match m =>
      match m with
      | Ret ix => Select (index_ ix)
      | Fail e => Failure e
      | Panic => λ _ _, Panic
      end
  | Selector_from f =>
      match f with
      | Ret ix => From_ (index_ ix)
      | Fail e => Failure e
      | Panic => λ _ _, Panic
      end
  | Selector_other => Failure (ErrExt 5)
  end.

(** ** Copying a record into a reply

    [put] is the result of writing a text into the reply's message, [new] that of allocating
    a struct there or of copying a list into it. *)
Section copy.
Context (put : bytes → rres unit) (new : rres unit).

Definition copyHost (hb : api_Heartbeat) (r : RecordI) : rres api_Heartbeat :=
  name <~ Host r ;; _ <~ put name ;; Ret (SetHost hb name).

Definition copyMeta (hb : api_Heartbeat) (r : RecordI) : rres api_Heartbeat :=
  meta <~ RMeta r ;;
  _ <~ new ;;
  Ret (mkHeartbeat (hb_ttl hb) (hb_server hb) (hb_host hb) (Ret meta)).

(** [binder] is the result of [BindRecord] when the record has that method; the rows of
    the routing table do not have it. *)
Definition copyRecord (binder : option (rres View_Record)) (r : RecordI) : rres View_Record :=
  match binder with
  | Some b => b
  | None =>
      _ <~ put (Peer r) ;;
      _ <~ new ;;
      seq <~ Seq r ;;
      let hb := SetServer (SetTTL NewHeartbeat (TTL r)) (Server r) in
      hb1 <~ copyHost hb r ;;
      hb2 <~ copyMeta hb1 r ;;
      Ret (mkVRecord (Ret (Peer r)) seq (Ret hb2))
  end.

(** [Server.bind]: calls [bind] on each record until one fails. *)
Fixpoint bind_loop {S} (f : S → RecordI → rres S) (fuel : nat) (it : Iter) (h : heap) (s : S)
    : rres S :=
  match fuel with
  | O => Fail OutOfFuel
  | S fuel' =>
      p <~ next fuel it h ;;
      match fst p with
      | None => Ret s
      | Some r => s' <~ f s r ;; bind_loop f fuel' it (snd p) s'
      end
  end.

Definition Server_bind {S} (f : S → RecordI → rres S) (fuel : nat) (snap : Snapshot)
    (sel : Selector) (h : heap) (s : S) : rres S :=
  p <~ sel snap h ;; bind_loop f fuel (fst p) (snd p) s.

(** [maybe] and [maybeRecord]: the result of the call is overwritten by each record. *)
Definition maybeRecord (res : option View_Record) (r : RecordI) : rres (option View_Record) :=
  _ <~ new ;; v <~ copyRecord None r ;; Ret (Some v).

Definition Server_Lookup (fuel : nat) (snap : Snapshot) (sel : rres View_Selector)
    : rres (option View_Record) :=
  s <~ sel ;;
  let c := Query.First [] in
  Server_bind maybeRecord fuel snap (Selector_Bind (selector s) (fst c)) (snd c) None.

(** [iterator] streams the record and reports no error itself; a record that cannot be
    copied fails its call, and the stream with it. *)
Definition iterator_send (sent : list View_Record) (r : RecordI) : rres (list View_Record) :=
  _ <~ new ;; v <~ copyRecord None r ;; Ret (sent ++ [v]).

Definition Server_Iter (fuel : nat) (snap : Snapshot) (sel : rres View_Selector)
    : rres (list View_Record) :=
  s <~ sel ;; Server_bind iterator_send fuel snap (selector s) [] [].

Definition Server_Reverse : rres unit := Fail (ErrExt 6).  (* "NOT IMPLEMENTED" *)
End copy.

(** ** Records received by the client ([client.go]) *)
Definition cr_heartbeat (r : View_Record) : api_Heartbeat :=
  match vr_heartbeat r with Ret hb => hb | _ => NewHeartbeat end.

Definition cr_Peer (r : View_Record) : bytes :=
  match vr_peer r with Ret p => p | _ => [] end.

(** [clientRecord] as a routing record. *)
Definition clientRecord (r : View_Record) : RecordI :=
  let hb := cr_heartbeat r in
  mkRecordI (Heartbeat_Server hb) (cr_Peer r) (Ret (vr_seq r)) (Heartbeat_TTL hb)
    (hb_host hb) (Heartbeat_Meta hb) (Some (vr_peer r)) None (Some (hb_host hb)).

Definition newRecord (r : View_Record) : rres RecordI :=
  hb <~ vr_heartbeat r ;;
  _ <~ hb_meta hb ;;
  _ <~ hb_host hb ;;
  _ <~ vr_peer r ;;
  Ret (clientRecord r).

Definition cr_BindRecord (put : bytes → rres unit) (r : View_Record) : rres View_Record :=
  _ <~ put (cr_Peer r) ;; Ret (mkVRecord (Ret (cr_Peer r)) (vr_seq r) (Ret (cr_heartbeat r))).

(** The same method of the records a validator makes ([pulse.go]). *)
Definition rr_BindRecord (put : bytes → rres unit) (r : routingRecord) : rres View_Record :=
  _ <~ put (rr_peer r) ;;
  seq <~ rr_Seq r ;;
  Ret (mkVRecord (Ret (rr_peer r)) seq (Ret (rr_hb r))).

(** [FutureRecord.Record]: a result without a record is nil. *)
Definition FutureRecord_Record (res : rres (option View_Record)) : rres (option RecordI) :=
  m <~ res ;;
  match m with
  | None => Ret None
  | Some v => r <~ newRecord v ;; Ret (Some r)
  end.

(** [Await]: whichever of the two happens first. *)
Inductive await_event := Done (res : rres (option View_Record)) | CtxDone (e : rerror).

Definition FutureRecord_Await (ev : await_event) : rres (option RecordI) :=
  match ev with
  | Done res => FutureRecord_Record res
  | CtxDone e => Fail e
  end.

(** ** Facts *)
Definition which_bytes (t : View_Index) : bytes :=
  match vi_which t with
  | Which_peer s | Which_server s | Which_host s | Which_meta s => s
  end.

Definition which_indexer (t : View_Index) : indexer :=
  match vi_which t with
  | Which_peer _ => idIndexer
  | Which_server _ => serverIndexer
  | Which_host _ => hostnameIndexer
  | Which_meta _ => metaIndexer
  end.

Lemma index_FromArgs pool b58 t :
  FromArgs pool b58 (which_indexer t) [AnyIndex (index_ t)] = Ret (which_bytes t).
Proof. by destruct t as [[]]. Qed.

Lemma set_which_inv put w text prefix t :
  set_which put w text prefix = Ret t → t = mkVIndex w prefix.
Proof. unfold set_which. intros (? & _ & [= <-])%bind_Ret_inv. done. Qed.

(** What a client record shows of the record the server copied. *)
Record same_record (r c : RecordI) : Prop := {
  same_peer : Peer c = Peer r;
  same_server : Server c = u64 (Server r);
  same_seq : Seq c = Seq r;
  same_host : Host c = Host r;
  same_meta : RMeta c = RMeta r;
  same_ttl : TTL c = Heartbeat_TTL (SetTTL NewHeartbeat (TTL r)) }.

Lemma copyRecord_client put new r v :
  copyRecord put new None r = Ret v → ∃ c, newRecord v = Ret c ∧ same_record r c.
Proof.
  unfold copyRecord, copyHost, copyMeta.
  intros (? & _ & Hc)%bind_Ret_inv. apply bind_Ret_inv in Hc as (? & _ & Hc).
  apply bind_Ret_inv in Hc as (seq & Hseq & Hc).
  apply bind_Ret_inv in Hc as (hb1 & Hh & Hc).
  apply bind_Ret_inv in Hh as (name & Hname & Hh).
  apply bind_Ret_inv in Hh as (? & _ & [= <-]).
  apply bind_Ret_inv in Hc as (hb2 & Hm & [= <-]).
  apply bind_Ret_inv in Hm as (meta & Hmeta & Hm). apply bind_Ret_inv in Hm as (? & _ & [= <-]).
  eexists. split; [done|]. by split.
Qed.

Lemma copyRecord_total put r s name meta :
  (∀ b, put b = Ret tt) → Seq r = Ret s → Host r = Ret name → RMeta r = Ret meta →
  ∃ v, copyRecord put (Ret tt) None r = Ret v.
Proof.
  intros Hput Hs Hn Hm. unfold copyRecord, copyHost, copyMeta.
  rewrite Hput. cbn [bind]. rewrite Hs. cbn [bind]. rewrite Hn. cbn [bind]. rewrite Hput.
  cbn [bind]. rewrite Hm. by eexists.
Qed.

Section bind_facts.
Context {S : Type} (f : S → RecordI → rres S).

(** [Server.bind] folds its function over the records of the iterator. *)
Lemma bind_loop_rep fuel it h l n s :
  rep h it l n → (n < fuel)%nat →
  bind_loop f fuel it h s =
    foldl (λ acc r, s' <~ acc ;; f s' r) (Ret s) l.
Proof.
  revert h l n s. induction fuel as [|fuel IH]; intros h l n s Hrep Hn; [lia|].
  destruct (next_rep (Datatypes.S fuel) _ _ _ _ Hrep Hn) as (h' & n' & Hnext & Hrep' & _ & Hlt & _).
  cbn [bind_loop]. rewrite Hnext. cbn [bind fst snd].
  destruct l as [|r l]; cbn [head foldl bind]; [done|].
  destruct (f s r) as [s'| |] eqn:Hf; cbn [bind].
  - apply (IH h' l n' s' Hrep'). specialize (Hlt ltac:(done)). lia.
  - clear. induction l; [done|]. by cbn.
  - clear. induction l; [done|]. by cbn.
Qed.
End bind_facts.

Lemma stream_fold put new rs (sent : list View_Record) vs :
  omapM (copyRecord put new None) rs = Ret vs → new = Ret tt →
  foldl (λ acc r, s' <~ acc ;; iterator_send put new s' r) (Ret sent) rs = Ret (sent ++ vs).
Proof.
  intros Hm ->. revert sent vs Hm. induction rs as [|r rs IH]; intros sent vs Hm;
    cbn [omapM foldl] in *.
  - injection Hm as <-. by rewrite app_nil_r.
  - apply bind_Ret_inv in Hm as (v & Hv & Hm). apply bind_Ret_inv in Hm as (vs' & Hvs & [= <-]).
    cbn [bind]. assert (iterator_send put (Ret tt) sent r = Ret (sent ++ [v])) as ->
      by (unfold iterator_send; cbn [bind]; by rewrite Hv).
    rewrite (IH _ vs' Hvs). by rewrite <-app_assoc.
Qed.

(** ** The table behind the server *)
Section server.
Context (pool : nat → bytes) (b58 : bytes → bytes).
Context {D : Type} `{!Memdb rerror any (list IndexSchema) D}.
Context (row : D → bytes → option any) (scan : D → list (bytes * any)).

(** [Server.RoutingTable.Snapshot()]. *)
Definition table_snapshot (table : Table D) : Snapshot :=
  let q := Table_Snapshot table in
  mkSnapshot (query_Get q) (query_GetReverse q) (query_LowerBound q) (query_ReverseLowerBound q).

(** The rows of a table in the order of their keys. *)
Record rows_in_order (m : gmap bytes Routing.record) (l : list (bytes * Routing.record))
    : Prop := {
  rio_rows k r : (k, r) ∈ l ↔ m !! k = Some r;
  rio_sorted : StronglySorted (λ a b, bytes_ltb a.1 b.1 = true) l }.

Definition rec_of (l : list (bytes * Routing.record)) : list RecordI :=
  (λ kr, rec_Record kr.2) <$> l.

Context `{PoolSpec pool} `{!MemdbLaws pool b58 row scan}.

Lemma scan_rows_in_order table m :
  Represents row table m →
  ∃ l, rows_in_order m l ∧ scan (sdb (sched table)) = (λ kr, (kr.1, Any_record kr.2)) <$> l.
Proof.
  intros Hrep. pose proof (rep_rows _ _ _ Hrep) as Hrows. generalize dependent (sdb (sched table)).
  intros d Hrows.
  assert (Forall (λ kv, ∃ r, kv.2 = Any_record r) (scan d)) as Hall.
  { rewrite Forall_forall. intros [k v] Hkv.
    apply (scan_rows pool b58 (row := row)) in Hkv. rewrite (Hrows k) in Hkv.
    apply fmap_Some in Hkv as (r & _ & ->). by exists r. }
  assert (∃ l, scan d = (λ kr, (kr.1, Any_record kr.2)) <$> l) as [l Hl].
  { revert Hall. generalize (scan d) as sl. induction sl as [|[k v] sl IH]; intros Hall.
    - by exists [].
    - apply Forall_cons in Hall as [[r Hr] Hall]. destruct (IH Hall) as [l ->].
      exists ((k, r) :: l). cbn in *. by subst v. }
  exists l. split; [|done]. split.
  - intros k r. pose proof (scan_rows pool b58 (row := row) (scan := scan) d k (Any_record r)) as Hs.
    rewrite (Hrows k), Hl in Hs. split; intros Hin.
    + assert ((k, Any_record r) ∈ (λ kr, (kr.1, Any_record kr.2)) <$> l) as Hin'
        by (apply list_elem_of_fmap; by exists (k, r)).
      apply Hs in Hin'. by apply fmap_Some in Hin' as (r' & ? & [= ->]).
    + rewrite Hin in Hs. apply proj2 in Hs. specialize (Hs eq_refl).
      apply list_elem_of_fmap in Hs as ([k' r'] & [= -> ->] & ?). done.
  - pose proof (scan_sorted pool b58 (row := row) (scan := scan) d) as Hs. rewrite Hl in Hs.
    clear -Hs. induction l as [|a l IH]; [constructor|]. inversion Hs as [|? ? Hs' Hf]; subst.
    constructor; [by apply IH|]. by rewrite Forall_fmap in Hf.
Qed.

(** The records [All] selects: every row, in order; backwards on a reversed snapshot. *)
Lemma all_selects table m l :
  Represents row table m →
  rows_in_order m l → scan (sdb (sched table)) = (λ kr, (kr.1, Any_record kr.2)) <$> l →
  snap_Get (table_snapshot table) all = Ret (rec_of l) ∧
  snap_GetReverse (table_snapshot table) all = Ret (rev (rec_of l)).
Proof.
  intros Hrep _ Hscan.
  assert (idIndexer_FromArgs b58 [AnyIndex all] = Ret []) as Hp by done.
  destruct (get_id_prefix pool b58 (row := row) (scan := scan) (sdb (sched table)) _ _ Hp) as [Hg Hgr].
  rewrite filter_all in Hg, Hgr by done.
  assert (∀ l : list (bytes * Routing.record),
    omapM (E := rerror) (λ v, match to_Record v with Some r => Ret r | None => Panic end)
      ((λ kr, Any_record kr.2) <$> l) = Ret (rec_of l)) as Hmap.
  { clear. intros l. induction l as [|kr l IH]; [done|]. cbn in *. by rewrite IH. }
  assert (snd <$> scan (sdb (sched table)) = (λ kr, Any_record kr.2) <$> l) as Hsnd.
  { rewrite Hscan, <-list_fmap_compose. done. }
  unfold table_snapshot, query_Get, query_GetReverse, iterate, Get, GetReverse, Table_Snapshot.
  cbn [snap_Get snap_GetReverse q_tx q_records txn Scheduler_Txn]. rewrite (rep_ref _ _ _ Hrep).
  cbn [name]. change (index all) with (bs "id_prefix").
  rewrite Hg, Hgr, Hsnd. cbn [bind]. split; [apply Hmap|].
  rewrite <-!map_rev. etrans; [apply (Hmap (rev l))|]. unfold rec_of.
  f_equal. apply map_rev.
Qed.
End server.

(** ** The iterator's channels ([client.go], [handler])

    The consumer's [Next] signals on [sync] (a channel of capacity one) and then receives
    from [send] (unbuffered); each streaming call [Recv] of the server waits for the first
    signal once ([init]), sends its record, and returns when the consumer signals again.
    A record's memory is released when its [Recv] returns.  [Shutdown] closes [send] after
    the last call. *)
Section handler.
Context {R : Type}.

Inductive producer := PIdle | PInit (r : R) | PSend (r : R) | PWait (r : R).
Inductive consumer := COut (held : option R) | CPush | CRecv.

Record hstate := mkH {
  h_init : bool; h_sync : bool; h_closed : bool;
  h_prod : producer; h_cons : consumer;
  h_input : list R;        (* records the server has yet to send *)
  h_delivered : list R }.  (* records returned by [Next] *)

Definition h0 (l : list R) : hstate := mkH false false false PIdle (COut None) l [].

(** [n_call] is the consumer entering [Next]; every other step is a channel operation or
    the server's next call. *)
Inductive hstep : bool → hstate → hstate → Prop :=
| n_call i s c p o l d :
    hstep true (mkH i s c p (COut o) l d) (mkH i s c p CPush l d)
| n_push i c p l d :
    hstep false (mkH i false c p CPush l d) (mkH i true c p CRecv l d)
| n_closed i s p l d :
    hstep false (mkH i s true p CRecv l d) (mkH i s true p (COut None) l d)
| r_call_first s co r l d :
    hstep false (mkH false s false PIdle co (r :: l) d) (mkH false s false (PInit r) co l d)
| r_call s co r l d :
    hstep false (mkH true s false PIdle co (r :: l) d) (mkH true s false (PSend r) co l d)
| r_init i c co r l d :
    hstep false (mkH i true c (PInit r) co l d) (mkH true false c (PSend r) co l d)
| r_send i s c r l d :
    hstep false (mkH i s c (PSend r) CRecv l d) (mkH i s c (PWait r) (COut (Some r)) l (d ++ [r]))
| r_sync i c co r l d :
    hstep false (mkH i true c (PWait r) co l d) (mkH i false c PIdle co l d)
| r_shutdown i s co d :
    hstep false (mkH i s false PIdle co [] d) (mkH i s true PIdle co [] d).

Definition any_step (s s' : hstate) : Prop := ∃ b, hstep b s s'.

Definition undelivered (s : hstate) : list R :=
  match h_prod s with PInit r | PSend r => [r] | _ => [] end ++ h_input s.

(** The consistent combinations of the two sides while the stream is open. *)
Definition in_phase (s : hstate) : Prop :=
  match h_prod s with
  | PWait r => h_init s = true ∧
      match h_cons s with
      | COut o => o = Some r ∧ h_sync s = false
      | CPush => h_sync s = false
      | CRecv => h_sync s = true
      end
  | PSend _ => h_init s = true ∧ h_sync s = false ∧ h_cons s = CRecv
  | PInit _ => h_init s = false ∧
      match h_cons s with
      | COut o => o = None ∧ h_sync s = false
      | CPush => h_sync s = false
      | CRecv => h_sync s = true
      end
  | PIdle =>
      if h_init s then h_sync s = false ∧ h_cons s = CRecv
      else match h_cons s with
           | COut o => o = None ∧ h_sync s = false
           | CPush => h_sync s = false
           | CRecv => h_sync s = true
           end
  end.

Definition hinv (all : list R) (s : hstate) : Prop :=
  h_delivered s ++ undelivered s = all ∧
  if h_closed s
  then h_prod s = PIdle ∧ h_input s = [] ∧ ∀ r, h_cons s ≠ COut (Some r)
  else in_phase s.

Lemma hinv_init l : hinv l (h0 l).
Proof. by repeat split. Qed.

Lemma hinv_step all b s s' : hinv all s → hstep b s s' → hinv all s'.
Proof.
  intros [Hall Hph] Hstep. unfold hinv, undelivered, in_phase in *.
  destruct Hstep; cbn in *;
    repeat match goal with
      | _ : context [if ?c then _ else _] |- _ => is_var c; destruct c; cbn in *
      | p : producer |- _ => destruct p; cbn in *
      end; destruct_and?; subst; cbn in *; rewrite ?app_nil_r in *;
    try (by repeat split); try (by split; [by rewrite <-app_assoc|repeat split]).
  all: try (destruct co; cbn in *; destruct_and?; simplify_eq; by repeat split).
Qed.

Lemma hinv_steps all s s' : hinv all s → rtc any_step s s' → hinv all s'.
Proof. intros Hi Hs. induction Hs as [|x y z [b Hxy] _ IH]; eauto using hinv_step. Qed.

(** A bound on the steps before the consumer must call [Next] again. *)
Definition hmeasure (s : hstate) : nat :=
  (4 * length (h_input s) +
   match h_prod s with PIdle => 0 | PInit _ => 3 | PSend _ => 2 | PWait _ => 1 end +
   match h_cons s with COut _ => 0 | CPush => 2 | CRecv => 1 end +
   if h_closed s then 0 else 1)%nat.

Lemma hmeasure_step s s' : hstep false s s' → (hmeasure s' < hmeasure s)%nat.
Proof.
  inversion 1; subst; unfold hmeasure; cbn; try lia; destruct c; lia.
Qed.

(** As long as the stream is open, a consumer inside [Next] is never stuck. *)
Lemma h_progress all s :
  hinv all s → h_closed s = false → (∀ o, h_cons s ≠ COut o) → ∃ s', hstep false s s'.
Proof.
  destruct s as [i sy c p co l d]. unfold hinv, in_phase. cbn. intros [_ Hph] -> Hco.
  destruct p as [|r|r|r]; destruct co as [o| |];
    try (by destruct (Hco o)); destruct i; destruct_and?; subst; try done;
    destruct l; eexists; constructor.
Qed.
End handler.

(** ** Properties *)

(** C15. The client's iterator delivers the server's records in order and without loss,
    and a record returned by [Next] stays valid until the next call: as long as the
    consumer holds it, the call that carries it has not returned.  A [Next] in progress
    on an open stream always completes (it is never stuck, and every step brings it
    closer to the end), and a closed stream has delivered everything. *)
Theorem iterator_protocol {R} (l : list R) (s : hstate) :
  rtc any_step (h0 l) s →
  (∃ rest, l = h_delivered s ++ rest) ∧
  (∀ r, h_cons s = COut (Some r) → h_prod s = PWait r) ∧
  (h_closed s = true → h_delivered s = l) ∧
  (h_closed s = false → (∀ o, h_cons s ≠ COut o) → ∃ s', hstep false s s') ∧
  (∀ s', hstep false s s' → (hmeasure s' < hmeasure s)%nat).
Proof.
  intros Hs. pose proof (hinv_steps l _ _ (hinv_init l) Hs) as Hinv.
  pose proof Hinv as [Hall Hph]. split; [by eexists|].
  split; [|split; [|split; [by apply (h_progress l)|apply hmeasure_step]]].
  - intros r Hr. destruct (h_closed s); [by destruct Hph as (_ & _ & []%(λ H, H r))|].
    unfold in_phase in Hph. destruct (h_prod s), (h_init s); destruct_and?; rewrite Hr in *;
      naive_solver.
  - intros Hc. rewrite Hc in Hph. destruct Hph as (Hp & Hi & _).
    unfold undelivered in Hall. rewrite Hp, Hi in Hall. by rewrite app_nil_r in Hall.
Qed.

Lemma iterator_protocol_witness :
  ∃ rest, [1; 2] = [1] ++ rest.
Proof.
  refine (proj1 (iterator_protocol [1; 2] (mkH true false false (PWait 1) (COut (Some 1)) [2] [1]) _)).
  eapply rtc_l; [eexists; apply n_call|]. eapply rtc_l; [eexists; apply n_push|].
  eapply rtc_l; [eexists; apply r_call_first|]. eapply rtc_l; [eexists; apply r_init|].
  apply rtc_once. exists false. apply (r_send true false false 1 [2] []).
Defined.

(** Calling [Next] on an exhausted iterator can block forever: on a stream without
    records the first call returns nil, and the second waits on the full signal channel
    that nobody reads. *)
Theorem next_after_end_blocks :
  ∃ s : @hstate Z, rtc any_step (h0 []) s ∧ h_cons s = CPush ∧ ∀ b s', ¬ hstep b s s'.
Proof.
  exists (mkH false true true PIdle CPush [] []). split; [|split; [done|]].
  - eapply rtc_l; [eexists; apply r_shutdown|]. eapply rtc_l; [eexists; apply n_call|].
    eapply rtc_l; [eexists; apply n_push|]. eapply rtc_l; [eexists; apply n_closed|].
    apply rtc_once. eexists. apply n_call.
  - intros b s'. inversion 1.
Qed.

(** An index survives the trip to the server: when the client can describe it, the
    server's index has the same prefix flag, names the same column ("peer" is an alias of
    "id"), and looks up the same bytes in the table's schema. *)
Theorem index_survives_rpc pool b58 put (index : CIndex) (t : View_Index) :
  bindIndex pool b58 put (Ret tt) index = Ret t →
  vi_prefix t = ix_Prefix (cix index) ∧
  (index_String t = ix_String (cix index) ∨
   index_String t = bs "id" ∧ ix_String (cix index) = bs "peer") ∧
  FromArgs pool b58 (which_indexer t) [AnyIndex (index_ t)] = Ret (which_bytes t) ∧
  (∀ b, FromArgs pool b58 (which_indexer t) [AnyIndex (cix index)] = Ret b → b = which_bytes t).
Proof.
  unfold bindIndex. cbn [bind]. cbv zeta. intros Hb.
  rewrite index_FromArgs. destruct (bytes_eqb (ix_String (cix index)) (bs "id")) eqn:Hid;
    [|destruct (bytes_eqb (ix_String (cix index)) (bs "peer")) eqn:Hpeer]; cbn [orb] in Hb.
  3: destruct (bytes_eqb (ix_String (cix index)) (bs "server")) eqn:Hsrv.
  4: destruct (bytes_eqb (ix_String (cix index)) (bs "host")) eqn:Hhost.
  5: destruct (bytes_eqb (ix_String (cix index)) (bs "meta")) eqn:Hmeta; [|done].
  all: unfold bytes_eqb in *; rewrite ?bool_decide_eq_true in *;
    unfold bindPeer, bindServer, bindHost, bindMeta in Hb.
  1-2: destruct (ix_PeerBytes (cix index)) as [c|] eqn:Hix;
    [apply bind_Ret_inv in Hb as (b & Hc & Hb)|destruct (cix_Peer index); [|done]].
  5: destruct (ix_ServerBytes (cix index)) as [c|] eqn:Hix;
    [apply bind_Ret_inv in Hb as (b & Hc & Hb)
    |destruct (cix_Server index); [apply bind_Ret_inv in Hb as (b & Hc & Hb)|done]].
  7: destruct (ix_HostBytes (cix index)) as [c|] eqn:Hix;
    [apply bind_Ret_inv in Hb as (b & Hc & Hb)
    |destruct (cix_Host index); [apply bind_Ret_inv in Hb as (b & Hc & Hb)|done]].
  9: destruct (ix_MetaBytes (cix index)) as [c|] eqn:Hix;
    [apply bind_Ret_inv in Hb as (b & Hc & Hb)
    |destruct (cix_MetaField index); [apply bind_Ret_inv in Hb as (b & Hc & Hb)|done]].
  all: apply set_which_inv in Hb; subst t; (split; [done|]); (split; [by auto|]); (split; [done|]);
    intros b'; cbn; rewrite Hix; simplify_eq; congruence.
Qed.

Lemma index_survives_rpc_witness :
  let c := mkCIndex (mkIndexI (bs "host") true None None (Some (Ret (bs "node"))) None)
             None None None None in
  FromArgs concrete.pool0 concrete.b58 hostnameIndexer
    [AnyIndex (index_ (mkVIndex (Which_host (bs "node")) true))] = Ret (bs "node").
Proof.
  intros c.
  apply (proj1 (proj2 (proj2 (index_survives_rpc concrete.pool0 concrete.b58 (λ _, Ret tt) c
    (mkVIndex (Which_host (bs "node")) true) eq_refl)))).
Defined.

Lemma copy_all put rs :
  Forall (λ r, ∃ v, copyRecord put (Ret tt) None r = Ret v) rs →
  ∃ vs cs, omapM (copyRecord put (Ret tt) None) rs = Ret vs ∧
    omapM newRecord vs = Ret cs ∧ Forall2 same_record rs cs.
Proof.
  induction 1 as [|r rs [v Hv] _ (vs & cs & Hvs & Hcs & IH)].
  - exists [], []. by repeat split.
  - destruct (copyRecord_client _ _ _ _ Hv) as (c & Hc & Hsame).
    exists (v :: vs), (c :: cs). cbn [omapM]. rewrite Hv, Hc. cbn [bind].
    rewrite Hvs, Hcs. split; [done|]. split; [done|]. by constructor.
Qed.

Section server_theorems.
Context (pool : nat → bytes) (b58 : bytes → bytes).
Context {D : Type} `{!Memdb rerror any (list IndexSchema) D}.
Context (row : D → bytes → option any) (scan : D → list (bytes * any)).

(** Selecting all records enumerates the routing table: iterating the snapshot yields
    every row exactly once in the order of the keys, iterating the reversed query yields
    them backwards, and reversing twice gives the original query. *)
Theorem all_enumerates_table (table : Table D) (m : gmap bytes Routing.record) (fuel : nat) :
  PoolSpec pool → MemdbLaws pool b58 row scan → Represents row table m →
  let q := Direct (table_snapshot table) in
  ∃ l, rows_in_order m l ∧ Reverse (Reverse q) = q ∧
    ((length l < fuel)%nat →
     (∃ it h h', Query_Iter q All [] [] = Ret (it, h) ∧ drain fuel it h = Ret (rec_of l, h')) ∧
     ∃ it h h', Query_Iter (Reverse q) All [] [] = Ret (it, h) ∧
                drain fuel it h = Ret (rev (rec_of l), h')).
Proof.
  intros Hpool Hlaws Hrep q. destruct (scan_rows_in_order pool b58 row scan _ _ Hrep) as (l & Hl & Hscan).
  exists l. split; [done|]. split; [done|]. intros Hfuel.
  destruct (all_selects pool b58 row scan _ _ _ Hrep Hl Hscan) as [Hg Hgr].
  assert (length (rec_of l) = length l) as Hlen by apply length_fmap.
  split.
  - destruct (query_rep q All [] (rec_of l)) as (it & h & Hq & Hr);
      [by apply selects_get|constructor|].
    destruct (drain_rep fuel h it _ _ Hr) as [h' Hd]; [lia|]. by exists it, h, h'.
  - destruct (query_rep (Reverse q) All [] (rev (rec_of l))) as (it & h & Hq & Hr);
      [by apply selects_get|constructor|].
    destruct (drain_rep fuel h it _ _ Hr) as [h' Hd]; [rewrite length_rev; lia|]. by exists it, h, h'.
Qed.

Lemma rows_copyable (put : bytes → rres unit) (table : Table D) (m : gmap bytes Routing.record) l :
  (∀ b, put b = Ret tt) → Represents row table m →
  (∀ k r, m !! k = Some r → ∃ name, Host (rec_Record r) = Ret name) → rows_in_order m l →
  Forall (λ r, ∃ v, copyRecord put (Ret tt) None r = Ret v) (rec_of l).
Proof.
  intros Hput Hrep Hhost Hl. rewrite Forall_forall. intros r ([k rr] & -> & Hin)%list_elem_of_fmap.
  apply (rio_rows _ _ Hl) in Hin.
  destruct (rep_keys _ _ _ Hrep _ _ Hin) as [s [(_ & _ & mm & ms & Hm & _) Hs]].
  destruct (Hhost _ _ Hin) as [name Hn]. by eapply copyRecord_total.
Qed.

(** C14. What a client sees of the table: [Iter] over all records streams every row in the
    order of the keys, and [Lookup] answers with the first row, or with nothing when the
    table is empty; the client's copies agree with the rows on peer, instance, sequence
    number, host and metadata, and on the TTL up to whole milliseconds. *)
Theorem view_shows_table (put : bytes → rres unit) (table : Table D)
    (m : gmap bytes Routing.record) (fuel : nat) :
  PoolSpec pool → MemdbLaws pool b58 row scan → Represents row table m →
  (∀ b, put b = Ret tt) → (∀ k r, m !! k = Some r → ∃ name, Host (rec_Record r) = Ret name) →
  ∃ l, rows_in_order m l ∧
    ((length l < fuel)%nat →
     (∃ vs cs, Server_Iter put (Ret tt) fuel (table_snapshot table) (Ret Selector_all) = Ret vs ∧
        omapM newRecord vs = Ret cs ∧ Forall2 same_record (rec_of l) cs) ∧
     ∃ res c, Server_Lookup put (Ret tt) fuel (table_snapshot table) (Ret Selector_all) = Ret res ∧
        FutureRecord_Record (Ret res) = Ret c ∧
        match head (rec_of l), c with
        | None, None => True
        | Some r, Some c => same_record r c
        | _, _ => False
        end).
Proof.
  intros Hpool Hlaws Hrep Hput Hhost.
  destruct (scan_rows_in_order pool b58 row scan _ _ Hrep) as (l & Hl & Hscan).
  exists l. split; [done|]. intros Hfuel.
  destruct (all_selects pool b58 row scan _ _ _ Hrep Hl Hscan) as [Hg _].
  assert (length (rec_of l) = length l) as Hlen by apply length_fmap.
  pose proof (rows_copyable put table m l Hput Hrep Hhost Hl) as Hcopy.
  split.
  - destruct (copy_all put _ Hcopy) as (vs & cs & Hvs & Hcs & Hsame).
    exists vs, cs. split; [|done]. unfold Server_Iter, Server_bind. cbn [bind selector].
    unfold All. rewrite (selects_run _ _ _ [] (selects_get _ _ _ Hg)). cbn [bind fst snd].
    erewrite bind_loop_rep; [|by apply rep_snap|lia].
    by rewrite (stream_fold put (Ret tt) (rec_of l) [] vs).
  - destruct (query_rep (Direct (table_snapshot table)) All [SLimit 1] (rec_of l)) as (it & h & Hq & Hr).
    { by apply selects_get. } { by repeat constructor. }
    unfold Query_Iter in Hq. cbn in Hq.
    unfold Server_Lookup, Server_bind. cbn [bind selector].
    assert (Selector_Bind All (fst (Query.First [])) (table_snapshot table) (snd (Query.First []))
      = Ret (it, h)) as -> by exact Hq.
    cbn [bind fst snd]. erewrite bind_loop_rep; [|exact Hr|lia].
    change (denote (rec_of l) [SLimit 1]) with (take 1 (rec_of l)).
    destruct (rec_of l) as [|r rs]; [by exists None, None|].
    apply Forall_cons in Hcopy as [[v Hv] _].
    destruct (copyRecord_client _ _ _ _ Hv) as (c & Hc & Hsame).
    exists (Some v), (Some c). cbn [take foldl bind]. unfold maybeRecord. cbn [bind]. rewrite Hv.
    split; [done|]. split; [|done]. cbn. by rewrite Hc.
Qed.
End server_theorems.

(** ** Witnesses *)
Section witnesses.
Import concrete.

Lemma all_enumerates_table_witness :
  ∃ l, rows_in_order {[bs "p" := mkrecord rec1 150]} l ∧
    Reverse (Reverse (Direct (table_snapshot table1))) = Direct (table_snapshot table1).
Proof.
  destruct (all_enumerates_table pool0 concrete.b58 row m_scan table1 _ 2
    pool0_spec laws table1_represents) as (l & Hl & Hr & _).
  exists l. split; [exact Hl|exact Hr].
Defined.

Lemma view_shows_table_witness :
  ∃ l, rows_in_order {[bs "p" := mkrecord rec1 150]} l.
Proof.
  destruct (view_shows_table pool0 concrete.b58 row m_scan (λ _, Ret tt) table1 _ 2
    pool0_spec laws table1_represents) as (l & Hl & _).
  - reflexivity.
  - intros k r [_ <-]%lookup_singleton_Some. exists (bs "h"). reflexivity.
  - exists l. exact Hl.
Defined.
End witnesses.
