(* ===== verification/ClusterClient.v ===== *)
(** * The client of a remote view ([src/pkg/cluster/client.go]: [View], [Iterator], errors)

    [ClusterView] has the exchange of records while a stream is open ([hstep]).  Here is how
    it ends early: the release function of [Iter] cancels the call, a record that cannot
    be read fails it, and a query that cannot be written never starts it.  A world is the
    handler's state and whether the call has been cancelled or has failed; [cstep] adds
    to the transitions of the handler those of the [ctx.Done()] cases. *)

From stdpp Require Import base list gmap strings relations.
From Stdlib Require Import ZArith Lia.
From S2P Require Import Prelude ClusterView.

(** ** Streams that end early *)
Section client.
Context {R : Type} (valid : R → bool).       (* [newRecord] accepts the record *)

Record cworld := mkC { c_h : hstate (R:=R); c_ended : bool }.

Definition set_prod (p : producer) (h : hstate (R:=R)) : hstate (R:=R) :=
  mkH (h_init h) (h_sync h) (h_closed h) p (h_cons h) (h_input h) (h_delivered h).
Definition no_input (h : hstate (R:=R)) : hstate (R:=R) :=
  mkH (h_init h) (h_sync h) (h_closed h) (h_prod h) (h_cons h) [] (h_delivered h).

(** [next] marks the consumer's calls of [Next]. *)
Inductive cstep : bool → cworld → cworld → Prop :=
| cs_handler next h h' e :
    hstep next h h' → (∀ r, h_prod h = PSend r → h_prod h' = PWait r → valid r = true) →
    cstep next (mkC h e) (mkC h' e)
| cs_invalid h r e :                         (* newRecord fails: Recv returns its error *)
    h_prod h = PSend r → valid r = false → cstep false (mkC h e) (mkC (set_prod PIdle h) true)
| cs_release h e : cstep false (mkC h e) (mkC h true)
| cs_abort h :                               (* <-ctx.Done() in Recv *)
    h_prod h ≠ PIdle → cstep false (mkC h true) (mkC (set_prod PIdle h) true)
| cs_stop h : cstep false (mkC h true) (mkC (no_input h) true).   (* the server stops *)

Definition any_cstep (w w' : cworld) : Prop := ∃ b, cstep b w w'.

(** [View.Iter]: the call's parameters are written by [Handler(query)]; when the query fails
    the channel is closed and there is no handler to send to. *)
Definition View_Iter {E} (query : outcome E unit) (records : list R) : outcome E unit * cworld :=
  match query with
  | Ret _ => (Ret tt, mkC (h0 records) false)
  | err => (err, mkC (mkH false false true PIdle (COut None) [] []) true)
  end.

(** [Iterator.Next] returns nil for a closed channel. *)
Definition Iterator_Next_result (c : consumer (R:=R)) : option (option R) :=
  match c with COut o => Some o | _ => None end.

(** ** Facts *)
Record cinv (all : list R) (w : cworld) : Prop := {
  ci_sublist : (h_delivered (c_h w) ++ undelivered (c_h w)) `sublist_of` all;
  ci_closed : h_closed (c_h w) = true → h_prod (c_h w) = PIdle;
  ci_valid : Forall (λ r, valid r = true) (h_delivered (c_h w)) }.

Lemma client_inv_step all b w w' : cinv all w → cstep b w w' → cinv all w'.
Proof.
  intros [Hs Hc Hv] Hst. destruct Hst as [next h h' e Hh Hok|h r e Hp Hr|h e|h Hp|h]; cbn in *.
  - destruct Hh; unfold undelivered in *; cbn in *; split; cbn in *; try done;
      try (by intros ->; specialize (Hc eq_refl)); try (by rewrite <-app_assoc).
    apply Forall_app. split; [done|]. apply Forall_singleton. by apply Hok.
  - split; cbn; try done. etrans; [|exact Hs]. unfold undelivered. cbn. rewrite Hp.
    apply sublist_app; [done|]. cbn. by apply sublist_cons.
  - done.
  - split; cbn; try done. etrans; [|exact Hs]. unfold undelivered. cbn.
    apply sublist_app; [done|]. by apply sublist_inserts_l.
  - split; cbn; try done. etrans; [|exact Hs]. unfold undelivered. cbn. rewrite app_nil_r.
    apply sublist_app; [done|]. by apply sublist_inserts_r.
Qed.

Lemma client_inv_steps all w w' : cinv all w → rtc any_cstep w w' → cinv all w'.
Proof. intros Hi Hs. induction Hs as [|x y z [b Hxy] _ IH]; eauto using client_inv_step. Qed.

Lemma cinv_Iter {E} (q : outcome E unit) l : cinv l (View_Iter q l).2.
Proof. destruct q; (split; cbn; [|done|constructor]); by try apply sublist_nil_l. Qed.

(** The steps that are not calls of the consumer. *)
Definition background (w w' : cworld) : Prop := cstep false w w'.

Lemma released_drains h :
  h_cons h = CRecv → (h_closed h = true → h_prod h = PIdle) →
  ∃ h', rtc background (mkC h true) (mkC h' true) ∧ h_cons h' = COut None.
Proof.
  destruct h as [i s c p co l d]. cbn. intros -> Hc.
  set (h1 := mkH i s c PIdle CRecv [] d).
  assert (rtc background (mkC (mkH i s c p CRecv l d) true) (mkC h1 true)) as H1.
  { assert (rtc background (mkC (mkH i s c p CRecv l d) true) (mkC (mkH i s c PIdle CRecv l d) true)) as Ha.
    { destruct p as [|r|r|r]; [apply rtc_refl|..]; apply rtc_once.
      - by apply (cs_abort (mkH i s c (PInit r) CRecv l d)).
      - by apply (cs_abort (mkH i s c (PSend r) CRecv l d)).
      - by apply (cs_abort (mkH i s c (PWait r) CRecv l d)). }
    etrans; [exact Ha|]. apply rtc_once. exact (cs_stop (mkH i s c PIdle CRecv l d)). }
  exists (mkH i s true PIdle (COut None) [] d). split; [|done]. etrans; [exact H1|]. subst h1.
  destruct c.
  - apply rtc_once. apply cs_handler; [constructor|done].
  - eapply rtc_l; [apply (cs_handler false _ (mkH i s true PIdle CRecv [] d)); [constructor|done]|].
    apply rtc_once. apply cs_handler; [constructor|done].
Qed.
End client.

(** C25. An iterator can be released at any time: whatever the interleaving of records,
    failures and the release, what Next has returned are valid records of the query's
    result in their order, and nothing is sent on a closed channel.  Once the iterator is
    released or the call has failed, a Next in progress can always complete and return
    nil if it has signalled on [sync] or finds room there.  (There is one consumer; for a
    Next that finds [sync] full see [release_leaves_next_blocked].) *)
Theorem iterator_release {R E} (valid : R → bool) (q : outcome E unit) (records : list R) (w : cworld) :
  rtc (any_cstep valid) (View_Iter q records).2 w →
  h_delivered (c_h w) `sublist_of` records ∧
  Forall (λ r, valid r = true) (h_delivered (c_h w)) ∧
  (h_closed (c_h w) = true → h_prod (c_h w) = PIdle) ∧
  (c_ended w = true → (h_cons (c_h w) = CRecv ∨ h_cons (c_h w) = CPush ∧ h_sync (c_h w) = false) →
   ∃ w', rtc (background valid) w w' ∧ Iterator_Next_result (h_cons (c_h w')) = Some None).
Proof.
  intros Hst. pose proof (client_inv_steps valid records _ _ (cinv_Iter valid q records) Hst) as [Hs Hc Hv].
  split_and!; [|done..|].
  { etrans; [|exact Hs]. by apply sublist_inserts_r. }
  intros He Hn. destruct w as [h e]. cbn in *. subst e.
  destruct Hn as [Hr|[Hp Hsy]].
  - destruct (released_drains valid h Hr Hc) as (h' & Hst' & Hh'). exists (mkC h' true).
    split; [done|]. cbn. by rewrite Hh'.
  - destruct h as [i s c p co l d]. cbn in *. subst.
    destruct (released_drains valid (mkH i true c p CRecv l d) eq_refl Hc) as (h' & Hst' & Hh').
    exists (mkC h' true). split; [|cbn; by rewrite Hh']. eapply rtc_l; [|exact Hst'].
    apply cs_handler; [constructor|]. cbn. intros r -> [=].
Qed.

(** A [Next] that finds the signal of an earlier one in the closed handler's channel. *)
Definition blocked {R} (w : cworld (R:=R)) : Prop :=
  h_cons (c_h w) = CPush ∧ h_sync (c_h w) = true ∧ h_closed (c_h w) = true ∧
  h_prod (c_h w) = PIdle.

Lemma blocked_step {R} (valid : R → bool) w w' : blocked w → any_cstep valid w w' → blocked w'.
Proof.
  intros (Hc & Hs & Hcl & Hp) [b Hst].
  destruct Hst as [next h h' e Hh Hok|h r e Hpr Hr|h e|h Hpr|h]; cbn in *; try congruence; try done.
  destruct Hh; cbn in *; congruence.
Qed.

(** Past the end of a stream [Next] returns nil once and then blocks for good: the signal of
    the call that returned nil stays in [sync], which has room for one, and nobody is left
    to take it.  No release or failure ends the wait. *)
Theorem release_leaves_next_blocked {R} (valid : R → bool) :
  ∃ w1 w2, rtc (any_cstep valid) (View_Iter (Ret tt : outcome unit unit) []).2 w1 ∧
    h_closed (c_h w1) = true ∧ Iterator_Next_result (h_cons (c_h w1)) = Some None ∧
    cstep valid true w1 w2 ∧
    ∀ w, rtc (any_cstep valid) w2 w → Iterator_Next_result (h_cons (c_h w)) = None.
Proof.
  exists (mkC (mkH false true true PIdle (COut None) [] []) false),
    (mkC (mkH false true true PIdle CPush [] []) false). split_and!; [|done|done| |].
  - eapply rtc_l; [exists true; apply cs_handler; [constructor|done]|].
    eapply rtc_l; [exists false; apply cs_handler; [constructor|done]|].
    eapply rtc_l; [exists false; apply cs_handler; [apply r_shutdown|done]|].
    apply rtc_once. exists false. apply cs_handler; [constructor|done].
  - apply cs_handler; [constructor|done].
  - intros w Hr. enough (blocked w) as (Hc & _) by (cbn; by rewrite Hc).
    refine (rtc_ind_r (blocked) _ _ _ w Hr); [by split_and!|].
    intros y z _ Hyz Hy. by eapply blocked_step.
Qed.

(** A consumer waits for its first record, and the iterator is released. *)
Lemma iterator_release_witness :
  ∃ w', rtc (background (λ _ : nat, true)) (mkC (mkH false true false (PInit 1%nat) CRecv [2%nat] []) true) w' ∧
    Iterator_Next_result (h_cons (c_h w')) = Some None.
Proof.
  refine (proj2 (proj2 (proj2 (iterator_release (λ _ : nat, true) (Ret tt : outcome unit unit) [1; 2]%nat
    (mkC (mkH false true false (PInit 1%nat) CRecv [2%nat] []) true) _))) eq_refl (or_introl eq_refl)).
  eapply rtc_l; [exists true; apply cs_handler; [constructor|done]|].
  eapply rtc_l; [exists false; apply cs_handler; [constructor|done]|].
  eapply rtc_l; [exists false; apply cs_handler; [constructor|done]|].
  apply rtc_once. exists false. apply cs_release.
Defined.
