(* ===== verification/Router.v ===== *)
(** * The cluster router ([src/pkg/cluster/cluster.go], [clock.go])

    The router initialises itself once ([setup]), starts relaying its topic and its two
    goroutines once ([relay]), and lets callers trigger announcements ([Bootstrap]) until
    it is stopped ([Stop]).  The operations are functions on the state [Router]; the
    concurrent system, with any number of [Bootstrap] callers and the two goroutines, is
    the transition system [rstep], one transition per atomic operation (an atomic flag,
    the critical section, a channel operation).

    The body of the [advance] loop is [advance_tick]; the [heartbeat] loop is in
    [Announcer].  The jitter source, the clock, the topic and the metadata hook are
    library or user code and appear as arguments. *)

From stdpp Require Import base list gmap strings.
From Stdlib Require Import ZArith Lia Sorted.
From S2P Require Import Prelude Routing Pulse.

Open Scope Z_scope.

Inductive rerr := ErrClosing | ErrCanceled | ErrRelay | ErrPublish (code : Z).

#[global] Instance rerr_eq_dec : EqDecision rerr.
Proof. solve_decision. Defined.

(** ** State and operations *)

(** The fields a user may leave unset are flags: [true] when a value is present. *)
Record Router := mkRouter {
  Log : bool; R_TTL : Z; R_Meta : bool; Clock : bool; RoutingTable : bool;
  r_init : bool; relaying : bool; r_id : Z; announce : bool }.

(** [setup]: only the first call sees [init] unset; [rand] is [rand.Uint64()]. *)
Definition setup (rand : Z) (r : Router) : Router :=
  if r_init r then r
  else mkRouter true (if R_TTL r <=? 0 then DefaultTTL else R_TTL r) true true true
         true (relaying r) rand true.

Definition ID (rand : Z) (r : Router) : Z := r_id (setup rand r).

(** [relaying.Swap(true)]. *)
Definition swap_relaying (r : Router) : bool * Router :=
  (relaying r,
   mkRouter (Log r) (R_TTL r) (R_Meta r) (Clock r) (RoutingTable r) (r_init r) true
     (r_id r) (announce r)).

(** [View]: the server behind a view is shared as long as somebody holds it.  [wc] is the
    weak reference, [alive c] whether client [c] is still held, [c'] a new client; the
    result is the client of the view and the new weak reference. *)
Definition Router_View (alive : nat → bool) (wc : option nat) (c' : nat) : nat * option nat :=
  match wc with
  | Some c => if alive c then (c, wc) else (c', Some c')
  | None => (c', Some c')
  end.

(** [NewClock]'s clock: stopping it cancels its context. *)
Record systemClock := mkClock { ctx_done : bool; ticking : bool }.
Definition NewClock : systemClock := mkClock false true.
Definition Clock_Stop (c : systemClock) : systemClock := mkClock true false.

(** ** The advance loop: one tick *)
Section advance.
Context {T : Type} (table_Advance : T → Z → T).

Record loop := mkLoop { table : T; next_announcement : Z }.

(** A tick at time [t]; [j] is what [jitter.Jitter(r.TTL)] returns if it is called.
    The first component says whether an announcement is due.  It is sent without
    blocking: a heartbeat goroutine that is busy misses it. *)
Definition advance_tick (l : loop) (t j : Z) : bool * loop :=
  let table' := table_Advance (table l) t in
  if next_announcement l <? t then (true, mkLoop table' (t + j))
  else (false, mkLoop table' (next_announcement l)).

(** The times of the announcements over a sequence of ticks. *)
Fixpoint advance_ticks (l : loop) (ts : list (Z * Z)) : list Z * loop :=
  match ts with
  | [] => ([], l)
  | (t, j) :: ts' =>
      let p := advance_tick l t j in
      let q := advance_ticks (snd p) ts' in
      (if fst p then t :: fst q else fst q, snd q)
  end.

(** Ticks after [p] that come at most [g] apart, with jitters between [lo] and [hi]. *)
Fixpoint ticks_ok (g lo hi p : Z) (ts : list (Z * Z)) : Prop :=
  match ts with
  | [] => True
  | (t, j) :: ts' => p < t ≤ p + g ∧ lo ≤ j ≤ hi ∧ ticks_ok g lo hi t ts'
  end.

Lemma advance_ticks_spaced g lo hi p ts l :
  0 ≤ lo → p ≤ next_announcement l → ticks_ok g lo hi p ts →
  Sorted (λ a b, a + lo < b ≤ a + hi + g) (fst (advance_ticks l ts)) ∧
  match head (fst (advance_ticks l ts)) with
  | Some a => next_announcement l < a ≤ next_announcement l + g
  | None => True
  end.
Proof.
  intros Hlo. revert p l. induction ts as [|[t j] ts IH]; intros p l Hp Hts; [by repeat constructor|].
  destruct Hts as (Ht & Hj & Hts). cbn [advance_ticks]. cbv zeta. unfold advance_tick. cbv zeta.
  destruct (Z.ltb_spec (next_announcement l) t) as [Hlt|Hge]; cbn [fst snd].
  - destruct (IH t (mkLoop (table_Advance (table l) t) (t + j)) ltac:(cbn; lia) Hts) as [Hs Hh].
    cbn [next_announcement] in Hh. split; [|cbn; lia].
    constructor; [done|]. destruct (fst (advance_ticks _ ts)); [constructor|].
    constructor. cbn in Hh. lia.
  - apply (IH t (mkLoop (table_Advance (table l) t) (next_announcement l))); [cbn; lia|done].
Qed.
End advance.

(** The heartbeat of this router. *)
Definition new_heartbeat (r : Router) : api_Heartbeat :=
  SetServer (SetTTL NewHeartbeat (R_TTL r)) (r_id r).

(** ** The concurrent system *)
Inductive caller :=
| BRelay                       (* entered [Bootstrap] *)
| BLocked                      (* saw [relaying] unset, waits for the mutex *)
| BCheck                       (* relay succeeded *)
| BSelect                      (* in the select *)
| BRet (e : option rerr).      (* returned *)

Record sys := mkSys {
  router : Router; clk : systemClock; announce_closed : bool;
  advancing : bool; beating : bool;
  relays : nat;                (* calls of [Topic.Relay] *)
  starts : nat;                (* times the two goroutines were started *)
  callers : list caller; panicked : bool }.

Definition set_callers (s : sys) (cs : list caller) : sys :=
  mkSys (router s) (clk s) (announce_closed s) (advancing s) (beating s) (relays s) (starts s)
    cs (panicked s).

Definition set_router (s : sys) (r : Router) : sys :=
  mkSys r (clk s) (announce_closed s) (advancing s) (beating s) (relays s) (starts s)
    (callers s) (panicked s).

Definition set_clk (s : sys) (c : systemClock) : sys :=
  mkSys (router s) c (announce_closed s) (advancing s) (beating s) (relays s) (starts s)
    (callers s) (panicked s).

Definition crash (s : sys) : sys :=
  mkSys (router s) (clk s) (announce_closed s) (advancing s) (beating s) (relays s) (starts s)
    (callers s) true.

(** The critical section of [relay]; [ok] is the outcome of [Topic.Relay()]. *)
Definition relay_locked (ok : bool) (s : sys) (i : nat) : sys :=
  let p := swap_relaying (router s) in
  if fst p then set_callers (set_router s (snd p)) (<[i := BCheck]> (callers s))
  else if ok then
    mkSys (snd p) (clk s) (announce_closed s) true true (S (relays s)) (S (starts s))
      (<[i := BCheck]> (callers s)) (panicked s)
  else
    mkSys (snd p) (clk s) (announce_closed s) (advancing s) (beating s) (S (relays s)) (starts s)
      (<[i := BRet (Some ErrRelay)]> (callers s)) (panicked s).

(** [Stop]: the clock is stopped only if the router was already relaying; a router that
    was never set up has no clock, and its nil interface panics. *)
Definition Stop (s : sys) : sys :=
  let p := swap_relaying (router s) in
  let s' := set_router s (snd p) in
  if fst p then (if Clock (router s) then set_clk s' (Clock_Stop (clk s)) else crash s') else s'.

(** The deferred calls of [advance]: the relay is cancelled and [announce] closed. *)
Definition advance_exit (s : sys) : sys :=
  mkSys (router s) (Clock_Stop (clk s)) true false (beating s) (relays s) (starts s)
    (callers s) (panicked s).

Definition beat_exit (s : sys) : sys :=
  mkSys (router s) (clk s) (announce_closed s) (advancing s) false (relays s) (starts s)
    (callers s) (panicked s).

Inductive rstep : sys → sys → Prop :=
| s_call s rand :
    rstep s (set_callers (set_router s (setup rand (router s))) (callers s ++ [BRelay]))
| s_stop s : rstep s (Stop s)
| s_relay_fast s i :
    callers s !! i = Some BRelay → relaying (router s) = true →
    rstep s (set_callers s (<[i := BCheck]> (callers s)))
| s_relay_slow s i :
    callers s !! i = Some BRelay → relaying (router s) = false →
    rstep s (set_callers s (<[i := BLocked]> (callers s)))
| s_relay_lock s i ok :
    callers s !! i = Some BLocked → rstep s (relay_locked ok s i)
| s_closing s i :
    callers s !! i = Some BCheck → ctx_done (clk s) = true →
    rstep s (set_callers s (<[i := BRet (Some ErrClosing)]> (callers s)))
| s_select s i :
    callers s !! i = Some BCheck → ctx_done (clk s) = false →
    rstep s (set_callers s (<[i := BSelect]> (callers s)))
| s_send s i :
    callers s !! i = Some BSelect → beating s = true → announce_closed s = false →
    rstep s (set_callers s (<[i := BRet None]> (callers s)))
| s_done s i :
    callers s !! i = Some BSelect → ctx_done (clk s) = true →
    rstep s (set_callers s (<[i := BRet (Some ErrClosing)]> (callers s)))
| s_ctx s i :
    callers s !! i = Some BSelect →
    rstep s (set_callers s (<[i := BRet (Some ErrCanceled)]> (callers s)))
| s_send_closed s i :
    callers s !! i = Some BSelect → announce_closed s = true → rstep s (crash s)
| s_advance_exit s :
    advancing s = true → ctx_done (clk s) = true → rstep s (advance_exit s)
| s_beat_exit s :
    beating s = true → announce_closed s = true ∨ ctx_done (clk s) = true →
    rstep s (beat_exit s).

(** A router as the user creates it. *)
Definition fresh (ttl : Z) : Router := mkRouter false ttl false false false false false 0 false.
Definition sys0 (ttl : Z) : sys := mkSys (fresh ttl) NewClock false false false 0 0 [] false.

(** ** Invariant *)
Definition rinv (s : sys) : Prop :=
  (starts s ≤ relays s ≤ (if relaying (router s) then 1 else 0))%nat ∧
  ((advancing s = true ∨ beating s = true ∨ announce_closed s = true) → starts s = 1%nat) ∧
  (announce_closed s = true → ctx_done (clk s) = true ∧ advancing s = false).

Lemma rinv_init ttl : rinv (sys0 ttl).
Proof. split; [cbn; lia|]. split; [cbn; naive_solver|done]. Qed.

Lemma setup_relaying rand r : relaying (setup rand r) = relaying r.
Proof. unfold setup. by destruct (r_init r). Qed.

Lemma rinv_step s s' : rinv s → rstep s s' → rinv s'.
Proof.
  intros (H1 & H2 & H3) Hstep. unfold rinv. destruct Hstep; cbn.
  - by rewrite setup_relaying.
  - unfold Stop. cbn. destruct (relaying (router s)) eqn:Hr; [destruct (Clock (router s))|];
      cbn; (split; [lia|]); (split; [done|]); naive_solver.
  - done.
  - done.
  - unfold relay_locked. cbn. destruct (relaying (router s)) eqn:Hr; [|destruct ok]; cbn.
    + split; [lia|done].
    + split; [lia|]. split; [lia|]. intros Hc. specialize (H2 ltac:(auto)). lia.
    + split; [lia|]. split; [|done]. intros Hc. specialize (H2 Hc). lia.
  - done.
  - done.
  - done.
  - done.
  - done.
  - done.
  - split; [done|]. split; [|done]. intros _. apply H2. auto.
  - split; [done|]. split; [|done]. intros [?|[?|?]]; [auto|done|auto].
Qed.

Lemma rinv_steps s s' : rinv s → rtc rstep s s' → rinv s'.
Proof. induction 2; eauto using rinv_step. Qed.

(** Once [relaying] is set without the goroutines having been started, they never are. *)
Definition dead (old : list caller) (s : sys) : Prop :=
  relaying (router s) = true ∧ starts s = 0%nat ∧ rinv s ∧
  ∀ i, callers s !! i = Some (BRet None) → old !! i = Some (BRet None).

Lemma dead_upd (old : list caller) (s : sys) i c x :
  (∀ i, callers s !! i = Some (BRet None) → old !! i = Some (BRet None)) →
  callers s !! i = Some c → x ≠ BRet None →
  ∀ k, <[i := x]> (callers s) !! k = Some (BRet None) → old !! k = Some (BRet None).
Proof.
  intros Hold Hi Hx k Hk. destruct (decide (k = i)) as [->|Hne].
  - rewrite list_lookup_insert_eq in Hk by (by eapply lookup_lt_Some). congruence.
  - rewrite list_lookup_insert_ne in Hk by done. auto.
Qed.

Lemma dead_step old s s' : dead old s → rstep s s' → dead old s'.
Proof.
  intros (Hr & Hst & Hinv & Hold) Hstep. pose proof (rinv_step _ _ Hinv Hstep) as Hinv'.
  destruct Hinv as (_ & H2 & _).
  destruct Hstep; unfold dead; (split; [|split; [|split; [exact Hinv'|]]]); cbn;
    try done; try (by eapply dead_upd).
  - by rewrite setup_relaying.
  - intros k. rewrite lookup_app. destruct (callers s !! k) eqn:Hk; [rewrite <-Hk; apply Hold|].
    intros Hs. apply list_lookup_singleton_Some in Hs as [_ ?]. done.
  - unfold Stop. cbn. by rewrite Hr; destruct (Clock (router s)).
  - unfold Stop. cbn. by rewrite Hr; destruct (Clock (router s)).
  - unfold Stop. cbn. by rewrite Hr; destruct (Clock (router s)).
  - unfold relay_locked. cbn. by rewrite Hr.
  - unfold relay_locked. cbn. by rewrite Hr.
  - unfold relay_locked. cbn. rewrite Hr. cbn. by eapply dead_upd.
  - specialize (H2 ltac:(auto)). lia.
Qed.

Lemma dead_steps old s s' : dead old s → rtc rstep s s' → dead old s'.
Proof. induction 2; eauto using dead_step. Qed.

(** ** Properties *)

(** However [Bootstrap] and [Stop] calls interleave, the router relays its topic and
    starts its goroutines at most once, and [announce] is closed only after the clock has
    stopped and the advance loop has ended. *)
Theorem router_starts_once ttl s :
  rtc rstep (sys0 ttl) s →
  (starts s ≤ relays s ≤ 1)%nat ∧
  (announce_closed s = true → ctx_done (clk s) = true ∧ advancing s = false ∧ starts s = 1%nat).
Proof.
  intros Hs. destruct (rinv_steps _ _ (rinv_init ttl) Hs) as (H1 & H2 & H3).
  split; [destruct (relaying (router s)); lia|]. intros Hc.
  destruct (H3 Hc). split; [done|]. split; [done|]. apply H2. auto.
Qed.

Lemma router_starts_once_witness :
  (starts (relay_locked true (set_callers (set_callers (set_router (sys0 0) (setup 7 (fresh 0)))
    [BRelay]) [BLocked]) 0) ≤ 1)%nat.
Proof.
  refine (proj2 (_ : _ ∧ _)). refine (match router_starts_once 0 _ _ with conj H _ => _ end).
  2: { split; [exact I|]. etrans; apply H. }
  eapply rtc_l; [apply (s_call _ 7)|].
  eapply rtc_l; [apply (s_relay_slow _ 0); reflexivity|].
  apply rtc_once. apply (s_relay_lock _ 0 true). reflexivity.
Defined.

(** The relay is attempted only once: after a [Stop] that comes before the first
    [Bootstrap], or after a [Bootstrap] whose [Topic.Relay] failed, no later [Bootstrap]
    starts the goroutines or returns without an error. *)
Theorem relay_never_retried ttl s s' :
  rtc rstep (sys0 ttl) s → relaying (router s) = true → starts s = 0%nat → rtc rstep s s' →
  starts s' = 0%nat ∧ beating s' = false ∧
  ∀ i, callers s' !! i = Some (BRet None) → callers s !! i = Some (BRet None).
Proof.
  intros Hs Hr Hst Hs'. pose proof (rinv_steps _ _ (rinv_init ttl) Hs) as Hinv.
  destruct (dead_steps (callers s) s s') as (_ & Hst' & (_ & H2 & _) & Hold); [by split|done|].
  split; [done|]. split; [|done].
  destruct (beating s') eqn:Hb; [|done]. specialize (H2 ltac:(auto)). lia.
Qed.

(** A [Stop] before anything else, then a [Bootstrap]. *)
Lemma relay_never_retried_witness :
  starts (set_callers (set_router (Stop (sys0 0)) (setup 7 (router (Stop (sys0 0))))) [BRelay])
    = 0%nat.
Proof.
  refine (proj1 (relay_never_retried 0 (Stop (sys0 0)) _ _ eq_refl eq_refl _)).
  - apply rtc_once, s_stop.
  - apply rtc_once. exact (s_call (Stop (sys0 0)) 7).
Defined.

(** A [Bootstrap] that has checked the clock's context but not yet reached its select
    can find [announce] closed by the ending advance loop; the send then panics. *)
Theorem bootstrap_send_on_closed ttl : ∃ s, rtc rstep (sys0 ttl) s ∧ panicked s = true.
Proof.
  eexists. split; [|shelve].
  eapply rtc_l; [apply (s_call _ 7)|].
  eapply rtc_l; [apply (s_relay_slow _ 0); reflexivity|].
  eapply rtc_l; [apply (s_relay_lock _ 0 true); reflexivity|].
  eapply rtc_l; [apply (s_select _ 0); reflexivity|].
  eapply rtc_l; [apply s_stop|].
  eapply rtc_l; [apply s_advance_exit; reflexivity|].
  apply rtc_once. apply (s_send_closed _ 0); reflexivity.
  Unshelve. reflexivity.
Qed.

(** Announcements are paced: with ticks at most [g] apart and jitters between [lo] and
    [hi], successive announcements are more than [lo] and at most [hi + g] apart, and the
    first comes within [g] of its due time. *)
Theorem announcements_paced {T} (adv : T → Z → T) g lo hi p (l : loop) ts :
  0 ≤ lo → p ≤ next_announcement l → ticks_ok g lo hi p ts →
  Sorted (λ a b, a + lo < b ≤ a + hi + g) (fst (advance_ticks adv l ts)) ∧
  match head (fst (advance_ticks adv l ts)) with
  | Some a => next_announcement l < a ≤ next_announcement l + g
  | None => True
  end.
Proof. apply advance_ticks_spaced. Qed.

Lemma announcements_paced_witness :
  Sorted (λ a b, a + 5 < b ≤ a + 9 + 2)
    (fst (advance_ticks (λ _ t, t) (mkLoop 0 1) [(2, 5); (4, 9); (6, 9); (8, 9); (10, 7)])).
Proof.
  apply (announcements_paced (λ _ t, t) 2 5 9 0 (mkLoop 0 1)
    [(2, 5); (4, 9); (6, 9); (8, 9); (10, 7)]); cbn; lia.
Defined.
