(* ===== verification/Membership.v ===== *)
(** * Membership: the router, the validator and the table together

    A member announces itself with heartbeats ([Router]); every other node validates them
    into its routing table ([Pulse], [RoutingTable]) and advances the table's clock with the
    ticks of its own router.  This file composes the three into what the protocol is for:
    a member whose heartbeats keep arriving stays in the table, and one that falls silent
    leaves it.

    [observe] is a node that receives messages and ticks; times are the nanoseconds of one
    global clock. *)

From stdpp Require Import base list gmap strings sorting.
From Stdlib Require Import ZArith Lia Sorted.
From S2P Require Import Prelude Stm Routing RoutingTable RoutingProps Pulse Router.

Open Scope Z_scope.

(** ** An observing node *)
Inductive mevent := MBeat (pm : Message) | MTick (t : Z).

Section observer.
Context (b58 : bytes → bytes).
Context {msg : Type} (unmarshal : bytes → rres msg) (read_root : msg → rres api_Heartbeat).
Context {D : Type} `{!Memdb rerror any (list IndexSchema) D}.

(** The validator runs on each message, [advance]'s loop on each tick. *)
Fixpoint observe (table : Table D) (evs : list mevent) : rres (Table D) :=
  match evs with
  | [] => Ret table
  | MBeat pm :: evs' =>
      p <~ NewValidator b58 unmarshal read_root table pm ;; observe (snd p) evs'
  | MTick t :: evs' => table' <~ Advance table t ;; observe table' evs'
  end.

(** ** What is assumed of the events *)

(** The key and the sequence number of a message. *)
Definition key_of (pm : Message) : bytes := b58 (From pm).
Definition seq_of (pm : Message) : Z := be_decode (take 8 (Seqno pm)).

(** Messages may be undecodable; those that decode are well formed. *)
Definition good_event (e : mevent) : Prop :=
  match e with
  | MBeat pm => match record unmarshal read_root pm with
                | Ret r => readable (rr_hb r) ∧ wf_hb (rr_hb r) ∧ (8 ≤ length (Seqno pm))%nat
                | Fail _ => True
                | Panic => False
                end
  | MTick t => 0 ≤ t ≤ max_time
  end.

(** A heartbeat of router [r]: its metadata hook may set the host and the metadata, the TTL
    and the instance are those [heartbeat] wrote. *)
Definition beat_of (r : Router) (pm : Message) : Prop :=
  ∃ rr, record unmarshal read_root pm = Ret rr ∧
    hb_ttl (rr_hb rr) = hb_ttl (new_heartbeat r) ∧ hb_server (rr_hb rr) = hb_server (new_heartbeat r).

Definition member_ttl (r : Router) : Z := Heartbeat_TTL (new_heartbeat r).

(** The member with key [k] is refreshed in time: with clock [c], deadline [d] and sequence
    number [s], every tick comes before the deadline, and its heartbeats have growing
    sequence numbers and renew the deadline. *)
Fixpoint fed (k : bytes) (r : Router) (c d s : Z) (evs : list mevent) : Prop :=
  match evs with
  | [] => True
  | MTick t :: evs' => t < d ∧ fed k r (Z.max c t) d s evs'
  | MBeat pm :: evs' =>
      if decide (key_of pm = k)
      then beat_of r pm ∧ s < seq_of pm ∧ fed k r c (c + member_ttl r) (seq_of pm) evs'
      else fed k r c d s evs'
  end.

Lemma fed_app k r c d s evs1 evs2 : fed k r c d s (evs1 ++ evs2) → fed k r c d s evs1.
Proof.
  revert c d s. induction evs1 as [|[pm|t] evs1 IH]; cbn; intros c d s; [done| |].
  - destruct (decide (key_of pm = k)); [intros (? & ? & ?)|]; eauto.
  - intros [? ?]. eauto.
Qed.

Lemma observe_app table evs1 evs2 :
  observe table (evs1 ++ evs2) = (table' <~ observe table evs1 ;; observe table' evs2).
Proof.
  revert table. induction evs1 as [|[pm|t] evs1 IH]; intros table; [done| |]; cbn.
  - destruct (NewValidator _ _ _ _ _) as [[? ?]|e|]; cbn; auto.
  - destruct (Advance _ _) as [?|e|]; cbn; auto.
Qed.
End observer.

(** ** Facts *)
Section facts.
Context (pool : nat → bytes) (b58 : bytes → bytes) `{PoolSpec pool}.
Context {msg : Type} (unmarshal : bytes → rres msg) (read_root : msg → rres api_Heartbeat).
Context {D : Type} `{!Memdb rerror any (list IndexSchema) D}.
Context (row : D → bytes → option any) (scan : D → list (bytes * any)).
Context `{!MemdbLaws pool b58 row scan}.

Abbreviation observe := (observe b58 unmarshal read_root).
Abbreviation good_event := (good_event unmarshal read_root).
Abbreviation fed := (fed b58 unmarshal read_root).

(** The table of a node, with clock [c]. *)
Record node (table : Table D) (m : gmap bytes Routing.record) (c : Z) : Prop := {
  n_rep : Represents row table m;
  n_clock : clock table = c;
  n_range : 0 ≤ c ≤ max_time;
  n_rows k r : m !! k = Some r → 0 ≤ Deadline r ≤ c + max_ttl }.

Lemma node_times table m c : node table m c → times_ok m.
Proof.
  intros Hn k r Hk. pose proof (n_rows _ _ _ Hn _ _ Hk). pose proof (n_range _ _ _ Hn).
  unfold time_ok, max_time, max_ttl in *. lia.
Qed.

Lemma beat_step table m c pm :
  node table m c → good_event (MBeat pm) →
  ∃ res table' m', NewValidator b58 unmarshal read_root table pm = Ret (res, table') ∧ node table' m' c ∧
    ((m' = m ∧ ∀ rr, record unmarshal read_root pm = Ret rr →
        ¬ accepts m (as_Record b58 rr) (key_of b58 pm) (seq_of pm)) ∨
     ∃ rr, record unmarshal read_root pm = Ret rr ∧ wf_record (as_Record b58 rr) (key_of b58 pm) (seq_of pm) ∧
       m' = <[key_of b58 pm := mkrecord (as_Record b58 rr) (c + TTL (as_Record b58 rr))]> m).
Proof.
  intros Hn Hg. pose proof Hn as [Hrep Hc Hr Hb]. unfold NewValidator. cbn in Hg.
  destruct (record unmarshal read_root pm) as [rr|e|] eqn:Hrec;
    [|exists ValidationReject, table, m; split; [done|]; split; [done|]; by left|done].
  destruct Hg as (Hread & Hwf & Hlen).
  assert (rr_peer rr = From pm ∧ rr_seq rr = Seqno pm) as [Hp Hs].
  { unfold record in Hrec. apply bind_Ret_inv in Hrec as (? & _ & (hb & _ & [= <-])%bind_Ret_inv). done. }
  assert (wf_record (as_Record b58 rr) (key_of b58 pm) (seq_of pm)) as Hwfr.
  { unfold key_of, seq_of. rewrite <-Hs, <-Hp. apply as_Record_wf; [done|]. by rewrite Hs. }
  destruct (Upsert_represents pool b58 row scan table m _ _ _ Hrep Hwfr) as (acc & table' & Hu & Hclk & Hacc & Hrep').
  unfold rt_Upsert, table_routing. rewrite Hu. cbn [bind fst snd]. destruct acc.
  - rewrite Hc in Hrep'. eexists ValidationAccept, table', _. split; [done|]. split; [|by right; exists rr].
    split; [exact Hrep'|congruence|done|]. pose proof (TTL_range _ Hwf) as Ht.
    intros k r [[_ <-]|[_ Hk]]%lookup_insert_Some; [cbn; lia|by apply (Hb k)].
  - exists ValidationIgnore, table', m. split; [done|]. split; [split; [done|congruence|done|done]|].
    left. split; [done|]. intros rr' [= <-] Ha. by apply Hacc in Ha.
Qed.

Lemma tick_step table m c t :
  node table m c → 0 ≤ t ≤ max_time →
  ∃ table' m', Advance table t = Ret table' ∧ node table' m' (Z.max c t) ∧ m' ⊆ m ∧
    (∀ k r, m' !! k = Some r → c < t → t ≤ Deadline r) ∧
    (∀ k r, m !! k = Some r → t < Deadline r → m' !! k = Some r).
Proof.
  intros Hn Ht. pose proof (node_times _ _ _ Hn) as Htimes. destruct Hn as [Hrep Hc Hr Hb].
  destruct (Z.lt_ge_cases c t) as [Hlt|Hge].
  - destruct (Advance_represents pool b58 row scan table m t Hrep Htimes) as (table' & m' & Ha & Hclk & Hrep' & Hs & Hlo & Hk);
      [unfold time_ok, max_time in *; lia|lia|].
    exists table', m'. rewrite Z.max_r by lia. split; [done|]. split; [|split; [done|]; split; [eauto|done]].
    split; [done|done|lia|]. intros k r Hkr. pose proof (lookup_weaken _ _ _ _ Hkr Hs) as Hm.
    pose proof (Hb _ _ Hm). lia.
  - exists table, m. unfold Advance, clock_Load. rewrite Hc, (proj2 (Z.ltb_ge _ _) Hge), Z.max_l by lia.
    split; [done|]. split; [done|]. split; [done|]. split; [lia|done].
Qed.

(** The row of a member that was last refreshed with sequence number [s]. *)
Definition member (r : Router) (k : bytes) (d s : Z) (m : gmap bytes Routing.record) : Prop :=
  ∃ x, m !! k = Some x ∧ Server (rec_Record x) = hb_server (new_heartbeat r) ∧
    Seq (rec_Record x) = Ret s ∧ d ≤ Deadline x.

Lemma beat_TTL r pm rr :
  record unmarshal read_root pm = Ret rr → beat_of unmarshal read_root r pm →
  TTL (as_Record b58 rr) = member_ttl r ∧ Server (as_Record b58 rr) = hb_server (new_heartbeat r).
Proof.
  intros Hr (rr' & Hr' & Ht & Hs). rewrite Hr in Hr'. injection Hr' as <-. cbn.
  unfold member_ttl, Heartbeat_TTL. by rewrite Ht.
Qed.

(** A refreshing heartbeat, and one of another peer. *)
Lemma member_beat r table m c d s pm k :
  node table m c → good_event (MBeat pm) → key_of b58 pm = k →
  (m !! k = None ∨ member r k d s m) → beat_of unmarshal read_root r pm → s < seq_of pm →
  ∃ res table' m', NewValidator b58 unmarshal read_root table pm = Ret (res, table') ∧ node table' m' c ∧
    member r k (c + member_ttl r) (seq_of pm) m'.
Proof.
  intros Hn Hg <- Hm Hb Hs. destruct (beat_step _ _ _ _ Hn Hg) as (res & table' & m' & Hv & Hn' & [[-> Hna]|Ha]).
  - exfalso. destruct Hb as (rr & Hr & Hb). pose proof (beat_TTL r pm rr Hr (ex_intro _ rr (conj Hr Hb))) as [_ Hsrv].
    apply (Hna rr Hr). unfold accepts. destruct Hm as [->|(x & -> & Hx & Hsx & _)]; [done|].
    exists s. split; [done|]. by rewrite Hx, Hsrv, Z.eqb_refl.
  - destruct Ha as (rr & Hr & Hwf & ->). destruct (beat_TTL r pm rr Hr Hb) as [Ht Hsrv].
    eexists res, table', _. split; [exact Hv|]. split; [exact Hn'|].
    eexists. rewrite lookup_insert_eq. split; [done|]. cbn [rec_Record Deadline]. rewrite <-Ht.
    split; [done|]. split; [apply Hwf|done].
Qed.

Lemma other_beat table m c pm k :
  node table m c → good_event (MBeat pm) → key_of b58 pm ≠ k →
  ∃ res table' m', NewValidator b58 unmarshal read_root table pm = Ret (res, table') ∧ node table' m' c ∧
    m' !! k = m !! k.
Proof.
  intros Hn Hg Hk. destruct (beat_step _ _ _ _ Hn Hg) as (res & table' & m' & Hv & Hn' & [[-> _]|(rr & _ & _ & ->)]).
  - by exists res, table', m.
  - eexists res, table', _. split; [done|]. split; [done|]. by rewrite lookup_insert_ne.
Qed.

Lemma observe_fed r k evs table m c d s :
  node table m c → member r k d s m → Forall good_event evs → fed k r c d s evs →
  ∃ table' m' c' d' s', observe table evs = Ret table' ∧ node table' m' c' ∧ member r k d' s' m'.
Proof.
  revert table m c d s. induction evs as [|[pm|t] evs IH]; intros table m c d s Hn Hm; [by eexists _, _, _, _, _|..];
    intros [Hg Hgs]%Forall_cons; cbn [fed Membership.fed Membership.observe].
  - destruct (decide (key_of b58 pm = k)) as [Hk|Hk].
    + intros (Hb & Hs & Hf). destruct (member_beat r table m c d s pm k) as (res & t' & m' & -> & Hn' & Hm'); auto.
      cbn. eauto.
    + intros Hf. destruct (other_beat table m c pm k Hn Hg Hk) as (res & t' & m' & -> & Hn' & Heq). cbn.
      apply (IH _ m' c d s); auto. destruct Hm as (x & Hx & Hm). exists x. by rewrite Heq.
  - intros [Hd Hf]. destruct (tick_step table m c t Hn Hg) as (t' & m' & -> & Hn' & _ & _ & Hkeep). cbn.
    apply (IH _ m' (Z.max c t) d s); auto. destruct Hm as (x & Hx & H1 & H2 & H3).
    exists x. split; [apply Hkeep; [done|lia]|done].
Qed.
End facts.

(** ** Timelines *)
Section timeline.
Context (b58 : bytes → bytes).
Context {msg : Type} (unmarshal : bytes → rres msg) (read_root : msg → rres api_Heartbeat).

(** The heartbeats of a member among the events of a node, each with its time. *)
Definition beats (k : bytes) (evs : list (Z * mevent)) : list (Z * Message) :=
  omap (λ e, match e.2 with
             | MBeat pm => if decide (key_of b58 pm = k) then Some (e.1, pm) else None
             | MTick _ => None
             end) evs.
Arguments beats : simpl never.

(** The ticks of the node come at most [g] apart, and carry their time. *)
Fixpoint timely (g c : Z) (evs : list (Z * mevent)) : Prop :=
  match evs with
  | [] => True
  | (t, MTick t') :: evs' => t' = t ∧ c ≤ t ≤ c + g ∧ timely g t evs'
  | (t, MBeat _) :: evs' => c ≤ t ≤ c + g ∧ timely g c evs'
  end.

(** No event comes more than [P] after the member's last heartbeat. *)
Fixpoint refreshed (k : bytes) (P x : Z) (evs : list (Z * mevent)) : Prop :=
  match evs with
  | [] => True
  | (t, e) :: evs' => t ≤ x + P ∧ refreshed k P (match beats k [(t, e)] with [] => x | _ => t end) evs'
  end.

Lemma beats_cons k e evs : beats k (e :: evs) = beats k [e] ++ beats k evs.
Proof. unfold beats. cbn. by destruct e as [t [pm|t']]; cbn; [destruct (decide _)|]. Qed.

Lemma beats_app k evs evs' : beats k (evs ++ evs') = beats k evs ++ beats k evs'.
Proof. induction evs as [|e evs IH]; [done|]. cbn [app]. by rewrite (beats_cons k e (evs ++ evs')), (beats_cons k e evs), IH, app_assoc. Qed.

Lemma beats_one k t e : beats k [(t, e)] = [] ∨ ∃ pm, e = MBeat pm ∧ key_of b58 pm = k ∧ beats k [(t, e)] = [(t, pm)].
Proof. unfold beats. cbn. destruct e as [pm|t']; [|by left]. destruct (decide _); [right; by exists pm|by left]. Qed.

Lemma beats_times k evs t : t ∈ (beats k evs).*1 → t ∈ evs.*1.
Proof.
  induction evs as [|[t' e] evs IH]; [done|]. rewrite beats_cons, fmap_app, elem_of_app. cbn.
  rewrite elem_of_cons. destruct (beats_one k t' e) as [->|(pm & _ & _ & ->)]; cbn.
  - intros [[]%elem_of_nil|?]; auto.
  - intros [->%list_elem_of_singleton|?]; auto.
Qed.

(** The spacing of the member's heartbeats bounds the time since the last. *)
Lemma refreshed_spaced k P x evs :
  StronglySorted Z.le evs.*1 → Sorted (λ a b, b ≤ a + P) (x :: (beats k evs).*1) →
  Forall (λ t, t ≤ default x (last (beats k evs).*1) + P) evs.*1 → refreshed k P x evs.
Proof.
  revert x. induction evs as [|[t e] evs IH]; intros x Hs Hx Hl; [done|].
  cbn [fmap list_fmap fst] in Hs. apply StronglySorted_inv in Hs as [Hs Ht].
  rewrite beats_cons, fmap_app in Hx, Hl. apply Forall_cons in Hl as [Hl Hls]. cbn [fst] in *. cbn [refreshed].
  destruct (beats_one k t e) as [Hb|(pm & -> & Hk & Hb)]; rewrite Hb in *; cbn in Hx, Hl, Hls; cbn.
  - split; [|by apply IH]. inversion_clear Hx as [|? ? _ Hhd].
    destruct (beats k evs) as [|[a pm] bs] eqn:Hbs; cbn in *; [lia|]. inversion_clear Hhd as [|? ? Ha].
    rewrite Forall_forall in Ht. enough (t ≤ a) by lia.
    apply Ht, (beats_times k). rewrite Hbs. by left.
  - inversion_clear Hx as [|? ? Hx' Hhd]. inversion_clear Hhd as [|? ? Ha].
    split; [lia|]. apply IH; [done|done|]. eapply Forall_impl; [exact Hls|]. cbn.
    intros t0. rewrite last_cons. by destruct (last _).
Qed.

Lemma timely_fed k r g P evs c x d s :
  timely g c evs → refreshed k P x evs → x - g + member_ttl r ≤ d → P + g < member_ttl r →
  Forall (beat_of unmarshal read_root r) (beats k evs).*2 → StronglySorted Z.lt (s :: (seq_of <$> (beats k evs).*2)) →
  fed b58 unmarshal read_root k r c d s evs.*2.
Proof.
  intros Ht Hr Hd HP. revert c x d s Ht Hr Hd. induction evs as [|[t e] evs IH]; intros c x d s Ht Hr Hd Hb Hs; [done|].
  rewrite beats_cons, !fmap_app in Hb, Hs. apply Forall_app in Hb as [Hb Hbs]. destruct Hr as [Htx Hr].
  destruct e as [pm|t']; cbn [timely] in Ht.
  - destruct Ht as [Hct Ht]. cbn -[seq_of]. unfold beats in Hr, Hb, Hs. cbn -[seq_of] in Hr, Hb, Hs.
    destruct (decide (key_of b58 pm = k)) as [Hk|Hk]; cbn -[seq_of] in Hr, Hb, Hs; [|by apply (IH c x)].
    apply StronglySorted_inv in Hs as [Hs Hlt]. apply Forall_cons in Hlt as [Hlt _]. apply Forall_cons in Hb as [Hb _].
    split; [done|]. split; [done|]. apply (IH c t); [done|done|lia|done|done].
  - destruct Ht as (-> & Hct & Ht). cbn. split; [lia|]. rewrite Z.max_r by lia. by apply (IH t x).
Qed.
End timeline.

(** Arrivals of announcements that are spaced. *)
Lemma arrivals_spaced P delta (ann ds : list Z) :
  Sorted (λ a b, b ≤ a + P) ann → Forall (λ d, 0 ≤ d ≤ delta) ds →
  Sorted (λ a b, b ≤ a + (P + delta)) (zip_with Z.add ann ds).
Proof.
  intros Hs. revert ds. induction Hs as [|a ann Hs IH Hhd]; intros [|d ds] Hd; cbn; try constructor.
  - apply Forall_cons in Hd as [_ Hd]. by apply IH.
  - apply Forall_cons in Hd as [Hd Hds]. destruct Hhd as [|b ann Hb]; [constructor|].
    destruct Hds as [|d' ds Hd' Hds]; constructor. lia.
Qed.

(** The clock after some events. *)
Definition clock_after (c : Z) (evs : list mevent) : Z :=
  foldl (λ c e, match e with MBeat _ => c | MTick t => Z.max c t end) c evs.

Lemma clock_after_tick t c evs : MTick t ∈ evs → t ≤ clock_after c evs.
Proof.
  assert (∀ evs c, c ≤ clock_after c evs) as Hmono.
  { clear. unfold clock_after. induction evs as [|[pm|t] evs IH]; intros c; cbn; [lia|auto|]. specialize (IH (Z.max c t)). lia. }
  revert c. induction evs as [|e evs IH]; intros c; [by intros ?%elem_of_nil|].
  intros [<-|Hin]%elem_of_cons; [|by apply IH]. cbn. specialize (Hmono evs (Z.max c t)). unfold clock_after in Hmono. lia.
Qed.

Lemma timely_app g c evs evs' : timely g c (evs ++ evs') → timely g (clock_after c evs.*2) evs'.
Proof.
  revert c. induction evs as [|[t [pm|t']] evs IH]; intros c; cbn; [done| |].
  - intros [_ ?]. by apply IH.
  - intros (-> & Hc & Ht). rewrite Z.max_r by lia. by apply IH.
Qed.

Lemma timely_app_l g c evs evs' : timely g c (evs ++ evs') → timely g c evs.
Proof.
  revert c. induction evs as [|[t [pm|t']] evs IH]; intros c; cbn; [done| |]; naive_solver.
Qed.

Lemma refreshed_app_l b58 k P x evs evs' : refreshed b58 k P x (evs ++ evs') → refreshed b58 k P x evs.
Proof. revert x. induction evs as [|[t e] evs IH]; intros x; cbn; [done|]. intros [? ?]. eauto. Qed.

Lemma Sorted_weaken {A} (R R' : relation A) l : (∀ a b, R a b → R' a b) → Sorted R l → Sorted R' l.
Proof. intros HR. induction 1 as [|a l _ IH Hhd]; constructor; [done|]. destruct Hhd; constructor; auto. Qed.

Section runs.
Context (pool : nat → bytes) (b58 : bytes → bytes) `{PoolSpec pool}.
Context {msg : Type} (unmarshal : bytes → rres msg) (read_root : msg → rres api_Heartbeat).
Context {D : Type} `{!Memdb rerror any (list IndexSchema) D}.
Context (row : D → bytes → option any) (scan : D → list (bytes * any)).
Context `{!MemdbLaws pool b58 row scan}.

Abbreviation observe := (observe b58 unmarshal read_root).
Abbreviation good_event := (good_event unmarshal read_root).
Abbreviation node := (node (D:=D) row).
Abbreviation beats := (beats b58).

(** A property of clock and rows that ticks and messages keep. *)
Lemma observe_ind (I : Z → gmap bytes Routing.record → Prop) (ok : mevent → Prop) evs table m c :
  (∀ c m m' t, I c m → m' ⊆ m → (∀ k r, m' !! k = Some r → c < t → t ≤ Deadline r) → I (Z.max c t) m') →
  (∀ c m pm rr, ok (MBeat pm) → I c m → record unmarshal read_root pm = Ret rr →
     I c (<[key_of b58 pm := mkrecord (as_Record b58 rr) (c + TTL (as_Record b58 rr))]> m)) →
  node table m c → I c m → Forall good_event evs → Forall ok evs →
  ∃ table' m', observe table evs = Ret table' ∧ node table' m' (clock_after c evs) ∧ I (clock_after c evs) m'.
Proof.
  intros Ht Hb. revert table m c. induction evs as [|[pm|t] evs IH]; intros table m c Hn HI; [by eexists _, _|..];
    intros [Hg Hgs]%Forall_cons [Ho Hos]%Forall_cons; cbn.
  - destruct (beat_step pool b58 unmarshal read_root row scan table m c pm Hn Hg)
      as (res & table' & m' & -> & Hn' & [[-> _]|(rr & Hr & _ & ->)]); cbn; apply (IH _ _ _ Hn'); auto.
  - destruct (tick_step pool b58 row scan table m c t Hn Hg) as (table' & m' & -> & Hn' & Hs & Hlo & _). cbn.
    apply (IH _ _ _ Hn'); eauto.
Qed.

Lemma New_node t0 table : 0 ≤ t0 ≤ max_time → New t0 = Ret table → node table ∅ t0.
Proof.
  intros Ht Hnew. destruct (New_represents pool b58 row scan t0) as (table' & Hnew' & Hc & Hrep).
  rewrite Hnew in Hnew'. injection Hnew' as <-. split; [done|done|done|]. intros k r. by rewrite lookup_empty.
Qed.

(** No message with key [k]. *)
Definition silent (k : bytes) (e : mevent) : Prop :=
  match e with MBeat pm => key_of b58 pm ≠ k | MTick _ => True end.

Lemma observe_absent k evs table m c :
  node table m c → m !! k = None → Forall good_event evs → Forall (silent k) evs →
  ∃ table' m', observe table evs = Ret table' ∧ node table' m' (clock_after c evs) ∧ m' !! k = None.
Proof.
  intros Hn Hk Hg Hs. apply (observe_ind (λ _ m, m !! k = None) (silent k) evs table m c); try done.
  - intros ? m1 m2 ? H1 H2 _. by apply (lookup_weaken_None _ m1).
  - intros ? m1 pm rr H1 H2 _. by rewrite lookup_insert_ne.
Qed.

(** The deadline of a member's row is at most its TTL away. *)
Lemma observe_bounded r k evs table m c :
  node table m c → (∀ x, m !! k = Some x → Deadline x ≤ c + member_ttl r) → Forall good_event evs →
  (∀ pm, MBeat pm ∈ evs → key_of b58 pm = k → beat_of unmarshal read_root r pm) →
  ∃ table' m', observe table evs = Ret table' ∧ node table' m' (clock_after c evs) ∧
    ∀ x, m' !! k = Some x → Deadline x ≤ clock_after c evs + member_ttl r.
Proof.
  intros Hn Hk Hg Hb.
  apply (observe_ind (λ c m, ∀ x, m !! k = Some x → Deadline x ≤ c + member_ttl r)
    (λ e, match e with MBeat pm => key_of b58 pm = k → beat_of unmarshal read_root r pm | _ => True end) evs table m c); try done.
  - intros c1 m1 m2 t H1 H2 _ x Hx. specialize (H1 x (lookup_weaken _ _ _ _ Hx H2)). lia.
  - intros c1 m1 pm rr Ho H1 Hr x [[Hk1 <-]|[_ Hx]]%lookup_insert_Some; [|by apply H1].
    cbn [Deadline]. destruct (beat_TTL b58 unmarshal read_root r pm rr Hr (Ho Hk1)) as [-> _]. lia.
  - apply Forall_forall. intros [pm|t] Hin; [by apply Hb|done].
Qed.

(** A silent member's row is gone once the clock has passed its deadline. *)
Lemma observe_silent k E evs table m c :
  node table m c → (∀ x, m !! k = Some x → Deadline x ≤ E ∧ c ≤ E) → Forall good_event evs → Forall (silent k) evs →
  ∃ table' m', observe table evs = Ret table' ∧ node table' m' (clock_after c evs) ∧
    ∀ x, m' !! k = Some x → Deadline x ≤ E ∧ clock_after c evs ≤ E.
Proof.
  intros Hn Hk Hg Hs.
  apply (observe_ind (λ c m, ∀ x, m !! k = Some x → Deadline x ≤ E ∧ c ≤ E) (silent k) evs table m c); try done.
  - intros c1 m1 m2 t H1 H2 H3 x Hx. destruct (H1 x (lookup_weaken _ _ _ _ Hx H2)) as [Hd Hc].
    split; [done|]. destruct (Z.lt_ge_cases c1 t) as [Hlt|Hge]; [|lia]. specialize (H3 k x Hx Hlt). lia.
  - intros c1 m1 pm rr Ho H1 _ x. rewrite lookup_insert_ne by done. apply H1.
Qed.

(** A member whose messages cease is out of the table after its last deadline. *)
Lemma observe_gone r k evs1 evs2 t table t0 :
  0 ≤ t0 ≤ max_time → New t0 = Ret table → Forall good_event (evs1 ++ evs2) →
  (∀ pm, MBeat pm ∈ evs1 → key_of b58 pm = k → beat_of unmarshal read_root r pm) →
  Forall (silent k) evs2 → MTick t ∈ evs2 → clock_after t0 evs1 + member_ttl r < t → 0 ≤ member_ttl r →
  ∃ table' m, observe table (evs1 ++ evs2) = Ret table' ∧ Represents row table' m ∧ m !! k = None.
Proof.
  intros Ht0 Hnew [Hg1 Hg2]%Forall_app Hb Hs Hin Ht Hpos.
  destruct (observe_bounded r k evs1 table ∅ t0) as (t1 & m1 & Ho1 & Hn1 & Hd1);
    [by apply New_node|intros x; by rewrite lookup_empty|done|done|].
  destruct (observe_silent k (clock_after t0 evs1 + member_ttl r) evs2 t1 m1 _ Hn1)
    as (t2 & m2 & Ho2 & Hn2 & Hd2); [intros x Hx; specialize (Hd1 x Hx); lia|done|done|].
  exists t2, m2. rewrite observe_app, Ho1. split; [done|]. split; [apply Hn2|].
  destruct (m2 !! k) as [x|] eqn:Hx; [|done]. destruct (Hd2 x eq_refl) as [_ Hc].
  pose proof (clock_after_tick t (clock_after t0 evs1) evs2 Hin). lia.
Qed.

(** The first heartbeat of a member. *)
Lemma first_beat k evs :
  beats k evs ≠ [] → ∃ pre x pm post, evs = pre ++ (x, MBeat pm) :: post ∧ key_of b58 pm = k ∧
    Forall (silent k) pre.*2 ∧ beats k evs = (x, pm) :: beats k post.
Proof.
  induction evs as [|[t e] evs IH]; [done|]. rewrite beats_cons.
  destruct (beats_one b58 k t e) as [Hb|(pm & -> & Hk & ->)]; [|intros _; by exists [], t, pm, evs].
  rewrite Hb. intros (pre & x & pm & post & -> & Hk & Hs & Heq)%IH.
  exists ((t, e) :: pre), x, pm, post. split; [done|]. split; [done|]. split; [|by rewrite Heq].
  constructor; [|done]. destruct e as [pm'|t']; [|done]. cbn. unfold Membership.beats in Hb. cbn in Hb.
  by destruct (decide (key_of b58 pm' = k)).
Qed.

(** A member that joins and is refreshed in time. *)
Lemma joined_stays r k P g pre x pm post table m c :
  node table m c → m !! k = None → key_of b58 pm = k → Forall (silent k) pre.*2 →
  Forall good_event (pre ++ (x, MBeat pm) :: post).*2 → timely g c (pre ++ (x, MBeat pm) :: post) →
  refreshed b58 k P x post → P + g < member_ttl r →
  Forall (beat_of unmarshal read_root r) ((x, pm) :: beats k post).*2 →
  StronglySorted Z.lt (seq_of <$> ((x, pm) :: beats k post).*2) →
  ∃ table' m' c' d' s', observe table (pre ++ (x, MBeat pm) :: post).*2 = Ret table' ∧ node table' m' c' ∧
    member r k d' s' m'.
Proof.
  intros Hn Hm Hk Hs Hg Ht Hr HP Hb Hq. rewrite fmap_app in *. apply Forall_app in Hg as [Hg1 [Hg2 Hg3]%Forall_cons].
  apply timely_app in Ht. destruct Ht as [Hx Ht]. apply Forall_cons in Hb as [Hb Hbs].
  destruct (observe_absent k pre.*2 table m c Hn Hm Hg1 Hs) as (t1 & m1 & Ho1 & Hn1 & Hm1).
  rewrite observe_app, Ho1. cbn [bind fmap list_fmap snd Membership.observe].
  destruct (member_beat pool b58 unmarshal read_root row scan r t1 m1 _ 0 (seq_of pm - 1) pm k Hn1 Hg2 Hk) as
    (res & t2 & m2 & -> & Hn2 & Hm2); [by left|done|lia|].
  cbn [bind snd].
  destruct (observe_fed pool b58 unmarshal read_root row scan r k post.*2 t2 m2 _ _ _ Hn2 Hm2 Hg3) as
    (t3 & m3 & c3 & d3 & s3 & Ho3 & Hn3 & Hm3); [|by exists t3, m3, c3, d3, s3].
  apply (timely_fed b58 unmarshal read_root k r g P post _ x); auto. lia.
Qed.
End runs.

(** ** Properties *)

(** C1. A member stays in the routing tables of the others while it announces itself: let
    its router announce at ticks at most [g] apart with jitters up to [hi], every
    announcement reach a node within [delta], and the node's own ticks come at most [g']
    apart.  If [hi + g + delta + g'] is below the TTL of its heartbeats, then from the
    first heartbeat on the node's table has the member's row, after every event until the
    next heartbeat is overdue; messages of other peers, and undecodable ones, do not
    matter. *)
Theorem live_member_stays (pool : nat → bytes) (b58 : bytes → bytes) {msg T D : Type}
    (unmarshal : bytes → rres msg) (read_root : msg → rres api_Heartbeat)
    `{!Memdb rerror any (list IndexSchema) D} (row : D → bytes → option any) (scan : D → list (bytes * any))
    (r : Router) (k : bytes) (adv : T → Z → T) (l : loop) (g lo hi p : Z) (ticks : list (Z * Z))
    (delta g' t0 : Z) (delays : list Z) (table : Table D) (evs evs1 evs2 : list (Z * mevent)) :
  PoolSpec pool → MemdbLaws pool b58 row scan →
  (* the member *)
  0 ≤ lo → p ≤ next_announcement l → ticks_ok g lo hi p ticks →
  Forall (λ d, 0 ≤ d ≤ delta) delays →
  (beats b58 k evs).*1 = zip_with Z.add (fst (advance_ticks adv l ticks)) delays →
  Forall (beat_of unmarshal read_root r) (beats b58 k evs).*2 →
  StronglySorted Z.lt (seq_of <$> (beats b58 k evs).*2) →
  hi + g + delta + g' < member_ttl r →
  (* the node *)
  0 ≤ t0 ≤ max_time → New t0 = Ret table → Forall (good_event unmarshal read_root) evs.*2 →
  StronglySorted Z.le evs.*1 → timely g' t0 evs →
  Forall (λ t, t ≤ default t (last (beats b58 k evs).*1) + (hi + g + delta)) evs.*1 →
  evs = evs1 ++ evs2 → beats b58 k evs1 ≠ [] →
  ∃ table' m x, observe b58 unmarshal read_root table evs1.*2 = Ret table' ∧ Represents row table' m ∧
    m !! k = Some x ∧ Server (rec_Record x) = hb_server (new_heartbeat r).
Proof.
  intros Hpool Hlaws Hlo Hp Hts Hdel Harr Hbeat Hseq Httl Ht0 Hnew Hgood Hsort Htime Hend -> Hne.
  destruct (advance_ticks_spaced adv g lo hi p ticks l Hlo Hp Hts) as [Hann _].
  assert (Sorted (λ a b, b ≤ a + (hi + g + delta)) (beats b58 k (evs1 ++ evs2)).*1) as Hspaced.
  { rewrite Harr. apply arrivals_spaced; [|done]. eapply Sorted_weaken; [|exact Hann]. cbn. lia. }
  destruct (first_beat b58 k evs1 Hne) as (pre & x & pm & post & -> & Hk & Hsil & Hb1).
  rewrite beats_app, Hb1, <-app_comm_cons, <-beats_app in Hbeat, Hseq, Hspaced, Hend.
  apply timely_app_l in Htime. rewrite fmap_app in Hgood. apply Forall_app in Hgood as [Hgood _].
  rewrite <-app_assoc, <-app_comm_cons, fmap_app in Hsort, Hend.
  apply StronglySorted_app in Hsort as (_ & _ & [Hsort _]%StronglySorted_inv).
  apply Forall_app in Hend as [_ [_ Hend]%Forall_cons].
  assert (refreshed b58 k (hi + g + delta) x (post ++ evs2)) as Hr.
  { apply refreshed_spaced; [exact Hsort|exact Hspaced|]. eapply Forall_impl; [exact Hend|]. intros t.
    rewrite fmap_cons, last_cons. cbn -[last]. by destruct (last (beats _ _ _).*1). }
  rewrite beats_app, app_comm_cons, fmap_app in Hbeat, Hseq. rewrite ?fmap_app in Hseq.
  apply StronglySorted_app in Hseq as (_ & Hseq & _). apply Forall_app in Hbeat as [Hbeat _].
  destruct (joined_stays pool b58 unmarshal read_root row scan r k (hi + g + delta) g' pre x pm post table ∅ t0)
    as (table' & m' & c' & d' & s' & Ho & Hn & (y & Hy & Hsrv & _)); auto.
  - by apply (New_node pool b58 row scan).
  - by apply refreshed_app_l in Hr.
  - exists table', m', y. split; [done|]. split; [apply Hn|done].
Qed.

(** A member that falls silent leaves: after any events, once no message of it arrives
    any more and the clock has passed the latest time its TTL allows, the table has no row
    for it, whatever the other members send. *)
Theorem silent_member_leaves (pool : nat → bytes) (b58 : bytes → bytes) {msg D : Type}
    (unmarshal : bytes → rres msg) (read_root : msg → rres api_Heartbeat)
    `{!Memdb rerror any (list IndexSchema) D} (row : D → bytes → option any) (scan : D → list (bytes * any))
    (r : Router) (k : bytes) (t0 t : Z) (table : Table D) (evs1 evs2 : list mevent) :
  PoolSpec pool → MemdbLaws pool b58 row scan → 0 ≤ t0 ≤ max_time → New t0 = Ret table →
  Forall (good_event unmarshal read_root) (evs1 ++ evs2) →
  (∀ pm, MBeat pm ∈ evs1 → key_of b58 pm = k → beat_of unmarshal read_root r pm) →
  Forall (silent b58 k) evs2 → MTick t ∈ evs2 → clock_after t0 evs1 + member_ttl r < t → 0 ≤ member_ttl r →
  ∃ table' m, observe b58 unmarshal read_root table (evs1 ++ evs2) = Ret table' ∧ Represents row table' m ∧
    m !! k = None.
Proof.
  intros Hpool Hlaws. exact (observe_gone pool b58 unmarshal read_root row scan r k evs1 evs2 t table t0).
Qed.

(** ** A concrete cluster *)

(** Conjunctions of comparisons of numbers. *)
Ltac by_computing := vm_compute; repeat split; first [reflexivity | discriminate].

Section concrete.
Import concrete.

(** A router with the default TTL of ten seconds, and its heartbeats. *)
Definition toy_router : Router := setup 7 (fresh 0).
Definition toy_hb (b : bytes) : rres api_Heartbeat :=
  Ret (mkHeartbeat (hb_ttl (new_heartbeat toy_router)) 7 (Ret (bs "h")) (Ret [Ret (bs "a=b")])).
Definition toy_msg (seq : Z) : Message := mkMessage (bs "p") (be_encode 8 seq) [].
Definition toy_table : Table (gmap bytes any) := mkTable 0 (mkTableRef tbl) (mkScheduler ∅).

(** Ticks every second, and the jitter [j] at each. *)
Definition second_ticks (n : nat) (j : Z) : list (Z * Z) := (λ i, (Z.of_nat i * Second, j)) <$> seq 1 n.
Definition half_ticks (i n : nat) : list (Z * mevent) :=
  (λ i, let t := Z.of_nat i * Second + Second / 2 in (t, MTick t)) <$> seq i n.

(** The node's view of two announcements, at one second and at [i] seconds, which take 400
    and [d] milliseconds to arrive. *)
Definition toy_evs (i : nat) (d : Z) : list (Z * mevent) :=
  half_ticks 0 1 ++ [(1400 * Millisecond, MBeat (toy_msg 1))] ++ half_ticks 1 (i - 1 + (if 500 <? d then 1 else 0)) ++
  [(Z.of_nat i * Second + d * Millisecond, MBeat (toy_msg 2))].

(** With the router's own parameters a live member can be evicted: announcements are up
    to a TTL apart and come at a tick, so with a jitter just below the TTL of ten seconds and
    ticks every second two heartbeats, sent at one second and at eleven and delivered within
    600 ms, leave a gap in which the node, whose ticks also come every second, drops the
    member's row. *)
Theorem live_member_evicted :
  let r := toy_router in let evs := toy_evs 11 600 in
  R_TTL r = 10 * Second ∧ member_ttl r = R_TTL r ∧
  ticks_ok Second (R_TTL r / 2 - 1) (R_TTL r) 0 (second_ticks 11 (R_TTL r - 1)) ∧
  fst (advance_ticks (λ x _, x) (mkLoop tt 0) (second_ticks 11 (R_TTL r - 1))) = [Second; 11 * Second] ∧
  (beats b58 (bs "p") evs).*1 = zip_with Z.add [Second; 11 * Second] [400 * Millisecond; 600 * Millisecond] ∧
  timely Second 0 evs ∧ StronglySorted Z.le evs.*1 ∧
  ∃ table', observe b58 toy_unmarshal toy_hb toy_table (take 13 evs).*2 = Ret table' ∧
    drop 13 evs.*2 = [MBeat (toy_msg 2)] ∧ sdb (sched table') = ∅.
Proof.
  cbv zeta. split; [reflexivity|]. split; [reflexivity|]. split; [by_computing|].
  split; [vm_compute; reflexivity|]. split; [vm_compute; reflexivity|].
  split; [by_computing|].
  split; [vm_compute; repeat constructor; discriminate|].
  eexists. split; [vm_compute; reflexivity|]. split; vm_compute; reflexivity.
Qed.

(** With jitters of at most six seconds the member stays. *)
Definition toy_quick : list (Z * mevent) := toy_evs 8 400 ++ half_ticks 8 2.

Lemma toy_good seq : good_event toy_unmarshal toy_hb (MBeat (toy_msg seq)).
Proof.
  split; [split; [by eexists|by eexists [Ret (bs "a=b")], [bs "a=b"]]|].
  split; [by_computing|]. cbn. lia.
Qed.

Lemma toy_beat seq : beat_of toy_unmarshal toy_hb toy_router (toy_msg seq).
Proof. eexists. split; [reflexivity|]. split; reflexivity. Qed.

Lemma live_member_stays_witness :
  ∃ table' m x, observe b58 toy_unmarshal toy_hb toy_table (take 12 toy_quick).*2 = Ret table' ∧
    Represents row table' m ∧ m !! bs "p" = Some x ∧ Server (rec_Record x) = 7.
Proof.
  refine (live_member_stays pool0 b58 toy_unmarshal toy_hb row m_scan toy_router (bs "p") (λ x _, x) (mkLoop tt 0)
    Second (4 * Second) (6 * Second) 0 (second_ticks 8 (6 * Second)) (400 * Millisecond) Second 0
    [400 * Millisecond; 400 * Millisecond] toy_table toy_quick (take 12 toy_quick) (drop 12 toy_quick)
    pool0_spec laws _ _ _ _ _ _ _ _ _ _ _ _ _ _ _ _).
  - by_computing.
  - by_computing.
  - by_computing.
  - repeat constructor; by_computing.
  - vm_compute. reflexivity.
  - change (beats b58 (bs "p") toy_quick).*2 with [toy_msg 1; toy_msg 2]. repeat constructor; apply toy_beat.
  - vm_compute. repeat constructor.
  - by_computing.
  - by_computing.
  - vm_compute. reflexivity.
  - unfold toy_quick, toy_evs, half_ticks. cbn [app seq fmap list_fmap snd].
    repeat (constructor; [first [apply toy_good|by_computing]|]). constructor.
  - vm_compute. repeat constructor; discriminate.
  - by_computing.
  - unfold toy_quick at 2. unfold toy_evs, half_ticks. cbn [app seq fmap list_fmap fst].
    repeat (constructor; [by_computing|]). constructor.
  - symmetry. apply take_drop.
  - vm_compute. discriminate.
Defined.

Lemma silent_member_leaves_witness :
  ∃ table' m, observe b58 toy_unmarshal toy_hb toy_table [MTick 5; MBeat (toy_msg 1); MTick (11 * Second)] = Ret table' ∧
    Represents row table' m ∧ m !! bs "p" = None.
Proof.
  refine (silent_member_leaves pool0 b58 toy_unmarshal toy_hb row m_scan toy_router (bs "p") 0 (11 * Second) toy_table
    [MTick 5; MBeat (toy_msg 1)] [MTick (11 * Second)] pool0_spec laws _ _ _ _ _ _ _ _).
  - by_computing.
  - vm_compute. reflexivity.
  - constructor; [by_computing|]. constructor; [apply toy_good|]. constructor; [by_computing|constructor].
  - intros pm Hin _. apply elem_of_cons in Hin as [Hin|Hin]; [discriminate Hin|].
    apply list_elem_of_singleton in Hin. injection Hin as ->. apply toy_beat.
  - constructor; [exact I|constructor].
  - by apply list_elem_of_singleton.
  - by_computing.
  - by_computing.
Defined.
End concrete.
