(* ===== verification/Announcer.v ===== *)
(** * The heartbeat goroutine ([src/pkg/cluster/cluster.go]: [heartbeat], [emit])

    The goroutine owns one heartbeat for its whole life: it is built once from the router's
    TTL and id, handed to the metadata hook before each announcement, which may change it
    in place, marshalled and published.  A failure is followed by a pause that the backoff
    chooses; an announcement that becomes due meanwhile is lost, since [advance] does not
    block on the channel.

    [heartbeat] is the loop over the announcements it receives.  The backoff of
    jpillora/backoff, the hook, the encoding and the topic are arguments. *)

From stdpp Require Import base list gmap strings.
From Stdlib Require Import ZArith Lia.
From S2P Require Import Prelude Routing Pulse Router Membership.

Open Scope Z_scope.

(** ** The backoff *)

(** The fields and methods of [backoff.Backoff] the router uses; [bo_new factor min max
    jitter] is the literal.  [Duration] draws from a random source when there is jitter,
    which the state stands for. *)
Class Backoff (B : Type) := {
  bo_new : Z → Z → Z → bool → B;
  bo_Duration : B → Z * B;
  bo_Reset : B → B;
  bo_Attempt : B → Z;
  bo_Min : B → Z;
  bo_Max : B → Z }.

(** What the package documents: a duration lies between the two limits, or is the maximum
    when they are the wrong way round; taking one counts an attempt, and a reset starts
    counting anew.  The counter has 64 bits. *)
Class BackoffLaws (B : Type) `{Backoff B} : Prop := {
  new_fields f mn mx j :
    bo_Min (bo_new f mn mx j) = mn ∧ bo_Max (bo_new f mn mx j) = mx ∧ bo_Attempt (bo_new f mn mx j) = 0;
  duration_fields b : bo_Min (snd (bo_Duration b)) = bo_Min b ∧ bo_Max (snd (bo_Duration b)) = bo_Max b;
  reset_fields b : bo_Min (bo_Reset b) = bo_Min b ∧ bo_Max (bo_Reset b) = bo_Max b;
  duration_range b : 0 < bo_Min b → 0 < bo_Max b →
    Z.min (bo_Min b) (bo_Max b) ≤ fst (bo_Duration b) ≤ bo_Max b;
  duration_counts b : bo_Attempt (snd (bo_Duration b)) = u64 (bo_Attempt b + 1);
  reset_counts b : bo_Attempt (bo_Reset b) = 0 }.

Definition max_backoff : Z := 15 * 60 * Second.

(** ** The goroutine *)

(** How the loop ends: the channel was closed, publishing was cancelled, the clock's context
    was done during a pause, or code it called panicked. *)
Inductive hb_end := HbClosed | HbCanceled | HbDone | HbPanic.

#[global] Instance hb_end_eq_dec : EqDecision hb_end.
Proof. solve_decision. Defined.

Section heartbeat.
Context {B : Type} `{!Backoff B}.
(** [Prepare] changes the heartbeat in place, also when it fails. *)
Context (prepare : api_Heartbeat → outcome rerr unit * api_Heartbeat).
Context (marshal : api_Heartbeat → outcome rerr bytes).
(** [Topic.Publish], at the [n]-th announcement. *)
Context (publish : nat → bytes → outcome rerr unit).

(** [nopPreparer], the default hook. *)
Definition nopPreparer (hb : api_Heartbeat) : outcome rerr unit * api_Heartbeat := (Ret tt, hb).

(** The result, the heartbeat as the hook left it, and the message handed to the topic. *)
Definition emit (n : nat) (hb : api_Heartbeat) : outcome rerr unit * api_Heartbeat * option bytes :=
  match prepare hb with
  | (Ret _, hb) =>
      match marshal hb with
      | Ret msg => (publish n msg, hb, Some msg)
      | Fail e => (Fail e, hb, None)
      | Panic => (Panic, hb, None)
      end
  | (err, hb) => (err, hb, None)
  end.

(** What a run of the loop leaves: the messages handed to the topic with the number of their
    announcement, the pauses, the backoff, the number of announcements received, the end. *)
Record run := mkRun {
  r_msgs : list (nat * bytes); r_pauses : list Z; r_backoff : B; r_received : nat; r_end : hb_end }.

Definition log_msg (n : nat) (m : option bytes) (r : run) : run :=
  mkRun (match m with Some b => (n, b) :: r_msgs r | None => r_msgs r end)
    (r_pauses r) (r_backoff r) (r_received r) (r_end r).

Definition log_pause (d : Z) (r : run) : run :=
  mkRun (r_msgs r) (d :: r_pauses r) (r_backoff r) (r_received r) (r_end r).

(** The loop from the [n]-th announcement on.  [rounds] has an element for every
    announcement until the channel is closed: whether the clock's context is done before
    the timer of the pause that follows it, if one does. *)
Fixpoint heartbeat_loop (n : nat) (b : B) (hb : api_Heartbeat) (rounds : list bool) : run :=
  match rounds with
  | [] => mkRun [] [] b n HbClosed
  | done :: rounds' =>
      let '(err, hb, m) := emit n hb in
      log_msg n m
        match err with
        | Ret _ => heartbeat_loop (S n) (bo_Reset b) hb rounds'
        | Fail e =>
            if bool_decide (e = ErrCanceled) then mkRun [] [] b (S n) HbCanceled
            else
              let '(d, b) := bo_Duration b in
              log_pause d (if done then mkRun [] [] b (S n) HbDone
                           else heartbeat_loop (S n) b hb rounds')
        | Panic => mkRun [] [] b (S n) HbPanic
        end
  end.

Definition heartbeat (r : Router) (rounds : list bool) : run :=
  heartbeat_loop 0 (bo_new 2 (Z.quot (R_TTL r) 2) max_backoff true) (new_heartbeat r) rounds.
End heartbeat.

(** ** Facts *)
Section facts.
Context {B : Type} `{!Backoff B} `{!BackoffLaws B}.
Context (prepare : api_Heartbeat → outcome rerr unit * api_Heartbeat).
Context (marshal : api_Heartbeat → outcome rerr bytes) (publish : nat → bytes → outcome rerr unit).

Abbreviation emit := (emit prepare marshal publish).
Abbreviation heartbeat_loop := (heartbeat_loop prepare marshal publish).

Lemma log_msg_rest n m (r : run (B:=B)) :
  r_pauses (log_msg n m r) = r_pauses r.
Proof. done. Qed.

(** The shared heartbeat after the hook has run [n] times. *)
Fixpoint shared (n : nat) (hb : api_Heartbeat) : api_Heartbeat :=
  match n with O => hb | S n => snd (prepare (shared n hb)) end.

Lemma emit_shared n hb err hb' m :
  emit n hb = (err, hb', m) →
  hb' = snd (prepare hb) ∧ ∀ b, m = Some b → fst (prepare hb) = Ret tt ∧ marshal hb' = Ret b.
Proof.
  unfold Announcer.emit. destruct (prepare hb) as [[[]|e|] hb1].
  - destruct (marshal hb1) as [b|e|] eqn:Hm; intros [= <- <- <-]; by split; [|intros ? [= <-]].
  - by intros [= <- <- <-].
  - by intros [= <- <- <-].
Qed.

(** The message of announcement [n] is the heartbeat after [n + 1] runs of the hook. *)
Definition message_ok (hb : api_Heartbeat) (p : nat * bytes) : Prop :=
  fst (prepare (shared p.1 hb)) = Ret tt ∧ marshal (shared (S p.1) hb) = Ret p.2.

Lemma loop_msgs hb0 rounds n b :
  Forall (message_ok hb0) (r_msgs (heartbeat_loop n b (shared n hb0) rounds)).
Proof.
  revert n b. induction rounds as [|done rounds IH]; intros n b; [constructor|].
  cbn [Announcer.heartbeat_loop].
  destruct (emit n (shared n hb0)) as [[err hb1] m] eqn:He.
  destruct (emit_shared _ _ _ _ _ He) as [-> Hm].
  assert (∀ r : run (B:=B), Forall (message_ok hb0) (r_msgs r) →
    Forall (message_ok hb0) (r_msgs (log_msg n m r))) as Hlog.
  { intros r Hr. destruct m as [d|]; [|done]. constructor; [|done]. by apply Hm. }
  apply Hlog. destruct err as [u|e|]; [by apply (IH (S n))| |constructor].
  case_bool_decide; [constructor|]. destruct (bo_Duration b) as [d b1]. cbn.
  destruct done; [constructor|by apply (IH (S n))].
Qed.

Lemma loop_pauses rounds n b hb :
  0 < bo_Min b → 0 < bo_Max b →
  Forall (λ d, Z.min (bo_Min b) (bo_Max b) ≤ d ≤ bo_Max b) (r_pauses (heartbeat_loop n b hb rounds)).
Proof.
  remember (bo_Min b) as mn eqn:Hmn. remember (bo_Max b) as mx eqn:Hmx. intros H1 H2. revert n b hb Hmn Hmx.
  induction rounds as [|done rounds IH]; intros n b hb Hmn Hmx; [constructor|]. cbn [Announcer.heartbeat_loop].
  destruct (emit n hb) as [[err hb1] m]. rewrite log_msg_rest.
  destruct err as [u|e|]; [|case_bool_decide; [constructor|]|constructor].
  - destruct (reset_fields b) as [Hn Hx]. apply IH; congruence.
  - pose proof (duration_range b) as Hr. destruct (duration_fields b) as [Hn Hx].
    destruct (bo_Duration b) as [d b1]. cbn in *. constructor; [rewrite <-Hmn, <-Hmx in Hr; auto|].
    destruct done; [constructor|]. apply IH; congruence.
Qed.

Lemma shared_keeps n hb :
  (∀ hb, hb_ttl (snd (prepare hb)) = hb_ttl hb ∧ hb_server (snd (prepare hb)) = hb_server hb) →
  hb_ttl (shared n hb) = hb_ttl hb ∧ hb_server (shared n hb) = hb_server hb.
Proof.
  intros Hp. induction n as [|n [IH1 IH2]]; [done|]. cbn.
  destruct (Hp (shared n hb)) as [-> ->]. done.
Qed.

(** Failures other than a cancellation. *)
Definition transient {A} (c : outcome rerr A) : Prop := c ≠ Panic ∧ c ≠ Fail ErrCanceled.

Lemma emit_transient n hb :
  (∀ hb, transient (fst (prepare hb))) → (∀ hb, transient (marshal hb)) → (∀ n b, transient (publish n b)) →
  transient (fst (fst (emit n hb))).
Proof.
  intros Hp Hm Hpub. unfold Announcer.emit. specialize (Hp hb). destruct (prepare hb) as [[u|e|] hb1]; cbn in *; [|done|done].
  specialize (Hm hb1). destruct (marshal hb1) as [b|e|]; cbn in *; [auto| |by destruct Hm].
  destruct Hm as [_ Hm]. split; congruence.
Qed.

(** The loop goes on until the channel is closed. *)
Lemma loop_serves rounds :
  (∀ hb, transient (fst (prepare hb))) → (∀ hb, transient (marshal hb)) → (∀ n b, transient (publish n b)) →
  Forall (λ done, done = false) rounds → ∀ n b hb,
  r_end (heartbeat_loop n b hb rounds) = HbClosed ∧
  r_received (heartbeat_loop n b hb rounds) = (n + length rounds)%nat.
Proof.
  intros Hp Hm Hpub. induction 1 as [|ctx rounds -> _ IH]; intros n b hb; [cbn; split; [done|lia]|].
  pose proof (emit_transient n hb Hp Hm Hpub) as [H1 H2]. cbn [Announcer.heartbeat_loop length].
  destruct (emit n hb) as [[err hb1] m]. cbn in H1, H2.
  replace (n + S (length rounds))%nat with (S n + length rounds)%nat by lia.
  destruct err as [u|e|]; [exact (IH (S n) (bo_Reset b) hb1)| |done].
  rewrite bool_decide_false by congruence. destruct (bo_Duration b) as [d b1]. exact (IH (S n) b1 hb1).
Qed.
End facts.

(** ** Properties *)

(** C19. The heartbeat goroutine survives failures and announces the router.  For an
    encoding that decodes to what was encoded and a TTL above one nanosecond: the message
    handed to the topic at announcement [n] decodes to the heartbeat the router built, with
    its TTL and id, after exactly [n + 1] runs of the metadata hook on it, the last of which
    succeeded (the heartbeat is shared: what failed runs of the hook wrote is kept); if the hook
    touches neither TTL nor id, the message is a beat of the router; every pause lies
    between half the TTL and a quarter of an hour; and as long as nothing panics or is
    cancelled the loop serves every announcement until its channel is closed. *)
Theorem heartbeat_announces {B msg : Type} `{!Backoff B} `{!BackoffLaws B}
    (unmarshal : bytes → rres msg) (read_root : msg → rres api_Heartbeat)
    (prepare : api_Heartbeat → outcome rerr unit * api_Heartbeat)
    (marshal : api_Heartbeat → outcome rerr bytes) (publish : nat → bytes → outcome rerr unit)
    (r : Router) (rounds : list bool) :
  (∀ hb b, marshal hb = Ret b → (c <~ unmarshal b ;; read_root c) = Ret hb) →
  1 < R_TTL r →
  let run := heartbeat (B:=B) prepare marshal publish r rounds in
  (∀ n b, (n, b) ∈ r_msgs run →
     fst (prepare (shared prepare n (new_heartbeat r))) = Ret tt ∧
     (c <~ unmarshal b ;; read_root c) = Ret (shared prepare (S n) (new_heartbeat r))) ∧
  ((∀ hb, hb_ttl (snd (prepare hb)) = hb_ttl hb ∧ hb_server (snd (prepare hb)) = hb_server hb) →
   ∀ n b pm, (n, b) ∈ r_msgs run → Data pm = b → beat_of unmarshal read_root r pm) ∧
  Forall (λ d, Z.min (R_TTL r / 2) max_backoff ≤ d ≤ max_backoff) (r_pauses run) ∧
  ((∀ hb, transient (fst (prepare hb))) → (∀ hb, transient (marshal hb)) → (∀ n b, transient (publish n b)) →
   Forall (λ done, done = false) rounds → r_end run = HbClosed ∧ r_received run = length rounds).
Proof.
  intros Hcodec Httl run.
  assert (∀ n b, (n, b) ∈ r_msgs run → message_ok prepare marshal (new_heartbeat r) (n, b)) as Hm.
  { pose proof (loop_msgs prepare marshal publish (new_heartbeat r) rounds 0
      (bo_new 2 (Z.quot (R_TTL r) 2) max_backoff true)) as Hl.
    rewrite Forall_forall in Hl. intros n b. apply Hl. }
  split; [|split; [|split]].
  - intros n b [H1 H2]%Hm. split; [done|by apply Hcodec].
  - intros Hprep n b pm [_ H2]%Hm <-.
    destruct (shared_keeps prepare (S n) (new_heartbeat r) Hprep) as [Ht Hs].
    apply Hcodec in H2 as (c & Hu & Hc)%bind_Ret_inv. cbn [fst snd] in *.
    exists (mkRR (From pm) (Seqno pm) (shared prepare (S n) (new_heartbeat r))).
    unfold record, ReadMessage. rewrite Hu. cbn [bind]. rewrite Hc. cbn [bind]. by split_and!.
  - destruct (new_fields (B:=B) 2 (Z.quot (R_TTL r) 2) max_backoff true) as (H1 & H2 & _).
    pose proof (loop_pauses prepare marshal publish rounds 0 (bo_new 2 (Z.quot (R_TTL r) 2) max_backoff true)
      (new_heartbeat r)) as Hp.
    subst run. unfold heartbeat. rewrite Z.quot_div_nonneg in * by lia. rewrite H1, H2 in Hp. apply Hp; [|done]. apply Z.div_str_pos; lia.
  - intros Hp Hma Hpub Hr. exact (loop_serves prepare marshal publish rounds Hp Hma Hpub Hr 0 _ _).
Qed.

(** A hook whose own context is cancelled ends the announcements for good, although the
    router is running: the loop takes the error for its own shutdown and receives no further
    announcement. *)
Theorem hook_cancel_silences {B : Type} `{!Backoff B} (prepare : api_Heartbeat → outcome rerr unit * api_Heartbeat)
    (marshal : api_Heartbeat → outcome rerr bytes) (publish : nat → bytes → outcome rerr unit) (r : Router)
    (done : bool) (rounds : list bool) :
  fst (prepare (new_heartbeat r)) = Fail ErrCanceled →
  r_msgs (heartbeat (B:=B) prepare marshal publish r (done :: rounds)) = [] ∧
  r_received (heartbeat (B:=B) prepare marshal publish r (done :: rounds)) = 1%nat ∧
  r_end (heartbeat (B:=B) prepare marshal publish r (done :: rounds)) = HbCanceled.
Proof.
  intros Hp. unfold heartbeat. cbn [heartbeat_loop]. unfold emit.
  destruct (prepare (new_heartbeat r)) as [err hb]. cbn in Hp. subst err. by rewrite bool_decide_true.
Qed.

(** ** A concrete router *)

(** A backoff without jitter: the limits and the number of attempts. *)
Record toy_backoff := mkBO { t_min : Z; t_max : Z; t_attempt : Z }.

#[local] Instance toy_bo : Backoff toy_backoff := {
  bo_new _ mn mx _ := mkBO mn mx 0;
  bo_Duration b := (Z.min (t_min b * 2 ^ Z.max 0 (t_attempt b)) (t_max b), mkBO (t_min b) (t_max b) (u64 (t_attempt b + 1)));
  bo_Reset b := mkBO (t_min b) (t_max b) 0;
  bo_Attempt := t_attempt;
  bo_Min := t_min;
  bo_Max := t_max }.

#[local] Instance toy_bo_laws : BackoffLaws toy_backoff.
Proof.
  split; try done. intros [mn mx k]. cbn. intros H1 H2.
  assert (1 ≤ 2 ^ Z.max 0 k) by (apply (Z.pow_le_mono_r 2 0); lia). nia.
Qed.

(** TTL and server as big-endian numbers; the encoding knows one host. *)
Definition toy_marshal (hb : api_Heartbeat) : outcome rerr bytes :=
  if bool_decide (in_u 32 (hb_ttl hb) ∧ in_u 64 (hb_server hb) ∧ hb_host hb = Ret (bs "h") ∧ hb_meta hb = Ret [])
  then Ret (be_encode 4 (hb_ttl hb) ++ be_encode 8 (hb_server hb)) else Fail (ErrPublish 1).

Definition toy_read (b : bytes) : rres api_Heartbeat :=
  Ret (mkHeartbeat (be_decode (take 4 b)) (be_decode (drop 4 b)) (Ret (bs "h")) (Ret [])).

Lemma toy_codec hb b : toy_marshal hb = Ret b → (c <~ (Ret b : rres bytes) ;; toy_read c) = Ret hb.
Proof.
  unfold toy_marshal. case_bool_decide as Hok; [|done]. destruct Hok as (H1 & H2 & H3 & H4).
  set (e := be_encode 4 _ ++ be_encode 8 _). intros [= <-]. unfold toy_read, e. cbn [bind]. rewrite take_app_length', drop_app_length' by (by rewrite be_encode_length).
  rewrite !be_decode_encode, !Z.mod_small by done. destruct hb; cbn in *; by subst.
Qed.

(** A hook that sets the host, and a topic that fails the second time: three announcements
    are served with one pause of five seconds. *)
Lemma heartbeat_announces_witness :
  let hook hb := (Ret tt, SetHost hb (bs "h")) in
  let topic n (b : bytes) := if (n =? 1)%nat then Fail (ErrPublish 2) else Ret tt in
  let run := heartbeat (B:=toy_backoff) hook toy_marshal topic toy_router [false; false; false] in
  r_pauses run = [5 * Second] ∧ length (r_msgs run) = 3%nat ∧ r_end run = HbClosed ∧
  ∀ n b pm, (n, b) ∈ r_msgs run → Data pm = b → beat_of (λ b, Ret b) toy_read toy_router pm.
Proof.
  intros hook topic run. split; [vm_compute; reflexivity|]. split; [vm_compute; reflexivity|].
  destruct (heartbeat_announces (B:=toy_backoff) (λ b, Ret b) toy_read hook toy_marshal topic toy_router
    [false; false; false] toy_codec ltac:(vm_compute; reflexivity)) as (_ & H1 & _ & H3).
  split; [|exact (H1 (λ hb, conj eq_refl eq_refl))]. apply H3.
  - intros hb. split; discriminate.
  - intros hb. unfold toy_marshal. case_bool_decide; split; discriminate.
  - intros n b. unfold topic. destruct (n =? 1)%nat; split; discriminate.
  - repeat constructor.
Defined.
