(* ===== verification/Directory.v ===== *)
(** * The cluster as a directory: queries over the network and the members they find

    A client asks a node for the records with a given peer, host or metadata field
    ([query.go], [view.go]); the node looks them up in the indexes of its routing table
    ([server.go], [routing/query.go]) and streams them back ([client.go]).  This file
    composes the description of the query, the indexers, the database, the copies and the
    client's records, and then adds what feeds the table ([Membership]): a member that
    announces itself is found by its peer id, one that has fallen silent is listed no more.

    Lookups by index are [IndexLaws].  memdb searches an index for the entries that begin with
    what is asked for; in an index that is not unique, an entry is a value followed by the
    primary key of its row ([entry]).  The indexers of the schema add no terminator, so that a
    lookup can also meet rows whose value, or value and key, merely begins with the one asked
    for.  The laws promise the rows that have the value and allow the others. *)

From stdpp Require Import base list gmap strings sorting.
From Stdlib Require Import ZArith Lia Sorted.
From S2P Require Import Prelude Stm Routing RoutingTable RoutingProps Query Pulse ClusterView Router Membership.

Open Scope Z_scope.

(** ** Lookups by index *)
Section laws.
Context (pool : nat → bytes) (b58 : bytes → bytes).
Context {D : Type} `{!Memdb rerror any (list IndexSchema) D}.

(** What the index stores for a value of the row with primary key [k]. *)
Definition entry (s : IndexSchema) (k x : bytes) : bytes := if Unique s then x else x ++ k.

(** The row [v] has an index value that satisfies [P]. *)
Definition has_value (s : IndexSchema) (P : bytes → Prop) (v : any) : Prop :=
  ∃ vals x, index_obj pool b58 s v = Ret vals ∧ x ∈ vals ∧ P x.

(** The indexes of the schema that are not unique and can be searched by prefix. *)
Definition text_index (s : IndexSchema) : Prop :=
  s ∈ schema ∧ (Indexer s = hostnameIndexer ∨ Indexer s = metaIndexer).

Class IndexLaws (row : D → bytes → option any) (scan : D → list (bytes * any)) : Prop := {
  get_id d a p : idIndexer_FromArgs b58 [a] = Ret p →
    ∃ f : bytes → bool, f p = true ∧ (∀ k, f k = true → prefixb p k = true) ∧
      db_get d tbl (bs "id") [a] = Ret (snd <$> filter (λ kv, f kv.1 = true) (scan d));
  get_values d s a p : text_index s → FromArgs pool b58 (Indexer s) [a] = Ret p →
    ∃ it, db_get d tbl (Name s) [a] = Ret it ∧
      (∀ v, v ∈ it → ∃ k, row d k = Some v ∧ has_value s (λ x, prefixb p (entry s k x) = true) v) ∧
      (∀ k v, row d k = Some v → has_value s (λ x, x = p) v → v ∈ it);
  get_values_prefix d s a p : text_index s → FromArgs pool b58 (Indexer s) [a] = Ret p →
    ∃ it, db_get d tbl (Name s ++ bs "_prefix") [a] = Ret it ∧
      (∀ v, v ∈ it → ∃ k, row d k = Some v ∧ has_value s (λ x, prefixb p (entry s k x) = true) v) ∧
      (∀ k v, row d k = Some v → has_value s (λ x, prefixb p x = true) v → v ∈ it) }.

Lemma prefixb_entry s k p x : prefixb p x = true → prefixb p (entry s k x) = true.
Proof.
  unfold entry. destruct (Unique s); [done|]. intros [t ->]%prefixb_spec. apply prefixb_spec. exists (t ++ k).
  by rewrite <-(assoc_L (++)).
Qed.
End laws.

(** ** The concrete database has them *)
Section concrete_laws.
Context (pool : nat → bytes) (b58 : bytes → bytes).
#[local] Existing Instance memdb_map.

Lemma m_entries_value (s : IndexSchema) (d : gmap bytes any) (x : bytes) (v : any) :
  (x, v) ∈ m_entries pool b58 s d ↔
  ∃ k vals, d !! k = Some v ∧ index_obj pool b58 s v = Ret vals ∧ x ∈ vals.
Proof.
  unfold m_entries. rewrite merge_sort_Permutation, list_elem_of_bind. split.
  - intros ([k v'] & Hin & Hk). apply elem_of_map_to_list in Hk. cbn in Hin.
    destruct (index_obj pool b58 s v') as [vals|e|] eqn:Hv; [|by apply elem_of_nil in Hin..].
    apply list_elem_of_fmap in Hin as (y & [= -> ->] & Hy). by exists k, vals.
  - intros (k & vals & Hk & Hv & Hx). exists (k, v). split; [|by apply elem_of_map_to_list].
    cbn. rewrite Hv. apply list_elem_of_fmap. by exists x.
Qed.

Lemma m_query_value (flt : bytes → bytes → bool) (s : IndexSchema) (d : gmap bytes any) (ix : bytes) (a : any) (p : bytes) :
  find_index ix = Some s → Name s ≠ bs "id" → FromArgs pool b58 (Indexer s) [a] = Ret p →
  ∃ it, m_query pool b58 flt d ix [a] = Ret it ∧
    ∀ v, v ∈ it ↔ ∃ k, d !! k = Some v ∧ has_value pool b58 s (λ x, flt p x = true) v.
Proof.
  intros Hix Hne Hp. unfold m_query. rewrite Hix, Hp. cbn [bind].
  destruct (bytes_eqb (Name s) (bs "id")) eqn:He; [by apply bool_decide_eq_true in He|].
  eexists. split; [done|]. intros v. rewrite list_elem_of_fmap. split.
  - intros ([x v'] & -> & [Hf (k & vals & Hk & Hv & Hx)%m_entries_value]%list_elem_of_filter).
    exists k. split; [done|]. by exists vals, x.
  - intros (k & Hk & vals & x & Hv & Hx & Hf). exists (x, v). split; [done|].
    apply list_elem_of_filter. split; [done|]. apply m_entries_value. by exists k, vals.
Qed.

#[global] Instance memdb_map_index :
  IndexLaws (Memdb0 := memdb_map pool b58) pool b58 (λ d k, d !! k) m_scan.
Proof.
  split.
  - intros d a p Hp. exists (bytes_eqb p). split; [by apply bool_decide_eq_true|]. split.
    + intros k <-%bool_decide_eq_true. apply prefixb_spec. exists []. by rewrite app_nil_r.
    + unfold db_get, memdb_map, m_get, m_query.
      change (find_index (bs "id")) with (Some (mkIndexSchema (bs "id") true false idIndexer)).
      cbn [Indexer FromArgs Name]. by rewrite Hp.
  - intros d s a p [Hs Hi] Hp.
    assert (find_index (Name s) = Some s ∧ Name s ≠ bs "id" ∧ bool_decide (Name s ∈ (Name <$> schema)) = true) as (H1 & H2 & H3).
    { unfold schema in Hs. rewrite !elem_of_cons in Hs.
      destruct Hs as [->|[->|[->|[->|[->|[]%elem_of_nil]]]]]; cbn in Hi; (by destruct Hi) || done. }
    destruct (m_query_value bytes_eqb s d (Name s) a p H1 H2 Hp) as (it & Hq & Hit). exists it.
    split; [unfold db_get, memdb_map, m_get; by rewrite H3|]. split.
    + intros v (k & Hk & vals & x & Hv & Hx & <-%bool_decide_eq_true)%Hit. exists k. split; [done|].
      exists vals, p. split; [done|]. split; [done|]. apply prefixb_entry, prefixb_spec. exists []. by rewrite app_nil_r.
    + intros k v Hk (vals & x & Hv & Hx & ->). apply Hit. exists k. split; [done|]. exists vals, p.
      split; [done|]. split; [done|]. by apply bool_decide_eq_true.
  - intros d s a p [Hs Hi] Hp.
    assert (find_index (Name s ++ bs "_prefix") = Some s ∧ Name s ≠ bs "id" ∧
      bool_decide (Name s ++ bs "_prefix" ∈ (Name <$> schema)) = false) as (H1 & H2 & H3).
    { unfold schema in Hs. rewrite !elem_of_cons in Hs.
      destruct Hs as [->|[->|[->|[->|[->|[]%elem_of_nil]]]]]; cbn in Hi; (by destruct Hi) || done. }
    destruct (m_query_value prefixb s d _ a p H1 H2 Hp) as (it & Hq & Hit). exists it.
    split; [unfold db_get, memdb_map, m_get; by rewrite H3|].
    split; [intros v (k & Hk & vals & x & Hv & Hx & Hf)%Hit; exists k; split; [done|]; exists vals, x; by auto using prefixb_entry|].
    intros k v Hk Hv. apply Hit. by exists k.
Qed.
End concrete_laws.

(** ** A matching query, end to end *)

(** The index of the schema a query goes to. *)
Definition which_schema (t : View_Index) : IndexSchema :=
  match vi_which t with
  | Which_peer _ => mkIndexSchema (bs "id") true false idIndexer
  | Which_server _ => mkIndexSchema (bs "server") true false serverIndexer
  | Which_host _ => mkIndexSchema (bs "host") false true hostnameIndexer
  | Which_meta _ => mkIndexSchema (bs "meta") false true metaIndexer
  end.

(** What a query asks for: a value, or a prefix. *)
Definition asked (t : View_Index) (x : bytes) : Prop :=
  if vi_prefix t then prefixb (which_bytes t) x = true else x = which_bytes t.

Section match_.
Context (pool : nat → bytes) (b58 : bytes → bytes).
Context {D : Type} `{!Memdb rerror any (list IndexSchema) D}.
Context (row : D → bytes → option any) (scan : D → list (bytes * any)).
Context `{PoolSpec pool} `{!MemdbLaws pool b58 row scan} `{!IndexLaws pool b58 row scan}.

(** The rows an iterator of the database goes through are rows of the table. *)
Lemma rows_of_table table m (it : list any) :
  Represents row table m → (∀ v, v ∈ it → ∃ k, row (sdb (sched table)) k = Some v) →
  ∃ l : list (bytes * Routing.record), it = (λ kr, Any_record kr.2) <$> l ∧ Forall (λ kr, m !! kr.1 = Some kr.2) l.
Proof.
  intros Hrep. induction it as [|v it IH]; intros Hit; [by exists []|].
  destruct IH as (l & -> & Hl); [intros; apply Hit; by right|].
  destruct (Hit v) as [k Hk]; [by left|]. rewrite (rep_rows _ _ _ Hrep k) in Hk.
  apply fmap_Some in Hk as (r & Hr & ->). exists ((k, r) :: l). split; [done|]. by constructor.
Qed.

Lemma row_index_id k r table m :
  Represents row table m → m !! k = Some r →
  index_obj pool b58 (mkIndexSchema (bs "id") true false idIndexer) (Any_record r) = Ret [k].
Proof.
  intros Hrep Hk. destruct (rep_keys _ _ _ Hrep _ _ Hk) as [s [(Hp & _) _]].
  unfold index_obj. cbn. unfold idIndexer_FromObject. cbn. unfold record_PeerBytes. by rewrite Hp.
Qed.

(** Rows of the database with a value that satisfies [P]. *)
Abbreviation matching d s P := (λ v, ∃ k, row d k = Some v ∧ has_value pool b58 s P v).

(** Rows with an entry that begins with [p]. *)
Abbreviation beginning d s p :=
  (λ v, ∃ k, row d k = Some v ∧ has_value pool b58 s (λ x, prefixb p (entry s k x) = true) v).

(** The rows of the primary index with a key that [f] selects. *)
Lemma scan_filter table m (f : bytes → bool) v :
  Represents row table m →
  v ∈ (snd <$> filter (λ kv, f kv.1 = true) (scan (sdb (sched table)))) ↔
  matching (sdb (sched table)) (mkIndexSchema (bs "id") true false idIndexer) (λ x, f x = true) v.
Proof.
  intros Hrep. rewrite list_elem_of_fmap. split.
  - intros ([k v'] & -> & [Hf Hin]%list_elem_of_filter). apply (scan_rows pool b58 (row := row)) in Hin.
    exists k. split; [done|]. rewrite (rep_rows _ _ _ Hrep k) in Hin. apply fmap_Some in Hin as (r & Hr & ->).
    exists [k], k. split; [by apply (row_index_id k r table m)|]. split; [by left|done].
  - intros (k & Hk & vals & x & Hv & Hx & Hf). exists (k, v). split; [done|]. apply list_elem_of_filter.
    split; [|by apply (scan_rows pool b58 (row := row))].
    pose proof Hk as Hk'. rewrite (rep_rows _ _ _ Hrep k) in Hk'. apply fmap_Some in Hk' as (r & Hr & ->).
    rewrite (row_index_id k r table m Hrep Hr) in Hv. injection Hv as <-.
    by apply list_elem_of_singleton in Hx as ->.
Qed.

Lemma has_value_weaken s (P Q : bytes → Prop) v :
  (∀ x, P x → Q x) → has_value pool b58 s P v → has_value pool b58 s Q v.
Proof. intros HPQ (vals & x & ? & ? & ?). exists vals, x. auto. Qed.

(** What the database answers to the server's index. *)
Lemma db_match table m t :
  Represents row table m → (∀ b, vi_which t ≠ Which_server b) →
  ∃ it, db_get (sdb (sched table)) tbl (index (index_ t)) [AnyIndex (index_ t)] = Ret it ∧
    (∀ v, v ∈ it → beginning (sdb (sched table)) (which_schema t) (which_bytes t) v) ∧
    (∀ v, matching (sdb (sched table)) (which_schema t) (asked t) v → v ∈ it).
Proof.
  intros Hrep Hns. set (d := sdb (sched table)). destruct t as [[p|b|p|p] pre]; [|by destruct (Hns b)| |].
  - assert (idIndexer_FromArgs b58 [AnyIndex (index_ (mkVIndex (Which_peer p) pre))] = Ret p) as Hp by done.
    destruct pre; cbn [vi_prefix asked which_bytes vi_which which_schema].
    + destruct (get_id_prefix pool b58 (row := row) (scan := scan) d _ _ Hp) as [Hg _].
      eexists. split; [exact Hg|]. split; intros v; apply (scan_filter table m (prefixb p) v Hrep).
    + destruct (get_id pool b58 (row := row) (scan := scan) d _ _ Hp) as (f & Hfp & Hf & Hg).
      eexists. split; [exact Hg|]. split; intros v.
      * intros (k & Hk & Hv)%(scan_filter table m f v Hrep). exists k. split; [done|]. exact (has_value_weaken _ _ _ _ Hf Hv).
      * intros (k & Hk & Hv). apply (scan_filter table m f v Hrep). exists k. split; [done|].
        eapply has_value_weaken; [|exact Hv]. by intros x ->.
  - assert (text_index (mkIndexSchema (bs "host") false true hostnameIndexer)) as Ht.
    { split; [|by left]. apply (list_elem_of_lookup_2 _ 3). reflexivity. }
    destruct pre;
      [destruct (get_values_prefix pool b58 (row := row) (scan := scan) d _ (AnyIndex (index_ (mkVIndex (Which_host p) true))) p Ht eq_refl)
         as (it & Hg & H1 & H2)
      |destruct (get_values pool b58 (row := row) (scan := scan) d _ (AnyIndex (index_ (mkVIndex (Which_host p) false))) p Ht eq_refl)
         as (it & Hg & H1 & H2)];
      (exists it; split; [exact Hg|]; split; [exact H1|intros v (k & Hk & Hv); by apply (H2 k v Hk)]).
  - assert (text_index (mkIndexSchema (bs "meta") false true metaIndexer)) as Ht.
    { split; [|by right]. apply (list_elem_of_lookup_2 _ 4). reflexivity. }
    destruct pre;
      [destruct (get_values_prefix pool b58 (row := row) (scan := scan) d _ (AnyIndex (index_ (mkVIndex (Which_meta p) true))) p Ht eq_refl)
         as (it & Hg & H1 & H2)
      |destruct (get_values pool b58 (row := row) (scan := scan) d _ (AnyIndex (index_ (mkVIndex (Which_meta p) false))) p Ht eq_refl)
         as (it & Hg & H1 & H2)];
      (exists it; split; [exact Hg|]; split; [exact H1|intros v (k & Hk & Hv); by apply (H2 k v Hk)]).
Qed.

(** What the snapshot of the table answers to it. *)
Lemma snapshot_match table m t :
  Represents row table m → (∀ b, vi_which t ≠ Which_server b) →
  ∃ l, snap_Get (table_snapshot table) (index_ t) = Ret (rec_of l) ∧
    Forall (λ kr, m !! kr.1 = Some kr.2 ∧
      has_value pool b58 (which_schema t) (λ x, prefixb (which_bytes t) (entry (which_schema t) kr.1 x) = true) (Any_record kr.2)) l ∧
    ∀ k r, m !! k = Some r → has_value pool b58 (which_schema t) (asked t) (Any_record r) → r ∈ l.*2.
Proof.
  intros Hrep Hns. destruct (db_match table m t Hrep Hns) as (it & Hget & Hsound & Hcomplete).
  destruct (rows_of_table table m it Hrep) as (l & -> & Hl); [intros v Hv; destruct (Hsound v Hv) as (k & ? & _); by exists k|].
  exists l. split; [|split].
  - unfold table_snapshot, query_Get, iterate, Get, Table_Snapshot. cbn [snap_Get q_tx q_records txn Scheduler_Txn].
    rewrite (rep_ref _ _ _ Hrep). cbn [name]. rewrite Hget. cbn [bind]. clear.
    induction l as [|kr l IH]; [done|]. cbn in *. by rewrite IH.
  - rewrite Forall_forall in Hl |- *. intros kr Hkr. pose proof (Hl kr Hkr) as Hm. split; [done|].
    destruct (Hsound (Any_record kr.2)) as (k & Hk & Hv); [apply list_elem_of_fmap; by exists kr|].
    rewrite (rep_rows _ _ _ Hrep k) in Hk. apply fmap_Some in Hk as (r & Hr & [= <-]).
    pose proof (row_index_id _ _ _ _ Hrep Hm) as H1. rewrite (row_index_id _ _ _ _ Hrep Hr) in H1. by injection H1 as <-.
  - intros k r Hk Hv. destruct (proj1 (list_elem_of_fmap _ _ _) (Hcomplete (Any_record r)
      (ex_intro _ k (conj (eq_trans (rep_rows _ _ _ Hrep k) (f_equal (fmap Any_record) Hk)) Hv)))) as (kr & [= ->] & Hkr).
    apply list_elem_of_fmap. by exists kr.
Qed.
(** The server streams the records its snapshot selects. *)
Lemma Server_Iter_selects (put : bytes → rres unit) table m sel ix l :
  (∀ b, put b = Ret tt) → Represents row table m → selector sel = Select ix →
  (∀ k r, m !! k = Some r → ∃ name, Host (rec_Record r) = Ret name) →
  snap_Get (table_snapshot table) ix = Ret (rec_of l) → Forall (λ kr, m !! kr.1 = Some kr.2) l →
  ∃ vs cs, (∀ fuel, (length l < fuel)%nat →
      Server_Iter put (Ret tt) fuel (table_snapshot table) (Ret sel) = Ret vs) ∧
    omapM newRecord vs = Ret cs ∧ Forall2 same_record (rec_of l) cs.
Proof.
  intros Hput Hrep Hsel Hhost Hget Hl.
  assert (Forall (λ r, ∃ v, copyRecord put (Ret tt) None r = Ret v) (rec_of l)) as Hcopy.
  { apply Forall_forall. intros r ([k rr] & -> & Hin)%list_elem_of_fmap. 
    pose proof (proj1 (Forall_forall _ _) Hl _ Hin) as Hk. cbn in Hk.
    destruct (rep_keys _ _ _ Hrep _ _ Hk) as [s [(_ & _ & mm & ms & Hm & _) Hs]].
    destruct (Hhost _ _ Hk) as [name Hn]. by eapply copyRecord_total. }
  destruct (copy_all put _ Hcopy) as (vs & cs & Hvs & Hcs & Hsame). exists vs, cs. split; [|done].
  intros fuel Hfuel. unfold Server_Iter, Server_bind. cbn [bind]. rewrite Hsel.
  rewrite (selects_run _ _ _ [] (selects_get _ _ _ Hget)). cbn [bind fst snd].
  erewrite bind_loop_rep; [|by apply rep_snap|unfold rec_of; rewrite length_fmap; lia].
  by rewrite (stream_fold put (Ret tt) (rec_of l) [] vs).
Qed.

(** The first row of an exact lookup by key is the row with that key. *)
Lemma first_exact (l : list (bytes * Routing.record)) (f : bytes → bool) p r :
  StronglySorted (λ a b, bytes_ltb a.1 b.1 = true) l → (p, r) ∈ l → f p = true →
  (∀ k, f k = true → prefixb p k = true) → head (filter (λ kv, f kv.1 = true) l) = Some (p, r).
Proof.
  intros Hs. induction Hs as [|[k x] l Hs IH Hall]; intros Hin Hp Hf; [by apply elem_of_nil in Hin|].
  rewrite filter_cons. destruct (decide _) as [Hk|Hk]; cbn in Hk.
  - apply elem_of_cons in Hin as [[= -> ->]|Hin]; [done|]. exfalso.
    rewrite Forall_forall in Hall. specialize (Hall _ Hin). cbn in Hall.
    apply Hf, prefixb_spec in Hk as [t ->]. revert Hall. clear. induction p as [|x p IH]; cbn; [by destruct t|].
    by rewrite Z.ltb_irrefl.
  - apply elem_of_cons in Hin as [[= -> ->]|Hin]; [done|]. by apply IH.
Qed.

(** [Lookup] by peer finds the row with the key asked for. *)
Lemma Server_Lookup_peer (put : bytes → rres unit) table m k r host :
  (∀ b, put b = Ret tt) → Represents row table m → m !! k = Some r → Host (rec_Record r) = Ret host →
  ∃ n v c, (∀ fuel, (n < fuel)%nat →
      Server_Lookup put (Ret tt) fuel (table_snapshot table)
        (Ret (Selector_match (Ret (mkVIndex (Which_peer k) false)))) = Ret (Some v)) ∧
    newRecord v = Ret c ∧ same_record (rec_Record r) c.
Proof.
  intros Hput Hrep Hk Hname. destruct (scan_rows_in_order pool b58 row scan _ _ Hrep) as (l & Hl & Hscan).
  set (t := mkVIndex (Which_peer k) false).
  destruct (get_id pool b58 (row := row) (scan := scan) (sdb (sched table)) (AnyIndex (index_ t)) k eq_refl)
    as (f & Hfk & Hf & Hg).
  set (sel := filter (λ kv, f kv.1 = true) l).
  assert (snap_Get (table_snapshot table) (index_ t) = Ret (rec_of sel)) as Hget.
  { unfold table_snapshot, query_Get, iterate, Get, Table_Snapshot. cbn [snap_Get q_tx q_records txn Scheduler_Txn].
    rewrite (rep_ref _ _ _ Hrep). cbn [name]. change (index (index_ t)) with (bs "id"). rewrite Hg, Hscan. cbn [bind].
    subst sel. clear. induction l as [|kr l IH]; [done|]. cbn [fmap list_fmap]. rewrite !filter_cons. cbn.
    destruct (decide (f kr.1 = true)); [|done]. cbn. cbn in IH. by rewrite IH. }
  assert (head sel = Some (k, r)) as Hhd.
  { apply first_exact; [apply Hl|by apply (rio_rows _ _ Hl)|done|done]. }
  destruct (rep_keys _ _ _ Hrep _ _ Hk) as [s [(_ & _ & mm & ms & Hm & _) Hs]].
  destruct (copyRecord_total put (rec_Record r) s host mm Hput Hs Hname Hm) as [v Hv].
  destruct (copyRecord_client _ _ _ _ Hv) as (c & Hc & Hsame).
  destruct (query_rep (Direct (table_snapshot table)) (Select (index_ t)) [SLimit 1] (rec_of sel)) as (it & h & Hq & Hr).
  { by apply selects_get. } { by repeat constructor. }
  exists (length (rec_of sel)), v, c. split; [|done]. intros fuel Hfuel.
  unfold Query_Iter in Hq. cbn in Hq. unfold Server_Lookup, Server_bind. cbn [bind selector].
  assert (Selector_Bind (Select (index_ t)) (fst (Query.First [])) (table_snapshot table) (snd (Query.First []))
    = Ret (it, h)) as -> by exact Hq.
  cbn [bind fst snd]. erewrite bind_loop_rep; [|exact Hr|done].
  change (denote (rec_of sel) [SLimit 1]) with (take 1 (rec_of sel)).
  destruct sel as [|kr sel]; [done|]. injection Hhd as ->. cbn [rec_of fmap list_fmap take foldl bind snd].
  unfold maybeRecord. cbn [bind]. by rewrite Hv.
Qed.
End match_.

(** ** Members *)
Section members.
Context (pool : nat → bytes) (b58 : bytes → bytes) `{PoolSpec pool}.
Context {msg : Type} (unmarshal : bytes → rres msg) (read_root : msg → rres api_Heartbeat).
Context {D : Type} `{!Memdb rerror any (list IndexSchema) D}.
Context (row : D → bytes → option any) (scan : D → list (bytes * any)).
Context `{!MemdbLaws pool b58 row scan}.

Abbreviation observe := (observe b58 unmarshal read_root).
Abbreviation good_event := (good_event unmarshal read_root).

(** Rows are stored under their peer, with a host that can be read. *)
Definition announced (m : gmap bytes Routing.record) : Prop :=
  ∀ k x, m !! k = Some x → b58 (Peer (rec_Record x)) = k ∧ ∃ h, Host (rec_Record x) = Ret h.

(** The database determines the map it represents. *)
Lemma Represents_det (table : Table D) m m' : Represents row table m → Represents row table m' → m = m'.
Proof.
  intros Hm Hm'. apply map_eq. intros k. pose proof (rep_rows _ _ _ Hm k) as H1.
  rewrite (rep_rows _ _ _ Hm' k) in H1. destruct (m !! k), (m' !! k); cbn in H1; congruence.
Qed.

Lemma observe_announced evs table m c :
  node row table m c → announced m → Forall good_event evs →
  ∃ table' m', observe table evs = Ret table' ∧ Represents row table' m' ∧ announced m'.
Proof.
  intros Hn Ha Hg. destruct (observe_ind pool b58 unmarshal read_root row scan (λ _ m, announced m) good_event evs table m c)
    as (t' & m' & Ho & Hn' & Ha'); auto; [| |exists t', m'; split; [done|]; split; [apply Hn'|done]].
  - intros ? m1 m2 t H1 H2 _ k x Hk. by apply H1, (lookup_weaken _ _ _ _ Hk H2).
  - intros ? m1 pm rr Ho' H1 Hr k x [[<- <-]|[_ Hk]]%lookup_insert_Some; [|by apply H1].
    cbn in Ho'. rewrite Hr in Ho'. destruct Ho' as [[[h Hh] _] _].
    unfold record in Hr. apply bind_Ret_inv in Hr as (? & _ & (hb & _ & [= <-])%bind_Ret_inv).
    cbn in *. split; [done|]. by exists h.
Qed.

(** A node that observes a fed member from its first message on. *)
Lemma observe_joined r k pre pm post table t0 :
  0 ≤ t0 ≤ max_time → New t0 = Ret table → Forall good_event (pre ++ MBeat pm :: post) →
  Forall (silent b58 k) pre → key_of b58 pm = k → beat_of unmarshal read_root r pm →
  fed b58 unmarshal read_root k r (clock_after t0 pre) (clock_after t0 pre + member_ttl r) (seq_of pm) post →
  ∃ table' m x, observe table (pre ++ MBeat pm :: post) = Ret table' ∧ Represents row table' m ∧ announced m ∧
    m !! k = Some x ∧ Server (rec_Record x) = hb_server (new_heartbeat r).
Proof.
  intros Ht Hnew Hg Hs Hk Hb Hf. pose proof (New_node pool b58 row scan t0 table Ht Hnew) as Hn0.
  destruct (observe_announced _ _ _ _ Hn0 ltac:(by intros ? ?; rewrite lookup_empty) Hg) as (ta & ma & Hoa & Hra & Ha).
  apply Forall_app in Hg as [Hg1 [Hg2 Hg3]%Forall_cons].
  destruct (observe_absent pool b58 unmarshal read_root row scan k pre table ∅ t0 Hn0 (lookup_empty k) Hg1 Hs)
    as (t1 & m1 & Ho1 & Hn1 & Hm1).
  rewrite observe_app, Ho1 in Hoa |- *. cbn [bind Membership.observe] in *.
  destruct (member_beat pool b58 unmarshal read_root row scan r t1 m1 _ 0 (seq_of pm - 1) pm k Hn1 Hg2 Hk) as
    (res & t2 & m2 & Hv & Hn2 & Hm2); [by left|done|lia|].
  rewrite Hv in Hoa |- *. cbn [bind snd] in *.
  destruct (observe_fed pool b58 unmarshal read_root row scan r k post t2 m2 _ _ _ Hn2 Hm2 Hg3 Hf) as
    (t3 & m3 & c3 & d3 & s3 & Ho3 & Hn3 & (x & Hx & Hsrv & _)).
  rewrite Ho3 in Hoa. injection Hoa as <-. exists t3, m3, x.
  rewrite (Represents_det t3 ma m3 Hra (n_rep _ _ _ _ Hn3)) in Ha. split; [done|]. split; [apply Hn3|done].
Qed.
End members.

(** ** Properties *)

(** C13. A query by peer, host or metadata field gets over the network what the table has: the
    client's index is described, matched in the index of the table it names and answered
    with copies that agree with the rows; every row whose value is the one asked for (or
    begins with it, in a query by prefix) is among the answers, and every answer is a row
    with an index entry (in the host and metadata indexes the value followed by the row's
    key) that begins with it. *)
Theorem remote_match {D : Type} `{!Memdb rerror any (list IndexSchema) D} (pool : nat → bytes) (b58 : bytes → bytes)
    (row : D → bytes → option any) (scan : D → list (bytes * any)) (put : bytes → rres unit) (index : CIndex)
    (t : View_Index) (table : Table D) (m : gmap bytes Routing.record) :
  PoolSpec pool → MemdbLaws pool b58 row scan → IndexLaws pool b58 row scan → (∀ b, put b = Ret tt) →
  Represents row table m → (∀ k r, m !! k = Some r → ∃ name, Host (rec_Record r) = Ret name) →
  bindIndex pool b58 put (Ret tt) index = Ret t → (∀ b, vi_which t ≠ Which_server b) →
  ∃ n vs cs, (∀ fuel, (n < fuel)%nat →
      Server_Iter put (Ret tt) fuel (table_snapshot table) (CMatch pool b58 put (Ret tt) index) = Ret vs) ∧
    omapM newRecord vs = Ret cs ∧
    (∀ k r, m !! k = Some r → has_value pool b58 (which_schema t) (asked t) (Any_record r) →
       ∃ c, c ∈ cs ∧ same_record (rec_Record r) c) ∧
    (∀ c, c ∈ cs → ∃ k r, m !! k = Some r ∧ same_record (rec_Record r) c ∧
       has_value pool b58 (which_schema t) (λ x, prefixb (which_bytes t) (entry (which_schema t) k x) = true) (Any_record r)).
Proof.
  intros Hpool Hlaws Hix Hput Hrep Hhost Hbind Hns.
  destruct (snapshot_match pool b58 row scan table m t Hrep Hns) as (l & Hget & Hl & Hcomplete).
  destruct (Server_Iter_selects row put table m (Selector_match (Ret t)) (index_ t) l Hput Hrep eq_refl Hhost Hget) as (vs & cs & Hiter & Hcs & Hsame).
  { eapply Forall_impl; [exact Hl|]. by intros kr []. }
  exists (length l), vs, cs. unfold CMatch. rewrite Hbind. split; [exact Hiter|]. split; [done|]. split.
  - intros k r Hk Hv. destruct (proj1 (list_elem_of_lookup _ _) (Hcomplete k r Hk Hv)) as [i Hi].
    apply list_lookup_fmap_Some in Hi as (kr & -> & Hi).
    destruct (Forall2_lookup_l _ _ _ i (rec_Record kr.2) Hsame) as (c & Hc & Hsc).
    { unfold rec_of. by rewrite list_lookup_fmap, Hi. }
    exists c. split; [by eapply list_elem_of_lookup_2|done].
  - intros c [i Hi]%list_elem_of_lookup. destruct (Forall2_lookup_r _ _ _ i c Hsame Hi) as (x & Hx & Hsx).
    apply list_lookup_fmap_Some in Hx as (kr & -> & Hx). destruct (Forall_lookup_1 _ _ _ _ Hl Hx) as [Hk Hv].
    by exists kr.1, kr.2.
Qed.

(** C2. A member that announces itself is found over the network: once a node has received its
    first heartbeat, and as long as further ones of the same instance, with growing sequence
    numbers, arrive before the deadline, a client that looks it up by its peer id gets a
    record of that peer with the router's instance id.  Other members may send anything that
    does not decode, or decodes to a heartbeat with readable texts and a sequence number of
    eight bytes ([good_event]; other messages can crash a node, [Pulse.validator_panics]). *)
Theorem live_member_found {msg D : Type} `{!Memdb rerror any (list IndexSchema) D} (pool : nat → bytes) (b58 : bytes → bytes)
    (unmarshal : bytes → rres msg) (read_root : msg → rres api_Heartbeat) (row : D → bytes → option any)
    (scan : D → list (bytes * any)) (put : bytes → rres unit) (r : Router) (k : bytes) (index : CIndex)
    (pre post : list mevent) (pm : Message) (table : Table D) (t0 : Z) :
  PoolSpec pool → MemdbLaws pool b58 row scan → IndexLaws pool b58 row scan → (∀ b, put b = Ret tt) →
  (* the node *)
  0 ≤ t0 ≤ max_time → New t0 = Ret table → Forall (good_event unmarshal read_root) (pre ++ MBeat pm :: post) →
  (* the member *)
  Forall (silent b58 k) pre → key_of b58 pm = k → beat_of unmarshal read_root r pm →
  fed b58 unmarshal read_root k r (clock_after t0 pre) (clock_after t0 pre + member_ttl r) (seq_of pm) post →
  (* the client *)
  bindIndex pool b58 put (Ret tt) index = Ret (mkVIndex (Which_peer k) false) →
  ∃ table' n v c, observe b58 unmarshal read_root table (pre ++ MBeat pm :: post) = Ret table' ∧
    (∀ fuel, (n < fuel)%nat →
       Server_Lookup put (Ret tt) fuel (table_snapshot table') (CMatch pool b58 put (Ret tt) index) = Ret (Some v)) ∧
    FutureRecord_Record (Ret (Some v)) = Ret (Some c) ∧ b58 (Peer c) = k ∧ Server c = u64 (r_id r).
Proof.
  intros Hpool Hlaws Hix Hput Ht Hnew Hg Hs Hk Hb Hf Hbind.
  destruct (observe_joined pool b58 unmarshal read_root row scan r k pre pm post table t0 Ht Hnew Hg Hs Hk Hb Hf)
    as (table' & m & x & Ho & Hrep & Ha & Hx & Hsrv).
  destruct (Ha k x Hx) as [Hp [h Hh]].
  destruct (Server_Lookup_peer pool b58 row scan put table' m k x h Hput Hrep Hx Hh) as (n & v & c & Hl & Hc & Hsame).
  exists table', n, v, c. split; [done|]. unfold CMatch. rewrite Hbind. split; [exact Hl|]. cbn. rewrite Hc.
  split; [done|]. rewrite (same_peer _ _ Hsame), (same_server _ _ Hsame), Hsrv. split; [done|].
  cbn. unfold wrap_u. by rewrite Z.mod_mod.
Qed.

(** C12. A member that has fallen silent is listed no more: once the clock of a node has passed
    the last deadline its heartbeats can have, a client that lists the cluster gets no
    record of that peer, whatever other members send within [good_event] (messages that do
    not decode, or heartbeats with readable texts and a sequence number of eight bytes). *)
Theorem silent_member_unlisted {msg D : Type} `{!Memdb rerror any (list IndexSchema) D} (pool : nat → bytes)
    (b58 : bytes → bytes) (unmarshal : bytes → rres msg) (read_root : msg → rres api_Heartbeat)
    (row : D → bytes → option any) (scan : D → list (bytes * any)) (put : bytes → rres unit) (r : Router) (k : bytes)
    (evs1 evs2 : list mevent) (t t0 : Z) (table : Table D) :
  PoolSpec pool → MemdbLaws pool b58 row scan → (∀ b, put b = Ret tt) →
  0 ≤ t0 ≤ max_time → New t0 = Ret table → Forall (good_event unmarshal read_root) (evs1 ++ evs2) →
  (∀ pm, MBeat pm ∈ evs1 → key_of b58 pm = k → beat_of unmarshal read_root r pm) →
  Forall (silent b58 k) evs2 → MTick t ∈ evs2 → clock_after t0 evs1 + member_ttl r < t → 0 ≤ member_ttl r →
  ∃ table' n vs cs, observe b58 unmarshal read_root table (evs1 ++ evs2) = Ret table' ∧
    (∀ fuel, (n < fuel)%nat → Server_Iter put (Ret tt) fuel (table_snapshot table') CAll = Ret vs) ∧
    omapM newRecord vs = Ret cs ∧ Forall (λ c, b58 (Peer c) ≠ k) cs.
Proof.
  intros Hpool Hlaws Hput Ht0 Hnew Hg Hb Hs Hin Ht Hpos. pose proof (New_node pool b58 row scan t0 table Ht0 Hnew) as Hn0.
  destruct (observe_announced pool b58 unmarshal read_root row scan _ _ _ _ Hn0
    ltac:(by intros ? ?; rewrite lookup_empty) Hg) as (ta & ma & Hoa & Hra & Ha).
  destruct (observe_gone pool b58 unmarshal read_root row scan r k evs1 evs2 t table t0 Ht0 Hnew Hg Hb Hs Hin Ht Hpos)
    as (t2 & m2 & Ho & Hrep & Hk).
  rewrite Ho in Hoa. injection Hoa as <-. rewrite <-(Represents_det row t2 ma m2 Hra Hrep) in Hk.
  destruct (scan_rows_in_order pool b58 row scan _ _ Hra) as (l & Hl & Hscan).
  destruct (all_selects pool b58 row scan _ _ _ Hra Hl Hscan) as [Hget _].
  destruct (Server_Iter_selects row put t2 ma Selector_all all l Hput Hra eq_refl) as (vs & cs & Hiter & Hcs & Hsame);
    [intros k' x Hx; apply (Ha k' x Hx)|done|apply Forall_forall; intros [k' x] Hx; by apply (rio_rows _ _ Hl)|].
  exists t2, (length l), vs, cs. split; [done|]. split; [exact Hiter|]. split; [done|].
  apply Forall_forall. intros c [i Hi]%list_elem_of_lookup Hc.
  destruct (Forall2_lookup_r _ _ _ i c Hsame Hi) as (x & Hx & Hsx).
  apply list_lookup_fmap_Some in Hx as ([k' x'] & -> & Hx). apply list_elem_of_lookup_2, (rio_rows _ _ Hl) in Hx.
  rewrite (same_peer _ _ Hsx) in Hc. cbn in Hc. rewrite (proj1 (Ha _ _ Hx)) in Hc. congruence.
Qed.

(** ** A concrete cluster *)
Section witnesses.
Import concrete.

Lemma index_laws : IndexLaws pool0 concrete.b58 row m_scan.
Proof. exact (memdb_map_index pool0 concrete.b58). Qed.

(** A client's index by host prefix, and one by peer id. *)
Definition by_host (prefix : bool) (h : bytes) : CIndex :=
  mkCIndex (mkIndexI (bs "host") prefix None None (Some (Ret h)) None) None None None None.
Definition by_peer (id : bytes) : CIndex :=
  mkCIndex (mkIndexI (bs "peer") false None None None None) (Some id) None None None.

(** The row of host [h] is found by its prefix [h]. *)
Lemma remote_match_witness :
  ∃ n vs cs, (∀ fuel, (n < fuel)%nat →
      Server_Iter (λ _, Ret tt) (Ret tt) fuel (table_snapshot table1)
        (CMatch pool0 concrete.b58 (λ _, Ret tt) (Ret tt) (by_host true (bs "h"))) = Ret vs) ∧
    omapM newRecord vs = Ret cs ∧ ∃ c, c ∈ cs ∧ same_record rec1 c.
Proof.
  destruct (remote_match pool0 concrete.b58 row m_scan (λ _, Ret tt) (by_host true (bs "h"))
    (mkVIndex (Which_host (bs "h")) true) table1 {[bs "p" := mkrecord rec1 150]} pool0_spec laws index_laws
    (λ _, eq_refl) table1_represents) as (n & vs & cs & Hi & Hc & H1 & _).
  - intros k r [_ <-]%lookup_singleton_Some. exists (bs "h"). reflexivity.
  - reflexivity.
  - discriminate.
  - exists n, vs, cs. split; [exact Hi|]. split; [exact Hc|]. apply (H1 (bs "p") (mkrecord rec1 150)).
    + reflexivity.
    + exists [bs "h"], (bs "h"). split; [reflexivity|]. split; [by left|reflexivity].
Defined.

(** The router of [Membership] is found after its second heartbeat. *)
Lemma live_member_found_witness :
  ∃ table' n v c,
    observe concrete.b58 toy_unmarshal toy_hb toy_table
      ([MTick 5] ++ MBeat (toy_msg 1) :: [MTick (9 * Second); MBeat (toy_msg 2); MTick (15 * Second)]) = Ret table' ∧
    (∀ fuel, (n < fuel)%nat →
       Server_Lookup (λ _, Ret tt) (Ret tt) fuel (table_snapshot table')
         (CMatch pool0 concrete.b58 (λ _, Ret tt) (Ret tt) (by_peer (bs "p"))) = Ret (Some v)) ∧
    FutureRecord_Record (Ret (Some v)) = Ret (Some c) ∧ Peer c = bs "p" ∧ Server c = 7.
Proof.
  refine (live_member_found pool0 concrete.b58 toy_unmarshal toy_hb row m_scan (λ _, Ret tt) toy_router (bs "p")
    (by_peer (bs "p")) [MTick 5] [MTick (9 * Second); MBeat (toy_msg 2); MTick (15 * Second)] (toy_msg 1) toy_table 0
    pool0_spec laws index_laws (λ _, eq_refl) _ _ _ _ _ _ _ _).
  - by_computing.
  - vm_compute. reflexivity.
  - constructor; [by_computing|]. constructor; [apply toy_good|]. constructor; [by_computing|].
    constructor; [apply toy_good|]. constructor; [by_computing|constructor].
  - constructor; [exact I|constructor].
  - reflexivity.
  - apply toy_beat.
  - split; [by_computing|]. cbn [fed]. rewrite decide_True by reflexivity.
    split; [apply toy_beat|]. split; [by_computing|]. split; [by_computing|exact I].
  - reflexivity.
Defined.

Lemma silent_member_unlisted_witness :
  ∃ table' n vs cs,
    observe concrete.b58 toy_unmarshal toy_hb toy_table ([MTick 5; MBeat (toy_msg 1)] ++ [MTick (11 * Second)]) = Ret table' ∧
    (∀ fuel, (n < fuel)%nat → Server_Iter (λ _, Ret tt) (Ret tt) fuel (table_snapshot table') CAll = Ret vs) ∧
    omapM newRecord vs = Ret cs ∧ Forall (λ c, Peer c ≠ bs "p") cs.
Proof.
  refine (silent_member_unlisted pool0 concrete.b58 toy_unmarshal toy_hb row m_scan (λ _, Ret tt) toy_router (bs "p")
    [MTick 5; MBeat (toy_msg 1)] [MTick (11 * Second)] (11 * Second) 0 toy_table pool0_spec laws (λ _, eq_refl)
    _ _ _ _ _ _ _ _).
  - by_computing.
  - vm_compute. reflexivity.
  - constructor; [by_computing|]. constructor; [apply toy_good|]. constructor; [by_computing|constructor].
  - intros pm Hin _. apply elem_of_cons in Hin as [Hin|Hin]; [discriminate Hin|].
    apply list_elem_of_singleton in Hin. injection Hin as ->. apply toy_beat.
  - constructor; [exact I|constructor].
  - by apply list_elem_of_singleton.
  - by_computing.
  - by_computing.
Defined.
End witnesses.
