(* ===== verification/BootSocket.v ===== *)
(** * The signed bootstrap socket ([src/pkg/boot/socket])

    A socket exchanges signed packets: requests for a namespace, answered by the hosts
    that advertise it, and responses, dispatched to the subscribers of the namespace.

    The first part models packets, validation, the record cache, options and the decision
    of the serving loop ([record.go], [packet.go], [conn.go], [cache.go], [error.go],
    [option.go], [socket.go]).  Library code is a parameter: envelopes ([consume],
    [matches]), peer identifiers and multiaddresses ([id_from_bytes], [multiaddr]), the
    2Q cache ([Cache2Q]).  The second part is the concurrent system of subscribers,
    cancellations and the dispatching goroutine ([sstep]), in which the channels and the
    shared subscriber sets are objects with an identity. *)

From stdpp Require Import base list gmap sets strings.
From Stdlib Require Import ZArith Lia.
From S2P Require Import Prelude.

Open Scope Z_scope.

(** ** Errors ([error.go]) *)
Inductive serror :=
| ErrIgnore
| ErrClosed
| ErrAlreadyClosed                                (* "already closed": does not wrap ErrClosed *)
| ErrInvalidSignature
| ErrRecordType                                   (* "unrecognized record type" *)
| ErrExternal (code : Z)
| ErrNet (timeout : bool)                         (* a net.Error *)
| ValidationError (cause : serror)
| ProtocolError (cause : serror) (meta : bool).   (* [meta]: the Meta map is not nil *)

#[global] Instance serror_eq_dec : EqDecision serror.
Proof. solve_decision. Defined.

Abbreviation sres := (outcome serror).

(** [errors.Is(err, target)] for a target that wraps nothing: equality, or the same for
    the wrapped cause.  (The [Is] methods of the package call [errors.Is(target, cause)],
    which for such a target is equality with the cause.) *)
Fixpoint errors_Is (e target : serror) : bool :=
  bool_decide (e = target) ||
  match e with
  | ValidationError c | ProtocolError c _ => errors_Is c target
  | _ => false
  end.

(** [Loggable] stores the cause in the Meta map; a nil map panics. *)
Definition ProtocolError_Loggable (meta : bool) : sres unit := if meta then Ret tt else Panic.

(** ** Records and packets ([record.go], [packet.go]) *)
Inductive Which :=
| request (from : sres bytes)
| survey (from : sres bytes) (distance : Z)
| response (peer : sres bytes)
| other.

(** The [addrs] list is a pointer of its own, which every packet has: the accessor of the
    response group reads it whatever the discriminant. *)
Record Packet := mkPacket {
  namespace : sres bytes; addrs : sres (list (sres bytes)); which : Which }.

Record AddrInfo := mkInfo { info_ID : bytes; info_Addrs : list bytes }.

Inductive RecordType := TypeRequest | TypeSurvey | TypeResponse | TypeOther.

Definition Type_ (r : Packet) : RecordType :=
  match which r with
  | request _ => TypeRequest
  | survey _ _ => TypeSurvey
  | response _ => TypeResponse
  | other => TypeOther
  end.

Definition IsSurvey (r : Packet) : bool := match which r with survey _ _ => true | _ => false end.

Definition Distance (r : Packet) : Z := match which r with survey _ d => d | _ => 0 end.

Section records.
Context (id_from_bytes : bytes → sres bytes) (multiaddr : bytes → sres bytes).

Definition Peer (r : Packet) : sres bytes :=
  match which r with
  | request from => b <~ from ;; id_from_bytes b
  | survey from _ => b <~ from ;; id_from_bytes b
  | response p => b <~ p ;; id_from_bytes b
  | other => Fail ErrRecordType
  end.

Definition Addrs (r : Packet) : sres (list bytes) :=
  l <~ addrs r ;; omapM (λ e, b <~ e ;; multiaddr b) l.

Definition Response_Bind (r : Packet) : sres AddrInfo :=
  id <~ Peer r ;; as_ <~ Addrs r ;; Ret (mkInfo id as_).

(** ** Validation and reading ([conn.go]) *)
Section conn.
Context {pubkey : Type} (matches : bytes → pubkey → bool).

Definition BasicValidator (self : bytes) (key : pubkey) (r : Packet) : sres unit :=
  peer <~ Peer r ;;
  if negb (bytes_eqb self []) && bytes_eqb peer self then Fail ErrIgnore
  else if matches peer key then Ret tt else Fail ErrInvalidSignature.

Context {addr : Type} (consume : bytes → sres (pubkey * Packet)).

Definition wrap_validation {A} (c : sres A) : sres A :=
  match c with Fail e => Fail (ValidationError e) | _ => c end.

(** [buf[:n]]: what a buffer of [maxDatagramSize] bytes holds of a datagram. *)
Definition maxDatagramSize : Z := Z.shiftl 2 10.
Definition received (datagram : bytes) : bytes := take (Z.to_nat maxDatagramSize) datagram.

(** [Scan]: [read] is the datagram at the connection, or the error of [ReadFrom]. *)
Definition Scan (validate : pubkey → Packet → sres unit) (read : sres (bytes * addr))
    : sres (Packet * addr) :=
  p <~ read ;;
  e <~ wrap_validation (consume (received (fst p))) ;;
  _ <~ wrap_validation (validate (fst e) (snd e)) ;;
  Ret (snd e, snd p).
End conn.
End records.

Lemma received_fits b : Z.of_nat (length b) ≤ maxDatagramSize → received b = b.
Proof. intros Hl. unfold received. apply take_ge. lia. Qed.

#[global] Arguments received : simpl never.

(** ** Rate limiting *)
Definition bandwidth_tokens (n : Z) : Z := i64 (n * 8).
Definition packet_tokens (n : Z) : Z := 1.

(** [Reserve]: a nil limiter admits everything; [wait n] is [WaitN(ctx, n)]. *)
Definition Reserve (lim : option (Z → Z)) (wait : Z → sres unit) (n : Z) : sres unit :=
  match lim with None => Ret tt | Some tokens => wait (tokens n) end.

Definition conn_Send {env addr} (marshal : env → sres bytes) (lim : option (Z → Z))
    (wait : Z → sres unit) (write : bytes → addr → sres unit) (e : env) (a : addr) : sres unit :=
  b <~ marshal e ;; _ <~ Reserve lim wait (Z.of_nat (length b)) ;; write b a.

(** ** The record cache ([cache.go]) *)
Inductive keyKind := reqKind | resKind | survReqKind.

Record key := mkKey { k_ns : bytes; k_dist : Z; k_kind : keyKind }.

#[global] Instance keyKind_eq_dec : EqDecision keyKind.
Proof. solve_decision. Defined.
#[global] Instance key_eq_dec : EqDecision key.
Proof. solve_decision. Defined.

Definition requestKey (ns : bytes) : key := mkKey ns 0 reqKind.
Definition surveyKey (ns : bytes) (dist : Z) : key := mkKey ns dist survReqKind.
Definition responseKey (ns : bytes) : key := mkKey ns 0 resKind.

Definition cache_size (size : Z) : Z := if size <? 2 then 8 else size.

(** [hashicorp/golang-lru]'s 2Q cache of envelopes. *)
Class Cache2Q (C env : Type) := {
  c_new : Z → sres C;
  c_get : C → key → option env * C;   (* a hit updates the recency queues *)
  c_add : C → key → env → C;
  c_purge : C → C }.

(** What the code relies on: the cache returns only what was stored under the key. *)
Class Cache2QLaws {C env} `{!Cache2Q C env} (holds : C → key → env → Prop) : Prop := {
  get_hit c k e c' : c_get c k = (Some e, c') → holds c k e;
  get_keeps c k e c' k' e' : c_get c k = (e, c') → holds c' k' e' → holds c k' e';
  add_holds c k e k' e' : holds (c_add c k e) k' e' → (k' = k ∧ e' = e) ∨ holds c k' e';
  purge_holds c k e : ¬ holds (c_purge c) k e }.

Section cache.
Context {C env : Type} `{!Cache2Q C env}.
Context (put : bytes → sres unit).

Definition NewCache (size : Z) : sres C :=
  match c_new (cache_size size) with Ret c => Ret c | _ => Panic end.

Definition Reset (c : C) : C := c_purge c.

(** The packets that are sealed. *)
Definition request_packet (id ns : bytes) : sres Packet :=
  _ <~ put ns ;; _ <~ put id ;; Ret (mkPacket (Ret ns) (Ret []) (request (Ret id))).

Definition survey_packet (id ns : bytes) (dist : Z) : sres Packet :=
  _ <~ put ns ;; _ <~ put id ;; Ret (mkPacket (Ret ns) (Ret []) (survey (Ret id) dist)).

Definition response_packet (id : bytes) (as_ : list bytes) (ns : bytes) : sres Packet :=
  _ <~ put ns ;; _ <~ put id ;;
  _ <~ omapM put as_ ;;
  Ret (mkPacket (Ret ns) (Ret (Ret <$> as_)) (response (Ret id))).

Definition storeCache (c : C) (p : sres Packet) (seal : Packet → sres env) (k : key)
    : sres env * C :=
  match (pk <~ p ;; seal pk) with
  | Ret e => (Ret e, c_add c k e)
  | err => (err, c)
  end.

Definition load (c : C) (p : sres Packet) (seal : Packet → sres env) (k : key) : sres env * C :=
  match c_get c k with
  | (Some e, c') => (Ret e, c')
  | (None, c') => storeCache c' p seal k
  end.

Definition LoadRequest (c : C) (seal : Packet → sres env) (id ns : bytes) :=
  load c (request_packet id ns) seal (requestKey ns).

Definition LoadSurveyRequest (c : C) (seal : Packet → sres env) (id ns : bytes) (dist : Z) :=
  load c (survey_packet id ns dist) seal (surveyKey ns dist).

Definition LoadResponse (c : C) (seal : Packet → sres env) (id : bytes) (as_ : list bytes)
    (ns : bytes) :=
  load c (response_packet id as_ ns) seal (responseKey ns).
End cache.

(** ** Handling a packet ([socket.go]) *)
Inductive action :=
| ADispatch (info : AddrInfo) (ns : bytes)   (* deliver to the subscribers *)
| AServe                                     (* call the request handler *)
| ADrop.                                     (* a request for a namespace not advertised *)

Definition handle (bind : Packet → sres AddrInfo) (tracking : bytes → bool)
    (h : Packet → sres unit) (r : Packet) : sres action :=
  match namespace r with
  | Panic => Panic
  | Fail e => Fail (ProtocolError e false)
  | Ret ns =>
      match Type_ r with
      | TypeResponse => info <~ bind r ;; Ret (ADispatch info ns)
      | TypeRequest | TypeSurvey =>
          if tracking ns then _ <~ h r ;; Ret AServe else Ret ADrop
      | TypeOther => Fail (ProtocolError (ErrExternal 0) true)
      end
  end.

(** The serving loop after one packet: an error is reported unless it is to be ignored or
    the socket is closed; a network error that is not a timeout ends the loop and closes
    the socket. *)
Inductive serve_next := ServeContinue | ServeReported (e : serror) | ServeReturn | ServeClose (e : serror).

Definition serve_step {A} (err : sres A) (done : bool) : sres serve_next :=
  match err with
  | Panic => Panic
  | Ret _ => Ret ServeContinue
  | Fail e =>
      if errors_Is e ErrIgnore then Ret ServeContinue
      else if done then Ret ServeReturn
      else match e with
           | ErrNet false => Ret (ServeClose e)
           | _ => Ret (ServeReported e)
           end
  end.

(** The default error handler: what it does with an error of an open socket. *)
Definition default_handler (e : serror) : sres unit :=
  match e with
  | ErrNet _ => Ret tt
  | ProtocolError _ meta => ProtocolError_Loggable meta
  | _ => Ret tt
  end.

(** ** Subscriptions ([socket.go])

    A subscription is a channel of capacity 16.  It is [Live] until somebody runs its
    cancel function, which first removes it from its subscriber set under the lock
    ([Removed]) and then closes the channel ([Closed]); [once] makes this happen at most
    once. *)
Inductive phase := Live | Removed | Closed.

#[global] Instance phase_eq_dec : EqDecision phase.
Proof. solve_decision. Defined.

Record chan := mkChan {
  ch_ns : bytes; ch_set : nat; ch_limit : Z;
  ch_rem : option Z;               (* the limiter's counter (int32), if any *)
  ch_buf : list AddrInfo; ch_sent : nat; ch_phase : phase }.

Record Socket := mkSocket {
  s_done : bool; s_time : Z; s_advt : gmap bytes Z;
  s_subs : gmap bytes nat;         (* namespace to subscriber set *)
  s_sets : list (gset nat);        (* the subscriber sets: sets of channels *)
  s_chans : list chan;
  s_todo : list nat }.             (* cancellations the dispatching goroutine has to run *)

Definition chan_cap : nat := 16.

Definition limiter (limit : Z) : option Z := if 0 <? limit then Some (i32 limit) else None.

(** [Decr]: the new counter and whether it reached zero. *)
Definition Decr (rem : option Z) : option Z * bool :=
  match rem with
  | None => (None, false)
  | Some r => let r' := i32 (r - 1) in (Some r', r' =? 0)
  end.

(** The update functions keep the other fields. *)
Definition set_chans (s : Socket) (cs : list chan) : Socket :=
  mkSocket (s_done s) (s_time s) (s_advt s) (s_subs s) (s_sets s) cs (s_todo s).
Definition set_todo (s : Socket) (l : list nat) : Socket :=
  mkSocket (s_done s) (s_time s) (s_advt s) (s_subs s) (s_sets s) (s_chans s) l.
Definition set_subs (s : Socket) (m : gmap bytes nat) (l : list (gset nat)) : Socket :=
  mkSocket (s_done s) (s_time s) (s_advt s) m l (s_chans s) (s_todo s).
Definition with_phase (c : chan) (p : phase) : chan :=
  mkChan (ch_ns c) (ch_set c) (ch_limit c) (ch_rem c) (ch_buf c) (ch_sent c) p.

Definition New (now : Z) : Socket := mkSocket false now ∅ ∅ [] [] [].

Definition Close (s : Socket) : Socket :=
  mkSocket true (s_time s) (s_advt s) (s_subs s) (s_sets s) (s_chans s) (s_todo s).

Definition Track (s : Socket) (ns : bytes) (ttl : Z) : sres Socket :=
  if s_done s then Fail ErrAlreadyClosed
  else Ret (mkSocket false (s_time s) (<[ns := s_time s + ttl]> (s_advt s)) (s_subs s)
              (s_sets s) (s_chans s) (s_todo s)).

Definition tracking (s : Socket) (ns : bytes) : bool := bool_decide (is_Some (s_advt s !! ns)).

(** One iteration of [tickloop]. *)
Definition tick (s : Socket) (t : Z) : Socket :=
  mkSocket (s_done s) t (filter (λ p, ¬ p.2 < t) (s_advt s)) (s_subs s)
    (s_sets s) (s_chans s) (s_todo s).

(** A closed socket returns the shared closed channel ([None]). *)
Definition Subscribe (s : Socket) (ns : bytes) (limit : Z) : option nat * Socket :=
  if s_done s then (None, s)
  else
    let '(sid, subs, sets) :=
      match s_subs s !! ns with
      | Some sid => (sid, s_subs s, s_sets s)
      | None => (length (s_sets s), <[ns := length (s_sets s)]> (s_subs s), s_sets s ++ [∅])
      end in
    let id := length (s_chans s) in
    let c := mkChan ns sid limit (limiter limit) [] 0 Live in
    (Some id,
     set_chans (set_subs s subs (alter (λ S, {[id]} ∪ S) sid sets)) (s_chans s ++ [c])).

(** The locked part of a cancel function. *)
Definition cancel_remove (s : Socket) (id : nat) (c : chan) : Socket :=
  let S' := default ∅ (s_sets s !! ch_set c) ∖ {[id]} in
  let sets := <[ch_set c := S']> (s_sets s) in
  let subs := if bool_decide (S' = ∅) then delete (ch_ns c) (s_subs s) else s_subs s in
  set_chans (set_subs s subs sets) (<[id := with_phase c Removed]> (s_chans s)).

(** Sending to one subscriber: a closed channel panics, a full one is skipped. *)
Definition send_one (info : AddrInfo) (s : Socket) (id : nat) : sres Socket :=
  match s_chans s !! id with
  | None => Panic
  | Some c =>
      match ch_phase c with
      | Closed => Panic
      | _ =>
          if (length (ch_buf c) <? chan_cap)%nat then
            let d := Decr (ch_rem c) in
            let c' := mkChan (ch_ns c) (ch_set c) (ch_limit c) (fst d) (ch_buf c ++ [info])
                        (S (ch_sent c)) (ch_phase c) in
            let s' := set_chans s (<[id := c']> (s_chans s)) in
            Ret (if snd d then set_todo s' (s_todo s' ++ [id]) else s')
          else Ret s
      end
  end.

Fixpoint send_all (info : AddrInfo) (s : Socket) (ids : list nat) : sres Socket :=
  match ids with
  | [] => Ret s
  | id :: ids' => s' <~ send_one info s id ;; send_all info s' ids'
  end.

(** The part of [dispatch] under the read lock; the cancellations of the exhausted
    subscriptions run when it has been released. *)
Definition dispatch (s : Socket) (ns : bytes) (info : AddrInfo) : sres Socket :=
  match s_subs s !! ns with
  | None => Ret s
  | Some sid => send_all info s (elements (default ∅ (s_sets s !! sid)))
  end.

(** What happens to a socket apart from cancellations. *)
Inductive bstep : Socket → Socket → Prop :=
| st_subscribe s ns limit : bstep s (snd (Subscribe s ns limit))
| st_dispatch s s' ns info :
    s_todo s = [] → dispatch s ns info = Ret s' → bstep s s'
| st_released s id c ids :
    s_todo s = id :: ids → s_chans s !! id = Some c → ch_phase c = Closed →
    bstep s (set_todo s ids)
| st_recv s id c x l :
    s_chans s !! id = Some c → ch_buf c = x :: l →
    bstep s (set_chans s (<[id := mkChan (ch_ns c) (ch_set c) (ch_limit c) (ch_rem c) l
                                   (ch_sent c) (ch_phase c)]> (s_chans s)))
| st_track s s' ns ttl : Track s ns ttl = Ret s' → bstep s s'
| st_tick s t : bstep s (tick s t)
| st_close s : bstep s (Close s).

(** With the two steps of a cancellation, each taken once. *)
Inductive sstep : Socket → Socket → Prop :=
| st_base s s' : bstep s s' → sstep s s'
| st_cancel s id c :
    s_chans s !! id = Some c → ch_phase c = Live → sstep s (cancel_remove s id c)
| st_close_chan s id c :
    s_chans s !! id = Some c → ch_phase c = Removed →
    sstep s (set_chans s (<[id := with_phase c Closed]> (s_chans s))).

(** *** Cancel functions

    A cancel function may be called any number of times, by its owner and by [dispatch],
    from any goroutine; [sync.Once] lets one call through, and the others wait until that one
    has returned.  A call is about to enter [once.Do], to take the lock and remove the
    channel, or to close it. *)
Inductive pc := AtDo | AtRemove | AtClose.

#[global] Instance pc_eq_dec : EqDecision pc.
Proof. solve_decision. Defined.

(** [o_once]: absent before the first call, then whether the function has returned. *)
Record osocket := mkO { o_sock : Socket; o_once : gmap nat bool; o_calls : list (nat * pc) }.

(** [close(ch)]. *)
Definition close_chan (s : Socket) (id : nat) : sres Socket :=
  match s_chans s !! id with
  | Some c => match ch_phase c with
              | Closed => Panic
              | _ => Ret (set_chans s (<[id := with_phase c Closed]> (s_chans s)))
              end
  | None => Panic
  end.

Inductive ostep : osocket → osocket → Prop :=
| o_base s s' o l : bstep s s' → ostep (mkO s o l) (mkO s' o l)
| o_call s o l id :
    (id < length (s_chans s))%nat → ostep (mkO s o l) (mkO s o (l ++ [(id, AtDo)]))
| o_enter s o l1 l2 id :
    o !! id = None →
    ostep (mkO s o (l1 ++ (id, AtDo) :: l2)) (mkO s (<[id := false]> o) (l1 ++ (id, AtRemove) :: l2))
| o_remove s o l1 l2 id c :
    s_chans s !! id = Some c →
    ostep (mkO s o (l1 ++ (id, AtRemove) :: l2)) (mkO (cancel_remove s id c) o (l1 ++ (id, AtClose) :: l2))
| o_close s s' o l1 l2 id :
    close_chan s id = Ret s' →
    ostep (mkO s o (l1 ++ (id, AtClose) :: l2)) (mkO s' (<[id := true]> o) (l1 ++ l2))
| o_return s o l1 l2 id :
    o !! id = Some true → ostep (mkO s o (l1 ++ (id, AtDo) :: l2)) (mkO s o (l1 ++ l2)).

(** ** Invariant *)

(** The channel's own data. *)
Definition chan_ok (todo : list nat) (id : nat) (c : chan) : Prop :=
  (length (ch_buf c) ≤ chan_cap)%nat ∧
  (ch_rem c = if 0 <? ch_limit c then Some (i32 (ch_limit c - Z.of_nat (ch_sent c))) else None) ∧
  (0 < ch_limit c < 2 ^ 32 → Z.of_nat (ch_sent c) ≤ ch_limit c ∧
     (Z.of_nat (ch_sent c) = ch_limit c → id ∈ todo ∨ ch_phase c ≠ Live)).

(** The subscriber sets hold exactly the live channels of their namespace. *)
Definition sets_ok (subs : gmap bytes nat) (sets : list (gset nat)) (chans : list chan) : Prop :=
  (∀ ns sid, subs !! ns = Some sid → ∃ S, sets !! sid = Some S ∧
     ∀ id, id ∈ S → ∃ c, chans !! id = Some c ∧ ch_phase c = Live ∧ ch_ns c = ns ∧ ch_set c = sid) ∧
  (∀ id c, chans !! id = Some c → ch_phase c = Live →
     subs !! ch_ns c = Some (ch_set c) ∧ ∃ S, sets !! ch_set c = Some S ∧ id ∈ S) ∧
  (∀ ns ns' sid, subs !! ns = Some sid → subs !! ns' = Some sid → ns = ns').

Definition sinv (s : Socket) : Prop :=
  sets_ok (s_subs s) (s_sets s) (s_chans s) ∧
  ∀ id c, s_chans s !! id = Some c → chan_ok (s_todo s) id c.

Lemma sinv_New now : sinv (New now).
Proof.
  split; [split; [|split]|].
  - intros ns sid. cbn. by rewrite lookup_empty.
  - intros id c. cbn. by rewrite lookup_nil.
  - intros ns ns' sid. cbn. by rewrite lookup_empty.
  - intros id c. cbn. by rewrite lookup_nil.
Qed.

(** An update of a channel that keeps its namespace, set and phase. *)
Lemma sets_ok_chan subs sets chans id c c' :
  chans !! id = Some c → ch_ns c' = ch_ns c → ch_set c' = ch_set c → ch_phase c' = ch_phase c →
  sets_ok subs sets chans → sets_ok subs sets (<[id := c']> chans).
Proof.
  intros Hid Hns Hset Hph (H1 & H2 & H3). split; [|split; [|done]].
  - intros ns sid Hs. destruct (H1 ns sid Hs) as (S & HS & Hin). exists S. split; [done|].
    intros i Hi. destruct (Hin i Hi) as (ci & Hci & ?). destruct (decide (i = id)) as [->|Hne].
    + exists c'. rewrite list_lookup_insert_eq by (by eapply lookup_lt_Some).
      rewrite Hid in Hci. injection Hci as <-. by rewrite Hns, Hset, Hph.
    + exists ci. by rewrite list_lookup_insert_ne.
  - intros i ci Hi Hlive. destruct (decide (i = id)) as [->|Hne].
    + rewrite list_lookup_insert_eq in Hi by (by eapply lookup_lt_Some). injection Hi as <-.
      rewrite Hns, Hset. apply (H2 id c); [done|congruence].
    + rewrite list_lookup_insert_ne in Hi by done. by apply H2.
Qed.

(** A channel that leaves the [Live] phase, or was not in it. *)
Lemma sets_ok_dead subs sets chans id c c' :
  chans !! id = Some c → ch_phase c ≠ Live → ch_phase c' ≠ Live →
  sets_ok subs sets chans → sets_ok subs sets (<[id := c']> chans).
Proof.
  intros Hid Hc Hc' (H1 & H2 & H3). split; [|split; [|done]].
  - intros ns sid Hs. destruct (H1 ns sid Hs) as (S & HS & Hin). exists S. split; [done|].
    intros i Hi. destruct (Hin i Hi) as (ci & Hci & Hl & ?). exists ci.
    rewrite list_lookup_insert_ne; [done|]. intros ->. congruence.
  - intros i ci Hi Hlive. destruct (decide (i = id)) as [->|Hne].
    + rewrite list_lookup_insert_eq in Hi by (by eapply lookup_lt_Some). congruence.
    + rewrite list_lookup_insert_ne in Hi by done. by apply H2.
Qed.

Lemma chans_update (chans : list chan) todo id c c' :
  (∀ i ci, chans !! i = Some ci → chan_ok todo i ci) → chans !! id = Some c →
  chan_ok todo id c' →
  ∀ i ci, <[id := c']> chans !! i = Some ci → chan_ok todo i ci.
Proof.
  intros Hall Hid Hc' i ci Hi. destruct (decide (i = id)) as [->|Hne].
  - rewrite list_lookup_insert_eq in Hi by (by eapply lookup_lt_Some). by injection Hi as <-.
  - rewrite list_lookup_insert_ne in Hi by done. auto.
Qed.

Lemma Decr_spec limit sent :
  0 < limit →
  Decr (Some (i32 (limit - Z.of_nat sent))) =
    (Some (i32 (limit - Z.of_nat (S sent))), i32 (limit - Z.of_nat (S sent)) =? 0).
Proof.
  intros Hl. unfold Decr. cbv zeta.
  assert (i32 (i32 (limit - Z.of_nat sent) - 1) = i32 (limit - Z.of_nat (S sent))) as ->; [|done].
  unfold wrap_i. replace (limit - Z.of_nat (S sent)) with (limit - Z.of_nat sent - 1) by lia.
  f_equal. set (z := limit - Z.of_nat sent).
  replace
    ((z + 2 ^ (32 - 1)) `mod` 2 ^ 32 - 2 ^ (32 - 1) - 1 + 2 ^ (32 - 1))
    with ((z + 2 ^ (32 - 1)) `mod` 2 ^ 32 - 1) by lia.
  rewrite Zminus_mod_idemp_l. f_equal. lia.
Qed.

Lemma i32_zero z : 0 ≤ z < 2 ^ 32 → (i32 z =? 0) = (z =? 0).
Proof.
  intros Hz. unfold wrap_i. change (32 - 1) with 31.
  destruct (Z.eqb_spec z 0) as [->|Hne]; [reflexivity|]. apply Z.eqb_neq. intros Heq.
  assert ((z + 2 ^ 31) `mod` 2 ^ 32 = 2 ^ 31) as Hm by lia.
  destruct (Z.lt_ge_cases (z + 2 ^ 31) (2 ^ 32)).
  - rewrite Z.mod_small in Hm by lia. lia.
  - rewrite <-(Z_mod_plus_full _ (-1)) in Hm. rewrite Z.mod_small in Hm by lia. lia.
Qed.

Lemma chan_ok_todo todo todo' id c : chan_ok todo id c → todo ⊆ todo' → chan_ok todo' id c.
Proof.
  intros (H1 & H2 & H3) Hsub. split; [done|]. split; [done|]. intros Hl.
  destruct (H3 Hl) as [H4 H5]. split; [done|]. intros He. destruct (H5 He); [left; set_solver|by right].
Qed.

(** The channel after one more record was sent to it. *)
Lemma chan_ok_send todo id c info :
  chan_ok todo id c → ch_phase c = Live → id ∉ todo → (length (ch_buf c) < chan_cap)%nat →
  chan_ok (if snd (Decr (ch_rem c)) then todo ++ [id] else todo) id
    (mkChan (ch_ns c) (ch_set c) (ch_limit c) (fst (Decr (ch_rem c))) (ch_buf c ++ [info])
       (S (ch_sent c)) (ch_phase c)).
Proof.
  intros (H1 & H2 & H3) Hlive Hni Hlen. unfold chan_ok.
  cbn [ch_buf ch_rem ch_limit ch_sent ch_phase ch_ns ch_set].
  split; [rewrite length_app; simpl; lia|].
  destruct (Z.ltb_spec 0 (ch_limit c)) as [Hpos|Hneg].
  - rewrite H2, Decr_spec by done. cbn [fst snd]. split; [done|]. intros Hl.
    destruct (H3 Hl) as [Hle Heq].
    assert (Z.of_nat (ch_sent c) < ch_limit c) as Hlt.
    { destruct (Z.eq_dec (Z.of_nat (ch_sent c)) (ch_limit c)) as [He|]; [|lia].
      destruct (Heq He); done. }
    split; [lia|]. intros He. rewrite i32_zero by lia.
    rewrite (proj2 (Z.eqb_eq _ _)) by lia. left. apply elem_of_app. right.
    by apply list_elem_of_singleton.
  - rewrite H2. split; [done|]. intros. lia.
Qed.

Lemma send_one_ok info s id c :
  sinv s → s_chans s !! id = Some c → ch_phase c = Live → id ∉ s_todo s →
  ∃ s', send_one info s id = Ret s' ∧ sinv s' ∧ s_subs s' = s_subs s ∧ s_sets s' = s_sets s ∧
    (∀ i, i ≠ id → s_chans s' !! i = s_chans s !! i) ∧
    (∀ i, i ∈ s_todo s' → i ∈ s_todo s ∨ i = id).
Proof.
  intros [Hsets Hch] Hc Hlive Hni. unfold send_one. rewrite Hc, Hlive.
  destruct (Nat.ltb_spec (length (ch_buf c)) chan_cap) as [Hlt|Hge]; cbv zeta.
  2: { exists s. split; [done|]. split; [by split|]. by repeat split; auto. }
  pose proof (chan_ok_send _ _ _ info (Hch _ _ Hc) Hlive Hni Hlt) as Hok. rewrite Hlive in Hok.
  set (c' := mkChan _ _ _ _ _ _ _) in *.
  assert (sets_ok (s_subs s) (s_sets s) (<[id := c']> (s_chans s))) as Hsets'
    by by eapply sets_ok_chan.
  eexists. split; [done|].
  assert (∀ i ci, <[id := c']> (s_chans s) !! i = Some ci →
    chan_ok (if snd (Decr (ch_rem c)) then s_todo s ++ [id] else s_todo s) i ci) as Hall.
  { eapply chans_update; [|done|done]. intros i ci Hi. eapply chan_ok_todo; [by apply Hch|].
    destruct (snd (Decr (ch_rem c))); set_solver. }
  destruct (snd (Decr (ch_rem c))); cbn; (split; [split; [exact Hsets'|exact Hall]|]);
    (split; [done|]); (split; [done|]).
  - split; [intros i Hi; by apply list_lookup_insert_ne|]. set_solver.
  - split; [intros i Hi; by apply list_lookup_insert_ne|]. auto.
Qed.

Lemma send_all_ok info ids s :
  sinv s → NoDup ids →
  (∀ id, id ∈ ids → (id ∉ s_todo s) ∧ ∃ c, s_chans s !! id = Some c ∧ ch_phase c = Live) →
  ∃ s', send_all info s ids = Ret s' ∧ sinv s'.
Proof.
  revert s. induction ids as [|id ids IH]; intros s Hinv Hnd Hids; [by exists s|].
  apply NoDup_cons in Hnd as [Hni Hnd].
  destruct (Hids id) as (Htodo & c & Hc & Hlive); [left|].
  destruct (send_one_ok info s id c Hinv Hc Hlive Htodo)
    as (s1 & H1 & Hinv1 & _ & _ & Hother & Htodo1).
  cbn [send_all]. rewrite H1. cbn [bind]. apply IH; [done|done|].
  intros i Hi. assert (i ≠ id) as Hne by (intros ->; done).
  destruct (Hids i) as (Hni' & ci & Hci & ?); [by right|].
  split; [intros Hin; destruct (Htodo1 i Hin); done|]. exists ci. by rewrite Hother.
Qed.

(** A dispatch never sends on a closed channel. *)
Lemma dispatch_ok s ns info :
  sinv s → s_todo s = [] → ∃ s', dispatch s ns info = Ret s' ∧ sinv s'.
Proof.
  intros Hinv Htodo. unfold dispatch. destruct (s_subs s !! ns) as [sid|] eqn:Hns; [|by exists s].
  pose proof Hinv as [[H1 _] _]. destruct (H1 _ _ Hns) as (S & HS & Hin). rewrite HS. cbn [default].
  apply send_all_ok; [done|apply NoDup_elements|]. intros id Hid. rewrite Htodo.
  split; [apply not_elem_of_nil|]. apply elem_of_elements in Hid.
  destruct (Hin id Hid) as (c & Hc & Hl & _). by exists c.
Qed.

(** The set of a namespace, made empty if it does not exist yet. *)
Definition ensure_set (s : Socket) (ns : bytes) : nat * gmap bytes nat * list (gset nat) :=
  match s_subs s !! ns with
  | Some sid => (sid, s_subs s, s_sets s)
  | None => (length (s_sets s), <[ns := length (s_sets s)]> (s_subs s), s_sets s ++ [∅])
  end.

Lemma ensure_set_ok s ns :
  sets_ok (s_subs s) (s_sets s) (s_chans s) →
  ∃ sid subs sets S, ensure_set s ns = (sid, subs, sets) ∧ subs !! ns = Some sid ∧
    sets !! sid = Some S ∧ sets_ok subs sets (s_chans s).
Proof.
  intros Hok. pose proof Hok as (H1 & H2 & H3). unfold ensure_set.
  destruct (s_subs s !! ns) as [sid|] eqn:Hns.
  { destruct (H1 _ _ Hns) as (S & HS & _). by exists sid, (s_subs s), (s_sets s), S. }
  assert (∀ n sid, s_subs s !! n = Some sid → (sid < length (s_sets s))%nat) as Hlt.
  { intros n sid Hn. destruct (H1 _ _ Hn) as (S & HS & _). by eapply lookup_lt_Some. }
  eexists _, _, _, ∅. split; [done|]. split; [apply lookup_insert_eq|].
  split; [by rewrite lookup_app_r, Nat.sub_diag by lia|]. split; [|split].
  - intros n sid [[<- <-]|[Hne Hn]]%lookup_insert_Some.
    + exists ∅. split; [by rewrite lookup_app_r, Nat.sub_diag by lia|]. set_solver.
    + destruct (H1 _ _ Hn) as (S & HS & Hin). exists S. split; [by apply lookup_app_l_Some|done].
  - intros id c Hc Hl. destruct (H2 _ _ Hc Hl) as (Hn & S & HS & Hin). split.
    + rewrite lookup_insert_ne; [done|]. intros ->. congruence.
    + exists S. split; [by apply lookup_app_l_Some|done].
  - intros n n' sid [[<- <-]|[Hne Hn]]%lookup_insert_Some [[<- ?]|[Hne' Hn']]%lookup_insert_Some;
      try done; subst.
    + apply Hlt in Hn'. lia.
    + apply Hlt in Hn. lia.
    + by eapply H3.
Qed.

Lemma sets_ok_add subs sets chans ns sid S c :
  sets_ok subs sets chans → subs !! ns = Some sid → sets !! sid = Some S →
  ch_ns c = ns → ch_set c = sid → ch_phase c = Live →
  sets_ok subs (alter (λ S, {[length chans]} ∪ S) sid sets) (chans ++ [c]).
Proof.
  intros (H1 & H2 & H3) Hns HS Hcn Hcs Hcl. split; [|split; [|done]].
  - intros n i Hn. destruct (decide (i = sid)) as [->|Hne].
    + assert (n = ns) as -> by by eapply H3. exists ({[length chans]} ∪ S).
      split; [by rewrite list_lookup_alter_eq, HS|]. intros id [->%elem_of_singleton|Hid]%elem_of_union.
      * exists c. split; [by rewrite lookup_app_r, Nat.sub_diag by lia|]. done.
      * destruct (H1 _ _ Hn) as (S' & HS' & Hin). rewrite HS in HS'. injection HS' as <-.
        destruct (Hin id Hid) as (c' & Hc' & ?). exists c'. split; [by apply lookup_app_l_Some|done].
    + destruct (H1 _ _ Hn) as (S' & HS' & Hin). exists S'.
      split; [by rewrite list_lookup_alter_ne|]. intros id Hid.
      destruct (Hin id Hid) as (c' & Hc' & ?). exists c'. split; [by apply lookup_app_l_Some|done].
  - intros id c' Hc' Hl. apply lookup_app_Some in Hc' as [Hc'|[Hge Hc']].
    + destruct (H2 _ _ Hc' Hl) as (Hn & S' & HS' & Hin). split; [done|].
      destruct (decide (ch_set c' = sid)) as [Heq|Hne].
      * rewrite Heq in *. exists ({[length chans]} ∪ S). rewrite list_lookup_alter_eq, HS. split; [done|].
        rewrite HS in HS'. injection HS' as <-. set_solver.
      * exists S'. split; [by rewrite list_lookup_alter_ne|done].
    + apply list_lookup_singleton_Some in Hc' as [Hid <-]. rewrite Hcn, Hcs. split; [done|].
      exists ({[length chans]} ∪ S). rewrite list_lookup_alter_eq, HS. split; [done|].
      assert (id = length chans) as -> by lia. set_solver.
Qed.

Lemma Subscribe_ok s ns limit : sinv s → sinv (snd (Subscribe s ns limit)).
Proof.
  intros [Hok Hch]. unfold Subscribe. destruct (s_done s); [by split|].
  destruct (ensure_set_ok s ns Hok) as (sid & subs & sets & S & He & Hns & HS & Hok').
  unfold ensure_set in He. rewrite He. cbn [snd]. split; cbn.
  - by eapply sets_ok_add.
  - intros id c [Hc|[Hge Hc]]%lookup_app_Some; [auto|].
    apply list_lookup_singleton_Some in Hc as [_ <-]. unfold chan_ok, limiter. cbn.
    rewrite Z.sub_0_r. split; [lia|]. split; [done|]. intros. lia.
Qed.

Lemma sets_ok_remove subs sets chans id c :
  sets_ok subs sets chans → chans !! id = Some c → ch_phase c = Live →
  let S' := default ∅ (sets !! ch_set c) ∖ {[id]} in
  sets_ok (if bool_decide (S' = ∅) then delete (ch_ns c) subs else subs)
    (<[ch_set c := S']> sets) (<[id := with_phase c Removed]> chans).
Proof.
  intros (H1 & H2 & H3) Hc Hl S'. destruct (H2 _ _ Hc Hl) as (Hns & S & HS & Hin).
  assert (S' = S ∖ {[id]}) as HS' by (subst S'; by rewrite HS). clearbody S'. subst S'.
  set (subs' := if bool_decide (S ∖ {[id]} = ∅) then delete (ch_ns c) subs else subs).
  assert (∀ n i, subs' !! n = Some i → subs !! n = Some i ∧ (n = ch_ns c → S ∖ {[id]} ≠ ∅)) as Hsub.
  { intros n i. subst subs'. case_bool_decide as Hempty; [|done].
    rewrite lookup_delete_Some. intros [??]. split; [done|congruence]. }
  apply lookup_lt_Some in HS as Hsl. apply lookup_lt_Some in Hc as Hcl. split; [|split].
  - intros n i [Hn Hne]%Hsub. destruct (H1 _ _ Hn) as (Sn & HSn & Hinn).
    destruct (decide (i = ch_set c)) as [->|Hi].
    + exists (S ∖ {[id]}). split; [by apply list_lookup_insert_eq|]. rewrite HS in HSn.
      injection HSn as <-. intros i [Hi1 Hi2]%elem_of_difference.
      destruct (Hinn i Hi1) as (ci & Hci & ?). exists ci.
      rewrite list_lookup_insert_ne; [done|]. set_solver.
    + exists Sn. split; [by rewrite list_lookup_insert_ne|]. intros j Hj.
      destruct (Hinn j Hj) as (cj & Hcj & Hlj & Hnj & Hsj). exists cj.
      rewrite list_lookup_insert_ne; [done|]. intros ->. congruence.
  - intros i ci Hi Hli. destruct (decide (i = id)) as [->|Hne].
    { rewrite list_lookup_insert_eq in Hi by done. by injection Hi as <-. }
    rewrite list_lookup_insert_ne in Hi by done.
    destruct (H2 _ _ Hi Hli) as (Hni & Si & HSi & Hini).
    destruct (decide (ch_set ci = ch_set c)) as [Heq|Hset].
    + rewrite Heq in *. rewrite HS in HSi. injection HSi as <-.
      assert (i ∈ S ∖ {[id]}) as Hi' by set_solver. split.
      * subst subs'. rewrite bool_decide_false by set_solver. done.
      * exists (S ∖ {[id]}). by rewrite list_lookup_insert_eq.
    + split.
      * subst subs'. case_bool_decide; [|done]. rewrite lookup_delete_ne; [done|].
        intros Hn. rewrite Hn in Hns. congruence.
      * exists Si. by rewrite list_lookup_insert_ne.
  - intros n n' i [Hn _]%Hsub [Hn' _]%Hsub. by eapply H3.
Qed.

Lemma sinv_bstep s s' : sinv s → bstep s s' → sinv s'.
Proof.
  intros Hinv Hstep. pose proof Hinv as [Hok Hch].
  destruct Hstep as [s ns limit|s s' ns info Ht Hd|s id c ids Ht Hc Hp|s id c x l Hc Hb|s s' ns ttl Ht|s t|s].
  - by apply Subscribe_ok.
  - destruct (dispatch_ok s ns info Hinv Ht) as (s1 & Hd1 & Hinv1). congruence.
  - split; cbn; [done|]. intros i ci Hi. destruct (Hch _ _ Hi) as (H1 & H2 & H3).
    split; [done|]. split; [done|]. intros Hlim. destruct (H3 Hlim) as [H4 H5]. split; [done|].
    intros He. destruct (H5 He) as [Hin|Hph]; [|by right]. rewrite Ht in Hin.
    apply elem_of_cons in Hin as [->|Hin]; [right; congruence|by left].
  - split; cbn; [by eapply sets_ok_chan|]. eapply chans_update; [exact Hch|done|].
    destruct (Hch _ _ Hc) as (H1 & H2 & H3). split; [rewrite Hb in H1; simpl in *; lia|by split].
  - unfold Track in Ht. destruct (s_done s); [done|]. injection Ht as <-. by split.
  - by split.
  - by split.
Qed.

Lemma sinv_step s s' : sinv s → sstep s s' → sinv s'.
Proof.
  intros Hinv Hstep. pose proof Hinv as [Hok Hch].
  destruct Hstep as [s s' Hb|s id c Hc Hl|s id c Hc Hp]; [by eapply sinv_bstep|..].
  - split; cbn; [by apply sets_ok_remove|]. eapply chans_update; [exact Hch|done|].
    destruct (Hch _ _ Hc) as (H1 & H2 & H3). split; [done|]. split; [done|].
    intros Hlim. destruct (H3 Hlim). split; [done|]. by right.
  - split; cbn; [by eapply sets_ok_dead; [done|congruence|done|]|].
    eapply chans_update; [exact Hch|done|].
    destruct (Hch _ _ Hc) as (H1 & H2 & H3). split; [done|]. split; [done|].
    intros Hlim. destruct (H3 Hlim). split; [done|]. by right.
Qed.

Lemma sinv_steps s s' : sinv s → rtc sstep s s' → sinv s'.
Proof. induction 2; eauto using sinv_step. Qed.

(** *** Cancellations run once *)

(** The calls inside [once.Do]. *)
Definition active (id : nat) (l : list (nat * pc)) : list (nat * pc) := filter (λ p, p.1 = id ∧ p.2 ≠ AtDo) l.

Definition once_ok (chans : list chan) (o : gmap nat bool) (l : list (nat * pc)) : Prop := ∀ id,
  match o !! id with
  | None => active id l = [] ∧ ∀ c, chans !! id = Some c → ch_phase c = Live
  | Some false => ∃ c, chans !! id = Some c ∧
      (active id l = [(id, AtRemove)] ∧ ch_phase c = Live ∨ active id l = [(id, AtClose)] ∧ ch_phase c = Removed)
  | Some true => active id l = [] ∧ ∃ c, chans !! id = Some c ∧ ch_phase c = Closed
  end.

(** Channels keep their phases, and new ones are live. *)
Definition keeps_phases (chans chans' : list chan) : Prop := ∀ id,
  match chans !! id with
  | Some c => ∃ c', chans' !! id = Some c' ∧ ch_phase c' = ch_phase c
  | None => ∀ c', chans' !! id = Some c' → ch_phase c' = Live
  end.

Lemma keeps_phases_refl chans : keeps_phases chans chans.
Proof. intros id. destruct (chans !! id) as [c|] eqn:Hc; [by exists c|]. intros c'. congruence. Qed.

Lemma keeps_phases_trans c1 c2 c3 : keeps_phases c1 c2 → keeps_phases c2 c3 → keeps_phases c1 c3.
Proof.
  intros H12 H23 id. specialize (H12 id). specialize (H23 id). destruct (c1 !! id) as [c|].
  - destruct H12 as (c' & Hc' & Hp'). rewrite Hc' in H23. destruct H23 as (c'' & ? & ?). exists c''. split; congruence.
  - destruct (c2 !! id) as [c'|] eqn:Hc'; [|done]. destruct H23 as (c'' & Hc'' & Hp). intros x Hx.
    rewrite Hx in Hc''. injection Hc'' as <-. rewrite Hp. by apply H12.
Qed.

Lemma keeps_phases_insert chans id c c' :
  chans !! id = Some c → ch_phase c' = ch_phase c → keeps_phases chans (<[id := c']> chans).
Proof.
  intros Hc Hp i. destruct (decide (i = id)) as [->|Hne].
  - rewrite Hc. exists c'. by rewrite list_lookup_insert_eq by (by eapply lookup_lt_Some).
  - rewrite list_lookup_insert_ne by done. apply keeps_phases_refl.
Qed.

Lemma send_all_phases info s ids s' : send_all info s ids = Ret s' → keeps_phases (s_chans s) (s_chans s').
Proof.
  revert s. induction ids as [|id ids IH]; intros s; cbn; [intros [= <-]; apply keeps_phases_refl|].
  intros (s1 & H1 & H2%IH)%bind_Ret_inv. eapply keeps_phases_trans; [|exact H2]. clear H2 IH. unfold send_one in H1.
  destruct (s_chans s !! id) as [c|] eqn:Hc; [|done].
  destruct (ch_phase c) eqn:Hp; [| |done];
    (destruct (_ <? _)%nat; [|injection H1 as <-; apply keeps_phases_refl]);
    injection H1 as <-; destruct (snd (Decr _)); cbn; by eapply keeps_phases_insert.
Qed.

Lemma bstep_phases s s' : bstep s s' → keeps_phases (s_chans s) (s_chans s').
Proof.
  destruct 1 as [s ns limit|s s' ns info Ht Hd|s id c ids Ht Hc Hp|s id c x l Hc Hb|s s' ns ttl Ht|s t|s];
    try apply keeps_phases_refl.
  - unfold Subscribe. destruct (s_done s); [apply keeps_phases_refl|].
    assert (∀ c, ch_phase c = Live → keeps_phases (s_chans s) (s_chans s ++ [c])) as Hk.
    { intros c Hl id. destruct (s_chans s !! id) as [x|] eqn:Hx; [exists x; by rewrite (lookup_app_l_Some _ _ _ _ Hx)|].
      intros c'. rewrite lookup_app_r by (by apply lookup_ge_None). by intros [_ <-]%list_lookup_singleton_Some. }
    destruct (s_subs s !! ns); cbn; by apply Hk.
  - unfold dispatch in Hd. destruct (s_subs s !! ns); [by eapply send_all_phases|injection Hd as <-; apply keeps_phases_refl].
  - by eapply keeps_phases_insert.
  - unfold Track in Ht. destruct (s_done s); [done|]. injection Ht as <-. apply keeps_phases_refl.
Qed.

Lemma once_ok_phases chans chans' o l : keeps_phases chans chans' → once_ok chans o l → once_ok chans' o l.
Proof.
  intros Hk Ho id. specialize (Ho id). specialize (Hk id). destruct (o !! id) as [[]|].
  - destruct Ho as (Ha & c & Hc & Hp). rewrite Hc in Hk. destruct Hk as (c' & ? & ?). split; [done|]. exists c'. split; congruence.
  - destruct Ho as (c & Hc & Hp). rewrite Hc in Hk. destruct Hk as (c' & ? & Hp'). exists c'. split; [done|]. by rewrite Hp'.
  - destruct Ho as (Ha & Hp). split; [done|]. destruct (chans !! id) as [c|]; [|done].
    destruct Hk as (c' & Hc' & Hp'). intros x Hx. rewrite Hc' in Hx. injection Hx as <-. rewrite Hp'. by apply Hp.
Qed.

Lemma active_app id l1 l2 : active id (l1 ++ l2) = active id l1 ++ active id l2.
Proof. apply filter_app. Qed.

Lemma active_idle id j l : active id ((j, AtDo) :: l) = active id l.
Proof. unfold active. by rewrite filter_cons_False by (by intros []). Qed.

Lemma active_here id p l : p ≠ AtDo → active id ((id, p) :: l) = (id, p) :: active id l.
Proof. intros Hp. unfold active. by rewrite filter_cons_True. Qed.

Lemma active_other id j p l : id ≠ j → active id ((j, p) :: l) = active id l.
Proof. intros Hne. unfold active. rewrite filter_cons_False; [done|]. intros [Heq _]. by cbn in Heq. Qed.

(** The call in progress is the only one. *)
Lemma active_one id p l1 l2 q :
  p ≠ AtDo → active id (l1 ++ (id, p) :: l2) = [(id, q)] → q = p ∧ active id l1 = [] ∧ active id l2 = [].
Proof.
  intros Hp. rewrite active_app, active_here by done. destruct (active id l1) as [|x [|y k]]; cbn; [|done|done].
  intros [= <- ->]. done.
Qed.

Lemma once_in_progress chans o l1 l2 id p :
  p ≠ AtDo → once_ok chans o (l1 ++ (id, p) :: l2) →
  o !! id = Some false ∧ active id l1 = [] ∧ active id l2 = [] ∧
  ∃ c, chans !! id = Some c ∧ ch_phase c = match p with AtRemove => Live | _ => Removed end.
Proof.
  intros Hp Ho. specialize (Ho id).
  assert (active id (l1 ++ (id, p) :: l2) ≠ []) as Hne.
  { rewrite active_app, active_here by done. by destruct (active id l1). }
  destruct (o !! id) as [[]|]; [by destruct Ho| |by destruct Ho].
  destruct Ho as (c & Hc & [[Ha Hl]|[Ha Hl]]); apply active_one in Ha as (<- & -> & ->); try done; (split_and!; [done..|]; by exists c).
Qed.

Definition calls_ok (chans : list chan) (l : list (nat * pc)) : Prop := Forall (λ p, is_Some (chans !! p.1)) l.

Lemma calls_ok_phases chans chans' l : keeps_phases chans chans' → calls_ok chans l → calls_ok chans' l.
Proof.
  intros Hk Hl. eapply Forall_impl; [exact Hl|]. intros [id p] [c Hc]. cbn in *. specialize (Hk id). rewrite Hc in Hk.
  destruct Hk as (c' & ? & _). by exists c'.
Qed.

(** A change of the phase of the channel whose call is in progress. *)
Lemma once_ok_advance chans o o' l1 l2 id k c c' :
  once_ok chans o (l1 ++ k ++ l2) → chans !! id = Some c → active id l1 = [] → active id l2 = [] →
  (∀ i, i ≠ id → o' !! i = o !! i) →
  ∀ k', (∀ i, i ≠ id → active i k' = active i k) →
  match o' !! id with
  | None => False
  | Some false => active id k' = [(id, AtClose)] ∧ ch_phase c' = Removed
  | Some true => active id k' = [] ∧ ch_phase c' = Closed
  end → once_ok (<[id := c']> chans) o' (l1 ++ k' ++ l2).
Proof.
  intros Ho Hc H1 H2 Ho' k' Hk' Hid i. pose proof (lookup_lt_Some _ _ _ Hc) as Hlt. destruct (decide (i = id)) as [->|Hne].
  - rewrite !active_app, H1, H2, app_nil_r, list_lookup_insert_eq by done. cbn.
    destruct (o' !! id) as [[]|]; [| |done]; destruct Hid as [-> Hp]; [split; [done|]; by exists c'|].
    exists c'. split; [done|]. by right.
  - specialize (Ho i). rewrite !active_app in Ho |- *. by rewrite Ho', Hk', list_lookup_insert_ne by done.
Qed.

Lemma once_ok_step w w' :
  ostep w w' → once_ok (s_chans (o_sock w)) (o_once w) (o_calls w) → calls_ok (s_chans (o_sock w)) (o_calls w) →
  once_ok (s_chans (o_sock w')) (o_once w') (o_calls w') ∧ calls_ok (s_chans (o_sock w')) (o_calls w') ∧
  (sstep (o_sock w) (o_sock w') ∨ o_sock w' = o_sock w).
Proof.
  destruct 1 as [s s' o l Hb|s o l id Hlt|s o l1 l2 id Hn|s o l1 l2 id c Hc|s s' o l1 l2 id Hcl|s o l1 l2 id Hd];
    cbn; intros Ho Hl.
  - pose proof (bstep_phases _ _ Hb) as Hk. split; [by eapply once_ok_phases|]. split; [by eapply calls_ok_phases|].
    left. by apply st_base.
  - split; [|split; [|by right]].
    + intros i. specialize (Ho i). by rewrite active_app, active_idle, app_nil_r.
    + apply Forall_app. split; [done|]. constructor; [by apply lookup_lt_is_Some|done].
  - assert (calls_ok (s_chans s) (l1 ++ (id, AtRemove) :: l2)) as Hl'.
    { apply Forall_app in Hl as [? Hl]. apply Forall_app. split; [done|]. by inversion Hl; constructor. }
    split; [|split; [done|by right]]. intros i. pose proof (Ho i) as Hi. rewrite active_app, active_idle in Hi. rewrite active_app.
    destruct (decide (i = id)) as [->|Hne].
    + rewrite lookup_insert_eq, active_here by done. rewrite Hn in Hi. destruct Hi as [[-> ->]%app_nil Hp].
      apply Forall_app in Hl as [_ Hl]. inversion Hl as [|? ? [c Hc] _]; subst. exists c. split; [done|]. left.
      split; [done|by apply Hp].
    + by rewrite lookup_insert_ne, active_other by done.
  - destruct (once_in_progress _ _ _ _ _ AtRemove ltac:(done) Ho) as (Ho1 & H1 & H2 & c' & Hc' & Hp).
    rewrite Hc in Hc'. injection Hc' as <-. split; [|split].
    + apply (once_ok_advance (s_chans s) o o l1 l2 id [(id, AtRemove)] c (with_phase c Removed) Ho Hc H1 H2 ltac:(done) [(id, AtClose)]).
      { intros i Hi. by rewrite !active_other. }
      rewrite Ho1. by rewrite active_here.
    + assert (calls_ok (s_chans s) (l1 ++ (id, AtClose) :: l2)) as Hl'.
      { apply Forall_app in Hl as [? Hl]. apply Forall_app. split; [done|]. by inversion Hl; constructor. }
      eapply Forall_impl; [exact Hl'|]. intros [i p]. cbn. rewrite !lookup_lt_is_Some. by rewrite length_insert.
    + left. by apply st_cancel.
  - destruct (once_in_progress _ _ _ _ _ AtClose ltac:(done) Ho) as (Ho1 & H1 & H2 & c & Hc & Hp). cbn in Hp.
    unfold close_chan in Hcl. rewrite Hc, Hp in Hcl. injection Hcl as <-. split; [|split].
    + apply (once_ok_advance (s_chans s) o _ l1 l2 id [(id, AtClose)] c (with_phase c Closed) Ho Hc H1 H2) with (k' := []).
      { intros i Hi. by rewrite lookup_insert_ne. }
      { intros i Hi. by rewrite active_other. }
      by rewrite lookup_insert_eq.
    + apply Forall_app in Hl as [? Hl]. apply Forall_cons in Hl as [_ Hl].
      assert (calls_ok (s_chans s) (l1 ++ l2)) as Hl' by (by apply Forall_app).
      eapply Forall_impl; [exact Hl'|]. intros [i p]. cbn. rewrite !lookup_lt_is_Some. by rewrite length_insert.
    + left. by apply st_close_chan.
  - split; [|split; [|by right]].
    + intros i. specialize (Ho i). rewrite active_app in Ho |- *. by rewrite active_idle in Ho.
    + apply Forall_app in Hl as [? Hl]. apply Forall_cons in Hl as [_ Hl]. by apply Forall_app.
Qed.

(** Cancelling implements the two steps of [sstep]. *)
Lemma ostep_refines now w :
  rtc ostep (mkO (New now) ∅ []) w →
  rtc sstep (New now) (o_sock w) ∧ once_ok (s_chans (o_sock w)) (o_once w) (o_calls w) ∧
  calls_ok (s_chans (o_sock w)) (o_calls w).
Proof.
  intros Hrun. apply rtc_ind_r with (P := λ w, rtc sstep (New now) (o_sock w) ∧
    once_ok (s_chans (o_sock w)) (o_once w) (o_calls w) ∧ calls_ok (s_chans (o_sock w)) (o_calls w)) in Hrun; [done| |].
  - split; [apply rtc_refl|]. split; [|constructor]. intros id. cbn. by rewrite lookup_empty.
  - intros w1 w2 _ Hst (Hr & Ho & Hl). destruct (once_ok_step _ _ Hst Ho Hl) as (Ho' & Hl' & Hs).
    split; [|done]. destruct Hs as [Hs| ->]; [by eapply rtc_r|done].
Qed.

(** ** Properties *)

(** C9. However subscriptions, calls of their cancel functions, deliveries and receptions
    interleave, the socket never sends on a closed channel (every dispatch succeeds) and
    never closes one twice: of all the calls of a cancel function, one at a time is about to
    close the channel, which is then open.  A subscription with a limit below 2^32 is never
    sent more records than its limit, no buffer exceeds its capacity, and the subscriber
    set of a namespace holds exactly its live subscriptions. *)
Theorem subscriptions_safe (now : Z) (w : osocket) :
  rtc ostep (mkO (New now) ∅ []) w → let s := o_sock w in
  (s_todo s = [] → ∀ ns info, ∃ s', dispatch s ns info = Ret s') ∧
  (∀ id, (id, AtClose) ∈ o_calls w →
     active id (o_calls w) = [(id, AtClose)] ∧ ∃ s', close_chan s id = Ret s') ∧
  (∀ id c, s_chans s !! id = Some c → (length (ch_buf c) ≤ 16)%nat ∧
     (0 < ch_limit c < 2 ^ 32 → Z.of_nat (ch_sent c) ≤ ch_limit c)) ∧
  (∀ id c, s_chans s !! id = Some c →
     (ch_phase c = Live ↔ ∃ sid S, s_subs s !! ch_ns c = Some sid ∧ s_sets s !! sid = Some S ∧ id ∈ S)).
Proof.
  intros (Hs & Ho & _)%ostep_refines. cbv zeta. set (s := o_sock w) in *. pose proof (sinv_steps _ _ (sinv_New now) Hs) as Hinv.
  pose proof Hinv as [(H1 & H2 & _) Hch]. split; [|split; [|split]].
  - intros Ht ns info. destruct (dispatch_ok s ns info Hinv Ht) as (s' & Hd & _). by exists s'.
  - intros id (l1 & l2 & Hl)%list_elem_of_split. rewrite Hl in Ho |- *.
    destruct (once_in_progress _ _ _ _ _ AtClose ltac:(done) Ho) as (_ & Ha1 & Ha2 & c & Hc & Hp). cbn in Hp.
    rewrite active_app, active_here, Ha1, Ha2 by done. split; [done|]. unfold close_chan. rewrite Hc, Hp. by eexists.
  - intros id c Hc. destruct (Hch _ _ Hc) as (Hb & _ & Hl). split; [done|]. by intros []%Hl.
  - intros id c Hc. split.
    + intros Hl. destruct (H2 _ _ Hc Hl) as (? & S & ? & ?). by exists (ch_set c), S.
    + intros (sid & S & Hn & HS & Hin). destruct (H1 _ _ Hn) as (S' & HS' & Hall).
      rewrite HS in HS'. injection HS' as <-. destruct (Hall _ Hin) as (c' & Hc' & Hl & _). congruence.
Qed.

(** A subscription that two calls cancel: the first is about to close its channel. *)
Definition cancelled : osocket :=
  mkO (cancel_remove (snd (Subscribe (New 0) (bs "ns") 1)) 0 (mkChan (bs "ns") 0 1 (limiter 1) [] 0 Live))
    {[0%nat := false]} [(0%nat, AtClose); (0%nat, AtDo)].

Lemma subscriptions_safe_witness :
  (∃ s', dispatch (o_sock cancelled) (bs "ns") (mkInfo (bs "p") []) = Ret s') ∧
  ∃ s', close_chan (o_sock cancelled) 0 = Ret s'.
Proof.
  assert (rtc ostep (mkO (New 0) ∅ []) cancelled) as Hrun.
  { eapply rtc_l; [apply o_base, (st_subscribe _ (bs "ns") 1)|].
    eapply rtc_l; [apply (o_call _ _ _ 0); vm_compute; lia|].
    eapply rtc_l; [apply (o_call _ _ _ 0); vm_compute; lia|].
    eapply rtc_l; [apply (o_enter _ _ [] _ 0); reflexivity|].
    apply rtc_once. apply (o_remove _ _ [] _ 0). reflexivity. }
  destruct (subscriptions_safe 0 cancelled Hrun) as (H1 & H2 & _).
  split; [apply H1; reflexivity|]. apply (H2 0%nat). by left.
Defined.

(** An advertisement lasts for its TTL of the socket's clock: after [Track] on an open
    socket the namespace is served as long as no tick is later than the deadline, and not
    after such a tick; a closed socket refuses to track. *)
Theorem advertisement_lifetime (s : Socket) (ns : bytes) (ttl : Z) (ts : list Z) :
  s_done s = false → 0 ≤ ttl → Forall (λ t, t ≤ s_time s + ttl) ts →
  ∃ s', Track s ns ttl = Ret s' ∧ tracking (foldl tick s' ts) ns = true ∧
    (∀ t, s_time s + ttl < t → tracking (tick (foldl tick s' ts) t) ns = false) ∧
    Track (Close s) ns ttl = Fail ErrAlreadyClosed.
Proof.
  intros Hopen Httl Hts. unfold Track. rewrite Hopen. eexists. split; [done|].
  set (s1 := mkSocket _ _ _ _ _ _ _). set (dl := s_time s + ttl) in *.
  assert (s_advt (foldl tick s1 ts) !! ns = Some dl) as Hdl.
  { assert (s_advt s1 !! ns = Some dl) as H0 by apply lookup_insert_eq.
    clearbody s1. revert s1 H0. induction Hts as [|t ts Ht _ IH]; intros s1 H0; [done|].
    cbn [foldl]. apply IH. cbn. apply map_lookup_filter_Some. split; [done|]. cbn. lia. }
  split; [|split; [|done]].
  - unfold tracking. rewrite bool_decide_true; [done|]. rewrite Hdl. by eexists.
  - intros t Ht. unfold tracking. rewrite bool_decide_false; [done|]. cbn.
    intros [x Hx]. apply map_lookup_filter_Some in Hx as [Hx Hn]. cbn in Hn.
    rewrite Hdl in Hx. injection Hx as <-. lia.
Qed.

Lemma advertisement_lifetime_witness :
  ∃ s', Track (New 100) (bs "ns") 50 = Ret s' ∧ tracking (foldl tick s' [120; 150]) (bs "ns") = true.
Proof.
  destruct (advertisement_lifetime (New 100) (bs "ns") 50 [120; 150]) as (s' & Ht & Hk & _).
  - reflexivity.
  - lia.
  - repeat constructor; cbn; lia.
  - exists s'. split; [exact Ht|exact Hk].
Defined.

(** A packet reaches the handler or the subscribers only if it was signed by the peer
    it names: whatever [Scan] returns with the basic validator is of a readable type, its
    peer matches the key of the envelope and, when the validator knows the local peer, is
    not the local peer.  Packets of the local peer are dropped silently. *)
Theorem scan_authenticates {pubkey addr} (id_from_bytes : bytes → sres bytes)
    (matches : bytes → pubkey → bool) (consume : bytes → sres (pubkey * Packet)) self
    (read : sres (bytes * addr)) :
  let scan := Scan consume (BasicValidator id_from_bytes matches self) read in
  (∀ r a, scan = Ret (r, a) →
     ∃ b k p, read = Ret (b, a) ∧ consume (received b) = Ret (k, r) ∧ Peer id_from_bytes r = Ret p ∧
       matches p k = true ∧ (self ≠ [] → p ≠ self)) ∧
  (∀ b a k r, read = Ret (b, a) → consume (received b) = Ret (k, r) → Peer id_from_bytes r = Ret self →
     self ≠ [] → scan = Fail (ValidationError ErrIgnore) ∧
       serve_step scan false = Ret ServeContinue).
Proof.
  intros scan. subst scan. split.
  - intros r a Hs. apply bind_Ret_inv in Hs as ([b a'] & Hr & Hs).
    apply bind_Ret_inv in Hs as ([k r'] & Hc & Hs). apply bind_Ret_inv in Hs as (u & Hv & [= <- <-]).
    cbn [fst snd] in *. unfold wrap_validation in Hc, Hv.
    destruct (consume (received b)) as [kr| |] eqn:Hcons; try done. injection Hc as ->.
    destruct (BasicValidator id_from_bytes matches self k r') as [[]| |] eqn:Hbv; try done.
    unfold BasicValidator in Hbv. apply bind_Ret_inv in Hbv as (p & Hp & Hbv).
    exists b, k, p. repeat (split; [done|]).
    unfold bytes_eqb in Hbv.
    destruct (negb (bool_decide (self = [])) && bool_decide (p = self)) eqn:Hb; [done|].
    destruct (matches p k) eqn:Hm; [|done]. split; [done|]. intros Hs Hps.
    by rewrite bool_decide_false, bool_decide_true in Hb.
  - intros b a k r Hr Hc Hp Hself. unfold Scan. rewrite Hr. cbn [bind fst snd].
    rewrite Hc. cbn [wrap_validation bind fst snd]. unfold BasicValidator. rewrite Hp. cbn [bind].
    unfold bytes_eqb. rewrite bool_decide_false, bool_decide_true by done. by cbn.
Qed.

Definition toy_packet : Packet := mkPacket (Ret (bs "ns")) (Ret []) (request (Ret (bs "p"))).

Lemma scan_authenticates_witness :
  Scan (addr := unit) (λ _, Ret (tt, toy_packet))
    (BasicValidator (λ b, Ret b) (λ _ _, true) (bs "p")) (Ret (bs "raw", tt))
    = Fail (ValidationError ErrIgnore).
Proof.
  refine (proj1 (proj2 (scan_authenticates (λ b, Ret b) (λ _ _, true) (λ _, Ret (tt, toy_packet))
    (bs "p") (Ret (bs "raw", tt))) (bs "raw") tt tt toy_packet _ _ _ _)); done.
Defined.

(** A packet whose namespace cannot be read crashes the socket with the default error
    handler: the error it produces has no Meta map, into which [Loggable] then stores the
    cause. *)
Theorem unreadable_namespace_panics (bind : Packet → sres AddrInfo) (tracked : bytes → bool)
    (h : Packet → sres unit) (r : Packet) (e : serror) :
  namespace r = Fail e → errors_Is e ErrIgnore = false →
  handle bind tracked h r = Fail (ProtocolError e false) ∧
  serve_step (handle bind tracked h r) false = Ret (ServeReported (ProtocolError e false)) ∧
  default_handler (ProtocolError e false) = Panic.
Proof.
  intros Hn He. unfold handle. rewrite Hn. split; [done|]. split; [|done].
  cbn. rewrite He. by rewrite bool_decide_false.
Qed.

Lemma unreadable_namespace_panics_witness :
  default_handler (ProtocolError (ErrExternal 1) false) = Panic.
Proof.
  apply (unreadable_namespace_panics (λ _, Fail ErrIgnore) (λ _, true) (λ _, Ret tt)
    (mkPacket (Fail (ErrExternal 1)) (Ret []) other) (ErrExternal 1)); reflexivity.
Defined.

(** ** The record cache *)
Section cache_props.
Context {C env : Type} `{!Cache2Q C env} (holds : C → key → env → Prop).
Context (put : bytes → sres unit) (seal : Packet → sres env).

(** Every cached envelope seals a packet of the kind and namespace of its key. *)
Definition key_matches (k : key) (p : Packet) : Prop :=
  namespace p = Ret (k_ns k) ∧
  match k_kind k, which p with
  | reqKind, request _ => True
  | survReqKind, survey _ d => d = k_dist k
  | resKind, response _ => True
  | _, _ => False
  end.

Lemma request_packet_matches id ns pk :
  request_packet put id ns = Ret pk → key_matches (requestKey ns) pk.
Proof. unfold request_packet. by intros (? & _ & (? & _ & [= <-])%bind_Ret_inv)%bind_Ret_inv. Qed.

Lemma survey_packet_matches id ns dist pk :
  survey_packet put id ns dist = Ret pk → key_matches (surveyKey ns dist) pk.
Proof. unfold survey_packet. by intros (? & _ & (? & _ & [= <-])%bind_Ret_inv)%bind_Ret_inv. Qed.

Lemma response_packet_matches id as_ ns pk :
  response_packet put id as_ ns = Ret pk → key_matches (responseKey ns) pk.
Proof.
  unfold response_packet.
  by intros (? & _ & (? & _ & (? & _ & [= <-])%bind_Ret_inv)%bind_Ret_inv)%bind_Ret_inv.
Qed.

Definition cache_ok (c : C) : Prop :=
  ∀ k e, holds c k e → ∃ p, seal p = Ret e ∧ key_matches k p.

Lemma load_ok `{!Cache2QLaws holds} c p k :
  cache_ok c → (∀ pk, p = Ret pk → key_matches k pk) →
  cache_ok (snd (load c p seal k)) ∧
  ∀ e, fst (load c p seal k) = Ret e → ∃ pk, seal pk = Ret e ∧ key_matches k pk.
Proof.
  intros Hok Hp. unfold load. destruct (c_get c k) as [[e|] c'] eqn:Hg.
  - split; cbn.
    + intros k' e' Hh. apply Hok. by eapply get_keeps.
    + intros e' [= <-]. apply Hok. by eapply get_hit.
  - assert (cache_ok c') as Hok'. { intros k' e' Hh. apply Hok. by eapply get_keeps. }
    unfold storeCache. destruct p as [pk| |]; cbn; [|done|done].
    destruct (seal pk) as [e| |] eqn:Hs; cbn; [|done|done].
    pose proof (Hp _ eq_refl) as Hm. split.
    + intros k' e' [[-> ->]|Hh]%add_holds; [by exists pk|by apply Hok'].
    + intros e' [= <-]. by exists pk.
Qed.

(** The cache never mixes packets up: whatever was loaded before, the envelope
    returned for a request, survey or response seals a packet of that kind, for that
    namespace and (for surveys) that distance; the cache stays consistent. *)
Theorem cache_returns_own_kind (c : C) (id ns : bytes) (dist : Z) (addrs : list bytes) :
  Cache2QLaws holds → cache_ok c →
  (∀ r, r = LoadRequest put c seal id ns →
     cache_ok (snd r) ∧ ∀ e, fst r = Ret e → ∃ p, seal p = Ret e ∧
       namespace p = Ret ns ∧ ∃ f, which p = request f) ∧
  (∀ r, r = LoadSurveyRequest put c seal id ns dist →
     cache_ok (snd r) ∧ ∀ e, fst r = Ret e → ∃ p, seal p = Ret e ∧
       namespace p = Ret ns ∧ ∃ f, which p = survey f dist) ∧
  (∀ r, r = LoadResponse put c seal id addrs ns →
     cache_ok (snd r) ∧ ∀ e, fst r = Ret e → ∃ p, seal p = Ret e ∧
       namespace p = Ret ns ∧ ∃ f, which p = response f).
Proof.
  intros Hlaws Hok. split; [|split]; intros r ->.
  - destruct (load_ok c _ _ Hok (request_packet_matches id ns)) as [Hok' He].
    split; [done|]. intros e (pk & Hs & Hn & Hw)%He. exists pk. cbn in Hw.
    destruct (which pk); naive_solver.
  - destruct (load_ok c _ _ Hok (survey_packet_matches id ns dist)) as [Hok' He].
    split; [done|]. intros e (pk & Hs & Hn & Hw)%He. exists pk. cbn in Hw.
    destruct (which pk); naive_solver.
  - destruct (load_ok c _ _ Hok (response_packet_matches id addrs ns)) as [Hok' He].
    split; [done|]. intros e (pk & Hs & Hn & Hw)%He. exists pk. cbn in Hw.
    destruct (which pk); naive_solver.
Qed.
End cache_props.

(** A cache that keeps everything, as an instance of the interface. *)
#[local] Instance list_cache : Cache2Q (list (key * Packet)) Packet := {|
  c_new _ := Ret [];
  c_get c k := (snd <$> list_find (λ ke, ke.1 = k) c ≫= λ p, Some p.2, c);
  c_add c k e := (k, e) :: c;
  c_purge _ := [] |}.

Lemma list_cache_laws : Cache2QLaws (λ c k e, (k, e) ∈ c).
Proof.
  split; cbn.
  - intros c k e c' [= Hf _].
    destruct (list_find (λ ke, ke.1 = k) c) as [[i [k' e']]|] eqn:Hl; [|done]. cbn in Hf.
    injection Hf as ->. apply list_find_Some in Hl as (Hi & Hk & _). cbn in Hk. subst k'.
    by eapply list_elem_of_lookup_2.
  - intros c k e c' k' e' [= _ ->]. done.
  - intros c k e k' e' [[= -> ->]|Hin]%elem_of_cons; auto.
  - intros c k e. apply not_elem_of_nil.
Qed.

Lemma cache_returns_own_kind_witness :
  ∃ p, fst (LoadRequest (λ _, Ret tt) ([] : list (key * Packet)) Ret (bs "p") (bs "ns")) = Ret p ∧
       namespace p = Ret (bs "ns").
Proof.
  destruct (proj1 (cache_returns_own_kind (λ c k e, (k, e) ∈ c) (λ _, Ret tt) Ret []
    (bs "p") (bs "ns") 0 [] list_cache_laws
    ltac:(intros k e H; destruct (not_elem_of_nil _ H))) _ eq_refl) as [_ He].
  destruct (He _ eq_refl) as (p & Hs & Hn & _). eexists. split; [reflexivity|]. reflexivity.
Defined.
