(* ===== verification/Survey.v ===== *)
(** * Multicast surveys ([src/pkg/boot/survey])

    A surveyor multicasts a request for a namespace; hosts that advertise it answer when
    they are within the requested distance of the requester ([ignore]).  A gradual
    surveyor repeats the survey with growing distances.  This file models the distance,
    the request handler, the discovery operations over the socket of [BootSocket], the
    loop of the gradual surveyor and the multicast connection. *)

From stdpp Require Import base list gmap strings.
From Stdlib Require Import ZArith Lia.
From S2P Require Import Prelude BootSocket.

Open Scope Z_scope.

(** ** Distance ([survey.go]) *)

(** [id[len(id)-i-1]]: an index before the start panics. *)
Definition from_end (id : bytes) (i : nat) : sres Z :=
  match rev id !! i with Some b => Ret b | None => Panic end.

Fixpoint xor_loop (n i : nat) (id1 id2 : bytes) : sres bytes :=
  match n with
  | O => Ret []
  | S n' =>
      a <~ from_end id1 i ;; b <~ from_end id2 i ;;
      rest <~ xor_loop n' (S i) id1 id2 ;;
      Ret (Z.lxor a b :: rest)
  end.

Definition xor (id1 id2 : bytes) : sres Z := l <~ xor_loop 4 0 id1 id2 ;; Ret (be_decode l).

Definition ignore (local remote : bytes) (d : Z) : sres bool :=
  x <~ xor local remote ;; Ret (negb (Z.shiftr x d =? 0)).

(** ** Options ([option.go]) *)
Record Options := mkOptions { o_Ttl : Z; o_Limit : Z; o_Distance : option Z }.

Definition distance (o : Options) : Z := match o_Distance o with Some d => d | None => 255 end.

Definition WithDistance (d : Z) (o : Options) : Options := mkOptions (o_Ttl o) (o_Limit o) (Some d).

(** ** The surveyor *)
Definition TempAddrTTL : Z := 2 * 60 * 1000000000.

Section surveyor.
Context (id_from_bytes : bytes → sres bytes).

(** The handler: [send] is [SendSurveyResponse]. *)
Definition handler (self : bytes) (send : bytes → sres unit) (r : Packet) (ns : bytes)
    : sres unit :=
  match Peer id_from_bytes r with
  | Panic => Panic
  | Fail e => Fail (ProtocolError e true)
  | Ret id =>
      ig <~ ignore self id (Distance r) ;;
      if ig then Fail ErrIgnore else send ns
  end.
End surveyor.

(** [Advertise]; [apply] is the result of applying the options. *)
Definition Advertise (addrs : list bytes) (apply : Options → sres Options) (s : Socket)
    (ns : bytes) : sres Z * Socket :=
  if (length addrs =? 0)%nat then (Fail (ErrExternal 10), s)
  else match apply (mkOptions TempAddrTTL 0 None) with
       | Ret o => match Track s ns (o_Ttl o) with
                  | Ret s' => (Ret (o_Ttl o), s')
                  | Fail e => (Fail e, s)
                  | Panic => (Panic, s)
                  end
       | Fail e => (Fail e, s)
       | Panic => (Panic, s)
       end.

(** [FindPeers]: the channel of the subscription; when the request cannot be sent the
    subscription is cancelled (its channel removed and closed). *)
Definition cancel_now (s : Socket) (ch : option nat) : Socket :=
  match ch with
  | None => s
  | Some id =>
      match s_chans s !! id with
      | Some c =>
          let s' := cancel_remove s id c in
          set_chans s' (<[id := with_phase c Closed]> (s_chans s'))
      | None => s
      end
  end.

Definition FindPeers (apply : Options → sres Options) (send : bytes → Z → sres unit)
    (s : Socket) (ns : bytes) : sres (option nat) * Socket :=
  match apply (mkOptions 0 0 None) with
  | Ret o =>
      let p := Subscribe s ns (o_Limit o) in
      match send ns (distance o) with
      | Ret _ => (Ret (fst p), snd p)
      | Fail e => (Fail e, cancel_now (snd p) (fst p))
      | Panic => (Panic, snd p)
      end
  | Fail e => (Fail e, s)
  | Panic => (Panic, s)
  end.

(** ** The gradual surveyor ([gradual.go]) *)
Record GradualSurveyor := mkGradual { g_Factor : Z; g_Min : Z; g_Max : Z; g_DisableJitter : bool }.

(** The factor is in tenths. *)
Record Backoff := mkBackoff { b_Factor : Z; b_Min : Z; b_Max : Z; b_Jitter : bool }.

Definition Second : Z := 1000000000.

Definition backoff (g : GradualSurveyor) : Backoff :=
  let b := mkBackoff (g_Factor g) (g_Max g) (g_Max g) (negb (g_DisableJitter g)) in
  mkBackoff (if b_Factor b =? 0 then 15 else b_Factor b)
    (if b_Min b =? 0 then Second * 5 else b_Min b)
    (if b_Max b =? 0 then Second * 90 else b_Max b) (b_Jitter b).

(** One iteration of the loop; each one evaluates [b.Duration()], which counts an attempt,
    whichever case the [select] takes.  [found] is the current survey's channel: the records waiting in
    it and whether it is closed; it is nil after a survey that failed.  [out] is the
    output channel, of capacity one. *)
Inductive found_chan := FNil | FChan (buf : list AddrInfo) (closed : bool).

Record gstate := mkG { g_found : found_chan; g_out : list AddrInfo; g_attempt : Z }.

Inductive gevent :=
| GTimeout (res : option found_chan)     (* the timer: a new survey, or a failed one *)
| GFound.                                (* receive from [found] *)

(** Receiving from a closed, empty channel yields the zero value at once. *)
Definition zero_info : AddrInfo := mkInfo [] [].

Definition recv_found (f : found_chan) : option (AddrInfo * found_chan) :=
  match f with
  | FNil => None
  | FChan (x :: l) c => Some (x, FChan l c)
  | FChan [] true => Some (zero_info, FChan [] true)
  | FChan [] false => None
  end.

Definition gradual_step (s : gstate) (e : gevent) : option gstate :=
  match e with
  | GTimeout res =>
      Some (mkG (match res with Some f => f | None => FNil end) (g_out s) (g_attempt s + 1))
  | GFound =>
      match recv_found (g_found s) with
      | None => None
      | Some (x, f) =>
          Some (mkG f (if (length (g_out s) <? 1)%nat then g_out s ++ [x] else g_out s)
                 (g_attempt s + 1))
      end
  end.

(** The distance of the survey that the timer starts: [uint8(b.Attempt())].  The attempt is
    a [float64], whose conversion above 255 Go leaves to the implementation ([None]). *)
Definition gradual_distance (s : gstate) : option Z :=
  if g_attempt s + 1 <=? 255 then Some (g_attempt s + 1) else None.

(** ** Multicast connections ([multicast.go]) *)
Record Interface := mkInterface { if_Name : bytes; FlagUp : bool; FlagMulticast : bool; FlagLoopback : bool }.

Definition ResolveMulticastInterface (value : sres bytes) (by_name : bytes → sres Interface)
    : sres Interface :=
  name <~ value ;;
  ifi <~ by_name name ;;
  if negb (FlagUp ifi) then Fail (ErrExternal 20)
  else if negb (FlagMulticast ifi) then Fail (ErrExternal 21)
  else if prefixb (bs "lo") name && negb (FlagLoopback ifi) then Fail (ErrExternal 22)
  else Ret ifi.

Definition ResolveMulticast {udp} (dial_args : sres (bytes * bytes))
    (resolve : bytes → bytes → sres udp) (ifi : sres Interface) : sres (udp * Interface) :=
  p <~ dial_args ;; u <~ resolve (fst p) (snd p) ;; i <~ ifi ;; Ret (u, i).

(** Joining: the checks and calls in order; [set_control] enables the destination address
    that [ReadFrom] relies on. *)
Definition newMulticastConn {conn} (c : conn) (join set_control set_iface : sres unit) : sres conn :=
  _ <~ join ;; _ <~ set_control ;; _ <~ set_iface ;; Ret c.

Definition JoinMulticastGroup {conn} (is_multicast is_v4 : bool) (listen : sres conn)
    (v4 v6 : conn → sres conn) : sres conn :=
  if negb is_multicast then Fail (ErrExternal 23)
  else c <~ listen ;; if is_v4 then v4 c else v6 c.

(** [ReadFrom] skips the packets that were not sent to a multicast address.  The results
    of the successive reads are given; the loop blocks when they run out. *)
Record datagram := mkDatagram { d_data : bytes; d_addr : bytes; d_multicast : bool }.

Fixpoint ReadFrom (reads : list (sres datagram)) : option (sres datagram * list (sres datagram)) :=
  match reads with
  | [] => None
  | Ret d :: reads' => if d_multicast d then Some (Ret d, reads') else ReadFrom reads'
  | e :: reads' => Some (e, reads')
  end.

(** The transcoder of interface names. *)
Definition TranscoderIface_StringToBytes (name : bytes) : sres bytes := Ret name.
Definition TranscoderIface_BytesToString (b : bytes) : sres bytes := Ret b.

(** ** Facts *)
(** The exclusive or of the last bytes, from the end. *)
Definition tail_bytes (n : nat) (id : bytes) : bytes := take n (rev id).

Lemma wf_bytes_rev l : wf_bytes l → wf_bytes (rev l).
Proof.
  unfold wf_bytes. rewrite !Forall_forall. intros Hl x Hx. apply Hl.
  apply list_elem_of_In in Hx. by apply list_elem_of_In, in_rev.
Qed.

Lemma xor_loop_spec n i id1 id2 :
  wf_bytes id1 → wf_bytes id2 → (i + n ≤ length id1)%nat → (i + n ≤ length id2)%nat →
  ∃ l, xor_loop n i id1 id2 = Ret l ∧ length l = n ∧ wf_bytes l ∧
    l = zip_with Z.lxor (take n (drop i (rev id1))) (take n (drop i (rev id2))).
Proof.
  intros H1 H2. revert i. induction n as [|n IH]; intros i Hl1 Hl2.
  - exists []. repeat split. constructor.
  - cbn [xor_loop].
    destruct (lookup_lt_is_Some_2 (rev id1) i) as [a Ha]; [rewrite length_rev; lia|].
    destruct (lookup_lt_is_Some_2 (rev id2) i) as [b Hb]; [rewrite length_rev; lia|].
    unfold from_end. rewrite Ha, Hb. cbn [bind].
    destruct (IH (S i)) as (l & Hl & Hlen & Hwf & Heq); [lia|lia|]. rewrite Hl. cbn [bind].
    exists (Z.lxor a b :: l). split; [done|]. split; [by rewrite <-Hlen|].
    rewrite (drop_S _ _ _ Ha), (drop_S _ _ _ Hb). cbn. split; [|by rewrite Heq].
    constructor; [|done]. apply lxor_byte.
    + apply (Forall_lookup_1 _ _ _ _ (wf_bytes_rev _ H1) Ha).
    + apply (Forall_lookup_1 _ _ _ _ (wf_bytes_rev _ H2) Hb).
Qed.

Lemma be_decode_zero l : wf_bytes l → (be_decode l = 0 ↔ Forall (λ b, b = 0) l).
Proof.
  induction l as [|b l IH]; intros Hwf; [split; [constructor|done]|].
  apply Forall_cons in Hwf as [Hb Hl]. rewrite be_decode_cons, Forall_cons, <-(IH Hl).
  pose proof (be_decode_range l Hl) as Hr. pose proof (pow256_pos (length l)) as Hp.
  unfold is_byte in Hb. split.
  - intros H0. assert (b = 0) as -> by nia. split; [done|lia].
  - intros [-> ->]. lia.
Qed.

Lemma lxor_all_zero (l k : bytes) :
  length l = length k → (Forall (λ b, b = 0) (zip_with Z.lxor l k) ↔ l = k).
Proof.
  revert k. induction l as [|a l IH]; intros [|b k] Hlen; try done.
  cbn. rewrite Forall_cons, IH by (simpl in Hlen; lia). rewrite Z.lxor_eq_0_iff. naive_solver.
Qed.

(** ** Properties *)

(** The distance of a survey is a nested family: two identifiers have a 32-bit
    distance that is zero exactly when their last four bytes agree, and a host answers a
    survey of distance [d] exactly when their distance is below 2^d.  So a larger distance
    reaches every host a smaller one does, distance zero only hosts with the same last
    bytes, and every distance from 32 on (the default is 255) all hosts. *)
Theorem survey_distance_nested (local remote : bytes) :
  wf_bytes local → wf_bytes remote → (4 ≤ length local)%nat → (4 ≤ length remote)%nat →
  ∃ x, xor local remote = Ret x ∧ 0 ≤ x < 2 ^ 32 ∧
    (x = 0 ↔ take 4 (rev local) = take 4 (rev remote)) ∧
    (∀ d, 0 ≤ d → ignore local remote d = Ret (2 ^ d <=? x)) ∧
    (∀ d, 32 ≤ d → ignore local remote d = Ret false).
Proof.
  intros H1 H2 Hl1 Hl2.
  destruct (xor_loop_spec 4 0 local remote H1 H2 ltac:(lia) ltac:(lia)) as (l & Hl & Hlen & Hwf & Heq).
  exists (be_decode l). unfold ignore, xor. rewrite Hl. cbn [bind].
  pose proof (be_decode_range l Hwf) as Hr. rewrite Hlen in Hr. change (256 ^ Z.of_nat 4) with (2 ^ 32) in Hr.
  assert (∀ d, 0 ≤ d → negb (Z.shiftr (be_decode l) d =? 0) = (2 ^ d <=? be_decode l)) as Hd.
  { intros d Hd. rewrite Z.shiftr_div_pow2 by done.
    pose proof (Z.pow_pos_nonneg 2 d ltac:(lia) Hd) as Hp.
    destruct (Z.leb_spec (2 ^ d) (be_decode l)) as [Hle|Hlt].
    - apply negb_true_iff, Z.eqb_neq.
      pose proof (Z.div_le_lower_bound (be_decode l) (2 ^ d) 1 Hp). lia.
    - by rewrite Z.div_small by lia. }
  split; [done|]. split; [done|]. split; [|split].
  - rewrite be_decode_zero, Heq, !drop_0 by done.
    apply lxor_all_zero. rewrite !length_take, !length_rev. lia.
  - intros d Hd0. by rewrite Hd.
  - intros d Hd32. rewrite Hd by lia. f_equal. apply Z.leb_gt.
    pose proof (Z.pow_le_mono_r 2 32 d ltac:(lia) Hd32). lia.
Qed.

Lemma survey_distance_nested_witness :
  ∃ x, xor [1; 2; 3; 4; 5] [9; 2; 3; 4; 7] = Ret x ∧ 0 ≤ x < 2 ^ 32.
Proof.
  destruct (survey_distance_nested [1; 2; 3; 4; 5] [9; 2; 3; 4; 7]) as (x & Hx & Hr & _).
  - repeat constructor; vm_compute; congruence.
  - repeat constructor; vm_compute; congruence.
  - cbn; lia.
  - cbn; lia.
  - exists x. split; [exact Hx|exact Hr].
Defined.

(** The gradual surveyor does not do what its fields say: the minimum wait is taken
    from [Max], so that [Min] has no effect and with a [Max] every wait starts at the
    maximum; and when the subscription of a survey is closed (its limit was reached) the
    loop keeps receiving zero values from it and offers an empty peer to the caller, each
    time counting an attempt, so that the next survey's distance jumps. *)
Theorem gradual_surveyor_faults (g : GradualSurveyor) (min : Z) (attempt : Z) :
  b_Min (backoff g) = (if g_Max g =? 0 then 5 * Second else g_Max g) ∧
  backoff (mkGradual (g_Factor g) min (g_Max g) (g_DisableJitter g)) = backoff g ∧
  gradual_step (mkG (FChan [] true) [] attempt) GFound =
    Some (mkG (FChan [] true) [zero_info] (attempt + 1)).
Proof. split; [|done]. unfold backoff. cbn. by destruct (g_Max g =? 0). Qed.
