(* ===== verification/Proto.v ===== *)
(** * Protocol identifiers, stream upgrades and vats
    ([src/pkg/util/proto], [src/pkg/casm.go], [vat.go], [rpc.go])

    Protocol identifiers are slash-separated paths.  [Parts], [Split] and [Join] take them
    apart; matchers consume a cleaned path from the left; [Upgrade] peels the [/lz4] and
    [/packed] suffixes off a stream's protocol.  The functions of Go's [path] package the
    code uses are modelled here ([path_Clean], [path_Join]).  Identifiers are byte strings;
    for [Parts], which reads runes, they are assumed to be valid UTF-8.

    [semver] is [semver.NewVersion], reduced to the major version. *)

From stdpp Require Import base list gmap strings.
From Stdlib Require Import ZArith Lia.
From S2P Require Import Prelude.

Open Scope Z_scope.

Definition slash : Z := 47.
Definition dot : Z := 46.

(** ** Parts and paths *)

(** [Parts]: [b] is the component being built. *)
Fixpoint Parts_loop (id b : bytes) : list bytes :=
  match id with
  | [] => if bytes_eqb b [] then [] else [b]
  | r :: id' =>
      if r =? slash then (if bytes_eqb b [] then Parts_loop id' [] else b :: Parts_loop id' [])
      else Parts_loop id' (b ++ [r])
  end.

Definition Parts (id : bytes) : list bytes := Parts_loop id [].

(** [strings.Join(l, "/")]. *)
Fixpoint join (l : list bytes) : bytes :=
  match l with
  | [] => []
  | [w] => w
  | w :: ws => w ++ slash :: join ws
  end.

(** [path.Clean]: the components are processed from left to right; [acc] holds the
    result, last component first. *)
Fixpoint clean_comps (rooted : bool) (acc cs : list bytes) : list bytes :=
  match cs with
  | [] => rev acc
  | c :: cs' =>
      if bytes_eqb c [dot] then clean_comps rooted acc cs'
      else if bytes_eqb c [dot; dot] then
        match acc with
        | top :: acc' =>
            if bytes_eqb top [dot; dot] then clean_comps rooted (c :: acc) cs'
            else clean_comps rooted acc' cs'
        | [] => if rooted then clean_comps rooted acc cs' else clean_comps rooted [c] cs'
        end
      else clean_comps rooted (c :: acc) cs'
  end.

Definition is_rooted (s : bytes) : bool :=
  match s with c :: _ => c =? slash | [] => false end.

Definition path_Clean (s : bytes) : bytes :=
  let out := join (clean_comps (is_rooted s) [] (Parts s)) in
  if is_rooted s then slash :: out else if bytes_eqb out [] then [dot] else out.

(** [path.Join]: empty elements are skipped; the result of joining nothing is empty. *)
Definition path_Join (ss : list bytes) : bytes :=
  let ne := filter (λ s, s ≠ []) ss in
  match ne with [] => [] | _ => path_Clean (join ne) end.

Definition Join (ids : list bytes) : bytes := path_Join ids.

Definition AppendStrings (id : bytes) (ss : list bytes) : bytes := Join (id :: ss).

Definition Split (id : bytes) : bytes * bytes :=
  match rev (Parts id) with
  | [] => ([], [])
  | [p] => ([], p)
  | last :: init => (slash :: Join (rev init), last)
  end.

(** ** Matchers ([match.go]) *)

(** [strings.TrimLeft(s, "/.")]. *)
Fixpoint trim_left (s : bytes) : bytes :=
  match s with
  | c :: s' => if (c =? slash) || (c =? dot) then trim_left s' else s
  | [] => []
  end.

Definition clean (s : bytes) : bytes := trim_left (path_Clean s).

Abbreviation MatchFunc := (bytes → bytes * bool).

Definition match_ (f : MatchFunc) : MatchFunc := λ s, f (clean s).

(** A nil matcher is [None]. *)
Definition Then (f : option MatchFunc) (next : MatchFunc) : MatchFunc :=
  match f with
  | None => next
  | Some f => match_ (λ s, let p := f s in if snd p then match_ next (fst p) else p)
  end.

Definition Match (ms : list MatchFunc) : option MatchFunc :=
  foldl (λ f next, Some (Then f next)) None ms.

Definition Match_id (f : MatchFunc) (id : bytes) : bool := snd (f id).

(** [strings.SplitN(s, "/", 2)]. *)
Fixpoint cut (s : bytes) : bytes * bytes :=
  match s with
  | [] => ([], [])
  | c :: s' => if c =? slash then ([], s') else let p := cut s' in (c :: fst p, snd p)
  end.

Definition pop (s : bytes) : bytes * bytes := cut (clean s).

Definition Exactly (s : bytes) : MatchFunc :=
  match_ (λ proto, let p := pop proto in (snd p, bytes_eqb (fst p) (clean s))).

Definition TrimPrefix (s p : bytes) : bytes := if prefixb p s then drop (length p) s else s.
Definition TrimSuffix (s x : bytes) : bytes :=
  if prefixb (rev x) (rev s) then take (length s - length x) s else s.

Definition Prefix (prefix : bytes) : MatchFunc :=
  match_ (λ s, let t := TrimPrefix s (clean prefix) in (t, negb (bytes_eqb t s))).

Definition Suffix (suffix : bytes) : MatchFunc :=
  match_ (λ s, let t := TrimSuffix s (clean suffix) in (t, negb (bytes_eqb t s))).

Section semver.
Context (semver : bytes → option Z).

(** [semver.New] panics on a malformed version; [None] is that panic. *)
Definition SemVer (version : bytes) : option MatchFunc :=
  v ← semver (clean version);
  Some (match_ (λ s,
    let p := pop s in
    match semver (fst p) with
    | None => (s, false)
    | Some sv => (snd p, v =? sv)
    end)).

(** ** The package's protocols ([casm.go]) *)
Definition Version : bytes := bs "0.0.0".
Definition Proto : bytes := bs "/casm/" ++ Version.

Definition Subprotocol (ns : bytes) (ss : list bytes) : bytes := AppendStrings Proto (ns :: ss).

Definition base_match : option MatchFunc :=
  v ← SemVer Version; Match [Prefix (bs "casm"); v].

Definition NewMatcher (ns : bytes) : option MatchFunc :=
  m ← base_match; Some (Then (Some m) (Exactly ns)).
End semver.

Definition MatchPacked (id : bytes) : bool := Match_id (Suffix (bs "packed")) id.
Definition MatchLz4 (id : bytes) : bool := Match_id (Suffix (bs "lz4")) id.

Definition Lz4Stream_Protocol (id : bytes) : bytes := fst (Split id).

(** [BasicCap.Upgrade]: the layers of compression and whether the transport is packed. *)
Record Transport := mkTransport { lz4_layers : nat; packed : bool }.

Fixpoint Upgrade (fuel : nat) (id : bytes) : option Transport :=
  match fuel with
  | O => None
  | S fuel' =>
      if MatchLz4 id then
        t ← Upgrade fuel' (Lz4Stream_Protocol id); Some (mkTransport (S (lz4_layers t)) (packed t))
      else Some (mkTransport 0 (MatchPacked id))
  end.

(** ** Vats ([vat.go]) *)
Definition Vat_NS (ns : bytes) : bytes := if bytes_eqb ns [] then bs "casm" else ns.

Definition protocolsFor (ns : bytes) (protocols : list bytes) : list bytes :=
  (λ id, Subprotocol ns [id]) <$> protocols.

Definition hasSuffix (s suffix : bytes) : bool :=
  (length suffix <=? length s)%nat && bytes_eqb (drop (length s - length suffix) s) suffix.

Definition matches (protocols : list bytes) (proto : bytes) : bool :=
  existsb (hasSuffix proto) protocols.

Definition isInvalidNS (remote : option (list bytes)) (protocols : list bytes) : bool :=
  match remote with Some ps => existsb (matches protocols) ps | None => false end.

Inductive vat_error := ErrInvalidNS | ErrStream (code : Z) | ErrConnect (code : Z).

(** [Connect]: [dial] is [Host.Connect], tried only when there are addresses; [stream] is
    [Host.NewStream] over the protocols; [remote] the protocols the peer announced. *)
Definition Connect (ns : bytes) (addrs : list bytes) (protocols : list bytes)
    (dial : option Z) (stream : list bytes → Z + bytes) (remote : option (list bytes))
    (fuel : nat) : outcome vat_error (option Transport) :=
  match addrs, dial with
  | _ :: _, Some code => Fail (ErrConnect code)
  | _, _ =>
      match stream (protocolsFor ns protocols) with
      | inl code => if isInvalidNS remote protocols then Fail ErrInvalidNS else Fail (ErrStream code)
      | inr proto => Ret (Upgrade fuel proto)
      end
  end.

(** [Export] and [Embargo]: the stream handlers by protocol. *)
Definition Export {H} (ns : bytes) (protocols : list bytes) (h : H) (handlers : gmap bytes H)
    : gmap bytes H :=
  foldl (λ m id, <[id := h]> m) handlers (protocolsFor ns protocols).

Definition Embargo {H} (ns : bytes) (protocols : list bytes) (handlers : gmap bytes H)
    : gmap bytes H :=
  foldl (λ m id, delete id m) handlers (protocolsFor ns protocols).

(** The metrics of a stream: counters by bucket; a nil reporter ignores them. *)
Definition count (k : bytes) (n : Z) (m : gmap bytes Z) : gmap bytes Z :=
  <[k := default 0 (m !! k) + n]> m.

Definition StreamOpened (id : bytes) (m : option (gmap bytes Z)) : option (gmap bytes Z) :=
  c ← m; Some (count (bs "rpc.connected") 1 (count (bs "rpc." ++ id) 1 c)).

Definition StreamClosed (id : bytes) (m : option (gmap bytes Z)) : option (gmap bytes Z) :=
  c ← m; Some (count (bs "rpc.connected") (-1) (count (bs "rpc." ++ id) (-1) c)).

(** ** Futures and iterators ([rpc.go]) *)

(** [Await] after its select: a cancelled context takes precedence over the result. *)
Definition Future_Await {E} (ctx_err : option E) (res : option E) : option E :=
  match ctx_err with Some e => Some e | None => res end.

(** [Iterator.Err]: nil while the call is pending. *)
Definition Iterator_Err {E} (future : option (option (option E))) : option E :=
  match future with
  | Some (Some err) => err      (* done, with its error *)
  | _ => None                   (* no future, or not done *)
  end.

Definition Iterator_Next {T} (seq : option (option T)) : option T :=
  match seq with Some r => r | None => None end.

(** ** Facts about paths *)
Definition comp (c : bytes) : Prop := c ≠ [] ∧ slash ∉ c.
Definition plain (c : bytes) : Prop := comp c ∧ head c ≠ Some dot.

#[global] Instance comp_dec c : Decision (comp c).
Proof. unfold comp. apply _. Defined.
#[global] Instance plain_dec c : Decision (plain c).
Proof. unfold plain. apply _. Defined.

Lemma bytes_eqb_nil b : bytes_eqb b [] = true ↔ b = [].
Proof. unfold bytes_eqb. apply bool_decide_eq_true. Qed.

Lemma Parts_loop_app s t b : Parts_loop (s ++ slash :: t) b = Parts_loop s b ++ Parts t.
Proof.
  revert b. induction s as [|c s IH]; intros b; cbn [app Parts_loop].
  - rewrite Z.eqb_refl. by destruct (bytes_eqb b []).
  - destruct (c =? slash); [|apply IH]. destruct (bytes_eqb b []); rewrite IH; done.
Qed.

Lemma Parts_app s t : Parts (s ++ slash :: t) = Parts s ++ Parts t.
Proof. apply Parts_loop_app. Qed.

Lemma Parts_slash s : Parts (slash :: s) = Parts s.
Proof. done. Qed.

Lemma Parts_loop_comp c b : slash ∉ c → b ++ c ≠ [] → Parts_loop c b = [b ++ c].
Proof.
  revert b. induction c as [|x c IH]; intros b Hc Hne; cbn [Parts_loop].
  - rewrite app_nil_r in *. unfold bytes_eqb. by rewrite bool_decide_false.
  - apply not_elem_of_cons in Hc as [Hx Hc]. rewrite (proj2 (Z.eqb_neq x slash)) by congruence.
    rewrite IH by (done || by destruct b). by rewrite <-app_assoc.
Qed.

Lemma Parts_comp c : comp c → Parts c = [c].
Proof. intros [Hne Hc]. by apply (Parts_loop_comp c []). Qed.

Lemma join_cons w ws : ws ≠ [] → join (w :: ws) = w ++ slash :: join ws.
Proof. by destruct ws. Qed.

Lemma join_snoc ws w : ws ≠ [] → join (ws ++ [w]) = join ws ++ slash :: w.
Proof.
  induction ws as [|v ws IH]; intros Hne; [done|]. cbn [app]. rewrite join_cons by by destruct ws.
  destruct ws as [|u ws]; [done|]. rewrite IH, (join_cons v) by done. by rewrite <-app_assoc.
Qed.

Lemma Parts_join l : Parts (join l) = l ≫= Parts.
Proof.
  induction l as [|w ws IH]; [done|]. destruct ws as [|v ws].
  - cbn. by rewrite app_nil_r.
  - rewrite join_cons by done. rewrite Parts_app, IH. done.
Qed.

Lemma bind_comps cs : Forall comp cs → cs ≫= Parts = cs.
Proof. induction 1 as [|c cs Hc _ IH]; [done|]. rewrite bind_cons, IH, Parts_comp by done. done. Qed.

Lemma Parts_join_comps cs : Forall comp cs → Parts (join cs) = cs.
Proof. intros Hcs. by rewrite Parts_join, bind_comps. Qed.

Lemma Parts_loop_comps id b : slash ∉ b → Forall comp (Parts_loop id b).
Proof.
  revert b. induction id as [|c id IH]; intros b Hb; cbn [Parts_loop].
  - destruct (bytes_eqb b []) eqn:He; constructor; [|constructor]. split; [|done].
    intros ->. done.
  - destruct (Z.eqb_spec c slash).
    + destruct (bytes_eqb b []) eqn:He; [apply IH, not_elem_of_nil|].
      constructor; [|apply IH, not_elem_of_nil]. split; [|done]. intros ->. done.
    + apply IH. rewrite not_elem_of_app, list_elem_of_singleton. naive_solver.
Qed.

Lemma Parts_comps id : Forall comp (Parts id).
Proof. apply Parts_loop_comps, not_elem_of_nil. Qed.

Lemma plain_comps cs : Forall plain cs → Forall comp cs.
Proof. intros Hcs. eapply Forall_impl; [exact Hcs|]. by intros c []. Qed.

Lemma clean_comps_plain r acc cs : Forall plain cs → clean_comps r acc cs = rev acc ++ cs.
Proof.
  intros Hcs. revert acc. induction Hcs as [|c cs [_ Hd] _ IH]; intros acc; cbn [clean_comps].
  - by rewrite app_nil_r.
  - assert (bytes_eqb c [dot] = false ∧ bytes_eqb c [dot; dot] = false) as [-> ->].
    { unfold bytes_eqb. split; apply bool_decide_eq_false; intros ->; done. }
    rewrite IH. cbn. by rewrite <-app_assoc.
Qed.

Lemma join_head cs : Forall plain cs →
  match join cs with [] => cs = [] | c :: _ => c ≠ slash ∧ c ≠ dot end.
Proof.
  intros Hcs. destruct Hcs as [|c cs [[Hne Hs] Hd] _]; [done|].
  destruct c as [|x c]; [done|]. apply not_elem_of_cons in Hs as [Hs _]. cbn in Hd.
  destruct cs; cbn; split; congruence.
Qed.

Lemma clean_plain s : Forall plain (Parts s) → clean s = join (Parts s).
Proof.
  intros Hp. unfold clean, path_Clean. cbv zeta. rewrite clean_comps_plain by done.
  cbn [rev app]. pose proof (join_head _ Hp) as Hh.
  assert (trim_left (join (Parts s)) = join (Parts s)) as Htl.
  { destruct (join (Parts s)) as [|c l]; [done|]. destruct Hh as [H1 H2]. cbn.
    by rewrite (proj2 (Z.eqb_neq _ _) H1), (proj2 (Z.eqb_neq _ _) H2). }
  destruct (is_rooted s).
  - cbn [trim_left]. by rewrite Z.eqb_refl.
  - destruct (bytes_eqb (join (Parts s)) []) eqn:He; [|done].
    apply bytes_eqb_nil in He. by rewrite He.
Qed.

Lemma clean_comp c : plain c → clean c = c.
Proof.
  intros Hc. assert (Parts c = [c]) as Hpc by apply Parts_comp, Hc.
  rewrite clean_plain; rewrite Hpc; [done|]. by apply Forall_singleton.
Qed.

Lemma cut_join c cs : slash ∉ c → cut (join (c :: cs)) = (c, join cs).
Proof.
  intros Hc. destruct cs as [|d cs].
  - cbn [join]. induction c as [|x c IH]; [done|]. apply not_elem_of_cons in Hc as [Hx Hc].
    cbn. rewrite (proj2 (Z.eqb_neq x slash)) by congruence. by rewrite (IH Hc).
  - rewrite join_cons by done. generalize (join (d :: cs)) as t. intros t.
    induction c as [|x c IH]; [done|]. apply not_elem_of_cons in Hc as [Hx Hc]. cbn.
    rewrite (proj2 (Z.eqb_neq x slash)) by congruence. by rewrite (IH Hc).
Qed.

Lemma pop_plain s c cs : Parts s = c :: cs → Forall plain (c :: cs) → pop s = (c, join cs).
Proof.
  intros Hs Hp. unfold pop. rewrite clean_plain, Hs by (by rewrite Hs).
  apply cut_join. by inversion Hp as [|? ? [[_ ?] _]].
Qed.

(** Rooted paths of plain components, which the package builds. *)
Lemma path_Join_plain (ss : list bytes) :
  Forall plain (ss ≫= Parts) → is_rooted (join (filter (λ s, s ≠ []) ss)) = true →
  path_Join ss = slash :: join (ss ≫= Parts).
Proof.
  intros Hp Hr. unfold path_Join. cbv zeta.
  assert (filter (λ s, s ≠ []) ss ≫= Parts = ss ≫= Parts) as Hb.
  { clear. induction ss as [|s ss IH]; [done|]. destruct (decide (s = [])) as [->|Hne].
    - rewrite filter_cons_False by naive_solver. by rewrite IH.
    - rewrite filter_cons_True by done. rewrite !bind_cons. by rewrite IH. }
  destruct (filter (λ s, s ≠ []) ss) as [|s0 ss0] eqn:Hf; [done|].
  unfold path_Clean. cbv zeta. rewrite Hr, Parts_join, Hb.
  by rewrite clean_comps_plain.
Qed.

Lemma Subprotocol_plain ns ss :
  Forall plain ((ns :: ss) ≫= Parts) →
  Subprotocol ns ss = slash :: join (bs "casm" :: Version :: ((ns :: ss) ≫= Parts)).
Proof.
  intros Hp. unfold Subprotocol, AppendStrings, Join.
  assert ((Proto :: ns :: ss) ≫= Parts = bs "casm" :: Version :: ((ns :: ss) ≫= Parts)) as Hb by done.
  rewrite path_Join_plain, Hb; [done| |].
  - rewrite Hb. constructor; [by apply (bool_decide_unpack _); vm_compute|].
    constructor; [by apply (bool_decide_unpack _); vm_compute|done].
  - rewrite filter_cons_True by done. by destruct (filter _ (ns :: ss)).
Qed.

(** ** Matching the package's protocols *)
Lemma prefixb_app (p t : bytes) : prefixb p (p ++ t) = true.
Proof. apply prefixb_spec. by exists t. Qed.

Lemma Parts_tail cs : Forall comp cs → Parts (match cs with [] => [] | _ => slash :: join cs end) = cs.
Proof. intros Hcs. destruct cs; [done|]. rewrite Parts_slash. by apply Parts_join_comps. Qed.

(** [Prefix] consumes the first component. *)
Lemma Prefix_plain c cs s :
  Parts s = c :: cs → Forall plain (c :: cs) →
  ∃ t, Prefix c s = (t, true) ∧ Parts t = cs.
Proof.
  intros Hs Hp. assert (clean s = join (c :: cs)) as Hcl by (rewrite clean_plain, Hs; [done|by rewrite Hs]).
  pose proof Hp as Hpc. apply Forall_cons in Hpc as [[Hcomp Hd] Hpcs].
  assert (clean c = c) as Hcc by by apply clean_comp.
  unfold Prefix, match_. rewrite Hcl, Hcc. cbv zeta.
  exists (TrimPrefix (join (c :: cs)) c).
  assert (TrimPrefix (join (c :: cs)) c = match cs with [] => [] | _ => slash :: join cs end) as Ht.
  { unfold TrimPrefix. destruct cs as [|d cs].
    - cbn [join]. pose proof (prefixb_app c []) as Hpre. rewrite app_nil_r in Hpre. rewrite Hpre.
      by rewrite drop_ge.
    - rewrite join_cons by done. by rewrite prefixb_app, drop_app_length. }
  split; [|rewrite Ht; apply Parts_tail; by apply plain_comps].
  f_equal. apply negb_true_iff. unfold bytes_eqb. apply bool_decide_eq_false. intros Heq.
  assert (length (TrimPrefix (join (c :: cs)) c) = length (join (c :: cs))) as Hlen by by rewrite Heq.
  rewrite Ht in Hlen. destruct Hcomp as [Hne _].
  destruct cs as [|d cs]; [|rewrite (join_cons c (d :: cs)), length_app in Hlen by done];
    destruct c; cbn [length] in *; try done; lia.
Qed.

(** [SemVer] and [Exactly] pop the first component. *)
Lemma SemVer_plain semver version v f c cs s :
  semver (clean version) = Some v → SemVer semver version = Some f →
  Parts s = c :: cs → Forall plain (c :: cs) →
  ∃ t b, f s = (t, b) ∧ (b = true ↔ semver c = Some v) ∧ (b = true → Parts t = cs).
Proof.
  intros Hv Hf Hs Hp. unfold SemVer in Hf. rewrite Hv in Hf. cbn in Hf. injection Hf as <-.
  assert (clean s = join (c :: cs)) as Hcl by (rewrite clean_plain, Hs; [done|by rewrite Hs]).
  unfold match_. rewrite Hcl.
  assert (Parts (join (c :: cs)) = c :: cs) as Hpj by by apply Parts_join_comps, plain_comps.
  rewrite (pop_plain _ c cs Hpj Hp). cbn [fst snd].
  destruct (semver c) as [sv|].
  - eexists _, _. split; [done|]. split.
    + rewrite Z.eqb_eq. split; [by intros ->|by intros [= ->]].
    + intros _. apply Parts_join_comps, plain_comps. by inversion Hp.
  - eexists _, _. split; [done|]. by split.
Qed.

Lemma Exactly_plain e c cs s :
  Parts s = c :: cs → Forall plain (c :: cs) → plain e →
  Exactly e s = (join cs, bytes_eqb c e).
Proof.
  intros Hs Hp He. unfold Exactly, match_.
  assert (clean s = join (c :: cs)) as Hcl by (rewrite clean_plain, Hs; [done|by rewrite Hs]).
  assert (clean e = e) as Hce by by apply clean_comp.
  assert (Parts (join (c :: cs)) = c :: cs) as Hpj by by apply Parts_join_comps, plain_comps.
  rewrite Hcl, Hce. by rewrite (pop_plain _ c cs Hpj Hp).
Qed.

Lemma match_clean_parts s cs : Parts s = cs → Forall plain cs → Parts (clean s) = cs.
Proof. intros <- Hp. rewrite clean_plain by done. by apply Parts_join_comps, plain_comps. Qed.

(** A chained matcher: the second sees what the first left. *)
Lemma Then_spec f g s cs t b :
  Parts s = cs → Forall plain cs → f (clean s) = (t, b) →
  Then (Some f) g s = if b then g (clean t) else (t, b).
Proof. intros _ _ Hf. unfold Then, match_. rewrite Hf. cbn. by destruct b. Qed.

(** The protocols a vat announces are the ones its matcher accepts: for namespaces and
    subprotocols of plain components (no leading dot), the matcher of a namespace accepts
    the subprotocol of a namespace exactly when the namespaces are equal. *)
Theorem matcher_accepts_own_namespace (semver : bytes → option Z) v ns ns' ss :
  semver Version = Some v → plain ns → plain ns' → Forall plain (ss ≫= Parts) →
  ∃ f, NewMatcher semver ns = Some f ∧ Match_id f (Subprotocol ns' ss) = bool_decide (ns' = ns).
Proof.
  intros Hv Hns Hns' Hss.
  assert (Parts ns' = [ns']) as Hpn by by apply Parts_comp, Hns'.
  assert (Forall plain ((ns' :: ss) ≫= Parts)) as Hp0.
  { rewrite bind_cons, Hpn. by constructor. }
  pose proof (Subprotocol_plain ns' ss Hp0) as Hsub. rewrite bind_cons, Hpn in Hsub. cbn [app] in Hsub.
  set (tl := ss ≫= Parts) in *. set (id := Subprotocol ns' ss) in *.
  assert (plain (bs "casm") ∧ plain Version) as [Hcasm Hver].
  { split; by apply (bool_decide_unpack _); vm_compute. }
  assert (Forall plain (ns' :: tl)) as Hp1 by by constructor.
  assert (Forall plain (Version :: ns' :: tl)) as Hp2 by by constructor.
  assert (Forall plain (bs "casm" :: Version :: ns' :: tl)) as Hp3 by by constructor.
  assert (Parts id = bs "casm" :: Version :: ns' :: tl) as Hid.
  { rewrite Hsub, Parts_slash. by apply Parts_join_comps, plain_comps. }
  assert (semver (clean Version) = Some v) as Hcv by exact Hv.
  destruct (SemVer semver Version) as [f|] eqn:Hsv; [|unfold SemVer in Hsv; by rewrite Hcv in Hsv].
  unfold NewMatcher, base_match. rewrite Hsv. cbn [mbind option_bind Match foldl].
  eexists. split; [done|]. unfold Match_id.
  pose proof (match_clean_parts _ _ Hid Hp3) as Hid1.
  (* the prefix *)
  destruct (Prefix_plain _ _ _ (match_clean_parts _ _ Hid1 Hp3) Hp3) as (t1 & Ht1 & Hpt1).
  (* the version *)
  destruct (SemVer_plain semver Version v f Version (ns' :: tl) (clean t1) Hcv Hsv
    (match_clean_parts _ _ Hpt1 Hp2) Hp2) as (t2 & b2 & Ht2 & Hb2 & Hpt2).
  assert (b2 = true) as -> by by apply Hb2.
  specialize (Hpt2 eq_refl).
  assert (Then (Some (Prefix (bs "casm"))) f (clean id) = (t2, true)) as Hbase.
  { erewrite Then_spec; [|exact Hid1|exact Hp3|exact Ht1]. exact Ht2. }
  erewrite Then_spec; [|exact Hid|exact Hp3|exact Hbase].
  rewrite (Exactly_plain ns ns' tl) by (done || by apply match_clean_parts). done.
Qed.

Lemma matcher_accepts_own_namespace_witness :
  ∃ f, NewMatcher (λ b, if bytes_eqb b Version then Some 0 else None) (bs "ns") = Some f ∧
       Match_id f (Subprotocol (bs "ns") [bs "/pex/packed"]) = true.
Proof.
  destruct (matcher_accepts_own_namespace (λ b, if bytes_eqb b Version then Some 0 else None) 0
    (bs "ns") (bs "ns") [bs "/pex/packed"]) as (f & Hf & Hm).
  - reflexivity.
  - apply (bool_decide_unpack _); vm_compute; exact I.
  - apply (bool_decide_unpack _); vm_compute; exact I.
  - apply (bool_decide_unpack _); vm_compute; exact I.
  - exists f. split; [exact Hf|]. rewrite Hm. reflexivity.
Defined.

(** ** Upgrading streams *)
Lemma prefixb_sep x y z : slash ∉ x → prefixb x (y ++ slash :: z) = prefixb x y.
Proof.
  revert y. induction x as [|c x IH]; intros y Hx; [done|]. apply not_elem_of_cons in Hx as [Hc Hx].
  destruct y as [|d y]; cbn.
  - rewrite (proj2 (Z.eqb_neq c slash)) by congruence. done.
  - by rewrite IH.
Qed.

(** The last component decides about a suffix without slashes. *)
Lemma Suffix_plain x s cs c :
  plain x → Parts s = cs ++ [c] → Forall plain (cs ++ [c]) →
  Match_id (Suffix x) s = prefixb (rev x) (rev c).
Proof.
  intros Hx Hs Hp. unfold Match_id, Suffix, match_.
  rewrite (clean_plain s), Hs, (clean_comp x Hx) by (done || by rewrite Hs). cbn [snd].
  assert (prefixb (rev x) (rev (join (cs ++ [c]))) = prefixb (rev x) (rev c)) as Hpre.
  { destruct cs as [|d cs]; [done|]. rewrite join_snoc by done.
    rewrite rev_app_distr. cbn [rev]. rewrite <-app_assoc. apply prefixb_sep.
    rewrite list_elem_of_In, <-in_rev, <-list_elem_of_In. apply Hx. }
  unfold TrimSuffix. rewrite Hpre. destruct (prefixb (rev x) (rev c)) eqn:Hb.
  - apply negb_true_iff. unfold bytes_eqb. apply bool_decide_eq_false. intros Heq.
    apply (f_equal length) in Heq. rewrite length_take in Heq.
    assert (x ≠ []) as Hne by apply Hx. destruct x; [done|]. cbn [length] in Heq.
    assert (length (join (cs ++ [c])) ≠ 0%nat).
    { intros H0. apply nil_length_inv in H0. pose proof (join_head _ Hp) as Hh. rewrite H0 in Hh.
      by destruct cs. }
    lia.
  - unfold bytes_eqb. by rewrite bool_decide_true.
Qed.

Lemma clean_comps_comps r acc cs :
  Forall comp acc → Forall comp cs → Forall comp (clean_comps r acc cs).
Proof.
  intros Ha Hcs. revert acc Ha. induction Hcs as [|c cs Hc _ IH]; intros acc Ha; cbn [clean_comps].
  - apply Forall_forall. intros x Hx. rewrite list_elem_of_In, <-in_rev, <-list_elem_of_In in Hx.
    by eapply Forall_forall in Ha.
  - destruct (bytes_eqb c [dot]); [auto|]. destruct (bytes_eqb c [dot; dot]); [|auto].
    destruct acc as [|top acc]; [destruct r; auto|].
    destruct (bytes_eqb top [dot; dot]); [auto|]. apply IH. by inversion Ha.
Qed.

Lemma clean_comps_length r acc cs :
  (length (clean_comps r acc cs) ≤ length acc + length cs)%nat.
Proof.
  revert acc. induction cs as [|c cs IH]; intros acc; cbn [clean_comps].
  - rewrite length_rev. lia.
  - destruct (bytes_eqb c [dot]); [specialize (IH acc); simpl; lia|].
    destruct (bytes_eqb c [dot; dot]); [|specialize (IH (c :: acc)); simpl in *; lia].
    destruct acc as [|top acc].
    + destruct r; [specialize (IH [])|specialize (IH [c])]; simpl in *; lia.
    + destruct (bytes_eqb top [dot; dot]);
        [specialize (IH (c :: top :: acc))|specialize (IH acc)]; simpl in *; lia.
Qed.

(** Cleaning a path never adds components, except for the dot of an empty one. *)
Lemma Parts_path_Clean s :
  (length (Parts (path_Clean s)) ≤ Nat.max 1 (length (Parts s)))%nat.
Proof.
  unfold path_Clean. cbv zeta.
  pose proof (clean_comps_length (is_rooted s) [] (Parts s)) as Hl.
  pose proof (clean_comps_comps (is_rooted s) [] (Parts s) ltac:(constructor) (Parts_comps s)) as Hc.
  cbn [length Nat.add] in Hl. set (out := clean_comps _ _ _) in *.
  destruct (is_rooted s); [|destruct (bytes_eqb (join out) []) eqn:He].
  - rewrite Parts_slash, Parts_join_comps by done. lia.
  - change (length (Parts [dot])) with 1%nat. lia.
  - rewrite Parts_join_comps by done. lia.
Qed.

Lemma Split_shorter id :
  Parts id ≠ [] → (length (Parts (fst (Split id))) < length (Parts id))%nat.
Proof.
  intros Hne. unfold Split. pose proof (Parts_comps id) as Hc.
  assert (∃ r, Parts id = rev r ∧ rev (Parts id) = r) as (r & Hr & Hrr).
  { exists (rev (Parts id)). by rewrite rev_involutive. }
  rewrite Hrr, Hr in *. rewrite length_rev. clear Hr Hrr.
  destruct r as [|last init]; [done|].
  destruct init as [|p init]; [cbn [fst]; change (length (Parts [])) with 0%nat; simpl; lia|].
  cbn [fst]. rewrite Parts_slash.
  set (l := rev (p :: init)) in *.
  assert (Forall comp l ∧ length l = S (length init)) as [Hcl Hll].
  { split; [|subst l; by rewrite length_rev]. cbn [rev] in Hc. apply Forall_app in Hc as [Hc _].
    exact Hc. }
  unfold Join, path_Join. cbv zeta.
  rewrite filter_all by (intros x Hx; by eapply Forall_forall in Hx; [|exact Hcl]; destruct Hx).
  destruct l as [|l0 l1]; [done|].
  pose proof (Parts_path_Clean (join (l0 :: l1))) as Hpc. rewrite Parts_join_comps in Hpc by done.
  cbn [length] in *. lia.
Qed.

(** Splitting a path of plain components drops the last one. *)
Lemma Split_base (pre : list bytes) (x : bytes) :
  pre ≠ [] → Forall plain pre →
  fst (match x :: rev pre with
       | [] => ([], [])
       | [p] => ([], p)
       | last :: init => (slash :: Join (rev init), last)
       end) = slash :: join pre.
Proof.
  intros Hne Hp. destruct (rev pre) as [|y init] eqn:Hr.
  { apply (f_equal (@rev bytes)) in Hr. rewrite rev_involutive in Hr. done. }
  cbn [fst]. rewrite <-Hr, rev_involutive. f_equal. unfold Join, path_Join. cbv zeta.
  rewrite filter_all by (intros z Hz; by eapply Forall_forall in Hz; [|exact Hp]; destruct Hz as [[]]).
  destruct pre as [|p0 pre]; [done|]. pose proof (join_head _ Hp) as Hh.
  unfold path_Clean. cbv zeta. rewrite Parts_join_comps by by apply plain_comps.
  rewrite clean_comps_plain by done. cbn [rev app].
  destruct (join (p0 :: pre)) as [|c l] eqn:Hj; [done|]. destruct Hh as [Hs _].
  cbn [is_rooted]. by rewrite (proj2 (Z.eqb_neq _ _) Hs).
Qed.

Lemma MatchLz4_nonempty id : MatchLz4 id = true → Parts id ≠ [].
Proof.
  intros Hm Hp. unfold MatchLz4, Match_id, Suffix, match_ in Hm.
  rewrite clean_plain, Hp in Hm by (rewrite Hp; constructor). done.
Qed.

(** C35. Upgrading a stream terminates, whatever protocol identifier the remote negotiated
    (one step per component is enough), and it peels the suffixes as documented: a
    protocol whose components end in [k] times [lz4], after a component that does not end
    in lz4, gets [k] layers of compression, around a packed transport exactly when that
    component ends in packed. *)
Theorem upgrade_peels_suffixes :
  (∀ id fuel, (length (Parts id) < fuel)%nat → ∃ t, Upgrade fuel id = Some t) ∧
  (∀ base c k fuel, Forall plain (base ++ [c]) → prefixb (rev (bs "lz4")) (rev c) = false →
     (k < fuel)%nat →
     Upgrade fuel (slash :: join ((base ++ [c]) ++ replicate k (bs "lz4"))) =
       Some (mkTransport k (prefixb (rev (bs "packed")) (rev c)))).
Proof.
  split.
  - intros id fuel. revert id. induction fuel as [|fuel IH]; intros id Hl; [lia|]. cbn [Upgrade].
    destruct (MatchLz4 id) eqn:Hm; [|by eexists].
    pose proof (Split_shorter id (MatchLz4_nonempty id Hm)).
    destruct (IH (Lz4Stream_Protocol id)) as [t Ht]; [unfold Lz4Stream_Protocol; lia|].
    rewrite Ht. by eexists.
  - intros base c k fuel Hp Hc.
    assert (plain (bs "lz4") ∧ plain (bs "packed")) as [Hlz Hpk].
    { split; by apply (bool_decide_unpack _); vm_compute. }
    revert fuel. induction k as [|k IH]; intros fuel Hf; (destruct fuel as [|fuel]; [lia|]); cbn [Upgrade].
    + cbn [replicate]. rewrite app_nil_r.
      assert (Parts (slash :: join (base ++ [c])) = base ++ [c]) as Hpa.
      { rewrite Parts_slash. by apply Parts_join_comps, plain_comps. }
      unfold MatchLz4, MatchPacked. rewrite !(Suffix_plain _ _ base c) by done. by rewrite Hc.
    + set (pre := (base ++ [c]) ++ replicate k (bs "lz4")).
      assert ((base ++ [c]) ++ replicate (S k) (bs "lz4") = pre ++ [bs "lz4"]) as ->.
      { subst pre. rewrite replicate_S_end. by rewrite !app_assoc. }
      assert (Forall plain pre) as Hpre.
      { subst pre. apply Forall_app. split; [done|]. by apply Forall_replicate. }
      assert (Forall plain (pre ++ [bs "lz4"])) as Hpre1 by (apply Forall_app; split; [done|by apply Forall_singleton]).
      assert (Parts (slash :: join (pre ++ [bs "lz4"])) = pre ++ [bs "lz4"]) as Hpa.
      { rewrite Parts_slash. by apply Parts_join_comps, plain_comps. }
      assert (MatchLz4 (slash :: join (pre ++ [bs "lz4"])) = true) as ->.
      { unfold MatchLz4. by rewrite (Suffix_plain _ _ pre (bs "lz4")). }
      assert (Lz4Stream_Protocol (slash :: join (pre ++ [bs "lz4"])) = slash :: join pre) as ->.
      { unfold Lz4Stream_Protocol, Split. rewrite Hpa, rev_app_distr. cbn [rev app].
        subst pre. apply Split_base; [by destruct base|done]. }
      subst pre. rewrite (IH fuel) by lia. done.
Qed.

Lemma upgrade_peels_suffixes_witness :
  Upgrade 3 (slash :: join (([bs "casm"; bs "ns"] ++ [bs "packed"]) ++ replicate 2 (bs "lz4"))) =
    Some (mkTransport 2 true).
Proof.
  apply (proj2 upgrade_peels_suffixes [bs "casm"; bs "ns"] (bs "packed") 2%nat 3%nat).
  - apply (bool_decide_unpack _); vm_compute; exact I.
  - reflexivity.
  - lia.
Defined.

(** The suffixes are matched on the text, not on components: a protocol whose last
    component merely ends in lz4 is upgraded to a compressed stream, and its last
    component is dropped. *)
Theorem upgrade_matches_partial_component :
  Upgrade 9 (bs "/casm/0.0.0/ns/notlz4") = Some (mkTransport 1 false) ∧
  Lz4Stream_Protocol (bs "/casm/0.0.0/ns/notlz4") = bs "/casm/0.0.0/ns".
Proof. by vm_compute. Qed.
