(* ===== verification/PexExchange.v ===== *)
(** * The peer exchange service ([src/pkg/pex/pex.go], [discovery.go], [option.go],
    [src/pkg/boot/static.go])

    - [pstep] is the service as a transition system: the event loop of [New] (purging,
      thunks, exit) and any number of callers of [getOrCreateGossiper] and [getGossiper],
      one transition per channel operation.  The host's stream handlers and the
      cancelled gossiper contexts are part of the state.
    - [Advertise], [Bootstrap] and [FindPeers] are functions of what the gossiper, the
      cache, the boot service and the gossip rounds return.
    - [dstep] is the background tracking of [discovery.go], a component of the service. *)

From stdpp Require Import base list gmap strings.
From Stdlib Require Import ZArith Lia.
From S2P Require Import Prelude PexGossip Proto.

Open Scope Z_scope.

(** ** Advertisers *)
Record gossiper := mkGossiper { g_id : nat; g_ns : bytes; g_config : GossipConfig }.
Record advertiser := mkAdvertiser { Deadline : Z; Gossiper : gossiper }.

(** [t.After(ad.Deadline)]. *)
Definition Expired (ad : advertiser) (t : Z) : bool := Deadline ad <? t.

(** The sum of two [time.Duration]s is an [int64]. *)
Definition grace (c : GossipConfig) : Z := wrap_i 64 (Tick c + Timeout c).

Definition ResetTTL (ad : advertiser) (t : Z) : advertiser :=
  mkAdvertiser (t + grace (g_config (Gossiper ad))) (Gossiper ad).

Definition proto (ns : bytes) : bytes := Subprotocol ns [bs "pex"].

(** ** Background tracking ([discovery.go]) *)

(** Where the goroutine of a tracker is: before its first [advertise], at the loop
    condition [ctx.Err() == nil], or at the [select]. *)
Inductive tphase := TFirst | TCheck | TSelect.

(** [disc.advertising] maps a namespace to its tracker's context (whose [CancelFunc] the
    code stores) and the caller's context that one was derived from; [trackers] are the
    goroutines alive, by their context; [ended] the tracker contexts that are done,
    [callers_ended] the callers' contexts that are; [advertised] the calls of
    [disc.d.Advertise] so far, by tracker. *)
Record discover := mkDisc {
  advertising : gmap bytes (nat * nat);
  trackers : gmap nat (bytes * tphase);
  ended : gset nat; callers_ended : gset nat; contexts : nat; advertised : list nat }.

Definition newDiscover : discover := mkDisc ∅ ∅ ∅ ∅ 0 [].

Definition StopTracking (ns : bytes) (d : discover) : discover :=
  match advertising d !! ns with
  | Some (i, _) =>
      mkDisc (advertising d) (trackers d) ({[ i ]} ∪ ended d) (callers_ended d) (contexts d)
        (advertised d)
  | None => d
  end.

Definition startTracking (ctx : nat) (ns : bytes) (d : discover) : discover :=
  mkDisc (<[ns := (contexts d, ctx)]> (advertising d))
    (<[contexts d := (ns, TFirst)]> (trackers d))
    (if decide (ctx ∈ callers_ended d) then {[ contexts d ]} ∪ ended d else ended d)
    (callers_ended d) (S (contexts d)) (advertised d).

(** [disc.Bootstrap] up to the query of the boot service. *)
Definition disc_Bootstrap (ctx : nat) (ns : bytes) (d : discover) : discover :=
  match advertising d !! ns with Some _ => d | None => startTracking ctx ns d end.

(** A caller's context ends, by its [CancelFunc] or its deadline, and with it those derived
    from it. *)
Definition end_ctx (ctx : nat) (d : discover) : discover :=
  mkDisc (advertising d) (trackers d)
    (list_to_set (omap (λ e, if decide (e.2.2 = ctx) then Some e.2.1 else None)
                    (map_to_list (advertising d))) ∪ ended d)
    ({[ ctx ]} ∪ callers_ended d) (contexts d) (advertised d).

(** [disc.advertise] of tracker [i]. *)
Definition disc_advertise (ns : bytes) (i : nat) (d : discover) : discover :=
  mkDisc (advertising d) (<[i := (ns, TCheck)]> (trackers d)) (ended d) (callers_ended d)
    (contexts d) (i :: advertised d).

Definition at_select (ns : bytes) (i : nat) (d : discover) : discover :=
  mkDisc (advertising d) (<[i := (ns, TSelect)]> (trackers d)) (ended d) (callers_ended d)
    (contexts d) (advertised d).

(** The end of the goroutine, with its deferred [delete]. *)
Definition tracker_exit (ns : bytes) (i : nat) (d : discover) : discover :=
  mkDisc (delete ns (advertising d)) (delete i (trackers d)) (ended d) (callers_ended d)
    (contexts d) (advertised d).

Inductive dstep : discover → discover → Prop :=
| DEnd d ctx : dstep d (end_ctx ctx d)
| DBootstrap d ctx ns : dstep d (disc_Bootstrap ctx ns d)
| DStop d ns : dstep d (StopTracking ns d)
| DFirst d ns i : trackers d !! i = Some (ns, TFirst) → dstep d (disc_advertise ns i d)
| DLoop d ns i : trackers d !! i = Some (ns, TCheck) → i ∉ ended d → dstep d (at_select ns i d)
| DTimer d ns i : trackers d !! i = Some (ns, TSelect) → dstep d (disc_advertise ns i d)
| DExit d ns i ph :
    trackers d !! i = Some (ns, ph) → ph ≠ TFirst → i ∈ ended d → dstep d (tracker_exit ns i d).

(** [interval]; [Truncate] rounds toward zero. *)
Definition interval (TempAddrTTL ttl : Z) : Z :=
  if ttl =? 0 then TempAddrTTL else ttl - Z.rem ttl (100 * 1000000).

(** ** The service *)
Inductive xerr := ErrClosed | ErrNotFound | ErrCtx | ErrNoPeer | ErrOther (code : Z).

(** The thunk a caller sends: [advertise] of [getOrCreateGossiper] or the lookup of
    [getGossiper]. *)
Inductive call := CAdvertise (ns : bytes) | CLookup (ns : bytes).

Inductive phase :=
| Sending (c : call)                          (* at the first select *)
| Waiting (c : call)                          (* the thunk was accepted *)
| Returned (r : outcome xerr gossiper).

#[global] Instance xerr_eq_dec : EqDecision xerr.
Proof. solve_decision. Defined.
#[global] Instance call_eq_dec : EqDecision call.
Proof. solve_decision. Defined.

Definition call_ns (c : call) : bytes :=
  match c with CAdvertise ns => ns | CLookup ns => ns end.

Record PeerExchange := mkPx {
  now : Z;                                    (* time.Now() *)
  advertisers : gmap bytes advertiser;
  handlers : gmap bytes nat;                  (* protocol id -> gossiper serving it *)
  cancelled : gset nat;                       (* gossipers whose context has ended *)
  created : nat;                              (* gossipers made so far *)
  thunks : list (nat * call);                 (* the buffered channel, capacity 1 *)
  replies : gmap nat (option gossiper);       (* the callers' reply channels *)
  callers : gmap nat phase;
  done : bool;                                (* px.done is closed *)
  cleaned : bool;                             (* the event loop has returned *)
  disc : discover;
}.

Definition set_callers (c : nat) (p : phase) (px : PeerExchange) : PeerExchange :=
  mkPx (now px) (advertisers px) (handlers px) (cancelled px) (created px) (thunks px)
    (replies px) (<[c := p]> (callers px)) (done px) (cleaned px) (disc px).

Definition set_thunks (ts : list (nat * call)) (px : PeerExchange) : PeerExchange :=
  mkPx (now px) (advertisers px) (handlers px) (cancelled px) (created px) ts
    (replies px) (callers px) (done px) (cleaned px) (disc px).

Definition reply (c : nat) (g : option gossiper) (px : PeerExchange) : PeerExchange :=
  mkPx (now px) (advertisers px) (handlers px) (cancelled px) (created px) (thunks px)
    (<[c := g]> (replies px)) (callers px) (done px) (cleaned px) (disc px).

Definition set_now (t : Z) (px : PeerExchange) : PeerExchange :=
  mkPx t (advertisers px) (handlers px) (cancelled px) (created px) (thunks px)
    (replies px) (callers px) (done px) (cleaned px) (disc px).

Definition set_disc (d : discover) (px : PeerExchange) : PeerExchange :=
  mkPx (now px) (advertisers px) (handlers px) (cancelled px) (created px) (thunks px)
    (replies px) (callers px) (done px) (cleaned px) d.

Definition set_ad (ns : bytes) (ad : advertiser) (px : PeerExchange) : PeerExchange :=
  mkPx (now px) (<[ns := ad]> (advertisers px)) (handlers px) (cancelled px) (created px)
    (thunks px) (replies px) (callers px) (done px) (cleaned px) (disc px).

(** [newGossiper]: the gossiper's context is derived from [px.done], so it is ended from the
    start when [done] is closed; the stream handler of the namespace is installed. *)
Definition newGossiper (newParams : bytes → GossipConfig) (ns : bytes) (px : PeerExchange)
  : gossiper * PeerExchange :=
  let g := mkGossiper (created px) ns (newParams ns) in
  (g, mkPx (now px) (advertisers px) (<[proto ns := created px]> (handlers px))
        (if done px then {[ created px ]} ∪ cancelled px else cancelled px)
        (S (created px)) (thunks px) (replies px) (callers px) (done px)
        (cleaned px) (disc px)).

(** [ad.Gossiper.Stop()], [px.disc.StopTracking(ns)] and [delete(px.advertisers, ns)]. *)
Definition drop_ad (px : PeerExchange) (e : bytes * advertiser) : PeerExchange :=
  mkPx (now px) (delete (e.1) (advertisers px))
    (delete (proto (g_ns (Gossiper e.2))) (handlers px))
    ({[ g_id (Gossiper e.2) ]} ∪ cancelled px) (created px) (thunks px) (replies px)
    (callers px) (done px) (cleaned px) (StopTracking e.1 (disc px)).

(** The ticker case of the event loop: every expired advertiser is dropped.  The loop
    reads the clock for each of them, [at_ ns] is the reading for namespace [ns]. *)
Definition purge (at_ : bytes → Z) (px : PeerExchange) : PeerExchange :=
  foldl drop_ad px
    (filter (λ e, Expired e.2 (at_ e.1) = true) (map_to_list (advertisers px))).

(** The deferred function: [close(done)], which ends the context of every gossiper there is
    since each of them derives from [done], and then every advertiser is dropped. *)
Definition close_done (px : PeerExchange) : PeerExchange :=
  mkPx (now px) (advertisers px) (handlers px) (set_seq 0 (created px) ∪ cancelled px)
    (created px) (thunks px) (replies px) (callers px) true (cleaned px) (disc px).

Definition set_cleaned (px : PeerExchange) : PeerExchange :=
  mkPx (now px) (advertisers px) (handlers px) (cancelled px) (created px) (thunks px)
    (replies px) (callers px) (done px) true (disc px).

Definition cleanup (px : PeerExchange) : PeerExchange :=
  set_cleaned (foldl drop_ad px (map_to_list (advertisers px))).

(** [advertise] of [getOrCreateGossiper]. *)
Definition advertise_thunk (newParams : bytes → GossipConfig) (c : nat) (ns : bytes)
    (px : PeerExchange) : PeerExchange :=
  let p := match advertisers px !! ns with
           | Some ad => (ad, px)
           | None => let q := newGossiper newParams ns px in (mkAdvertiser 0 q.1, q.2)
           end in
  let ad := ResetTTL p.1 (now px) in
  reply c (Some (Gossiper ad)) (set_ad ns ad p.2).

(** The thunk of [getGossiper]: the channel is closed without a value when the namespace
    is unknown. *)
Definition lookup_thunk (c : nat) (ns : bytes) (px : PeerExchange) : PeerExchange :=
  reply c (Gossiper <$> advertisers px !! ns) px.

Definition run_thunk (newParams : bytes → GossipConfig) (t : nat * call)
    (px : PeerExchange) : PeerExchange :=
  match t.2 with
  | CAdvertise ns => advertise_thunk newParams t.1 ns px
  | CLookup ns => lookup_thunk t.1 ns px
  end.

Definition received (g : option gossiper) : outcome xerr gossiper :=
  match g with Some g => Ret g | None => Fail ErrNotFound end.

Section service.
Context (newParams : bytes → GossipConfig).

Inductive pstep : PeerExchange → PeerExchange → Prop :=
| SEnter px c k : callers px !! c = None → pstep px (set_callers c (Sending k) px)
| SSend px c k :                                 (* px.thunk <- f *)
    callers px !! c = Some (Sending k) → thunks px = [] →
    pstep px (set_callers c (Waiting k) (set_thunks [(c, k)] px))
| SSendCtx px c k :                              (* <-ctx.Done() *)
    callers px !! c = Some (Sending k) → pstep px (set_callers c (Returned (Fail ErrCtx)) px)
| SSendClosed px c k :                           (* <-px.done *)
    callers px !! c = Some (Sending k) → done px = true →
    pstep px (set_callers c (Returned (Fail ErrClosed)) px)
| SReceive px c k g :                            (* <-ch *)
    callers px !! c = Some (Waiting k) → replies px !! c = Some g →
    pstep px (set_callers c (Returned (received g)) px)
| SWaitCtx px c ns :                             (* only getGossiper selects again *)
    callers px !! c = Some (Waiting (CLookup ns)) →
    pstep px (set_callers c (Returned (Fail ErrCtx)) px)
| SWaitClosed px c ns :
    callers px !! c = Some (Waiting (CLookup ns)) → done px = true →
    pstep px (set_callers c (Returned (Fail ErrClosed)) px)
| SThunk px t ts :                               (* f := <-thunks; f() *)
    done px = false → thunks px = t :: ts →
    pstep px (run_thunk newParams t (set_thunks ts px))
| SPurge px at_ t :                              (* <-ticker.C *)
    done px = false → (∀ ns, now px ≤ at_ ns ≤ t) → pstep px (set_now t (purge at_ px))
| SExit px : done px = false → pstep px (close_done px)
| SClean px : done px = true → cleaned px = false → pstep px (cleanup px)
| SDiscover px d : dstep (disc px) d → pstep px (set_disc d px)
| STime px t : now px ≤ t → pstep px (set_now t px).

Definition px0 (t : Z) : PeerExchange := mkPx t ∅ ∅ ∅ 0 [] ∅ ∅ false false newDiscover.

(** Namespaces that are one plain path component have protocol ids of their own. *)
Definition plain_callers (px : PeerExchange) : Prop :=
  ∀ c k, callers px !! c = Some (Sending k) → plain (call_ns k).
Definition plain_step (px px' : PeerExchange) : Prop := pstep px px' ∧ plain_callers px'.
End service.

(** ** Advertising, bootstrapping and finding peers *)
Section rounds.
Context {info : Type}.
Context (gossipRound : info → option xerr).         (* the error of a gossip round *)

Inductive action := ATry (i : info) | ABoot.

(** The loops [for _, info := range ...]: the peers tried, and whether one round
    succeeded. *)
Fixpoint try_rounds (l : list info) : list action * bool :=
  match l with
  | [] => ([], false)
  | i :: l' =>
      match gossipRound i with
      | None => ([ATry i], true)
      | Some _ => let p := try_rounds l' in (ATry i :: p.1, p.2)
      end
  end.

Definition Bootstrap (g : outcome xerr gossiper) (peers : list info)
  : list action * outcome xerr unit :=
  match g with
  | Ret _ => let p := try_rounds peers in (p.1, if p.2 then Ret tt else Fail ErrNoPeer)
  | Fail e => ([], Fail e)
  | Panic => ([], Panic)
  end.

(** [jitter lo d] is [jitterbug.Uniform{Min: lo}.Jitter(d)]; [/] on durations truncates. *)
Definition Advertise (jitter : Z → Z → Z) (g : outcome xerr gossiper)
    (cache boot : outcome xerr (list info)) : list action * outcome xerr Z :=
  match g with
  | Ret g =>
      let ttl := jitter (Z.quot (Tick (g_config g)) 2) (Tick (g_config g)) in
      match cache with
      | Ret l =>
          let p := try_rounds l in
          if p.2 then (p.1, Ret ttl)
          else match boot with
               | Ret b => (p.1 ++ ABoot :: (try_rounds b).1, Ret ttl)
               | Fail e => (p.1 ++ [ABoot], Fail e)
               | Panic => (p.1 ++ [ABoot], Panic)
               end
      | Fail e => ([], Fail e)
      | Panic => ([], Panic)
      end
  | Fail e => ([], Fail e)
  | Panic => ([], Panic)
  end.
End rounds.

(** [StaticAddrs] ([static.go]). *)
Definition limited {info} (limit : Z) (ps : list info) : list info :=
  if (0 <? limit) && (limit <? Z.of_nat (length ps)) then take (Z.to_nat limit) ps else ps.

Definition Static_FindPeers {info} (apply : outcome xerr Z) (ps : list info)
  : outcome xerr (list info) := limit <~ apply ;; Ret (limited limit ps).

Definition Static_Advertise (PermanentAddrTTL : Z) (apply : outcome xerr Z) : outcome xerr Z :=
  ttl <~ apply ;; Ret (if ttl =? 0 then PermanentAddrTTL else ttl).

Definition Static_Filter {info} (f : info → bool) (ps : list info) : list info :=
  filter (λ i, f i = true) ps.

(** What a consumer that reads to the end gets from [FindPeers]: a source that fails is
    skipped. *)
Definition source {info} (r : outcome xerr (list info)) : list info :=
  match r with Ret l => l | _ => [] end.

Definition FindPeers {info} (apply : outcome xerr Z) (g : outcome xerr gossiper)
    (cache boot : outcome xerr (list info)) : outcome xerr (list info) :=
  limit <~ apply ;;
  _ <~ g ;;
  l <~ cache ;;
  Ret (source (Static_FindPeers (Ret limit) l) ++ source boot).

(** ** Options ([option.go]) *)
Section options.
Context {logger datastore discovery dopt info : Type}.
Context (log_New : logger) (map_store : datastore) (static : list info → discovery).

Record settings := mkSettings {
  s_log : option logger; s_params : option (bytes → GossipConfig);
  s_store : option datastore; s_disc : option discovery; s_opt : list dopt }.

Definition Option := settings → settings.

Definition default {A} (d : A) (o : option A) : A := match o with Some a => a | None => d end.

Definition WithLogger (l : option logger) : Option := λ s,
  mkSettings (Some (default log_New l)) (s_params s) (s_store s) (s_disc s) (s_opt s).
Definition WithGossip (f : option (bytes → GossipConfig)) : Option := λ s,
  mkSettings (s_log s) (Some (default (λ _, DefaultGossipConfig) f)) (s_store s) (s_disc s)
    (s_opt s).
Definition WithDatastore (st : option datastore) : Option := λ s,
  mkSettings (s_log s) (s_params s) (Some (default map_store st)) (s_disc s) (s_opt s).
Definition WithDiscovery (d : option discovery) (opt : list dopt) : Option := λ s,
  mkSettings (s_log s) (s_params s) (s_store s) (Some (default (static []) d)) opt.
Definition WithBootstrapPeers (peers : list info) : Option := λ s,
  match peers with
  | [] => s
  | _ => mkSettings (s_log s) (s_params s) (s_store s) (Some (static peers)) (s_opt s)
  end.

Definition withDefaults (opt : list Option) : list Option :=
  [WithLogger None; WithGossip None; WithDatastore None; WithDiscovery None []] ++ opt.

Definition apply_options (opt : list Option) (s : settings) : settings :=
  foldl (λ s f, f s) s opt.
End options.

(** ** The local record ([atomicRecord])

    [Record] and [Envelope] load the value once, before the loop: [v] is that load, and
    the body only sleeps.  The result is [None] when [fuel] iterations do not end it. *)
Fixpoint atomic_wait {A} (fuel : nat) (v : option A) : option A :=
  match v, fuel with
  | Some a, _ => Some a
  | None, O => None
  | None, S f => atomic_wait f v
  end.

(** * Facts *)

Lemma proto_inj ns ns' : plain ns → plain ns' → proto ns = proto ns' → ns = ns'.
Proof.
  intros Hp Hp' He. unfold proto in He.
  assert (∀ n, plain n → (n :: [bs "pex"]) ≫= Parts = [n; bs "pex"]) as Hb.
  { intros n [Hn _]. cbn [mbind list_bind]. by rewrite (Parts_comp n Hn). }
  assert (∀ n, plain n → Forall plain [n; bs "pex"]) as Hf.
  { intros n Hn. repeat constructor; try apply Hn; by apply (bool_decide_unpack _); vm_compute. }
  rewrite !Subprotocol_plain in He by (rewrite Hb by done; by apply Hf).
  rewrite !Hb in He by done. apply (f_equal Parts) in He. rewrite !Parts_slash in He.
  assert (∀ n, plain n → Forall comp (bs "casm" :: Version :: [n; bs "pex"])) as Hc.
  { intros n Hn. constructor; [|constructor].
    - by apply (bool_decide_unpack _); vm_compute.
    - by apply (bool_decide_unpack _); vm_compute.
    - apply plain_comps, Hf, Hn. }
  rewrite !Parts_join_comps in He by (by apply Hc). by simplify_eq.
Qed.

(** Dropping a list of advertisers. *)
Lemma drops_fields es px :
  now (foldl drop_ad px es) = now px ∧ created (foldl drop_ad px es) = created px ∧
  callers (foldl drop_ad px es) = callers px ∧ done (foldl drop_ad px es) = done px ∧
  thunks (foldl drop_ad px es) = thunks px ∧ cleaned (foldl drop_ad px es) = cleaned px ∧
  replies (foldl drop_ad px es) = replies px.
Proof. revert px. induction es as [|e es IH]; intros px; [done|]. apply (IH (drop_ad px e)). Qed.

Lemma drops_ads es px ns :
  advertisers (foldl drop_ad px es) !! ns =
  if decide (ns ∈ es.*1) then None else advertisers px !! ns.
Proof.
  revert px. induction es as [|e es IH]; intros px; [by rewrite decide_False by set_solver|].
  cbn [foldl]. rewrite IH. cbn [drop_ad advertisers fmap list_fmap].
  destruct (decide (ns = e.1)) as [->|Hn].
  - rewrite lookup_delete_eq, (decide_True (P := e.1 ∈ e.1 :: _)) by set_solver.
    by destruct (decide _).
  - rewrite lookup_delete_ne by done. destruct (decide (ns ∈ es.*1)), (decide (ns ∈ e.1 :: es.*1)); set_solver.
Qed.

Lemma drops_handlers es px p :
  handlers (foldl drop_ad px es) !! p =
  if decide (p ∈ (λ e : bytes * advertiser, proto (g_ns (Gossiper e.2))) <$> es) then None
  else handlers px !! p.
Proof.
  revert px. induction es as [|e es IH]; intros px; [by rewrite decide_False by set_solver|].
  cbn [foldl]. rewrite IH. cbn [drop_ad handlers fmap list_fmap].
  destruct (decide (p = proto (g_ns (Gossiper e.2)))) as [->|Hn].
  - rewrite lookup_delete_eq, (decide_True (P := _ ∈ _ :: _)) by set_solver.
    by destruct (decide _).
  - rewrite lookup_delete_ne by done.
    destruct (decide (p ∈ _ <$> es)), (decide (p ∈ _ :: _)); set_solver.
Qed.

Lemma drops_cancelled es px i :
  i ∈ cancelled (foldl drop_ad px es) ↔
  i ∈ cancelled px ∨ i ∈ (λ e : bytes * advertiser, g_id (Gossiper e.2)) <$> es.
Proof.
  revert px. induction es as [|e es IH]; intros px; [set_solver|].
  cbn [foldl]. rewrite IH. cbn [drop_ad cancelled fmap list_fmap]. set_solver.
Qed.

(** ** The life of a gossiper *)
Record life (px : PeerExchange) : Prop := {
  life_ad ns ad : advertisers px !! ns = Some ad →
    plain ns ∧ g_ns (Gossiper ad) = ns ∧ ((g_id (Gossiper ad) < created px)%nat) ∧
    (done px = false → g_id (Gossiper ad) ∉ cancelled px);
  life_handler p i : handlers px !! p = Some i ↔
    ∃ ns ad, advertisers px !! ns = Some ad ∧ p = proto ns ∧ g_id (Gossiper ad) = i;
  life_cancel i : i ∈ cancelled px → (i < created px)%nat;
  life_live i : (i < created px)%nat → i ∉ cancelled px →
    ∃ ns ad, advertisers px !! ns = Some ad ∧ g_id (Gossiper ad) = i;
  life_uniq ns ad ns' ad' : advertisers px !! ns = Some ad → advertisers px !! ns' = Some ad' →
    g_id (Gossiper ad) = g_id (Gossiper ad') → ns = ns';
  life_thunks c k : (c, k) ∈ thunks px → plain (call_ns k);
  life_callers c k : callers px !! c = Some (Sending k) → plain (call_ns k);
  life_clean : cleaned px = true → advertisers px = ∅ ∧ done px = true;
  life_done i : done px = true → (i < created px)%nat → i ∈ cancelled px;
}.

(** Dropping advertisers of the map keeps the invariant. *)
Lemma life_drops px es :
  life px → (∀ e, e ∈ es → advertisers px !! e.1 = Some e.2) → life (foldl drop_ad px es).
Proof.
  intros L He. destruct (drops_fields es px) as (_ & Hc & Hcl & Hd & Ht & Hk & _).
  assert (∀ ns ad, advertisers (foldl drop_ad px es) !! ns = Some ad ↔
                   (ns ∉ es.*1) ∧ advertisers px !! ns = Some ad) as Ha.
  { intros ns ad. rewrite drops_ads. case_decide; naive_solver. }
  assert (∀ ns ad, advertisers px !! ns = Some ad → ns ∈ es.*1 → (ns, ad) ∈ es) as Hin.
  { intros ns ad Hl ([n a] & -> & Hi)%list_elem_of_fmap. specialize (He _ Hi) as He'.
    cbn in He', Hl. rewrite Hl in He'. by simplify_eq. }
  split.
  - intros ns ad [Hn Hl]%Ha. destruct (life_ad _ L _ _ Hl) as (? & ? & ? & Hx).
    rewrite Hc, Hd, drops_cancelled. split_and!; try done. intros Hd0.
    specialize (Hx Hd0). intros [?|([n a] & Hi & Hm)%list_elem_of_fmap].
    + done.
    + specialize (He _ Hm). cbn in *. pose proof (life_uniq _ L _ _ _ _ Hl He Hi). subst.
      by apply Hn, (list_elem_of_fmap_2 fst _ _ Hm).
  - intros p i. rewrite drops_handlers. case_decide as Hp.
    + split; [done|]. intros (ns & ad & [Hn Hl]%Ha & -> & _).
      apply list_elem_of_fmap in Hp as ([n a] & Hi & Hm). specialize (He _ Hm). cbn in *.
      destruct (life_ad _ L _ _ Hl) as (Hp1 & _). destruct (life_ad _ L _ _ He) as (Hp2 & Hg & _).
      rewrite Hg in Hi. apply proto_inj in Hi; [|done..]. subst. destruct Hn.
      by apply (list_elem_of_fmap_2 fst _ _ Hm).
    + rewrite (life_handler _ L). split; intros (ns & ad & Hl & -> & Hi); exists ns, ad.
      * split_and!; try done. apply Ha. split; [|done]. intros Hn. destruct Hp.
        apply list_elem_of_fmap. exists (ns, ad). cbn.
        destruct (life_ad _ L _ _ Hl) as (_ & -> & _). auto.
      * apply Ha in Hl as [_ Hl]. done.
  - intros i. rewrite drops_cancelled, Hc.
    intros [Hi|([n a] & -> & Hm)%list_elem_of_fmap]; [by apply (life_cancel _ L)|].
    by apply (life_ad _ L _ _ (He _ Hm)).
  - intros i. rewrite Hc, drops_cancelled. intros Hi Hn.
    destruct (life_live _ L i Hi) as (ns & ad & Hl & Hg); [tauto|]. exists ns, ad.
    split; [|done]. apply Ha. split; [|done]. intros Hx. apply Hn. right.
    apply list_elem_of_fmap. exists (ns, ad). split; [done|]. by apply Hin.
  - intros ns ad ns' ad' [_ H1]%Ha [_ H2]%Ha. by apply (life_uniq _ L).
  - rewrite Ht. apply (life_thunks _ L).
  - rewrite Hcl. apply (life_callers _ L).
  - rewrite Hk, Hd. intros [He0 Hdn]%(life_clean _ L). split; [|done].
    apply map_eq. intros ns. rewrite drops_ads, He0, lookup_empty. by case_decide.
  - intros i. rewrite Hd, Hc, drops_cancelled. left. by apply (life_done _ L).
Qed.

(** Steps that touch neither the advertisers nor the host. *)
Lemma life_frame px px' :
  life px → advertisers px' = advertisers px → handlers px' = handlers px →
  cancelled px' = cancelled px → created px' = created px → done px' = done px →
  (∀ c k, (c, k) ∈ thunks px' → plain (call_ns k)) → plain_callers px' →
  cleaned px' = cleaned px → life px'.
Proof.
  intros L Ha Hh Hc Hn Hd Ht Hcl Hk.
  split; rewrite ?Ha, ?Hh, ?Hc, ?Hn, ?Hd, ?Hk; try apply L; done.
Qed.

Ltac life_frame px L := apply (life_frame px); try done; unfold plain_callers; try apply L.

(** The thunk of a known namespace only moves its deadline. *)
Lemma life_set_ad px ns ad t :
  life px → advertisers px !! ns = Some ad → done px = false →
  life (set_ad ns (ResetTTL ad t) px).
Proof.
  intros L Hl Hd.
  assert (∀ n a, advertisers (set_ad ns (ResetTTL ad t) px) !! n = Some a →
            ∃ a', advertisers px !! n = Some a' ∧ Gossiper a = Gossiper a') as H1.
  { intros n a. cbn. rewrite lookup_insert_Some. intros [[<- <-]|[_ ?]]; eauto. }
  assert (∀ n a, advertisers px !! n = Some a →
            ∃ a', advertisers (set_ad ns (ResetTTL ad t) px) !! n = Some a' ∧ Gossiper a = Gossiper a') as H2.
  { intros n a Hn. cbn. destruct (decide (n = ns)) as [->|Hne].
    - rewrite lookup_insert_eq. simplify_eq. eauto.
    - rewrite lookup_insert_ne by done. eauto. }
  split.
  - intros n a (a' & Hn & ->)%H1. apply (life_ad _ L _ _ Hn).
  - intros p i. rewrite (life_handler _ L p i : handlers (set_ad _ _ px) !! p = _ ↔ _).
    split; intros (n & a & Hn & -> & <-).
    + destruct (H2 _ _ Hn) as (a' & ? & ->). eauto.
    + destruct (H1 _ _ Hn) as (a' & ? & ->). eauto.
  - apply (life_cancel _ L).
  - intros i Hi Hx. destruct (life_live _ L i Hi Hx) as (n & a & Hn & <-).
    destruct (H2 _ _ Hn) as (a' & ? & ->). eauto.
  - intros n a n' a' (b & Hn & ->)%H1 (b' & Hn' & ->)%H1. by apply (life_uniq _ L _ _ _ _ Hn Hn').
  - apply (life_thunks _ L).
  - apply (life_callers _ L).
  - intros Hk. destruct (life_clean _ L Hk). congruence.
  - cbn. congruence.
Qed.

(** A new namespace gets a new gossiper and its handler. *)
Lemma life_new px newParams ns :
  life px → advertisers px !! ns = None → plain ns → done px = false →
  let q := newGossiper newParams ns px in
  life (set_ad ns (mkAdvertiser 0 q.1) q.2).
Proof.
  intros L Hl Hp Hd q. subst q.
  assert (∀ n a, advertisers px !! n = Some a → n ≠ ns) as Hne by naive_solver.
  assert (∀ n a, advertisers px !! n = Some a → g_id (Gossiper a) ≠ created px) as Hfresh.
  { intros n a Hn. destruct (life_ad _ L _ _ Hn) as (_ & _ & ? & _). lia. }
  split; cbn; rewrite ?Hd.
  - intros n a. rewrite lookup_insert_Some. intros [[<- <-]|[_ Hn]]; cbn.
    + split_and!; try done; [lia|]. intros _ Hc%(life_cancel _ L). lia.
    + destruct (life_ad _ L _ _ Hn) as (? & ? & ? & ?). split_and!; auto; lia.
  - intros p i. rewrite lookup_insert_Some, (life_handler _ L). split.
    + intros [[<- <-]|[Hpn (n & a & Hn & -> & <-)]].
      * exists ns, (mkAdvertiser 0 (mkGossiper (created px) ns (newParams ns))).
        by rewrite lookup_insert_eq.
      * exists n, a. rewrite lookup_insert_ne by (by apply not_eq_sym, (Hne n a)). done.
    + intros (n & a & Hn & -> & <-). apply lookup_insert_Some in Hn as [[<- <-]|[Hnn Hn]]; [by left|].
      right. split; [|by exists n, a]. intros Hq%proto_inj; [done|done|].
      apply (life_ad _ L _ _ Hn).
  - intros i Hi%(life_cancel _ L). lia.
  - intros i Hi Hx. destruct (decide (i = created px)) as [->|Hni].
    + exists ns. eexists. by rewrite lookup_insert_eq.
    + destruct (life_live _ L i) as (n & a & Hn & <-); [lia|done|]. exists n, a.
      by rewrite lookup_insert_ne by (by apply not_eq_sym, (Hne n a)).
  - intros n a n' a'. rewrite !lookup_insert_Some.
    intros [[<- <-]|[_ Hn]] [[<- <-]|[_ Hn']]; cbn; intros Hg; [done| | |].
    + by destruct (Hfresh _ _ Hn').
    + by destruct (Hfresh _ _ Hn).
    + by apply (life_uniq _ L _ _ _ _ Hn Hn').
  - apply (life_thunks _ L).
  - apply (life_callers _ L).
  - intros Hk. destruct (life_clean _ L Hk). congruence.
  - cbn. congruence.
Qed.

Lemma life_reply px c g : life px → life (reply c g px).
Proof. intros L. life_frame px L. Qed.

Lemma life_thunk newParams px c k :
  life px → plain (call_ns k) → done px = false → life (run_thunk newParams (c, k) px).
Proof.
  intros L Hp Hd. destruct k as [ns|ns]; cbn in Hp; [|by apply life_reply].
  unfold run_thunk, advertise_thunk. cbn [snd fst].
  destruct (advertisers px !! ns) as [ad|] eqn:Hl; cbn [fst snd].
  - apply life_reply. by apply life_set_ad.
  - apply life_reply. cbv zeta.
    pose proof (life_new px newParams ns L Hl Hp Hd) as L'. cbv zeta in L'.
    pose proof (life_set_ad _ ns (mkAdvertiser 0 (newGossiper newParams ns px).1) (now px) L') as L2.
    unfold set_ad in L2 at 1. cbn [advertisers set_ad] in L2.
    rewrite lookup_insert_eq in L2. specialize (L2 eq_refl Hd).
    unfold set_ad in L2 at 1. cbn [advertisers set_ad] in L2. rewrite insert_insert_eq in L2.
    exact L2.
Qed.

(** Closing [done] ends every context. *)
Lemma life_close px : life px → plain_callers px → life (close_done px).
Proof.
  intros L Hp. split; cbn; try apply L; try done.
  - intros ns ad Ha. destruct (life_ad _ L _ _ Ha) as (?&?&?&_). by split_and!.
  - intros i [[_ ?]%elem_of_set_seq|?%(life_cancel _ L)]%elem_of_union; lia.
  - intros i Hi [Hn _]%not_elem_of_union. destruct Hn. apply elem_of_set_seq. lia.
  - intros Hk. by destruct (life_clean _ L Hk).
  - intros i _ Hi. apply elem_of_union_l, elem_of_set_seq. lia.
Qed.

Lemma life_step newParams px px' : life px → plain_step newParams px px' → life px'.
Proof.
  intros L [Hs Hp].
  destruct Hs as [px c k Hc|px c k Hc Ht|px c k Hc|px c k Hc Hd|px c k g Hc Hr|px c ns Hc
    |px c ns Hc Hd|px [c k] ts Hd Ht|px at_ t Hd Ht|px Hd|px Hd Hk|px d Hdisc|px t Ht];
    try (by life_frame px L).
  - apply (life_frame px); try done. cbn. intros c' k' [= -> ->]%list_elem_of_singleton.
    by apply (life_callers _ L _ _ Hc).
  - apply life_thunk; [|by apply (life_thunks _ L c); rewrite Ht; left|done].
    life_frame px L. cbn. intros c' k' Hi.
    apply (life_thunks _ L c'). rewrite Ht. by right.
  - assert (life (purge at_ px)) as L'.
    { apply life_drops; [done|]. intros [n a] [_ He]%list_elem_of_filter.
      by apply elem_of_map_to_list in He. }
    life_frame (purge at_ px) L'.
  - by apply life_close.
  - assert (life (foldl drop_ad px (map_to_list (advertisers px)))) as L'.
    { apply life_drops; [done|]. intros [n a] He. by apply elem_of_map_to_list in He. }
    destruct (drops_fields (map_to_list (advertisers px)) px) as (_ & _ & _ & Hd' & _ & _).
    split; try apply L'. intros _. cbn. split; [|by rewrite Hd'].
    apply map_eq. intros n. rewrite drops_ads, lookup_empty. case_decide as Hn; [done|].
    destruct (advertisers px !! n) as [a|] eqn:Hl; [|done]. destruct Hn.
    apply list_elem_of_fmap. exists (n, a). split; [done|]. by apply elem_of_map_to_list.
Qed.

Lemma life_init t : life (px0 t).
Proof. split; cbn; try done; try set_solver; lia. Qed.

Lemma life_run newParams t px : rtc (plain_step newParams) (px0 t) px → life px.
Proof. intros Hr. eapply (rtc_ind_r life); eauto using life_init, life_step. Qed.

(** ** Grace period *)

(** Until its deadline has passed, or the service closes, a namespace keeps its gossiper
    and its deadline is not moved back. *)
Definition kept (ns : bytes) (g : gossiper) (dl : Z) (px : PeerExchange) : Prop :=
  dl ≤ now px + grace (g_config g) ∧ (dl < now px ∨ done px = true ∨
  ∃ ad, advertisers px !! ns = Some ad ∧ Gossiper ad = g ∧ dl ≤ Deadline ad).

Lemma kept_purge ns g dl at_ t px :
  (∀ n, now px ≤ at_ n ≤ t) → kept ns g dl px → kept ns g dl (set_now t (purge at_ px)).
Proof.
  intros Ht Hk. specialize (Ht ns) as Hns.
  destruct (drops_fields (filter (λ e, Expired e.2 (at_ e.1) = true) (map_to_list (advertisers px))) px)
    as (_ & _ & _ & Hd & _ & _).
  destruct Hk as [Hb Hk]. split; [cbn; lia|].
  destruct Hk as [Hk|[Hk|(ad & Ha & Hg & Hdl)]]; [left; cbn; lia|right; left; cbn; by rewrite <- Hk|].
  destruct (decide (dl < t)) as [?|Hlt]; [by left|]. right. right. exists ad. split; [|done].
  cbn. unfold purge. rewrite drops_ads, Ha. case_decide as Hi; [|done]. exfalso.
  apply list_elem_of_fmap in Hi as ([n a] & -> & [He Hm]%list_elem_of_filter). cbn in *.
  apply elem_of_map_to_list in Hm. simplify_eq. unfold Expired in He. apply Z.ltb_lt in He. lia.
Qed.

Lemma kept_step newParams ns g dl px px' :
  kept ns g dl px → pstep newParams px px' → kept ns g dl px'.
Proof.
  intros Hk Hs.
  destruct Hs as [px c k Hc|px c k Hc Ht|px c k Hc|px c k Hc Hd|px c k r Hc Hr|px c n Hc
    |px c n Hc Hd|px [c k] ts Hd Ht|px at_ t Hd Ht|px Hd|px Hd Hc|px d Hdisc|px t Ht];
    try exact Hk.
  - destruct Hk as [Hb Hk].
    assert (now (run_thunk newParams (c, k) (set_thunks ts px)) = now px) as Hnow.
    { destruct k as [n|n]; [|done]. cbn. by destruct (advertisers px !! n). }
    split; [by rewrite Hnow|]. rewrite Hnow.
    destruct Hk as [Hk|[Hk|(ad & Ha & Hgs & Hdl)]].
    + by left.
    + congruence.
    + destruct k as [n|n]; [|right; right; by exists ad].
      destruct (decide (n = ns)) as [->|Hn].
      * right. right. exists (ResetTTL ad (now px)).
        cbn. rewrite Ha. cbn. rewrite lookup_insert_eq, Hgs. by split_and!.
      * right. right. exists ad. cbn. destruct (advertisers px !! n) eqn:Hl; cbn;
          by rewrite lookup_insert_ne.
  - by apply kept_purge.
  - destruct Hk. split; [done|]. right. by left.
  - destruct (drops_fields (map_to_list (advertisers px)) px) as (Hn & _ & _ & Hd' & _).
    destruct Hk. split; [cbn; by rewrite Hn|]. right. left. cbn. by rewrite Hd'.
  - destruct Hk as [Hb [Hk|Hk]]; (split; [cbn; lia|]); [left; cbn; lia|by right].
Qed.

Lemma kept_run newParams ns g dl px px' :
  kept ns g dl px → rtc (pstep newParams) px px' → kept ns g dl px'.
Proof. intros Hk Hr. induction Hr; eauto using kept_step. Qed.

(** ** Lost thunks *)

(** The state of a caller whose thunk sits in the buffer of a closed service. *)
Definition stuck (c : nat) (ns : bytes) (px : PeerExchange) : Prop :=
  done px = true ∧ replies px !! c = None ∧ callers px !! c = Some (Waiting (CAdvertise ns)).

Lemma stuck_step newParams c ns px px' :
  stuck c ns px → pstep newParams px px' → stuck c ns px'.
Proof.
  intros (Hd & Hr & Hc) Hs.
  assert (∀ c' p, callers px !! c' ≠ Some (Waiting (CAdvertise ns)) ∨ c' ≠ c →
            stuck c ns (set_callers c' p px)) as Hset.
  { intros c' p Hx. split_and!; [done..|]. cbn. rewrite lookup_insert_ne; [done|].
    intros ->. naive_solver. }
  destruct Hs as [px c' k Hc'|px c' k Hc' Ht|px c' k Hc'|px c' k Hc' Hd'|px c' k r Hc' Hr'|px c' n Hc'
    |px c' n Hc' Hd'|px [c' k] ts Hd' Ht|px at_ t Hd' Ht|px Hd'|px Hd' Hc'|px d Hdisc|px t Ht];
    try (by apply Hset; left; rewrite Hc'); try congruence; try done.
  - split_and!; try done. cbn. rewrite lookup_insert_ne; [done|]. intros ->. congruence.
  - destruct (drops_fields (map_to_list (advertisers px)) px) as (_ & _ & Hcl & Hdn & _ & _ & Hrp).
    by split_and!; cbn; rewrite ?Hcl, ?Hdn, ?Hrp.
Qed.

Lemma stuck_run newParams c ns px px' :
  stuck c ns px → rtc (pstep newParams) px px' → stuck c ns px'.
Proof. intros Hk Hr. induction Hr; eauto using stuck_step. Qed.

(** ** Trackers *)
Record tracked (d : discover) : Prop := {
  tr_entry ns i p : advertising d !! ns = Some (i, p) → ∃ ph, trackers d !! i = Some (ns, ph);
  tr_tracker i ns ph : trackers d !! i = Some (ns, ph) →
    ∃ p, advertising d !! ns = Some (i, p) ∧ (p ∈ callers_ended d → i ∈ ended d);
  tr_fresh i x : trackers d !! i = Some x → (i < contexts d)%nat;
}.

Lemma tracked_init : tracked newDiscover.
Proof. split; cbn; set_solver. Qed.

Lemma tracked_phase d d' i ns ph ph' :
  tracked d → trackers d !! i = Some (ns, ph) → advertising d' = advertising d →
  trackers d' = <[i := (ns, ph')]> (trackers d) → ended d' = ended d →
  callers_ended d' = callers_ended d → contexts d' = contexts d → tracked d'.
Proof.
  intros T Hi Ha Ht He Hce Hc. split; rewrite ?Ha, ?Ht, ?He, ?Hc, ?Hce.
  - intros n j p Hn. destruct (tr_entry _ T _ _ _ Hn) as (q & Hq).
    destruct (decide (i = j)) as [->|]; [|rewrite lookup_insert_ne by done; eauto].
    rewrite lookup_insert_eq. rewrite Hi in Hq. simplify_eq. eauto.
  - intros j n q. rewrite lookup_insert_Some. intros [[<- [= <- <-]]|[_ Hj]].
    + apply (tr_tracker _ T _ _ _ Hi).
    + apply (tr_tracker _ T _ _ _ Hj).
  - intros j x. rewrite lookup_insert_Some. intros [[<- _]|[_ Hj]]; by eapply (tr_fresh _ T).
Qed.

Lemma end_ctx_ended ctx d j :
  j ∈ ended (end_ctx ctx d) ↔ (∃ ns, advertising d !! ns = Some (j, ctx)) ∨ j ∈ ended d.
Proof.
  cbn. rewrite elem_of_union, elem_of_list_to_set, list_elem_of_omap. split.
  - intros [([n [a b]] & Hm & Hd)|?]; auto. cbn in Hd. case_decide; [|done].
    simplify_eq. left. exists n. by apply elem_of_map_to_list in Hm.
  - intros [(n & Hn)|?]; auto. left. exists (n, (j, ctx)). cbn.
    rewrite decide_True by done. split; [by apply elem_of_map_to_list|done].
Qed.

Lemma tracked_start ctx ns d :
  tracked d → advertising d !! ns = None → tracked (startTracking ctx ns d).
Proof.
  intros T Hn. split; cbn.
  - intros n i p. rewrite lookup_insert_Some. intros [[<- [= <- <-]]|[_ Hi]].
    + rewrite lookup_insert_eq. eauto.
    + destruct (tr_entry _ T _ _ _ Hi) as (ph & Hp). exists ph.
      rewrite lookup_insert_ne; [done|]. intros <-. apply (tr_fresh _ T) in Hp. lia.
  - intros i n ph. rewrite lookup_insert_Some. intros [[<- [= <- <-]]|[_ Hi]].
    + exists ctx. rewrite lookup_insert_eq. split; [done|]. intros Hc.
      rewrite decide_True by done. set_solver.
    + destruct (tr_tracker _ T _ _ _ Hi) as (p & Hp & Hpe). exists p.
      rewrite lookup_insert_ne by congruence. split; [done|]. case_decide; set_solver.
  - intros i x. rewrite lookup_insert_Some. intros [[<- _]|[_ Hi%(tr_fresh _ T)]]; lia.
Qed.

Lemma tracked_exit ns i ph d :
  tracked d → trackers d !! i = Some (ns, ph) → tracked (tracker_exit ns i d).
Proof.
  intros T Hi. destruct (tr_tracker _ T _ _ _ Hi) as (p & Hp & _). split; cbn.
  - intros n j q. rewrite lookup_delete_Some. intros [Hn Hj].
    destruct (tr_entry _ T _ _ _ Hj) as (r & Hr). exists r.
    rewrite lookup_delete_ne; [done|]. intros <-. congruence.
  - intros j n q. rewrite lookup_delete_Some. intros [Hn Hj].
    destruct (tr_tracker _ T _ _ _ Hj) as (r & Hr & He). exists r.
    rewrite lookup_delete_ne; [done|]. intros <-. congruence.
  - intros j x. rewrite lookup_delete_Some. intros [_ Hj]. by eapply (tr_fresh _ T).
Qed.

Lemma tracked_step d d' : tracked d → dstep d d' → tracked d'.
Proof.
  intros T Hs. destruct Hs as [d ctx|d ctx ns|d ns|d ns i Hi|d ns i Hi He|d ns i Hi|d ns i ph Hi Hp He];
    try (by eapply (tracked_phase d)).
  - split; try apply T. intros i n ph Hi. destruct (tr_tracker _ T _ _ _ Hi) as (p & Hp & Hi').
    exists p. split; [done|]. rewrite end_ctx_ended. cbn.
    intros [->%elem_of_singleton|?]%elem_of_union; [left; by exists n|right; auto].
  - unfold disc_Bootstrap. destruct (advertising d !! ns) eqn:Hn; [done|by apply tracked_start].
  - unfold StopTracking. destruct (advertising d !! ns) as [[i p]|] eqn:Hn; [|done].
    split; try apply T. intros j n ph Hj. destruct (tr_tracker _ T _ _ _ Hj) as (q & Hq & He).
    exists q. cbn. set_solver.
  - by eapply tracked_exit.
Qed.

Lemma tracked_run d d' : tracked d → rtc dstep d d' → tracked d'.
Proof. intros T Hr. induction Hr; eauto using tracked_step. Qed.

(** How often a tracker whose context is done can still advertise: once if it is at the
    [select] or has not begun, not at all after that. *)
Definition calls (i : nat) (d : discover) : nat := length (filter (λ j, j = i) (advertised d)).
Definition budget (i : nat) (d : discover) : nat :=
  match trackers d !! i with Some (_, TFirst) | Some (_, TSelect) => 1 | _ => 0 end.

Lemma budget_step i d d' :
  tracked d → (i < contexts d)%nat → i ∈ ended d → dstep d d' →
  ((i < contexts d')%nat ∧ i ∈ ended d' ∧ calls i d' + budget i d' ≤ calls i d + budget i d)%nat.
Proof.
  intros T Hlt Hi Hs.
  destruct Hs as [d ctx|d ctx ns|d ns|d ns j Hj|d ns j Hj He|d ns j Hj|d ns j ph Hj Hp He].
  - split_and!; [done| |done]. apply end_ctx_ended. by right.
  - unfold disc_Bootstrap. destruct (advertising d !! ns) eqn:Hn; [done|]. cbn. split_and!; [lia| |].
    + case_decide; set_solver.
    + unfold budget, calls. cbn. by rewrite lookup_insert_ne by lia.
  - unfold StopTracking. destruct (advertising d !! ns) as [[j p]|]; [|done].
    split_and!; [done|cbn; set_solver|done].
  - split_and!; [done..|]. unfold calls, budget. cbn [trackers advertised disc_advertise at_select tracker_exit].
    destruct (decide (j = i)) as [->|Hn].
    + rewrite Hj, lookup_insert_eq, filter_cons_True by done. cbn. lia.
    + rewrite lookup_insert_ne, filter_cons_False by done. lia.
  - split_and!; [done..|]. unfold calls, budget. cbn [trackers advertised disc_advertise at_select tracker_exit].
    destruct (decide (j = i)) as [->|Hn]; [done|].
    by rewrite lookup_insert_ne.
  - split_and!; [done..|]. unfold calls, budget. cbn [trackers advertised disc_advertise at_select tracker_exit].
    destruct (decide (j = i)) as [->|Hn].
    + rewrite Hj, lookup_insert_eq, filter_cons_True by done. cbn. lia.
    + rewrite lookup_insert_ne, filter_cons_False by done. lia.
  - split_and!; [done..|]. unfold calls, budget. cbn [trackers advertised disc_advertise at_select tracker_exit].
    destruct (decide (j = i)) as [->|Hn].
    + rewrite lookup_delete_eq. lia.
    + by rewrite lookup_delete_ne.
Qed.

Lemma budget_run i d d' :
  tracked d → (i < contexts d)%nat → i ∈ ended d → rtc dstep d d' →
  (calls i d' + budget i d' ≤ calls i d + budget i d)%nat.
Proof.
  intros T Hlt Hi Hr. induction Hr as [|d d1 d' Hs Hr IH]; [done|].
  destruct (budget_step i d d1) as (? & ? & ?); [done..|].
  enough (calls i d' + budget i d' ≤ calls i d1 + budget i d1)%nat by lia.
  apply IH; [by apply (tracked_step d)|done..].
Qed.

(** * Properties *)

(** C11.  In every state the service reaches with callers that use namespaces of one plain
    path component (so that their protocol ids differ): every advertised namespace is
    served by the stream handler of its own gossiper; every stream handler is that of an
    advertised namespace; while [done] is open the contexts that are live are exactly those
    of the advertised gossipers, each advertised under one namespace, and once it is
    closed no context is.  Once the event loop has returned there is no handler left. *)
Theorem exchange_lifecycle newParams t px :
  rtc (plain_step newParams) (px0 t) px →
  (∀ ns ad, advertisers px !! ns = Some ad →
     handlers px !! proto ns = Some (g_id (Gossiper ad)) ∧
     (done px = false → g_id (Gossiper ad) ∉ cancelled px)) ∧
  (∀ p i, handlers px !! p = Some i →
     ∃ ns ad, advertisers px !! ns = Some ad ∧ p = proto ns ∧ g_id (Gossiper ad) = i) ∧
  (∀ i, (i < created px)%nat → i ∉ cancelled px → done px = false ∧
     ∃ ns, (∃ ad, advertisers px !! ns = Some ad ∧ g_id (Gossiper ad) = i) ∧
       ∀ ns' ad', advertisers px !! ns' = Some ad' → g_id (Gossiper ad') = i → ns' = ns) ∧
  (cleaned px = true → done px = true ∧ handlers px = ∅).
Proof.
  intros L%life_run. split_and!.
  - intros ns ad Ha. destruct (life_ad _ L _ _ Ha) as (_ & _ & _ & Hc). split; [|done].
    apply (life_handler _ L). by exists ns, ad.
  - intros p i. apply (life_handler _ L).
  - intros i Hi Hc. split; [by destruct (done px) eqn:Hd; [destruct Hc; apply L|]|].
    destruct (life_live _ L i Hi Hc) as (ns & ad & Ha & <-).
    exists ns. split; [by exists ad|]. intros ns' ad' Ha' He. by apply (life_uniq _ L _ _ _ _ Ha' Ha).
  - intros [He Hd]%(life_clean _ L). split; [done|].
    apply map_empty. intros p. apply eq_None_not_Some. intros (i & Hi).
    apply (life_handler _ L) in Hi as (ns & ad & Ha & _). by rewrite He in Ha.
Qed.

(** A run: a caller advertises namespace [a], then the service closes. *)
Module run.
Definition params (ns : bytes) : GossipConfig := DefaultGossipConfig.
Definition a : bytes := bs "a".
Definition s1 : PeerExchange := set_callers 0 (Sending (CAdvertise a)) (px0 0).
Definition s2 : PeerExchange := set_callers 0 (Waiting (CAdvertise a)) (set_thunks [(0%nat, CAdvertise a)] s1).
Definition s3 : PeerExchange := run_thunk params (0%nat, CAdvertise a) (set_thunks [] s2).
Definition s4 : PeerExchange := close_done s3.
Definition s5 : PeerExchange := cleanup s4.
End run.

Lemma exchange_lifecycle_witness :
  done run.s5 = true ∧ handlers run.s5 = ∅.
Proof.
  assert (rtc (plain_step run.params) (px0 0) run.s5) as Hr.
  { assert (∀ px, callers px = {[ 0%nat := Sending (CAdvertise run.a) ]} ∨
                  callers px = {[ 0%nat := Waiting (CAdvertise run.a) ]} → plain_callers px) as Hp.
    { intros px [He|He] c k; rewrite He; intros [<- Hk]%lookup_singleton_Some; simplify_eq.
      by apply (bool_decide_unpack _); vm_compute. }
    eapply rtc_l; [split; [apply (SEnter _ _ 0 (CAdvertise run.a)); done|apply Hp; by left]|].
    eapply rtc_l; [split; [by apply (SSend _ run.s1 0 (CAdvertise run.a))|apply Hp; by right]|].
    eapply rtc_l; [split; [by apply (SThunk run.params run.s2 (0%nat, CAdvertise run.a) [])|apply Hp; by right]|].
    eapply rtc_l; [split; [by apply (SExit _ run.s3)|apply Hp; by right]|].
    apply rtc_once. split; [by apply (SClean _ run.s4)|apply Hp; right].
    vm_compute. reflexivity. }
  apply (exchange_lifecycle run.params 0 run.s5 Hr). reflexivity.
Defined.

(** The grace period: once [getOrCreateGossiper] has run for [ns] at time [now px],
    the namespace keeps the gossiper the caller got, through every purge and whatever the
    other callers do, until the TTL [Advertise] returns plus the round timeout has
    elapsed or the service is closed.  (The jitter source returns a duration between the
    two bounds it is given; the configured durations do not overflow.) *)
Theorem advertise_grace newParams jitter c ns px px' :
  (∀ lo d, lo ≤ d → lo ≤ jitter lo d ≤ d) →
  let px1 := advertise_thunk newParams c ns px in
  ∀ g, replies px1 !! c = Some (Some g) →
  0 ≤ Tick (g_config g) → 0 ≤ Timeout (g_config g) →
  Tick (g_config g) + Timeout (g_config g) < 2 ^ 63 →
  rtc (pstep newParams) px1 px' → done px' = false →
  now px' ≤ now px + jitter (Z.quot (Tick (g_config g)) 2) (Tick (g_config g))
              + Timeout (g_config g) →
  Gossiper <$> advertisers px' !! ns = Some g.
Proof.
  intros Hj px1 g Hg Ht0 Hto Hov Hr Hd Hn. subst px1.
  assert (grace (g_config g) = Tick (g_config g) + Timeout (g_config g)) as Hgr.
  { apply wrap_i_small; [lia|]. unfold in_i. change (64 - 1) with 63. lia. }
  assert (kept ns g (now px + grace (g_config g)) (advertise_thunk newParams c ns px)) as Hk.
  { unfold advertise_thunk in Hg |- *. cbv zeta in Hg |- *.
    destruct (advertisers px !! ns) as [ad|] eqn:Ha; cbn in Hg; rewrite lookup_insert_eq in Hg;
      injection Hg as <-; (split; [done|]); right; right; cbn; rewrite lookup_insert_eq;
      eexists; (split; [reflexivity|]); (split; [done|]); cbn; lia. }
  destruct (kept_run newParams ns g _ _ px' Hk Hr) as [_ [Hl|[Hl|(ad & Ha & <- & _)]]].
  - pose proof (Hj (Z.quot (Tick (g_config g)) 2) (Tick (g_config g))) as Hq.
    assert (Z.quot (Tick (g_config g)) 2 ≤ Tick (g_config g)) as Hle.
    { destruct (decide (Tick (g_config g) = 0)) as [->|]; [done|].
      apply Z.lt_le_incl, Z.quot_lt; lia. }
    specialize (Hq Hle). lia.
  - congruence.
  - by rewrite Ha.
Qed.

(** At the last moment of the grace period a purge leaves the namespace in place. *)
Lemma advertise_grace_witness :
  let px' := set_now (330 * second) (purge (λ _, 330 * second) (set_now (330 * second) run.s3)) in
  Gossiper <$> advertisers px' !! run.a = Some (mkGossiper 0 run.a DefaultGossipConfig).
Proof.
  intros px'.
  apply (advertise_grace run.params (λ lo d, d) 0 run.a (set_thunks [] run.s2) px').
  - lia.
  - reflexivity.
  - cbn; unfold minute, second; lia.
  - cbn; unfold second; lia.
  - cbn; unfold minute, second; lia.
  - eapply rtc_l; [apply (STime _ run.s3 (330 * second)); vm_compute; discriminate|].
    apply rtc_once. apply (SPurge _ _ (λ _, 330 * second)); [reflexivity|].
    intros _. cbn. lia.
  - vm_compute. reflexivity.
  - vm_compute. discriminate.
Defined.

(** A service can be closed with the thunk of a caller of [getOrCreateGossiper] in the
    channel's buffer.  The thunk is then never run: whatever happens next the caller waits
    for its reply, without looking at its context or at [done], and never returns.  A
    caller of [getGossiper] in the same position can always leave with [ErrClosed]. *)
Theorem closed_service_strands_caller newParams t ns :
  (∃ px, rtc (pstep newParams) (px0 t) px ∧ done px = true ∧
     thunks px = [(0%nat, CAdvertise ns)] ∧
     ∀ px', rtc (pstep newParams) px px' →
       callers px' !! 0%nat = Some (Waiting (CAdvertise ns))) ∧
  ∀ px c, done px = true → callers px !! c = Some (Waiting (CLookup ns)) →
    ∃ px', pstep newParams px px' ∧ callers px' !! c = Some (Returned (Fail ErrClosed)).
Proof.
  split.
  - set (s1 := set_callers 0 (Sending (CAdvertise ns)) (px0 t)).
    set (s2 := set_callers 0 (Waiting (CAdvertise ns)) (set_thunks [(0%nat, CAdvertise ns)] s1)).
    exists (close_done s2). split_and!; [|done..|].
    + eapply rtc_l; [by apply (SEnter _ (px0 t) 0 (CAdvertise ns))|].
      eapply rtc_l; [by apply (SSend _ s1 0 (CAdvertise ns))|]. apply rtc_once. by apply SExit.
    + intros px' Hr. eapply (stuck_run _ 0 ns); [|exact Hr]. by split_and!.
  - intros px c Hd Hc. eexists. split; [by eapply SWaitClosed|]. cbn. by rewrite lookup_insert_eq.
Qed.

(** Background tracking: at every moment a namespace is listed exactly when one
    tracker runs for it, so there are never two; and a tracker does not outlive the call
    that started it: once the context of that call has ended (the one [Advertise] makes
    ends when [Advertise] returns), the tracker calls the boot service at most once more,
    however the run continues. *)
Theorem tracking_ends_with_caller d d' ns i p :
  rtc dstep newDiscover d → rtc dstep d d' →
  (∀ j n ph, trackers d !! j = Some (n, ph) → fst <$> advertising d !! n = Some j) ∧
  (∀ n j q, advertising d !! n = Some (j, q) → ∃ ph, trackers d !! j = Some (n, ph)) ∧
  (advertising d !! ns = Some (i, p) → p ∈ callers_ended d → (calls i d' ≤ calls i d + 1)%nat).
Proof.
  intros T%(tracked_run _ _ tracked_init) Hr. split_and!.
  - intros j n ph Hj. by destruct (tr_tracker _ T _ _ _ Hj) as (q & -> & _).
  - intros n j q. apply (tr_entry _ T).
  - intros Ha Hp. destruct (tr_entry _ T _ _ _ Ha) as (ph & Hi).
    destruct (tr_tracker _ T _ _ _ Hi) as (q & Hq & He). rewrite Ha in Hq. simplify_eq.
    pose proof (budget_run i d d' T (tr_fresh _ T _ _ Hi) (He Hp) Hr) as Hb.
    assert (budget i d ≤ 1)%nat; [|lia]. unfold budget. rewrite Hi. destruct ph; lia.
Qed.

(** [Advertise] starts a tracker under context 7 and returns; the tracker then makes its
    first and last call. *)
Lemma tracking_ends_with_caller_witness :
  let d := end_ctx 7 (disc_Bootstrap 7 run.a newDiscover) in
  (calls 0 (disc_advertise run.a 0 d) ≤ calls 0 d + 1)%nat.
Proof.
  intros d.
  assert (rtc dstep newDiscover d) as H1.
  { eapply rtc_l; [apply (DBootstrap _ 7 run.a)|]. apply rtc_once. apply DEnd. }
  assert (rtc dstep d (disc_advertise run.a 0 d)) as H2.
  { apply rtc_once. by apply DFirst. }
  apply (tracking_ends_with_caller d (disc_advertise run.a 0 d) run.a 0 7 H1 H2).
  - vm_compute. reflexivity.
  - by apply (bool_decide_unpack _); vm_compute.
Defined.

Lemma try_rounds_first {info} (f : info → option xerr) l :
  (∃ pre i post, l = pre ++ i :: post ∧ f i = None ∧ Forall (λ j, f j ≠ None) pre ∧
     try_rounds f l = (ATry <$> pre ++ [i], true)) ∨
  (Forall (λ j, f j ≠ None) l ∧ try_rounds f l = (ATry <$> l, false)).
Proof.
  induction l as [|x l IH]; [by right|]. cbn. destruct (f x) as [e|] eqn:Hx.
  - destruct IH as [(pre & i & post & -> & Hi & Hp & ->)|[Hp ->]].
    + left. exists (x :: pre), i, post. split_and!; try done. constructor; [by rewrite Hx|done].
    + right. split; [constructor; [by rewrite Hx|done]|done].
  - left. exists [], x, l. by split_and!.
Qed.

(** [Advertise] gossips with the cached peers in order and stops at the first round
    that succeeds; only when all of them fail does it ask the boot service, and then it
    tries the service's peers the same way.  It returns the jittered TTL even when nobody
    was reached; it fails exactly when the gossiper, the cache or the boot service does. *)
Theorem advertise_falls_back {info} (f : info → option xerr) jitter g cached boot :
  let ttl := jitter (Z.quot (Tick (g_config g)) 2) (Tick (g_config g)) in
  (∃ pre i post, cached = pre ++ i :: post ∧ f i = None ∧ Forall (λ j, f j ≠ None) pre ∧
     Advertise f jitter (Ret g) (Ret cached) boot = (ATry <$> pre ++ [i], Ret ttl)) ∨
  (Forall (λ j, f j ≠ None) cached ∧
   match boot with
   | Fail e => Advertise f jitter (Ret g) (Ret cached) boot = ((ATry <$> cached) ++ [ABoot], Fail e)
   | Panic => Advertise f jitter (Ret g) (Ret cached) boot = ((ATry <$> cached) ++ [ABoot], Panic)
   | Ret found => ∃ tried,
       Advertise f jitter (Ret g) (Ret cached) boot =
         ((ATry <$> cached) ++ ABoot :: (ATry <$> tried), Ret ttl) ∧
       tried `prefix_of` found ∧
       ((∃ pre i, tried = pre ++ [i] ∧ f i = None ∧ Forall (λ j, f j ≠ None) pre) ∨
        (tried = found ∧ Forall (λ j, f j ≠ None) found))
   end).
Proof.
  intros ttl. unfold Advertise. fold ttl.
  destruct (try_rounds_first f cached) as [(pre & i & post & -> & Hi & Hp & ->)|[Hp ->]].
  - left. by exists pre, i, post.
  - right. split; [done|]. destruct boot as [found|e|]; [|done..]. cbn [fst snd].
    destruct (try_rounds_first f found) as [(pre & i & post & -> & Hi & Hq & ->)|[Hq ->]].
    + exists (pre ++ [i]). cbn [fst]. split_and!; [done| |left; by exists pre, i].
      exists post. by rewrite <- app_assoc.
    + exists found. cbn [fst]. split_and!; [done|done|by right].
Qed.

(** The [Limit] option of [FindPeers] bounds the cached peers only: with a limit [n]
    a consumer gets at most [n] cached peers, in the cache's order, followed by all the
    boot service has, so the limit is exceeded as soon as the cache reaches it and the
    boot service knows anybody. *)
Theorem find_peers_limit {info} limit (g : gossiper) (cached found : list info) :
  0 < limit →
  FindPeers (Ret limit) (Ret g) (Ret cached) (Ret found)
    = Ret (take (Z.to_nat limit) cached ++ found) ∧
  (limit ≤ Z.of_nat (length cached) → found ≠ [] →
   ∃ out, FindPeers (Ret limit) (Ret g) (Ret cached) (Ret found) = Ret out ∧
     limit < Z.of_nat (length out)).
Proof.
  intros Hl.
  assert (FindPeers (Ret limit) (Ret g) (Ret cached) (Ret found)
          = Ret (take (Z.to_nat limit) cached ++ found)) as He.
  { cbn. unfold limited. rewrite (proj2 (Z.ltb_lt 0 limit) Hl). cbn [andb].
    destruct (Z.ltb_spec limit (Z.of_nat (length cached))); [done|].
    by rewrite take_ge by lia. }
  split; [done|]. intros Hc Hf. eexists. split; [exact He|].
  rewrite length_app, length_take. destruct found; [done|]. cbn [length]. lia.
Qed.

Lemma find_peers_limit_witness :
  0 < 1 ∧ FindPeers (Ret 1) (Ret (mkGossiper 0 run.a DefaultGossipConfig)) (Ret [1; 2]) (Ret [3])
    = Ret [1; 3].
Proof.
  split; [lia|].
  apply (find_peers_limit 1 (mkGossiper 0 run.a DefaultGossipConfig) [1; 2] [3]). lia.
Defined.

(** The defaults come first, so that whatever options are given, nothing is left unset. *)
Lemma options_complete {logger datastore discovery dopt info : Type} (l : logger)
    (st : datastore) (static : list info → discovery) (opt : list (@Option logger datastore discovery dopt)) s :
  Forall (λ f, ∀ s, is_Some (s_log s) → is_Some (s_params s) → is_Some (s_store s) →
            is_Some (s_disc s) →
            is_Some (s_log (f s)) ∧ is_Some (s_params (f s)) ∧ is_Some (s_store (f s)) ∧
            is_Some (s_disc (f s))) opt →
  let s' := apply_options (withDefaults l st static opt) s in
  is_Some (s_log s') ∧ is_Some (s_params s') ∧ is_Some (s_store s') ∧ is_Some (s_disc s').
Proof.
  intros Ho. unfold withDefaults, apply_options. cbv zeta. rewrite foldl_app.
  set (s0 := foldl _ s _).
  assert (is_Some (s_log s0) ∧ is_Some (s_params s0) ∧ is_Some (s_store s0) ∧ is_Some (s_disc s0)) as H0
    by (split_and!; eexists; reflexivity).
  clearbody s0. revert s0 H0. induction Ho as [|f opt Hf Ho IH]; intros s0 (?&?&?&?); [done|].
  apply IH. by apply Hf.
Qed.

(** Namespaces that clean to the same path share one protocol id: purging one of them
    removes the stream handler that serves the other. *)
Theorem sibling_namespace_loses_handler :
  let a' := bs "a/" in
  let px := advertise_thunk run.params 1 a' (set_now (100 * second) run.s3) in
  let px' := purge (λ _, 350 * second) px in
  run.a ≠ a' ∧ proto run.a = proto a' ∧
  is_Some (advertisers px' !! a') ∧ handlers px' !! proto a' = None.
Proof. split_and!; [done|vm_compute; reflexivity|vm_compute; eauto|vm_compute; reflexivity]. Qed.

(** [Record] and [Envelope] never see a value stored after their only load. *)
Lemma atomic_wait_never_reloads {A} fuel : atomic_wait fuel (None : option A) = None.
Proof. by induction fuel. Qed.
