(* ===== verification/StaticBook.v ===== *)
(** * The static address book ([src/pkg/boot/static.go])

    [PexExchange] uses the limit, the lifetime and the filter of static addresses.  Here are
    the rest: building a book from strings, its order for [sort.Sort], and the channel its
    peers are delivered on. *)

From stdpp Require Import base list sorting.
From Stdlib Require Import ZArith Lia Sorted.
From S2P Require Import Prelude PexExchange.

Open Scope Z_scope.

(** ** Buffered channels

    A send that finds the buffer full, and a receive that finds an open channel empty, block:
    they are [None].  Sending on or closing a closed channel panics. *)
Record chan (A : Type) := mkChan { ch_buf : list A; ch_cap : nat; ch_closed : bool }.
Arguments mkChan {A} _ _ _.
Arguments ch_buf {A} _.
Arguments ch_cap {A} _.
Arguments ch_closed {A} _.

Section chan.
Context {E A : Type}.

Definition make_chan (n : nat) : chan A := mkChan [] n false.

Definition chan_send (c : chan A) (x : A) : outcome E (option (chan A)) :=
  if ch_closed c then Panic
  else Ret (if (length (ch_buf c) <? ch_cap c)%nat then Some (mkChan (ch_buf c ++ [x]) (ch_cap c) false) else None).

Definition chan_close (c : chan A) : outcome E (chan A) :=
  if ch_closed c then Panic else Ret (mkChan (ch_buf c) (ch_cap c) true).

Definition chan_recv (c : chan A) : option (option A * chan A) :=
  match ch_buf c with
  | x :: l => Some (Some x, mkChan l (ch_cap c) (ch_closed c))
  | [] => if ch_closed c then Some (None, c) else None
  end.

(** What [n] receives get, [None] for the end of the channel. *)
Fixpoint recvs (n : nat) (c : chan A) : option (list (option A)) :=
  match n with
  | O => Some []
  | S n' => p ← chan_recv c; l ← recvs n' p.2; Some (p.1 :: l)
  end.
End chan.

(** ** The book *)
Section book.
Context {E info : Type} (ID : info → bytes).

(** [NewStaticAddrStrings]; [parse] is [peer.AddrInfoFromString]. *)
Fixpoint NewStaticAddrStrings_loop (parse : bytes → outcome E info) (acc : list info) (ss : list bytes)
    : outcome E (list info) :=
  match ss with
  | [] => Ret acc
  | s :: ss' => i <~ parse s ;; NewStaticAddrStrings_loop parse (acc ++ [i]) ss'
  end.

Definition NewStaticAddrStrings (parse : bytes → outcome E info) (ss : list bytes) : outcome E (list info) :=
  NewStaticAddrStrings_loop parse [] ss.

(** Indexing a slice panics out of range. *)
Definition at_index (l : list info) (i : Z) : outcome E info :=
  if i <? 0 then Panic else match l !! Z.to_nat i with Some x => Ret x | None => Panic end.

Definition Static_Len (l : list info) : Z := Z.of_nat (length l).

Definition Static_Less (l : list info) (i j : Z) : outcome E bool :=
  x <~ at_index l i ;; y <~ at_index l j ;; Ret (bytes_ltb (ID x) (ID y)).

Definition Static_Swap (l : list info) (i j : Z) : outcome E (list info) :=
  y <~ at_index l j ;; x <~ at_index l i ;; Ret (<[Z.to_nat j := x]> (<[Z.to_nat i := y]> l)).

(** The calls of [Swap] a sort makes. *)
Fixpoint swaps (l : list info) (sw : list (Z * Z)) : outcome E (list info) :=
  match sw with
  | [] => Ret l
  | p :: sw' => l' <~ Static_Swap l p.1 p.2 ;; swaps l' sw'
  end.

(** No element is less than the one before it. *)
Definition in_order (l : list info) : Prop :=
  ∀ i, 0 ≤ i → i + 1 < Static_Len l → Static_Less l (i + 1) i = Ret false.

(** [staticChan]; [Ret None] would be a loop that blocks. *)
Fixpoint send_all (c : chan info) (l : list info) : outcome E (option (chan info)) :=
  match l with
  | [] => Ret (Some c)
  | x :: l' => r <~ chan_send c x ;; match r with Some c' => send_all c' l' | None => Ret None end
  end.

Definition staticChan (l : list info) : outcome E (option (chan info)) :=
  r <~ send_all (make_chan (length l)) l ;;
  match r with Some c => c' <~ chan_close c ;; Ret (Some c') | None => Ret None end.

(** ** Facts *)
Lemma at_index_Ret l i x : at_index l i = Ret x ↔ 0 ≤ i ∧ l !! Z.to_nat i = Some x.
Proof.
  unfold at_index. destruct (Z.ltb_spec i 0); [split; [done|lia]|].
  destruct (l !! Z.to_nat i); split; [by intros [= ->]|by intros [_ [= ->]]|done|by intros []].
Qed.

Lemma at_index_in l i : 0 ≤ i < Static_Len l → ∃ x, at_index l i = Ret x.
Proof.
  unfold Static_Len. intros Hi. destruct (lookup_lt_is_Some_2 l (Z.to_nat i)) as [x Hx]; [lia|].
  exists x. apply at_index_Ret. by split; [lia|].
Qed.

Lemma Static_Swap_permutes l i j l' : Static_Swap l i j = Ret l' → l' ≡ₚ l.
Proof.
  intros (y & [Hj Hy]%at_index_Ret & (x & [Hi Hx]%at_index_Ret & [= <-])%bind_Ret_inv)%bind_Ret_inv.
  by apply (Permutation_insert_swap l (Z.to_nat i) (Z.to_nat j)).
Qed.

Lemma swaps_permute sw l l' : swaps l sw = Ret l' → l' ≡ₚ l.
Proof.
  revert l. induction sw as [|[i j] sw IH]; intros l; cbn; [by intros [= ->]|].
  intros (l1 & H1%Static_Swap_permutes & ->%IH)%bind_Ret_inv. done.
Qed.

Lemma send_all_room c l :
  ch_closed c = false → (length (ch_buf c) + length l ≤ ch_cap c)%nat →
  send_all c l = Ret (Some (mkChan (ch_buf c ++ l) (ch_cap c) false)).
Proof.
  revert c. induction l as [|x l IH]; intros [b n d] Hd Hn; cbn -[Nat.ltb] in *; subst d; [by rewrite app_nil_r|].
  unfold chan_send. cbn -[Nat.ltb]. rewrite (proj2 (Nat.ltb_lt _ _)) by lia. cbn.
  rewrite IH; [|done|cbn; rewrite length_app; cbn; lia]. cbn. by rewrite <-(assoc_L (++)).
Qed.

Lemma recvs_closed n l k : recvs n (mkChan (A:=info) l k true) = Some ((Some <$> take n l) ++ replicate (n - length l) None).
Proof.
  revert l. induction n as [|n IH]; intros l; [done|]. destruct l as [|x l]; cbn; [|by rewrite IH].
  rewrite IH. cbn. by rewrite take_nil, Nat.sub_0_r.
Qed.

Lemma NewStaticAddrStrings_loop_app parse acc ss :
  NewStaticAddrStrings_loop parse acc ss = (l <~ omapM parse ss ;; Ret (acc ++ l)).
Proof.
  revert acc. induction ss as [|s ss IH]; intros acc; cbn; [by rewrite app_nil_r|].
  destruct (parse s) as [i|e|]; [|done|done]. cbn. rewrite IH. destruct (omapM parse ss); [|done|done].
  cbn. by rewrite <-(assoc_L (++)).
Qed.

Lemma in_order_sorted l : in_order l → StronglySorted (λ a b, bytes_leb a b = true) (ID <$> l).
Proof.
  intros Ho. apply Sorted_StronglySorted; [intros a b c; apply bytes_leb_trans|].
  induction l as [|x l IH]; [by constructor|]. cbn. constructor.
  - apply IH. intros i Hi Hl. specialize (Ho (i + 1) ltac:(lia) ltac:(revert Hl; unfold Static_Len; cbn; lia)).
    revert Ho. unfold Static_Less, at_index. rewrite !(proj2 (Z.ltb_ge _ _)) by lia.
    by replace (Z.to_nat (i + 1 + 1)) with (S (S (Z.to_nat i))) by lia; replace (Z.to_nat (i + 1)) with (S (Z.to_nat i)) by lia.
  - destruct l as [|y l]; cbn; constructor. specialize (Ho 0 ltac:(lia) ltac:(unfold Static_Len; cbn; lia)).
    cbn in Ho. injection Ho as Ho. unfold bytes_leb. by rewrite Ho.
Qed.
End book.

(** ** Properties *)

(** A book is built from strings exactly when all of them parse, in their order; otherwise
    the error is that of the first one that does not. *)
Theorem static_strings {E info : Type} (parse : bytes → outcome E info) (ss : list bytes) :
  (∀ l, NewStaticAddrStrings parse ss = Ret l ↔ Forall2 (λ s i, parse s = Ret i) ss l) ∧
  (∀ e, NewStaticAddrStrings parse ss = Fail e ↔
     ∃ pre s post l, ss = pre ++ s :: post ∧ NewStaticAddrStrings parse pre = Ret l ∧ parse s = Fail e).
Proof.
  assert (∀ ss, NewStaticAddrStrings parse ss = omapM parse ss) as Hm.
  { intros ss'. unfold NewStaticAddrStrings. rewrite NewStaticAddrStrings_loop_app. by destruct (omapM parse ss'). }
  split; [intros l; rewrite Hm; apply omapM_Forall2|]. intros e. rewrite Hm. split.
  - clear Hm. assert (∀ ss, omapM parse ss = Fail e → ∃ pre s post l, ss = pre ++ s :: post ∧ omapM parse pre = Ret l ∧ parse s = Fail e) as Hf.
    { induction ss0 as [|s ss' IH]; cbn; [done|]. destruct (parse s) as [i|e'|] eqn:Hs; cbn; [|intros [= ->]; by exists [], s, ss', []|done].
      destruct (omapM parse ss') as [l|e'|]; cbn; [done| |done]. intros [= ->].
      destruct (IH eq_refl) as (pre & s' & post & l & -> & Hl & He). exists (s :: pre), s', post, (i :: l). cbn. by rewrite Hs, Hl. }
    intros (pre & s & post & l & -> & Hl & He)%Hf. exists pre, s, post, l. split; [done|]. split; [|done].
    unfold NewStaticAddrStrings. rewrite NewStaticAddrStrings_loop_app, Hl. done.
  - intros (pre & s & post & l & -> & Hl & He). rewrite Hm in Hl. clear Hm.
    revert l Hl. induction pre as [|x pre IH]; intros l; cbn; [by rewrite He|].
    intros (i & -> & (l' & Hl & _)%bind_Ret_inv)%bind_Ret_inv. cbn. by rewrite (IH l' Hl).
Qed.

(** Whatever swaps a sort makes of a book, its peers stay the same, no swap within the book
    panics, and when no peer is less than the one before it the book is sorted by peer id:
    two books of the same peers that are in order list them alike. *)
Theorem static_sort {E info : Type} (ID : info → bytes) (l1 l2 l1' l2' : list info) (sw1 sw2 : list (Z * Z)) :
  l1 ≡ₚ l2 → swaps (E:=E) l1 sw1 = Ret l1' → swaps (E:=E) l2 sw2 = Ret l2' →
  l1' ≡ₚ l1 ∧ Static_Len l1' = Static_Len l1 ∧
  (∀ i j, 0 ≤ i < Static_Len l1' → 0 ≤ j < Static_Len l1' →
     is_ret (Static_Swap (E:=E) l1' i j) = true ∧ is_ret (Static_Less (E:=E) ID l1' i j) = true) ∧
  (in_order (E:=E) ID l1' → StronglySorted (λ a b, bytes_leb a b = true) (ID <$> l1') ∧
     (in_order (E:=E) ID l2' → ID <$> l1' = ID <$> l2')).
Proof.
  intros Hp H1%swaps_permute H2%swaps_permute. split; [done|]. split; [unfold Static_Len; by rewrite H1|]. split.
  - intros i j Hi Hj. destruct (at_index_in (E:=E) _ _ Hi) as [x Hx], (at_index_in (E:=E) _ _ Hj) as [y Hy].
    unfold Static_Swap, Static_Less. by rewrite Hx, Hy.
  - intros Ho1. pose proof (in_order_sorted ID l1' Ho1) as S1. split; [done|]. intros Ho2.
    apply (StronglySorted_unique_strong (λ a b, bytes_leb a b = true)); [|done|by apply (in_order_sorted (E:=E))|by rewrite H1, H2, Hp].
    intros a b _ _ Hab Hba. apply bytes_leb_lt_eq in Hab as [Hab|]; [|done]. apply bytes_leb_lt_eq in Hba as [Hba|]; [|done].
    by rewrite (bytes_ltb_asym _ _ Hab) in Hba.
Qed.

Lemma static_sort_witness :
  ∃ l, swaps (E:=unit) [[2]; [1]; [3]] [(0, 1)] = Ret l ∧ id <$> l = id <$> [[1]; [2]; [3]].
Proof.
  eexists. split; [reflexivity|].
  destruct (static_sort (E:=unit) id [[2]; [1]; [3]] [[1]; [2]; [3]] _ [[1]; [2]; [3]] [(0, 1)] [] ltac:(constructor) eq_refl eq_refl)
    as (_ & _ & _ & H).
  assert (in_order (E:=unit) id [[1]; [2]; [3]]) as Ho.
  { intros i Hi Hl. change (i + 1 < 3) in Hl. assert (i = 0 ∨ i = 1) as [-> | ->] by lia; reflexivity. }
  destruct (H Ho) as [_ H']. exact (H' Ho).
Defined.

(** The peers of a book are delivered on a channel that has room for them: filling it neither
    blocks nor panics, and who receives from it gets the first peers up to the limit, in the
    order of the book, and then the end, as often as asked. *)
Theorem static_delivers {E info : Type} (limit : Z) (l : list info) :
  ∃ found c, Static_FindPeers (Ret limit) l = Ret found ∧ staticChan (E:=E) found = Ret (Some c) ∧
    (∀ n, recvs n c = Some ((Some <$> take n found) ++ replicate (n - length found) None)) ∧
    found `prefix_of` l ∧ (0 < limit → Z.of_nat (length found) = Z.min limit (Static_Len l)) ∧ (limit ≤ 0 → found = l).
Proof.
  exists (limited limit l), (mkChan (limited limit l) (length (limited limit l)) true). split; [done|]. split.
  { unfold staticChan. rewrite send_all_room by (cbn; (done || lia)). done. }
  split; [intros n; apply recvs_closed|]. unfold limited, Static_Len.
  destruct (Z.ltb_spec 0 limit), (Z.ltb_spec limit (Z.of_nat (length l))); cbn [andb];
    try (split; [done|]; split; [lia|try done; intros; exfalso; lia]).
  split; [exists (drop (Z.to_nat limit) l); by rewrite take_drop|]. rewrite length_take. split; [lia|intros; exfalso; lia].
Qed.
