(* ===== verification/CrawlService.v ===== *)
(** * The crawler service ([src/pkg/boot/crawl/crawl.go], the senders of
    [src/pkg/boot/socket/socket.go])

    A crawler answers requests like any boot service ([handler], [Advertise]) and finds
    peers by walking a [Range]: [FindPeers] subscribes to the namespace and starts a
    goroutine that sends one request to every address the range yields ([crawl_loop]).

    [Range] is the interface of [strategy.go]; the port range and the CIDR block are its
    instances.  [visits] says what a range yields, and the service's theorems are proved
    against it. *)

From stdpp Require Import base list gmap strings sorting.
From Stdlib Require Import ZArith Lia.
From S2P Require Import Prelude Crawl BootSocket Survey.

Open Scope Z_scope.

(** ** Sending ([socket.go]) *)
Section senders.
Context {C env addr : Type} `{!Cache2Q C env} (put : bytes → sres unit).
Context (marshal : env → sres bytes) (lim : option (Z → Z)) (wait : Z → sres unit).
Context (write : bytes → addr → sres unit) (local : addr).

Definition Socket_Send (e : env) (to : addr) : sres unit := conn_Send marshal lim wait write e to.

(** An error of the cache is returned before anything is sent. *)
Definition send_loaded (r : sres env * C) (to : addr) : sres unit * C :=
  (e <~ fst r ;; Socket_Send e to, snd r).

Definition SendRequest (c : C) (seal : Packet → sres env) (to : addr) (id ns : bytes) :=
  send_loaded (LoadRequest put c seal id ns) to.

Definition SendSurveyRequest (c : C) (seal : Packet → sres env) (id ns : bytes) (dist : Z) :=
  send_loaded (LoadSurveyRequest put c seal id ns dist) local.

Definition SendResponse (c : C) (seal : Packet → sres env) (id : bytes) (addrs : list bytes)
    (to : addr) (ns : bytes) :=
  send_loaded (LoadResponse put c seal id addrs ns) to.

Definition SendSurveyResponse (c : C) (seal : Packet → sres env) (id : bytes)
    (addrs : list bytes) (ns : bytes) :=
  send_loaded (LoadResponse put c seal id addrs ns) local.

(** [Crawler.handler]: the response goes to the sender of the request. *)
Definition handler (c : C) (seal : Packet → sres env) (id : bytes) (addrs : list bytes)
    (from : addr) (ns : bytes) := SendResponse c seal id addrs from ns.
End senders.

(** ** Ranges ([strategy.go]) *)
Class Range (R : Type) := rg_Next : R → Addr → option (Crawl.res (bool * Addr * R)).

#[global] Instance PortRange_Range : Range PortRange := λ p a,
  Some (Ret (PortRange_Next p a)).

#[global] Instance CIDR_Range : Range CIDR := CIDR_Next.

(** The addresses a range fills in before [Next] first returns false. *)
Inductive visits {R} `{Range R} : R → Addr → list Addr → Prop :=
| visits_end r a a' r' : rg_Next r a = Some (Ret (false, a', r')) → visits r a []
| visits_next r a a' r' l :
    rg_Next r a = Some (Ret (true, a', r')) → visits r' a' l → visits r a (a' :: l).

(** ** [FindPeers] *)

(** What [SendRequest] returned, as the switch of the loop sees it. *)
Inductive sent := SentOk | SentCanceled | SentDeadline | SentErr (e : serror).

(** How the goroutine leaves the loop: it returns, or waits for the context or the socket
    to end.  The deferred [cancel] runs in both cases. *)
Inductive crawl_end := CReturn (s : sent) | CWait.

Section crawl.
Context {R : Type} `{Range R}.
(** [active n] is what the [n]-th check of the context and the socket finds, [send n a]
    the result of the [n]-th request. *)
Context (active : nat → bool) (send : nat → Addr → sent).

Fixpoint crawl_loop (fuel n : nat) (r : R) (a : Addr)
    : option (Crawl.res (list Addr * crawl_end)) :=
  match fuel with
  | O => None
  | S fuel' =>
      if active n then
        match rg_Next r a with
        | Some (Ret (true, a', r')) =>
            match send n a' with
            | SentOk =>
                match crawl_loop fuel' (S n) r' a' with
                | Some (Ret (l, e)) => Some (Ret (a' :: l, e))
                | o => o
                end
            | s => Some (Ret ([a'], CReturn s))
            end
        | Some (Ret (false, _, _)) => Some (Ret ([], CWait))
        | Some (Fail e) => Some (Fail e)
        | Some Panic => Some Panic
        | None => None
        end
      else Some (Ret ([], CWait))
  end.
End crawl.

(** [FindPeers] up to the start of the goroutine: the new iterator and the channel.  [iter]
    is the strategy, which returns a value beside its error. *)
Definition FindPeers {R} (apply : Options → sres Options) (iter : sres (R * option serror))
    (s : Socket) (ns : bytes) : sres (R * option nat) * Socket :=
  match apply (mkOptions 0 0 None) with
  | Ret o =>
      match iter with
      | Ret (_, Some e) => (Fail e, s)
      | Ret (r, None) =>
          let p := Subscribe s ns (o_Limit o) in (Ret (r, fst p), snd p)
      | Fail e => (Fail e, s)
      | Panic => (Panic, s)
      end
  | Fail e => (Fail e, s)
  | Panic => (Panic, s)
  end.

(** [Crawler.Advertise] is that of the surveyor: the addresses are checked, the options
    applied, and the namespace tracked. *)
Definition Crawler_Advertise (addrs : list bytes) (apply : Options → sres Options)
    (s : Socket) (ns : bytes) : sres Z * Socket :=
  if (length addrs =? 0)%nat then (Fail (ErrExternal 10), s)
  else match apply (mkOptions TempAddrTTL 0 None) with
       | Ret o => match Track s ns (o_Ttl o) with
                  | Ret s' => (Ret (o_Ttl o), s')
                  | Fail e => (Fail e, s)
                  | Panic => (Panic, s)
                  end
       | Fail e => (Fail e, s)
       | Panic => (Panic, s)
       end.

(** ** Facts *)
Section crawl_facts.
Context {R : Type} `{Range R}.
Context (active : nat → bool) (send : nat → Addr → sent).

(** The number of requests sent before the loop ends: up to the first inactive check, or
    up to and including the first request that fails. *)
Fixpoint reach (n : nat) (l : list Addr) : list Addr * crawl_end :=
  if active n then
    match l with
    | [] => ([], CWait)
    | a :: l' =>
        match send n a with
        | SentOk => let p := reach (S n) l' in (a :: fst p, snd p)
        | s => ([a], CReturn s)
        end
    end
  else ([], CWait).

Lemma crawl_loop_reach r a l n fuel :
  visits r a l → (length l < fuel)%nat →
  crawl_loop active send fuel n r a = Some (Ret (reach n l)).
Proof.
  intros Hv. revert n fuel. induction Hv as [r a a' r' Hn|r a a' r' l Hn Hv IH]; intros n fuel Hf;
    (destruct fuel as [|fuel]; [cbn in Hf; lia|]); cbn [crawl_loop reach]; rewrite Hn.
  - by destruct (active n).
  - destruct (active n); [|done]. destruct (send n a'); try done.
    rewrite IH by (cbn in Hf; lia). by destruct (reach (S n) l).
Qed.

Lemma reach_prefix n l : fst (reach n l) `prefix_of` l.
Proof.
  revert n. induction l as [|a l IH]; intros n; cbn; destruct (active n); try done;
    try apply prefix_nil.
  destruct (send n a); cbn; [by apply prefix_cons|by apply prefix_cons, prefix_nil..].
Qed.

Lemma reach_all n l :
  (∀ k, active k = true) → (∀ k a, send k a = SentOk) → reach n l = (l, CWait).
Proof.
  intros Ha Hs. revert n. induction l as [|a l IH]; intros n; cbn; rewrite Ha; [done|].
  by rewrite Hs, IH.
Qed.

Lemma reach_return n l s :
  snd (reach n l) = CReturn s →
  s ≠ SentOk ∧ ∃ pre a, fst (reach n l) = pre ++ [a] ∧ send (n + length pre) a = s ∧
    ∀ k b, pre !! k = Some b → send (n + k) b = SentOk.
Proof.
  revert n. induction l as [|a l IH]; intros n; cbn; destruct (active n); try done.
  destruct (send n a) eqn:Hs; cbn; intros He;
    try (injection He as <-; split; [done|]; exists [], a; rewrite Nat.add_0_r; by split_and!).
  destruct (IH _ He) as (Hne & pre & b & -> & Hb & Hp). split; [done|].
  exists (a :: pre), b. split_and!; [done|cbn [length]; by rewrite Nat.add_succ_r|].
  intros [|k] c Hk; cbn in Hk; [simplify_eq; by rewrite Nat.add_0_r|].
  rewrite Nat.add_succ_r. by apply Hp.
Qed.
End crawl_facts.

(** ** The two ranges *)

(** A block's walk: the addresses carry the block's port and the visited hosts. *)
Lemma skip_loop_port fuel c n ip c' ip' :
  skip_loop fuel c n ip = Some (Ret (c', ip')) → cPort c' = cPort c.
Proof.
  revert c ip. induction fuel as [|fuel IH]; intros c ip; [done|]. cbn.
  destruct (skip c n ip) as [[[] ip1]| |]; try done.
  - intros Hs. by rewrite (IH _ _ Hs).
  - by intros [= -> ->].
Qed.

Lemma CIDR_Next_port c a ok a' c' :
  CIDR_Next c (UDPAddr a) = Some (Ret (ok, a', c')) →
  cPort c' = cPort c ∧ ∃ k, a' = UDPAddr k ∧ aPort k = cPort c.
Proof.
  cbn. unfold cidr_bind, deref_net. destruct (cNet c) as [n|]; [|done].
  destruct (nextIP c n (aIP a)) as [[[c1 ip1]| |]|] eqn:Hn; try done. cbn.
  destruct (more c1) as [b| |]; try done. cbn. intros [= <- <- <-].
  split; [|by eexists]. unfold nextIP in Hn. destruct (ensureIP n (aIP a)) as [ip| |]; try done.
  destruct (slen (cip c) =? 0)%nat.
  - destruct (reslice (cip c) (slen ip)) as [ip2| |]; try done. by apply skip_loop_port in Hn.
  - by apply skip_loop_port in Hn.
Qed.

Lemma cidr_loop_visits fuel c a l :
  cidr_loop fuel c (UDPAddr a) = Some (Ret l) →
  ∃ addrs, visits c (UDPAddr a) addrs ∧ addr_ip <$> addrs = l ∧
    Forall (λ x, ∃ k, x = UDPAddr k ∧ aPort k = cPort c) addrs.
Proof.
  revert c a l. induction fuel as [|fuel IH]; intros c a l; [done|]. cbn [cidr_loop].
  destruct (CIDR_Next c (UDPAddr a)) as [[[[ok a'] c']| |]|] eqn:Hn; try done.
  destruct (CIDR_Next_port _ _ _ _ _ Hn) as (Hp & k & -> & Hk). destruct ok.
  - destruct (cidr_loop fuel c' (UDPAddr k)) as [[l'| |]|] eqn:Hl; try done. intros [= <-].
    destruct (IH _ _ _ Hl) as (addrs & Hv & Hi & Hf). exists (UDPAddr k :: addrs).
    split_and!; [by eapply visits_next|by rewrite fmap_cons, Hi|].
    constructor; [by exists k|]. by rewrite <- Hp.
  - intros [= <-]. exists []. split_and!; [by eapply visits_end|done|constructor].
Qed.

Lemma port_loop_visits fuel p a l :
  port_loop fuel p (UDPAddr a) = Some l →
  ∃ addrs, visits p (UDPAddr a) addrs ∧ addr_port <$> addrs = l ∧
    Forall (λ x, addr_ip x = prIP p) addrs.
Proof.
  revert p a l. induction fuel as [|fuel IH]; intros p a l; [done|]. cbn [port_loop].
  destruct (PortRange_Next p (UDPAddr a)) as [[ok a'] p'] eqn:Hn.
  assert (prIP p' = prIP p ∧ ∃ k, a' = UDPAddr k ∧ contents (aIP k) = prIP p) as (Hp & k & -> & Hk).
  { cbn in Hn. destruct (nextPort p) as [[port ok'] p1] eqn:Hnp. simplify_eq.
    unfold nextPort in Hnp. split; [by destruct (_ && _); simplify_eq|].
    eexists. split; [done|]. unfold contents. cbn. by rewrite take_ge. }
  destruct ok.
  - destruct (port_loop fuel p' (UDPAddr k)) as [l'|] eqn:Hl; [|done]. cbn. intros [= <-].
    destruct (IH _ _ _ Hl) as (addrs & Hv & Hi & Hf). exists (UDPAddr k :: addrs).
    split_and!; [eapply visits_next; [|exact Hv]; unfold rg_Next, PortRange_Range; by rewrite Hn
                |by rewrite fmap_cons, Hi|].
    constructor; [done|]. by rewrite <- Hp.
  - intros [= <-]. exists []. split_and!; [|done|constructor]. eapply visits_end.
    unfold rg_Next, PortRange_Range. by rewrite Hn.
Qed.

Lemma NewCIDR_port rnd parsed port c e : NewCIDR rnd parsed port = Ret (c, e) → cPort c = port.
Proof.
  unfold NewCIDR, CIDR_Reset. intros (c2 & H2 & [= <- <-])%bind_Ret_inv.
  apply bind_Ret_inv in H2 as (c1 & H1 & H2).
  assert (cPort c1 = port) as <-.
  { unfold setBroadcast in H1. apply bind_Ret_inv in H1 as (n & _ & H1).
    apply bind_Ret_inv in H1 as (b & _ & H1). apply bind_Ret_inv in H1 as (r & _ & [= <-]). done. }
  unfold setRandomMask in H2. apply bind_Ret_inv in H2 as (n & _ & H2).
  apply bind_Ret_inv in H2 as (m & _ & H2). by apply bind_Ret_inv in H2 as (r & _ & [= <-]).
Qed.

(** The strategies of [strategy.go] as [FindPeers] sees them: the error of the package is
    an error of the service. *)
Definition lift_err (e : Crawl.error) : serror := ErrExternal 30.
Definition strategy {R} (r : Crawl.res (R * option Crawl.error)) : sres (R * option serror) :=
  match r with
  | Ret (x, e) => Ret (x, lift_err <$> e)
  | Fail e => Fail (lift_err e)
  | Panic => Panic
  end.

Lemma Subscribe_live s ns limit :
  s_done s = false →
  ∃ ch s' k, Subscribe s ns limit = (Some ch, s') ∧ s_chans s' !! ch = Some k ∧
    ch_ns k = ns ∧ ch_phase k = Live.
Proof.
  intros Hd. unfold Subscribe. rewrite Hd.
  destruct (match s_subs s !! ns with Some sid => _ | None => _ end) as [[sid subs] sets].
  eexists _, _, _. split_and!; [reflexivity|by apply list_lookup_middle|done|done].
Qed.

(** ** Properties *)

(** C16. Finding peers in a CIDR block: [FindPeers] on an open socket returns a live
    subscription to the namespace, and its goroutine walks the block's hosts in some order
    without repetition, sending every request to the block's port.  When the search stays
    active and no request fails, every host gets exactly one request and the goroutine
    then waits; when a request fails, it is the last one, and all before it succeeded; in
    every case the hosts reached are the first of that order, and the walk ends. *)
Theorem crawl_covers_block rnd w N h port apply o s ns :
  block_ok w N h → s_done s = false → apply (mkOptions 0 0 None) = Ret o →
  ∃ c ch s' order,
    FindPeers apply (strategy (NewCIDR rnd (Some (block_net w N h)) port)) s ns
      = (Ret (c, Some ch), s') ∧
    (∃ k, s_chans s' !! ch = Some k ∧ ch_ns k = ns ∧ ch_phase k = Live) ∧
    addr_ip <$> order ≡ₚ block_hosts w N h ∧ Forall (λ a, addr_port a = port) order ∧
    ∀ active send fuel, (Z.to_nat (2 ^ h) < fuel)%nat →
      ∃ l e, crawl_loop active send fuel 0 c (UDPAddr zero_addr) = Some (Ret (l, e)) ∧
        l `prefix_of` order ∧
        ((∀ k, active k = true) → (∀ k a, send k a = SentOk) → l = order ∧ e = CWait) ∧
        (∀ x, e = CReturn x → x ≠ SentOk ∧ ∃ pre a, l = pre ++ [a] ∧ send (length pre) a = x ∧
           ∀ k b, pre !! k = Some b → send k b = SentOk).
Proof.
  intros Hok Hd Ho.
  destruct (cidr_visits_hosts_once rnd w N h port zero_addr Hok) as (c & l & Hn & Hl & Hloop).
  destruct (cidr_loop_visits _ _ _ _ (Hloop (S (Z.to_nat (2 ^ h))) ltac:(lia)))
    as (order & Hv & Hi & Hf).
  unfold FindPeers. rewrite Ho, Hn. cbn [strategy fmap option_fmap option_map].
  destruct (Subscribe_live s ns (o_Limit o) Hd) as (ch & s' & kc & -> & Hkc).
  exists c, ch, s', order. split_and!; [done|by exists kc| | |].
  - by rewrite Hi.
  - eapply Forall_impl; [exact Hf|]. intros a (k & -> & Hk). cbn.
    by rewrite Hk, (NewCIDR_port _ _ _ _ _ Hn).
  - intros active send fuel Hfuel. destruct (reach active send 0 order) as [l' e] eqn:Hr.
    exists l', e. split_and!.
    + rewrite (crawl_loop_reach _ _ _ _ order), Hr; [done|done|].
      apply (f_equal length) in Hi. rewrite length_fmap in Hi. apply Permutation_length in Hl.
      unfold block_hosts in Hl. rewrite length_fmap, length_seqZ in Hl.
      pose proof (SZ_pos w N h Hok). lia.
    + pose proof (reach_prefix active send 0 order) as Hp. by rewrite Hr in Hp.
    + intros Ha Hs. rewrite (reach_all active send) in Hr by done. by simplify_eq.
    + intros x ->. destruct (reach_return active send 0 order x) as (Hx & pre & a & He & Ha & Hp);
        [by rewrite Hr|]. rewrite Hr in He. split; [done|]. by exists pre, a.
Qed.

(** A /29 block; the third request fails. *)
Lemma crawl_covers_block_witness :
  let N := be_decode [10; 0; 0; 248] in
  ∃ c ch s' order,
    FindPeers (λ o, Ret o) (strategy (NewCIDR (λ i, 41 * Z.of_nat i) (Some (block_net 4 N 3)) 8822))
      (New 0) (bs "ns") = (Ret (c, Some ch), s') ∧
    addr_ip <$> order ≡ₚ block_hosts 4 N 3 ∧ Forall (λ a, addr_port a = 8822) order ∧
    ∃ l e, crawl_loop (λ _, true) (λ k _, if (k =? 2)%nat then SentDeadline else SentOk) 9 0 c
             (UDPAddr zero_addr) = Some (Ret (l, e)) ∧ l `prefix_of` order.
Proof.
  intros N.
  assert (block_ok 4 N 3) as Hok.
  { split_and!; [by left|lia|lia|vm_compute; done..]. }
  destruct (crawl_covers_block (λ i, 41 * Z.of_nat i) 4 N 3 8822 (λ o, Ret o) (mkOptions 0 0 None)
              (New 0) (bs "ns") Hok eq_refl eq_refl) as (c & ch & s' & order & Hf & _ & Hp & Hq & Hl).
  exists c, ch, s', order. split; [exact Hf|]. split; [exact Hp|]. split; [exact Hq|].
  destruct (Hl (λ _, true) (λ k _, if (k =? 2)%nat then SentDeadline else SentOk) 9%nat)
    as (l & e & H1 & H2 & _).
  - vm_compute. lia.
  - by exists l, e.
Defined.

(** An address that [net.ParseCIDR] rejects makes the search panic instead of failing. *)
Lemma crawl_bad_block_panics rnd port apply o s ns :
  apply (mkOptions 0 0 None) = Ret o →
  FindPeers apply (strategy (NewCIDR rnd None port)) s ns = (Panic, s).
Proof. intros Ho. unfold FindPeers. by rewrite Ho. Qed.
