(* ===== verification/BootUtil.v ===== *)
(** * Choosing a boot service ([src/pkg/boot/util/util.go], [src/pkg/boot/namespace.go],
    [ParseCIDR] of [src/pkg/boot/crawl/strategy.go])

    A boot service is named by a multiaddr.  [Dial] and [Listen] look at the protocols of
    its components and build a static address book, a crawler or a surveyor.  A multiaddr
    is the list of its components; parsing it, resolving it to dial arguments and opening
    sockets are library and operating-system calls, taken as arguments.  The parsers of
    the standard library that decide what is dialled ([net.SplitHostPort],
    [strconv.Atoi]) are modelled. *)

From stdpp Require Import base list gmap strings sorting.
From Stdlib Require Import ZArith Lia Permutation.
From S2P Require Import Prelude Crawl BootSocket Survey CrawlService.

Open Scope Z_scope.

Record Component := mkComp { c_code : Z; c_value : bytes }.
Abbreviation Multiaddr := (list Component).

(** The codes of the multiaddr library. *)
Class Codes := { P_IP4 : Z; P_IP6 : Z; P_UDP : Z; P_P2P : Z }.

Definition P_MULTICAST : Z := 100.
Definition P_SURVEY : Z := 101.
Definition P_CIDR : Z := 103.

Definition hasBootProto (maddr : Multiaddr) (code : Z) : bool :=
  existsb (λ c, c_code c =? code) maddr.

(** [maddr.ValueForProtocol(code)]: the value of the first such component. *)
Fixpoint ValueForProtocol (maddr : Multiaddr) (code : Z) : sres bytes :=
  match maddr with
  | [] => Fail (ErrExternal 40)
  | c :: maddr' => if c_code c =? code then Ret (c_value c) else ValueForProtocol maddr' code
  end.

Section kinds.
Context `{Codes}.

Definition IsP2P (maddr : Multiaddr) : bool := hasBootProto maddr P_P2P.
Definition IsCIDR (maddr : Multiaddr) : bool := hasBootProto maddr P_CIDR.
Definition IsMulticast (maddr : Multiaddr) : bool := hasBootProto maddr P_MULTICAST.
Definition IsSurvey (maddr : Multiaddr) : bool := hasBootProto maddr P_SURVEY.

Definition IsPortRange (maddr : Multiaddr) : bool :=
  let n := length maddr in
  if (2 <? n)%nat then false
  else (hasBootProto maddr P_IP4 || hasBootProto maddr P_IP6) && hasBootProto maddr P_UDP.
End kinds.

(** ** [net.SplitHostPort] and [strconv.Atoi] *)
Definition colon : Z := 58.
Definition lbracket : Z := 91.
Definition rbracket : Z := 93.

Fixpoint index_byte (c : Z) (s : bytes) : option nat :=
  match s with
  | [] => None
  | x :: s' => if x =? c then Some O else S <$> index_byte c s'
  end.

Definition last_index_byte (c : Z) (s : bytes) : option nat :=
  i ← index_byte c (rev s); Some (length s - S i)%nat.

Inductive split_err := MissingPort | TooManyColons | MissingBracket | UnexpectedBracket.

Definition SplitHostPort (s : bytes) : outcome split_err (bytes * bytes) :=
  match last_index_byte colon s with
  | None => Fail MissingPort
  | Some i =>
      let finish (host : bytes) (j k : nat) : outcome split_err (bytes * bytes) :=
        match index_byte lbracket (drop j s), index_byte rbracket (drop k s) with
        | None, None => Ret (host, drop (S i) s)
        | _, _ => Fail UnexpectedBracket
        end in
      if bool_decide (head s = Some lbracket) then
        match index_byte rbracket s with
        | None => Fail MissingBracket
        | Some e =>
            if (S e =? length s)%nat then Fail MissingPort
            else if (S e =? i)%nat then finish (drop 1 (take e s)) 1%nat (S e)
            else if bool_decide (s !! S e = Some colon) then Fail TooManyColons
            else Fail MissingPort
        end
      else
        match index_byte colon (take i s) with
        | Some _ => Fail TooManyColons
        | None => finish (take i s) O O
        end
  end.

(** A decimal number of any length. *)
Fixpoint decimal (acc : Z) (s : bytes) : option Z :=
  match s with
  | [] => Some acc
  | c :: s' => if is_digit c then decimal (10 * acc + (c - 48)) s' else None
  end.

(** [strconv.Atoi]: an optional sign and at least one digit, in the range of an [int]. *)
Definition Atoi (s : bytes) : option Z :=
  let '(sg, ds) := match s with
                   | c :: s' => if c =? 45 then (-1, s') else if c =? 43 then (1, s') else (1, s)
                   | [] => (1, s)
                   end in
  match ds with
  | [] => None
  | _ => n ← decimal 0 ds;
         if (- 2 ^ 63 <=? sg * n) && (sg * n <? 2 ^ 63) then Some (sg * n) else None
  end.

(** ** Services *)
Inductive Strategy := SCIDR (cidr : bytes) (port : Z) | SPorts (r : PortRange).

Inductive packet_conn := ConnAny (network : bytes) | ConnPort (network port : bytes).

Inductive Service (info sock : Type) :=
| StaticAddrs (l : list info)
| Crawler (s : Strategy) (conn : packet_conn)
| PlainSurveyor (s : sock)
| Gradual (s : sock).
Arguments StaticAddrs {info sock} l.
Arguments Crawler {info sock} s conn.
Arguments PlainSurveyor {info sock} s.
Arguments Gradual {info sock} s.

Definition ErrUnknownBootProto : serror := ErrExternal 41.

Section util.
Context `{Codes} {info sock : Type}.
(** [manet.DialArgs], [peer.AddrInfosFromP2pAddrs], [net.ParseIP] and opening a packet
    connection; the calls behind a multicast connection, and the surveyor started on it. *)
Context (dial_args : Multiaddr → sres (bytes * bytes)).
Context (addr_infos : Multiaddr → sres (list info)).
Context (parse_ip : bytes → option bytes).
Context (listen_packet : packet_conn → sres unit).
Context {udp conn : Type} (resolve_udp : bytes → bytes → sres udp).
Context (by_name : bytes → sres Interface) (is_multicast is_v4 : udp → bool).
Context (listen_udp : udp → sres conn) (join4 join6 : udp * Interface → conn → sres conn).
Context (newSurveyor : conn → sock).
Context (new_multiaddr : bytes → sres Multiaddr).

Definition split (addr : bytes) : sres (bytes * bytes) :=
  match SplitHostPort addr with Ret p => Ret p | _ => Fail (ErrExternal 42) end.

Definition dial (maddr : Multiaddr) : sres packet_conn :=
  p <~ dial_args maddr ;;
  let conn := ConnAny (fst p) in _ <~ listen_packet conn ;; Ret conn.

Definition listen (maddr : Multiaddr) : sres packet_conn :=
  p <~ dial_args maddr ;;
  q <~ split (snd p) ;;
  let conn := ConnPort (fst p) (snd q) in _ <~ listen_packet conn ;; Ret conn.

Definition factory_New (s : Strategy) (newConn : Multiaddr → sres packet_conn)
    (maddr : Multiaddr) : sres (Service info sock) :=
  conn <~ newConn maddr ;; Ret (Crawler s conn).

Definition atoi (s : bytes) : sres Z :=
  match Atoi s with Some n => Ret n | None => Fail (ErrExternal 43) end.

Definition ParseCIDR (maddr : Multiaddr) : sres Strategy :=
  p <~ dial_args maddr ;;
  q <~ split (snd p) ;;
  port <~ atoi (snd q) ;;
  ones <~ ValueForProtocol maddr P_CIDR ;;
  Ret (SCIDR (fst q ++ bs "/" ++ ones) port).

Definition newCIDRCrawler (maddr : Multiaddr) (newConn : Multiaddr → sres packet_conn)
    : sres (Service info sock) :=
  s <~ ParseCIDR maddr ;; factory_New s newConn maddr.

Definition DialCIDR (maddr : Multiaddr) := newCIDRCrawler maddr dial.
Definition ListenCIDR (maddr : Multiaddr) := newCIDRCrawler maddr listen.

Definition DialMulticast (maddr : Multiaddr) : sres sock :=
  g <~ ResolveMulticast (dial_args maddr) resolve_udp
         (ResolveMulticastInterface (ValueForProtocol maddr P_MULTICAST) by_name) ;;
  c <~ JoinMulticastGroup (is_multicast (fst g)) (is_v4 (fst g)) (listen_udp (fst g))
         (join4 g) (join6 g) ;;
  Ret (newSurveyor c).

Definition DialPortRange (maddr : Multiaddr) : sres (Service info sock) :=
  p <~ dial_args maddr ;;
  q <~ split (snd p) ;;
  match parse_ip (fst q) with
  | None => Fail (ErrExternal 44)
  | Some ip =>
      port <~ atoi (snd q) ;;
      factory_New (SPorts (NewPortRange ip port port)) dial maddr
  end.

Definition NewStaticAddrs (maddr : Multiaddr) : sres (Service info sock) :=
  l <~ addr_infos maddr ;; Ret (StaticAddrs l).

(** The multicast case of both functions. *)
Definition surveyor (maddr : Multiaddr) : sres (Service info sock) :=
  s <~ DialMulticast maddr ;;
  if IsSurvey maddr then Ret (Gradual s) else Ret (PlainSurveyor s).

Definition Dial (maddr : Multiaddr) : sres (Service info sock) :=
  if IsP2P maddr then NewStaticAddrs maddr
  else if IsCIDR maddr then DialCIDR maddr
  else if IsMulticast maddr then surveyor maddr
  else if IsPortRange maddr then DialPortRange maddr
  else Fail ErrUnknownBootProto.

Definition Listen (maddr : Multiaddr) : sres (Service info sock) :=
  if IsCIDR maddr then ListenCIDR maddr
  else if IsMulticast maddr then surveyor maddr
  else Fail ErrUnknownBootProto.

Definition DialString (s : bytes) : sres (Service info sock) := maddr <~ new_multiaddr s ;; Dial maddr.
Definition ListenString (s : bytes) : sres (Service info sock) := maddr <~ new_multiaddr s ;; Listen maddr.
End util.

(** ** Namespaces ([namespace.go]) *)
Record Discovery (P : Type) := mkDiscovery {
  d_Advertise : bytes → sres Z; d_FindPeers : bytes → sres P }.
Arguments mkDiscovery {P} _ _.
Arguments d_Advertise {P} _ _.
Arguments d_FindPeers {P} _ _.

Record Namespace (P : Type) := mkNamespace {
  ns_Match : bytes → bool; Target : Discovery P; Default : Discovery P }.
Arguments mkNamespace {P} _ _ _.
Arguments ns_Match {P} _ _.
Arguments Target {P} _.
Arguments Default {P} _.

Definition Namespace_Advertise {P} (n : Namespace P) (ns : bytes) : sres Z :=
  if ns_Match n ns then d_Advertise (Target n) ns else d_Advertise (Default n) ns.

Definition Namespace_FindPeers {P} (n : Namespace P) (ns : bytes) : sres P :=
  if ns_Match n ns then d_FindPeers (Target n) ns else d_FindPeers (Default n) ns.

(** A namespace is itself a discovery service, so that namespaces nest. *)
Definition Namespace_Discovery {P} (n : Namespace P) : Discovery P :=
  mkDiscovery (Namespace_Advertise n) (Namespace_FindPeers n).

(** ** Facts *)
Lemma hasBootProto_true maddr code :
  hasBootProto maddr code = true ↔ code ∈ c_code <$> maddr.
Proof.
  unfold hasBootProto. rewrite existsb_exists, list_elem_of_fmap.
  split; intros (x & H1 & H2); exists x.
  - apply Z.eqb_eq in H2. by rewrite list_elem_of_In.
  - by rewrite Z.eqb_eq, <- list_elem_of_In.
Qed.

(** The kind of service an outcome belongs to; [None] for an unknown boot protocol. *)
Inductive kind := KStatic | KCIDR | KSurvey | KGradual | KPorts.
#[global] Instance kind_eq_dec : EqDecision kind.
Proof. solve_decision. Defined.

Definition service_kind {info sock} (s : Service info sock) : kind :=
  match s with
  | StaticAddrs _ => KStatic
  | Crawler (SCIDR _ _) _ => KCIDR
  | Crawler (SPorts _) _ => KPorts
  | PlainSurveyor _ => KSurvey
  | Gradual _ => KGradual
  end.

(** The protocols of a boot address, as a set: what the choice depends on. *)
Definition dial_kind `{Codes} (protos : gset Z) (n : nat) : option kind :=
  if decide (P_P2P ∈ protos) then Some KStatic
  else if decide (P_CIDR ∈ protos) then Some KCIDR
  else if decide (P_MULTICAST ∈ protos) then
    Some (if decide (P_SURVEY ∈ protos) then KGradual else KSurvey)
  else if decide ((n ≤ 2)%nat ∧ P_UDP ∈ protos ∧ (P_IP4 ∈ protos ∨ P_IP6 ∈ protos))
  then Some KPorts else None.

Definition listen_kind (protos : gset Z) : option kind :=
  if decide (P_CIDR ∈ protos) then Some KCIDR
  else if decide (P_MULTICAST ∈ protos) then
    Some (if decide (P_SURVEY ∈ protos) then KGradual else KSurvey)
  else None.

Definition protos (maddr : Multiaddr) : gset Z := list_to_set (c_code <$> maddr).

#[global] Instance protos_perm : Proper ((≡ₚ) ==> (=)) protos.
Proof. intros m m' Hp. unfold protos. by rewrite Hp. Qed.

Lemma hasBootProto_decide maddr code :
  hasBootProto maddr code = bool_decide (code ∈ protos maddr).
Proof.
  apply eq_true_iff_eq. rewrite bool_decide_eq_true, hasBootProto_true.
  unfold protos. by rewrite elem_of_list_to_set.
Qed.

Lemma IsPortRange_decide `{Codes} maddr :
  IsPortRange maddr = bool_decide ((length maddr ≤ 2)%nat ∧ P_UDP ∈ protos maddr ∧
                        (P_IP4 ∈ protos maddr ∨ P_IP6 ∈ protos maddr)).
Proof.
  unfold IsPortRange. rewrite !hasBootProto_decide. apply eq_true_iff_eq.
  rewrite bool_decide_eq_true. destruct (Nat.ltb_spec 2 (length maddr)).
  - split; [done|]. intros []. lia.
  - rewrite andb_true_iff, orb_true_iff, !bool_decide_eq_true.
    split; [intros []; split_and!; [lia|done..]|by intros (_ & ? & ?)].
Qed.

Lemma if_bool_decide {A} (P : Prop) {dec : Decision P} (x y : A) :
  (if bool_decide P then x else y) = if decide P then x else y.
Proof. unfold bool_decide, decide. by destruct dec. Qed.

Section util_facts.
Context `{Codes} {info sock udp conn : Type}.
Context (dial_args : Multiaddr → sres (bytes * bytes)) (addr_infos : Multiaddr → sres (list info)).
Context (parse_ip : bytes → option bytes) (listen_packet : packet_conn → sres unit).
Context (resolve_udp : bytes → bytes → sres udp) (by_name : bytes → sres Interface).
Context (is_multicast is_v4 : udp → bool) (listen_udp : udp → sres conn).
Context (join4 join6 : udp * Interface → conn → sres conn) (newSurveyor : conn → sock).

Abbreviation surveyor' := (surveyor (info := info) dial_args resolve_udp by_name is_multicast is_v4
                             listen_udp join4 join6 newSurveyor).
Abbreviation Dial' := (Dial dial_args addr_infos parse_ip listen_packet resolve_udp by_name
                         is_multicast is_v4 listen_udp join4 join6 newSurveyor).
Abbreviation Listen' := (Listen (info := info) dial_args listen_packet resolve_udp by_name
                           is_multicast is_v4 listen_udp join4 join6 newSurveyor).

Lemma crawler_kind s nc maddr svc :
  factory_New (info := info) (sock := sock) s nc maddr = Ret svc → ∃ c, svc = Crawler s c.
Proof. intros (c & _ & [= <-])%bind_Ret_inv. by exists c. Qed.

Lemma cidr_kind maddr nc svc :
  newCIDRCrawler (info := info) (sock := sock) dial_args maddr nc = Ret svc →
  service_kind svc = KCIDR.
Proof.
  intros (s & Hs & (c & ->)%crawler_kind)%bind_Ret_inv. unfold ParseCIDR in Hs.
  apply bind_Ret_inv in Hs as (? & _ & Hs). apply bind_Ret_inv in Hs as (? & _ & Hs).
  apply bind_Ret_inv in Hs as (? & _ & Hs). by apply bind_Ret_inv in Hs as (? & _ & [= <-]).
Qed.

Lemma surveyor_kind maddr svc :
  surveyor' maddr = Ret svc →
  service_kind svc = if decide (P_SURVEY ∈ protos maddr) then KGradual else KSurvey.
Proof.
  intros (s & _ & Hs)%bind_Ret_inv. unfold IsSurvey in Hs. rewrite hasBootProto_decide in Hs.
  revert Hs. rewrite if_bool_decide. case_decide; by intros [= <-].
Qed.

Lemma ports_kind maddr svc :
  DialPortRange (info := info) (sock := sock) dial_args parse_ip listen_packet maddr = Ret svc →
  service_kind svc = KPorts.
Proof.
  intros (p & _ & (q & _ & Hq)%bind_Ret_inv)%bind_Ret_inv. destruct (parse_ip (fst q)); [|done].
  by apply bind_Ret_inv in Hq as (port & _ & (c & ->)%crawler_kind).
Qed.

(** Branching on a protocol is branching on the set. *)
Lemma if_proto {A} maddr code (x y : A) :
  (if hasBootProto maddr code then x else y) = if decide (code ∈ protos maddr) then x else y.
Proof. by rewrite hasBootProto_decide, if_bool_decide. Qed.

Lemma Dial_unfold maddr :
  Dial' maddr =
    if decide (P_P2P ∈ protos maddr) then NewStaticAddrs addr_infos maddr
    else if decide (P_CIDR ∈ protos maddr) then DialCIDR dial_args listen_packet maddr
    else if decide (P_MULTICAST ∈ protos maddr) then surveyor' maddr
    else if decide ((length maddr ≤ 2)%nat ∧ P_UDP ∈ protos maddr ∧
                    (P_IP4 ∈ protos maddr ∨ P_IP6 ∈ protos maddr))
    then DialPortRange dial_args parse_ip listen_packet maddr
    else Fail ErrUnknownBootProto.
Proof.
  unfold Dial, IsP2P, IsCIDR, IsMulticast. by rewrite !if_proto, IsPortRange_decide, if_bool_decide.
Qed.

Lemma Listen_unfold maddr :
  Listen' maddr =
    if decide (P_CIDR ∈ protos maddr) then ListenCIDR dial_args listen_packet maddr
    else if decide (P_MULTICAST ∈ protos maddr) then surveyor' maddr
    else Fail ErrUnknownBootProto.
Proof. unfold Listen, IsCIDR, IsMulticast. by rewrite !if_proto. Qed.

(** Which service an address selects depends on the set of its protocols and on
    whether it has more than two components, not on their order: whatever [Dial] and
    [Listen] build is of the kind the set determines, an address without a boot protocol
    is refused with [ErrUnknownBootProto], and [Listen] builds the same kind of service as
    [Dial] unless the address names a peer. *)
Theorem dial_listen_agree (maddr maddr' : Multiaddr) :
  (∀ svc, Dial' maddr = Ret svc →
     dial_kind (protos maddr) (length maddr) = Some (service_kind svc)) ∧
  (∀ svc, Listen' maddr = Ret svc → listen_kind (protos maddr) = Some (service_kind svc)) ∧
  (dial_kind (protos maddr) (length maddr) = None → Dial' maddr = Fail ErrUnknownBootProto) ∧
  (listen_kind (protos maddr) = None → Listen' maddr = Fail ErrUnknownBootProto) ∧
  (∀ k, listen_kind (protos maddr) = Some k → P_P2P ∉ protos maddr →
     dial_kind (protos maddr) (length maddr) = Some k) ∧
  (maddr ≡ₚ maddr' →
     dial_kind (protos maddr) (length maddr) = dial_kind (protos maddr') (length maddr') ∧
     listen_kind (protos maddr) = listen_kind (protos maddr')).
Proof.
  rewrite Dial_unfold, Listen_unfold. unfold dial_kind, listen_kind. split_and!.
  - intros svc Hs. repeat case_decide; try done; f_equal; symmetry.
    + apply bind_Ret_inv in Hs as (l & _ & [= <-]). done.
    + by eapply cidr_kind.
    + rewrite (surveyor_kind _ _ Hs). by rewrite decide_True.
    + rewrite (surveyor_kind _ _ Hs). by rewrite decide_False.
    + by eapply ports_kind.
  - intros svc Hs. repeat case_decide; try done; f_equal; symmetry.
    + by eapply cidr_kind.
    + rewrite (surveyor_kind _ _ Hs). by rewrite decide_True.
    + rewrite (surveyor_kind _ _ Hs). by rewrite decide_False.
  - by repeat case_decide.
  - by repeat case_decide.
  - intros k Hk Hp. rewrite decide_False by done. by repeat case_decide.
  - intros Hp. by rewrite (Permutation_length Hp), (protos_perm _ _ Hp).
Qed.
End util_facts.

(** ** Host and port *)
Lemma index_byte_None c s : c ∉ s → index_byte c s = None.
Proof.
  induction s as [|x s IH]; intros Hn; [done|]. cbn. destruct (Z.eqb_spec x c); [set_solver|].
  rewrite IH; [done|set_solver].
Qed.

Lemma index_byte_app c s t : c ∉ s → index_byte c (s ++ c :: t) = Some (length s).
Proof.
  induction s as [|x s IH]; intros Hn; cbn; [by rewrite Z.eqb_refl|].
  destruct (Z.eqb_spec x c); [set_solver|]. rewrite IH; [done|set_solver].
Qed.

Lemma last_index_byte_app c s t : c ∉ t → last_index_byte c (s ++ c :: t) = Some (length s).
Proof.
  intros Hn. unfold last_index_byte.
  rewrite rev_app_distr. cbn [rev]. rewrite <- app_assoc. cbn [app].
  rewrite index_byte_app by (by rewrite list_elem_of_In, <- in_rev, <- list_elem_of_In).
  cbn. rewrite length_rev, length_app. cbn. f_equal. lia.
Qed.

(** Splitting what [net.JoinHostPort] writes: a host without colons or brackets, or any
    host without brackets between brackets. *)
Lemma SplitHostPort_plain host port :
  colon ∉ host ++ port → lbracket ∉ host ++ port → rbracket ∉ host ++ port →
  SplitHostPort (host ++ colon :: port) = Ret (host, port).
Proof.
  intros Hc Hl Hr. unfold SplitHostPort. rewrite last_index_byte_app by set_solver.
  rewrite bool_decide_false; [|destruct host as [|x host]; [done|intros [= ->]; set_solver]].
  rewrite take_app_length, index_byte_None by set_solver. rewrite !drop_0.
  assert (∀ c, c ≠ colon → c ∉ host ++ port → c ∉ host ++ colon :: port) as Hx by set_solver.
  rewrite !index_byte_None by (by apply Hx). do 2 f_equal.
  change (S (length host)) with (1 + length host)%nat. rewrite Nat.add_comm, <- drop_drop.
  by rewrite drop_app_length.
Qed.

(** A decimal number that fits an [int] is read back. *)
Lemma Atoi_digits s n :
  s ≠ [] → Forall (λ c, is_digit c = true) s → decimal 0 s = Some n → 0 ≤ n < 2 ^ 63 →
  Atoi s = Some n.
Proof.
  intros Hs Hd Hn Hr. unfold Atoi. destruct s as [|c s]; [done|].
  assert ((c =? 45) = false ∧ (c =? 43) = false) as [-> ->].
  { inversion_clear Hd. unfold is_digit in *. lia. }
  rewrite Hn. cbn [mbind option_bind]. rewrite Z.mul_1_l.
  rewrite (proj2 (Z.leb_le _ _)) by lia. by rewrite (proj2 (Z.ltb_lt _ _)) by lia.
Qed.

(** Dialling a UDP address: for the dial arguments "host:port" the crawler's range is
    walked with [FindPeers]' loop.  A port in 1..65535 gives exactly one request, to that
    host and port; port 0 gives one request to every non-reserved port of the host,
    1024..65535, in increasing order. *)
Theorem dial_udp_targets {info sock : Type} (parse_ip : bytes → option bytes)
    (listen_packet : packet_conn → sres unit) maddr network host port ip n :
  colon ∉ host ++ port → lbracket ∉ host ++ port → rbracket ∉ host ++ port →
  parse_ip host = Some ip → ip ≠ [] → port ≠ [] → Forall (λ c, is_digit c = true) port →
  decimal 0 port = Some n → 0 ≤ n < 2 ^ 16 → (∀ c, listen_packet c = Ret tt) →
  ∃ r, DialPortRange (info := info) (sock := sock) (λ _, Ret (network, host ++ colon :: port))
         parse_ip listen_packet maddr = Ret (Crawler (SPorts r) (ConnAny network)) ∧
    ∃ l, crawl_loop (λ _, true) (λ _ _, SentOk) (Z.to_nat 65537) 0 r (UDPAddr zero_addr)
           = Some (Ret (l, CWait)) ∧
      Forall (λ a, addr_ip a = ip) l ∧
      addr_port <$> l = if n =? 0 then seqZ 1024 64512 else [n].
Proof.
  intros H1 H2 H3 Hip Hip0 Hne Hdig Hn Hr Hlp. exists (NewPortRange ip n n). split.
  - unfold DialPortRange, split. cbn [bind fst snd].
    rewrite SplitHostPort_plain by done. cbn [bind fst snd]. rewrite Hip.
    unfold atoi. rewrite (Atoi_digits port n) by (done || lia). cbn [bind].
    unfold factory_New, dial. cbn [bind fst]. by rewrite Hlp.
  - pose proof (port_range_iterates ip n n zero_addr Hr Hr ltac:(lia) (Z.to_nat 65537) ltac:(lia)) as Hl.
    cbv zeta in Hl. destruct (port_loop_visits _ _ _ _ Hl) as (l & Hv & Hp & Hi).
    exists l. split_and!.
    + rewrite (crawl_loop_reach _ _ _ _ l), reach_all; [done|done|done|done|].
      apply (f_equal length) in Hp. rewrite length_fmap, length_seqZ in Hp.
      destruct (n =? 0); lia.
    + eapply Forall_impl; [exact Hi|]. intros a ->. unfold NewPortRange, PortRange_Reset. cbn.
      destruct ip; [done|]. by destruct (_ && _).
    + rewrite Hp. destruct (Z.eqb_spec n 0); [done|]. by replace (n + 1 - n) with 1 by lia.
Qed.

Lemma dial_udp_targets_witness :
  ∃ r, DialPortRange (info := unit) (sock := unit) (λ _, Ret (bs "udp4", bs "10.0.0.1" ++ colon :: bs "8822"))
         (λ _, Some [10; 0; 0; 1]) (λ _, Ret tt) [] = Ret (Crawler (SPorts r) (ConnAny (bs "udp4"))) ∧
    ∃ l, crawl_loop (λ _, true) (λ _ _, SentOk) (Z.to_nat 65537) 0 r (UDPAddr zero_addr)
           = Some (Ret (l, CWait)) ∧
      Forall (λ a, addr_ip a = [10; 0; 0; 1]) l ∧ addr_port <$> l = [8822].
Proof.
  apply (dial_udp_targets (info := unit) (sock := unit) (λ _, Some [10; 0; 0; 1]) (λ _, Ret tt) []
           (bs "udp4") (bs "10.0.0.1") (bs "8822") [10; 0; 0; 1] 8822).
  - by apply (bool_decide_unpack _); vm_compute.
  - by apply (bool_decide_unpack _); vm_compute.
  - by apply (bool_decide_unpack _); vm_compute.
  - reflexivity.
  - done.
  - done.
  - by apply (bool_decide_unpack _); vm_compute.
  - reflexivity.
  - lia.
  - done.
Defined.
