(* ===== verification/BootService.v ===== *)
(** * Boot services over their socket
    ([src/pkg/boot/socket]: options, [Bind], [serve], records; [survey.New], [crawl.New])

    [BootSocket], [Survey] and [CrawlService] model the operations; here they are put
    together: a socket with its settings, its cache and the datagrams it has sent
    ([sock]), the options in the order the constructors apply them, the serving loop over
    the datagrams that arrive, and the surveyor and the crawler as the handlers bound to it.
    The last part follows a survey from the peer that asks to the peer that answers and
    back.

    Envelopes are libp2p's [record] package: [record_Seal] and [record_open] are
    parameters, with the law that opening a sealed envelope in its domain yields the key
    and the payload. *)

From stdpp Require Import base list gmap strings.
From Stdlib Require Import ZArith Lia.
From S2P Require Import Prelude BootSocket Survey CrawlService.

Open Scope Z_scope.

(** ** Records in envelopes ([record.go]) *)
Definition EnvelopeDomain : bytes := bs "casm-boot-record".
Definition EnvelopePayloadType : bytes := [31; 0].

Section envelopes.
Context {env priv pubkey : Type}.
Context (record_Seal : bytes → bytes → bytes → priv → sres env)   (* domain, codec, payload *)
        (record_open : bytes → bytes → sres (pubkey * bytes)).    (* domain, datagram *)
Context (MarshalPacked : Packet → sres bytes) (UnmarshalPacked : bytes → sres Packet).

Definition MarshalRecord (r : Packet) : sres bytes := MarshalPacked r.

(** [UnmarshalPacked] and [ReadRootPacket]. *)
Definition UnmarshalRecord (b : bytes) : sres Packet := UnmarshalPacked b.

(** [record.Seal] of a record with a private key. *)
Definition sealer (key : priv) (r : Packet) : sres env :=
  b <~ MarshalRecord r ;; record_Seal EnvelopeDomain EnvelopePayloadType b key.

(** [record.ConsumeTypedEnvelope]. *)
Definition consume_typed (b : bytes) : sres (pubkey * Packet) :=
  p <~ record_open EnvelopeDomain b ;; r <~ UnmarshalRecord p.2 ;; Ret (p.1, r).
End envelopes.

(** ** Rate limiters ([conn.go]) *)

(** Tokens per second, the burst, and the tokens of a packet of a given size. *)
Record RateLimiter := mkLimiter { l_rate : Z; l_burst : Z; l_tokens : Z → Z }.

Definition NewRateLimiter (r burst : Z) (f : Z → Z) : RateLimiter := mkLimiter r burst f.
Definition NewBandwidthLimiter (r burst : Z) : RateLimiter := NewRateLimiter r burst bandwidth_tokens.
Definition NewPacketLimiter (r burst : Z) : RateLimiter := NewRateLimiter r burst packet_tokens.

(** ** The socket and its options *)
Record sock (C pubkey addr : Type) := mkSock {
  state : Socket;
  cache : C;
  validate : pubkey → Packet → sres unit;
  lim : option RateLimiter;
  handleError : serror → sres unit;
  outbox : list (bytes * addr) }.
Arguments mkSock {C pubkey addr}.
Arguments state {C pubkey addr}.
Arguments cache {C pubkey addr}.
Arguments validate {C pubkey addr}.
Arguments lim {C pubkey addr}.
Arguments handleError {C pubkey addr}.
Arguments outbox {C pubkey addr}.

Section service.
Context {C env pubkey priv addr : Type} `{!Cache2Q C env}.
Context (id_from_bytes : bytes → sres bytes) (multiaddr : bytes → sres bytes).
Context (matches : bytes → pubkey → bool) (consume : bytes → sres (pubkey * Packet)).
Context (marshal : env → sres bytes) (put : bytes → sres unit).
Context (wait : RateLimiter → Z → sres unit) (write : bytes → addr → sres unit).

Abbreviation sock := (sock C pubkey addr).

Definition set_state (s : Socket) (k : sock) : sock :=
  mkSock s (cache k) (validate k) (lim k) (handleError k) (outbox k).

Definition Option := sock → sock.

Definition WithValidator (v : option (pubkey → Packet → sres unit)) : Option := λ k,
  mkSock (state k) (cache k)
    (match v with Some v => v | None => BasicValidator id_from_bytes matches [] end)
    (lim k) (handleError k) (outbox k).

Definition WithErrHandler (h : option (serror → sres unit)) : Option := λ k,
  mkSock (state k) (cache k) (validate k) (lim k)
    (match h with Some h => h | None => default_handler end) (outbox k).

(** A nil cache is replaced before the option is made. *)
Definition WithCache (c : option C) : sres Option :=
  c <~ match c with Some c => Ret c | None => NewCache 8 end ;;
  Ret (λ k, mkSock (state k) c (validate k) (lim k) (handleError k) (outbox k)).

Definition WithRateLimiter (l : option RateLimiter) : Option := λ k,
  mkSock (state k) (cache k) (validate k) l (handleError k) (outbox k).

(** The defaults come first (a logger has no effect on the model). *)
Definition withDefault (opt : list Option) : sres (list Option) :=
  c <~ WithCache None ;; Ret ([c; WithValidator None; WithErrHandler None] ++ opt).

(** The zero socket holds nil fields, which the defaults replace; [zero] stands for the nil
    cache. *)
Definition socket_New (zero : C) (now : Z) (opt : list Option) : sres sock :=
  opts <~ withDefault opt ;;
  Ret (foldl (λ k f, f k)
         (mkSock (BootSocket.New now) zero (λ _ _, Panic) None (λ _, Panic) []) opts).

(** ** Sending *)

(** [Reserve] of the socket's limiter. *)
Definition limit (k : sock) (n : Z) : sres unit :=
  match lim k with None => Ret tt | Some l => Reserve (Some (l_tokens l)) (wait l) n end.

(** What [Send] puts on the wire; the cache is the one [Load] returned. *)
Definition transmit (k : sock) (r : sres env * C) (to : addr) : sres unit * sock :=
  match (e <~ r.1 ;; b <~ marshal e ;; _ <~ limit k (Z.of_nat (length b)) ;;
         _ <~ write b to ;; Ret b) with
  | Ret b => (Ret tt, mkSock (state k) r.2 (validate k) (lim k) (handleError k) (outbox k ++ [(b, to)]))
  | Fail e => (Fail e, mkSock (state k) r.2 (validate k) (lim k) (handleError k) (outbox k))
  | Panic => (Panic, mkSock (state k) r.2 (validate k) (lim k) (handleError k) (outbox k))
  end.

(** ** Serving *)

(** The cancellations that [dispatch] deferred. *)
Definition release (s : Socket) : Socket :=
  foldl (λ s id, match s_chans s !! id with
                 | Some c => match ch_phase c with Live => cancel_now s (Some id) | _ => s end
                 | None => s
                 end) (set_todo s []) (s_todo s).

(** [Socket.handle], with the handler's effect on the socket. *)
Definition handle_packet (h : sock → Packet → addr → sres unit * sock) (k : sock) (r : Packet) (from : addr)
    : sres unit * sock :=
  match handle (Response_Bind id_from_bytes multiaddr) (tracking (state k)) (λ _, Ret tt) r with
  | Ret (ADispatch info ns) =>
      match dispatch (state k) ns info with
      | Ret s => (Ret tt, set_state (release s) k)
      | Fail e => (Fail e, k)
      | Panic => (Panic, k)
      end
  | Ret AServe => h k r from
  | Ret ADrop => (Ret tt, k)
  | Fail e => (Fail e, k)
  | Panic => (Panic, k)
  end.

Inductive served := Serving | ServeEnded | ServeCrashed.

(** One iteration of [serve] on the result of a read. *)
Definition serve_once (h : sock → Packet → addr → sres unit * sock) (k : sock) (read : sres (bytes * addr))
    : served * sock :=
  let '(err, k) :=
    match Scan consume (validate k) read with
    | Ret (r, from) => handle_packet h k r from
    | Fail e => (Fail e, k)
    | Panic => (Panic, k)
    end in
  match serve_step err (s_done (state k)) with
  | Ret ServeContinue => (Serving, k)
  | Ret ServeReturn => (ServeEnded, k)
  | Ret (ServeReported e) =>
      match handleError k e with Panic => (ServeCrashed, k) | _ => (Serving, k) end
  | Ret (ServeClose e) =>
      match handleError k e with
      | Panic => (ServeCrashed, k)
      | _ => (ServeEnded, set_state (BootSocket.Close (state k)) k)
      end
  | _ => (ServeCrashed, k)
  end.

Fixpoint serve (h : sock → Packet → addr → sres unit * sock) (k : sock) (reads : list (sres (bytes * addr)))
    : served * sock :=
  match reads with
  | [] => (Serving, k)
  | read :: reads' =>
      match serve_once h k read with
      | (Serving, k) => serve h k reads'
      | r => r
      end
  end.

(** ** Hosts, the surveyor and the crawler *)
Record host := mkHost { h_ID : bytes; h_Addrs : list bytes; h_key : priv }.

Context (seal : priv → Packet → sres env).

(** [s.sealer()] and [privkey]. *)
Definition host_sealer (h : host) : Packet → sres env := seal (h_key h).

(** Both services limit packets and validate against the local peer. *)
Definition service_withDefault (rate : Z) (h : host) (opt : list Option) : list Option :=
  [WithRateLimiter (Some (NewPacketLimiter rate 8));
   WithValidator (Some (BasicValidator id_from_bytes matches (h_ID h)))] ++ opt.

Definition Surveyor_New (h : host) (zero : C) (now : Z) (opt : list Option) : sres sock :=
  socket_New zero now (service_withDefault 16 h opt).

(** The surveyor answers to the group. *)
Definition surveyor_handler (h : host) (group : addr) (k : sock) (r : Packet) (from : addr)
    : sres unit * sock :=
  match namespace r with
  | Ret ns =>
      match Survey.handler id_from_bytes (h_ID h) (λ _, Ret tt) r ns with
      | Ret _ => transmit k (LoadResponse put (cache k) (host_sealer h) (h_ID h) (h_Addrs h) ns) group
      | Fail e => (Fail e, k)
      | Panic => (Panic, k)
      end
  | Fail e => (Fail e, k)
  | Panic => (Panic, k)
  end.

(** The crawler has a higher rate, and answers to the sender. *)
Definition Crawler_New (h : host) (zero : C) (now : Z) (opt : list Option) : sres sock :=
  socket_New zero now (service_withDefault 32 h opt).

Definition crawler_handler (h : host) (k : sock) (r : Packet) (from : addr) : sres unit * sock :=
  match namespace r with
  | Ret ns => transmit k (LoadResponse put (cache k) (host_sealer h) (h_ID h) (h_Addrs h) ns) from
  | Fail e => (Fail e, k)
  | Panic => (Panic, k)
  end.

(** [Surveyor.FindPeers] on the socket: the subscription, then the request to the group. *)
Definition surveyor_FindPeers (h : host) (group : addr) (k : sock) (o : Options) (ns : bytes)
    : sres (option nat) * sock :=
  let p := Subscribe (state k) ns (o_Limit o) in
  let '(r, k) := transmit (set_state p.2 k)
    (LoadSurveyRequest put (cache k) (host_sealer h) (h_ID h) ns (distance o)) group in
  match r with
  | Ret _ => (Ret p.1, k)
  | Fail e => (Fail e, set_state (cancel_now (state k) p.1) k)
  | Panic => (Panic, k)
  end.

Definition surveyor_Close (k : sock) : sock := set_state (BootSocket.Close (state k)) k.

(** ** Facts *)

(** A handler that leaves the socket in order, as one that only sends. *)
Definition sends (h : sock → Packet → addr → sres unit * sock) : Prop :=
  ∀ k r from, state (h k r from).2 = state k.

Definition respects (h : sock → Packet → addr → sres unit * sock) : Prop := ∀ k r from,
  (s_todo (state k) = [] ∧ ∀ id c, s_chans (state k) !! id = Some c → ch_phase c ≠ Removed) →
  rtc sstep (state k) (state (h k r from).2) ∧
  (s_todo (state (h k r from).2) = [] ∧ ∀ id c, s_chans (state (h k r from).2) !! id = Some c → ch_phase c ≠ Removed).

Lemma sends_respects h : sends h → respects h.
Proof. intros Hh k r from Hq. rewrite Hh. split; [apply rtc_refl|done]. Qed.

Lemma transmit_state k r to : state (transmit k r to).2 = state k.
Proof. unfold transmit. by destruct (bind _ _). Qed.

Lemma surveyor_sends h group : sends (surveyor_handler h group).
Proof.
  intros k r from. unfold surveyor_handler. destruct (namespace r); [|done..].
  destruct (Survey.handler _ _ _ _ _); [|done..]. apply transmit_state.
Qed.

Lemma crawler_sends h : sends (crawler_handler h).
Proof. intros k r from. unfold crawler_handler. destruct (namespace r); [|done..]. apply transmit_state. Qed.

(** Between two packets nobody is in the middle of a cancellation. *)
Definition quiet (s : Socket) : Prop :=
  s_todo s = [] ∧ ∀ id c, s_chans s !! id = Some c → ch_phase c ≠ Removed.

Abbreviation release_one := (λ s id,
  match s_chans s !! id with
  | Some c => match ch_phase c with Live => cancel_now s (Some id) | _ => s end
  | None => s
  end).

Lemma release_one_todo s id l : release_one (set_todo s l) id = set_todo (release_one s id) l.
Proof.
  cbn. destruct (s_chans s !! id) as [c|]; [|done]. by destruct (ch_phase c).
Qed.

(** The cancellations of [release] are steps of the transition system. *)
Lemma release_steps s ids :
  (∀ id c, s_chans s !! id = Some c → ch_phase c ≠ Removed) →
  Forall (λ id, is_Some (s_chans s !! id)) ids →
  rtc sstep (set_todo s ids) (foldl release_one (set_todo s []) ids) ∧
  quiet (foldl release_one (set_todo s []) ids).
Proof.
  revert s. induction ids as [|id ids IH]; intros s Hq Hids; cbn [foldl].
  { split; [apply rtc_refl|]. by split. }
  inversion Hids as [|? ? [c Hc] Hids']; subst. rewrite release_one_todo.
  destruct (ch_phase c) eqn:Hph; [| by destruct (Hq _ _ Hc) |].
  - assert (release_one s id = cancel_now s (Some id)) as Hr1 by (cbn; by rewrite Hc, Hph).
    rewrite Hr1. set (s1 := cancel_now s (Some id)).
    assert (s_chans s1 = <[id := with_phase c Closed]> (s_chans s)) as Hch1.
    { unfold s1, cancel_now. rewrite Hc. cbn. by rewrite list_insert_insert_eq. }
    assert (id < length (s_chans s))%nat as Hlt by (by eapply lookup_lt_Some).
    destruct (IH s1) as [Hst Hqt].
    { intros i ci Hi. rewrite Hch1 in Hi. destruct (decide (i = id)) as [->|Hne].
      - rewrite list_lookup_insert_eq in Hi by done. by injection Hi as <-.
      - rewrite list_lookup_insert_ne in Hi by done. by eapply Hq. }
    { eapply Forall_impl; [exact Hids'|]. intros i. rewrite Hch1, !lookup_lt_is_Some.
      by rewrite length_insert. }
    split; [|done]. etrans; [|exact Hst].
    eapply rtc_l; [apply (st_cancel _ id c); [exact Hc|exact Hph]|].
    eapply rtc_l; [apply (st_close_chan _ id (with_phase c Removed)); [|done]|].
    { cbn. by rewrite list_lookup_insert_eq. }
    eapply rtc_l; [apply st_base, (st_released _ id (with_phase c Closed) ids); [done| |done]|].
    { cbn. by rewrite list_lookup_insert_eq by (rewrite length_insert; done). }
    unfold s1, cancel_now. rewrite Hc. cbn. apply rtc_refl.
  - assert (release_one s id = s) as Hr1 by (cbn; by rewrite Hc, Hph). rewrite Hr1.
    destruct (IH s Hq Hids') as [Hst Hqt]. split; [|done]. etrans; [|exact Hst].
    apply rtc_once. by apply st_base, (st_released (set_todo s (id :: ids)) id c ids).
Qed.

(** Sending keeps the phases, and the cancellations it asks for are of channels. *)
Definition same_phases (s s' : Socket) : Prop :=
  length (s_chans s') = length (s_chans s) ∧
  ∀ i c', s_chans s' !! i = Some c' → ∃ c, s_chans s !! i = Some c ∧ ch_phase c' = ch_phase c.

Definition todo_ok (s : Socket) : Prop := Forall (λ id, is_Some (s_chans s !! id)) (s_todo s).

Lemma send_one_phases info s id s' :
  send_one info s id = Ret s' → todo_ok s → same_phases s s' ∧ todo_ok s'.
Proof.
  unfold send_one, todo_ok. intros Hs Ht. destruct (s_chans s !! id) as [c|] eqn:Hc; [|done].
  assert (∀ c', ch_phase c' = ch_phase c → same_phases s (set_chans s (<[id := c']> (s_chans s)))) as Hsame.
  { intros c' Hph. split; [cbn; apply length_insert|]. cbn. intros i x Hx.
    destruct (decide (i = id)) as [->|Hne].
    - rewrite list_lookup_insert_eq in Hx by (by eapply lookup_lt_Some). injection Hx as <-. by exists c.
    - rewrite list_lookup_insert_ne in Hx by done. by exists x. }
  assert (same_phases s s) as Hrefl by (split; [done|]; intros i x Hx; by exists x).
  assert (∀ c', Forall (λ i, is_Some (<[id := c']> (s_chans s) !! i)) (s_todo s) ∧
    is_Some (<[id := c']> (s_chans s) !! id)) as Hin.
  { intros c'. rewrite lookup_lt_is_Some, length_insert. split; [|by eapply lookup_lt_Some].
    eapply Forall_impl; [exact Ht|]. intros i. by rewrite !lookup_lt_is_Some, length_insert. }
  destruct (ch_phase c) eqn:Hph; [| |done];
    (destruct (_ <? _)%nat; [|injection Hs as <-; by split]);
    destruct (Decr (ch_rem c)) as [rem []]; cbn [fst snd] in Hs; injection Hs as <-;
    (split; [by apply Hsame|]); cbn; try (by apply Hin);
    (apply Forall_app; split; [|apply Forall_singleton]; by apply Hin).
Qed.

Lemma send_all_delivers info ids s s' :
  send_all info s ids = Ret s' → todo_ok s → same_phases s s' ∧ todo_ok s'.
Proof.
  revert s. induction ids as [|id ids IH]; intros s; cbn.
  - intros [= <-] Ht. split; [|done]. split; [done|]. intros i c Hc. by exists c.
  - intros (s1 & H1 & Hr)%bind_Ret_inv Ht.
    destruct (send_one_phases _ _ _ _ H1 Ht) as [[Hl1 Hp1] Ht1].
    destruct (IH _ Hr Ht1) as [[Hl2 Hp2] Ht2]. split; [|done]. split; [congruence|].
    intros i c' Hc'. destruct (Hp2 _ _ Hc') as (c1 & Hc1 & ->). by apply Hp1.
Qed.

Lemma dispatch_release_steps s ns info s' :
  quiet s → dispatch s ns info = Ret s' → rtc sstep s (release s') ∧ quiet (release s').
Proof.
  intros [Ht Hq] Hd.
  assert (todo_ok s) as Htok by (unfold todo_ok; rewrite Ht; constructor).
  assert (same_phases s s' ∧ todo_ok s') as [[_ Hp] Htok'].
  { unfold dispatch in Hd. destruct (s_subs s !! ns); [by eapply send_all_delivers|].
    injection Hd as <-. split; [|done]. split; [done|]. intros i c Hc. by exists c. }
  destruct (release_steps s' (s_todo s')) as [Hst Hqt]; [|exact Htok'|].
  { intros id c Hc. destruct (Hp _ _ Hc) as (c0 & Hc0 & ->). by eapply Hq. }
  split; [|exact Hqt]. eapply rtc_l; [by eapply st_base, st_dispatch|].
  by replace (set_todo s' (s_todo s')) with s' in Hst by (by destruct s').
Qed.

Lemma handle_packet_steps h k r from :
  respects h → quiet (state k) →
  rtc sstep (state k) (state (handle_packet h k r from).2) ∧ quiet (state (handle_packet h k r from).2).
Proof.
  intros Hh Hq. unfold handle_packet.
  destruct (handle _ _ _ r) as [[info ns| |]|e|]; try (split; [apply rtc_refl|done]).
  - destruct (dispatch (state k) ns info) as [s|e|] eqn:Hd; try (split; [apply rtc_refl|done]).
    by eapply dispatch_release_steps.
  - by apply Hh.
Qed.

Lemma close_quiet s : quiet s → quiet (BootSocket.Close s).
Proof. by intros [Ht Hq]. Qed.

Lemma serve_once_steps h k read :
  respects h → quiet (state k) →
  rtc sstep (state k) (state (serve_once h k read).2) ∧ quiet (state (serve_once h k read).2).
Proof.
  intros Hh Hq. unfold serve_once.
  set (r := match Scan consume (validate k) read with
    | Ret (r, from) => handle_packet h k r from | Fail e => (Fail e, k) | Panic => (Panic, k) end).
  assert (rtc sstep (state k) (state r.2) ∧ quiet (state r.2)) as [Hst Hqr].
  { subst r. destruct (Scan _ _ _) as [[p from]|e|]; [by apply handle_packet_steps|split; [apply rtc_refl|done]..]. }
  destruct r as [err k1]. cbn in Hst, Hqr.
  destruct (serve_step err (s_done (state k1))) as [[|e| |e]|e|]; [done| |done| |done..].
  - by destruct (handleError k1 e).
  - destruct (handleError k1 e); [| |done];
      (split; [etrans; [exact Hst|]; apply rtc_once, st_base, st_close|by apply close_quiet]).
Qed.

Lemma serve_steps h k reads st k' :
  respects h → quiet (state k) → serve h k reads = (st, k') →
  rtc sstep (state k) (state k') ∧ quiet (state k').
Proof.
  intros Hh. revert k. induction reads as [|read reads IH]; intros k Hq; cbn.
  - intros [= <- <-]. split; [apply rtc_refl|done].
  - destruct (serve_once_steps h k read Hh Hq) as [Hst Hq1].
    destruct (serve_once h k read) as [[] k1] eqn:H1; cbn in Hst, Hq1.
    + intros Hr. destruct (IH k1 Hq1 Hr) as [Hst2 Hq2]. split; [by etrans|done].
    + by intros [= <- <-].
    + by intros [= <- <-].
Qed.

(** The socket a service constructor makes. *)
Definition service_sock (rate : Z) (h : host) (now : Z) (c : C) : sock :=
  mkSock (BootSocket.New now) c (BasicValidator id_from_bytes matches (h_ID h))
    (Some (NewPacketLimiter rate 8)) default_handler [].

Lemma socket_New_service rate h zero now k :
  socket_New zero now (service_withDefault rate h []) = Ret k →
  ∃ c, c_new 8 = Ret c ∧ k = service_sock rate h now c.
Proof.
  unfold socket_New, withDefault, WithCache, NewCache. change (cache_size 8) with 8.
  destruct (c_new 8) as [c| |]; [|done..]. intros [= <-]. by exists c.
Qed.

(** A datagram is authentic for a host if it opens to a packet signed by the peer it names,
    another peer than the host. *)
Definition authentic_datagram (self b : bytes) : Prop :=
  ∃ key r p, consume (received b) = Ret (key, r) ∧ Peer id_from_bytes r = Ret p ∧ matches p key = true ∧
    (self ≠ [] → p ≠ self).

Lemma Scan_forged self b from :
  (∀ b, consume b ≠ Panic) → (∀ b, id_from_bytes b ≠ Panic) →
  (∀ key r, consume (received b) = Ret (key, r) → Peer id_from_bytes r ≠ Panic) →
  ¬ authentic_datagram self b →
  ∃ e, Scan consume (BasicValidator id_from_bytes matches self) (Ret (b, from)) =
    (Fail (ValidationError e) : sres (Packet * addr)).
Proof.
  intros Hc Hid Hpeer Hn. unfold Scan. cbn [bind fst snd].
  destruct (consume (received b)) as [[key r]|e|] eqn:Hcb; cbn; [|by exists e|by destruct (Hc (received b))].
  unfold BasicValidator. destruct (Peer id_from_bytes r) as [p|e|] eqn:Hp; cbn;
    [|by exists e|by destruct (Hpeer _ _ eq_refl)].
  unfold bytes_eqb. case_bool_decide as Hs; cbn.
  - destruct (matches p key) eqn:Hm; cbn; [|by exists ErrInvalidSignature].
    destruct Hn. by exists key, r, p.
  - case_bool_decide as Hps; cbn; [by exists ErrIgnore|].
    destruct (matches p key) eqn:Hm; cbn; [|by exists ErrInvalidSignature].
    destruct Hn. by exists key, r, p.
Qed.

Lemma serve_forged h k self b from :
  validate k = BasicValidator id_from_bytes matches self → handleError k = default_handler →
  s_done (state k) = false →
  (∃ e, Scan consume (BasicValidator id_from_bytes matches self) (Ret (b, from)) =
    (Fail (ValidationError e) : sres (Packet * addr))) →
  serve_once h k (Ret (b, from)) = (Serving, k).
Proof.
  intros Hv He Hd [e Hs]. unfold serve_once. rewrite Hv, Hs. cbn [serve_step].
  destruct (errors_Is (ValidationError e) ErrIgnore); [done|]. rewrite Hd. by rewrite He.
Qed.

(** C22. Forged datagrams have no effect: a surveyor or crawler made with the default options
    that receives any number of datagrams that are not validly signed by the peer they
    name, or that come from its own host, goes on serving with its subscriptions, its
    advertisements, its cache and its outgoing packets unchanged. *)
Theorem forged_datagrams_ignored (h : sock → Packet → addr → sres unit * sock) (rate : Z) (self : host)
    (now : Z) (zero : C) (k0 k : sock) (forged : list (bytes * addr)) :
  (∀ b, consume b ≠ Panic) → (∀ b, id_from_bytes b ≠ Panic) →
  (∀ b key r, consume b = Ret (key, r) → Peer id_from_bytes r ≠ Panic) →
  socket_New zero now (service_withDefault rate self []) = Ret k0 →
  validate k = validate k0 → handleError k = handleError k0 → s_done (state k) = false →
  Forall (λ d, ¬ authentic_datagram (h_ID self) d.1) forged →
  serve h k (Ret <$> forged) = (Serving, k).
Proof.
  intros Hc Hid Hpeer (c & _ & ->)%socket_New_service Hv He Hd Hf. cbn in Hv, He.
  induction Hf as [|[b from] forged Hb _ IH]; [done|]. cbn.
  rewrite (serve_forged h k (h_ID self) b from Hv He Hd); [done|]. apply Scan_forged; eauto.
Qed.

(** *** What a response does *)

(** A subscription of the namespace with room in its buffer gets the record, and is closed
    when that was the last of its limit. *)
Definition delivered (ns : bytes) (info : AddrInfo) (c : chan) : chan :=
  if decide (ch_phase c = Live ∧ ch_ns c = ns ∧ (length (ch_buf c) < chan_cap)%nat) then
    mkChan (ch_ns c) (ch_set c) (ch_limit c) (Decr (ch_rem c)).1 (ch_buf c ++ [info]) (S (ch_sent c))
      (if (Decr (ch_rem c)).2 then Closed else Live)
  else c.

Definition pushed (info : AddrInfo) (c : chan) : chan :=
  if (length (ch_buf c) <? chan_cap)%nat
  then mkChan (ch_ns c) (ch_set c) (ch_limit c) (Decr (ch_rem c)).1 (ch_buf c ++ [info]) (S (ch_sent c)) (ch_phase c)
  else c.

Definition exhausted (c : chan) : bool := (length (ch_buf c) <? chan_cap)%nat && (Decr (ch_rem c)).2.

Lemma send_one_spec info s id c s' :
  s_chans s !! id = Some c → ch_phase c = Live → send_one info s id = Ret s' →
  s_chans s' = <[id := pushed info c]> (s_chans s) ∧ s_todo s' = s_todo s ++ (if exhausted c then [id] else []).
Proof using Type.
  intros Hc Hl. unfold send_one, pushed, exhausted. rewrite Hc, Hl. destruct (_ <? _)%nat; cbn [andb].
  - intros [= <-]. destruct (Decr (ch_rem c)).2; cbn; [done|by rewrite app_nil_r].
  - intros [= <-]. by rewrite app_nil_r, list_insert_id.
Qed.

Lemma send_all_spec info ids s s' :
  NoDup ids → (∀ id, id ∈ ids → ∃ c, s_chans s !! id = Some c ∧ ch_phase c = Live) → send_all info s ids = Ret s' →
  (∀ i c, s_chans s !! i = Some c → s_chans s' !! i = Some (if decide (i ∈ ids) then pushed info c else c)) ∧
  (∀ i, i ∈ s_todo s' ↔ i ∈ s_todo s ∨ i ∈ ids ∧ ∃ c, s_chans s !! i = Some c ∧ exhausted c = true).
Proof using Type.
  intros Hnd. revert s. induction Hnd as [|id ids Hni Hnd IH]; intros s Hids; cbn.
  { intros [= <-]. split; [by intros i c ->|]. intros i. set_solver. }
  intros (s1 & H1 & H2)%bind_Ret_inv. destruct (Hids id) as (c & Hc & Hl); [left|].
  destruct (send_one_spec _ _ _ _ _ Hc Hl H1) as [Hch Ht].
  assert (∀ i, i ≠ id → s_chans s1 !! i = s_chans s !! i) as Hother by (intros; by rewrite Hch, list_lookup_insert_ne).
  destruct (IH s1) as [IHc IHt]; [|done|].
  { intros i Hi. rewrite Hother by (by intros ->). apply Hids. by right. }
  split.
  - intros i ci Hi. destruct (decide (i = id)) as [->|Hne].
    + rewrite Hc in Hi. injection Hi as <-. rewrite (decide_True (P:=id ∈ id :: ids)) by left.
      assert (s_chans s1 !! id = Some (pushed info c)) as Hp.
      { rewrite Hch. apply list_lookup_insert_eq. by eapply lookup_lt_Some. }
      rewrite (IHc _ _ Hp). by rewrite decide_False.
    + rewrite <-(Hother i Hne) in Hi. rewrite (IHc _ _ Hi). f_equal. apply decide_ext. set_solver.
  - intros i. rewrite IHt, Ht, elem_of_app, elem_of_cons. destruct (decide (i = id)) as [->|Hne].
    + assert (id ∈ (if exhausted c then [id] else []) ↔ exhausted c = true) as ->.
      { destruct (exhausted c); [by rewrite list_elem_of_singleton|by rewrite elem_of_nil]. }
      rewrite Hc. naive_solver.
    + rewrite Hother by done. assert (i ∉ (if exhausted c then [id] else [])) by (destruct (exhausted c); set_solver). naive_solver.
Qed.

Lemma release_spec ids s :
  (∀ i c, s_chans s !! i = Some c →
     s_chans (foldl release_one s ids) !! i =
       Some (if decide (i ∈ ids ∧ ch_phase c = Live) then with_phase c Closed else c)).
Proof using Type.
  revert s. induction ids as [|id ids IH]; intros s i c Hc; cbn [foldl].
  { rewrite decide_False; [done|]. by intros [?%elem_of_nil _]. }
  assert (s_chans (release_one s id) !! i = Some (if decide (i = id ∧ ch_phase c = Live) then with_phase c Closed else c)) as H1.
  { destruct (s_chans s !! id) as [x|] eqn:Hx; [|rewrite decide_False; [done|]; intros [-> _]; congruence].
    destruct (decide (i = id)) as [->|Hne].
    - rewrite Hc in Hx. injection Hx as <-. destruct (ch_phase c) eqn:Hp;
        [|rewrite decide_False; [done|by intros []]..]. rewrite decide_True by done. unfold cancel_now. rewrite Hc. cbn.
      rewrite list_insert_insert_eq. apply list_lookup_insert_eq. by eapply lookup_lt_Some.
    - rewrite decide_False by (by intros []). destruct (ch_phase x); [|done..]. unfold cancel_now. rewrite Hx. cbn.
      by rewrite !list_lookup_insert_ne. }
  rewrite (IH _ _ _ H1). f_equal. destruct (decide (i = id ∧ ch_phase c = Live)) as [[-> Hl]|Hn]; cbn.
  - rewrite decide_False by (by intros []). rewrite decide_True; [done|]. split; [left|done].
  - apply decide_ext. set_solver.
Qed.

Lemma release_length ids s : length (s_chans (foldl release_one s ids)) = length (s_chans s).
Proof using Type.
  revert s. induction ids as [|id ids IH]; intros s; cbn [foldl]; [done|]. rewrite IH.
  destruct (s_chans s !! id) as [c|] eqn:Hc; [|done]. destruct (ch_phase c); [|done..].
  unfold cancel_now. rewrite Hc. cbn. by rewrite !length_insert.
Qed.

Lemma dispatch_spec s ns info s' :
  sinv s → s_todo s = [] → dispatch s ns info = Ret s' →
  ∀ id, s_chans (release s') !! id = delivered ns info <$> s_chans s !! id.
Proof using Type.
  intros Hinv Ht Hd id. pose proof Hinv as [(H1 & H2 & _) _]. unfold dispatch in Hd.
  assert (todo_ok s) as Htok by (unfold todo_ok; rewrite Ht; constructor).
  destruct (s_subs s !! ns) as [sid|] eqn:Hns.
  - destruct (H1 _ _ Hns) as (S & HS & Hin). rewrite HS in Hd. change (default ∅ (Some S)) with S in Hd.
    destruct (send_all_delivers _ _ _ _ Hd Htok) as [[Hlen _] _].
    apply send_all_spec in Hd as [Hc Htd]; [|apply NoDup_elements|].
    2:{ intros i Hi%elem_of_elements. destruct (Hin i Hi) as (c & ? & ? & _). by exists c. }
    destruct (s_chans s !! id) as [c|] eqn:Hid; cbn [fmap option_fmap option_map].
    2:{ apply lookup_ge_None. unfold release. rewrite release_length. cbn. rewrite Hlen. by apply lookup_ge_None. }
    specialize (Hc id c Hid). unfold release. erewrite release_spec; [|exact Hc]. f_equal.
    assert (id ∈ elements S ↔ ch_phase c = Live ∧ ch_ns c = ns) as HinS.
    { rewrite elem_of_elements. split.
      - intros Hi. destruct (Hin id Hi) as (c' & Hc' & Hl & Hn & _). rewrite Hid in Hc'. by injection Hc' as <-.
      - intros [Hl Hn]. destruct (H2 _ _ Hid Hl) as (Hs & S' & HS' & Hi). rewrite Hn, Hns in Hs. injection Hs as Hs. rewrite <-Hs, HS in HS'. by injection HS' as <-. }
    assert (id ∈ s_todo s' ↔ id ∈ elements S ∧ exhausted c = true) as Htd'.
    { rewrite Htd, Ht, elem_of_nil, Hid. clear. naive_solver. }
    unfold delivered, pushed, exhausted in *. destruct (Nat.ltb_spec (length (ch_buf c)) chan_cap) as [Hlt|Hge]; cbn [andb] in Htd'.
    + destruct (decide (id ∈ elements S)) as [Hi|Hi].
      * destruct (proj1 HinS Hi) as [Hl Hn]. rewrite (decide_True (P:=ch_phase c = Live ∧ _)) by done.
        destruct (Decr (ch_rem c)).2.
        -- rewrite decide_True; [done|]. split; [by apply Htd'|exact Hl].
        -- rewrite decide_False; [by rewrite Hl|]. intros [[_ ?]%Htd' _]. done.
      * rewrite (decide_False (P:=ch_phase c = Live ∧ _)) by (intros (? & ? & _); by apply Hi, HinS).
        rewrite decide_False; [done|]. intros [[? _]%Htd' _]. done.
    + rewrite (decide_False (P:=ch_phase c = Live ∧ _)) by (intros (_ & _ & ?); lia).
      rewrite (decide_False (P:=id ∈ s_todo s' ∧ _)) by (intros [[_ ?]%Htd' _]; done). by destruct (decide _).
  - injection Hd as <-. unfold release. rewrite Ht. cbn. destruct (s_chans s !! id) as [c|] eqn:Hid; [|done]. cbn. f_equal.
    unfold delivered. rewrite decide_False; [done|]. intros (Hl & Hn & _). destruct (H2 _ _ Hid Hl) as (Hs & _). congruence.
Qed.

(** C21. A response is delivered: whatever subscriptions a serving socket has, a datagram that
    holds a response signed by another peer puts the peer and its addresses into every live
    subscription of the namespace that has room, closes those whose limit this exhausts,
    and changes no other subscription, nor the cache or the packets sent; the state it
    leads to is one the socket's transition system reaches, with no cancellation pending. *)
Theorem response_delivered (h : sock → Packet → addr → sres unit * sock) (self : bytes) (now : Z) (k : sock)
    (b : bytes) (from : addr) (key : pubkey) (r : Packet) (p ns : bytes) (info : AddrInfo) :
  rtc sstep (BootSocket.New now) (state k) → quiet (state k) →
  validate k = BasicValidator id_from_bytes matches self →
  consume (received b) = Ret (key, r) → Peer id_from_bytes r = Ret p → matches p key = true → p ≠ self →
  Type_ r = TypeResponse → namespace r = Ret ns → Response_Bind id_from_bytes multiaddr r = Ret info →
  ∃ s', serve_once h k (Ret (b, from)) = (Serving, set_state s' k) ∧
    (∀ id, s_chans s' !! id = delivered ns info <$> s_chans (state k) !! id) ∧
    rtc sstep (BootSocket.New now) s' ∧ quiet s'.
Proof.
  intros Hrun Hq Hv Hc Hp Hm Hne Hty Hns Hbind. pose proof (sinv_steps _ _ (sinv_New now) Hrun) as Hinv.
  destruct (dispatch_ok (state k) ns info Hinv (proj1 Hq)) as (s1 & Hd & _).
  destruct (dispatch_release_steps _ _ _ _ Hq Hd) as [Hst Hq']. exists (release s1). split; [|split; [|split; [by etrans|done]]].
  - unfold serve_once, Scan. cbn [bind fst snd]. rewrite Hc, Hv. cbn [wrap_validation bind fst snd]. unfold BasicValidator.
    rewrite Hp. cbn [bind]. unfold bytes_eqb. rewrite (bool_decide_false (p = self)), andb_false_r, Hm by done. cbn [wrap_validation bind].
    unfold handle_packet, handle. rewrite Hns, Hty, Hbind. cbn [bind]. by rewrite Hd.
  - by apply dispatch_spec; [|apply Hq|].
Qed.

(** The serving loop implements the socket's transition system: whatever arrives and however
    the loop ends, a socket in a state that its transitions reach is taken only to such
    states, if the handler takes it only to such states; between packets no cancellation
    is pending. *)
Theorem serve_refines_socket (h : sock → Packet → addr → sres unit * sock) (now : Z) (k k' : sock) reads st :
  respects h → rtc sstep (BootSocket.New now) (state k) → quiet (state k) → serve h k reads = (st, k') →
  rtc sstep (BootSocket.New now) (state k') ∧ quiet (state k') ∧
  ∀ ns info, ∃ s, dispatch (state k') ns info = Ret s.
Proof.
  intros Hh Hrun Hq Hs. destruct (serve_steps h k reads st k' Hh Hq Hs) as [Hst Hq'].
  assert (rtc sstep (BootSocket.New now) (state k')) as Hrun' by (by etrans).
  split; [done|]. split; [done|]. intros ns info.
  destruct (dispatch_ok (state k') ns info) as (s & Hd & _); [|by apply Hq'|by exists s].
  eapply sinv_steps; [apply sinv_New|exact Hrun'].
Qed.

(** *** A survey from end to end *)
Context (pub : priv → pubkey).

(** The packets the protocol sends: every field can be read. *)
Definition readable (p : Packet) : Prop :=
  ∃ ns as_ id w, p = mkPacket (Ret ns) (Ret (Ret <$> as_)) w ∧
    (w = request (Ret id) ∨ (∃ d, w = survey (Ret id) d) ∨ w = response (Ret id)).

Lemma readable_survey ns id d : readable (mkPacket (Ret ns) (Ret []) (survey (Ret id) d)).
Proof. exists ns, [], id, (survey (Ret id) d). split; [done|]. right. left. by exists d. Qed.

Lemma readable_response ns as_ id : readable (mkPacket (Ret ns) (Ret (Ret <$> as_)) (response (Ret id))).
Proof. exists ns, as_, id, (response (Ret id)). split; [done|]. by right; right. Qed.

(** What a working network and library do for a host: its records can be sealed, marshalled
    and sent, and what it signed opens under its key. *)
Record works (h : host) : Prop := {
  w_put : ∀ b, put b = Ret tt;
  w_wait : ∀ l n, wait l n = Ret tt;
  w_write : ∀ b a, write b a = Ret tt;
  w_seal : ∀ p, readable p → ∃ e b, seal (h_key h) p = Ret e ∧ marshal e = Ret b ∧ consume b = Ret (pub (h_key h), p);
  w_id : h_ID h ≠ [] ∧ id_from_bytes (h_ID h) = Ret (h_ID h) ∧ matches (h_ID h) (pub (h_key h)) = true;
  w_addrs : ∀ a, a ∈ h_Addrs h → multiaddr a = Ret a }.

(** What a cache holds for a packet, if anything, is that packet sealed. *)
Definition current (h : host) (p : Packet) (kk : key) (c : C) : Prop :=
  ∀ e c', c_get c kk = (Some e, c') → seal (h_key h) p = Ret e.

(** The packet fits in the buffer of the receiver. *)
Definition fits (h : host) (p : Packet) : Prop :=
  ∀ e b, seal (h_key h) p = Ret e → marshal e = Ret b → Z.of_nat (length b) ≤ maxDatagramSize.

Lemma transmit_works h k p kk to :
  works h → readable p → current h p kk (cache k) → fits h p →
  ∃ b, transmit k (load (cache k) (Ret p) (host_sealer h) kk) to =
      (Ret tt, mkSock (state k) (load (cache k) (Ret p) (host_sealer h) kk).2 (validate k) (lim k)
                 (handleError k) (outbox k ++ [(b, to)])) ∧
    consume (received b) = Ret (pub (h_key h), p).
Proof.
  intros Hw Hp Hg Hf. destruct (w_seal h Hw p Hp) as (e & b & Hs & Hm & Hc). exists b.
  rewrite received_fits by (by apply (Hf e)). split; [|done].
  assert ((load (cache k) (Ret p) (host_sealer h) kk).1 = Ret e) as He.
  { unfold load. destruct (c_get (cache k) kk) as [[e'|] c'] eqn:Hget.
    - cbn. specialize (Hg _ _ Hget). congruence.
    - unfold storeCache, host_sealer. cbn [bind]. by rewrite Hs. }
  unfold transmit. rewrite He. cbn. rewrite Hm. cbn. assert (limit k (Z.of_nat (length b)) = Ret tt) as ->.
  { unfold limit, Reserve. destruct (lim k); [apply (w_wait h Hw)|done]. }
  cbn. by rewrite (w_write h Hw).
Qed.

(** What another host's validator lets through. *)
Lemma Scan_works h self b from p :
  works h → h_ID h ≠ self → consume (received b) = Ret (pub (h_key h), p) → Peer id_from_bytes p = Ret (h_ID h) →
  Scan consume (BasicValidator id_from_bytes matches self) (Ret (b, from)) = Ret (p, from : addr).
Proof.
  intros Hw Hne Hc Hp. unfold Scan. cbn. rewrite Hc. cbn. unfold BasicValidator. rewrite Hp. cbn.
  unfold bytes_eqb. rewrite (bool_decide_false (h_ID h = self)) by done. rewrite andb_false_r.
  destruct (w_id h Hw) as (_ & _ & ->). done.
Qed.

Lemma omapM_addrs l : (∀ a, a ∈ l → multiaddr a = Ret a) →
  omapM (λ e : sres bytes, b <~ e ;; multiaddr b) (Ret <$> l) = Ret l.
Proof.
  induction l as [|x l IH]; intros Hf; cbn; [done|].
  rewrite (Hf x) by set_solver. cbn. by rewrite IH by (intros; apply Hf; set_solver).
Qed.

(** The packets of a survey. *)
Definition survey_of (h : host) (ns : bytes) (d : Z) : Packet :=
  mkPacket (Ret ns) (Ret []) (survey (Ret (h_ID h)) d).
Definition answer_packet (h : host) (ns : bytes) : Packet :=
  mkPacket (Ret ns) (Ret (Ret <$> h_Addrs h)) (response (Ret (h_ID h))).

(** The packets of the protocol can be built, and name their sender. *)
Lemma survey_packet_works h ns d :
  works h → survey_packet put (h_ID h) ns d = Ret (survey_of h ns d).
Proof. intros Hw. unfold survey_packet. by rewrite !(w_put h Hw). Qed.

Lemma response_packet_works h ns :
  works h → response_packet put (h_ID h) (h_Addrs h) ns = Ret (answer_packet h ns).
Proof.
  intros Hw. unfold response_packet. rewrite !(w_put h Hw). cbn.
  assert (∃ l, omapM put (h_Addrs h) = Ret l) as [l ->]; [|done].
  induction (h_Addrs h) as [|x l [l' IH]]; cbn; [by eexists|]. rewrite (w_put h Hw). cbn. rewrite IH. by eexists.
Qed.

(** A response to the only subscription of a socket arrives in its channel. *)
Lemma dispatch_fresh now ns limit info :
  ∃ s, dispatch (Subscribe (BootSocket.New now) ns limit).2 ns info = Ret s ∧
    ∃ c, s_chans (release s) !! 0%nat = Some c ∧ ch_buf c = [info].
Proof.
  unfold Subscribe, dispatch. cbn. rewrite lookup_empty. cbn. rewrite lookup_insert_eq. cbn.
  rewrite union_empty_r_L, elements_singleton. cbn. unfold send_one. cbn.
  eexists. split; [done|]. unfold release. destruct (Decr (limiter limit)) as [rem []]; cbn; eauto.
Qed.

(** The answer of a surveyor to a survey that concerns it. *)
Lemma answer h self k ns d b from group :
  works self → works h → h_ID h ≠ h_ID self →
  validate k = BasicValidator id_from_bytes matches (h_ID self) → tracking (state k) ns = true →
  current self (answer_packet self ns) (responseKey ns) (cache k) → fits self (answer_packet self ns) →
  ignore (h_ID self) (h_ID h) d = Ret false →
  consume (received b) = Ret (pub (h_key h), mkPacket (Ret ns) (Ret []) (survey (Ret (h_ID h)) d)) →
  ∃ b' k', serve_once (surveyor_handler self group) k (Ret (b, from)) = (Serving, k') ∧
    outbox k' = outbox k ++ [(b', group)] ∧
    consume (received b') = Ret (pub (h_key self), answer_packet self ns).
Proof.
  intros Hws Hwh Hne Hv Ht Hg Hf Hi Hc. destruct (w_id h Hwh) as (_ & Hid & _).
  destruct (transmit_works self k (answer_packet self ns) (responseKey ns) group Hws (readable_response _ _ _) Hg Hf)
    as (b' & Htr & Hc').
  set (k' := mkSock _ _ _ _ _ _) in Htr. exists b', k'. split; [|done].
  unfold serve_once. rewrite Hv, (Scan_works h (h_ID self) b from _ Hwh Hne Hc Hid).
  unfold handle_packet, handle. cbn. rewrite Ht. cbn. unfold surveyor_handler, Survey.handler. cbn.
  rewrite Hid. cbn. rewrite Hi. cbn. unfold LoadResponse. rewrite (response_packet_works self ns Hws), Htr.
  done.
Qed.

(** C20. A survey finds the peers that advertise: when a surveyor looks for a namespace and a
    second one, which advertises it and lies within the distance asked for, receives the
    datagram, it answers to the group; and when the first receives the answer, the peer
    and its addresses are in the channel that FindPeers returned.  Both packets are to fit
    in the receiver's buffer of 2048 bytes, and what the caches hold for them, if anything,
    is to be up to date (a cached answer with other addresses would be sent as it is). *)
Theorem survey_finds_peer (self other : host) (zero : C) (now : Z) (group from from' : addr) (ns : bytes)
    (o : Options) (k kb : sock) :
  works self → works other → h_ID self ≠ h_ID other →
  Surveyor_New self zero now [] = Ret k →
  current self (survey_of self ns (distance o)) (surveyKey ns (distance o)) (cache k) →
  fits self (survey_of self ns (distance o)) →
  validate kb = BasicValidator id_from_bytes matches (h_ID other) → tracking (state kb) ns = true →
  current other (answer_packet other ns) (responseKey ns) (cache kb) → fits other (answer_packet other ns) →
  ignore (h_ID other) (h_ID self) (distance o) = Ret false →
  ∃ k1 b kb' b' k2 c,
    surveyor_FindPeers self group k o ns = (Ret (Some 0%nat), k1) ∧ outbox k1 = [(b, group)] ∧
    serve (surveyor_handler other group) kb [Ret (b, from)] = (Serving, kb') ∧
    outbox kb' = outbox kb ++ [(b', group)] ∧
    serve (surveyor_handler self group) k1 [Ret (b', from')] = (Serving, k2) ∧
    s_chans (state k2) !! 0%nat = Some c ∧ ch_buf c = [mkInfo (h_ID other) (h_Addrs other)].
Proof.
  intros Hws Hwo Hne (c0 & _ & ->)%socket_New_service Hg Hf Hv Ht Hgb Hfb Hi.
  set (s1 := (Subscribe (BootSocket.New now) ns (o_Limit o)).2).
  destruct (transmit_works self (set_state s1 (service_sock 16 self now c0))
    (survey_of self ns (distance o)) (surveyKey ns (distance o)) group Hws (readable_survey _ _ _) Hg Hf) as (b & Htr & Hc).
  set (k1 := mkSock _ _ _ _ _ _) in Htr.
  destruct (answer self other kb ns (distance o) b from group) as (b' & kb' & Hs' & Ho' & Hc'); auto.
  destruct (dispatch_fresh now ns (o_Limit o) (mkInfo (h_ID other) (h_Addrs other))) as (s2 & Hd & c & Hch & Hbuf).
  exists k1, b, kb', b', (set_state (release s2) k1), c. split_and!; try done.
  - unfold surveyor_FindPeers, LoadSurveyRequest. rewrite survey_packet_works by done.
    change (cache (service_sock 16 self now c0)) with (cache (set_state s1 (service_sock 16 self now c0))).
    cbn [state service_sock]. fold s1. by rewrite Htr.
  - cbn. by rewrite Hs'.
  - cbn. unfold serve_once. destruct (w_id other Hwo) as (_ & Hid & _).
    change (validate k1) with (BasicValidator id_from_bytes matches (h_ID self)).
    rewrite (Scan_works other (h_ID self) b' from' _ Hwo (not_eq_sym Hne) Hc' Hid).
    unfold handle_packet, handle. cbn. unfold Response_Bind, Addrs. cbn. rewrite Hid. cbn.
    rewrite omapM_addrs by apply Hwo. cbn. change (state k1) with s1. unfold s1. by rewrite Hd.
Qed.
End service.

(** ** A concrete network *)
Module toy.
(** Envelopes are pairs of a key and a packet, datagrams a code of both. *)
Definition get (r : sres bytes) : bytes := match r with Ret b => b | _ => [] end.
Definition fields (p : Packet) : bytes * list bytes * (Z * Z * bytes) :=
  (get (namespace p), match addrs p with Ret l => get <$> l | _ => [] end,
   match which p with
   | request f => (0, 0, get f) | survey f d => (1, d, get f) | response f => (2, 0, get f) | other => (3, 0, [])
   end).
Definition packet (f : bytes * list bytes * (Z * Z * bytes)) : Packet :=
  let '(ns, as_, (t, d, id)) := f in
  mkPacket (Ret ns) (Ret (Ret <$> as_))
    (if t =? 0 then request (Ret id) else if t =? 1 then survey (Ret id) d
     else if t =? 2 then response (Ret id) else other).

Definition seal (key : bytes) (p : Packet) : sres (bytes * Packet) := Ret (key, p).
Definition marshal (e : bytes * Packet) : sres bytes := Ret [Zpos (encode (e.1, fields e.2))].
Definition consume (b : bytes) : sres (bytes * Packet) :=
  match b with
  | [Zpos x] => match decode x with Some (key, f) => Ret (key, packet f) | None => Fail (ErrExternal 1) end
  | _ => Fail (ErrExternal 2)
  end.

(** A cache that holds nothing. *)
#[global] Instance no_cache : Cache2Q unit (bytes * Packet) := {|
  c_new _ := Ret tt; c_get c _ := (None, c); c_add c _ _ := c; c_purge c := c |}.

Abbreviation matches := (λ id key : bytes, bytes_eqb id key).
Abbreviation works := (works (addr:=unit) Ret Ret matches consume marshal
  (λ _, Ret tt) (λ _ _, Ret tt) (λ _ _, Ret tt) seal id).

Lemma packet_fields p : readable p → packet (fields p) = p.
Proof.
  intros (ns & as_ & i & w & -> & Hw). unfold fields. cbn [namespace addrs which].
  assert (get <$> (Ret <$> as_) = as_) as -> by (induction as_ as [|a as_ IH]; cbn; congruence).
  by destruct Hw as [->|[[d ->]| ->]].
Qed.

Lemma host_works i l : i ≠ [] → works (mkHost i l i).
Proof.
  intros Hi. split; try done.
  - intros p Hp. exists (i, p), [Zpos (encode (i, fields p))]. split; [done|]. split; [done|].
    unfold consume. by rewrite decode_encode, packet_fields.
  - split; [done|]. split; [done|]. by apply bool_decide_eq_true.
Qed.
End toy.

(** Two hosts whose ids differ in their lowest bit, the second of which advertises. *)
Definition host_a : host (priv:=bytes) := mkHost [1; 2; 3; 4] [[9]] [1; 2; 3; 4].
Definition host_b : host (priv:=bytes) := mkHost [1; 2; 3; 5] [[8]; [7]] [1; 2; 3; 5].

Definition sock_a : sock unit bytes unit := service_sock Ret toy.matches 16 host_a 0 tt.
Definition sock_b : sock unit bytes unit :=
  set_state (mkSocket false 0 {[ bs "ns" := 10 ]} ∅ [] [] []) (service_sock Ret toy.matches 16 host_b 0 tt).

Lemma survey_finds_peer_witness :
  ∃ k1 b kb' b' k2 c,
    surveyor_FindPeers toy.marshal (λ _, Ret tt) (λ _ _, Ret tt) (λ _ _, Ret tt) toy.seal host_a tt sock_a
      (mkOptions 0 0 None) (bs "ns") = (Ret (Some 0%nat), k1) ∧ outbox k1 = [(b, tt)] ∧
    serve Ret Ret toy.consume (surveyor_handler Ret toy.marshal (λ _, Ret tt) (λ _ _, Ret tt) (λ _ _, Ret tt)
      toy.seal host_b tt) sock_b [Ret (b, tt)] = (Serving, kb') ∧
    outbox kb' = outbox sock_b ++ [(b', tt)] ∧
    serve Ret Ret toy.consume (surveyor_handler Ret toy.marshal (λ _, Ret tt) (λ _ _, Ret tt) (λ _ _, Ret tt)
      toy.seal host_a tt) k1 [Ret (b', tt)] = (Serving, k2) ∧
    s_chans (state k2) !! 0%nat = Some c ∧ ch_buf c = [mkInfo [1; 2; 3; 5] [[8]; [7]]].
Proof.
  refine (survey_finds_peer Ret Ret toy.matches toy.consume toy.marshal (λ _, Ret tt) (λ _ _, Ret tt)
    (λ _ _, Ret tt) toy.seal id host_a host_b tt 0 tt tt tt (bs "ns") (mkOptions 0 0 None) sock_a sock_b
    _ _ _ _ _ _ _ _ _ _ _); try reflexivity; try (apply toy.host_works); try discriminate;
    intros e b [= <-] [= <-]; vm_compute; discriminate.
Defined.

(** A socket with two subscriptions, of which the first is to get one record. *)
Definition subscribed : Socket := (Subscribe (Subscribe (BootSocket.New 0) (bs "ns") 1).2 (bs "other") 0).2.
Definition sock_c : sock unit bytes unit := set_state subscribed sock_a.
Definition answer_b : bytes := [Zpos (encode (h_key host_b, toy.fields (answer_packet host_b (bs "ns"))))].

Lemma subscribed_reached : rtc sstep (BootSocket.New 0) subscribed ∧ quiet subscribed.
Proof.
  split.
  - eapply rtc_l; [apply st_base, (st_subscribe _ (bs "ns") 1)|]. apply rtc_once, st_base, (st_subscribe _ (bs "other") 0).
  - split; [reflexivity|]. intros [|[|id]] c; [intros [= <-]; discriminate|intros [= <-]; discriminate|discriminate].
Qed.

Lemma response_delivered_witness :
  ∃ s', serve_once Ret Ret toy.consume (surveyor_handler Ret toy.marshal (λ _, Ret tt) (λ _ _, Ret tt)
      (λ _ _, Ret tt) toy.seal host_a tt) sock_c (Ret (answer_b, tt)) = (Serving, set_state s' sock_c) ∧
    ch_phase <$> s_chans s' !! 0%nat = Some Closed ∧ ch_buf <$> s_chans s' !! 0%nat = Some [mkInfo [1; 2; 3; 5] [[8]; [7]]] ∧
    ch_buf <$> s_chans s' !! 1%nat = Some [].
Proof.
  destruct subscribed_reached as [Hr Hq].
  destruct (response_delivered Ret Ret toy.matches toy.consume
    (surveyor_handler Ret toy.marshal (λ _, Ret tt) (λ _ _, Ret tt) (λ _ _, Ret tt) toy.seal host_a tt)
    (h_ID host_a) 0 sock_c answer_b tt (h_key host_b) (answer_packet host_b (bs "ns")) [1; 2; 3; 5] (bs "ns")
    (mkInfo [1; 2; 3; 5] [[8]; [7]]) Hr Hq eq_refl ltac:(vm_compute; reflexivity) eq_refl ltac:(vm_compute; reflexivity)
    ltac:(discriminate) eq_refl eq_refl eq_refl) as (s' & Hs & Hch & _ & _).
  exists s'. split; [exact Hs|]. rewrite !Hch. split; [vm_compute; reflexivity|]. split; vm_compute; reflexivity.
Defined.

Lemma forged_datagrams_ignored_witness :
  serve Ret Ret toy.consume (surveyor_handler Ret toy.marshal (λ _, Ret tt) (λ _ _, Ret tt)
    (λ _ _, Ret tt) toy.seal host_a tt) sock_a [Ret ([5], tt); Ret ([], tt)] = (Serving, sock_a).
Proof.
  refine (forged_datagrams_ignored (priv:=bytes) Ret Ret toy.matches toy.consume
    (surveyor_handler Ret toy.marshal (λ _, Ret tt) (λ _ _, Ret tt) (λ _ _, Ret tt) toy.seal host_a tt)
    16 host_a 0 tt sock_a sock_a [([5], tt); ([], tt)] _ _ _ _ _ _ _ _); try reflexivity; try discriminate.
  - intros b. unfold toy.consume. destruct b as [|[] [|]]; try discriminate. by destruct (decode p) as [[]|].
  - intros b key r. unfold toy.consume. destruct b as [|[|x|x] [|]]; try discriminate.
    destruct (decode x) as [[k [[ns as_] [[t d] i]]]|]; [|discriminate]. intros [= <- <-]. unfold Peer. cbn.
    destruct (t =? 0), (t =? 1), (t =? 2); discriminate.
  - repeat constructor; intros (key & r & p & Hc & _); vm_compute in Hc; discriminate.
Defined.
