(* ===== verification/Multicast.v ===== *)
(** * Multicast connections and gradual surveys ([src/pkg/boot/survey])

    A surveyor works over a connection that joined a multicast group ([multicast.go]): it
    is made by a sequence of calls to the operating system, reads only the datagrams sent
    to a multicast address, and gives the group as its own address.  This file models both
    address families, with the connections left open when a call fails, composes them with
    the serving loop of [BootService], registers the protocols of the package, and follows
    the distances of a gradual survey ([gradual.go]). *)

From stdpp Require Import base list gmap strings.
From Stdlib Require Import ZArith Lia.
From S2P Require Import Prelude BootSocket Survey BootUtil BootService.

Open Scope Z_scope.

(** ** Addresses (package [net]) *)

(** [IP.To4]: four bytes, or sixteen that embed them. *)
Definition To4 (ip : bytes) : option bytes :=
  if (length ip =? 4)%nat then Some ip
  else if (length ip =? 16)%nat && bytes_eqb (take 12 ip) (repeat 0 10 ++ [255; 255])
  then Some (drop 12 ip)
  else None.

(** [IP.IsMulticast]: 224.0.0.0/4 and ff00::/8. *)
Definition IsMulticast (ip : bytes) : bool :=
  match To4 ip with
  | Some (b :: _) => Z.land b 240 =? 224
  | Some [] => false
  | None => (length ip =? 16)%nat && (default 0 (head ip) =? 255)
  end.

Record UDPAddr := mkUDP { IP : bytes; Port : Z }.

(** ** Joining a group *)

(** The two families wrap the connection in [ipv4.PacketConn] and [ipv6.PacketConn]. *)
Inductive family := V4 | V6.

(** The calls to the operating system. *)
Record net_calls (conn : Type) := mkNet {
  ListenUDP : bytes → UDPAddr → sres conn;
  JoinGroup : family → conn → option Interface → UDPAddr → sres unit;
  SetControlMessage : family → conn → sres unit;
  SetMulticastInterface : family → conn → option Interface → sres unit }.
Arguments mkNet {conn}.
Arguments ListenUDP {conn}.
Arguments JoinGroup {conn}.
Arguments SetControlMessage {conn}.
Arguments SetMulticastInterface {conn}.

Record multicastConn (conn : Type) := mkMC { mc_family : family; PacketConn : conn; group : UDPAddr }.
Arguments mkMC {conn}.
Arguments mc_family {conn}.
Arguments PacketConn {conn}.
Arguments group {conn}.

Section join.
Context {conn : Type} (net : net_calls conn).

(** The group is joined on any port. *)
Definition newIPv4MulticastConn (c : conn) (ifi : option Interface) (g : UDPAddr) : sres (multicastConn conn) :=
  _ <~ JoinGroup net V4 c ifi (mkUDP (IP g) 0) ;;
  _ <~ SetControlMessage net V4 c ;;
  _ <~ SetMulticastInterface net V4 c ifi ;;
  Ret (mkMC V4 c g).

Definition newIPv6MulticastConn (c : conn) (ifi : option Interface) (g : UDPAddr) : sres (multicastConn conn) :=
  _ <~ JoinGroup net V6 c ifi (mkUDP (IP g) 0) ;;
  _ <~ SetControlMessage net V6 c ;;
  _ <~ SetMulticastInterface net V6 c ifi ;;
  Ret (mkMC V6 c g).

(** The result, and the connections that are open when the function returns: nothing closes
    the one that [ListenUDP] opened. *)
Definition Join (network : bytes) (ifi : option Interface) (g : UDPAddr)
    : sres (multicastConn conn) * list conn :=
  if negb (IsMulticast (IP g)) then (Fail (ErrExternal 23), [])
  else match ListenUDP net network g with
       | Ret c => (match To4 (IP g) with
                   | Some _ => newIPv4MulticastConn c ifi g
                   | None => newIPv6MulticastConn c ifi g
                   end, [c])
       | Fail e => (Fail e, [])
       | Panic => (Panic, [])
       end.

(** [LocalAddr] of both families. *)
Definition LocalAddr (m : multicastConn conn) : UDPAddr := group m.
End join.

(** ** Reading *)

(** What the connection below returns: data, originator, and the destination in the control
    message, which is nil when the system supplied none. *)
Record raw := mkRaw { r_data : bytes; r_from : UDPAddr; r_dst : option bytes }.

(** [ReadFrom] of both families, on the results of the reads below: its own result and the
    reads that are left, or nothing when it blocks. *)
Fixpoint mc_ReadFrom (reads : list (sres raw)) : option (sres (bytes * UDPAddr) * list (sres raw)) :=
  match reads with
  | [] => None
  | Ret d :: reads' =>
      match r_dst d with
      | None => Some (Panic, reads')                        (* cm.Dst of a nil message *)
      | Some dst => if IsMulticast dst then Some (Ret (r_data d, r_from d), reads') else mc_ReadFrom reads'
      end
  | Fail e :: reads' => Some (Fail e, reads')
  | Panic :: reads' => Some (Panic, reads')
  end.

(** The results of successive calls. *)
Fixpoint mc_stream (fuel : nat) (reads : list (sres raw)) : list (sres (bytes * UDPAddr)) :=
  match fuel with
  | O => []
  | S n => match mc_ReadFrom reads with
           | None => []
           | Some (r, reads') => r :: mc_stream n reads'
           end
  end.

(** One call per read is enough. *)
Definition mc_reads (reads : list (sres raw)) : list (sres (bytes * UDPAddr)) :=
  mc_stream (length reads) reads.

(** A datagram to a unicast address. *)
Definition unicast (r : sres raw) : bool :=
  match r with
  | Ret d => match r_dst d with Some dst => negb (IsMulticast dst) | None => false end
  | _ => false
  end.

(** What a caller gets for a read that is not skipped. *)
Definition surface (r : sres raw) : sres (bytes * UDPAddr) :=
  d <~ r ;; match r_dst d with Some _ => Ret (r_data d, r_from d) | None => Panic end.

(** ** Protocols *)

(** What [init] gives to [ma.AddProtocol]; sizes are in bits, -1 for a length prefix.
    The varint of the code and the transcoder are determined by them. *)
Record Protocol := mkProtocol { p_Name : bytes; p_Code : Z; p_Size : Z }.

Definition survey_protocols : list Protocol :=
  [mkProtocol (bs "multicast") P_MULTICAST (-1); mkProtocol (bs "survey") P_SURVEY 0].
Definition crawl_protocols : list Protocol := [mkProtocol (bs "cidr") P_CIDR 8].

(** [ma.AddProtocol] refuses a name or a code that is registered. *)
Class Protocols (R : Type) := {
  protocols : R → list Protocol;
  AddProtocol : Protocol → R → sres R }.

Class ProtocolsLaws (R : Type) `{Protocols R} : Prop := {
  AddProtocol_spec p r :
    if decide (p_Name p ∈ p_Name <$> protocols r ∨ p_Code p ∈ p_Code <$> protocols r)
    then ∃ e, AddProtocol p r = Fail e
    else ∃ r', AddProtocol p r = Ret r' ∧ protocols r' ≡ₚ p :: protocols r }.

(** The loop of [init], which panics on an error. *)
Fixpoint init_protocols {R} `{Protocols R} (ps : list Protocol) (r : R) : sres R :=
  match ps with
  | [] => Ret r
  | p :: ps' => match AddProtocol p r with Ret r' => init_protocols ps' r' | _ => Panic end
  end.

(** ** Gradual surveys *)

(** The events of the loop, with the distance of each survey that is started. *)
Fixpoint gradual_run (s : gstate) (evs : list gevent) : option (gstate * list (option Z)) :=
  match evs with
  | [] => Some (s, [])
  | e :: evs' =>
      match gradual_step s e with
      | None => None
      | Some s' =>
          match gradual_run s' evs' with
          | None => None
          | Some (s'', ds) =>
              Some (s'', match e with GTimeout _ => gradual_distance s :: ds | GFound => ds end)
          end
      end
  end.

Section gradual.
Context {C env pubkey priv addr : Type} `{!Cache2Q C env}.
Context (marshal : env → sres bytes) (put : bytes → sres unit).
Context (wait : RateLimiter → Z → sres unit) (write : bytes → addr → sres unit).
Context (seal : priv → Packet → sres env).

(** The first survey has distance zero, whatever the caller's options: the option is added
    last.  A socket that was closed gives a closed channel. *)
Definition gradual_FindPeers (h : host (priv:=priv)) (g : addr) (k : sock C pubkey addr) (o : Options) (ns : bytes)
    : sres gstate * sock C pubkey addr :=
  match surveyor_FindPeers marshal put wait write seal h g k (WithDistance 0 o) ns with
  | (Ret (Some _), k) => (Ret (mkG (FChan [] false) [] 0), k)
  | (Ret None, k) => (Ret (mkG (FChan [] true) [] 0), k)
  | (Fail e, k) => (Fail e, k)
  | (Panic, k) => (Panic, k)
  end.

Lemma gradual_FindPeers_inv h g k o ns s k' :
  gradual_FindPeers h g k o ns = (Ret s, k') →
  g_attempt s = 0 ∧ ∃ st, transmit marshal wait write (set_state st k)
    (LoadSurveyRequest put (cache k) (host_sealer seal h) (h_ID h) ns 0) g = (Ret tt, k').
Proof.
  unfold gradual_FindPeers, surveyor_FindPeers. cbn [o_Limit WithDistance distance o_Distance].
  destruct (Subscribe _ _ _) as [ch st]. cbn [fst snd].
  destruct (transmit _ _ _ _ _ _) as [[[]|e|] k1] eqn:Ht; [|done|done].
  destruct ch; intros [= <- <-]; cbn; eauto.
Qed.
End gradual.

(** ** Facts *)
Lemma mc_ReadFrom_surface reads :
  match filter (λ r, unicast r = false) reads with
  | [] => mc_ReadFrom reads = None
  | r :: _ => ∃ reads', mc_ReadFrom reads = Some (surface r, reads') ∧
      filter (λ r, unicast r = false) reads = r :: filter (λ r, unicast r = false) reads' ∧
      (length reads' < length reads)%nat
  end.
Proof.
  induction reads as [|[d|e|] reads IH]; [done| |rewrite filter_cons_True by done; eauto with lia..].
  destruct (r_dst d) as [dst|] eqn:Hd.
  - destruct (IsMulticast dst) eqn:Hm.
    + rewrite filter_cons_True by (cbn; by rewrite Hd, Hm). cbn. rewrite Hd, Hm. eauto with lia.
    + rewrite filter_cons_False by (cbn; by rewrite Hd, Hm). cbn [mc_ReadFrom]. rewrite Hd, Hm.
      destruct (filter _ reads) as [|r l] eqn:Hf; [done|]. destruct IH as (rs & H1 & H2 & H3).
      exists rs. cbn. auto with lia.
  - rewrite filter_cons_True by (cbn; by rewrite Hd). cbn. rewrite Hd. eauto with lia.
Qed.

Lemma mc_stream_filter n reads :
  (length reads ≤ n)%nat → mc_stream n reads = surface <$> filter (λ r, unicast r = false) reads.
Proof.
  revert reads. induction n as [|n IH]; intros reads Hn.
  - by destruct reads; [|cbn in Hn; lia].
  - cbn. pose proof (mc_ReadFrom_surface reads) as Hr.
    destruct (filter _ reads) as [|r l]; [by rewrite Hr|]. destruct Hr as (rs & -> & [= ->] & Hl).
    cbn. by rewrite IH by lia.
Qed.

Lemma gradual_step_attempt s e s' : gradual_step s e = Some s' → g_attempt s' = g_attempt s + 1.
Proof. destruct e; cbn; [|destruct (recv_found _) as [[]|]]; by intros [= <-]. Qed.

(** The distances of a run lie above the attempts made before it. *)
Lemma gradual_run_distances s evs s' ds :
  gradual_run s evs = Some (s', ds) → g_attempt s + Z.of_nat (length evs) ≤ 255 →
  ∃ zs, ds = Some <$> zs ∧ Sorted.StronglySorted Z.lt zs ∧ Forall (λ z, g_attempt s < z ≤ 255) zs.
Proof.
  revert s ds. induction evs as [|e evs IH]; cbn -[gradual_step]; intros s ds.
  { intros [= <- <-] _. exists []. by repeat constructor. }
  destruct (gradual_step s e) as [s1|] eqn:Hs; [|done].
  destruct (gradual_run s1 evs) as [[s2 ds2]|] eqn:Hr; [|done]. intros [= <- <-] Hl.
  apply gradual_step_attempt in Hs. destruct (IH s1 ds2 Hr) as (zs & -> & Hz & Hb); [lia|].
  assert (Forall (λ z, g_attempt s < z ≤ 255) zs) as Hb' by (eapply Forall_impl; [done|]; intros z; cbn; lia).
  destruct e as [res|]; [|by exists zs].
  exists (g_attempt s + 1 :: zs). unfold gradual_distance. rewrite (proj2 (Z.leb_le _ _)) by lia.
  split_and!; [done| |constructor; [lia|done]].
  constructor; [done|]. eapply Forall_impl; [exact Hb|]. intros z. cbn. lia.
Qed.

Lemma sorted_lookup {A} (R : relation A) l i j x y :
  Sorted.StronglySorted R l → l !! i = Some x → l !! j = Some y → (i < j)%nat → R x y.
Proof.
  intros Hl. revert i j. induction Hl as [|a l Hl IH Ha]; intros [|i] [|j] Hi Hj Hij; try (lia || done).
  - cbn in *. simplify_eq. by apply (Forall_lookup_1 _ _ _ _ Ha Hj).
  - apply (IH i j); cbn in *; auto with lia.
Qed.

(** A host within a distance is within every greater one. *)
Lemma ignore_mono local remote d d' :
  0 ≤ d → d ≤ d' → ignore local remote d = Ret false → ignore local remote d' = Ret false.
Proof.
  unfold ignore. destruct (xor local remote) as [x|e|]; cbn; try done. intros Hd Hle [= H]. f_equal.
  rewrite negb_false_iff, Z.eqb_eq in *. replace d' with (d + (d' - d)) by lia.
  rewrite <-Z.shiftr_shiftr by lia. by rewrite H, Z.shiftr_0_l.
Qed.

Section registry.
Context {R : Type} `{ProtocolsLaws R}.

Definition free (p : Protocol) (ps : list Protocol) : Prop :=
  ∀ q, q ∈ ps → p_Name p ≠ p_Name q ∧ p_Code p ≠ p_Code q.

Lemma free_spec p ps : free p ps ↔ ¬ (p_Name p ∈ p_Name <$> ps ∨ p_Code p ∈ p_Code <$> ps).
Proof.
  unfold free. rewrite !list_elem_of_fmap. split.
  - intros Hf [(q & Hq & Hin)|(q & Hq & Hin)]; destruct (Hf q Hin) as [H1 H2]; by congruence.
  - intros Hn q Hin. split; intros Hq; apply Hn; [left|right]; by exists q.
Qed.

Lemma init_protocols_ok ps r :
  NoDup (p_Name <$> ps) → NoDup (p_Code <$> ps) → (∀ p, p ∈ ps → free p (protocols r)) →
  ∃ r', init_protocols ps r = Ret r' ∧ protocols r' ≡ₚ ps ++ protocols r.
Proof.
  revert r. induction ps as [|p ps IH]; cbn; intros r Hn Hc Hf; [by exists r|].
  apply NoDup_cons in Hn as [Hn Hns]. apply NoDup_cons in Hc as [Hc Hcs].
  pose proof (AddProtocol_spec p r) as Hp. rewrite decide_False in Hp by (apply free_spec, Hf; by left).
  destruct Hp as (r1 & -> & Hr1).
  destruct (IH r1 Hns Hcs) as (r2 & -> & Hr2).
  - intros q Hq q' Hq'. rewrite Hr1 in Hq'. apply elem_of_cons in Hq' as [->|Hq'].
    + split; intros E; [apply Hn|apply Hc]; apply list_elem_of_fmap; by exists q.
    + apply (Hf q); [by right|done].
  - exists r2. split; [done|]. rewrite Hr2, Hr1. by rewrite Permutation_middle.
Qed.

Lemma init_protocols_taken p ps r : p ∈ protocols r → init_protocols (p :: ps) r = Panic.
Proof.
  intros Hp. pose proof (AddProtocol_spec p r) as Ha. rewrite decide_True in Ha.
  - destruct Ha as [e He]. cbn. by rewrite He.
  - left. apply list_elem_of_fmap. eauto.
Qed.
End registry.

(** ** Properties *)

(** C27. The surveyor's socket never sees a unicast datagram: the reads of a multicast
    connection are those of the connection below without the datagrams to other than a
    multicast address, in order and none of the others lost, and so the serving loop does
    the same whatever unicast datagrams arrive in between. *)
Theorem unicast_invisible {C env pubkey : Type} `{!Cache2Q C env} (id_from_bytes multiaddr : bytes → sres bytes)
    (consume : bytes → sres (pubkey * Packet))
    (h : sock C pubkey UDPAddr → Packet → UDPAddr → sres unit * sock C pubkey UDPAddr)
    (k : sock C pubkey UDPAddr) (reads : list (sres raw)) :
  mc_reads reads = surface <$> filter (λ r, unicast r = false) reads ∧
  serve id_from_bytes multiaddr consume h k (mc_reads reads) =
    serve id_from_bytes multiaddr consume h k (mc_reads (filter (λ r, unicast r = false) reads)).
Proof.
  assert (∀ l, mc_reads l = surface <$> filter (λ r, unicast r = false) l) as Hr.
  { intros l. by apply mc_stream_filter. }
  split; [done|]. rewrite !Hr. by rewrite list_filter_filter_l.
Qed.

(** JoinMulticastGroup succeeds exactly for a multicast address on which every call
    works; the connection then belongs to the family of the address, and its local address,
    to which surveys and their answers are sent, is the group.  When a call after ListenUDP
    fails, the error is returned and the connection stays open with nobody to close it. *)
Theorem join_multicast_group {conn} (net : net_calls conn) (network : bytes) (ifi : option Interface) (g : UDPAddr) :
  (∀ m open, Join net network ifi g = (Ret m, open) →
     IsMulticast (IP g) = true ∧ LocalAddr m = g ∧ open = [PacketConn m] ∧
     (mc_family m = V4 ↔ is_Some (To4 (IP g))) ∧
     ListenUDP net network g = Ret (PacketConn m) ∧
     JoinGroup net (mc_family m) (PacketConn m) ifi (mkUDP (IP g) 0) = Ret tt ∧
     SetControlMessage net (mc_family m) (PacketConn m) = Ret tt ∧
     SetMulticastInterface net (mc_family m) (PacketConn m) ifi = Ret tt) ∧
  (∀ c, IsMulticast (IP g) = true → ListenUDP net network g = Ret c →
     (Join net network ifi g).2 = [c]).
Proof.
  unfold Join. split.
  - intros m open. destruct (IsMulticast (IP g)); [|done]. cbn.
    destruct (ListenUDP net network g) as [c|e|]; [|done|done].
    destruct (To4 (IP g)) as [b|]; intros [= Hm <-];
      apply bind_Ret_inv in Hm as ([] & H1 & ([] & H2 & ([] & H3 & [= <-])%bind_Ret_inv)%bind_Ret_inv);
      cbn; split_and!; try done; split; try done; try (by eexists); by intros [].
  - intros c -> Hl. cbn. by rewrite Hl.
Qed.

(** C28. A gradual survey reaches a growing set of hosts during the first 255 rounds of its
    loop: when it starts, it has sent a request of distance zero; and while the loop has
    gone round at most 255 times (timers and peers found together) every further survey has
    a greater distance than all before, so that a host that answers one of them answers
    every later one.  After that the distance is beyond [uint8] and nothing is claimed. *)
Theorem gradual_survey_grows {C env pubkey priv addr : Type} `{!Cache2Q C env} (marshal : env → sres bytes)
    (put : bytes → sres unit) (wait : RateLimiter → Z → sres unit) (write : bytes → addr → sres unit)
    (seal : priv → Packet → sres env) (h : host) (g : addr) (k k' : sock C pubkey addr) (o : Options)
    (ns : bytes) (s s' : gstate) (evs : list gevent) ds :
  gradual_FindPeers marshal put wait write seal h g k o ns = (Ret s, k') →
  gradual_run s evs = Some (s', ds) → (length evs ≤ 255)%nat →
  (∃ st, transmit marshal wait write (set_state st k)
     (LoadSurveyRequest put (cache k) (host_sealer seal h) (h_ID h) ns 0) g = (Ret tt, k')) ∧
  ∃ zs, ds = Some <$> zs ∧ Sorted.StronglySorted Z.lt (0 :: zs) ∧
    ∀ (local : bytes) i j d d', (0 :: zs) !! i = Some d → (0 :: zs) !! j = Some d' → (i ≤ j)%nat →
      ignore local (h_ID h) d = Ret false → ignore local (h_ID h) d' = Ret false.
Proof.
  intros [Ha Ht]%gradual_FindPeers_inv Hr Hl. split; [done|].
  destruct (gradual_run_distances s evs s' ds Hr) as (zs & -> & Hz & Hb); [lia|].
  rewrite Ha in Hb. exists zs. assert (Sorted.StronglySorted Z.lt (0 :: zs)) as Hss.
  { constructor; [done|]. eapply Forall_impl; [exact Hb|]. intros z. cbn. lia. }
  split_and!; [done..|]. intros local i j d d' Hi Hj Hij Hig.
  assert (0 ≤ d) as Hd.
  { destruct i as [|i]; cbn in Hi; [simplify_eq; lia|]. rewrite Forall_lookup in Hb. specialize (Hb _ _ Hi). lia. }
  apply (ignore_mono local (h_ID h) d d'); try done.
  destruct (decide (i = j)) as [->|Hne]; [simplify_eq; lia|].
  apply Z.lt_le_incl, (sorted_lookup Z.lt (0 :: zs) i j); auto with lia.
Qed.

(** The packages register their protocols without a panic, whatever the order of their
    initialisations, when no other package took their names or codes; a second
    initialisation panics. *)
Theorem protocols_registered {R} `{ProtocolsLaws R} (r : R) :
  (∀ p q, p ∈ survey_protocols ++ crawl_protocols → q ∈ protocols r → p_Name p ≠ p_Name q ∧ p_Code p ≠ p_Code q) →
  ∃ r1 r2, init_protocols (survey_protocols ++ crawl_protocols) r = Ret r1 ∧
    init_protocols (crawl_protocols ++ survey_protocols) r = Ret r2 ∧ protocols r1 ≡ₚ protocols r2 ∧
    protocols r1 ≡ₚ survey_protocols ++ crawl_protocols ++ protocols r ∧
    init_protocols survey_protocols r1 = Panic ∧ init_protocols crawl_protocols r1 = Panic.
Proof.
  intros Hf. assert (NoDup (p_Name <$> survey_protocols ++ crawl_protocols)) as Hn by (apply (bool_decide_unpack _); by vm_compute).
  assert (NoDup (p_Code <$> survey_protocols ++ crawl_protocols)) as Hc by (apply (bool_decide_unpack _); by vm_compute).
  assert (crawl_protocols ++ survey_protocols ≡ₚ survey_protocols ++ crawl_protocols) as Hp by apply Permutation_app_comm.
  destruct (init_protocols_ok (survey_protocols ++ crawl_protocols) r Hn Hc) as (r1 & H1 & Hr1);
    [exact (λ p Hin q, Hf p q Hin)|].
  destruct (init_protocols_ok (crawl_protocols ++ survey_protocols) r) as (r2 & H2 & Hr2);
    [by rewrite Hp..|intros p; rewrite Hp; exact (λ Hin q, Hf p q Hin)|].
  exists r1, r2. split_and!; [done|done| | | |].
  - by rewrite Hr1, Hr2, Hp.
  - by rewrite Hr1, <-app_assoc.
  - apply init_protocols_taken. rewrite Hr1. set_solver.
  - apply init_protocols_taken. rewrite Hr1. set_solver.
Qed.

(** ** Witnesses *)
Definition toy_gradual :=
  gradual_FindPeers toy.marshal (λ _, Ret tt) (λ _ _, Ret tt) (λ _ _, Ret tt) toy.seal host_a tt sock_a
    (mkOptions 0 0 (Some 200)) (bs "ns").

(** Two surveys by the timer, with a peer found in between. *)
Definition toy_events : list gevent :=
  [GTimeout (Some (FChan [mkInfo [1] []] false)); GFound; GTimeout None].

Lemma gradual_survey_grows_witness :
  ∃ zs, [Some 1; Some 3] = Some <$> zs ∧ Sorted.StronglySorted Z.lt (0 :: zs).
Proof.
  destruct (gradual_survey_grows toy.marshal (λ _, Ret tt) (λ _ _, Ret tt) (λ _ _, Ret tt) toy.seal host_a tt
    sock_a toy_gradual.2 (mkOptions 0 0 (Some 200)) (bs "ns") (mkG (FChan [] false) [] 0)
    (mkG FNil [mkInfo [1] []] 3) toy_events [Some 1; Some 3]) as [_ (zs & Hz & Hs & _)].
  - reflexivity.
  - reflexivity.
  - cbn. lia.
  - exists zs. split; [exact Hz|exact Hs].
Defined.

(** A registry that is a list. *)
Definition conflicts (p : Protocol) (r : list Protocol) : bool :=
  bool_decide (p_Name p ∈ p_Name <$> r ∨ p_Code p ∈ p_Code <$> r).
#[global] Instance list_protocols : Protocols (list Protocol) := {|
  protocols r := r;
  AddProtocol p r := if conflicts p r then Fail (ErrExternal 1) else Ret (p :: r) |}.
#[global] Instance list_protocols_laws : ProtocolsLaws (list Protocol).
Proof.
  split. intros p r. cbn. unfold conflicts.
  destruct (decide _) as [Hd|Hd]; [rewrite bool_decide_true by done|rewrite bool_decide_false by done]; eauto.
Qed.

Lemma protocols_registered_witness :
  ∃ r1 r2, init_protocols (survey_protocols ++ crawl_protocols) [mkProtocol (bs "ip4") 4 32] = Ret r1 ∧
    init_protocols (crawl_protocols ++ survey_protocols) [mkProtocol (bs "ip4") 4 32] = Ret r2 ∧
    protocols r1 ≡ₚ protocols r2.
Proof.
  destruct (protocols_registered [mkProtocol (bs "ip4") 4 32]) as (r1 & r2 & H1 & H2 & H3 & _).
  - intros p q Hp Hq. apply list_elem_of_singleton in Hq as ->.
    repeat (apply elem_of_cons in Hp as [->|Hp]; [split; discriminate|]). by apply elem_of_nil in Hp.
  - exists r1, r2. split; [exact H1|]. split; [exact H2|exact H3].
Defined.
