(* ===== verification/Sealer.v ===== *)
(** * The signed datagram socket and its caching sealer ([src/pkg/socket])

    [CachingSealer] keeps the signed bytes of records in an LRU cache; the bytes of an
    evicted entry go back to a global pool of buffers, from which [Socket.Read] takes the
    buffers it reads datagrams into.  What the callers of [Seal] hold is therefore a
    reference: buffers are objects of a heap here, named by numbers, and the cache, the
    pool and the callers share them.

    The buffer pool, the LRU cache, envelopes and the hash are library code: [Pool] and
    [LRU] state what they promise, the others are parameters. *)

From stdpp Require Import base list gmap sets strings relations.
From Stdlib Require Import ZArith Lia.
From S2P Require Import Prelude.

Open Scope Z_scope.

(** ** The libraries *)

(** [bufferpool.Default]: a buffer is put with its capacity and taken for a length; [None]
    asks for a new buffer to be allocated. *)
Class Pool (P : Type) := {
  pool_get : P → Z → option nat * P;
  pool_put : P → nat → Z → P }.

(** A pool hands out what was put in, once, and may forget buffers. *)
Class PoolLaws (P : Type) `{!Pool P} (free : P → list nat) : Prop := {
  get_some p n b p' : pool_get p n = (Some b, p') → b :: free p' ⊆+ free p;
  get_none p n p' : pool_get p n = (None, p') → free p' ⊆+ free p;
  put_free p b cap : free (pool_put p b cap) ⊆+ b :: free p }.

(** [lru.Cache]; additions and purges report the entries for which the eviction callback
    is called. *)
Class LRU (E C : Type) := {
  l_new : Z → outcome E C;
  l_get : C → Z → option nat * C;
  l_add : C → Z → nat → list (Z * nat) * C;
  l_purge : C → list (Z * nat) * C }.

Class LRULaws (E C : Type) `{!LRU E C} (entries : C → list (Z * nat)) : Prop := {
  new_empty size c : l_new size = Ret c → entries c = [];
  get_perm c k o c' : l_get c k = (o, c') → entries c' ≡ₚ entries c;
  get_hit c k b c' : l_get c k = (Some b, c') → (k, b) ∈ entries c;
  get_miss c k c' : l_get c k = (None, c') → k ∉ (entries c).*1;
  add_perm c k b ev c' : k ∉ (entries c).*1 → l_add c k b = (ev, c') →
    ev ++ entries c' ≡ₚ (k, b) :: entries c;
  add_keeps c k b ev c' : k ∉ (entries c).*1 → l_add c k b = (ev, c') → (k, b) ∈ entries c';
  purge_all c ev c' : l_purge c = (ev, c') → ev ≡ₚ entries c ∧ entries c' = [] }.

Lemma NoDup_sub {A} (l k : list A) : l ⊆+ k → NoDup k → NoDup l.
Proof. intros (k' & ->)%submseteq_Permutation Hnd. by apply NoDup_app in Hnd as [? _]. Qed.

(** ** State *)
Definition maxDatagramSize : Z := 2 * 2 ^ 10.

Section sealer.
Context {E R env pubkey addr P C : Type} `{!Pool P} `{!LRU E C}.

(** The state shared by the sealer, the socket and the pool; [nonce] is the state of the
    signature scheme's randomness, [wire] what was written to the connection. *)
Record St := mkSt {
  heap : gmap nat bytes; next : nat; pool : P; cache : C; nonce : nat;
  wire : list (bytes * addr) }.

Definition set_pool (σ : St) (p : P) : St :=
  mkSt (heap σ) (next σ) p (cache σ) (nonce σ) (wire σ).
Definition set_cache (σ : St) (c : C) : St :=
  mkSt (heap σ) (next σ) (pool σ) c (nonce σ) (wire σ).
Definition set_heap (σ : St) (b : nat) (v : bytes) : St :=
  mkSt (<[b := v]> (heap σ)) (next σ) (pool σ) (cache σ) (nonce σ) (wire σ).

(** A new buffer. *)
Definition alloc (v : bytes) (σ : St) : nat * St :=
  (next σ, mkSt (<[next σ := v]> (heap σ)) (S (next σ)) (pool σ) (cache σ) (nonce σ) (wire σ)).

Definition content (σ : St) (b : nat) : bytes := default [] (heap σ !! b).

Definition Put (b : nat) (σ : St) : St :=
  set_pool σ (pool_put (pool σ) b (Z.of_nat (length (content σ b)))).

Definition Get (n : Z) (σ : St) : nat * St :=
  match pool_get (pool σ) n with
  | (Some b, p) => (b, set_pool σ p)
  | (None, p) => alloc (replicate (Z.to_nat n) 0) (set_pool σ p)
  end.


(** ** The sealer ([sealer.go]) *)

(** Records: [Hash] is the optional interface [Hashable]; [MarshalRecord] returns a slice
    (empty for nil) and an error. *)
Context (Hash : R → option (outcome E Z)) (MarshalRecord : R → bytes * option E).
Context (Sum64 : bytes → Z).
Context (record_Seal : nat → R → outcome E env) (Marshal : env → outcome E bytes).

(** [lru.NewWithEvict] refuses the size or gives the empty cache; the callback [evict] is
    run on the entries the cache reports. *)
Definition NewCachingSealer (size : Z) : outcome E C := l_new size.

Definition evict (ev : list (Z * nat)) (σ : St) : St := foldl (λ σ e, Put e.2 σ) σ ev.

(** The buffer of [MarshalRecord] is put in the pool when the function returns. *)
Definition deriveKey (r : R) (σ : St) : outcome E Z * St :=
  match Hash r with
  | Some h => (h, σ)
  | None =>
      let '(v, err) := MarshalRecord r in
      let '(b, σ) := alloc v σ in
      let key := Sum64 (content σ b) in
      (match err with None => Ret key | Some e => Fail e end, Put b σ)
  end.

Definition Seal (r : R) (σ : St) : outcome E nat * St :=
  let '(key, σ) := deriveKey r σ in
  match key with
  | Ret key =>
      let '(o, c) := l_get (cache σ) key in
      let σ := set_cache σ c in
      match o with
      | Some b => (Ret b, σ)
      | None =>
          let n := nonce σ in
          let σ := mkSt (heap σ) (next σ) (pool σ) (cache σ) (S n) (wire σ) in
          match (e <~ record_Seal n r ;; Marshal e) with
          | Ret v =>
              let '(b, σ) := alloc v σ in
              let '(ev, c) := l_add (cache σ) key b in
              (Ret b, evict ev (set_cache σ c))
          | Fail e => (Fail e, σ)
          | Panic => (Panic, σ)
          end
      end
  | Fail e => (Fail e, σ)
  | Panic => (Panic, σ)
  end.

Definition Purge (σ : St) : St :=
  let '(ev, c) := l_purge (cache σ) in evict ev (set_cache σ c).

(** ** The socket ([socket.go]) *)
Context (Consume : bytes → outcome E (pubkey * R)) (IDFromPublicKey : pubkey → outcome E bytes).
Context (write : bytes → addr → outcome E unit).

(** [Conn.ReadFrom(buf)] for a buffer of length [n]: [data] is the datagram, of which the
    buffer receives a prefix ([buf[:n]], the first component). *)
Definition ReadFrom (b : nat) (n : Z) (data : bytes) (σ : St) : bytes * St :=
  let got := take (Z.to_nat n) data in
  (got, set_heap σ b (got ++ drop (length got) (content σ b))).

(** [incoming] is the outcome of the connection: a datagram and its sender. *)
Definition Read (incoming : outcome E (bytes * addr)) (σ : St)
    : outcome E (R * addr * bytes) * St :=
  let '(buf, σ) := Get maxDatagramSize σ in
  match incoming with
  | Fail e => (Fail e, Put buf σ)
  | Panic => (Panic, σ)
  | Ret (data, a) =>
      let '(got, σ) := ReadFrom buf maxDatagramSize data σ in
      match Consume got with
      | Fail e => (Fail e, Put buf σ)
      | Panic => (Panic, σ)
      | Ret (pk, r) =>
          match IDFromPublicKey pk with
          | Fail e => (Fail e, Put buf σ)
          | Panic => (Panic, σ)
          | Ret id => (Ret (r, a, id), σ)
          end
      end
  end.

(** [Conn.WriteTo(b, addr)] is given what the buffer holds now; [wire] records it and
    [write] is the result. *)
Definition WriteTo (b : nat) (a : addr) (σ : St) : outcome E unit * St :=
  (write (content σ b) a,
   mkSt (heap σ) (next σ) (pool σ) (cache σ) (nonce σ) (wire σ ++ [(content σ b, a)])).

Definition Write (r : R) (a : addr) (σ : St) : outcome E unit * St :=
  match Seal r σ with
  | (Ret b, σ) => WriteTo b a σ
  | (Fail e, σ) => (Fail e, σ)
  | (Panic, σ) => (Panic, σ)
  end.

(** ** Runs *)
Inductive astep : St → St → Prop :=
| a_write σ r a : astep σ (Write r a σ).2
| a_read σ incoming : astep σ (Read incoming σ).2
| a_purge σ : astep σ (Purge σ).

(** The same, with [Write] as its two calls: [pend] holds the buffers that were returned by
    [Seal] and not yet passed to [WriteTo]. *)
Inductive istep : St * list (nat * addr) → St * list (nat * addr) → Prop :=
| i_seal σ pend r a b σ' : Seal r σ = (Ret b, σ') → istep (σ, pend) (σ', pend ++ [(b, a)])
| i_write σ p1 b a p2 : istep (σ, p1 ++ (b, a) :: p2) ((WriteTo b a σ).2, p1 ++ p2)
| i_read σ pend incoming : istep (σ, pend) ((Read incoming σ).2, pend)
| i_purge σ pend : istep (σ, pend) (Purge σ, pend).

(** The same calls in any interleaving, with the records that were passed to [Seal]. *)
Inductive hstep : St * list R → St * list R → Prop :=
| h_seal σ hist r : hstep (σ, hist) ((Seal r σ).2, hist ++ [r])
| h_write σ hist b a : hstep (σ, hist) ((WriteTo b a σ).2, hist)
| h_read σ hist incoming : hstep (σ, hist) ((Read incoming σ).2, hist)
| h_purge σ hist : hstep (σ, hist) (Purge σ, hist).

(** ** Specification

    Without a cache or a heap, sealing a record is a function of the record and of the
    randomness of the signature. *)
Definition keyof (r : R) : outcome E Z :=
  match Hash r with
  | Some h => h
  | None => match MarshalRecord r with
            | (v, None) => Ret (Sum64 v)
            | (_, Some e) => Fail e
            end
  end.

Definition sealed (n : nat) (r : R) : outcome E bytes := e <~ record_Seal n r ;; Marshal e.

(** Reading is a pure function of the datagram, whichever buffer the pool supplies and
    whatever it held: the first 2048 bytes are opened as an envelope, and the record, the
    sender's address and the identifier of the signing key are returned, or the first
    error; a longer datagram is cut. *)
Theorem read_is_pure (incoming : outcome E (bytes * addr)) (σ : St) :
  (Read incoming σ).1 =
  (p <~ incoming ;; e <~ Consume (take 2048 p.1) ;; id <~ IDFromPublicKey e.1 ;;
   Ret (e.2, p.2, id)).
Proof.
  unfold Read. destruct (Get maxDatagramSize σ) as [b σ1].
  destruct incoming as [[data a]| |]; [|done..]. unfold ReadFrom.
  change (Z.to_nat maxDatagramSize) with 2048%nat. cbn [bind fst snd].
  destruct (Consume _) as [[pk r]| |]; [|done..]. cbn. by destruct (IDFromPublicKey pk).
Qed.

Section invariant.
Context (free : P → list nat) (entries : C → list (Z * nat)).

(** The buffers of the pool and of the cache. *)
Definition owned (σ : St) : list nat := free (pool σ) ++ (entries (cache σ)).*2.

Definition wire_ok (σ : St) : Prop := ∀ v a, (v, a) ∈ wire σ → ∃ r n, sealed n r = Ret v.

Section laws.
Context `{!PoolLaws P free} `{!LRULaws E C entries}.

Section history.
(** The records that were sealed. *)
Context (H : R → Prop).

Definition entry_ok (h : gmap nat bytes) (e : Z * nat) : Prop :=
  ∃ r n v, H r ∧ keyof r = Ret e.1 ∧ sealed n r = Ret v ∧ h !! e.2 = Some v.

(** No buffer is both free and cached, or cached twice, and every cached buffer holds the
    envelope of a record with that key that was sealed. *)
Definition inv (σ : St) : Prop :=
  NoDup (owned σ) ∧ Forall (λ b, b < next σ)%nat (owned σ) ∧
  NoDup (entries (cache σ)).*1 ∧ Forall (entry_ok (heap σ)) (entries (cache σ)).

Lemma inv_fresh σ : inv σ → (next σ ∉ owned σ).
Proof. intros (_ & Hlt & _) Hin. rewrite Forall_forall in Hlt. specialize (Hlt _ Hin). lia. Qed.

(** Giving up buffers, with the heap unchanged. *)
Lemma inv_sub σ σ' :
  heap σ' = heap σ → (next σ ≤ next σ')%nat → owned σ' ⊆+ owned σ →
  entries (cache σ') ⊆+ entries (cache σ) → inv σ → inv σ'.
Proof.
  intros Hh Hn Hsub He (Hnd & Hlt & Hk & Hok). split; [by eapply NoDup_sub|]. split; [|split].
  - rewrite Forall_forall in *. intros b Hb. eapply elem_of_submseteq in Hb; [|done].
    specialize (Hlt _ Hb). lia.
  - eapply NoDup_sub; [|done]. by apply fmap_submseteq.
  - rewrite Hh. rewrite Forall_forall in *. eauto using elem_of_submseteq.
Qed.

Lemma entry_ok_set h b v e : e.2 ≠ b → entry_ok h e → entry_ok (<[b := v]> h) e.
Proof.
  intros Hne (r & n & w & ? & ? & ? & ?). exists r, n, w. split_and!; [done..|]. by rewrite lookup_insert_ne.
Qed.

(** Writing a buffer nobody owns. *)
Lemma inv_set_heap σ b v : (b ∉ owned σ) → inv σ → inv (set_heap σ b v).
Proof.
  intros Hb (Hnd & Hlt & Hk & Hok). split_and!; [done..|]. cbn.
  rewrite Forall_forall in *. intros e Hin. apply entry_ok_set; [|by apply Hok].
  intros <-. apply Hb. unfold owned. apply elem_of_app. right. by apply list_elem_of_fmap_2.
Qed.

Lemma inv_alloc σ v :
  inv σ → inv (alloc v σ).2 ∧ ((alloc v σ).1 ∉ owned (alloc v σ).2).
Proof.
  intros Hinv. pose proof (inv_fresh σ Hinv) as Hf. split; [|done].
  apply (inv_sub (set_heap σ (next σ) v)); [done|cbn; lia|done|done|by apply inv_set_heap].
Qed.

Lemma inv_put σ b : (b ∉ owned σ) → (b < next σ)%nat → inv σ → inv (Put b σ).
Proof.
  intros Hb Hn (Hnd & Hlt & Hk & Hok).
  assert (owned (Put b σ) ⊆+ b :: owned σ) as Hsub.
  { unfold owned, Put. cbn. rewrite app_comm_cons. apply submseteq_skips_r, put_free. }
  split; [|split; [|done]].
  - eapply NoDup_sub; [done|]. by constructor.
  - rewrite Forall_forall in *. intros x Hx. eapply elem_of_submseteq in Hx; [|done].
    apply elem_of_cons in Hx as [->|Hx]; [done|]. by apply Hlt.
Qed.

(** A buffer taken from the pool belongs to the caller alone. *)
Lemma inv_get σ n b σ' :
  Get n σ = (b, σ') → inv σ →
  inv σ' ∧ (b ∉ owned σ') ∧ (b < next σ')%nat ∧ cache σ' = cache σ ∧ wire σ' = wire σ.
Proof.
  unfold Get. destruct (pool_get (pool σ) n) as [[x|] p] eqn:Hg; intros [= <- <-] Hinv.
  - assert (x :: owned (set_pool σ p) ⊆+ owned σ) as Hsub.
    { unfold owned. cbn. rewrite app_comm_cons. apply submseteq_skips_r. by eapply get_some. }
    pose proof Hinv as (Hnd & Hlt & _).
    assert (NoDup (x :: owned (set_pool σ p))) as [Hx _]%NoDup_cons by (by eapply NoDup_sub).
    split; [|split; [done|split; [|done]]].
    + apply (inv_sub σ); [done|done| |done|done]. etrans; [|exact Hsub]. by apply submseteq_cons.
    + rewrite Forall_forall in Hlt. apply Hlt. eapply elem_of_submseteq; [|exact Hsub]. by left.
  - assert (inv (set_pool σ p)) as Hinv'.
    { apply (inv_sub σ); [done|done| |done|done]. unfold owned. cbn.
      apply submseteq_skips_r. by eapply get_none. }
    destruct (inv_alloc _ (replicate (Z.to_nat n) 0) Hinv') as [Hi Hb].
    split; [done|]. split; [done|]. split; [cbn; lia|done].
Qed.

Lemma evict_fields ev σ :
  heap (evict ev σ) = heap σ ∧ next (evict ev σ) = next σ ∧ cache (evict ev σ) = cache σ ∧
  wire (evict ev σ) = wire σ ∧ nonce (evict ev σ) = nonce σ.
Proof.
  revert σ. induction ev as [|e ev IH]; intros σ; [done|].
  change (evict (e :: ev) σ) with (evict ev (Put e.2 σ)).
  by destruct (IH (Put e.2 σ)) as (-> & -> & -> & -> & ->).
Qed.

Lemma evict_free ev σ : free (pool (evict ev σ)) ⊆+ ev.*2 ++ free (pool σ).
Proof.
  revert σ. induction ev as [|e ev IH]; intros σ; [done|]. 
  change (evict (e :: ev) σ) with (evict ev (Put e.2 σ)). etrans; [apply IH|].
  rewrite fmap_cons. cbn [app]. rewrite Permutation_middle. apply submseteq_skips_l. cbn. apply put_free.
Qed.

(** Adding an entry whose buffer the caller owns, with the evictions it causes. *)
Lemma inv_add σ k b ev c :
  inv σ → (b ∉ owned σ) → (b < next σ)%nat → (k ∉ (entries (cache σ)).*1) →
  entry_ok (heap σ) (k, b) → l_add (cache σ) k b = (ev, c) →
  inv (evict ev (set_cache σ c)).
Proof.
  intros (Hnd & Hlt & Hk & Hok) Hb Hn Hkn He Ha.
  pose proof (add_perm _ _ _ _ _ Hkn Ha) as Hp.
  destruct (evict_fields ev (set_cache σ c)) as (Hh & Hx & Hc & _).
  assert (owned (evict ev (set_cache σ c)) ⊆+ b :: owned σ) as Hsub.
  { unfold owned. rewrite Hc. cbn [set_cache cache]. etrans.
    { apply submseteq_skips_r, evict_free. }
    cbn [set_cache pool]. rewrite (Permutation_app_comm ev.*2), <-app_assoc, <-fmap_app, Hp.
    rewrite fmap_cons. cbn. by rewrite Permutation_middle. }
  assert (entries c ⊆+ (k, b) :: entries (cache σ)) as Hent.
  { rewrite <-Hp. by apply submseteq_inserts_l. }
  split_and!.
  - eapply NoDup_sub; [done|]. by constructor.
  - rewrite Hx. rewrite Forall_forall in *. intros x Hin. eapply elem_of_submseteq in Hin; [|done].
    apply elem_of_cons in Hin as [->|Hin]; [done|]. by apply Hlt.
  - rewrite Hc. eapply NoDup_sub; [apply fmap_submseteq, Hent|]. by constructor.
  - rewrite Hh, Hc. rewrite Forall_forall in *. intros e Hin. eapply elem_of_submseteq in Hin; [|done].
    apply elem_of_cons in Hin as [->|Hin]; [done|]. by apply Hok.
Qed.

Lemma deriveKey_spec r σ k σ' :
  deriveKey r σ = (k, σ') → inv σ →
  k = keyof r ∧ inv σ' ∧ cache σ' = cache σ ∧ nonce σ' = nonce σ ∧ wire σ' = wire σ.
Proof.
  unfold deriveKey, keyof. intros Hd Hinv. destruct (Hash r) as [h|]; [by simplify_eq|].
  destruct (MarshalRecord r) as [v err].
  destruct (inv_alloc σ v Hinv) as [Hi Hf]. unfold alloc in *. cbn [fst snd] in *.
  injection Hd as <- <-. split_and!; [|apply inv_put; [done|cbn; lia|done]|done..].
  unfold content. cbn. rewrite lookup_insert_eq. by destruct err.
Qed.

Lemma get_inv σ k o c : l_get (cache σ) k = (o, c) → inv σ → inv (set_cache σ c).
Proof.
  intros Hg Hinv. pose proof (get_perm _ _ _ _ Hg) as Hp.
  apply (inv_sub σ); [done|done| |cbn; by rewrite Hp|done].
  unfold owned. cbn. by rewrite Hp.
Qed.

(** What [Seal] returns is the buffer of the record's key in the cache. *)
Lemma Seal_spec r σ o σ' :
  H r → Seal r σ = (o, σ') → inv σ →
  inv σ' ∧ wire σ' = wire σ ∧
  match o with
  | Ret b => ∃ k, keyof r = Ret k ∧ (k, b) ∈ entries (cache σ')
  | Fail e => keyof r = Fail e ∨ sealed (nonce σ) r = Fail e
  | Panic => keyof r = Panic ∨ sealed (nonce σ) r = Panic
  end.
Proof.
  unfold Seal. intros HU HS Hinv. destruct (deriveKey r σ) as [k0 σ1] eqn:Hd.
  destruct (deriveKey_spec _ _ _ _ Hd Hinv) as (Hk & Hinv1 & Hc & Hn & Hw).
  destruct k0 as [k| |]; [|simplify_eq; auto..].
  destruct (l_get (cache σ1) k) as [g c] eqn:Hg.
  pose proof (get_inv _ _ _ _ Hg Hinv1) as Hinv2.
  destruct g as [b|].
  { injection HS as <- <-. split_and!; [done..|]. exists k. split; [done|].
    cbn. rewrite (get_perm _ _ _ _ Hg). by eapply get_hit. }
  fold (sealed (nonce (set_cache σ1 c)) r) in HS. cbn [set_cache nonce] in HS. rewrite Hn in HS.
  destruct (sealed (nonce σ) r) as [v|e|] eqn:Hv; [|injection HS as <- <-; auto..].
  set (σ2 := mkSt _ _ _ _ (S (nonce σ)) _) in HS.
  assert (inv σ2) as Hinv3 by done.
  destruct (inv_alloc σ2 v Hinv3) as [Hi Hf].
  destruct (alloc v σ2) as [b σ3] eqn:Hal. cbn [fst snd] in Hi, Hf.
  destruct (l_add (cache σ3) k b) as [ev c'] eqn:Ha. injection HS as <- <-.
  assert (k ∉ (entries (cache σ3)).*1) as Hkn.
  { injection Hal as _ <-. cbn. rewrite (get_perm _ _ _ _ Hg). by eapply get_miss. }
  destruct (evict_fields ev (set_cache σ3 c')) as (_ & _ & Hc' & Hw' & _).
  split_and!.
  - apply (inv_add σ3 k b ev c'); try done.
    + injection Hal as <- <-. cbn. lia.
    + exists r, (nonce σ), v. split_and!; [done..|]. injection Hal as <- <-. cbn. by rewrite lookup_insert_eq.
  - rewrite Hw'. by injection Hal as _ <-.
  - exists k. split; [done|]. rewrite Hc'. cbn. by eapply add_keeps.
Qed.

Lemma inv_entry σ k b : inv σ → (k, b) ∈ entries (cache σ) →
  ∃ r n, H r ∧ keyof r = Ret k ∧ sealed n r = Ret (content σ b).
Proof.
  intros (_ & _ & _ & Hok) Hin. rewrite Forall_forall in Hok.
  destruct (Hok _ Hin) as (r & n & v & HU & Hr & Hs & Hh). exists r, n. split_and!; [done..|].
  unfold content. cbn in Hh. by rewrite Hh.
Qed.

(** A buffer in the cache is found, without a new signature. *)
Lemma Seal_hit r σ k b :
  inv σ → keyof r = Ret k → (k, b) ∈ entries (cache σ) →
  ∃ σ', Seal r σ = (Ret b, σ') ∧ nonce σ' = nonce σ.
Proof.
  intros Hinv Hr Hin. unfold Seal. destruct (deriveKey r σ) as [k0 σ1] eqn:Hd.
  destruct (deriveKey_spec _ _ _ _ Hd Hinv) as (-> & Hinv1 & Hc & Hn & _). rewrite Hr, Hc.
  destruct (l_get (cache σ) k) as [[b'|] c] eqn:Hg.
  - assert (b' = b) as ->; [|by eexists].
    destruct Hinv as (_ & _ & Hk & _). apply get_hit in Hg.
    pose proof (elem_of_list_to_map_1 (M:=gmap Z) _ _ _ Hk Hin) as H1.
    pose proof (elem_of_list_to_map_1 (M:=gmap Z) _ _ _ Hk Hg) as H2. congruence.
  - exfalso. eapply get_miss; [done|]. by apply (list_elem_of_fmap_2 fst _ (k, b)).
Qed.

Lemma Purge_inv σ : inv σ → inv (Purge σ) ∧ wire (Purge σ) = wire σ.
Proof.
  unfold Purge. destruct (l_purge (cache σ)) as [ev c] eqn:Hp. intros Hinv.
  destruct (purge_all _ _ _ Hp) as [Hev Hc].
  destruct (evict_fields ev (set_cache σ c)) as (Hh & Hx & Hc' & Hw & _).
  split; [|by rewrite Hw]. apply (inv_sub σ); [by rewrite Hh|by rewrite Hx| | |done].
  - unfold owned. rewrite Hc'. cbn [set_cache cache]. rewrite Hc, app_nil_r.
    etrans; [apply evict_free|]. cbn. by rewrite Hev, Permutation_app_comm.
  - rewrite Hc'. cbn. rewrite Hc. apply submseteq_nil_l.
Qed.

Lemma Read_spec incoming σ o σ' :
  Read incoming σ = (o, σ') → inv σ → inv σ' ∧ cache σ' = cache σ ∧ wire σ' = wire σ.
Proof.
  unfold Read. intros HR Hinv. destruct (Get maxDatagramSize σ) as [b σ1] eqn:Hg.
  destruct (inv_get _ _ _ _ Hg Hinv) as (Hi & Hb & Hn & Hc & Hw).
  assert (∀ v, inv (set_heap σ1 b v) ∧ inv (Put b (set_heap σ1 b v))) as Hset.
  { intros v. pose proof (inv_set_heap _ b v Hb Hi). split; [done|]. by apply inv_put. }
  pose proof (inv_put _ _ Hb Hn Hi).
  destruct incoming as [[data a]| |]; [|by simplify_eq..].
  destruct (Hset (take (Z.to_nat maxDatagramSize) data ++
    drop (length (take (Z.to_nat maxDatagramSize) data)) (content σ1 b))) as [Hs1 Hs2].
  unfold ReadFrom in HR.
  destruct (Consume _) as [[pk r]| |]; [|by simplify_eq..].
  destruct (IDFromPublicKey pk); by simplify_eq.
Qed.

End history.

Lemma inv_mono (H H' : R → Prop) σ : (∀ r, H r → H' r) → inv H σ → inv H' σ.
Proof.
  intros HH (? & ? & ? & Hok). split_and!; [done..|]. eapply Forall_impl; [done|].
  intros e (r & n & v & ? & ?). exists r, n, v. auto.
Qed.

Lemma inv_init H p c size :
  free p = [] → NewCachingSealer size = Ret c → inv H (mkSt ∅ 0 p c 0 []).
Proof.
  intros Hp Hc. apply new_empty in Hc. unfold inv, owned. cbn. rewrite Hp, Hc.
  split_and!; constructor.
Qed.

Lemma hstep_inv s s' : hstep s s' → inv (.∈ s.2) s.1 → inv (.∈ s'.2) s'.1.
Proof.
  intros [σ hist r|σ hist b a|σ hist incoming|σ hist] Hinv; cbn [fst snd] in *.
  - destruct (Seal r σ) as [o σ1] eqn:HS. cbn [snd].
    eapply (Seal_spec (.∈ hist ++ [r]) r σ); [set_solver|done|].
    eapply inv_mono; [|done]. set_solver.
  - done.
  - destruct (Read incoming σ) as [o σ1] eqn:HR. by eapply Read_spec.
  - by apply Purge_inv.
Qed.

Lemma hstep_run p c size σ hist :
  free p = [] → NewCachingSealer size = Ret c →
  rtc hstep (mkSt ∅ 0 p c 0 [], []) (σ, hist) → inv (.∈ hist) σ.
Proof.
  intros Hp Hc Hr. pose proof (inv_init (.∈ []) _ _ _ Hp Hc) as Hi.
  change (inv (.∈ (σ, hist).2) (σ, hist).1).
  eapply (rtc_ind_r (λ s, inv (.∈ s.2) s.1) (_, [])); [exact Hi| |exact Hr].
  intros y z _ Hs. by apply hstep_inv.
Qed.

(** C18. The caching sealer implements plain sealing.  After any interleaving of seals,
    writes, reads and purges, if none of the records sealed so far shares the key of the
    record without being that record, the buffer [Seal] returns holds an envelope of the
    record, exactly as an uncached seal would produce (with some randomness); sealing the
    record again at once returns the same buffer and makes no signature; and an error is
    the error of the key derivation or of the seal. *)
Theorem seal_refines p c size (r : R) (σ σ' : St) (hist : list R) (o : outcome E nat) :
  free p = [] → NewCachingSealer size = Ret c →
  rtc hstep (mkSt ∅ 0 p c 0 [], []) (σ, hist) →
  (∀ r', r' ∈ hist → keyof r' = keyof r → r' = r) → Seal r σ = (o, σ') →
  match o with
  | Ret b => (∃ n, sealed n r = Ret (content σ' b)) ∧
             ∃ σ'', Seal r σ' = (Ret b, σ'') ∧ nonce σ'' = nonce σ'
  | Fail e => keyof r = Fail e ∨ sealed (nonce σ) r = Fail e
  | Panic => keyof r = Panic ∨ sealed (nonce σ) r = Panic
  end.
Proof.
  intros Hp Hc Hr Hcoll HS. pose proof (hstep_run _ _ _ _ _ Hp Hc Hr) as Hinv.
  apply (inv_mono _ (λ x, x ∈ hist ∨ x = r)) in Hinv; [|by left].
  destruct (Seal_spec _ _ _ _ _ (or_intror eq_refl) HS Hinv) as (Hinv' & _ & Ho).
  destruct o as [b| |]; [|done..]. destruct Ho as (k & Hk & Hin). split.
  - destruct (inv_entry _ _ _ _ Hinv' Hin) as (r' & n & [Hh| ->] & Hr' & Hs); exists n; [|done].
    by rewrite <-(Hcoll r') by congruence.
  - by eapply Seal_hit.
Qed.

(** The condition is needed: the key of a record that is not [Hashable] is a hash of its
    payload, and leaves out the envelope's domain and payload type.  A record sealed right
    after another with the same payload gets that record's buffer, whatever its domain. *)
Theorem same_payload_same_envelope p c size (r r' : R) (σ σ' : St) (hist : list R) b :
  free p = [] → NewCachingSealer size = Ret c →
  rtc hstep (mkSt ∅ 0 p c 0 [], []) (σ, hist) →
  Hash r = None → Hash r' = None → MarshalRecord r' = MarshalRecord r →
  Seal r σ = (Ret b, σ') → ∃ σ'', Seal r' σ' = (Ret b, σ'').
Proof.
  intros Hp Hc Hr Hh Hh' Hm HS. pose proof (hstep_run _ _ _ _ _ Hp Hc Hr) as Hinv.
  apply (inv_mono _ (λ _, True)) in Hinv; [|done].
  destruct (Seal_spec _ _ _ _ _ I HS Hinv) as (Hinv' & _ & k & Hk & Hin).
  destruct (Seal_hit _ r' σ' k b Hinv') as (σ'' & ? & _); [|done|by exists σ''].
  unfold keyof in *. by rewrite Hh', Hm, <-Hk, Hh.
Qed.

Lemma astep_inv σ σ' : astep σ σ' → inv (λ _, True) σ ∧ wire_ok σ → inv (λ _, True) σ' ∧ wire_ok σ'.
Proof.
  intros [s r a|s incoming|s] [Hinv Hw].
  - unfold Write. destruct (Seal r s) as [o σ1] eqn:HS.
    destruct (Seal_spec _ _ _ _ _ I HS Hinv) as (Hinv1 & Hw1 & Ho).
    assert (wire_ok σ1) as Hwk by (unfold wire_ok; by rewrite Hw1).
    destruct o as [b| |]; cbn; [|done..]. split; [done|]. intros v a' Hin. cbn in Hin.
    apply elem_of_app in Hin as [Hin|[= -> ->]%list_elem_of_singleton]; [by eapply Hwk|].
    destruct Ho as (k & _ & Hin). destruct (inv_entry _ _ _ _ Hinv1 Hin) as (r' & n & _ & _ & Hs).
    by exists r', n.
  - destruct (Read incoming s) as [o σ1] eqn:HR.
    destruct (Read_spec _ _ _ _ _ HR Hinv) as (Hi & _ & Hw1). split; [done|].
    unfold wire_ok. cbn. by rewrite Hw1.
  - destruct (Purge_inv _ _ Hinv) as [Hi Hw1]. split; [done|]. unfold wire_ok. by rewrite Hw1.
Qed.

(** C33. When every [Write] runs to its end before anything else happens, in any order of
    writes, reads and purges and whatever datagrams arrive, all that is ever written to the
    connection are envelopes, and no buffer is at the same time in the pool and in the
    cache. *)
Theorem atomic_writes_are_envelopes p c size σ :
  free p = [] → NewCachingSealer size = Ret c →
  rtc astep (mkSt ∅ 0 p c 0 []) σ →
  wire_ok σ ∧ NoDup (owned σ).
Proof.
  intros Hp Hc Hr.
  assert (inv (λ _, True) σ ∧ wire_ok σ) as [(? & _) ?]; [|done].
  assert (inv (λ _, True) (mkSt ∅ 0 p c 0 []) ∧ wire_ok (mkSt ∅ 0 p c 0 [])) as Hi.
  { split; [by eapply inv_init|]. intros v a Hin. by apply not_elem_of_nil in Hin. }
  revert Hi. clear Hp Hc.
  induction Hr; eauto using astep_inv.
Qed.
End laws.
End invariant.
End sealer.

(** ** A pool and a cache that keep the promises *)
Fixpoint pool_take (n : Z) (p : list (nat * Z)) : option nat * list (nat * Z) :=
  match p with
  | [] => (None, [])
  | (b, cap) :: p' =>
      if n <=? cap then (Some b, p')
      else let '(o, q) := pool_take n p' in (o, (b, cap) :: q)
  end.

#[local] Instance list_pool : Pool (list (nat * Z)) :=
  {| pool_get p n := pool_take n p; pool_put p b cap := (b, cap) :: p |}.

#[local] Instance list_pool_laws : PoolLaws (list (nat * Z)) (fmap fst).
Proof.
  split; cbn.
  - intros p n. induction p as [|[b cap] p IH]; intros x p' Hg; cbn in *; [done|].
    destruct (n <=? cap); [by simplify_eq|].
    destruct (pool_take n p) as [o q]. simplify_eq. cbn.
    rewrite Permutation_swap. apply submseteq_skip. by apply IH.
  - intros p n. induction p as [|[b cap] p IH]; intros p' Hg; cbn in *; [by simplify_eq|].
    destruct (n <=? cap); [done|]. destruct (pool_take n p) as [o q]. simplify_eq. cbn.
    apply submseteq_skip. by apply IH.
  - done.
Qed.

(** The capacity less one, and the entries, the oldest last. *)
#[local] Instance fifo_cache : LRU unit (nat * list (Z * nat)) := {|
  l_new size := if size <=? 0 then Fail tt else Ret (Z.to_nat size - 1, [])%nat;
  l_get c k := ((λ f, f.2.2) <$> list_find (λ e, e.1 = k) c.2, c);
  l_add c k b := (drop (S c.1) ((k, b) :: c.2), (c.1, take (S c.1) ((k, b) :: c.2)));
  l_purge c := (c.2, (c.1, [])) |}.

#[local] Instance fifo_cache_laws : LRULaws unit (nat * list (Z * nat)) snd.
Proof.
  split; cbn.
  - intros size c. destruct (size <=? 0); by intros [= <-].
  - by intros c k o c' [= _ <-].
  - intros [n l] k b c'. cbn. destruct (list_find _ l) as [[i [k' b']]|] eqn:Hf; [|done].
    apply list_find_Some in Hf as (Hi & Hk & _). cbn in *. intros [= <- _]. subst.
    by eapply list_elem_of_lookup_2.
  - intros [n l] k c'. cbn. destruct (list_find _ l) as [[i [k' b']]|] eqn:Hf; [done|].
    intros _ ([k' b] & -> & Hin)%list_elem_of_fmap. cbn in *.
    apply list_find_None in Hf. rewrite Forall_forall in Hf. by apply (Hf _ Hin).
  - intros [n l] k b ev c' _ [= <- <-]. cbn.
    rewrite <-Permutation_middle. f_equiv. by rewrite Permutation_app_comm, take_drop.
  - intros [n l] k b ev c' _ [= <- <-]. cbn. by left.
  - by intros [n l] ev c' [= <- <-].
Qed.


(** ** A concrete socket

    Records are numbers, their own key; the envelope of [r] fills a datagram with [r]s. *)
Module Toy.
Definition Hash (r : Z) : option (outcome unit Z) := Some (Ret r).
Definition MarshalRecord (r : Z) : bytes * option unit := ([r], None).
Definition Sum64 (v : bytes) : Z := u64 (be_decode v).
Definition record_Seal (n : nat) (r : Z) : outcome unit Z := Ret r.
Definition Marshal (e : Z) : outcome unit bytes := Ret (replicate (Z.to_nat maxDatagramSize) e).
Definition Consume (v : bytes) : outcome unit (unit * Z) := Fail tt.
Definition ID (pk : unit) : outcome unit bytes := Ret [].
Abbreviation state := (@St Z (list (nat * Z)) (nat * list (Z * nat))).
Definition init : state := mkSt ∅ 0 [] (0%nat, []) 0 [].
Definition seal : Z → state → outcome unit nat * state := Seal Hash MarshalRecord Sum64 record_Seal Marshal.
Definition read : outcome unit (bytes * Z) → state → outcome unit (Z * Z * bytes) * state := Read Consume ID.
End Toy.

(** Record 5 is sealed, then evicted by record 6, and sealed again. *)
Lemma seal_refines_witness :
  let σ := (Toy.seal 6 (Toy.seal 5 Toy.init).2).2 in
  (Toy.seal 5 σ).1 = Ret 2%nat ∧
  ∃ n, sealed Toy.record_Seal Toy.Marshal n 5 = Ret (content (Toy.seal 5 σ).2 2).
Proof.
  intros σ.
  assert ((Toy.seal 5 σ).1 = Ret 2%nat) as Hb by (vm_compute; reflexivity).
  split; [exact Hb|].
  assert (Toy.seal 5 σ = (Ret 2%nat, (Toy.seal 5 σ).2)) as He
    by (rewrite <-Hb; apply surjective_pairing).
  refine (proj1 (seal_refines Toy.Hash Toy.MarshalRecord Toy.Sum64 Toy.record_Seal Toy.Marshal
    Toy.Consume Toy.ID (λ _ _, Ret tt) (fmap fst) snd [] (0%nat, []) 1 5
    σ _ [5; 6] (Ret 2%nat) eq_refl eq_refl _ _ He)).
  - eapply rtc_l; [apply (h_seal _ _ _ _ _ _ _ _ Toy.init [] 5)|].
    apply rtc_once. apply (h_seal _ _ _ _ _ _ _ _ _ [5] 6).
  - intros r' _ [= ->]. reflexivity.
Defined.

Lemma atomic_writes_are_envelopes_witness :
  ∃ σ : Toy.state, wire σ = [(replicate 2048 5, 9)] ∧ NoDup (owned (fmap fst) snd σ).
Proof.
  exists (Write (addr:=Z) (P:=list (nat * Z)) Toy.Hash Toy.MarshalRecord Toy.Sum64 Toy.record_Seal Toy.Marshal
    (λ _ _, Ret tt) 5 9 Toy.init).2.
  split; [reflexivity|].
  apply (atomic_writes_are_envelopes Toy.Hash Toy.MarshalRecord Toy.Sum64 Toy.record_Seal
    Toy.Marshal Toy.Consume Toy.ID (λ _ _, Ret tt) (fmap fst) snd [] (0%nat, []) 1);
    [reflexivity|reflexivity|].
  eapply rtc_once, a_write.
Defined.

Abbreviation toy_step :=
  (istep Toy.Hash Toy.MarshalRecord Toy.Sum64 Toy.record_Seal Toy.Marshal
     Toy.Consume Toy.ID (λ _ _, Ret tt)).

Lemma seal_step r a σ pend b :
  (Toy.seal r σ).1 = Ret b → toy_step (σ, pend) ((Toy.seal r σ).2, pend ++ [(b, a)]).
Proof.
  intros Hb. apply (i_seal _ _ _ _ _ _ _ _ _ _ r). unfold Toy.seal in *.
  by destruct (Seal _ _ _ _ _ r σ); cbn in *; subst.
Qed.

(** The promise is not kept when two goroutines write: [Write] holds a reference to a
    buffer of the cache, the other write evicts the entry and so frees the buffer, an
    arriving datagram is read into it, and the first write then sends what it was not
    given, which is the envelope of no record. *)
Theorem interleaved_writes_corrupt :
  ∃ σ, rtc toy_step (Toy.init, []) (σ, []) ∧
    ¬ wire_ok Toy.record_Seal Toy.Marshal σ.
Proof.
  eexists. split.
  - eapply rtc_l; [apply (seal_step 1 9 _ _ 0); vm_compute; reflexivity|].
    eapply rtc_l; [apply (seal_step 2 9 _ _ 1); vm_compute; reflexivity|].
    eapply rtc_l; [apply (i_read _ _ _ _ _ _ _ _ _ _ (Ret ([7; 7], 8)))|].
    eapply rtc_l; [apply (i_write _ _ _ _ _ _ _ _ _ [] _ _ _)|].
    eapply rtc_l; [apply (i_write _ _ _ _ _ _ _ _ _ [] _ _ _)|]. apply rtc_refl.
  - intros Hw. destruct (Hw (7 :: 7 :: replicate 2046 1) 9) as (r & n & Hs); [vm_compute; left|].
    pose proof (f_equal (λ o, match o with Ret l => l !! 0%nat | _ => None end) Hs) as H0.
    pose proof (f_equal (λ o, match o with Ret l => l !! 2%nat | _ => None end) Hs) as H2.
    vm_compute in H0, H2. congruence.
Qed.
