(* ===== verification/Discover.v ===== *)
(** * The [discover] command ([src/internal/cmd/discover], [src/internal/util/log])

    [casm discover] opens a bootstrap socket on a multiaddr and either emits signed packets
    or prints those that arrive.  The flags of the command line are the fields of [Ctx];
    the package's variables ([sock], [addr], [ifi], [t0]) are explicit state.  Opening
    sockets, hosts, envelopes, MD5 and the standard streams are arguments. *)

From stdpp Require Import base list gmap strings.
From Stdlib Require Import ZArith Lia.
From S2P Require Import Prelude BootSocket Survey CrawlService BootUtil.

Open Scope Z_scope.

(** ** Flags *)
Record Ctx := mkCtx {
  c_Command : bytes;              (* c.Command.Name *)
  c_ns : bytes;
  c_generate : bool;
  c_response : bool;
  c_distance : option Z;          (* c.IsSet("distance"), c.Uint("distance") *)
  c_repeat : Z;                   (* int *)
  c_interval : Z }.               (* nanoseconds *)

(** ** Opening the socket ([discover.go], [emit.go], [listen.go]) *)

(** [ma.ForEach] visits the components until the function returns false; [proto] keeps the
    code of the last component visited. *)
Fixpoint proto_from (p : Z) (maddr : Multiaddr) : Z :=
  match maddr with
  | [] => p
  | c :: maddr' =>
      let p := c_code c in
      if (p =? P_CIDR) || (p =? P_MULTICAST) then p else proto_from p maddr'
  end.

Definition proto (maddr : Multiaddr) : Z := proto_from 0 maddr.

Definition ErrUnknownProtocol : serror := ErrExternal 50.

Section sock.
Context {udp conn sock : Type}.

(** The variables of the package; [group] is the field added to the logger. *)
Record Globals := mkGlobals {
  g_sock : option sock; g_addr : option udp; g_ifi : option Interface; g_group : option udp }.

Definition globals0 : Globals := mkGlobals None None None None.

Context (dial_args : Multiaddr → sres (bytes * bytes)).
Context (resolve_udp : bytes → bytes → sres udp) (listen_udp : bytes → sres conn).
Context (by_name : bytes → sres Interface).
Context (join_group : Interface → udp → sres conn) (listen_packet : Multiaddr → sres conn).
Context (new_socket : bytes → conn → sock).

(** [setsock]: the validator's label is ["multicast"] whatever the connection is. *)
Definition setsock (c : conn) (g : Globals) : sres unit * Globals :=
  (Ret tt, mkGlobals (Some (new_socket (bs "multicast") c)) (g_addr g) (g_ifi g) (g_group g)).

(** A call that fails leaves the variables as they are. *)
Definition with_conn (c : sres conn) (g : Globals) : sres unit * Globals :=
  match c with
  | Ret c => setsock c g
  | Fail e => (Fail e, g)
  | Panic => (Panic, g)
  end.

(** [addr] is assigned, with nil on an error, before the connection is opened. *)
Definition dialunicast (maddr : Multiaddr) (g : Globals) : sres unit * Globals :=
  match dial_args maddr with
  | Ret (network, address) =>
      match resolve_udp network address with
      | Ret a => with_conn (listen_udp network) (mkGlobals (g_sock g) (Some a) (g_ifi g) (g_group g))
      | Fail e => (Fail e, mkGlobals (g_sock g) None (g_ifi g) (g_group g))
      | Panic => (Panic, g)
      end
  | Fail e => (Fail e, g)
  | Panic => (Panic, g)
  end.

Definition unicast (maddr : Multiaddr) (g : Globals) : sres unit * Globals :=
  with_conn (listen_packet maddr) g.

Definition multicast (ifi : Interface) (a : udp) (g : Globals) : sres unit * Globals :=
  with_conn (join_group ifi a) g.

(** [addr, ifi, err = survey.ResolveMulticast(maddr)], then [multicast]. *)
Definition resolve_multicast (maddr : Multiaddr) (g : Globals) : sres unit * Globals :=
  match (p <~ dial_args maddr ;; resolve_udp (fst p) (snd p)) with
  | Ret a =>
      match ResolveMulticastInterface (ValueForProtocol maddr P_MULTICAST) by_name with
      | Ret i => multicast i a (mkGlobals (g_sock g) (Some a) (Some i) (Some a))
      | Fail e => (Fail e, mkGlobals (g_sock g) (Some a) None (g_group g))
      | Panic => (Panic, g)
      end
  | Fail e => (Fail e, mkGlobals (g_sock g) None None (g_group g))
  | Panic => (Panic, g)
  end.

(** The two functions differ in the unicast case. *)
Definition by_proto (direct : Multiaddr → Globals → sres unit * Globals)
    (maddr : Multiaddr) (g : Globals) : sres unit * Globals :=
  let p := proto maddr in
  if p =? P_CIDR then direct maddr g
  else if p =? P_MULTICAST then resolve_multicast maddr g
  else (Fail ErrUnknownProtocol, g).

Definition connectsock := by_proto dialunicast.
Definition bindsock := by_proto unicast.
End sock.

(** ** Generating packets ([generate.go]) *)
Section generate.
Context {C env : Type} `{!Cache2Q C env} (put : bytes → sres unit).
(** [libp2p.New] and the seal with the host's key. *)
Context (new_host : sres (bytes * list bytes)) (seal : Packet → sres env).
Context (marshal : env → sres bytes).

Definition generate (c : Ctx) : sres env :=
  cache <~ (NewCache 8 : sres C) ;;
  h <~ new_host ;;
  if c_response c then fst (LoadResponse put cache seal (fst h) (snd h) (c_ns c))
  else match c_distance c with
       | Some d => fst (LoadSurveyRequest put cache seal (fst h) (c_ns c) (u8 d))
       | None => fst (LoadRequest put cache seal (fst h) (c_ns c))
       end.

(** The action of [genpayload]: the bytes are copied to the output. *)
Definition genpayload (copy : bytes → sres unit) (c : Ctx) : sres unit :=
  e <~ generate c ;; b <~ marshal e ;; copy b.

(** ** Emitting packets ([emit.go]) *)
Context (stdin : sres bytes) (unmarshal : bytes → sres env).

Definition payload (c : Ctx) : sres env :=
  if c_generate c then generate c else b <~ stdin ;; unmarshal b.

Definition repeat (c : Ctx) (i : Z) : bool :=
  let limit := c_repeat c in if 0 <? limit then i <? limit else true.

(** [tx n] is the result of the [n]-th [sock.Send], [done n] whether the context is done
    when the [n]-th [select] is reached.  The loop has sent [n] packets and waited [t]; the
    last component is what it returned, if it did within the fuel. *)
Fixpoint send_loop (tx : nat → sres unit) (done : nat → bool) (c : Ctx) (fuel n : nat) (t : Z)
    : nat * Z * option (sres unit) :=
  match fuel with
  | O => (n, t, None)
  | S fuel' =>
      if repeat c (i64 (Z.of_nat n)) then
        match tx n with
        | Ret _ => send_loop tx done c fuel' (S n) (t + if done n then 0 else c_interval c)
        | err => (S n, t, Some err)
        end
      else (n, t, Some (Ret tt))
  end.

Definition send (tx : env → nat → sres unit) (done : nat → bool) (c : Ctx) (fuel : nat)
    : nat * Z * option (sres unit) :=
  match payload c with
  | Ret e => send_loop (tx e) done c fuel 0 0
  | Fail e => (O, 0, Some (Fail e))
  | Panic => (O, 0, Some Panic)
  end.
End generate.

(** ** Printing packets ([listen.go]) *)

(** [Tick]: the seconds since the first call; [t0] is the package variable, [now] and
    [now'] the readings of the clock by [time.Now] and [time.Since]. *)
Definition Tick (t0 : option Z) (now now' : Z) : Z * option Z :=
  let start := match t0 with None => now | Some t => t end in
  (Z.quot (now' - start) Second, Some start).

Definition hexdigit (n : Z) : Z := if n <? 10 then 48 + n else 87 + n.
Definition hex (l : bytes) : bytes := l ≫= λ b, [hexdigit (b / 16); hexdigit (b `mod` 16)].

(** The colour of a string: three bytes of its MD5 hash, each shifted left by one. *)
Definition Colorize (md5 : bytes → bytes) (s : bytes) : bytes :=
  bs "#" ++ hex (take 3 ((λ b, u8 (Z.shiftl b 1)) <$> take 3 (md5 s))).

(** What the template prints for a packet. *)
Record Rendered := mkRendered {
  r_proto : bytes; r_size : Z; r_type : RecordType; r_ns : bytes; r_peer : bytes;
  r_distance : option Z; r_err : option serror }.

Section render.
Context (id_from_bytes : bytes → sres bytes) {pubkey : Type} (matches : bytes → pubkey → bool).
(** [Size] marshals the envelope; [output] is the writer. *)
Context (size : pubkey → Packet → sres Z) (output : Rendered → sres unit).

(** [t.Execute]: the fields are evaluated in the order of the template, and an error of a
    field ends it. *)
Definition Execute (label : bytes) (err : option serror) (e : pubkey) (r : Packet) : sres unit :=
  n <~ size e r ;;
  ns <~ namespace r ;;
  peer <~ Peer id_from_bytes r ;;
  output (mkRendered label n (Type_ r) ns peer
            (if BootSocket.IsSurvey r then Some (Distance r) else None) err).

(** The basic validator's verdict is printed, not returned. *)
Definition render (c : Ctx) (label : bytes) (e : pubkey) (r : Packet) : sres unit :=
  if bytes_eqb (c_Command c) (bs "emit") then Ret tt
  else
    let verdict := BasicValidator id_from_bytes matches [] e r in
    match Type_ r with
    | TypeOther => Panic
    | _ =>
        match verdict with
        | Ret _ => Execute label None e r
        | Fail err => Execute label (Some err) e r
        | Panic => Panic
        end
    end.
End render.

(** [errlogger]: a context is a cell that says whether it is done, and a done context stays
    done.  The result is the handler, which reads the cell when it is called, and the cell
    as the deferred [cancel] leaves it. *)
Definition NotifyContext (parent : bool) : bool := parent.
Definition cancel (ctx : bool) : bool := true.

Definition error_handler (ctx : bool) (e : serror) : list serror := if ctx then [] else [e].

Definition errlogger (parent : bool) : (bool → serror → list serror) * bool :=
  let ctx := NotifyContext parent in (error_handler, cancel ctx).

(** What the socket's error handler prints for an error. *)
Definition logged (parent : bool) (e : serror) : list serror :=
  let '(h, ctx) := errlogger parent in h ctx e.

(** ** Logging ([logutil.go]) *)
Inductive Level := TraceLevel | DebugLevel | InfoLevel | WarnLevel | ErrorLevel | FatalLevel.

Definition one_of (s : bytes) (l : list bytes) : bool := existsb (bytes_eqb s) l.

Definition WithLevel (trace : bool) (logfmt loglvl : bytes) : Level :=
  if trace then TraceLevel
  else if bytes_eqb logfmt (bs "none") then FatalLevel
  else if one_of loglvl [bs "trace"; bs "t"] then TraceLevel
  else if one_of loglvl [bs "debug"; bs "d"] then DebugLevel
  else if one_of loglvl [bs "info"; bs "i"] then InfoLevel
  else if one_of loglvl [bs "warn"; bs "warning"; bs "w"] then WarnLevel
  else if one_of loglvl [bs "error"; bs "err"; bs "e"] then ErrorLevel
  else if one_of loglvl [bs "fatal"; bs "f"] then FatalLevel
  else InfoLevel.

Inductive Formatter := JSONFormatter (pretty : bool) | TextFormatter.

(** [None] is the nil formatter. *)
Definition WithFormat (logfmt : bytes) (prettyprint : bool) : option Formatter :=
  if bytes_eqb logfmt (bs "none") then None
  else if bytes_eqb logfmt (bs "json") then Some (JSONFormatter prettyprint)
  else Some TextFormatter.

(** ** Choosing the transport *)
Definition boot_code (c : Component) : bool := (c_code c =? P_CIDR) || (c_code c =? P_MULTICAST).

Lemma proto_from_first p maddr :
  proto_from p maddr = match find boot_code maddr with
                       | Some c => c_code c
                       | None => default p (c_code <$> last maddr)
                       end.
Proof.
  revert p; induction maddr as [|c maddr IH]; intros p; [done|]. cbn [proto_from find].
  unfold boot_code at 1. destruct ((c_code c =? P_CIDR) || _); [done|]. rewrite IH.
  destruct (find boot_code maddr); [done|]. destruct maddr as [|x l]; [done|].
  rewrite last_cons_cons. destruct (last (x :: l)) eqn:Hl; [done|]. by apply last_None in Hl.
Qed.

Lemma proto_none maddr :
  find boot_code maddr = None ↔ proto maddr ≠ P_CIDR ∧ proto maddr ≠ P_MULTICAST.
Proof.
  unfold proto. rewrite proto_from_first. destruct (find boot_code maddr) as [c|] eqn:Hf.
  - apply find_some in Hf as [_ Hb]. unfold boot_code in Hb.
    rewrite orb_true_iff, !Z.eqb_eq in Hb. split; [done|]. tauto.
  - split; [|done]. intros _.
    destruct (last maddr) as [c|] eqn:Hl; cbn; [|done].
    assert (c ∈ maddr) as Hin. { by apply last_Some_elem_of. }
    apply list_elem_of_In in Hin. pose proof (find_none _ _ Hf _ Hin) as Hb.
    unfold boot_code in Hb. rewrite orb_false_iff, !Z.eqb_neq in Hb. done.
Qed.

(** ** Emitting *)
Fixpoint waits (done : nat → bool) (interval : Z) (n k : nat) : Z :=
  match k with
  | O => 0
  | S k' => (if done n then 0 else interval) + waits done interval (S n) k'
  end.

Lemma send_loop_run tx done c k : ∀ n t fuel,
  (∀ i, (n ≤ i < n + k)%nat → tx i = Ret tt ∧ repeat c (i64 (Z.of_nat i)) = true) →
  send_loop tx done c (k + fuel) n t =
  send_loop tx done c fuel (n + k) (t + waits done (c_interval c) n k).
Proof.
  induction k as [|k IH]; intros n t fuel Hi; cbn [waits].
  - by rewrite Nat.add_0_r, Z.add_0_r.
  - destruct (Hi n) as [Htx Hr]; [lia|]. cbn [Nat.add send_loop]. rewrite Hr, Htx.
    rewrite IH by (intros i Hb; apply Hi; lia). f_equal; lia.
Qed.

Lemma repeat_below c i :
  0 < c_repeat c < 2 ^ 63 → (Z.of_nat i < c_repeat c)%Z → repeat c (i64 (Z.of_nat i)) = true.
Proof.
  intros Hc Hi. unfold repeat. rewrite wrap_i_small by (unfold in_i; lia).
  rewrite (proj2 (Z.ltb_lt 0 _)) by lia. by apply Z.ltb_lt.
Qed.

(** [emit --repeat N] with N positive always ends: it sends exactly N packets when every
    send succeeds, waiting once after each of them, and stops with the error right after
    the first send that fails. *)
Theorem emit_sends_repeat (tx : nat → sres unit) (done : nat → bool) (c : Ctx) (fuel : nat) :
  0 < c_repeat c < 2 ^ 63 → (Z.to_nat (c_repeat c) < fuel)%nat →
  ((∀ i, (i < Z.to_nat (c_repeat c))%nat → tx i = Ret tt) →
     send_loop tx done c fuel 0 0 =
     (Z.to_nat (c_repeat c), waits done (c_interval c) 0 (Z.to_nat (c_repeat c)), Some (Ret tt))) ∧
  (∀ k e, (k < Z.to_nat (c_repeat c))%nat → (∀ i, (i < k)%nat → tx i = Ret tt) → tx k = Fail e →
     send_loop tx done c fuel 0 0 = (S k, waits done (c_interval c) 0 k, Some (Fail e))).
Proof.
  intros Hc Hfuel. split.
  - intros Hok. set (N := Z.to_nat (c_repeat c)) in *.
    replace fuel with (N + S (fuel - N - 1))%nat by lia.
    rewrite send_loop_run by (intros i Hi; split; [apply Hok|apply repeat_below]; lia).
    cbn [send_loop Nat.add]. unfold repeat. rewrite wrap_i_small by (unfold in_i; lia).
    rewrite (proj2 (Z.ltb_lt 0 _)), (proj2 (Z.ltb_ge _ _)) by lia. f_equal.
  - intros k e Hk Hok He.
    replace fuel with (k + S (fuel - k - 1))%nat by lia.
    rewrite send_loop_run by (intros i Hi; split; [apply Hok|apply repeat_below]; lia).
    cbn [send_loop Nat.add]. rewrite repeat_below, He by lia. f_equal.
Qed.

Lemma emit_sends_repeat_witness :
  let c := mkCtx (bs "emit") (bs "casm") true false None 3 1000 in
  send_loop (λ _, Ret tt) (λ _, false) c 4 0 0 = (3%nat, 3000, Some (Ret tt)).
Proof.
  intros c.
  exact (proj1 (emit_sends_repeat (λ _, Ret tt) (λ _, false) c 4 ltac:(done) ltac:(vm_compute; lia))
           (λ _ _, eq_refl)).
Defined.

(** [emit --repeat 0] repeats without end and does not react to an interrupt: the
    [select] only skips the pause, so once the context is done the loop sends packet after
    packet without waiting and returns for no number of iterations. *)
Theorem emit_ignores_interrupt (tx : nat → sres unit) (done : nat → bool) (c : Ctx) (start : nat) :
  c_repeat c ≤ 0 → (∀ i, tx i = Ret tt) → (∀ i, (start ≤ i)%nat → done i = true) →
  ∀ fuel, send_loop tx done c (start + fuel) 0 0 =
    (start + fuel, waits done (c_interval c) 0 start, None)%nat.
Proof.
  intros Hc Htx Hdone fuel.
  assert (∀ i, repeat c i = true) as Hr.
  { intros i. unfold repeat. by rewrite (proj2 (Z.ltb_ge 0 _)). }
  rewrite send_loop_run by (intros; split; auto). cbn [Nat.add]. rewrite Z.add_0_l.
  generalize (waits done (c_interval c) 0 start) as t. intros t.
  assert (∀ n, (start ≤ n)%nat → waits done (c_interval c) n fuel = 0) as Hw.
  { clear t. induction fuel as [|fuel IH]; intros n Hn; [done|]. cbn [waits].
    rewrite Hdone, IH by lia. done. }
  replace fuel with (fuel + 0)%nat at 1 by lia.
  rewrite send_loop_run by (intros; split; auto). cbn [send_loop]. by rewrite Hw, Z.add_0_r by lia.
Qed.

Lemma emit_ignores_interrupt_witness :
  let c := mkCtx (bs "emit") (bs "casm") true false None 0 1000 in
  send_loop (λ _, Ret tt) (λ i, (2 <=? i)%nat) c (2 + 500) 0 0 = (502%nat, 2000, None).
Proof.
  intros c.
  exact (emit_ignores_interrupt (λ _, Ret tt) (λ i, (2 <=? i)%nat) c 2 ltac:(done)
           (λ _, eq_refl) (λ i Hi, proj2 (Nat.leb_le 2 i) Hi) 500).
Defined.

(** ** Generating *)
Section generated.
Context {C env : Type} `{!Cache2Q C env} (holds : C → key → env → Prop).
Context (put : bytes → sres unit) (new_host : sres (bytes * list bytes)) (seal : Packet → sres env).

(** [generate] seals one packet for the namespace of the flags: a response when
    [--response] is given, whatever the other flags; otherwise a survey with the distance
    modulo 256 when [--distance] is given; otherwise a request. *)
Theorem generate_kind (c : Ctx) (e : env) :
  Cache2QLaws holds → (∀ n k x c0, c_new n = Ret c0 → ¬ holds c0 k x) →
  generate (C:=C) put new_host seal c = Ret e →
  ∃ p, seal p = Ret e ∧ namespace p = Ret (c_ns c) ∧
    match c_response c, c_distance c, which p with
    | true, _, response _ => True
    | false, Some d, survey _ d' => d' = d `mod` 256
    | false, None, request _ => True
    | _, _, _ => False
    end.
Proof.
  unfold generate. intros Hlaws Hempty (cache & Hc & (h & _ & He)%bind_Ret_inv)%bind_Ret_inv.
  assert (cache_ok holds seal cache) as Hok.
  { unfold NewCache in Hc. destruct (c_new _) as [c0| |] eqn:Hn; simplify_eq.
    intros k x Hh. by apply (Hempty _ _ _ _ Hn) in Hh. }
  destruct (c_response c); [|destruct (c_distance c) as [d|]].
  - destruct (load_ok holds seal cache _ _ Hok (response_packet_matches put h.1 h.2 (c_ns c)))
      as [_ Hl].
    destruct (Hl e He) as (p & Hs & Hn & Hw). exists p. cbn in Hw. by destruct (which p).
  - destruct (load_ok holds seal cache _ _ Hok (survey_packet_matches put h.1 (c_ns c) (u8 d)))
      as [_ Hl].
    destruct (Hl e He) as (p & Hs & Hn & Hw). exists p. cbn in Hw. by destruct (which p).
  - destruct (load_ok holds seal cache _ _ Hok (request_packet_matches put h.1 (c_ns c)))
      as [_ Hl].
    destruct (Hl e He) as (p & Hs & Hn & Hw). exists p. cbn in Hw. by destruct (which p).
Qed.
End generated.

#[local] Existing Instance list_cache.

Lemma generate_kind_witness :
  let c := mkCtx (bs "genpayload") (bs "casm") false false (Some 258) 1 0 in
  ∃ e, generate (C:=list (key * Packet)) (λ _, Ret tt) (Ret (bs "p", [])) Ret c = Ret e ∧
    match which e with survey _ d => d = 2 | _ => False end.
Proof.
  intros c. eexists. split; [reflexivity|].
  destruct (generate_kind (λ l k e, (k, e) ∈ l) (λ _, Ret tt) (Ret (bs "p", [])) Ret c _
    list_cache_laws ltac:(intros n k x c0 [= <-]; apply not_elem_of_nil) eq_refl)
    as (p & [= ->] & _ & Hd). exact Hd.
Defined.

(** ** Listening *)
Section listening.
Context (id_from_bytes : bytes → sres bytes) {pubkey addr : Type}.
Context (matches : bytes → pubkey → bool) (consume : bytes → sres (pubkey * Packet)).
Context (size : pubkey → Packet → sres Z) (output : Rendered → sres unit).

(** What [listen] does with an envelope that opens: a packet of unknown kind makes the
    serving goroutine panic, although the basic validator reports it as an error; a packet
    whose fields can be read is printed and accepted whether or not the key that signed it
    belongs to the peer it names, the verdict being only part of what is printed. *)
Theorem listen_verdict (c : Ctx) (label data : bytes) (a : addr) (k : pubkey) (r : Packet) (done : bool) :
  c_Command c ≠ bs "emit" → consume (received data) = Ret (k, r) →
  (which r = other →
     serve_step (Scan consume (render id_from_bytes matches size output c label) (Ret (data, a))) done
       = Panic ∧
     Scan consume (BasicValidator id_from_bytes matches []) (Ret (data, a))
       = Fail (ValidationError ErrRecordType)) ∧
  (∀ n ns p, size k r = Ret n → namespace r = Ret ns → Peer id_from_bytes r = Ret p →
     Scan consume (render id_from_bytes matches size output c label) (Ret (data, a)) =
     (_ <~ wrap_validation (output (mkRendered label n (Type_ r) ns p
            (match which r with survey _ d => Some d | _ => None end)
            (if matches p k then None else Some ErrInvalidSignature))) ;;
      Ret (r, a))).
Proof.
  intros Hc Hcons. unfold Scan. cbn [bind fst snd]. rewrite Hcons. cbn [bind fst snd wrap_validation].
  assert (bytes_eqb (c_Command c) (bs "emit") = false) as He by (by apply bool_decide_false).
  unfold render. rewrite He. split.
  - intros Hw. unfold Type_, BasicValidator, Peer. by rewrite Hw.
  - intros n ns p Hn Hns Hp. unfold BasicValidator. rewrite Hp. cbn [bind bytes_eqb].
    change (bytes_eqb [] []) with true. cbn [negb andb]. unfold Execute.
    rewrite Hn, Hns, Hp. cbn [bind]. unfold Type_, BootSocket.IsSurvey, Distance.
    unfold Peer in Hp. destruct (which r); [..|discriminate Hp]; by destruct (matches p k).
Qed.
End listening.

Lemma listen_verdict_witness :
  let c := mkCtx (bs "listen") (bs "casm") false false None 1 0 in
  let r := mkPacket (Ret (bs "casm")) (Ret []) other in
  serve_step (Scan (λ _, Ret (tt, r))
    (render Ret (λ _ _, true) (λ _ _, Ret 0) (λ _, Ret tt) c (bs "multicast")) (Ret ([], 0))) false = Panic.
Proof.
  intros c r.
  destruct (listen_verdict Ret (λ _ _, true) (λ _, Ret (tt, r)) (λ _ _, Ret 0) (λ _, Ret tt)
    c (bs "multicast") [] 0 tt r false ltac:(discriminate) eq_refl) as [H _].
  exact (proj1 (H eq_refl)).
Defined.

(** The error handler of the command never prints. *)
Lemma errlogger_silent (parent : bool) (e : serror) : logged parent e = [].
Proof. done. Qed.

(** The first packet is printed at tick 0 and the clock keeps its origin. *)
Lemma Tick_first now now' : now ≤ now' < now + Second → Tick None now now' = (0, Some now).
Proof.
  intros H. unfold Tick, Second in *. f_equal. rewrite Z.quot_small; [done|lia].
Qed.

Lemma Tick_mono t0 a b a' b' :
  let '(n, s) := Tick t0 a b in b ≤ b' → n ≤ (Tick s a' b').1.
Proof. cbn. intros H. apply Z.quot_le_mono; [unfold Second|]; lia. Qed.

(** ** Colours *)
Lemma hexdigit_lower n : 0 ≤ n < 16 → 48 ≤ hexdigit n ≤ 57 ∨ 97 ≤ hexdigit n ≤ 102.
Proof. unfold hexdigit. destruct (Z.ltb_spec n 10); lia. Qed.

Lemma Colorize_length md5 s : (3 ≤ length (md5 s))%nat → length (Colorize md5 s) = 7%nat.
Proof.
  intros H. unfold Colorize, hex. rewrite length_app.
  destruct (md5 s) as [|x [|y [|z l]]]; cbn in *; (lia || done).
Qed.

(** ** Log levels *)
Lemma level_none_silent loglvl : WithLevel false (bs "none") loglvl = FatalLevel.
Proof. done. Qed.

Lemma level_known logfmt l :
  l ∈ [("trace"%string, TraceLevel); ("debug"%string, DebugLevel); ("info"%string, InfoLevel);
       ("warn"%string, WarnLevel); ("error"%string, ErrorLevel); ("fatal"%string, FatalLevel)] →
  bytes_eqb logfmt (bs "none") = false → WithLevel false logfmt (bs l.1) = l.2.
Proof.
  intros Hl Hn. unfold WithLevel. rewrite Hn.
  repeat (apply elem_of_cons in Hl as [->|Hl]; [reflexivity|]). by apply not_elem_of_nil in Hl.
Qed.
