(* ===== verification/Command.v ===== *)
(** * The [casm] command from its flags to its exit
    ([src/cmd/casm/main.go], [src/internal/cmd/discover/discover.go], [emit.go],
    [listen.go], [generate.go])

    [Discover] has what the subcommands do.  Here is what holds them together: the flags
    they declare and read, the hooks urfave/cli runs around an action ([command],
    [CliLaws]), the goroutine that serves the socket beside the action ([serving]), and the
    signals that end the process ([sig_step], the goroutine of [before]). *)

From stdpp Require Import base list gmap strings.
From Stdlib Require Import ZArith Lia.
From S2P Require Import Prelude BootSocket Survey CrawlService BootUtil Discover.

Open Scope Z_scope.

(** ** Flags *)
Inductive flag_value := FString (s : bytes) | FBool (b : bool) | FUint64 (n : Z) | FInt (n : Z) | FDuration (n : Z).

#[global] Instance flag_value_eq_dec : EqDecision flag_value.
Proof. solve_decision. Defined.

Record Flag := mkFlag { flag_Name : bytes; Aliases : list bytes; Value : flag_value; EnvVars : list bytes }.

(** [main.flags]. *)
Definition main_flags : list Flag :=
  [mkFlag (bs "logfmt") [bs "f"] (FString (bs "text")) [bs "WW_LOGFMT"];
   mkFlag (bs "loglvl") [] (FString (bs "info")) [bs "WW_LOGLVL"];
   mkFlag (bs "prettyprint") [bs "pp"] (FBool false) []].

Definition discover_flags : list Flag :=
  [mkFlag (bs "ns") [] (FString (bs "casm")) [bs "CASM_NS"];
   mkFlag (bs "addr") [bs "a"] (FString (bs "/ip4/228.8.8.8/udp/8822/multicast/lo0")) []].

Definition emit_flags : list Flag :=
  [mkFlag (bs "generate") [bs "g"] (FBool false) [];
   mkFlag (bs "response") [bs "resp"; bs "res"] (FBool false) [];
   mkFlag (bs "distance") [bs "dist"] (FUint64 0) [];
   mkFlag (bs "repeat") [bs "r"] (FInt 1) [];
   mkFlag (bs "interval") [bs "i"] (FDuration Second) []].

Definition genpayload_flags : list Flag :=
  [mkFlag (bs "response") [bs "res"; bs "resp"] (FBool false) [];
   mkFlag (bs "distance") [bs "dist"] (FUint64 0) []].

(** The flags in scope of a subcommand. *)
Definition scope (sub : list Flag) : list Flag := main_flags ++ discover_flags ++ sub.
Definition flag_names (fs : list Flag) : list bytes := fs ≫= λ f, flag_Name f :: Aliases f.

(** [set] has the values given on the command line or by the environment, by flag name.  A flag
    that is not declared has the zero value of the type asked for. *)
Section reading.
Context (fs : list Flag) (set : bytes → option flag_value).

Definition declared (n : bytes) : option Flag := head (filter (λ f, flag_Name f = n) fs).
Definition flag_value_of (n : bytes) : option flag_value :=
  f ← declared n; Some (default (Value f) (set n)).

Definition c_String (n : bytes) : bytes := match flag_value_of n with Some (FString s) => s | _ => [] end.
Definition c_Bool (n : bytes) : bool := match flag_value_of n with Some (FBool b) => b | _ => false end.
Definition c_Int (n : bytes) : Z := match flag_value_of n with Some (FInt z) => z | _ => 0 end.
Definition c_Duration (n : bytes) : Z := match flag_value_of n with Some (FDuration z) => z | _ => 0 end.
Definition c_IsSet (n : bytes) : bool := bool_decide (is_Some (declared n)) && bool_decide (is_Some (set n)).

(** What the subcommands of [discover] read; [uint] is what [c.Uint] makes of the value of
    the distance. *)
Definition read_ctx (command : bytes) (uint : Z) : Ctx :=
  mkCtx command (c_String (bs "ns")) (c_Bool (bs "generate")) (c_Bool (bs "response"))
    (if c_IsSet (bs "distance") then Some uint else None) (c_Int (bs "repeat")) (c_Duration (bs "interval")).

(** [logutil.New]. *)
Definition read_log : Level * option Formatter :=
  (WithLevel (c_Bool (bs "trace")) (c_String (bs "logfmt")) (c_String (bs "loglvl")),
   WithFormat (c_String (bs "logfmt")) (c_Bool (bs "prettyprint"))).
End reading.

(** ** Hooks *)

(** A command of urfave/cli; a hook that is not set is [nop]. *)
Record command (W : Type) := mkCommand {
  cmd_Name : bytes; cmd_Flags : list Flag;
  Before : W → sres unit * W; Action : W → sres unit * W; After : W → sres unit * W }.
Arguments mkCommand {W} _ _ _ _ _.
Arguments cmd_Name {W} _.
Arguments cmd_Flags {W} _.
Arguments Before {W} _ _.
Arguments Action {W} _ _.
Arguments After {W} _ _.

Definition nop {W} (w : W) : sres unit * W := (Ret tt, w).

Definition failed (r : sres unit) : Prop := ∃ e, r = Fail e.

(** [cli_run p s w] runs command [p] with its subcommand [s].  What the library documents:
    [Before] runs before any subcommand, which is not run when it fails; [After] runs
    after the subcommand has finished, also when that has failed. *)
Class CliLaws {W : Type} (cli_run : command W → command W → W → sres unit * W) : Prop := {
  run_before_fails p s w w1 e : Before p w = (Fail e, w1) →
    failed (fst (cli_run p s w)) ∧ (snd (cli_run p s w) = w1 ∨ snd (cli_run p s w) = snd (After p w1));
  run_sub_fails p s w w1 w2 e : Before p w = (Ret tt, w1) → Before s w1 = (Fail e, w2) → After s = nop →
    failed (fst (cli_run p s w)) ∧ snd (cli_run p s w) = snd (After p w2);
  run_action p s w w1 w2 w3 r : Before p w = (Ret tt, w1) → Before s w1 = (Ret tt, w2) → After s = nop →
    Action s w2 = (r, w3) → r ≠ Panic → fst (After p w3) ≠ Panic →
    (fst (cli_run p s w) = Ret tt ↔ r = Ret tt ∧ fst (After p w3) = Ret tt) ∧
    snd (cli_run p s w) = snd (After p w3) }.

(** ** The [discover] command *)
Section discover.
Context {udp conn sock : Type} `{!EqDecision sock}.

Abbreviation Globals := (Globals (udp:=udp) (sock:=sock)).

(** The variables of the package and the sockets whose connection was closed, which are
    those whose [done] channel is. *)
Record world := mkWorld { w_maddr : option Multiaddr; w_globals : Globals; w_closed : list sock }.
Definition world0 : world := mkWorld None globals0 [].

Context (new_multiaddr : bytes → sres Multiaddr).
Context (dial_args : Multiaddr → sres (bytes * bytes)).
Context (resolve_udp : bytes → bytes → sres udp) (listen_udp : bytes → sres conn).
Context (by_name : bytes → sres Interface).
Context (join_group : Interface → udp → sres conn) (listen_packet : Multiaddr → sres conn).
Context (new_socket : bytes → conn → sock) (close : sock → sres unit).

(** [parse]: an error leaves a nil address. *)
Definition parse (addr : bytes) (w : world) : sres unit * world :=
  match new_multiaddr addr with
  | Ret m => (Ret tt, mkWorld (Some m) (w_globals w) (w_closed w))
  | Fail e => (Fail e, mkWorld None (w_globals w) (w_closed w))
  | Panic => (Panic, w)
  end.

(** A hook that opens the socket for the address. *)
Definition opening (f : Multiaddr → Globals → sres unit * Globals) (w : world) : sres unit * world :=
  match w_maddr w with
  | Some m => let '(r, g) := f m (w_globals w) in (r, mkWorld (w_maddr w) g (w_closed w))
  | None => (Panic, w)
  end.

(** [Socket.Close] closes the connection the first time; [close] is the result of that. *)
Definition Sock_Close (k : sock) (w : world) : sres unit * world :=
  if decide (k ∈ w_closed w) then (Ret tt, w)
  else (close k, mkWorld (w_maddr w) (w_globals w) (w_closed w ++ [k])).

Definition teardown (w : world) : sres unit * world :=
  match g_sock (w_globals w) with
  | Some k => Sock_Close k w
  | None => (Ret tt, w)
  end.

(** The goroutine that [setsock] starts with [Bind], up to the end of the action: [net] has
    what reading, validating ([Discover.render]) and handling made of each datagram.  An
    error is printed; a network error ends the goroutine, which closes the socket; a panic
    ends the process. *)
Fixpoint serving (k : sock) (net : list (sres unit)) (w : world) : sres unit * world :=
  match net with
  | [] => (Ret tt, w)
  | err :: net' =>
      match serve_step err (bool_decide (k ∈ w_closed w)) with
      | Ret ServeContinue | Ret (ServeReported _) => serving k net' w
      | Ret ServeReturn => (Ret tt, w)
      | Ret (ServeClose _) => (Ret tt, snd (Sock_Close k w))
      | Fail _ | Panic => (Panic, w)
      end
  end.

(** An action with the goroutine beside it. *)
Definition during (net : list (sres unit)) (action : world → sres unit * world) (w : world) : sres unit * world :=
  match g_sock (w_globals w) with
  | Some k => match serving k net w with
              | (Panic, w) => (Panic, w)
              | (_, w) => action w
              end
  | None => action w
  end.

(** [recv] returns once the context is done; [sock.Send] of the [send] action dereferences
    the socket. *)
Definition recv (w : world) : sres unit * world := (Ret tt, w).
Definition sending (r : sres unit) (w : world) : sres unit * world :=
  match g_sock (w_globals w) with Some _ => (r, w) | None => (Panic, w) end.

(** [Command] and its subcommands; [r] is what the action returns, [Discover.send] or
    [Discover.genpayload]. *)
Definition Command (addr : bytes) : command world :=
  mkCommand (bs "discover") discover_flags (parse addr) nop teardown.
Definition listen (net : list (sres unit)) : command world :=
  mkCommand (bs "listen") []
    (opening (bindsock dial_args resolve_udp by_name join_group listen_packet new_socket)) (during net recv) nop.
Definition emit (net : list (sres unit)) (r : sres unit) : command world :=
  mkCommand (bs "emit") emit_flags
    (opening (connectsock dial_args resolve_udp listen_udp by_name join_group new_socket))
    (during net (sending r)) nop.
Definition genpayload_command (r : sres unit) : command world :=
  mkCommand (bs "genpayload") genpayload_flags nop (λ w, (r, w)) nop.

(** ** Facts *)

(** Opening succeeds with a socket, or leaves the one there is. *)
Definition opened (g : Globals) (p : sres unit * Globals) : Prop :=
  match fst p with
  | Ret _ => is_Some (g_sock (snd p))
  | Fail _ => g_sock (snd p) = g_sock g
  | Panic => False
  end.

(** The library calls do not panic. *)
Record quiet : Prop := {
  q_multiaddr a : new_multiaddr a ≠ Panic;
  q_dial m : dial_args m ≠ Panic;
  q_resolve n a : resolve_udp n a ≠ Panic;
  q_listen n : listen_udp n ≠ Panic;
  q_name n : by_name n ≠ Panic;
  q_join i a : join_group i a ≠ Panic;
  q_packet m : listen_packet m ≠ Panic;
  q_close s : close s ≠ Panic }.

Lemma with_conn_opens c (g g' : Globals) :
  c ≠ Panic → g_sock g' = g_sock g → opened g (with_conn new_socket c g').
Proof. unfold opened. destruct c; cbn; [by eexists|done|done]. Qed.

Lemma by_proto_opens direct m g :
  quiet → (∀ m g, opened g (direct m g)) →
  opened g (by_proto dial_args resolve_udp by_name join_group new_socket direct m g).
Proof.
  intros Hq Hd. unfold by_proto. destruct (proto m =? P_CIDR); [apply Hd|].
  destruct (proto m =? P_MULTICAST); [|done]. unfold resolve_multicast, multicast.
  destruct (p <~ dial_args m ;; resolve_udp p.1 p.2) as [a|e|] eqn:He; [|done|].
  - destruct (ResolveMulticastInterface _ _) as [i|e|] eqn:Hi; [by apply with_conn_opens; [apply Hq|]|done|].
    unfold ResolveMulticastInterface in Hi. apply bind_Panic_inv in Hi as [Hi|(n & _ & Hi)].
    { revert Hi. clear. induction m as [|c m IH]; cbn; [done|]. by destruct (_ =? _). }
    apply bind_Panic_inv in Hi as [Hi|(i & _ & Hi)]; [by destruct (q_name Hq n)|].
    by repeat case_match.
  - apply bind_Panic_inv in He as [He|(p & _ & He)]; [by destruct (q_dial Hq m)|by destruct (q_resolve Hq p.1 p.2)].
Qed.

Lemma bindsock_opens m g :
  quiet → opened g (bindsock dial_args resolve_udp by_name join_group listen_packet new_socket m g).
Proof.
  intros Hq. apply by_proto_opens; [done|]. intros m' g'. apply with_conn_opens; [apply Hq|done].
Qed.

Lemma connectsock_opens m g :
  quiet → opened g (connectsock dial_args resolve_udp listen_udp by_name join_group new_socket m g).
Proof.
  intros Hq. apply by_proto_opens; [done|]. intros m' g'. unfold dialunicast.
  pose proof (q_dial Hq m') as H1. destruct (dial_args m') as [[n a]|e|]; [|done|done].
  pose proof (q_resolve Hq n a) as H2. destruct (resolve_udp n a) as [u|e|]; [|done|done].
  by apply with_conn_opens; [apply Hq|].
Qed.

(** The goroutine closes the socket at most once, and only on a network error. *)
Definition closed_by (net : list (sres unit)) (w w' : world) : Prop :=
  w_globals w' = w_globals w ∧
  (w_closed w' = [] ∨ w_closed w' = option_list (g_sock (w_globals w)) ∧ Fail (ErrNet false) ∈ net).

Lemma serving_closes k net w :
  (Panic ∉ net) → w_closed w = [] → g_sock (w_globals w) = Some k →
  fst (serving k net w) = Ret tt ∧ closed_by net w (snd (serving k net w)).
Proof.
  intros Hp Hc Hk. induction net as [|err net IH]; cbn [serving]; [by split; [|split; [|left]]|].
  apply not_elem_of_cons in Hp as [Hp Hps]. destruct (IH Hps) as (Hr & Hg & Hcl).
  assert (closed_by (err :: net) w (snd (serving k net w))) as Hcb.
  { split; [done|]. destruct Hcl as [?|[? ?]]; [by left|right; split; [done|by right]]. }
  rewrite Hc. rewrite bool_decide_false by apply not_elem_of_nil.
  destruct err as [u|e|]; [done| |done]. cbn [serve_step].
  destruct (errors_Is e ErrIgnore); [done|].
  destruct e as [| | | | |c|[]|c|c m]; try done. cbn [fst snd]. split; [done|]. unfold Sock_Close.
  rewrite Hc, decide_False by apply not_elem_of_nil. split; [done|]. right. cbn. rewrite Hk.
  split; [done|by left].
Qed.

(** A subcommand either opens a socket or does not touch it, and with its action the socket
    is closed at most once. *)
Record proper (net : list (sres unit)) (s : command world) (r : sres unit) : Prop := {
  pr_before m g : let '(r, w) := Before s (mkWorld (Some m) g []) in
    r ≠ Panic ∧ w_closed w = [] ∧ (∀ e, r = Fail e → g_sock (w_globals w) = g_sock g);
  pr_action m g w : Before s (mkWorld (Some m) g []) = (Ret tt, w) →
    fst (Action s w) = r ∧ closed_by net w (snd (Action s w));
  pr_after : After s = nop }.

Lemma opening_proper f :
  (∀ m g, opened g (f m g)) → ∀ m g, let '(r, w) := opening f (mkWorld (Some m) g []) in
    r ≠ Panic ∧ w_closed w = [] ∧ (∀ e, r = Fail e → g_sock (w_globals w) = g_sock g) ∧
    (r = Ret tt → is_Some (g_sock (w_globals w))).
Proof.
  intros Hf m g. specialize (Hf m g). unfold opening. cbn [w_maddr w_globals w_closed].
  destruct (f m g) as [[[]|e|] g']; unfold opened in Hf; cbn in *; [by split_and!|by split_and!|done].
Qed.

(** A command that opens a socket, with an action that returns [r] on an open one. *)
Lemma opening_command_proper net r f action name flags :
  (∀ m g, opened g (f m g)) → (Panic ∉ net) →
  (∀ w, is_Some (g_sock (w_globals w)) → action w = (r, w)) →
  proper net (mkCommand name flags (opening f) (during net action) nop) r.
Proof.
  intros Hf Hp Ha. pose proof (opening_proper f Hf) as Ho.
  split; [| |done]; intros m g; specialize (Ho m g); cbn [Before Action].
  - destruct (opening _ _) as [r' w]. naive_solver.
  - intros w Hw. rewrite Hw in Ho. destruct Ho as (_ & Hc & _ & Hs). destruct (Hs eq_refl) as [k Hk].
    destruct (serving_closes k net w Hp Hc Hk) as (Hr & Hcb). unfold during. rewrite Hk.
    destruct (serving k net w) as [o w']. cbn in Hr, Hcb. subst o.
    rewrite (Ha w'); [done|]. destruct Hcb as [-> _]. by exists k.
Qed.

Lemma subcommands_proper net r : quiet → (Panic ∉ net) →
  proper net (listen net) (Ret tt) ∧ proper net (emit net r) r ∧ proper net (genpayload_command r) r.
Proof.
  intros Hq Hp. split_and!.
  - apply opening_command_proper; [|done|done]. intros m g. by apply bindsock_opens.
  - apply opening_command_proper; [|done|]; [intros m g; by apply connectsock_opens|].
    intros w [k Hk]. unfold sending. by rewrite Hk.
  - split; [done| |done]. intros m g w [= <-]. split; [done|]. split; [done|]. by left.
Qed.

(** Tearing down closes the socket if the goroutine has not. *)
Lemma teardown_closes net w w' :
  closed_by net w w' →
  w_globals (snd (teardown w')) = w_globals w ∧
  w_closed (snd (teardown w')) = option_list (g_sock (w_globals w)) ∧
  (fst (teardown w') = Ret tt → ∀ k, g_sock (w_globals w) = Some k →
     close k = Ret tt ∨ Fail (ErrNet false) ∈ net).
Proof.
  intros [Hg Hc]. unfold teardown, Sock_Close. rewrite Hg.
  destruct (g_sock (w_globals w)) as [k|]; cbn in *; [|by destruct Hc as [Hc|[Hc _]]].
  destruct Hc as [Hc|[Hc Hin]]; rewrite Hc.
  - rewrite decide_False by apply not_elem_of_nil. cbn. split_and!; [done..|]. intros Hk k' [= <-]. by left.
  - rewrite decide_True by (by left). cbn. split_and!; [done..|]. intros _ k' _. by right.
Qed.
End discover.

(** ** Signals ([main.go], [before])

    [before] registers a channel of capacity one for SIGINT and SIGTERM and starts a
    goroutine that cancels the command's context when it receives from it.  Registering a
    channel takes the place of the default action of the signals, for good: nothing calls
    [signal.Stop].  Delivery does not block: a signal that finds the channel full is lost. *)
Record process := mkProcess { p_ch : nat; p_waiting : bool; p_done : bool }.

Inductive sig_event := Arrive | Receive.

#[global] Instance sig_event_eq_dec : EqDecision sig_event.
Proof. solve_decision. Defined.

Definition before (parent_done : bool) : process := mkProcess 0 true parent_done.

Definition sig_step (p : process) (e : sig_event) : option process :=
  match e with
  | Arrive => Some (mkProcess (Nat.min 1 (S (p_ch p))) (p_waiting p) (p_done p))
  | Receive => if p_waiting p && (0 <? p_ch p)%nat then Some (mkProcess (pred (p_ch p)) false true) else None
  end.

Fixpoint sig_run (p : process) (evs : list sig_event) : option process :=
  match evs with
  | [] => Some p
  | e :: evs' => p' ← sig_step p e; sig_run p' evs'
  end.

(** The goroutine has received exactly when it does not wait any more. *)
Lemma sig_run_inv p evs q :
  sig_run p evs = Some q → p_waiting p = true →
  if p_waiting q then p_done q = p_done p ∧ (Receive ∉ evs) ∧ ((0 < p_ch q)%nat ↔ Arrive ∈ evs ∨ (0 < p_ch p)%nat)
  else p_done q = true ∧ Receive ∈ evs ∧ (Arrive ∈ evs ∨ (0 < p_ch p)%nat).
Proof.
  revert p. induction evs as [|[] evs IH]; intros p; cbn [sig_run sig_step].
  - intros [= ->] ->. split; [done|]. split; [by intros ?%elem_of_nil|]. rewrite elem_of_nil. tauto.
  - intros Hr Hw. specialize (IH _ Hr Hw). cbn in IH. destruct (p_waiting q).
    + destruct IH as (-> & Hn & Hi). split; [done|]. rewrite !elem_of_cons, Hi. naive_solver lia.
    + destruct IH as (-> & Hn & Hi). rewrite !elem_of_cons. naive_solver.
  - intros Hr Hwp. rewrite Hwp in Hr. destruct (Nat.ltb_spec 0 (p_ch p)) as [Hlt|]; [|done]. cbn in Hr. clear IH. assert (p_waiting q = false ∧ p_done q = true) as [-> ->].
    { remember (mkProcess (pred (p_ch p)) false true) as p1 eqn:H1.
      assert (p_waiting p1 = false ∧ p_done p1 = true) as Hp1 by by subst. clear H1 Hwp Hlt. revert p1 Hr Hp1.
      induction evs as [|[] evs IH]; intros p1; cbn; [by intros [= ->]|by intros ? ?; eapply IH|].
      intros Hr [Hw Hd]. by rewrite Hw in Hr. }
    rewrite !elem_of_cons. auto.
Qed.

(** ** Properties *)

(** C40. The [discover] command closes what it opens.  Unless something panics (a library
    call, the action, or the goroutine that serves the socket, which ends the process),
    whichever subcommand is run and whatever fails: the connection of the socket it opened,
    if it got that far, has been closed exactly once, by the command's teardown or before
    by the serving goroutine on a network error, and no other has; and the command succeeds
    only if its action does and closing the connection does, unless the goroutine had closed
    it. *)
Theorem discover_closes_socket {udp conn sock : Type} `{!EqDecision sock} (new_multiaddr : bytes → sres Multiaddr)
    (dial_args : Multiaddr → sres (bytes * bytes)) (resolve_udp : bytes → bytes → sres udp)
    (listen_udp : bytes → sres conn) (by_name : bytes → sres Interface) (join_group : Interface → udp → sres conn)
    (listen_packet : Multiaddr → sres conn) (new_socket : bytes → conn → sock) (close : sock → sres unit)
    (cli_run : command world → command world → world → sres unit * world) (addr : bytes)
    (net : list (sres unit)) (r r' : sres unit) (s : command world) :
  CliLaws cli_run → quiet new_multiaddr dial_args resolve_udp listen_udp by_name join_group listen_packet close →
  r ≠ Panic → (Panic ∉ net) →
  (s, r') ∈ [(listen dial_args resolve_udp by_name join_group listen_packet new_socket close net, Ret tt);
             (emit dial_args resolve_udp listen_udp by_name join_group new_socket close net r, r);
             (genpayload_command r, r)] →
  let '(res, w) := cli_run (Command new_multiaddr close addr) s world0 in
  w_closed w = option_list (g_sock (w_globals w)) ∧
  (res = Ret tt → r' = Ret tt ∧ ∀ k, g_sock (w_globals w) = Some k →
     close k = Ret tt ∨ Fail (ErrNet false) ∈ net).
Proof.
  intros Hcli Hq Hr Hnet Hs. set (p := Command new_multiaddr close addr).
  assert (r' ≠ Panic ∧ proper net s r') as [Hr' [Hbefore Haction Hafter]].
  { destruct (subcommands_proper new_multiaddr dial_args resolve_udp listen_udp by_name join_group listen_packet
      new_socket close net r Hq Hnet) as (H1 & H2 & H3).
    rewrite !elem_of_cons, elem_of_nil in Hs. naive_solver. }
  assert (∀ w, fst (After p w) ≠ Panic) as Hta.
  { intros w. cbn. unfold teardown, Sock_Close. destruct (g_sock _); [|done]. case_decide; [done|apply Hq]. }
  destruct (cli_run p s world0) as [res w] eqn:Hrun.
  destruct (new_multiaddr addr) as [m|e|] eqn:Hm; [|clear Hbefore Haction|by destruct (q_multiaddr _ _ _ _ _ _ _ _ Hq addr)].
  - assert (Before p world0 = (Ret tt, mkWorld (Some m) globals0 [])) as Hb by (cbn; unfold parse; by rewrite Hm).
    specialize (Hbefore m globals0). specialize (Haction m globals0).
    destruct (Before s (mkWorld (Some m) globals0 [])) as [[[]|e|] w1] eqn:Hb1; [| |by destruct Hbefore].
    + destruct (Haction w1 eq_refl) as [Hra Hcb]. destruct (Action s w1) as [ra w2] eqn:Ha. cbn in Hra, Hcb. subst ra.
      destruct (run_action p s world0 _ w1 w2 r' Hb Hb1 Hafter Ha Hr' (Hta w2)) as [Hok Hw].
      rewrite Hrun in Hok, Hw. cbn [fst snd] in Hok, Hw. subst w.
      destruct (teardown_closes close net w1 w2 Hcb) as (Hg & Hc & Ht).
      cbn [After p Command]. rewrite Hg. split; [exact Hc|]. intros [-> Ht']%Hok. split; [done|]. by apply Ht.
    + destruct Hbefore as (_ & Hc & Hg). specialize (Hg e eq_refl).
      destruct (run_sub_fails p s world0 _ w1 e Hb Hb1 Hafter) as [[e' Hf] Hw]. rewrite Hrun in Hf, Hw. cbn in Hf, Hw.
      subst. unfold teardown. rewrite Hg. cbn. by rewrite Hc, Hg.
  - assert (Before p world0 = (Fail e, world0)) as Hb by (cbn; unfold parse; by rewrite Hm).
    destruct (run_before_fails p s world0 world0 e Hb) as [[e' Hf] Hw]. rewrite Hrun in Hf, Hw. cbn in Hf, Hw.
    subst. split; [by destruct Hw as [->| ->]|done].
Qed.

(** The context of the command expires exactly when the process has received a signal: it is
    done only after one has arrived, and as soon as one has the goroutine can receive it.
    It does so once: every later signal is swallowed, the process being neither cancelled
    again nor killed, so that a command that goes on after its context is done (as
    [emit --repeat 0] does) cannot be interrupted. *)
Theorem interrupts_once (evs : list sig_event) (q : process) :
  sig_run (before false) evs = Some q →
  (p_done q = true ↔ Receive ∈ evs) ∧ (p_done q = true → Arrive ∈ evs) ∧
  (p_done q = false → Arrive ∈ evs → ∃ q', sig_step q Receive = Some q' ∧ p_done q' = true) ∧
  (p_done q = true → sig_step q Receive = None ∧
     ∀ n, ∃ q', sig_run q (replicate n Arrive) = Some q' ∧ p_done q' = true ∧ sig_step q' Receive = None).
Proof.
  intros Hr. pose proof (sig_run_inv _ _ _ Hr eq_refl) as Hq. destruct (p_waiting q) eqn:Hw; cbn in Hq.
  - destruct Hq as (Hd & Hn & Hi). rewrite Hd. split; [done|]. split; [done|]. split; [|done].
    intros _ Ha. unfold sig_step. rewrite Hw, (proj2 (Nat.ltb_lt 0 _)) by (apply Hi; by left). by eexists.
  - destruct Hq as (Hd & Hin & Ha). rewrite Hd. split; [done|]. split; [intros _; destruct Ha as [|?]; [done|lia]|].
    split; [done|]. intros _. unfold sig_step at 1. rewrite Hw. split; [done|]. intros n. clear Hr Hin Ha.
    revert q Hd Hw. induction n as [|n IH]; intros q Hd Hw; cbn.
    + exists q. split; [done|]. split; [done|]. by rewrite Hw.
    + by apply IH.
Qed.

Lemma interrupts_once_witness :
  ∃ q, sig_run (before false) [Arrive; Receive; Arrive] = Some q ∧ p_done q = true ∧ sig_step q Receive = None.
Proof.
  eexists. split; [reflexivity|]. split; [reflexivity|].
  destruct (interrupts_once [Arrive; Receive; Arrive] _ eq_refl) as (_ & _ & _ & H). exact (proj1 (H eq_refl)).
Defined.

(** The flags: within each subcommand no two flags share a name or an alias; without any
    flag [emit] sends one packet read from its input to the group of the default address,
    and the log is text of level info.  The flag "trace" that the log level depends on is
    declared by no command, so that it cannot be set. *)
Theorem flags_defaults (set : bytes → option flag_value) (uint : Z) :
  NoDup (flag_names (scope emit_flags)) ∧ NoDup (flag_names (scope genpayload_flags)) ∧
  read_ctx (scope emit_flags) (λ _, None) (bs "emit") uint = mkCtx (bs "emit") (bs "casm") false false None 1 Second ∧
  read_log (scope emit_flags) (λ _, None) = (InfoLevel, Some TextFormatter) ∧
  c_Bool (scope emit_flags) set (bs "trace") = false.
Proof.
  split; [apply (bool_decide_eq_true_1 _); vm_compute; reflexivity|].
  split; [apply (bool_decide_eq_true_1 _); vm_compute; reflexivity|].
  split; [vm_compute; reflexivity|]. split; [vm_compute; reflexivity|reflexivity].
Qed.

(** ** A concrete command *)

(** A runner of the hooks, and a network in which everything succeeds. *)
Definition toy_run {W} (p s : command W) (w : W) : sres unit * W :=
  match Before p w with
  | (Ret _, w1) =>
      match (match Before s w1 with (Ret _, w2) => Action s w2 | f => f end) with
      | (r, w3) => match After p w3 with
                   | (ra, w4) => (match r with Ret _ => ra | f => f end, w4)
                   end
      end
  | f => f
  end.

Lemma toy_run_laws {W} : CliLaws (toy_run (W:=W)).
Proof.
  unfold toy_run. split.
  - intros p s w w1 e ->. split; [by exists e|by left].
  - intros p s w w1 w2 e -> -> _. destruct (After p w2) as [ra w4]. split; [by exists e|done].
  - intros p s w w1 w2 w3 r -> -> _ -> Hr. destruct (After p w3) as [ra w4]. cbn. intros Hra.
    split; [|done]. destruct r as [[]|e|]; [|by split; [|intros []]|done]. tauto.
Qed.

Definition toy_maddr : Multiaddr := [mkComp P_CIDR (bs "24")].

(** A listener that prints a packet and then meets a network error. *)
Lemma discover_closes_socket_witness :
  let net := [Ret tt; Fail (ErrNet false)] in
  let run := toy_run (Command (λ _, Ret toy_maddr) (λ _ : Z, Ret tt) (bs "a"))
    (listen (udp:=Z) (λ _, Fail ErrUnknownProtocol) (λ _ _, Ret 1) (λ _, Fail ErrUnknownProtocol) (λ _ _, Ret 2)
       (λ _, Ret 3) (λ _ (c : Z), c + 1) (λ _ : Z, Ret tt) net) world0 in
  fst run = Ret tt ∧ w_closed (snd run) = [4] ∧ w_closed (snd run) = option_list (g_sock (w_globals (snd run))).
Proof.
  intros net run. split; [vm_compute; reflexivity|]. split; [vm_compute; reflexivity|].
  refine (proj1 (discover_closes_socket (λ _, Ret toy_maddr) (λ _, Fail ErrUnknownProtocol) (λ _ _, Ret 1)
    (λ _, Fail ErrUnknownProtocol) (λ _, Fail ErrUnknownProtocol) (λ _ _, Ret 2) (λ _, Ret 3) (λ _ (c : Z), c + 1)
    (λ _ : Z, Ret tt) toy_run (bs "a") net (Ret tt) (Ret tt) _ toy_run_laws ltac:(split; discriminate)
    ltac:(discriminate) _ ltac:(by left))).
  unfold net. rewrite !elem_of_cons, elem_of_nil. intros [?|[?|?]]; done.
Defined.
