(* ===== verification/PexStore.v ===== *)
(** * Namespaces of the view cache ([src/pkg/pex/store.go], [rootStore] and [gossipStore])

    All namespaces of a peer exchange share one datastore; [rootStore.New] scopes it to a
    namespace by a key prefix ([nsds.Wrap]).  [PexGossip] has the cache of one namespace;
    here is the shared store, as an interface to go-datastore: a query of a scoped store
    lists the entries whose keys lie under its prefix, a committed batch writes below it.
    The theorems say which namespaces can disturb each other. *)

From stdpp Require Import base list gmap strings.
From Stdlib Require Import ZArith Lia.
From S2P Require Import Prelude PexView PexGossip PexRounds Proto.

Open Scope Z_scope.

(** ** Keys *)

(** [ds.NewKey]: "Clean up a Key, using path.Clean", rooted. *)
Class KeyLaws (NewKey : bytes → bytes) : Prop :=
  NewKey_plain : ∀ s, Forall plain (Parts s) → NewKey s = slash :: join (Parts s).

(** [Key.Child] of a prefix and a key. *)
Definition child (p k : bytes) : bytes := if bytes_eqb p [slash] then k else p ++ k.

(** [query.Query.Prefix]: "/bar only finds /bar/baz, not /barbaz". *)
Definition under (p k : bytes) : Prop := bytes_eqb p [slash] = true ∨ (p ++ [slash]) `prefix_of` k.

#[global] Instance under_dec p k : Decision (under p k).
Proof. unfold under. apply _. Defined.

Definition child_op (p : bytes) (op : batch_op) : batch_op :=
  match op with BDelete k => BDelete (child p k) | BPut k v => BPut (child p k) v end.

(** ** Scoped stores *)

(** [nsds.Wrap(B, p)]: the store [B] seen through the prefix [p]. *)
Record scoped (p : bytes) (B : Type) := Scoped { base : B }.
Arguments Scoped p {B}.
Arguments base {p B}.

Class Wrap (B : Type) := wrap_datastore :: ∀ p, Datastore (scoped p B).

(** The documented behaviour of go-datastore's namespace wrapper. *)
Class WrapLaws (B : Type) `{Wrap B} := {
  contents : B → gmap bytes bytes;
  wrap_query_ok : ∀ p (st : scoped p B) es, ds_query st = Ret es →
    es.*2 ≡ₚ (map_to_list (filter (λ e, under p e.1) (contents (base st)))).*2;
  wrap_commit_ok : ∀ p (st st' : scoped p B) ops, ds_commit st ops = (st', None) →
    contents (base st') = apply_ops (child_op p <$> ops) (contents (base st)) }.

(** ** Root and gossip stores *)
Section stores.
Context {B : Type} `{Wrap B} {msg pubkey : Type} (NewKey : bytes → bytes).
Context (key : bytes → bytes) (marshal : Gossip → res bytes) (unmarshal : bytes → res msg)
        (read_gossip : msg → res Gossip) (consume : bytes → res (PeerRecord * pubkey))
        (matches : bytes → pubkey → bool).

(** [rootStore.New]. *)
Definition rootStore_New (ns : bytes) (b : B) : scoped (NewKey ns) B := Scoped (NewKey ns) b.

Definition gossipStore_Loggable (ns : bytes) : list (bytes * bytes) := [(bs "ns", ns)].

(** The cache of namespace [ns] in the shared store. *)
Definition ns_LoadView (ns : bytes) (b : B) : res View :=
  LoadView unmarshal read_gossip consume matches (rootStore_New ns b).

Definition ns_StoreRecords (ns : bytes) (old new : View) (b : B) : res (B * option error) :=
  r <~ StoreRecords key marshal (rootStore_New ns b) old new ;; Ret (base r.1, r.2).

(** A run of stores in several namespaces, up to the first failure. *)
Fixpoint store_all (ops : list (bytes * View * View)) (b : B) : res (B * option error) :=
  match ops with
  | [] => Ret (b, None)
  | (ns, old, new) :: ops' =>
      r <~ ns_StoreRecords ns old new b ;;
      match r.2 with None => store_all ops' r.1 | Some e => Ret (r.1, Some e) end
  end.

(** ** Facts *)

Lemma under_plain p q c :
  Forall plain p → Forall comp q → comp c →
  under (slash :: join p) (child (slash :: join q) (slash :: c)) → p `prefix_of` q.
Proof.
  intros Hp Hq Hc [Hroot|Hu].
  - assert (join p = []) as Hj by (apply bool_decide_eq_true in Hroot; congruence).
    pose proof (join_head p Hp) as Hh. rewrite Hj in Hh. subst. apply prefix_nil.
  - destruct Hu as [t Ht].
    assert (Parts (child (slash :: join q) (slash :: c)) = q ++ [c]) as HP.
    { unfold child. destruct (bytes_eqb (slash :: join q) [slash]) eqn:Hq0.
      - apply bool_decide_eq_true in Hq0. injection Hq0 as Hq0.
        assert (q = []) as ->.
        { destruct Hq as [|x q [Hx _] _]; [done|]. by destruct x, q. }
        rewrite Parts_slash. by apply Parts_comp.
      - cbn [app]. rewrite Parts_slash, Parts_app, Parts_join_comps, Parts_comp by done. done. }
    pose proof HP as HP'. rewrite Ht in HP'. cbn [app] in HP'.
    rewrite <-app_assoc, Parts_slash in HP'. cbn [app] in HP'.
    rewrite Parts_app, Parts_join_comps in HP' by by apply plain_comps.
    destruct (Parts t) as [|x l _] eqn:HPt using rev_ind.
    + (* the prefix would be the key itself *)
      exfalso. rewrite app_nil_r in HP'. subst p.
      assert (last (child (slash :: join q) (slash :: c)) = Some slash) as Hl.
      { rewrite Ht. clear -HPt. destruct t as [|x t _] using rev_ind; [by rewrite app_nil_r, last_snoc|].
        rewrite app_assoc, last_snoc. f_equal. destruct (decide (x = slash)) as [|Hx]; [done|exfalso].
        assert (∀ b u, Parts_loop (u ++ [x]) b ≠ []) as Hne.
        { intros b u. revert b. induction u as [|y u IH]; intros b; cbn.
          - rewrite (proj2 (Z.eqb_neq _ _) Hx). by destruct b.
          - destruct (y =? slash); [|done]. by destruct (bytes_eqb b []). }
        by apply (Hne [] t). }
      assert (last (child (slash :: join q) (slash :: c)) = last c) as Hlc.
      { destruct Hc as [Hc0 _]. unfold child.
        destruct c as [|y c _] using rev_ind; [done|].
        destruct (bytes_eqb _ _); rewrite ?app_comm_cons, ?app_assoc, !last_snoc; done. }
      rewrite Hlc in Hl. destruct Hc as [_ Hs]. apply Hs.
      apply last_Some in Hl as [l' ->]. set_solver.
    + rewrite app_assoc in HP'. apply app_inj_tail in HP' as [<- _]. by apply prefix_app_r.
Qed.

Lemma apply_ops_untouched ops m p :
  Forall (λ op, ¬ under p (match op with BDelete k | BPut k _ => k end)) ops →
  filter (λ e, under p e.1) (apply_ops ops m) = filter (λ e, under p e.1) m.
Proof.
  intros Hops. revert m. induction Hops as [|op ops Hop _ IH]; intros m; cbn; [done|].
  unfold apply_ops in IH. rewrite IH. destruct op as [k|k v]; cbn.
  - by apply map_filter_delete_not.
  - by apply map_filter_insert_not.
Qed.

(** The keys of a batch are those of records. *)
Lemma build_batch_keys {St} `{Datastore St} (st : St) old new ops :
  build_batch key marshal st old new = Ret ops →
  Forall (λ op, ∃ id, match op with BDelete k | BPut k _ => k end = key id) ops.
Proof.
  intros (bs & _ & ->)%build_batch_ok. apply Forall_app. split.
  - rewrite Forall_fmap. apply Forall_true. intros r. by exists (id_of r).
  - revert bs. induction new as [|r new IH]; intros [|b bs]; cbn; constructor; [by exists (id_of r)|done].
Qed.

Context `{!WrapLaws B} `{!KeyLaws NewKey}.
Context (Hkey : ∀ id, ∃ c, comp c ∧ key id = slash :: c).

(** What a namespace sees of the shared store. *)
Definition visible (ns : bytes) (b : B) : gmap bytes bytes :=
  filter (λ e, under (NewKey ns) e.1) (contents b).

Abbreviation entry := (read_entry unmarshal read_gossip consume matches).

Lemma read_values es : omapM entry es = omapM (λ b, entry ([], b)) es.*2.
Proof. induction es as [|[k b] es IH]; cbn; [done|]. by rewrite IH. Qed.

(** It determines the view that is loaded, up to order. *)
Lemma load_visible ns b b' v v' :
  visible ns b = visible ns b' → ns_LoadView ns b = Ret v → ns_LoadView ns b' = Ret v' → v ≡ₚ v'.
Proof.
  intros Hvis (es & Hq & Hv)%bind_Ret_inv (es' & Hq' & Hv')%bind_Ret_inv.
  apply wrap_query_ok in Hq, Hq'. cbn in Hq, Hq'. unfold visible in Hvis.
  rewrite Hvis, <-Hq' in Hq. rewrite read_values in Hv, Hv'.
  destruct (omapM_perm _ _ _ _ Hq Hv') as (w & Hw & Hp). rewrite Hv in Hw. by injection Hw as <-.
Qed.

(** A store in [ns] is invisible to every namespace that is not a path prefix of it. *)
Lemma store_invisible ns ns' old new b b' :
  Forall plain (Parts ns) → Forall plain (Parts ns') →
  ¬ Parts ns' `prefix_of` Parts ns →
  ns_StoreRecords ns old new b = Ret (b', None) → visible ns' b' = visible ns' b.
Proof.
  intros Hp Hp' Hn (r & Hr & [= <- Hnone])%bind_Ret_inv. unfold StoreRecords in Hr.
  destruct (build_batch _ _ _ _ _) as [ops|e|] eqn:Hb; [|injection Hr as <-; done|done].
  destruct (ds_commit _ _) as [st' [e|]] eqn:Hc; injection Hr as <-; [done|].
  apply wrap_commit_ok in Hc. unfold visible. cbn [fst]. rewrite Hc. cbn [rootStore_New base].
  apply apply_ops_untouched. rewrite Forall_fmap. apply build_batch_keys in Hb.
  eapply Forall_impl; [exact Hb|]. intros op [id Hid].
  destruct (Hkey id) as (c & Hc' & Hk). rewrite Hk in Hid. intros Hu. apply Hn.
  apply (under_plain _ _ c); [done|by apply plain_comps|done|].
  rewrite <-!NewKey_plain by done. by destruct op; cbn in *; subst.
Qed.

Lemma store_all_invisible ns' ops b b' :
  Forall plain (Parts ns') →
  Forall (λ op, Forall plain (Parts op.1.1) ∧ ¬ Parts ns' `prefix_of` Parts op.1.1) ops →
  store_all ops b = Ret (b', None) → visible ns' b' = visible ns' b.
Proof.
  intros Hp' Hops. revert b. induction Hops as [|[[ns old] new] ops [Hp Hn] _ IH]; intros b Hs.
  - by injection Hs as <-.
  - apply bind_Ret_inv in Hs as ([b1 [e|]] & Hs1 & Hs); [done|].
    rewrite (IH b1 Hs). by eapply store_invisible.
Qed.
End stores.

(** C24. Namespaces of the cache whose path components are plain (none is empty, [.] or
    [..], so that cleaning changes nothing) are isolated: however many views are stored
    without an error in other such namespaces, a namespace that is not a path prefix of any
    of them sees the same entries of the store as before, and if it loads a view before and
    after, the same one up to order.  (Peer ids have keys of one component.) *)
Theorem namespaces_isolated {B msg pubkey : Type} `{WrapLaws B} (NewKey key : bytes → bytes)
    marshal (unmarshal : bytes → res msg) read_gossip (consume : bytes → res (PeerRecord * pubkey)) matches
    (ns : bytes) (ops : list (bytes * View * View)) (b b' : B) v v' :
  KeyLaws NewKey → (∀ id, ∃ c, comp c ∧ key id = slash :: c) →
  Forall plain (Parts ns) →
  Forall (λ op, Forall plain (Parts op.1.1) ∧ ¬ Parts ns `prefix_of` Parts op.1.1) ops →
  store_all NewKey key marshal ops b = Ret (b', None) →
  visible NewKey ns b' = visible NewKey ns b ∧
  (ns_LoadView NewKey unmarshal read_gossip consume matches ns b = Ret v →
   ns_LoadView NewKey unmarshal read_gossip consume matches ns b' = Ret v' → v ≡ₚ v').
Proof.
  intros Hkl Hkey Hp Hops Hs.
  assert (visible NewKey ns b' = visible NewKey ns b) as Hvis by by eapply store_all_invisible.
  split; [done|]. by eapply load_visible.
Qed.

(** ** A store in memory *)
Module mem.
Definition contents (m : gmap bytes bytes) := m.

#[global] Instance wrap : Wrap (gmap bytes bytes) := λ p, {|
  ds_query (st : scoped p (gmap bytes bytes)) :=
    Ret ((λ e, (drop (length p) e.1, e.2)) <$> map_to_list (filter (λ e, under p e.1) (base st)));
  ds_batch _ := Ret tt;
  ds_delete _ _ := Ret tt;
  ds_put _ _ _ := Ret tt;
  ds_commit st ops := (Scoped p (apply_ops (child_op p <$> ops) (base st)), None);
  ds_sync _ := None |}.

#[global] Instance wrap_laws : WrapLaws (gmap bytes bytes).
Proof.
  refine {| PexStore.contents := contents |}.
  - intros p st es [= <-]. by rewrite <-list_fmap_compose.
  - intros p st st' ops [= <-]. done.
Defined.

(** [path.Clean] of the rooted string. *)
Definition clean_key (s : bytes) : bytes := path_Clean (slash :: s).

#[global] Instance clean_key_laws : KeyLaws clean_key.
Proof.
  intros s Hp. unfold clean_key, path_Clean. cbn [is_rooted]. rewrite Z.eqb_refl, Parts_slash.
  by rewrite clean_comps_plain.
Qed.

(** The key of a peer, one component. *)
Definition peer_key (id : bytes) : bytes := slash :: 120 :: ((λ b, if b =? slash then 121 else b) <$> id).

Lemma peer_key_comp id : ∃ c, comp c ∧ peer_key id = slash :: c.
Proof.
  eexists. split; [|done]. split; [done|]. apply not_elem_of_cons. split; [done|].
  intros (b & Hb & _)%list_elem_of_fmap. by destruct (Z.eqb_spec b slash).
Qed.

Abbreviation load := (ns_LoadView clean_key toy.unmarshal toy.read_gossip toy.consume toy.matches).
Abbreviation store := (store_all clean_key peer_key toy.marshal).
End mem.

(** The store a run ends with, and that it ends without an error. *)
Definition stored (r : res (gmap bytes bytes * option error)) : gmap bytes bytes :=
  match r with Ret (b, _) => b | _ => ∅ end.
Definition stores (r : res (gmap bytes bytes * option error)) : bool :=
  match r with Ret (_, None) => true | _ => false end.

Lemma stores_ok r : stores r = true → r = Ret (stored r, None).
Proof. by destruct r as [[b [e|]]|e|]. Qed.

(** A cache where "a" knows peer 3, after stores in "b" and "d/e". *)
Definition cache_a : gmap bytes bytes := stored (mem.store [(bs "a", [], [rec 3 1 1])] ∅).
Definition ops_bd : list (bytes * View * View) := [(bs "b", [], [rec 4 1 1]); (bs "d/e", [], [rec 5 1 2])].
Definition cache_abd : gmap bytes bytes := stored (mem.store ops_bd cache_a).

Lemma namespaces_isolated_witness :
  mem.store ops_bd cache_a = Ret (cache_abd, None) ∧ size cache_abd = 3%nat ∧
  visible mem.clean_key (bs "a") cache_abd = visible mem.clean_key (bs "a") cache_a.
Proof.
  assert (mem.store ops_bd cache_a = Ret (cache_abd, None)) as Hs
    by (apply stores_ok; vm_compute; reflexivity).
  split; [exact Hs|]. split; [vm_compute; reflexivity|].
  refine (proj1 (namespaces_isolated mem.clean_key mem.peer_key toy.marshal toy.unmarshal toy.read_gossip
    toy.consume toy.matches (bs "a") _ cache_a cache_abd [] [] _ mem.peer_key_comp _ _ Hs)).
  - apply (bool_decide_unpack _). vm_compute. exact I.
  - apply (bool_decide_unpack _). vm_compute. exact I.
Defined.

Definition cache_ac : gmap bytes bytes := stored (mem.store [(bs "a/c", [], [rec 5 1 1])] ∅).
Definition cache_ac' : gmap bytes bytes := stored (mem.store [(bs "a", [rec 5 1 1], [])] cache_ac).

(** Nested namespaces are not isolated: what is stored for "a/c" is loaded as part of the
    view of "a", and a store of "a" that drops the record does not remove it. *)
Theorem nested_namespace_leaks :
  mem.store [(bs "a/c", [], [rec 5 1 1])] ∅ = Ret (cache_ac, None) ∧
  mem.load (bs "a") cache_ac = Ret [rec 5 1 1] ∧
  mem.store [(bs "a", [rec 5 1 1], [])] cache_ac = Ret (cache_ac', None) ∧
  mem.load (bs "a") cache_ac' = Ret [rec 5 1 1].
Proof. split_and!; try (apply stores_ok); vm_compute; reflexivity. Qed.
