(* ===== verification/PexStream.v ===== *)
(** * A gossip round over its stream ([src/pkg/pex/gossip.go], [gossipRound] and its coders)

    [PexRounds] treats a round as two critical sections of the gossiper.  Here is what runs
    between them: the encoder and decoder, the push and the pull of a round, and [Do], for
    both ends of a stream.  The LZ4 and Cap'n Proto coders are library code: [tx n] is the
    result of encoding the [n]-th message, [flush] and [close_ok] those of the writer, and
    the messages that were encoded are what the other end decodes, followed by [io.EOF] when
    the writer was closed and by an error when it was not. *)

From stdpp Require Import base list gmap strings sorting relations.
From Stdlib Require Import ZArith Lia.
From Stdlib Require QArith_base.
From S2P Require Import Prelude PexView PexGossip PexRounds.

Open Scope Z_scope.

Definition ErrUnexpectedEOF : error := ErrExternal 60.

Section stream.
Context {msg : Type} (Message : GossipRecord → msg).

(** ** The coders *)

(** [e_w]: the LZ4 writer exists; [e_out]: what was written; [e_end]: the frame was ended. *)
Record encoder := mkEncoder { e_w : bool; e_out : list msg; e_end : bool }.

Definition encoder0 : encoder := mkEncoder false [] false.

(** The first call creates the writer. *)
Definition Encode (r : res unit) (m : msg) (enc : encoder) : res unit * encoder :=
  match r with
  | Ret _ => (Ret tt, mkEncoder true (e_out enc ++ [m]) (e_end enc))
  | err => (err, mkEncoder true (e_out enc) (e_end enc))
  end.

Definition Flush (r : res unit) (enc : encoder) : res unit := if e_w enc then r else Ret tt.

Definition Close (ok : bool) (enc : encoder) : encoder :=
  if e_w enc then mkEncoder true (e_out enc) ok else enc.

(** What the other end decodes after [CloseWrite]. *)
Definition arrival (enc : encoder) : list (decoded msg) :=
  (DMsg <$> e_out enc) ++ (if e_w enc && negb (e_end enc) then [DErr ErrUnexpectedEOF] else []).

(** ** Push *)
Section push.
Context (tx : nat → res unit) (flush : res unit) (close_ok : bool).

Fixpoint encode_all (n : nat) (buffer : View) (enc : encoder) : res unit * encoder :=
  match buffer with
  | [] => (Ret tt, enc)
  | gr :: buffer' =>
      match Encode (tx n) (Message gr) enc with
      | (Ret _, enc) => encode_all (S n) buffer' enc
      | (err, enc) => (err, enc)
      end
  end.

(** The deferred calls close the writer and then the stream, on every path.  The last result
    is what [r.local] is afterwards. *)
Definition push_stream (cfg : GossipConfig) (self : res GossipRecord) (local : View)
    : res unit * encoder * View :=
  match pushBuffer cfg self local with
  | Ret (buffer, local') =>
      match encode_all 0 buffer encoder0 with
      | (Ret _, enc) => (Flush flush enc, Close close_ok enc, local')
      | (err, enc) => (err, Close close_ok enc, local')
      end
  | Fail e => (Fail e, encoder0, local)
  | Panic => (Panic, encoder0, local)
  end.
End push.

(** ** A round *)
Context {St : Type} `{Datastore St} {pubkey : Type}.
Context (key : bytes → bytes) (marshal : Gossip → res bytes) (unmarshal : bytes → res msg)
        (read_gossip : msg → res Gossip) (consume : bytes → res (PeerRecord * pubkey))
        (matches : bytes → pubkey → bool) (sort : View → View).

(** What one end of a round meets: the results of [SetDeadline] and of the writer, the
    random choices, and the stream's other direction. *)
Record env := mkEnv {
  set_deadline : res unit; tx : nat → res unit; flush : res unit; close_ok : bool;
  rnd1 : nat → nat; rnd2 : nat → nat; draw : nat → QArith_base.Q;
  incoming : list (decoded msg) }.

Definition prepare (cfg : GossipConfig) (e : env) (st : St) : res View :=
  _ <~ set_deadline e ;;
  GetPushView unmarshal read_gossip consume matches sort cfg (rnd1 e) st.

(** [pushpull]: both goroutines run to their end; a panic of either ends the program, and
    the join fails when one of them did.  The round's [local] and [remote] views. *)
Definition pushpull (cfg : GossipConfig) (self : res GossipRecord) (e : env) (local : View)
    : res (View * View) * encoder :=
  let '(pushed, enc, local') := push_stream (tx e) (flush e) (close_ok e) cfg self local in
  (match pushed, pull (ReadMessage read_gossip consume matches) (incoming e) with
   | Panic, _ | _, Panic => Panic
   | Fail err, _ | _, Fail err => Fail err
   | Ret _, Ret remote => Ret (local', remote)
   end, enc).

(** The new store, the error, the event emitted, and what was sent. *)
Definition Do (cfg : GossipConfig) (id : bytes) (self : res GossipRecord) (e : env) (st : St)
    : res (St * option error * option (list PeerRecord)) * encoder :=
  match prepare cfg e st with
  | Ret local =>
      let '(views, enc) := pushpull cfg self e local in
      (match views with
       | Ret (local, remote) => MergeAndStore key marshal sort cfg id (rnd2 e) (draw e) st local remote
       | Fail err => Ret (st, Some err, None)
       | Panic => Panic
       end, enc)
  | Fail err => (Ret (st, Some err, None), encoder0)
  | Panic => (Panic, encoder0)
  end.

(** [newHandler]: the error is logged, the round's effect is that of [Do]. *)
Definition handle_stream (cfg : GossipConfig) (id : bytes) (self : res GossipRecord) (e : env)
    (st : St) : res St :=
  r <~ fst (Do cfg id self e st) ;; Ret (fst (fst r)).


Lemma encode_all_fail txf n buffer enc k e :
  (k < length buffer)%nat → (∀ i, (i < k)%nat → txf (n + i)%nat = Ret tt) → txf (n + k)%nat = Fail e →
  encode_all txf n buffer enc =
  (Fail e, mkEncoder true (e_out enc ++ (Message <$> take k buffer)) (e_end enc)).
Proof.
  revert n enc k. induction buffer as [|r b IH]; intros n enc k Hk Hok Hf; cbn in *; [lia|].
  destruct k as [|k].
  - rewrite Nat.add_0_r in Hf. rewrite Hf. cbn. by rewrite app_nil_r.
  - pose proof (Hok 0%nat ltac:(lia)) as H0. rewrite Nat.add_0_r in H0. rewrite H0. cbn.
    rewrite (IH (S n) _ k); [|lia| |].
    + cbn. by rewrite <-app_assoc.
    + intros i Hi. specialize (Hok (S i) ltac:(lia)). by rewrite Nat.add_succ_r in Hok.
    + by rewrite Nat.add_succ_r in Hf.
Qed.


Abbreviation read := (ReadMessage read_gossip consume matches).
Abbreviation auth := (authentic consume matches).

Context (Hwire : ∀ r, read_gossip (Message r) = Ret (g r)).

Lemma read_authentic r : auth r → read (Message r) = Ret r.
Proof.
  intros (pk & Hc & Hm). unfold ReadMessage. rewrite Hwire. cbn. rewrite Hc. cbn.
  unfold id_of in Hm. rewrite Hm. by destruct r.
Qed.

Lemma pull_messages v : Forall auth v → pull read (DMsg <$> (Message <$> v)) = Ret v.
Proof.
  induction 1 as [|r v Hr _ IH]; [done|]. cbn. rewrite read_authentic by done. cbn. by rewrite IH.
Qed.

Lemma pull_broken v e : Forall auth v → pull read ((DMsg <$> (Message <$> v)) ++ [DErr e]) = Fail e.
Proof.
  induction 1 as [|r v Hr _ IH]; [done|]. cbn. rewrite read_authentic by done. cbn. by rewrite IH.
Qed.

Lemma LoadView_auth st v : LoadView unmarshal read_gossip consume matches st = Ret v → Forall auth v.
Proof.
  intros (es & _ & Hv%omapM_Forall2)%bind_Ret_inv. induction Hv as [|en r es v Hr _ IH]; constructor; [|done].
  unfold read_entry in Hr. apply bind_Ret_inv in Hr as (m & _ & Hr). by eapply ReadMessage_authentic.
Qed.

(** A round either stops with an error, an unchanged store and no event, or merges what it
    pulled into the view it read, as its push left it. *)
Lemma Do_cases cfg id self e st r enc :
  Do cfg id self e st = (Ret r, enc) →
  (∃ err, r = (st, Some err, None)) ∨
  (∃ local buffer local' remote,
     GetPushView unmarshal read_gossip consume matches sort cfg (rnd1 e) st = Ret local ∧
     pushBuffer cfg self local = Ret (buffer, local') ∧
     pull read (incoming e) = Ret remote ∧
     MergeAndStore key marshal sort cfg id (rnd2 e) (draw e) st local' remote = Ret r).
Proof.
  unfold Do, prepare, pushpull. destruct (set_deadline e) as [u| |]; cbn [bind]; [|naive_solver..].
  destruct (GetPushView _ _ _ _ _ _ _ _) as [local| |]; [|naive_solver..].
  destruct (push_stream _ _ _ _ _ _) as [[pushed enc'] local'] eqn:Hp.
  assert (∀ u, pushed = Ret u → ∃ buffer, pushBuffer cfg self local = Ret (buffer, local')) as Hb.
  { intros v ->. unfold push_stream in Hp. destruct (pushBuffer cfg self local) as [[buffer l1]| |]; [|done|done].
    exists buffer. destruct (encode_all _ _ _ _) as [[]]; by simplify_eq. }
  destruct pushed, (pull read (incoming e)) as [remote| |]; intros [= Hr <-]; naive_solver.
Qed.

Lemma local_auth `{!SortSpec sort} cfg rnd st local :
  cfg_ok cfg → GetPushView unmarshal read_gossip consume matches sort cfg rnd st = Ret local →
  Forall auth local.
Proof.
  intros Hcfg Hl. destruct (GetPushView_perm _ _ _ _ _ _ Hcfg _ _ _ Hl) as (v & Hv & Hp).
  rewrite Hp. by eapply LoadView_auth.
Qed.

(** What the other end of the stream receives from a push. *)
Lemma push_arrives `{!SortSpec sort} cfg self e st local buffer local' :
  cfg_ok cfg → GetPushView unmarshal read_gossip consume matches sort cfg (rnd1 e) st = Ret local →
  Forall auth (match self with Ret r => [r] | _ => [] end) →
  pushBuffer cfg self local = Ret (buffer, local') → buffer ≠ [] ∧ Forall auth buffer.
Proof.
  intros Hcfg Hl Hs Hb. destruct (pushBuffer_shape _ _ _ _ _ Hb) as (r & v & w & -> & -> & -> & _).
  pose proof (local_auth _ _ _ _ Hcfg Hl) as Ha. apply Forall_app in Ha as [Ha _].
  split; [by destruct v|]. apply Forall_app. by split.
Qed.
End stream.

Arguments encoder : clear implicits.
Arguments env : clear implicits.

(** ** The two ends of a stream *)
Section exchange.
Context {msg : Type} (Message : GossipRecord → msg) {StA StB : Type} `{Datastore StA} `{Datastore StB}.
Context {pubkey : Type}.
Context (key : bytes → bytes) (marshal : Gossip → res bytes) (unmarshal : bytes → res msg)
        (read_gossip : msg → res Gossip) (consume : bytes → res (PeerRecord * pubkey))
        (matches : bytes → pubkey → bool) (sort : View → View).

Abbreviation get_view := (GetPushView unmarshal read_gossip consume matches sort).
Abbreviation auth := (authentic consume matches).

(** What [b] sends in its round. *)
Definition sent (cfg : GossipConfig) (self : res GossipRecord) (b : env msg) (local : View)
    : res unit * encoder msg :=
  fst (push_stream Message (tx b) (flush b) (close_ok b) cfg self local).


(** C31. A push that breaks off cannot corrupt the peer: when the sender's writer fails
    before its last message, its deferred calls still end the stream properly, but the
    receiver then sees a view that does not end with the sender's record (or no view) and,
    provided that no record of the sender's cache has a hop count of zero, rejects it: its
    store is unchanged and no event is emitted.  (A hop count that has overflowed is zero:
    [hop_overflow_poisons_push].) *)
Theorem broken_push_rejected (cfgA cfgB : GossipConfig) (idA : bytes) (selfA : res GossipRecord)
    (selfB : GossipRecord) (a b : env msg) (stA : StA) (stB : StB) (localB localB' bufB : View) (k : nat)
    (e : error) r enc :
  SortSpec sort → (∀ r, read_gossip (Message r) = Ret (g r)) →
  cfg_ok cfgB → auth selfB → Forall (λ r, Hop r ≠ 0) localB →
  get_view cfgB (rnd1 b) stB = Ret localB → pushBuffer cfgB (Ret selfB) localB = Ret (bufB, localB') →
  (k < length bufB)%nat → (∀ i, (i < k)%nat → tx b i = Ret tt) → tx b k = Fail e →
  incoming a = arrival (snd (sent cfgB (Ret selfB) b localB)) →
  Do Message key marshal unmarshal read_gossip consume matches sort cfgA idA selfA a stA = (Ret r, enc) →
  ∃ err, r = (stA, Some err, None).
Proof.
  intros Hsort Hwire HcB Hself Hhops HlB HbB Hk Hok Hf Hin HDo.
  destruct (Do_cases _ _ _ _ _ _ _ _ _ _ _ _ _ _ _ HDo) as [Hdone|(local & buffer & local' & remote & _ & _ & Hpull & Hm)]; [done|].
  destruct (push_arrives _ _ _ _ _ _ (Ret selfB) _ _ _ _ _ HcB HlB ltac:(by constructor) HbB) as [_ HauthB].
  destruct (pushBuffer_shape _ _ _ _ _ HbB) as (r' & v & w & [= <-] & HbufB & HloB & _).
  assert (v `prefix_of` localB) as Hpre by (by exists w).
  assert (sent cfgB (Ret selfB) b localB =
    (Fail e, mkEncoder true (Message <$> take k bufB) (close_ok b))) as Hsent.
  { unfold sent, push_stream. rewrite HbB. by rewrite (encode_all_fail _ _ 0 bufB _ k e) by done. }
  rewrite Hin, Hsent in Hpull. unfold arrival in Hpull. cbn [snd e_out e_w e_end] in Hpull.
  assert (Forall auth (take k bufB)) as Hat by (by apply Forall_take).
  destruct (close_ok b); cbn [negb andb] in Hpull.
  2:{ by rewrite (pull_broken _ _ _ _ Hwire _ _ Hat) in Hpull. }
  rewrite app_nil_r, (pull_messages _ _ _ _ Hwire _ Hat) in Hpull. injection Hpull as <-.
  assert (∃ err, Validate (take k bufB) = Fail err) as [err Hv].
  { destruct (Validate (take k bufB)) as [u|err|] eqn:Hv; [exfalso|by exists err|by apply Validate_no_panic in Hv].
    destruct u. apply Validate_spec in Hv as (v' & s & Hs & _ & Hz).
    assert (s ∈ localB) as Hin'; [|rewrite Forall_forall in Hhops; by apply (Hhops s)].
    eapply elem_of_prefix; [|exact Hpre]. subst bufB. rewrite length_app in Hk. cbn in Hk.
    rewrite take_app_le in Hs by lia. eapply elem_of_prefix; [|apply (prefix_take v k)].
    rewrite Hs. apply elem_of_app. right. by apply list_elem_of_singleton. }
  unfold MergeAndStore, merge in Hm. rewrite Hv in Hm. cbn in Hm. injection Hm as <-. by exists err.
Qed.
End exchange.

(** A round run on its own is at most the two critical sections of the transition system. *)
Lemma Do_seq {msg St pubkey : Type} `{Datastore St} (Message : GossipRecord → msg) key marshal unmarshal read_gossip
    (consume : bytes → res (PeerRecord * pubkey)) matches sort cfg id self (e : env msg)
    (st st' : St) err evt enc :
  (∀ r, self = Ret r → id_of r = id) →
  Do Message key marshal unmarshal read_gossip consume matches sort cfg id self e st =
    (Ret (st', err, evt), enc) →
  rtc (seq_step key marshal unmarshal read_gossip consume matches sort cfg id)
    (mkWorld st ∅) (mkWorld st' ∅) ∧
  (err ≠ None → evt = None).
Proof.
  intros Hid HDo. destruct (Do_cases _ _ _ _ _ _ _ _ _ _ _ _ _ _ _ HDo)
    as [[x [= -> -> ->]]|(local & buffer & local' & remote & Hl & Hb & Hp & Hm)].
  - split; [apply rtc_refl|done].
  - destruct (pushBuffer_shape _ _ _ _ _ Hb) as (r & _ & _ & Hself & _). specialize (Hid r Hself). subst self. split.
    + eapply rtc_l; [split; [by apply (step_prepare _ _ _ _ _ _ _ _ _ 0 (rnd1 e) local)|vm_compute; lia]|].
      eapply rtc_l; [split; [by eapply (step_push _ _ _ _ _ _ _ _ _ 0 r local)|vm_compute; lia]|].
      apply rtc_once. split; [|vm_compute; lia].
      pose proof (step_finish key marshal unmarshal read_gossip consume matches sort cfg id 0 (rnd2 e) (draw e) (incoming e)
        local' remote st' err evt (mkWorld st (<[0%nat := Pushed local']> (<[0%nat := Prepared local]> ∅)))
        (lookup_insert_eq _ _ _) Hp Hm) as Hf.
      cbn [w_rounds] in Hf. by rewrite insert_insert_eq, delete_insert_id in Hf.
    + unfold MergeAndStore in Hm. destruct (merge _ _ _ _ _ _ _); [|naive_solver..].
      apply bind_Ret_inv in Hm as ([s x] & _ & [= <- <- <-]). cbn. by destruct x.
Qed.

(** C30. [Do] implements the transition system of the rounds: whatever happens on the stream,
    a round that returns is either without effect or the steps of [round_step]: reading
    the view, building the buffer, which overwrites part of it, and merging what was pulled.
    The local record is that of the host the round runs on. *)
Theorem do_refines_rounds {msg St pubkey : Type} `{Datastore St} (Message : GossipRecord → msg) key marshal unmarshal read_gossip
    (consume : bytes → res (PeerRecord * pubkey)) matches sort cfg id self (e : env msg)
    (st st' : St) err evt enc :
  (∀ r, self = Ret r → id_of r = id) →
  Do Message key marshal unmarshal read_gossip consume matches sort cfg id self e st =
    (Ret (st', err, evt), enc) →
  rtc (round_step key marshal unmarshal read_gossip consume matches sort cfg id)
    (mkWorld st ∅) (mkWorld st' ∅) ∧
  (err ≠ None → evt = None).
Proof.
  intros Hid [Hst Herr]%Do_seq; [|done]. split; [|done].
  eapply rtc_subrel; [|exact Hst]. by intros w w' [Hs _].
Qed.

(** ** Concrete rounds *)
Definition toy_env (tx : nat → res unit) (incoming : list (decoded Gossip)) : env Gossip :=
  mkEnv (Ret tt) tx (Ret tt) true (λ i, i) (λ i, i) no_draw incoming.

Definition toy_sender : env Gossip := toy_env (λ _, Ret tt) [].
Definition toy_broken : env Gossip := toy_env (λ i, if (i =? 0)%nat then Fail (ErrExternal 9) else Ret tt) [].

(** The round of peer 7 with an empty cache, against peer 9 with an empty cache. *)
Definition toy_do (b : env Gossip) : res (gmap bytes bytes * option error * option (list PeerRecord)) * encoder Gossip :=
  Do (St:=gmap bytes bytes) g id toy.marshal toy.unmarshal toy.read_gossip toy.consume toy.matches sort_by_hop
    DefaultGossipConfig [7] (Ret (rec 7 1 0))
    (toy_env (λ _, Ret tt) (arrival (snd (sent g DefaultGossipConfig (Ret (rec 9 1 0)) b [])))) ∅.

Lemma default_cfg_ok : cfg_ok DefaultGossipConfig.
Proof. split; cbn; lia. Qed.

Lemma rec_auth i s h : authentic toy.consume toy.matches (rec i s h).
Proof. exists [i]. split; [done|]. unfold toy.matches, bytes_eqb. by rewrite bool_decide_eq_true_2. Qed.


Lemma broken_push_rejected_witness : ∃ err enc, toy_do toy_broken = (Ret (∅, Some err, None), enc).
Proof.
  destruct (toy_do toy_broken) as [r enc] eqn:HD.
  assert (∃ x, r = Ret x) as [x ->]. { apply (f_equal fst) in HD. vm_compute in HD. by eexists. }
  assert (∃ err, x = (∅, Some err, None)) as [err ->]; [|by exists err, enc].
  apply (broken_push_rejected (StA:=gmap bytes bytes) (StB:=gmap bytes bytes) g id toy.marshal
    toy.unmarshal toy.read_gossip toy.consume toy.matches sort_by_hop
    DefaultGossipConfig DefaultGossipConfig [7] (Ret (rec 7 1 0)) (rec 9 1 0)
    (toy_env (λ _, Ret tt) (arrival (snd (sent g DefaultGossipConfig (Ret (rec 9 1 0)) toy_broken []))))
    toy_broken ∅ ∅ [] [] [rec 9 1 0] 0 (ErrExternal 9) x enc); try reflexivity; try (intros; lia);
    [apply _|apply default_cfg_ok|apply rec_auth|by apply Forall_nil|cbn; lia|exact HD].
Defined.

Lemma do_refines_rounds_witness :
  ∃ st, rtc (toy.step DefaultGossipConfig [7]) (mkWorld ∅ ∅) (mkWorld st ∅) ∧ st ≠ ∅.
Proof.
  destruct (toy_do toy_sender) as [r enc] eqn:HD.
  assert (∃ st evt, r = Ret (st, None, evt) ∧ st ≠ ∅) as (st & evt & -> & Hne).
  { apply (f_equal fst) in HD. vm_compute in HD. subst r. by do 2 eexists. }
  exists st. split; [|done].
  refine (proj1 (do_refines_rounds _ _ _ _ _ _ _ _ _ _ _ _ _ _ _ _ _ _ HD)). by intros r [= <-].
Defined.
