(* ===== verification/PexService.v ===== *)
(** * The peer exchange from its construction to its rounds
    ([src/pkg/pex/pex.go]: [New], [Close], [atomicRecord], [gossipRound], [Bootstrap], [Advertise])

    [PexExchange] has the event loop and the decisions of the service's calls, with the
    outcome of a gossip round as a parameter; [PexStream] has the rounds.  Here they meet:

    - [New] on a host: its event bus, the options, the local record that must be there
      before anything else, and the event loop's updates of that record ([lstep]), which a
      gossiper may read at any moment;
    - [gossipRound] over [OpenStream] and [Do], and [Bootstrap] and [Advertise] as loops
      of such rounds over one cache. *)

From stdpp Require Import base list gmap strings relations.
From Stdlib Require Import ZArith Lia.
From Stdlib Require QArith_base.
From S2P Require Import Prelude PexView PexGossip PexRounds Proto PexExchange PexStream.

Open Scope Z_scope.

(** ** The local record *)

(** An [EvtLocalAddressesUpdated]: the signed envelope, and what its [Record()] returns. *)
Record event := mkEvent { e_env : bytes; e_rec : res PeerRecord }.

Record atomicRecord := mkAtomic { a_rec : option PeerRecord; a_env : option bytes }.

Definition atomic0 : atomicRecord := mkAtomic None None.

(** The two stores of [Consume], one after the other. *)
Definition store_env (env : bytes) (a : atomicRecord) : atomicRecord := mkAtomic (a_rec a) (Some env).
Definition store_rec (r : PeerRecord) (a : atomicRecord) : atomicRecord := mkAtomic (Some r) (a_env a).

(** An envelope without a record is a panic. *)
Definition Consume (e : event) (a : atomicRecord) : res atomicRecord :=
  match e_rec e with
  | Ret r => Ret (store_rec r (store_env (e_env e) a))
  | _ => Panic
  end.

Definition Record_ (fuel : nat) (a : atomicRecord) : option PeerRecord := atomic_wait fuel (a_rec a).
Definition Envelope_ (fuel : nat) (a : atomicRecord) : option bytes := atomic_wait fuel (a_env a).

(** ** Construction *)

(** What [New] asks of the host: how many addresses it has, the results of [Subscribe] and
    [Emitter], the events the subscription delivers, and whether it is closed after them. *)
Record host := mkHost {
  h_addrs : nat; h_subscribe : option Z; h_emitter : option Z;
  h_events : list event; h_closed : bool }.

Inductive new_error := ErrNotAccepting | ErrSubscribe (code : Z) | ErrEmitter (code : Z).

Section new.
Context {logger datastore discovery dopt info : Type}.
Context (log_New : logger) (map_store : datastore) (static : list info → discovery).

Abbreviation settings := (settings (logger:=logger) (datastore:=datastore) (discovery:=discovery) (dopt:=dopt)).

(** What [New] does: an error, with the subscription left open or not; waiting for an event
    that never comes; a panic; or the service with its settings, the local record and the
    events still to come. *)
Inductive started :=
| NotStarted (err : new_error) (sub_open : bool)
| Blocked
| Crashed
| Started (px : PeerExchange) (s : settings) (a : atomicRecord) (rest : list event).

(** A receive from a closed channel gives a nil value, whose type assertion panics. *)
Definition New (h : host) (t : Z) (opt : list Option) : started :=
  if (h_addrs h =? 0)%nat then NotStarted ErrNotAccepting false
  else match h_subscribe h with
  | Some code => NotStarted (ErrSubscribe code) false
  | None =>
      match h_emitter h with
      | Some code => NotStarted (ErrEmitter code) true
      | None =>
          let s := apply_options (withDefaults log_New map_store static opt)
                     (mkSettings None None None None []) in
          match h_events h with
          | [] => if h_closed h then Crashed else Blocked
          | e :: rest =>
              match Consume e atomic0 with
              | Ret a => Started (px0 t) s a rest
              | _ => Crashed
              end
          end
      end
  end.
End new.

(** [Close] closes the subscription, which ends the event loop. *)
Definition Close (h : host) : host :=
  mkHost (h_addrs h) (h_subscribe h) (h_emitter h) (h_events h) true.

(** ** Updates of the local record *)

(** The event loop with respect to its subscription: selecting; between the two stores of
    [Consume]; returned; ended by a panic. *)
Inductive loop := LSelect | LStoring (r : PeerRecord) | LReturned | LPanicked.

Record lworld := mkLworld {
  l_atomic : atomicRecord; l_loop : loop; l_queue : list event; l_sub_closed : bool }.

Inductive lstep : lworld → lworld → Prop :=
| LPublish w e :                                   (* the host's addresses change *)
    l_sub_closed w = false →
    lstep w (mkLworld (l_atomic w) (l_loop w) (l_queue w ++ [e]) false)
| LClose w : lstep w (mkLworld (l_atomic w) (l_loop w) (l_queue w) true)
| LEvent w e q r :
    l_loop w = LSelect → l_queue w = e :: q → e_rec e = Ret r →
    lstep w (mkLworld (store_env (e_env e) (l_atomic w)) (LStoring r) q (l_sub_closed w))
| LBad w e q :
    l_loop w = LSelect → l_queue w = e :: q → is_ret (e_rec e) = false →
    lstep w (mkLworld (l_atomic w) LPanicked q (l_sub_closed w))
| LStore w r :
    l_loop w = LStoring r →
    lstep w (mkLworld (store_rec r (l_atomic w)) LSelect (l_queue w) (l_sub_closed w))
| LReturn w :
    l_loop w = LSelect → l_queue w = [] → l_sub_closed w = true →
    lstep w (mkLworld (l_atomic w) LReturned [] true).

(** A host publishes its own records: [own] relates an envelope to the record in it. *)
Definition honest (self : bytes) (own : bytes → PeerRecord → Prop) (e : event) : Prop :=
  ∀ r, e_rec e = Ret r → PeerID r = self ∧ own (e_env e) r.

Inductive honest_step self own (w w' : lworld) : Prop :=
| HonestStep : lstep w w' → Forall (honest self own) (l_queue w') → honest_step self own w w'.

Definition local_inv (self : bytes) (own : bytes → PeerRecord → Prop) (w : lworld) : Prop :=
  Forall (honest self own) (l_queue w) ∧
  ∃ r env r', a_rec (l_atomic w) = Some r ∧ a_env (l_atomic w) = Some env ∧ PeerID r = self ∧
    PeerID r' = self ∧ own env r' ∧
    match l_loop w with LStoring r1 => r' = r1 | _ => r' = r end.

Lemma local_inv_step self own w w' :
  local_inv self own w → honest_step self own w w' → local_inv self own w'.
Proof.
  intros [Hq (r & env & r' & Hr & He & Hid & Hid' & Hown & Hl)] [Hst Hq'].
  split; [done|]. destruct Hst as [w e Hc|w|w e q r1 Hsel Hqu Hr1|w e q Hsel Hqu Hr1|w r1 Hsel|w Hsel Hqu Hc];
    cbn in *; try rewrite Hsel in *; try (by exists r, env, r').
  - rewrite Hqu in Hq. inversion Hq as [|? ? Hh _]; subst. destruct (Hh r1 Hr1) as [H1 H2].
    by exists r, (e_env e), r1.
  - subst r'. by exists r1, env, r1.
Qed.

Lemma local_inv_run self own w w' :
  local_inv self own w → rtc (honest_step self own) w w' → local_inv self own w'.
Proof. intros Hi Hrun. revert Hi. induction Hrun; eauto using local_inv_step. Qed.

(** The local record is there before anything else: once [New] has returned, the record
    and the envelope can be loaded without waiting in every state the event loop reaches;
    they name the host, and except between the two stores of an update the record is the
    one the envelope signs. *)
Theorem local_record_ready {logger datastore discovery dopt info : Type} (log_New : logger)
    (map_store : datastore) (static : list info → discovery) (h : host) (t : Z)
    (opt : list (Option (logger:=logger) (datastore:=datastore) (discovery:=discovery) (dopt:=dopt)))
    px s a rest (self : bytes) (own : bytes → PeerRecord → Prop) (w : lworld) :
  Forall (honest self own) (h_events h) →
  New log_New map_store static h t opt = Started px s a rest →
  rtc (honest_step self own) (mkLworld a LSelect rest (h_closed h)) w →
  ∃ r env, Record_ 0 (l_atomic w) = Some r ∧ Envelope_ 0 (l_atomic w) = Some env ∧
    PeerID r = self ∧ (∃ r', own env r' ∧ PeerID r' = self) ∧
    ((∀ r1, l_loop w ≠ LStoring r1) → own env r).
Proof.
  intros Hev HN Hrun. unfold New in HN.
  destruct (_ =? _)%nat; [done|]. destruct (h_subscribe h); [done|]. destruct (h_emitter h); [done|].
  destruct (h_events h) as [|e evs]; [by destruct (h_closed h)|].
  inversion Hev as [|? ? Hh Hrest]; subst. unfold Consume in HN.
  destruct (e_rec e) as [r0| |] eqn:Hr0; [|done..]. injection HN as <- <- <- <-.
  assert (local_inv self own w) as [_ (r & env & r' & Hr & He & Hid & Hid' & Hown & Hl)].
  { eapply local_inv_run; [|exact Hrun]. destruct (Hh r0 Hr0) as [H1 H2].
    split; [done|]. by exists r0, (e_env e), r0. }
  exists r, env. unfold Record_, Envelope_. rewrite Hr, He. split_and!; [done..|by exists r'|].
  intros Hn. destruct (l_loop w) as [|r1| |]; subst; try done. by destruct (Hn r1).
Qed.

(** When the emitter cannot be made, the subscription is not closed. *)
Theorem emitter_failure_leaks {logger datastore discovery dopt info : Type} (log_New : logger)
    (map_store : datastore) (static : list info → discovery) (h : host) (t : Z)
    (opt : list (Option (logger:=logger) (datastore:=datastore) (discovery:=discovery) (dopt:=dopt))) code :
  (h_addrs h ≠ 0)%nat → h_subscribe h = None → h_emitter h = Some code →
  New log_New map_store static h t opt = NotStarted (ErrEmitter code) true.
Proof.
  intros Ha Hs He. unfold New. rewrite Hs, He. by destruct (Nat.eqb_spec (h_addrs h) 0).
Qed.

(** ** Rounds with peers *)

(** What a peer answers: [h.Connect], and [h.NewStream] on the protocol of the namespace,
    which gives the stream or an error. *)
Record peer_env (msg : Type) := mkPeerEnv {
  connect : option error; new_stream : bytes → env msg + error }.
Arguments mkPeerEnv {msg}.
Arguments connect {msg}.
Arguments new_stream {msg}.

Definition OpenStream {msg} (ns : bytes) (p : peer_env msg) : env msg + error :=
  match connect p with
  | Some e => inr e
  | None => new_stream p (proto ns)
  end.

(** The errors of [Advertise]: of reading the cache, or of the boot service. *)
Inductive adv_error := ErrCache (e : error) | ErrBoot (code : Z).

Section rounds.
Context {msg St pubkey : Type} `{Datastore St} (Message : GossipRecord → msg).
Context (key : bytes → bytes) (marshal : Gossip → res bytes) (unmarshal : bytes → res msg)
        (read_gossip : msg → res Gossip) (consume : bytes → res (PeerRecord * pubkey))
        (matches : bytes → pubkey → bool) (sort : View → View).
Context (cfg : GossipConfig) (ns id : bytes) (self : res GossipRecord).

(** The peers as they are when they are dialled: [dial n i] is peer [i] at the [n]-th try. *)
Context {info : Type} (dial : nat → info → peer_env msg).

(** [px.gossipRound]: the store and the error. *)
Definition gossipRound (p : peer_env msg) (st : St) : res (St * option error) :=
  match OpenStream ns p with
  | inr e => Ret (st, Some e)
  | inl e =>
      r <~ fst (Do Message key marshal unmarshal read_gossip consume matches sort cfg id self e st) ;;
      Ret (r.1.1, r.1.2)
  end.

(** The loops over peers, from try [n] on: the store, the next try and whether a round
    succeeded. *)
Fixpoint rounds (n : nat) (peers : list info) (st : St) : res (St * nat * bool) :=
  match peers with
  | [] => Ret (st, n, false)
  | i :: peers' =>
      r <~ gossipRound (dial n i) st ;;
      match r.2 with
      | None => Ret (r.1, S n, true)
      | Some _ => rounds (S n) peers' r.1
      end
  end.

(** [Bootstrap] with the gossiper at hand. *)
Definition px_Bootstrap (peers : list info) (st : St) : res (St * option xerr) :=
  r <~ rounds 0 peers st ;; Ret (r.1.1, if r.2 then None else Some ErrNoPeer).

(** [Advertise] with the gossiper at hand: the cached peers first, in the order they were
    shuffled, then those of the boot service. *)
Definition px_Advertise (to_info : PeerRecord → info) (rnd : nat → nat) (ttl : Z)
    (boot : list info + Z) (st : St) : res (St * (Z + adv_error)) :=
  match GetCachedPeers unmarshal read_gossip consume matches rnd st with
  | Ret cache =>
      r <~ rounds 0 (to_info <$> cache) st ;;
      if r.2 then Ret (r.1.1, inl ttl)
      else match boot with
           | inl peers => r <~ rounds r.1.2 peers r.1.1 ;; Ret (r.1.1, inl ttl)
           | inr code => Ret (r.1.1, inr (ErrBoot code))
           end
  | Fail e => Ret (st, inr (ErrCache e))
  | Panic => Panic
  end.

Abbreviation seq := (seq_step key marshal unmarshal read_gossip consume matches sort cfg id).

(** The local record is that of the host. *)
Context (Hself : ∀ r, self = Ret r → id_of r = id).

Lemma gossipRound_seq p st st' err :
  gossipRound p st = Ret (st', err) → rtc seq (mkWorld st ∅) (mkWorld st' ∅).
Proof.
  unfold gossipRound. destruct (OpenStream ns p) as [e|e]; [|intros [= <- <-]; apply rtc_refl].
  intros ([[s x] y] & HD & [= <- <-])%bind_Ret_inv.
  destruct (Do _ _ _ _ _ _ _ _ _ _ _ _ _) as [r enc] eqn:HDo. cbn in HD. subst r.
  by apply Do_seq in HDo as [Hst _]; [|exact Hself].
Qed.

Lemma rounds_seq n peers st st' n' ok :
  rounds n peers st = Ret (st', n', ok) → rtc seq (mkWorld st ∅) (mkWorld st' ∅).
Proof.
  revert n st. induction peers as [|i peers IH]; intros n st; cbn.
  - intros [= <- <- <-]. apply rtc_refl.
  - intros ([s [e|]] & Hr & Hrest)%bind_Ret_inv; cbn in Hrest; apply gossipRound_seq in Hr.
    + etrans; [exact Hr|]. by eapply IH.
    + injection Hrest as <- <- <-. exact Hr.
Qed.

(** The loops stop at the first success: tries before it failed. *)
Lemma rounds_success n peers st st' n' :
  rounds n peers st = Ret (st', n', true) →
  ∃ pre i post st1, peers = pre ++ i :: post ∧ n' = (S n + length pre)%nat ∧
    gossipRound (dial (n + length pre) i) st1 = Ret (st', None).
Proof.
  revert n st. induction peers as [|i peers IH]; intros n st; cbn; [done|].
  intros ([s [e|]] & Hr & Hrest)%bind_Ret_inv; cbn in Hrest.
  - apply IH in Hrest as (pre & j & post & st1 & -> & -> & Hj).
    exists (i :: pre), j, post, st1. cbn. split; [done|]. split; [lia|].
    by rewrite Nat.add_succ_r.
  - injection Hrest as <- <-. exists [], i, peers, st. cbn. rewrite Nat.add_0_r. split_and!; [done|lia|done].
Qed.

(** A panic of a round ends the program; otherwise the loops return. *)
Lemma rounds_failure n peers st st' n' :
  rounds n peers st = Ret (st', n', false) → n' = (n + length peers)%nat.
Proof.
  revert n st. induction peers as [|i peers IH]; intros n st; cbn; [intros [= <- <-]; lia|].
  intros ([s [e|]] & Hr & Hrest)%bind_Ret_inv; cbn in Hrest; [|done]. apply IH in Hrest. lia.
Qed.

Lemma px_Advertise_seq to_info rnd ttl boot st st' r :
  px_Advertise to_info rnd ttl boot st = Ret (st', r) → rtc seq (mkWorld st ∅) (mkWorld st' ∅).
Proof.
  unfold px_Advertise. destruct (GetCachedPeers _ _ _ _ _ _) as [cache|e|]; [|intros [= <- <-]; apply rtc_refl|done].
  intros ([[s n] ok] & Hr & Hrest)%bind_Ret_inv. apply rounds_seq in Hr. cbn in Hrest.
  destruct ok; [injection Hrest as <- <-; exact Hr|].
  destruct boot as [peers|code]; [|injection Hrest as <- <-; exact Hr].
  apply bind_Ret_inv in Hrest as ([[s2 n2] ok2] & Hr2 & [= <- <-]). apply rounds_seq in Hr2. by etrans.
Qed.

(** A call of the service that runs to its end, whatever the peers do. *)
Inductive service_call (st st' : St) : Prop :=
| CallBootstrap peers err : px_Bootstrap peers st = Ret (st', err) → service_call st st'
| CallAdvertise to_info rnd ttl boot r :
    px_Advertise to_info rnd ttl boot st = Ret (st', r) → service_call st st'.

Lemma service_call_seq st st' : service_call st st' → rtc seq (mkWorld st ∅) (mkWorld st' ∅).
Proof.
  intros [peers err Hb|to_info rnd ttl boot r Ha]; [|by eapply px_Advertise_seq].
  apply bind_Ret_inv in Hb as ([[s n] ok] & Hr & [= <- _]). by eapply rounds_seq.
Qed.

Lemma service_calls_seq st st' : rtc service_call st st' → rtc seq (mkWorld st ∅) (mkWorld st' ∅).
Proof.
  induction 1 as [|a b c Hab _ IH]; [apply rtc_refl|]. etrans; [by apply service_call_seq|done].
Qed.
End rounds.

(** C23. The service keeps its cache: after any sequence of [Bootstrap] and [Advertise] calls
    that follow one another, whatever the peers dialled answer and whichever streams fail,
    if no commit fails, the cache of the namespace holds at most MaxView + 1 records, each
    under its peer's key and authentic.  (The one beyond MaxView is what the push of a round
    overwrote in its view, see [PexRounds.push_overwrites_local].) *)
Theorem service_keeps_cache {msg St pubkey info : Type} `{DatastoreLaws St} (Message : GossipRecord → msg)
    key marshal (unmarshal : bytes → res msg) read_gossip (consume : bytes → res (PeerRecord * pubkey))
    matches sort cfg ns id self (dial : nat → info → peer_env msg) (st0 st : St) :
  Inj (=) (=) key → SortSpec sort → CapnpSpec marshal unmarshal read_gossip → cfg_ok cfg →
  (∀ (st : St) ops, snd (ds_commit st ops) = None) → (∀ r, self = Ret r → id_of r = id) → ds_contents st0 = ∅ →
  rtc (service_call Message key marshal unmarshal read_gossip consume matches sort cfg ns id self dial)
    st0 st →
  Z.of_nat (size (ds_contents st)) ≤ MaxView cfg + 1 ∧
  store_wf key unmarshal read_gossip consume matches st.
Proof.
  intros Hinj Hsort Hcap Hcfg Hcommit Hself Hemp Hrun%service_calls_seq; [|done].
  assert (cache_inv key unmarshal read_gossip consume matches cfg id (mkWorld st ∅)) as (? & ? & _); [|done].
  eapply (cache_inv_run key marshal unmarshal read_gossip consume matches sort cfg id Hcfg Hcommit); [|exact Hrun].
  by apply cache_inv_empty.
Qed.

(** [Bootstrap] tries peers in order until a gossip round succeeds: it returns no error
    exactly when one did, the round with that peer being the last; otherwise every peer
    was tried. *)
Theorem bootstrap_first_success {msg St pubkey info : Type} `{Datastore St} (Message : GossipRecord → msg)
    key marshal (unmarshal : bytes → res msg) read_gossip (consume : bytes → res (PeerRecord * pubkey))
    matches sort cfg ns id self (dial : nat → info → peer_env msg) (peers : list info) (st st' : St) err :
  px_Bootstrap Message key marshal unmarshal read_gossip consume matches sort cfg ns id self dial peers st =
    Ret (st', err) →
  (err = None ∧ ∃ pre i post st1, peers = pre ++ i :: post ∧
     gossipRound Message key marshal unmarshal read_gossip consume matches sort cfg ns id self
       (dial (length pre) i) st1 = Ret (st', None)) ∨
  (err = Some ErrNoPeer ∧
   rounds Message key marshal unmarshal read_gossip consume matches sort cfg ns id self dial 0 peers st =
     Ret (st', length peers, false)).
Proof.
  intros ([[s n] ok] & Hr & [= <- <-])%bind_Ret_inv. cbn. destruct ok.
  - left. split; [done|]. apply rounds_success in Hr as (pre & i & post & st1 & -> & _ & Hg).
    by exists pre, i, post, st1.
  - right. split; [done|]. pose proof Hr as Hn. apply rounds_failure in Hn. by rewrite Hr, Hn.
Qed.

(** ** A concrete service *)

(** Peer 0 cannot be reached; peer 9 answers with its own record. *)
Definition toy_dial (n : nat) (i : Z) : peer_env Gossip :=
  if i =? 0 then mkPeerEnv (Some (ErrExternal 4)) (λ _, inr (ErrExternal 5))
  else mkPeerEnv None (λ _, inl (toy_env (λ _, Ret tt)
    (arrival (snd (sent g DefaultGossipConfig (Ret (rec i 1 0)) toy_sender []))))).

Abbreviation toy_bootstrap := (px_Bootstrap (St:=gmap bytes bytes) g id toy.marshal toy.unmarshal toy.read_gossip
  toy.consume toy.matches sort_by_hop DefaultGossipConfig (bs "ns") [7] (Ret (rec 7 1 0)) toy_dial).

Definition toy_store : gmap bytes bytes :=
  match toy_bootstrap [0; 9] ∅ with Ret (st, _) => st | _ => ∅ end.

Lemma toy_bootstraps : toy_bootstrap [0; 9] ∅ = Ret (toy_store, None).
Proof.
  assert (match toy_bootstrap [0; 9] ∅ with Ret (_, None) => true | _ => false end = true) as Hok
    by (vm_compute; reflexivity).
  unfold toy_store. by destruct (toy_bootstrap [0; 9] ∅) as [[st [e|]]|e|].
Qed.

Lemma service_keeps_cache_witness :
  size toy_store = 1%nat ∧ Z.of_nat (size (ds_contents toy_store)) ≤ MaxView DefaultGossipConfig + 1.
Proof.
  split; [vm_compute; reflexivity|].
  refine (proj1 (service_keeps_cache (St:=gmap bytes bytes) g id toy.marshal toy.unmarshal toy.read_gossip
    toy.consume toy.matches sort_by_hop DefaultGossipConfig (bs "ns") [7] (Ret (rec 7 1 0)) toy_dial
    ∅ toy_store _ _ _ default_cfg_ok _ _ _ _)); try reflexivity; [by intros r [= <-]|].
  apply rtc_once. exact (CallBootstrap _ _ _ _ _ _ _ _ _ _ _ _ _ _ _ _ _ toy_bootstraps).
Defined.

Lemma bootstrap_first_success_witness :
  ∃ pre i post st1, [0; 9] = pre ++ i :: post ∧
    gossipRound (St:=gmap bytes bytes) g id toy.marshal toy.unmarshal toy.read_gossip toy.consume toy.matches
      sort_by_hop DefaultGossipConfig (bs "ns") [7] (Ret (rec 7 1 0)) (toy_dial (length pre) i) st1 =
      Ret (toy_store, None).
Proof.
  destruct (bootstrap_first_success _ _ _ _ _ _ _ _ _ _ _ _ _ _ _ _ _ toy_bootstraps) as [[_ H]|[[=] _]].
  exact H.
Defined.

(** A host with one address whose record is signed by itself. *)
Definition toy_event (seq : Z) : event := mkEvent [seq; 7] (Ret (mkPeerRecord [7] seq [])).
Definition toy_host : host := mkHost 1 None None [toy_event 1; toy_event 2] false.
Definition toy_own (env : bytes) (r : PeerRecord) : Prop := toy.consume env = Ret (r, PeerID r).

Lemma toy_honest seq : honest [7] toy_own (toy_event seq).
Proof. intros r [= <-]. done. Qed.

Lemma local_record_ready_witness :
  ∃ r env, Record_ 0 (mkAtomic (Some (mkPeerRecord [7] 1 [])) (Some [2; 7])) = Some r ∧
    Envelope_ 0 (mkAtomic (Some (mkPeerRecord [7] 1 [])) (Some [2; 7])) = Some env ∧ PeerID r = [7].
Proof.
  destruct (local_record_ready (dopt:=unit) tt tt (λ _ : list unit, tt) toy_host 0 [] (px0 0)
    (mkSettings (Some tt) (Some (λ _, DefaultGossipConfig)) (Some tt) (Some tt) [])
    (mkAtomic (Some (mkPeerRecord [7] 1 [])) (Some [1; 7])) [toy_event 2] [7] toy_own
    (mkLworld (mkAtomic (Some (mkPeerRecord [7] 1 [])) (Some [2; 7])) (LStoring (mkPeerRecord [7] 2 [])) [] false))
    as (r & env & Hr & He & Hid & _).
  - exact (Forall_cons_2 _ _ _ (toy_honest 1) (Forall_cons_2 _ _ _ (toy_honest 2) (Forall_nil_2 _))).
  - reflexivity.
  - apply rtc_once. split; [|constructor].
    refine (LEvent (mkLworld (mkAtomic (Some (mkPeerRecord [7] 1 [])) (Some [1; 7])) LSelect [toy_event 2] false)
      (toy_event 2) [] (mkPeerRecord [7] 2 []) _ _ _); reflexivity.
  - exists r, env. split; [exact Hr|]. split; [exact He|exact Hid].
Defined.
