(* ===== verification/Vat.v ===== *)
(** * Vats: stream handlers, metrics and the LZ4 stream
    ([src/pkg/vat.go], the hosts and streams of [casm.go], [src/pkg/util/metrics])

    [Proto] models how protocols are named and matched.  Here is what a vat does with them:
    the construction of a vat and of its host, the options of an RPC connection, the error
    reporter, and the handlers [Export] installs.  A handler runs once per incoming stream,
    concurrently with the others and with [Export] and [Embargo], so a vat is a transition
    system ([vstep]) whose transitions are the calls a handler makes: [Incr] or [Decr] of
    one bucket, the end of the connection, the deferred closing calls.

    The host, the RPC connections and the LZ4 coder are library code.  A connection is known
    by its options; [lz4] is an interface with the behaviour of [lz4.Writer]. *)

From stdpp Require Import base list gmap strings relations.
From Stdlib Require Import ZArith Lia.
From S2P Require Import Prelude Proto.

Open Scope Z_scope.

(** ** Hosts and vats *)

(** The options a factory passes to [libp2p.New]; [UserOption n] is the caller's [n]-th. *)
Inductive libp2p_option := NoTransports | NoListenAddrs | TCPTransport | QUICTransport | UserOption (n : nat).

#[global] Instance libp2p_option_eq_dec : EqDecision libp2p_option.
Proof. solve_decision. Defined.

Definition factory {E H} (libp2p_New : list libp2p_option → outcome E H)
    (opt defaults : list libp2p_option) : outcome E H :=
  libp2p_New (defaults ++ opt).

Definition Client {E H} (libp2p_New : list libp2p_option → outcome E H) (opt : list libp2p_option)
    : outcome E H :=
  factory libp2p_New opt [NoTransports; NoListenAddrs; TCPTransport; QUICTransport].

Definition Server {E H} (libp2p_New : list libp2p_option → outcome E H) (opt : list libp2p_option)
    : outcome E H :=
  factory libp2p_New opt [NoTransports; TCPTransport; QUICTransport].

(** [Host] is nil when the factory failed; [Metrics] and [Logger] may be nil. *)
Record Vat (H : Type) := mkVat {
  NS : bytes; Host : option H; Metrics : option (gmap bytes Z); Logger : bool }.
Arguments mkVat {H}.
Arguments NS {H}.
Arguments Host {H}.
Arguments Metrics {H}.
Arguments Logger {H}.

(** The vat is returned along with the error. *)
Definition New {E H} (ns : bytes) (f : outcome E H) : outcome E (Vat H * option E) :=
  match f with
  | Ret h => Ret (mkVat (Vat_NS ns) (Some h) None false, None)
  | Fail e => Ret (mkVat (Vat_NS ns) None None false, Some e)
  | Panic => Panic
  end.

(** [Loggable] calls a method of the host. *)
Definition Loggable {E H} (ID : H → bytes) (v : Vat H) : outcome E (list (bytes * bytes)) :=
  match Host v with
  | Some h => Ret [(bs "ns", NS v); (bs "peer", ID h)]
  | None => Panic
  end.

(** ** Connections *)

(** A capability: its protocols, and its bootstrap client if it has the method. *)
Record Capability (C : Type) := mkCapability { Protocols : list bytes; Bootstrap : option C }.
Arguments mkCapability {C}.
Arguments Protocols {C}.
Arguments Bootstrap {C}.

(** [None] is the null client. *)
Definition bootstrapper {C} (c : Capability C) : option C := Bootstrap c.

(** [log.Logger]: the fields of an entry are kept in the order they were added. *)
Inductive field := FStream (id : bytes) | FError | FExcType (t : Z).
Abbreviation logger := (list field).

(** An error handed to the reporter: nil, an exception by value, a pointer to one (which
    may be nil), or any other error. *)
Inductive rpc_error :=
| ErrNil
| ErrException (type : Z)
| ErrExceptionPtr (type : option Z)
| ErrOther.

Definition errorReporter {H} (v : Vat H) (stream : bytes) : option logger :=
  if Logger v then Some [FStream stream] else None.

(** The debug message [ReportError] logs, if any. *)
Definition ReportError (l : option logger) (err : rpc_error) : option logger :=
  match l, err with
  | None, _ | _, ErrNil => None
  | Some l, ErrException t => Some (l ++ [FError; FExcType t])
  | Some l, ErrExceptionPtr None => None
  | Some l, ErrExceptionPtr (Some t) => Some (l ++ [FError; FExcType t])
  | Some l, ErrOther => Some (l ++ [FError])
  end.

Record Conn (C : Type) := mkConn {
  transport : option Transport; BootstrapClient : option C; ErrorReporter : option logger }.
Arguments mkConn {C}.
Arguments transport {C}.
Arguments BootstrapClient {C}.
Arguments ErrorReporter {C}.

(** [Connect] with the options of the connection. *)
Definition Vat_Connect {H C} (v : Vat H) (addrs : list bytes) (c : Capability C) (dial : option Z)
    (stream : list bytes → Z + bytes) (remote : option (list bytes)) (sid : bytes) (fuel : nat)
    : outcome vat_error (Conn C) :=
  t <~ Connect (NS v) addrs (Protocols c) dial stream remote fuel ;;
  Ret (mkConn t (bootstrapper c) (errorReporter v sid)).

(** ** The metrics client ([util/metrics]) *)

(** The calls that reach a client's backend. *)
Inductive metric :=
| MCount (bucket : bytes) (n : Z)
| MGauge (bucket : bytes) (n : Z)
| MDuration (bucket : bytes) (d : Z)
| MHistogram (bucket : bytes) (n : Z)
| MFlush.

(** A client maps each call to what it sends; [NopClient] sends nothing. *)
Abbreviation MClient := (metric → list metric).
Definition NopClient : MClient := λ _, [].

Record Timing := mkTiming { t0 : Z; tc : MClient }.
Definition NewTiming (c : MClient) (t0 : Z) : Timing := mkTiming t0 c.

(** [time.Since]: the difference saturates at the ends of a 64-bit duration. *)
Definition Timing_Duration (now : Z) (t : Timing) : Z :=
  Z.max (- 2 ^ 63) (Z.min (2 ^ 63 - 1) (now - t0 t)).

Definition Timing_Send (now : Z) (bucket : bytes) (t : Timing) : list metric :=
  tc t (MDuration bucket (Timing_Duration now t)).

(** ** Stream handlers *)

(** Where a handler is: its stream was routed to it; it has counted its protocol; its
    connection is open; the connection is done and closed; the deferred [StreamClosed] has
    uncounted the protocol, then the connection; what is left is to close the stream. *)
Inductive phase := Routed | Counted | Open_ | Finished | Uncounted | Leaving.

#[global] Instance phase_eq_dec : EqDecision phase.
Proof. solve_decision. Defined.

Definition connected : bytes := bs "rpc.connected".
Definition bucket (id : bytes) : bytes := bs "rpc." ++ id.

Arguments connected : simpl never.
Arguments bucket : simpl never.

(** [Incr] and [Decr]; a nil reporter is not called. *)
Definition report (k : bytes) (n : Z) (m : option (gmap bytes Z)) : option (gmap bytes Z) :=
  count k n <$> m.

(** The next call of the handler of a stream of protocol [id]: the new phase ([None] when
    the handler returned) and the counters. *)
Definition handle (id : bytes) (p : phase) (m : option (gmap bytes Z))
    : option phase * option (gmap bytes Z) :=
  match p with
  | Routed => (Some Counted, report (bucket id) 1 m)
  | Counted => (Some Open_, report connected 1 m)
  | Open_ => (Some Finished, m)                        (* conn.Done, conn.Close *)
  | Finished => (Some Uncounted, report (bucket id) (-1) m)
  | Uncounted => (Some Leaving, report connected (-1) m)
  | Leaving => (None, m)                               (* s.Close *)
  end.

Section vat.
Context {H : Type} (ns : bytes).

(** A stream keeps the handler it was routed to. *)
Record stream := mkStream { s_id : bytes; s_handler : H; s_phase : phase }.

Record vworld := mkVworld {
  handlers : gmap bytes H; counters : option (gmap bytes Z); streams : gmap nat stream }.

(** The world after the next call of stream [n]'s handler. *)
Definition run_stream (n : nat) (w : vworld) : option vworld :=
  s ← streams w !! n;
  let '(p, m) := handle (s_id s) (s_phase s) (counters w) in
  Some (mkVworld (handlers w) m
    (match p with
     | Some p => <[n := mkStream (s_id s) (s_handler s) p]> (streams w)
     | None => delete n (streams w)
     end)).

Inductive vstep : vworld → vworld → Prop :=
| vs_export protocols h w :
    vstep w (mkVworld (Export ns protocols h (handlers w)) (counters w) (streams w))
| vs_embargo protocols w :
    vstep w (mkVworld (Embargo ns protocols (handlers w)) (counters w) (streams w))
| vs_route n id h w :
    handlers w !! id = Some h → streams w !! n = None →
    vstep w (mkVworld (handlers w) (counters w) (<[n := mkStream id h Routed]> (streams w)))
| vs_run n w w' : run_stream n w = Some w' → vstep w w'.

Definition vat_start (m : option (gmap bytes Z)) : vworld := mkVworld ∅ m ∅.

(** ** Facts *)

(** The sum of [f] over the streams. *)
Definition total (f : stream → Z) (m : gmap nat stream) : Z := map_fold (λ _ s acc, f s + acc) 0 m.

Lemma total_empty f : total f ∅ = 0.
Proof. apply map_fold_empty. Qed.

Lemma total_insert f n s m : m !! n = None → total f (<[n := s]> m) = f s + total f m.
Proof. intros Hn. unfold total. rewrite map_fold_insert_L; [done|intros; lia|done]. Qed.

Lemma total_delete f n s m : m !! n = Some s → total f (delete n m) = total f m - f s.
Proof. intros Hn. unfold total. rewrite (map_fold_delete_L _ _ n s m); [lia|intros; lia|done]. Qed.

Lemma total_update f n s s' m : m !! n = Some s → total f (<[n := s']> m) = total f m + f s' - f s.
Proof.
  intros Hn. rewrite <-insert_delete_eq, total_insert by apply lookup_delete_eq.
  rewrite (total_delete _ _ _ _ Hn). lia.
Qed.

(** What a handler contributes to the bucket of its protocol, and to the connected one. *)
Definition in_proto (p : option phase) : Z :=
  match p with Some (Counted | Open_ | Finished) => 1 | _ => 0 end.
Definition in_connected (p : option phase) : Z :=
  match p with Some (Open_ | Finished | Uncounted) => 1 | _ => 0 end.

Definition proto_streams (id : bytes) (w : vworld) : Z :=
  total (λ s, if decide (s_id s = id) then in_proto (Some (s_phase s)) else 0) (streams w).
Definition conn_streams (w : vworld) : Z :=
  total (λ s, in_connected (Some (s_phase s))) (streams w).

Definition value (m : gmap bytes Z) (k : bytes) : Z := default 0 (m !! k).

Lemma value_count m k n k' : value (count k n m) k' = value m k' + (if decide (k = k') then n else 0).
Proof.
  unfold value, count. destruct (decide (k = k')) as [->|Hne].
  - by rewrite lookup_insert_eq.
  - rewrite lookup_insert_ne by done. lia.
Qed.

Lemma bucket_inj id id' : bucket id = bucket id' → id = id'.
Proof. apply app_inv_head. Qed.

Lemma bucket_connected id : is_rooted id = true → bucket id ≠ connected.
Proof. intros Hr [=]. by subst. Qed.

(** Every protocol id a vat handles is rooted. *)
Lemma path_Clean_rooted s : is_rooted s = true → is_rooted (path_Clean s) = true.
Proof. intros Hs. unfold path_Clean. by rewrite Hs. Qed.

Lemma Subprotocol_rooted ns' ss : is_rooted (Subprotocol ns' ss) = true.
Proof.
  unfold Subprotocol, AppendStrings, Join, path_Join.
  rewrite filter_cons_True by done. apply path_Clean_rooted. by destruct (filter _ _).
Qed.

Lemma protocolsFor_rooted protocols : Forall (λ id, is_rooted id = true) (protocolsFor ns protocols).
Proof. apply Forall_fmap, Forall_true. intros id. apply Subprotocol_rooted. Qed.

(** What [Export] and [Embargo] make of the handlers. *)
Lemma Export_lookup (protocols : list bytes) (h : H) (m : gmap bytes H) (id : bytes) :
  Export ns protocols h m !! id = if decide (id ∈ protocolsFor ns protocols) then Some h else m !! id.
Proof.
  unfold Export. generalize (protocolsFor ns protocols) as ps. intros ps. revert m.
  induction ps as [|p ps IH]; intros m; cbn; [done|]. rewrite IH.
  destruct (decide (id ∈ ps)), (decide (id ∈ p :: ps)); try set_solver.
  - assert (id = p) as -> by set_solver. by rewrite lookup_insert_eq.
  - by rewrite lookup_insert_ne by set_solver.
Qed.

Lemma Embargo_lookup (protocols : list bytes) (m : gmap bytes H) (id : bytes) :
  Embargo ns protocols m !! id = if decide (id ∈ protocolsFor ns protocols) then None else m !! id.
Proof.
  unfold Embargo. generalize (protocolsFor ns protocols) as ps. intros ps. revert m.
  induction ps as [|p ps IH]; intros m; cbn; [done|]. rewrite IH.
  destruct (decide (id ∈ ps)), (decide (id ∈ p :: ps)); try set_solver.
  - assert (id = p) as -> by set_solver. by rewrite lookup_delete_eq.
  - by rewrite lookup_delete_ne by set_solver.
Qed.

(** The effect of one call on the counters is that of the phase on the contributions. *)
Lemma handle_spec id p m p' m' :
  is_rooted id = true → handle id p (Some m) = (p', m') →
  ∃ c, m' = Some c ∧
    (∀ id', is_rooted id' = true → value c (bucket id') =
       value m (bucket id') + (if decide (id = id') then in_proto p' - in_proto (Some p) else 0)) ∧
    value c connected = value m connected + in_connected p' - in_connected (Some p).
Proof.
  intros Hid Hh. destruct p; cbn in Hh; injection Hh as <- <-; cbn;
    eexists; (split; [done|]); rewrite ?value_count; (split; [intros id' Hid'; rewrite ?value_count|]);
    repeat case_decide; subst;
    try (exfalso; match goal with
      | H : bucket _ = connected |- _ => by apply bucket_connected in H
      | H : connected = bucket _ |- _ => symmetry in H; by apply bucket_connected in H
      | H : bucket _ = bucket _, H' : _ ≠ _ |- _ => apply bucket_inj in H; by apply H'
      end); try done; lia.
Qed.

Record vinv (w : vworld) : Prop := {
  vi_handlers : map_Forall (λ id _, is_rooted id = true) (handlers w);
  vi_streams : map_Forall (λ _ s, is_rooted (s_id s) = true) (streams w);
  vi_counters : ∀ m, counters w = Some m →
    (∀ id, is_rooted id = true → value m (bucket id) = proto_streams id w) ∧
    value m connected = conn_streams w }.

Lemma vinv_start m : (∀ c k, m = Some c → value c k = 0) → vinv (vat_start m).
Proof.
  intros Hm. split; [apply map_Forall_empty..|]. cbn. intros c ->.
  unfold proto_streams, conn_streams. setoid_rewrite total_empty. eauto.
Qed.

Lemma run_stream_inv n w w' : vinv w → run_stream n w = Some w' → vinv w'.
Proof.
  intros [Hh Hs Hc] Hr. unfold run_stream in Hr. apply bind_Some in Hr as (s & Hn & Hr).
  pose proof (Hs n s Hn) as Hid.
  destruct (handle (s_id s) (s_phase s) (counters w)) as [p m] eqn:Hhd. injection Hr as <-.
  split; cbn; [done| |].
  - destruct p; [by apply map_Forall_insert_2|by apply map_Forall_delete].
  - intros c ->. destruct (counters w) as [m0|] eqn:Hm0; [|by destruct (s_phase s); simplify_eq/=].
    destruct (Hc m0 eq_refl) as [Hp Hcn].
    destruct (handle_spec _ _ _ _ _ Hid Hhd) as (c' & [= <-] & Hp' & Hcn').
    unfold proto_streams, conn_streams in *. split; [intros id Hidr|]; cbn.
    + rewrite (Hp' id Hidr), (Hp id Hidr). destruct p as [p|].
      * rewrite (total_update _ _ _ _ _ Hn). cbn. case_decide; lia.
      * rewrite (total_delete _ _ _ _ Hn). cbn. case_decide; cbn; lia.
    + rewrite Hcn', Hcn. destruct p as [p|].
      * rewrite (total_update _ _ _ _ _ Hn). cbn. lia.
      * rewrite (total_delete _ _ _ _ Hn). cbn. lia.
Qed.

Lemma vstep_inv w w' : vinv w → vstep w w' → vinv w'.
Proof.
  intros Hi Hst. destruct Hst as [protocols h w|protocols w|n id h w Hh Hn|n w w' Hr].
  - destruct Hi as [Hh Hs Hc]. split; cbn; [|done..]. intros id x Hx. rewrite Export_lookup in Hx.
    case_decide; [|by apply (Hh id x)]. pose proof (protocolsFor_rooted protocols) as Hf.
    rewrite Forall_forall in Hf. by apply Hf.
  - destruct Hi as [Hh Hs Hc]. split; cbn; [|done..]. intros id x Hx. rewrite Embargo_lookup in Hx.
    case_decide; [done|by apply (Hh id x)].
  - destruct Hi as [Hh' Hs Hc]. split; cbn; [done| |].
    + apply map_Forall_insert_2; [by apply (Hh' id h)|done].
    + intros m Hm. destruct (Hc m Hm) as [Hp Hcn]. unfold proto_streams, conn_streams in *. cbn.
      rewrite total_insert, Hcn by done. split; [|cbn; lia].
      intros id' Hid'. rewrite total_insert, (Hp id' Hid') by done. cbn. case_decide; lia.
  - by eapply run_stream_inv.
Qed.

Lemma vsteps_inv w w' : rtc vstep w w' → vinv w → vinv w'.
Proof. induction 1 as [|w1 w2 w3 Hst _ IH]; [done|]. intros Hi. apply IH. by eapply vstep_inv. Qed.

(** ** Handlers return *)
Definition left (p : phase) : nat :=
  match p with Routed => 6 | Counted => 5 | Open_ => 4 | Finished => 3 | Uncounted => 2 | Leaving => 1 end.

Lemma stream_returns n w s :
  streams w !! n = Some s →
  ∃ w', rtc vstep w w' ∧ streams w' = delete n (streams w) ∧ handlers w' = handlers w.
Proof.
  remember (left (s_phase s)) as k eqn:Hk. revert w s Hk.
  induction k as [|k IH]; intros w s Hk Hn; [by destruct (s_phase s)|].
  destruct (run_stream n w) as [w1|] eqn:Hr;
    [|unfold run_stream in Hr; rewrite Hn in Hr; cbn in Hr; by destruct (handle _ _ _)].
  pose proof Hr as Hr'. unfold run_stream in Hr'. rewrite Hn in Hr'. cbn in Hr'.
  destruct (handle (s_id s) (s_phase s) (counters w)) as [p m] eqn:Hh. injection Hr' as Hw1.
  destruct p as [p|].
  - destruct (IH w1 (mkStream (s_id s) (s_handler s) p)) as (w' & Hst & Hs & Hhd).
    + cbn. destruct (s_phase s); cbn in *; simplify_eq; cbn; lia.
    + rewrite <-Hw1. apply lookup_insert_eq.
    + exists w'. split; [eapply rtc_l; [by apply (vs_run n)|done]|].
      rewrite Hs, Hhd, <-Hw1. cbn. split; [|done]. apply delete_insert_eq.
  - exists w1. split; [by eapply rtc_once, (vs_run n)|]. by rewrite <-Hw1.
Qed.

Lemma streams_return w :
  ∃ w', rtc vstep w w' ∧ streams w' = ∅ ∧ handlers w' = handlers w.
Proof.
  remember (streams w) as m eqn:Hm. revert w Hm.
  induction m as [|n s m Hn _ IH] using map_first_key_ind; intros w Hm; [by exists w|].
  destruct (stream_returns n w s) as (w1 & Hst & Hs & Hh); [rewrite <-Hm; apply lookup_insert_eq|].
  destruct (IH w1) as (w' & Hst' & Hs' & Hh').
  { by rewrite Hs, <-Hm, delete_insert_id. }
  exists w'. split; [by etrans|]. split; [done|congruence].
Qed.
End vat.

Arguments stream H : clear implicits.
Arguments vworld H : clear implicits.

Lemma counters_some {H} ns (w w' : vworld H) :
  rtc (vstep ns) w w' → is_Some (counters w) → is_Some (counters w').
Proof.
  induction 1 as [|w1 w2 w3 Hst _ IH]; [done|]. intros [m Hm]. apply IH.
  destruct Hst as [| | |n w1 w2 Hr]; cbn; [by eexists..|].
  unfold run_stream in Hr. apply bind_Some in Hr as (s & _ & Hr). rewrite Hm in Hr.
  destruct (s_phase s); cbn in Hr; injection Hr as <-; by eexists.
Qed.

(** The metrics of a vat count its connections exactly, whatever the interleaving of
    handlers, exports and embargoes: "rpc.connected" is the number of handlers between
    their two updates of it, and "rpc.<id>" that of the handlers of the protocol; from any
    reachable state all handlers can return, which changes no export and brings every
    counter of the vat back to zero. *)
Theorem metrics_count_connections {H} (ns : bytes) (w : vworld H) :
  rtc (vstep ns) (vat_start (Some ∅)) w →
  (∃ m, counters w = Some m ∧ value m connected = conn_streams w ∧
     ∀ id, is_rooted id = true → value m (bucket id) = proto_streams id w) ∧
  (∃ w' m, rtc (vstep ns) w w' ∧ streams w' = ∅ ∧ handlers w' = handlers w ∧
     counters w' = Some m ∧ value m connected = 0 ∧
     ∀ id, is_rooted id = true → value m (bucket id) = 0).
Proof.
  intros Hst.
  assert (∀ w', rtc (vstep ns) (vat_start (H:=H) (Some ∅)) w' → ∃ m, counters w' = Some m ∧
    value m connected = conn_streams w' ∧
    ∀ id, is_rooted id = true → value m (bucket id) = proto_streams id w') as Hinv.
  { intros w' Hw'. destruct (counters_some _ _ _ Hw') as [m Hm]; [by eexists|].
    assert (vinv w') as [_ _ Hc]. { eapply vsteps_inv; [done|]. apply vinv_start. by intros c k [= <-]. }
    exists m. split; [done|]. by destruct (Hc m Hm). }
  split; [by apply Hinv|].
  destruct (streams_return ns w) as (w' & Hst' & Hs & Hh).
  destruct (Hinv w') as (m & Hm & Hcn & Hp); [by etrans|].
  exists w', m. unfold conn_streams, proto_streams in *. rewrite Hs in *.
  split_and!; [done..| |]; [by rewrite Hcn, total_empty|].
  intros id Hid. by rewrite Hp, total_empty.
Qed.

(** A run in which no protocol of [ps] gets a handler again. *)
Definition vstep_without {H} (ns : bytes) (ps : list bytes) (w w' : vworld H) : Prop :=
  vstep ns w w' ∧ ∀ id, id ∈ ps → handlers w !! id = None → handlers w' !! id = None.

(** A stream that was there before, with the same protocol and handler. *)
Definition continues {H} (s : stream H) (w : vworld H) (n : nat) : Prop :=
  ∃ s0, streams w !! n = Some s0 ∧ s_id s0 = s_id s ∧ s_handler s0 = s_handler s.

Lemma vstep_continues {H} ns (w w' : vworld H) n s :
  vstep ns w w' → streams w' !! n = Some s → handlers w !! s_id s = None → continues s w n.
Proof.
  intros Hst Hs Hh. destruct Hst as [| |n' id h w Hid Hn|n' w w' Hr]; cbn in *; [by exists s..| |].
  - destruct (decide (n = n')) as [->|Hne].
    + rewrite lookup_insert_eq in Hs. injection Hs as <-. cbn in Hh. congruence.
    + rewrite lookup_insert_ne in Hs by done. by exists s.
  - unfold run_stream in Hr. apply bind_Some in Hr as (s0 & Hn & Hr).
    destruct (handle _ _ _) as [[p|] m]; injection Hr as <-; cbn in Hs;
      destruct (decide (n = n')) as [->|Hne].
    + rewrite lookup_insert_eq in Hs. injection Hs as <-. by exists s0.
    + rewrite lookup_insert_ne in Hs by done. by exists s.
    + by rewrite lookup_delete_eq in Hs.
    + rewrite lookup_delete_ne in Hs by done. by exists s.
Qed.

(** [Embargo] stops new streams and leaves existing ones alone: as long as none of its
    protocols is exported again, every stream of one of them was already routed when
    [Embargo] was called and still has the handler it was routed to; the handlers of all
    other protocols are as they were. *)
Theorem embargo_keeps_streams {H} (ns : bytes) (protocols : list bytes) (w w' : vworld H) n s :
  rtc (vstep_without ns (protocolsFor ns protocols))
    (mkVworld (Embargo ns protocols (handlers w)) (counters w) (streams w)) w' →
  streams w' !! n = Some s → s_id s ∈ protocolsFor ns protocols →
  continues s w n ∧
  ∀ id, id ∉ protocolsFor ns protocols → Embargo ns protocols (handlers w) !! id = handlers w !! id.
Proof.
  intros Hst Hs Hid. split; [|intros id Hn; rewrite Embargo_lookup; by case_decide].
  set (w0 := mkVworld _ _ _) in Hst.
  assert (∀ id, id ∈ protocolsFor ns protocols → handlers w0 !! id = None) as H0.
  { intros id Hin. cbn. rewrite Embargo_lookup. by rewrite decide_True. }
  change (continues s w0 n). clearbody w0. revert H0.
  induction Hst as [|w1 w2 w3 [Hst Hk] _ IH]; intros H0; [by exists s|].
  destruct IH as (s2 & Hs2 & Hi2 & Hh2); [done|auto|].
  destruct (vstep_continues _ _ _ _ _ Hst Hs2) as (s1 & Hs1 & Hi1 & Hh1); [rewrite Hi2; auto|].
  exists s1. split; [done|]. by rewrite Hi1, Hh1.
Qed.

(** ** The LZ4 stream ([casm.go]) *)

(** [lz4.Writer] and [lz4.Reader].  A write returns the payload of the blocks it completed;
    a read takes the compressed input and returns what is left of it. *)
Class Lz4 (W R : Type) := {
  NewWriter : W;
  NewReader : R;
  lz4_Write : W → bytes → W * list bytes;
  lz4_Read : R → list bytes → nat → R * list bytes * bytes }.

(** "Flush any buffered data to the underlying writer": what is written and not yet in a
    block is buffered, and blocks are made of [block] bytes or more. *)
Class Lz4Laws (W R : Type) `{Lz4 W R} (block : nat) := {
  buffered : W → bytes;
  buffered_new : buffered NewWriter = [];
  write_conserves : ∀ w b,
    let r := lz4_Write w b in concat (snd r) ++ buffered (fst r) = buffered w ++ b;
  write_buffers : ∀ w b,
    (length (buffered w) + length b < block)%nat → snd (lz4_Write w b) = [] }.

Section lz4.
Context {W R : Type} `{Lz4 W R}.

(** The stream below: its protocol, what was sent on it, what is to be read, whether it is
    closed; the reader and the writer once they were made. *)
Record Lz4Stream := mkLz4Stream {
  l_proto : bytes; l_sent : list bytes; l_input : list bytes; l_closed : bool;
  l_rw : option (R * W) }.

(** [once.Do]. *)
Definition init (s : Lz4Stream) : Lz4Stream * (R * W) :=
  match l_rw s with
  | Some rw => (s, rw)
  | None =>
      let rw := (NewReader, NewWriter) in
      (mkLz4Stream (l_proto s) (l_sent s) (l_input s) (l_closed s) (Some rw), rw)
  end.

Definition Lz4_Read (len : nat) (s : Lz4Stream) : Lz4Stream * bytes :=
  let '(s, (r, w)) := init s in
  let '(r, input, b) := lz4_Read r (l_input s) len in
  (mkLz4Stream (l_proto s) (l_sent s) input (l_closed s) (Some (r, w)), b).

(** All of [b] is accepted. *)
Definition Lz4_Write (b : bytes) (s : Lz4Stream) : Lz4Stream * nat :=
  let '(s, (r, w)) := init s in
  let '(w, blocks) := lz4_Write w b in
  (mkLz4Stream (l_proto s) (l_sent s ++ blocks) (l_input s) (l_closed s) (Some (r, w)), length b).

(** Only the stream below is closed. *)
Definition Lz4_Close (s : Lz4Stream) : Lz4Stream :=
  mkLz4Stream (l_proto s) (l_sent s) (l_input s) true (l_rw s).

Definition new_lz4 (id : bytes) (input : list bytes) : Lz4Stream := mkLz4Stream id [] input false None.

(** A use of the stream: reads and writes in any order. *)
Inductive lz4_op := OpRead (len : nat) | OpWrite (b : bytes).

Definition lz4_do (s : Lz4Stream) (o : lz4_op) : Lz4Stream :=
  match o with OpRead len => fst (Lz4_Read len s) | OpWrite b => fst (Lz4_Write b s) end.

Definition written (ops : list lz4_op) : bytes :=
  ops ≫= λ o, match o with OpRead _ => [] | OpWrite b => b end.

Context (block : nat) `{!Lz4Laws W R block}.

Definition pending (s : Lz4Stream) : bytes :=
  match l_rw s with Some (_, w) => buffered w | None => [] end.

Lemma init_spec s :
  l_sent (fst (init s)) = l_sent s ∧ pending s = buffered (snd (snd (init s))).
Proof.
  unfold init, pending. destruct (l_rw s) as [[r w]|]; cbn; [done|]. by rewrite buffered_new.
Qed.

Lemma lz4_do_conserves s o :
  concat (l_sent (lz4_do s o)) ++ pending (lz4_do s o) =
  concat (l_sent s) ++ pending s ++ written [o].
Proof.
  destruct (init_spec s) as [Hs Hp].
  destruct o as [len|b]; cbn; unfold Lz4_Read, Lz4_Write; destruct (init s) as [s1 [r w]]; cbn in *.
  - destruct (lz4_Read r (l_input s1) len) as [[r' input] b]. cbn. by rewrite app_nil_r, Hs, Hp.
  - pose proof (write_conserves w b) as Hw. destruct (lz4_Write w b) as [w' blocks]. cbn in *.
    rewrite concat_app, <-app_assoc, Hw, Hs, Hp. by rewrite app_nil_r.
Qed.

Lemma lz4_do_quiet s o :
  (length (pending s) + length (written [o]) < block)%nat → l_sent (lz4_do s o) = l_sent s.
Proof.
  intros Hb. destruct (init_spec s) as [Hs Hp].
  destruct o as [len|b]; cbn in *; unfold Lz4_Read, Lz4_Write; destruct (init s) as [s1 [r w]]; cbn in *.
  - by destruct (lz4_Read r (l_input s1) len) as [[r' input] b].
  - rewrite app_nil_r, Hp in Hb. pose proof (write_buffers w b Hb) as Hw.
    destruct (lz4_Write w b) as [w' blocks]. cbn in *. by rewrite Hw, app_nil_r, Hs.
Qed.

Lemma lz4_ops_conserve s ops :
  concat (l_sent (foldl lz4_do s ops)) ++ pending (foldl lz4_do s ops) =
  concat (l_sent s) ++ pending s ++ written ops.
Proof.
  revert s. induction ops as [|o ops IH]; intros s; cbn [foldl]; [by rewrite app_nil_r|].
  rewrite IH, app_assoc, lz4_do_conserves. unfold written. cbn. by rewrite app_nil_r, <-!app_assoc.
Qed.

Lemma lz4_ops_quiet s ops :
  (length (pending s) + length (written ops) < block)%nat → l_sent (foldl lz4_do s ops) = l_sent s.
Proof.
  revert s. induction ops as [|o ops IH]; intros s Hb; cbn [foldl]; [done|].
  assert (written (o :: ops) = written [o] ++ written ops) as Hw by (cbn; by rewrite app_nil_r).
  rewrite Hw, length_app in Hb.
  assert (l_sent (lz4_do s o) = l_sent s) as Hq by (apply lz4_do_quiet; lia).
  rewrite IH; [done|]. pose proof (lz4_do_conserves s o) as Hc. rewrite Hq in Hc.
  apply app_inv_head in Hc. rewrite Hc, length_app. lia.
Qed.
End lz4.

Arguments Lz4Stream W R : clear implicits.

(** Closing an LZ4 stream loses what its writer still buffers: after any reads and
    writes, all of them accepted, the peer of a closed stream has been sent exactly what
    was written less the buffered rest, in order; and as long as less than a block was
    written, nothing at all has been sent. *)
Theorem lz4_close_drops_buffered {W R} `{Lz4 W R} (block : nat) (Hl : Lz4Laws W R block)
    (id : bytes) (input : list bytes) (ops : list lz4_op) :
  let s := Lz4_Close (foldl lz4_do (new_lz4 (W:=W) (R:=R) id input) ops) in
  l_closed s = true ∧
  concat (l_sent s) ++ pending block s = written ops ∧
  ((length (written ops) < block)%nat → l_sent s = [] ∧ pending block s = written ops).
Proof.
  intros s. pose proof (lz4_ops_conserve block (new_lz4 (W:=W) (R:=R) id input) ops) as Hc.
  cbn in Hc. fold (pending (W:=W) (R:=R) block) in Hc.
  split; [done|]. split; [exact Hc|]. intros Hb.
  pose proof (lz4_ops_quiet block (new_lz4 (W:=W) (R:=R) id input) ops Hb) as Hq. cbn in Hq.
  split; [exact Hq|]. rewrite Hq in Hc. exact Hc.
Qed.

(** ** Connecting two vats *)

(** A protocol id of a capability: a plain path, rooted or not. *)
Definition cap_id (p : bytes) : Prop :=
  ∃ cs, cs ≠ [] ∧ Forall plain cs ∧ (p = join cs ∨ p = slash :: join cs).

Lemma cap_id_parts p : cap_id p → Parts p ≠ [] ∧ Forall plain (Parts p) ∧
  (p = join (Parts p) ∨ p = slash :: join (Parts p)).
Proof.
  intros (cs & Hne & Hcs & Hp).
  assert (Parts p = cs) as ->; [|done].
  destruct Hp as [-> | ->]; rewrite ?Parts_slash; by apply Parts_join_comps, plain_comps.
Qed.

Lemma Subprotocol_cap ns p : plain ns → cap_id p →
  Subprotocol ns [p] = slash :: join (bs "casm" :: Version :: ns :: Parts p).
Proof.
  intros Hns (_ & Hp & _)%cap_id_parts.
  assert ([ns; p] ≫= Parts = ns :: Parts p) as Hb.
  { rewrite !bind_cons, (Parts_comp ns) by apply Hns. cbn. by rewrite app_nil_r. }
  rewrite Subprotocol_plain; rewrite Hb; [done|]. by constructor.
Qed.

(** The namespace can be read off a protocol id. *)
Lemma Subprotocol_ns_inj ns ns' p p' : plain ns → plain ns' → cap_id p → cap_id p' →
  Subprotocol ns [p] = Subprotocol ns' [p'] → ns = ns'.
Proof.
  intros Hns Hns' Hp Hp' Heq.
  assert (∀ n q, plain n → cap_id q →
    Parts (Subprotocol n [q]) = bs "casm" :: Version :: n :: Parts q) as HP.
  { intros n q Hn Hq. rewrite Subprotocol_cap by done. rewrite Parts_slash.
    apply Parts_join_comps. repeat constructor; try done; try apply Hn.
    - by apply (bool_decide_unpack _); vm_compute.
    - by apply (bool_decide_unpack _); vm_compute.
    - by apply plain_comps, (cap_id_parts q). }
  apply (f_equal Parts) in Heq. rewrite !HP in Heq by done. by injection Heq.
Qed.

Lemma hasSuffix_app pre x : hasSuffix (pre ++ x) x = true.
Proof.
  unfold hasSuffix. rewrite length_app. apply andb_true_intro. split; [apply Nat.leb_le; lia|].
  replace (length pre + length x - length x)%nat with (length pre) by lia.
  rewrite drop_app_length. by apply bool_decide_eq_true.
Qed.

(** The id a vat exports ends with the id of the capability, whatever its namespace. *)
Lemma Subprotocol_suffix ns p : plain ns → cap_id p → hasSuffix (Subprotocol ns [p]) p = true.
Proof.
  intros Hns Hp. rewrite Subprotocol_cap by done. destruct (cap_id_parts p Hp) as (Hne & _ & Hs).
  assert (slash :: join (bs "casm" :: Version :: ns :: Parts p) =
    (slash :: bs "casm" ++ slash :: Version ++ slash :: ns) ++ slash :: join (Parts p)) as ->.
  { rewrite !join_cons by done. cbn [app]. by rewrite <-!app_assoc. }
  destruct Hs as [Hs|Hs].
  - rewrite (cons_middle slash), app_assoc. rewrite Hs at 2. apply hasSuffix_app.
  - rewrite Hs at 2. apply hasSuffix_app.
Qed.

(** What [NewStream] promises: the first protocol of the list is taken if the remote
    handles it, and there is no stream if the remote handles none. *)
Record negotiates {H} (remote : gmap bytes H) (stream : list bytes → Z + bytes) : Prop := {
  ng_first : ∀ p ps, is_Some (remote !! p) → stream (p :: ps) = inr p;
  ng_none : ∀ ps, Forall (λ p, remote !! p = None) ps → ∃ code, stream ps = inl code }.

(** C32. Connecting to a capability that the remote vat exports works exactly within a
    namespace.  Both namespaces are single plain path components, the capability's ids are
    plain, the remote handles none of the local vat's protocols for other reasons, the
    dial succeeds, protocol negotiation takes the first id if the remote handles it and fails
    if it handles none, and the peerstore lists what the remote handles.  Then with equal
    namespaces the connection uses the capability's preferred protocol, its bootstrap
    client and the vat's reporter; with different ones [Connect] returns ErrInvalidNS. *)
Theorem connect_checks_namespace {H HR C : Type} (v : Vat H) (ns' : bytes) (h : HR) (m : gmap bytes HR)
    (p : bytes) (ps : list bytes) (boot : option C)
    (addrs : list bytes) (stream : list bytes → Z + bytes) (rs : list bytes) (sid : bytes) (fuel : nat) :
  plain (NS v) → plain ns' → Forall cap_id (p :: ps) →
  (∀ id, id ∈ protocolsFor (NS v) (p :: ps) → m !! id = None) →
  negotiates (Export ns' (p :: ps) h m) stream →
  (∀ id, id ∈ rs ↔ is_Some (Export ns' (p :: ps) h m !! id)) →
  Vat_Connect v addrs (mkCapability (p :: ps) boot) None stream (Some rs) sid fuel =
  if decide (NS v = ns')
  then Ret (mkConn (Upgrade fuel (Subprotocol ns' [p])) boot (errorReporter v sid))
  else Fail ErrInvalidNS.
Proof.
  intros Hns Hns' Hps Hm [Hfirst Hnone] Hrs. unfold Vat_Connect, Connect. cbn [Protocols].
  assert (is_Some (Export ns' (p :: ps) h m !! Subprotocol ns' [p])) as Hsome.
  { rewrite Export_lookup, decide_True; [by eexists|]. by left. }
  destruct (decide (NS v = ns')) as [Heq|Hne].
  - rewrite Heq. change (protocolsFor ns' (p :: ps)) with (Subprotocol ns' [p] :: protocolsFor ns' ps).
    rewrite (Hfirst _ _ Hsome). by destruct addrs.
  - destruct (Hnone (protocolsFor (NS v) (p :: ps))) as [code Hcode].
    { apply Forall_forall. intros id Hid. rewrite Export_lookup, decide_False; [by apply Hm|].
      intros Hid'. apply list_elem_of_fmap in Hid as (q & -> & Hq), Hid' as (q' & Heq & Hq').
      rewrite Forall_forall in Hps. apply Hne.
      eapply (Subprotocol_ns_inj _ _ q q'); eauto. }
    assert (isInvalidNS (Some rs) (p :: ps) = true) as Hinv.
    { cbn. apply existsb_exists. exists (Subprotocol ns' [p]). split.
      - by apply list_elem_of_In, Hrs.
      - unfold matches. cbn. rewrite Subprotocol_suffix; [done..|]. by inversion Hps. }
    rewrite Hcode, Hinv. by destruct addrs.
Qed.

(** The protocols known of a peer may be out of date: a capability it has ceased to export
    is then reported as a namespace mismatch, though the namespaces agree. *)
Theorem embargoed_reported_as_mismatch :
  ∃ (v : Vat unit) (c : Capability unit) rs stream,
    let exported := Export (NS v) (Protocols c) tt ∅ in
    let remote := Embargo (NS v) (Protocols c) exported in
    negotiates remote stream ∧ (∀ id, id ∈ rs ↔ is_Some (exported !! id)) ∧
    Vat_Connect v [] c None stream (Some rs) [] 1 = Fail ErrInvalidNS.
Proof.
  exists (mkVat (bs "ns") (Some tt) None false), (mkCapability [bs "/echo"] None),
    [Subprotocol (bs "ns") [bs "/echo"]], (λ _, inl 0).
  cbn zeta. split_and!; [split| |reflexivity].
  - intros q qs. rewrite Embargo_lookup, Export_lookup. cbn [Protocols NS].
    case_decide; intros [? [=]].
  - intros qs _. by exists 0.
  - intros id. rewrite Export_lookup. cbn [Protocols NS]. unfold protocolsFor. cbn [fmap list_fmap].
    case_decide; split; intros Hx; [by eexists|done|done|by destruct Hx].
Qed.

(** ** Concrete vats *)

(** Two streams of one capability: the first is open, the second has just been counted when
    the capability is embargoed. *)
Definition toy_world : option (vworld nat) :=
  let w0 := vat_start (H:=nat) (Some ∅) in
  let w1 := mkVworld (Export (bs "ns") [bs "/echo"] 7%nat (handlers w0)) (counters w0) (streams w0) in
  let id := Subprotocol (bs "ns") [bs "/echo"] in
  let route n (w : vworld nat) := mkVworld (handlers w) (counters w) (<[n := mkStream id 7%nat Routed]> (streams w)) in
  let w2 := route 1%nat (route 0%nat w1) in
  w ← run_stream 0 w2; w ← run_stream 0 w; run_stream 1 w.

Lemma toy_world_reachable w : toy_world = Some w → rtc (vstep (bs "ns")) (vat_start (Some ∅)) w.
Proof.
  unfold toy_world. intros (wa & Ha & (wb & Hb & Hc)%bind_Some)%bind_Some.
  eapply rtc_l; [apply (vs_export _ [bs "/echo"] 7%nat)|].
  eapply rtc_l; [apply (vs_route _ 0%nat (Subprotocol (bs "ns") [bs "/echo"]) 7%nat); reflexivity|].
  eapply rtc_l; [apply (vs_route _ 1%nat (Subprotocol (bs "ns") [bs "/echo"]) 7%nat); reflexivity|].
  eapply rtc_l; [exact (vs_run _ _ _ _ Ha)|].
  eapply rtc_l; [exact (vs_run _ _ _ _ Hb)|].
  exact (rtc_once _ _ (vs_run _ _ _ _ Hc)).
Qed.

Lemma metrics_count_connections_witness :
  ∃ w m, toy_world = Some w ∧ counters w = Some m ∧ value m connected = 1 ∧
    value m (bucket (Subprotocol (bs "ns") [bs "/echo"])) = 2 ∧ conn_streams w = 1.
Proof.
  destruct (toy_world) as [w|] eqn:Hw; [|vm_compute in Hw; done].
  destruct (proj1 (metrics_count_connections (bs "ns") w (toy_world_reachable w Hw))) as (m & Hm & Hc & Hp).
  exists w, m. assert (conn_streams w = 1) as H1.
  { apply (f_equal (λ o, default 0 (conn_streams <$> o))) in Hw. vm_compute in Hw. exact (eq_sym Hw). }
  split; [reflexivity|]. split; [exact Hm|]. rewrite Hc, (Hp _ (Subprotocol_rooted _ _)), H1.
  split; [reflexivity|]. split; [|reflexivity].
  apply (f_equal (λ o, default 0 (proto_streams (Subprotocol (bs "ns") [bs "/echo"]) <$> o))) in Hw.
  vm_compute in Hw. vm_compute. exact (eq_sym Hw).
Defined.

Lemma embargo_keeps_streams_witness :
  ∃ w w' s, toy_world = Some w ∧
    rtc (vstep_without (bs "ns") (protocolsFor (bs "ns") [bs "/echo"]))
      (mkVworld (Embargo (bs "ns") [bs "/echo"] (handlers w)) (counters w) (streams w)) w' ∧
    s_phase s = Finished ∧ continues s w 0.
Proof.
  destruct toy_world as [w|] eqn:Hw; [|vm_compute in Hw; done].
  set (w0 := mkVworld (Embargo (bs "ns") [bs "/echo"] (handlers w)) (counters w) (streams w)).
  destruct (run_stream 0 w0) as [w'|] eqn:Hr; [|vm_compute in Hw; injection Hw as <-; vm_compute in Hr; done].
  set (s := mkStream (Subprotocol (bs "ns") [bs "/echo"]) 7%nat Finished).
  exists w, w', s.
  assert (handlers w' = handlers w0 ∧ streams w' !! 0%nat = Some s) as [Hh Hs].
  { vm_compute in Hw. injection Hw as <-. vm_compute in Hr. injection Hr as <-. split; reflexivity. }
  assert (rtc (vstep_without (bs "ns") (protocolsFor (bs "ns") [bs "/echo"])) w0 w') as Hst.
  { apply rtc_once. split; [exact (vs_run _ _ _ _ Hr)|]. intros id _ Hid. rewrite Hh. exact Hid. }
  split; [reflexivity|]. split; [exact Hst|]. split; [reflexivity|].
  refine (proj1 (embargo_keeps_streams (bs "ns") [bs "/echo"] w w' 0 s Hst Hs _)). by left.
Defined.

(** A writer with blocks of four bytes or more. *)
#[local] Instance toy_lz4 : Lz4 bytes unit := {
  NewWriter := []; NewReader := tt;
  lz4_Write w b := if (length (w ++ b) <? 4)%nat then (w ++ b, []) else ([], [w ++ b]);
  lz4_Read r input len := (r, drop 1 input, take len (default [] (head input))) }.

#[local] Instance toy_lz4_laws : Lz4Laws bytes unit 4.
Proof.
  refine {| buffered := λ w : bytes, w |}; [done|..]; intros w b; cbn [lz4_Write toy_lz4].
  - destruct (length (w ++ b) <? 4)%nat; cbn; by rewrite ?app_nil_r.
  - intros Hb. rewrite (proj2 (Nat.ltb_lt _ _)); [done|]. by rewrite length_app.
Defined.

Lemma lz4_close_drops_buffered_witness :
  let s := Lz4_Close (foldl lz4_do (new_lz4 (W:=bytes) (R:=unit) (bs "/echo/lz4") [])
             [OpWrite [1; 2]; OpRead 5; OpWrite [3]]) in
  l_closed s = true ∧ l_sent s = [] ∧ pending 4 s = [1; 2; 3].
Proof.
  destruct (lz4_close_drops_buffered 4 toy_lz4_laws (bs "/echo/lz4") []
    [OpWrite [1; 2]; OpRead 5; OpWrite [3]]) as (Hc & _ & Hb).
  split; [exact Hc|]. apply Hb. vm_compute. lia.
Defined.

Lemma bs_plain_cap p : bool_decide (Forall plain (Parts p) ∧ Parts p ≠ [] ∧ p = slash :: join (Parts p)) = true → cap_id p.
Proof. intros (H1 & H2 & H3)%bool_decide_eq_true. exists (Parts p). auto. Qed.

(** A remote vat of namespace "b" that exports "/echo". *)
Definition toy_remote : gmap bytes nat := Export (bs "b") [bs "/echo"] 7%nat ∅.
Definition toy_stream (ps : list bytes) : Z + bytes :=
  match list_find (λ p, is_Some (toy_remote !! p)) ps with Some (_, p) => inr p | None => inl 3 end.

Lemma toy_negotiates : negotiates toy_remote toy_stream.
Proof.
  split; unfold toy_stream.
  - intros p ps Hp. cbn. by rewrite decide_True.
  - intros ps Hps. rewrite (proj2 (list_find_None _ _)); [by eexists|].
    eapply Forall_impl; [exact Hps|]. intros p -> [x [=]].
Qed.

Lemma connect_checks_namespace_witness :
  Vat_Connect (mkVat (bs "a") (Some tt) None true) [] (mkCapability (C:=unit) [bs "/echo"] None) None
    toy_stream (Some [Subprotocol (bs "b") [bs "/echo"]]) [] 3 = Fail ErrInvalidNS.
Proof.
  refine (connect_checks_namespace (mkVat (bs "a") (Some tt) None true) (bs "b") 7%nat ∅ (bs "/echo") []
    None [] toy_stream [Subprotocol (bs "b") [bs "/echo"]] [] 3 _ _ _ _ toy_negotiates _).
  - apply (bool_decide_unpack _). vm_compute. exact I.
  - apply (bool_decide_unpack _). vm_compute. exact I.
  - constructor; [|constructor]. apply bs_plain_cap. vm_compute. reflexivity.
  - intros id _. apply lookup_empty.
  - intros id. rewrite Export_lookup. unfold protocolsFor. cbn [fmap list_fmap].
    case_decide; split; intros Hx; [by eexists|done|done|by destruct Hx].
Defined.
