(* ===== verification/Capnp.v ===== *)
(** * Cap'n Proto structs

    The generated bindings read and write structs of the Cap'n Proto library: a struct has
    a data section of bytes, read as little-endian integers at fixed offsets, and a section
    of pointers to texts, data, lists, other structs and capabilities (an index into the
    capability table of the message).  The library's memory is the
    interface [Capnp]; [CapnpLaws] states the documented behaviour through the views
    [byte], [slot] and [size] of an object.  A list of pointers is an object whose slots are
    its elements.  [Toy] is a memory that satisfies the laws.

    A setter returns the new memory; when it fails the message is abandoned by the code that
    called it, so the memory is then not followed. *)

From stdpp Require Import base list gmap strings.
From Stdlib Require Import ZArith Lia.
From S2P Require Import Prelude.

Open Scope Z_scope.

Record ObjectSize := mkSize { DataSize : Z; PointerCount : Z }.

(** What a pointer refers to. *)
Inductive pv (S : Type) := PNull | PText (b : bytes) | PData (b : bytes) | PObj (o : S) | PCap (id : Z).
Arguments PNull {S}.
Arguments PText {S} b.
Arguments PData {S} b.
Arguments PObj {S} o.
Arguments PCap {S} id.

(** How [SetText] stores a text: the empty text as a null pointer. *)
Definition text_pv {S} (v : bytes) : pv S := match v with [] => PNull | _ => PText v end.

(** How [SetData] stores data: a nil slice as a null pointer, which is one of the two ways to
    have no bytes. *)
Definition data_pv {S} (v : bytes) (x : pv S) : Prop := x = PData v ∨ v = [] ∧ x = PNull.

(** The integer of [n] bytes at an offset. *)
Fixpoint le (n : nat) (f : Z → Z) (off : Z) : Z :=
  match n with
  | O => 0
  | S n' => f off + 256 * le n' f (off + 1)
  end.

(** [E]: errors, [M]: memory, [S]: structs and lists, [P]: pointers. *)
Class Capnp (E M S P : Type) := {
  NewStruct : ObjectSize → M → outcome E (S * M);
  NewRootStruct : ObjectSize → M → outcome E (S * M);
  Root : M → outcome E P;
  NewList : Z → M → outcome E (S * M);              (* a list of pointers *)
  Len : M → S → Z;
  Uint : nat → M → S → Z → Z;                       (* of a number of bytes *)
  SetUint : nat → S → Z → Z → M → outcome E M;
  Bit : M → S → Z → bool;
  SetBit : S → Z → bool → M → outcome E M;
  Ptr : M → S → Z → outcome E P;
  HasPtr : M → S → Z → bool;
  SetPtr : S → Z → P → M → outcome E M;
  SetText : S → Z → bytes → M → outcome E M;
  SetData : S → Z → bytes → M → outcome E M;
  Text : M → P → bytes;
  TextBytes : M → P → bytes;
  Data : M → P → bytes;
  Obj : P → S;                                      (* p.Struct(), p.List() *)
  ToPtr : S → P }.

(** What a memory holds. *)
Record Views (E M S P : Type) := mkViews {
  live : M → S → Prop;
  size : M → S → ObjectSize;
  byte : M → S → Z → Z;
  slot : M → S → Z → outcome E (pv S);
  pview : M → P → pv S }.
Arguments mkViews {E M S P} _ _ _ _ _.
Arguments live {E M S P} _ _ _.
Arguments size {E M S P} _ _ _.
Arguments byte {E M S P} _ _ _ _.
Arguments slot {E M S P} _ _ _ _.
Arguments pview {E M S P} _ _ _.

(** The object [s] has the given bytes and slots in [m'], and no other object changed. *)
Record updated {E M S P : Type} `{!Capnp E M S P} (V : Views E M S P)
    (m m' : M) (s : S) (bytes_ : Z → Z) (slots : Z → outcome E (pv S)) : Prop := {
  upd_byte j : byte V m' s j = bytes_ j;
  upd_slot i : slot V m' s i = slots i;
  upd_byte_other s' j : s' ≠ s → byte V m' s' j = byte V m s' j;
  upd_slot_other s' i : s' ≠ s → slot V m' s' i = slot V m s' i;
  upd_live s' : live V m s' → live V m' s';
  upd_size s' : live V m s' → size V m' s' = size V m s';
  upd_len s' : live V m s' → Len m' s' = Len m s' }.

Definition set_bytes (f : Z → Z) (off : Z) (w : nat) (v : Z) (j : Z) : Z :=
  if (off <=? j) && (j <? off + Z.of_nat w) then (v / 256 ^ (j - off)) `mod` 256 else f j.

Definition set_at {A} (f : Z → A) (i : Z) (v : A) (j : Z) : A := if j =? i then v else f j.

Class CapnpLaws (E M S P : Type) `{!Capnp E M S P} (V : Views E M S P) : Prop := {
  (* reading *)
  Uint_le w m s off : Uint w m s off = le w (byte V m s) off;
  Bit_byte m s n : Bit m s n = Z.testbit (byte V m s (n / 8)) (n `mod` 8);
  Ptr_slot m s i : (p <~ Ptr m s i ;; Ret (pview V m p)) = slot V m s i;
  HasPtr_slot m s i v : slot V m s i = Ret v →
    HasPtr m s i = match v with PNull => false | _ => true end;
  Text_det m m' p p' : pview V m p = pview V m' p' →
    Text m p = Text m' p' ∧ TextBytes m p = TextBytes m' p' ∧ Data m p = Data m' p';
  Text_view m p b : pview V m p = PText b → Text m p = b ∧ TextBytes m p = b;
  Data_view m p b : pview V m p = PData b → Data m p = b;
  Null_view m p : pview V m p = PNull →
    Text m p = [] ∧ TextBytes m p = [] ∧ Data m p = [] ∧ Len m (Obj p) = 0;
  Obj_view m p o : pview V m p = PObj o → Obj p = o;
  Obj_null m m' p p' : pview V m p = PNull → pview V m' p' = PNull → Obj p = Obj p';
  (* writing data: within the data section it succeeds *)
  SetUint_ok w s off v m : live V m s → 0 ≤ off → off + Z.of_nat w ≤ DataSize (size V m s) →
    ∃ m', SetUint w s off v m = Ret m';
  SetUint_upd w s off v m m' : SetUint w s off v m = Ret m' →
    updated V m m' s (set_bytes (byte V m s) off w v) (slot V m s);
  SetBit_ok s n v m : live V m s → 0 ≤ n < 8 * DataSize (size V m s) →
    ∃ m', SetBit s n v m = Ret m';
  SetBit_upd s n v m m' : SetBit s n v m = Ret m' →
    updated V m m' s
      (set_at (byte V m s) (n / 8)
         (if v then Z.setbit (byte V m s (n / 8)) (n `mod` 8)
          else Z.clearbit (byte V m s (n / 8)) (n `mod` 8)))
      (slot V m s);
  (* writing pointers *)
  SetText_upd s i v m m' : SetText s i v m = Ret m' →
    updated V m m' s (byte V m s) (set_at (slot V m s) i (Ret (text_pv v)));
  SetData_upd s i v m m' : SetData s i v m = Ret m' →
    ∃ x, data_pv v x ∧ updated V m m' s (byte V m s) (set_at (slot V m s) i (Ret x));
  SetPtr_upd s i o m m' : live V m o → SetPtr s i (ToPtr o) m = Ret m' →
    updated V m m' s (byte V m s) (set_at (slot V m s) i (Ret (PObj o)));
  (* allocation: a new object, empty *)
  NewStruct_upd sz m s m' : NewStruct sz m = Ret (s, m') →
    ¬ live V m s ∧ live V m' s ∧ size V m' s = sz ∧
    updated V m m' s (λ _, 0) (λ _, Ret PNull);
  NewRootStruct_upd sz m s m' : NewRootStruct sz m = Ret (s, m') →
    ¬ live V m s ∧ live V m' s ∧ size V m' s = sz ∧
    updated V m m' s (λ _, 0) (λ _, Ret PNull);
  NewList_upd n m l m' : NewList n m = Ret (l, m') →
    ¬ live V m l ∧ live V m' l ∧ Len m' l = n ∧
    updated V m m' l (λ _, 0) (λ _, Ret PNull) }.

(** ** Integers in the data section *)
Lemma le_ext n f g off :
  (∀ j, off ≤ j < off + Z.of_nat n → f j = g j) → le n f off = le n g off.
Proof.
  revert off. induction n as [|n IH]; intros off Hfg; [done|]. cbn [le].
  rewrite (Hfg off), (IH (off + 1)) by (intros; (lia || apply Hfg; lia)). done.
Qed.

Lemma le_set_same n f off v :
  le n (set_bytes f off n v) off = v `mod` 256 ^ Z.of_nat n.
Proof.
  revert f off v. induction n as [|n IH]; intros f off v; [by rewrite Z.mod_1_r|].
  cbn [le]. unfold set_bytes at 1.
  rewrite (proj2 (Z.leb_le off off)), (proj2 (Z.ltb_lt off _)) by lia. cbn [andb].
  rewrite Z.sub_diag, Z.pow_0_r, Z.div_1_r.
  rewrite (le_ext n _ (set_bytes f (off + 1) n (v / 256))).
  - rewrite IH, pow256_S. pose proof (pow256_pos n).
    rewrite (Z.rem_mul_r v 256 (256 ^ Z.of_nat n)) by lia. done.
  - intros j Hj. unfold set_bytes.
    rewrite !(proj2 (Z.leb_le _ _)), !(proj2 (Z.ltb_lt _ _)) by lia. cbn [andb].
    rewrite Z.div_div by (try apply Z.pow_pos_nonneg; lia).
    do 2 f_equal. rewrite <-Z.pow_succ_r by lia. f_equal. lia.
Qed.

Lemma le_set_other n f off w v off' :
  off' + Z.of_nat n ≤ off ∨ off + Z.of_nat w ≤ off' →
  le n (set_bytes f off w v) off' = le n f off'.
Proof.
  intros Hd. apply le_ext. intros j Hj. unfold set_bytes.
  destruct (Z.leb_spec off j), (Z.ltb_spec j (off + Z.of_nat w)); cbn; (done || lia).
Qed.

Lemma le_set_at n f i v off :
  i < off ∨ off + Z.of_nat n ≤ i → le n (set_at f i v) off = le n f off.
Proof.
  intros Hd. apply le_ext. intros j Hj. unfold set_at. destruct (Z.eqb_spec j i); [lia|done].
Qed.

(** ** What the accessors see after an update *)
Section facts.
Context {E M S P : Type} `{!Capnp E M S P} (V : Views E M S P) `{!CapnpLaws E M S P V}.

Lemma slot_ptr m s i v : slot V m s i = Ret v → ∃ p, Ptr m s i = Ret p ∧ pview V m p = v.
Proof. rewrite <-Ptr_slot. intros (p & Hp & [= <-])%bind_Ret_inv. eauto. Qed.

(** A read depends on the slot only. *)
Lemma slot_det {A} (f : M → P → A) m m' s s' i i' :
  (∀ m m' p p', pview V m p = pview V m' p' → f m p = f m' p') →
  slot V m s i = slot V m' s' i' →
  (p <~ Ptr m s i ;; Ret (f m p)) = (p <~ Ptr m' s' i' ;; Ret (f m' p)).
Proof.
  intros Hf. rewrite <-!Ptr_slot.
  destruct (Ptr m s i) as [p|e|], (Ptr m' s' i') as [p'|e'|]; cbn; intros [=]; subst; try done.
  f_equal. by apply Hf.
Qed.

Lemma text_slot m s i b : slot V m s i = Ret (text_pv b) →
  (p <~ Ptr m s i ;; Ret (Text m p)) = Ret b ∧ (p <~ Ptr m s i ;; Ret (TextBytes m p)) = Ret b.
Proof.
  intros (p & -> & Hp)%slot_ptr. cbn [bind]. destruct b as [|b0 b].
  - by destruct (Null_view _ _ Hp) as (-> & -> & _).
  - by destruct (Text_view _ _ _ Hp) as [-> ->].
Qed.

Lemma data_slot m s i b x : data_pv b x → slot V m s i = Ret x →
  (p <~ Ptr m s i ;; Ret (Data m p)) = Ret b.
Proof.
  intros Hx (p & -> & Hp)%slot_ptr. cbn. destruct Hx as [->|[-> ->]].
  - by rewrite (Data_view _ _ _ Hp).
  - by destruct (Null_view _ _ Hp) as (_ & _ & -> & _).
Qed.

Lemma obj_slot m s i o : slot V m s i = Ret (PObj o) → (p <~ Ptr m s i ;; Ret (Obj p)) = Ret o.
Proof. intros (p & -> & Hp)%slot_ptr. cbn. by rewrite (Obj_view _ _ _ Hp). Qed.

(** The object a slot leads to depends on the slot, unless something else is in its place. *)
Lemma obj_det m m' s i :
  (∀ b, slot V m s i ≠ Ret (PText b)) → (∀ b, slot V m s i ≠ Ret (PData b)) →
  (∀ id, slot V m s i ≠ Ret (PCap id)) → slot V m' s i = slot V m s i →
  (p <~ Ptr m' s i ;; Ret (Obj p)) = (p <~ Ptr m s i ;; Ret (Obj p)).
Proof.
  rewrite <-!Ptr_slot. destruct (Ptr m s i) as [p|e|], (Ptr m' s i) as [p'|e'|]; cbn;
    intros H1 H2 H3 [=]; subst; try done.
  destruct (pview V m p) as [|b|b|o|id] eqn:Hp; try (by naive_solver).
  - f_equal. by eapply Obj_null.
  - by rewrite (Obj_view _ _ _ Hp), (Obj_view m' p' o) by done.
Qed.
End facts.

(** ** A memory of objects *)
Module Toy.
Record obj := mkObj { o_size : ObjectSize; o_len : Z; o_bytes : Z → Z; o_slots : Z → pv nat }.
Record mem := mkMem { m_next : nat; m_root : pv nat; m_objs : nat → obj }.

Definition null_obj : obj := mkObj (mkSize 0 0) 0 (λ _, 0) (λ _, PNull).
Definition empty : mem := mkMem 0 PNull (λ _, null_obj).

(** Object 0 is the null object, which is never written. *)
Definition store (m : mem) (s : nat) (o : obj) : mem :=
  mkMem (m_next m) (m_root m) (λ s', if decide (s' = s) then o else m_objs m s').

Definition alloc (o : obj) (m : mem) : nat * mem :=
  (S (m_next m), mkMem (S (m_next m)) (m_root m)
                   (λ s', if decide (s' = S (m_next m)) then o else m_objs m s')).

Section ops.
Context {E : Type}.

Definition set_data (s : nat) (f : Z → Z) (m : mem) : mem :=
  let o := m_objs m s in store m s (mkObj (o_size o) (o_len o) f (o_slots o)).
Definition set_ptr (s : nat) (i : Z) (v : pv nat) (m : mem) : mem :=
  let o := m_objs m s in
  store m s (mkObj (o_size o) (o_len o) (o_bytes o) (set_at (o_slots o) i v)).

#[local] Instance toy_capnp : Capnp E mem nat (pv nat) := {|
  NewStruct sz m := Ret (alloc (mkObj sz 0 (λ _, 0) (λ _, PNull)) m);
  NewRootStruct sz m :=
    let '(s, m) := alloc (mkObj sz 0 (λ _, 0) (λ _, PNull)) m in
    Ret (s, mkMem (m_next m) (PObj s) (m_objs m));
  Root m := Ret (m_root m);
  NewList n m := Ret (alloc (mkObj (mkSize 0 n) n (λ _, 0) (λ _, PNull)) m);
  Len m s := if decide (s = 0%nat) then 0 else o_len (m_objs m s);
  Uint w m s off := le w (o_bytes (m_objs m s)) off;
  SetUint w s off v m :=
    if (0 <=? off) && (off + Z.of_nat w <=? DataSize (o_size (m_objs m s)))
    then Ret (set_data s (set_bytes (o_bytes (m_objs m s)) off w v) m) else Panic;
  Bit m s n := Z.testbit (o_bytes (m_objs m s) (n / 8)) (n `mod` 8);
  SetBit s n v m :=
    if (0 <=? n) && (n <? 8 * DataSize (o_size (m_objs m s))) then
      let b := o_bytes (m_objs m s) (n / 8) in
      Ret (set_data s (set_at (o_bytes (m_objs m s)) (n / 8)
             (if v then Z.setbit b (n `mod` 8) else Z.clearbit b (n `mod` 8))) m)
    else Panic;
  Ptr m s i := Ret (o_slots (m_objs m s) i);
  HasPtr m s i := match o_slots (m_objs m s) i with PNull => false | _ => true end;
  SetPtr s i p m := Ret (set_ptr s i p m);
  SetText s i v m := Ret (set_ptr s i (text_pv v) m);
  SetData s i v m := Ret (set_ptr s i (PData v) m);
  Text _ p := match p with PText b => b | _ => [] end;
  TextBytes _ p := match p with PText b => b | _ => [] end;
  Data _ p := match p with PData b => b | _ => [] end;
  Obj p := match p with PObj o => o | _ => 0%nat end;
  ToPtr o := PObj o |}.

Definition views : Views E mem nat (pv nat) := mkViews
  (λ m s, (0 < s ≤ m_next m)%nat) (λ m s, o_size (m_objs m s)) (λ m s, o_bytes (m_objs m s))
  (λ m s i, Ret (o_slots (m_objs m s) i)) (λ _ p, p).

Lemma set_data_upd s f m : updated views m (set_data s f m) s f (slot views m s).
Proof.
  unfold set_data, store. split; cbn; intros; try done; repeat case_decide; by subst.
Qed.

Lemma set_ptr_upd s i v m :
  updated views m (set_ptr s i v m) s (byte views m s) (set_at (slot views m s) i (Ret v)).
Proof.
  unfold set_ptr, store. split; cbn; intros; try done; repeat case_decide; subst; try done.
  unfold set_at. cbn. by destruct (_ =? i).
Qed.

Lemma alloc_upd sz n m (r : pv nat) :
  let '(s, m') := alloc (mkObj sz n (λ _, 0) (λ _, PNull)) m in
  updated views m (mkMem (m_next m') r (m_objs m')) s (λ _, 0) (λ _, Ret PNull).
Proof.
  cbn. split; cbn; intros; try lia; repeat case_decide; subst; try done; lia.
Qed.

#[local] Instance toy_laws : CapnpLaws E mem nat (pv nat) views.
Proof.
  split; try done.
  - intros m s i v [= <-]. done.
  - intros m m' p p'. cbn. by intros ->.
  - intros m p b. cbn. by intros ->.
  - intros m p b. cbn. by intros ->.
  - intros m p. cbn. by intros ->.
  - intros m p o. cbn. by intros ->.
  - intros m m' p p'. cbn. by intros -> ->.
  - intros w s off v m _ H1 H2. cbn in *. eexists.
    by rewrite (proj2 (Z.leb_le _ _) H1), (proj2 (Z.leb_le _ _) H2).
  - intros w s off v m m'. cbn. destruct (_ && _); intros [= <-]. apply set_data_upd.
  - intros s n v m _ [H1 H2]. cbn in *. eexists.
    by rewrite (proj2 (Z.leb_le _ _) H1), (proj2 (Z.ltb_lt _ _) H2).
  - intros s n v m m'. cbn. destruct (_ && _); intros [= <-]. apply set_data_upd.
  - intros s i v m m' [= <-]. apply set_ptr_upd.
  - intros s i v m m' [= <-]. exists (PData v). split; [by left|]. apply set_ptr_upd.
  - intros s i o m m' _ [= <-]. apply set_ptr_upd.
  - intros sz m s m' [= <- <-]. split_and!; [cbn; lia|cbn; lia|cbn; by rewrite decide_True|].
    apply (alloc_upd sz 0 m (m_root m)).
  - intros sz m s m' [= <- <-]. split_and!; [cbn; lia|cbn; lia|cbn; by rewrite decide_True|].
    apply (alloc_upd sz 0 m (PObj (S (m_next m)))).
  - intros n m l m' [= <- <-]. split_and!; [cbn; lia|cbn; lia|cbn; by repeat case_decide|].
    apply (alloc_upd (mkSize 0 n) n m (m_root m)).
Qed.
End ops.
End Toy.
