(* ===== verification/Api.v ===== *)
(** * The generated bindings
    ([src/internal/api/boot/boot.capnp.go], [pex/pex.capnp.go], [routing/routing.capnp.go])

    The accessors of the structs that travel between nodes, over the memory interface of
    [Capnp], and the client stubs and method table of the [View] service.  A type such as
    [boot.Packet] is a struct; the groups [Packet_request], [Packet_survey] and
    [Packet_response] are the same struct.  The guarded accessors of a union panic when
    another member is set.

    The properties relate them to what the other files assume: the packets, heartbeats,
    indexes and records that are written are those that are read ([BootSocket.Packet],
    [Pulse.api_Heartbeat], [ClusterView.View_Index], [ClusterView.View_Record]), no field
    overlaps another, every field lies within the size its struct is allocated with, and a
    client stub reaches the method of its name. *)

From stdpp Require Import base list gmap strings.
From Stdlib Require Import ZArith Lia.
From S2P Require Import Prelude Routing BootSocket Pulse ClusterView Capnp.

Open Scope Z_scope.

(** ** Discriminants and their names *)

(** [s[a:b]] of a constant, for bounds within it. *)
Definition slice (s : bytes) (a b : nat) : bytes := take (b - a) (drop a s).

(** [strconv.FormatUint(w, 10)]: a [uint64] has at most twenty digits. *)
Fixpoint format_digits (fuel : nat) (w : Z) (acc : bytes) : bytes :=
  match fuel with
  | O => acc
  | S fuel' =>
      let acc := 48 + w `mod` 10 :: acc in
      if w <? 10 then acc else format_digits fuel' (w / 10) acc
  end.

Definition FormatUint (w : Z) : bytes := format_digits 20 w [].

Definition unknown (type_ : bytes) (w : Z) : bytes := type_ ++ bs "(" ++ FormatUint w ++ bs ")".

Definition Packet_Which_request : Z := 0.
Definition Packet_Which_survey : Z := 1.
Definition Packet_Which_response : Z := 2.

Definition Packet_Which_String (w : Z) : bytes :=
  let s := bs "requestsurveyresponse" in
  if w =? Packet_Which_request then slice s 0 7
  else if w =? Packet_Which_survey then slice s 7 13
  else if w =? Packet_Which_response then slice s 13 21
  else unknown (bs "Packet_Which") w.

Definition View_Selector_Which_String (w : Z) : bytes :=
  let s := bs "allmatchfrom" in
  if w =? 0 then slice s 0 3 else if w =? 1 then slice s 3 8 else if w =? 2 then slice s 8 12
  else unknown (bs "View_Selector_Which") w.

Definition View_Constraint_Which_String (w : Z) : bytes :=
  let s := bs "limitto" in
  if w =? 0 then slice s 0 5 else if w =? 1 then slice s 5 7
  else unknown (bs "View_Constraint_Which") w.

Definition View_Index_Which_String (w : Z) : bytes :=
  let s := bs "peerserverhostmeta" in
  if w =? 0 then slice s 0 4 else if w =? 1 then slice s 4 10 else if w =? 2 then slice s 10 14
  else if w =? 3 then slice s 14 18
  else unknown (bs "View_Index_Which") w.

Definition View_MaybeRecord_Which_String (w : Z) : bytes :=
  let s := bs "nothingjust" in
  if w =? 0 then slice s 0 7 else if w =? 1 then slice s 7 11
  else unknown (bs "View_MaybeRecord_Which") w.

(** ** Sizes *)
Definition Packet_size : ObjectSize := mkSize 8 3.
Definition Gossip_size : ObjectSize := mkSize 8 1.
Definition Heartbeat_size : ObjectSize := mkSize 16 2.
Definition View_Selector_size : ObjectSize := mkSize 8 1.
Definition View_Constraint_size : ObjectSize := mkSize 16 1.
Definition View_Index_size : ObjectSize := mkSize 8 1.
Definition View_Record_size : ObjectSize := mkSize 16 2.
Definition View_MaybeRecord_size : ObjectSize := mkSize 8 1.

Section accessors.
Context {E M S P : Type} `{!Capnp E M S P}.
Implicit Types (s v : S) (m : M).

(** Reading a pointer field. *)
Definition get_text m s (i : Z) : outcome E bytes := p <~ Ptr m s i ;; Ret (Text m p).
Definition get_text_bytes m s (i : Z) : outcome E bytes := p <~ Ptr m s i ;; Ret (TextBytes m p).
Definition get_data m s (i : Z) : outcome E bytes := p <~ Ptr m s i ;; Ret (Data m p).
Definition get_obj m s (i : Z) : outcome E S := p <~ Ptr m s i ;; Ret (Obj p).

(** A guarded accessor: [Which() != member] panics. *)
Definition guarded {A} (w member : Z) (c : outcome E A) : outcome E A :=
  if w =? member then c else Panic.

(** Allocating a struct for a pointer field. *)
Definition new_field (sz : ObjectSize) s (i : Z) m : outcome E (S * M) :=
  p <~ NewStruct sz m ;; m' <~ SetPtr s i (ToPtr (fst p)) (snd p) ;; Ret (fst p, m').

(** *** boot.Packet *)
Definition NewPacket m := NewStruct Packet_size m.
Definition NewRootPacket m := NewRootStruct Packet_size m.
Definition ReadRootPacket m : outcome E S := p <~ Root m ;; Ret (Obj p).
Definition Packet_Which m s : Z := Uint 2 m s 0.
Definition Packet_Namespace m s : outcome E bytes := get_text m s 0.
Definition Packet_HasNamespace m s : bool := HasPtr m s 0.
Definition Packet_NamespaceBytes m s : outcome E bytes := get_text_bytes m s 0.
Definition Packet_SetNamespace s (x : bytes) m : outcome E M := SetText s 0 x m.
Definition Packet_SetRequest s m : outcome E M := SetUint 2 s 0 0 m.
Definition Packet_request_From m s : outcome E bytes := get_text m s 1.
Definition Packet_request_FromBytes m s : outcome E bytes := get_text_bytes m s 1.
Definition Packet_request_SetFrom s (x : bytes) m : outcome E M := SetText s 1 x m.
Definition Packet_SetSurvey s m : outcome E M := SetUint 2 s 0 1 m.
Definition Packet_survey_From m s : outcome E bytes := get_text m s 1.
Definition Packet_survey_FromBytes m s : outcome E bytes := get_text_bytes m s 1.
Definition Packet_survey_SetFrom s (x : bytes) m : outcome E M := SetText s 1 x m.
Definition Packet_survey_Distance m s : Z := Uint 1 m s 2.
Definition Packet_survey_SetDistance s (d : Z) m : outcome E M := SetUint 1 s 2 d m.
Definition Packet_SetResponse s m : outcome E M := SetUint 2 s 0 2 m.
Definition Packet_response_Peer m s : outcome E bytes := get_text m s 1.
Definition Packet_response_PeerBytes m s : outcome E bytes := get_text_bytes m s 1.
Definition Packet_response_SetPeer s (x : bytes) m : outcome E M := SetText s 1 x m.
Definition Packet_response_Addrs m s : outcome E S := get_obj m s 2.
Definition Packet_response_HasAddrs m s : bool := HasPtr m s 2.
Definition Packet_response_SetAddrs s (l : S) m : outcome E M := SetPtr s 2 (ToPtr l) m.
Definition Packet_response_NewAddrs s (n : Z) m : outcome E (S * M) :=
  p <~ NewList n m ;; m' <~ SetPtr s 2 (ToPtr (fst p)) (snd p) ;; Ret (fst p, m').

(** *** pex.Gossip *)
Definition NewGossip m := NewStruct Gossip_size m.
Definition NewRootGossip m := NewRootStruct Gossip_size m.
Definition ReadRootGossip m : outcome E S := p <~ Root m ;; Ret (Obj p).
Definition Gossip_Hop m s : Z := Uint 8 m s 0.
Definition Gossip_SetHop s (x : Z) m : outcome E M := SetUint 8 s 0 x m.
Definition Gossip_Envelope m s : outcome E bytes := get_data m s 0.
Definition Gossip_HasEnvelope m s : bool := HasPtr m s 0.
Definition Gossip_SetEnvelope s (x : bytes) m : outcome E M := SetData s 0 x m.

(** *** routing.Heartbeat *)
Definition NewHeartbeat m := NewStruct Heartbeat_size m.
Definition NewRootHeartbeat m := NewRootStruct Heartbeat_size m.
Definition ReadRootHeartbeat m : outcome E S := p <~ Root m ;; Ret (Obj p).
Definition Heartbeat_Ttl m s : Z := Uint 4 m s 0.
Definition Heartbeat_SetTtl s (x : Z) m : outcome E M := SetUint 4 s 0 x m.
Definition Heartbeat_Server m s : Z := Uint 8 m s 8.
Definition Heartbeat_SetServer s (x : Z) m : outcome E M := SetUint 8 s 8 x m.
Definition Heartbeat_Host m s : outcome E bytes := get_text m s 0.
Definition Heartbeat_HasHost m s : bool := HasPtr m s 0.
Definition Heartbeat_HostBytes m s : outcome E bytes := get_text_bytes m s 0.
Definition Heartbeat_SetHost s (x : bytes) m : outcome E M := SetText s 0 x m.
Definition Heartbeat_Meta m s : outcome E S := get_obj m s 1.
Definition Heartbeat_HasMeta m s : bool := HasPtr m s 1.
Definition Heartbeat_SetMeta s (l : S) m : outcome E M := SetPtr s 1 (ToPtr l) m.
Definition Heartbeat_NewMeta s (n : Z) m : outcome E (S * M) :=
  p <~ NewList n m ;; m' <~ SetPtr s 1 (ToPtr (fst p)) (snd p) ;; Ret (fst p, m').

(** *** routing.View_Selector *)
Definition NewView_Selector m := NewStruct View_Selector_size m.
Definition View_Selector_Which m s : Z := Uint 2 m s 0.
Definition View_Selector_SetAll s m : outcome E M := SetUint 2 s 0 0 m.
Definition View_Selector_Match m s : outcome E S := guarded (Uint 2 m s 0) 1 (get_obj m s 0).
Definition View_Selector_HasMatch m s : bool := (Uint 2 m s 0 =? 1) && HasPtr m s 0.
Definition View_Selector_SetMatch s v m : outcome E M :=
  m <~ SetUint 2 s 0 1 m ;; SetPtr s 0 (ToPtr v) m.
Definition View_Selector_NewMatch s m : outcome E (S * M) :=
  m <~ SetUint 2 s 0 1 m ;; new_field View_Index_size s 0 m.
Definition View_Selector_From m s : outcome E S := guarded (Uint 2 m s 0) 2 (get_obj m s 0).
Definition View_Selector_HasFrom m s : bool := (Uint 2 m s 0 =? 2) && HasPtr m s 0.
Definition View_Selector_SetFrom s v m : outcome E M :=
  m <~ SetUint 2 s 0 2 m ;; SetPtr s 0 (ToPtr v) m.
Definition View_Selector_NewFrom s m : outcome E (S * M) :=
  m <~ SetUint 2 s 0 2 m ;; new_field View_Index_size s 0 m.

(** *** routing.View_Constraint *)
Definition NewView_Constraint m := NewStruct View_Constraint_size m.
Definition View_Constraint_Which m s : Z := Uint 2 m s 8.
Definition View_Constraint_Limit m s : outcome E Z := guarded (Uint 2 m s 8) 0 (Ret (Uint 8 m s 0)).
Definition View_Constraint_SetLimit s (x : Z) m : outcome E M :=
  m <~ SetUint 2 s 8 0 m ;; SetUint 8 s 0 x m.
Definition View_Constraint_To m s : outcome E S := guarded (Uint 2 m s 8) 1 (get_obj m s 0).
Definition View_Constraint_HasTo m s : bool := (Uint 2 m s 8 =? 1) && HasPtr m s 0.
Definition View_Constraint_SetTo s v m : outcome E M :=
  m <~ SetUint 2 s 8 1 m ;; SetPtr s 0 (ToPtr v) m.
Definition View_Constraint_NewTo s m : outcome E (S * M) :=
  m <~ SetUint 2 s 8 1 m ;; new_field View_Index_size s 0 m.

(** *** routing.View_Index: the [Bytes] accessors are not guarded *)
Definition NewView_Index m := NewStruct View_Index_size m.
Definition View_Index_Which m s : Z := Uint 2 m s 2.
Definition View_Index_Prefix m s : bool := Bit m s 0.
Definition View_Index_SetPrefix s (x : bool) m : outcome E M := SetBit s 0 x m.
Definition View_Index_Peer m s : outcome E bytes := guarded (Uint 2 m s 2) 0 (get_text m s 0).
Definition View_Index_HasPeer m s : bool := (Uint 2 m s 2 =? 0) && HasPtr m s 0.
Definition View_Index_PeerBytes m s : outcome E bytes := get_text_bytes m s 0.
Definition View_Index_SetPeer s (x : bytes) m : outcome E M :=
  m <~ SetUint 2 s 2 0 m ;; SetText s 0 x m.
Definition View_Index_Server m s : outcome E bytes := guarded (Uint 2 m s 2) 1 (get_data m s 0).
Definition View_Index_HasServer m s : bool := (Uint 2 m s 2 =? 1) && HasPtr m s 0.
Definition View_Index_SetServer s (x : bytes) m : outcome E M :=
  m <~ SetUint 2 s 2 1 m ;; SetData s 0 x m.
Definition View_Index_Host m s : outcome E bytes := guarded (Uint 2 m s 2) 2 (get_text m s 0).
Definition View_Index_HasHost m s : bool := (Uint 2 m s 2 =? 2) && HasPtr m s 0.
Definition View_Index_HostBytes m s : outcome E bytes := get_text_bytes m s 0.
Definition View_Index_SetHost s (x : bytes) m : outcome E M :=
  m <~ SetUint 2 s 2 2 m ;; SetText s 0 x m.
Definition View_Index_Meta m s : outcome E bytes := guarded (Uint 2 m s 2) 3 (get_text m s 0).
Definition View_Index_HasMeta m s : bool := (Uint 2 m s 2 =? 3) && HasPtr m s 0.
Definition View_Index_MetaBytes m s : outcome E bytes := get_text_bytes m s 0.
Definition View_Index_SetMeta s (x : bytes) m : outcome E M :=
  m <~ SetUint 2 s 2 3 m ;; SetText s 0 x m.

(** *** routing.View_Record *)
Definition NewView_Record m := NewStruct View_Record_size m.
Definition View_Record_Peer m s : outcome E bytes := get_text m s 0.
Definition View_Record_HasPeer m s : bool := HasPtr m s 0.
Definition View_Record_PeerBytes m s : outcome E bytes := get_text_bytes m s 0.
Definition View_Record_SetPeer s (x : bytes) m : outcome E M := SetText s 0 x m.
Definition View_Record_Server m s : Z := Uint 8 m s 0.
Definition View_Record_SetServer s (x : Z) m : outcome E M := SetUint 8 s 0 x m.
Definition View_Record_Seq m s : Z := Uint 8 m s 8.
Definition View_Record_SetSeq s (x : Z) m : outcome E M := SetUint 8 s 8 x m.
Definition View_Record_Heartbeat m s : outcome E S := get_obj m s 1.
Definition View_Record_HasHeartbeat m s : bool := HasPtr m s 1.
Definition View_Record_SetHeartbeat s v m : outcome E M := SetPtr s 1 (ToPtr v) m.
Definition View_Record_NewHeartbeat s m : outcome E (S * M) := new_field Heartbeat_size s 1 m.

(** *** routing.View_MaybeRecord *)
Definition NewView_MaybeRecord m := NewStruct View_MaybeRecord_size m.
Definition View_MaybeRecord_Which m s : Z := Uint 2 m s 0.
Definition View_MaybeRecord_SetNothing s m : outcome E M := SetUint 2 s 0 0 m.
Definition View_MaybeRecord_Just m s : outcome E S := guarded (Uint 2 m s 0) 1 (get_obj m s 0).
Definition View_MaybeRecord_HasJust m s : bool := (Uint 2 m s 0 =? 1) && HasPtr m s 0.
Definition View_MaybeRecord_SetJust s v m : outcome E M :=
  m <~ SetUint 2 s 0 1 m ;; SetPtr s 0 (ToPtr v) m.
Definition View_MaybeRecord_NewJust s m : outcome E (S * M) :=
  m <~ SetUint 2 s 0 1 m ;; new_field View_Record_size s 0 m.

(** *** Parameters and results of the calls *)
Definition View_Handler_recv_Params_Record m s : outcome E S := get_obj m s 0.
Definition View_Handler_recv_Params_SetRecord s v m : outcome E M := SetPtr s 0 (ToPtr v) m.
Definition View_Handler_recv_Params_NewRecord s m : outcome E (S * M) := new_field View_Record_size s 0 m.
Definition View_lookup_Params_Selector m s : outcome E S := get_obj m s 0.
Definition View_lookup_Params_SetSelector s v m : outcome E M := SetPtr s 0 (ToPtr v) m.
Definition View_lookup_Params_NewSelector s m : outcome E (S * M) := new_field View_Selector_size s 0 m.
Definition View_lookup_Params_Constraints m s : outcome E S := get_obj m s 1.
Definition View_lookup_Results_Result m s : outcome E S := get_obj m s 0.
Definition View_lookup_Results_SetResult s v m : outcome E M := SetPtr s 0 (ToPtr v) m.
Definition View_lookup_Results_NewResult s m : outcome E (S * M) := new_field View_MaybeRecord_size s 0 m.
Definition View_iter_Params_Selector m s : outcome E S := get_obj m s 1.
Definition View_iter_Params_SetSelector s v m : outcome E M := SetPtr s 1 (ToPtr v) m.
Definition View_iter_Params_NewSelector s m : outcome E (S * M) := new_field View_Selector_size s 1 m.
Definition View_iter_Params_Constraints m s : outcome E S := get_obj m s 2.
End accessors.

(** ** The client stubs and the method tables *)
Record Method := mkMethod {
  InterfaceID : Z; MethodID : Z; InterfaceName : bytes; MethodName : bytes }.

(** [capnp.Send]: the method and the size of the arguments, when there are parameters. *)
Record Send := mkSend { Send_Method : Method; ArgsSize : option ObjectSize }.

Definition View_TypeID : Z := 0xb8cc1b0ba89ddfd2.
Definition View_Handler_TypeID : Z := 0x9321a2d72dff5f08.

Definition View_method (id : Z) (name : bytes) : Method :=
  mkMethod View_TypeID id (bs "routing.capnp:View") name.

Definition View_Lookup (params : bool) : Send :=
  mkSend (View_method 0 (bs "lookup")) (if params then Some (mkSize 0 2) else None).
Definition View_Iter (params : bool) : Send :=
  mkSend (View_method 1 (bs "iter")) (if params then Some (mkSize 0 3) else None).
Definition View_Reverse (params : bool) : Send :=
  mkSend (View_method 2 (bs "reverse")) (if params then Some (mkSize 0 0) else None).
Definition View_Handler_Recv (params : bool) : Send :=
  mkSend (mkMethod View_Handler_TypeID 0 (bs "routing.capnp:View.Handler") (bs "recv"))
    (if params then Some (mkSize 0 1) else None).

(** A server implementation and its table: [append] to the given methods. *)
Record View_Server (call err : Type) := mkViewServer {
  srv_Lookup : call → err; srv_Iter : call → err; srv_Reverse : call → err }.
Arguments mkViewServer {call err} _ _ _.
Arguments srv_Lookup {call err} _ _.
Arguments srv_Iter {call err} _ _.
Arguments srv_Reverse {call err} _ _.

Definition View_Methods {call err} (methods : list (Method * (call → err)))
    (s : View_Server call err) : list (Method * (call → err)) :=
  methods ++ [(View_method 0 (bs "lookup"), srv_Lookup s);
              (View_method 1 (bs "iter"), srv_Iter s);
              (View_method 2 (bs "reverse"), srv_Reverse s)].

Definition View_Handler_Methods {call err} (methods : list (Method * (call → err)))
    (recv : call → err) : list (Method * (call → err)) :=
  methods ++ [(mkMethod View_Handler_TypeID 0 (bs "routing.capnp:View.Handler") (bs "recv"), recv)].

(** ** Facts about updates *)
Section updates.
Context {E M S P : Type} `{!Capnp E M S P} `{!EqDecision S}.
Context (V : Views E M S P) `{!CapnpLaws E M S P V}.

Lemma SetUint_same w s off v m m' :
  SetUint w s off v m = Ret m' → Uint w m' s off = v `mod` 256 ^ Z.of_nat w.
Proof.
  intros Hu%SetUint_upd. rewrite Uint_le.
  rewrite (le_ext w _ (set_bytes (byte V m s) off w v)) by (intros; apply (upd_byte _ _ _ _ _ _ Hu)).
  apply le_set_same.
Qed.

Lemma SetUint_other w s off v m m' w' off' :
  SetUint w s off v m = Ret m' → off' + Z.of_nat w' ≤ off ∨ off + Z.of_nat w ≤ off' →
  Uint w' m' s off' = Uint w' m s off'.
Proof.
  intros Hu%SetUint_upd Hd. rewrite !Uint_le.
  rewrite (le_ext w' _ (set_bytes (byte V m s) off w v)) by (intros; apply (upd_byte _ _ _ _ _ _ Hu)).
  by apply le_set_other.
Qed.

(** Writing data keeps every pointer, writing a pointer keeps all data. *)
Lemma data_upd_slot m m' s f s' i :
  updated V m m' s f (slot V m s) → slot V m' s' i = slot V m s' i.
Proof.
  intros Hu. destruct (decide (s' = s)) as [->|Hne].
  - apply (upd_slot _ _ _ _ _ _ Hu).
  - by apply (upd_slot_other _ _ _ _ _ _ Hu).
Qed.

Lemma ptr_upd_byte m m' s g s' j :
  updated V m m' s (byte V m s) g → byte V m' s' j = byte V m s' j.
Proof.
  intros Hu. destruct (decide (s' = s)) as [->|Hne].
  - apply (upd_byte _ _ _ _ _ _ Hu).
  - by apply (upd_byte_other _ _ _ _ _ _ Hu).
Qed.

Lemma ptr_upd_uint m m' s g w s' off :
  updated V m m' s (byte V m s) g → Uint w m' s' off = Uint w m s' off.
Proof. intros Hu. rewrite !Uint_le. apply le_ext. intros j _. by apply (ptr_upd_byte _ _ _ _ _ _ Hu). Qed.

Lemma other_uint m m' s f g w s' off :
  updated V m m' s f g → s' ≠ s → Uint w m' s' off = Uint w m s' off.
Proof. intros Hu Hne. rewrite !Uint_le. apply le_ext. intros j _. by apply (upd_byte_other _ _ _ _ _ _ Hu). Qed.

Lemma slot_same m m' s f i v :
  updated V m m' s f (set_at (slot V m s) i v) → slot V m' s i = v.
Proof. intros Hu. rewrite (upd_slot _ _ _ _ _ _ Hu). unfold set_at. by rewrite Z.eqb_refl. Qed.

Lemma slot_diff m m' s f i v j :
  updated V m m' s f (set_at (slot V m s) i v) → j ≠ i → slot V m' s j = slot V m s j.
Proof.
  intros Hu Hne. rewrite (upd_slot _ _ _ _ _ _ Hu). unfold set_at. by rewrite (proj2 (Z.eqb_neq j i) Hne).
Qed.
Lemma SetBit_same s n v m m' : SetBit s n v m = Ret m' → 0 ≤ n → Bit m' s n = v.
Proof.
  intros U%SetBit_upd Hn. rewrite Bit_byte, (upd_byte _ _ _ _ _ _ U). unfold set_at. rewrite Z.eqb_refl.
  assert (0 ≤ n `mod` 8) by (apply Z.mod_pos_bound; lia).
  destruct v; [by rewrite Z.setbit_eq|by rewrite Z.clearbit_eq].
Qed.

Lemma SetUint_bit w s off v m m' n :
  SetUint w s off v m = Ret m' → n / 8 < off ∨ off + Z.of_nat w ≤ n / 8 → Bit m' s n = Bit m s n.
Proof.
  intros U%SetUint_upd Hd. rewrite !Bit_byte, (upd_byte _ _ _ _ _ _ U). unfold set_bytes.
  destruct (Z.leb_spec off (n / 8)), (Z.ltb_spec (n / 8) (off + Z.of_nat w)); cbn; (done || lia).
Qed.

Lemma ptr_upd_bit m m' s g s' n :
  updated V m m' s (byte V m s) g → Bit m' s' n = Bit m s' n.
Proof. intros U. by rewrite !Bit_byte, (ptr_upd_byte _ _ _ _ _ _ U). Qed.

End updates.

(** ** Packets *)
Section packets.
Context {M S P : Type} `{!Capnp serror M S P} `{!EqDecision S}.
Implicit Types (s : S) (m : M).

(** The construction of packets in the record cache ([cache.go]). *)
Definition newPacket (ns : bytes) m : sres (S * M) :=
  p <~ NewRootPacket m ;; m' <~ Packet_SetNamespace (fst p) ns (snd p) ;; Ret (fst p, m').

Definition bind_request (from : bytes) s m : sres M :=
  m <~ Packet_SetRequest s m ;; Packet_request_SetFrom s from m.

Definition bind_surveyRequest (from : bytes) (dist : Z) s m : sres M :=
  m <~ Packet_SetSurvey s m ;;
  m <~ Packet_survey_SetDistance s dist m ;;
  Packet_survey_SetFrom s from m.

Fixpoint set_all (l : S) (i : Z) (as_ : list bytes) m : sres M :=
  match as_ with
  | [] => Ret m
  | a :: as_ => m <~ SetData l i a m ;; set_all l (i + 1) as_ m
  end.

Definition bind_response (id : bytes) (as_ : list bytes) s m : sres M :=
  m <~ Packet_SetResponse s m ;;
  m <~ Packet_response_SetPeer s id m ;;
  p <~ Packet_response_NewAddrs s (i32 (Z.of_nat (length as_))) m ;;
  set_all (fst p) 0 as_ (snd p).

(** [DataList.At]. *)
Definition At m (l : S) (i : Z) : sres bytes := get_data m l i.

Definition elems m (l : S) : list (sres bytes) :=
  (λ i, At m l (Z.of_nat i)) <$> seq 0 (Z.to_nat (Len m l)).

(** What [record.go] and [packet.go] see of a packet. *)
Definition packet_of m s : Packet :=
  mkPacket (Packet_Namespace m s)
    (l <~ Packet_response_Addrs m s ;; Ret (elems m l))
    (let w := Packet_Which m s in
     if w =? Packet_Which_request then request (Packet_request_FromBytes m s)
     else if w =? Packet_Which_survey then survey (Packet_survey_FromBytes m s) (Packet_survey_Distance m s)
     else if w =? Packet_Which_response then response (Packet_response_PeerBytes m s)
     else other).

Context (V : Views serror M S P) `{!CapnpLaws serror M S P V}.

Lemma newPacket_view ns m s m' :
  newPacket ns m = Ret (s, m') →
  live V m' s ∧ size V m' s = Packet_size ∧ slot V m' s 0 = Ret (text_pv ns) ∧
  ∀ i, i ≠ 0 → slot V m' s i = Ret PNull.
Proof.
  unfold newPacket. intros ([s0 m0] & H0 & (m1 & H1 & [= -> ->])%bind_Ret_inv)%bind_Ret_inv.
  apply NewRootStruct_upd in H0 as (_ & Hl & Hs & H0). apply SetText_upd in H1. cbn in *.
  split_and!.
  - by apply (upd_live _ _ _ _ _ _ H1).
  - by rewrite (upd_size _ _ _ _ _ _ H1).
  - by apply (slot_same _ _ _ _ _ _ _ H1).
  - intros i Hi. rewrite (slot_diff _ _ _ _ _ _ _ _ H1) by done. apply (upd_slot _ _ _ _ _ _ H0).
Qed.

(** A null list pointer reads as the empty list. *)
Lemma addrs_null m s : slot V m s 2 = Ret PNull →
  (l <~ Packet_response_Addrs m s ;; Ret (elems m l)) = Ret [].
Proof.
  intros (p & Hp & Hv)%(slot_ptr V). unfold Packet_response_Addrs, get_obj. rewrite Hp. cbn.
  unfold elems. by rewrite (proj2 (proj2 (proj2 (Null_view _ _ Hv)))).
Qed.

Lemma packet_of_view m s ns id as_ :
  slot V m s 0 = Ret (text_pv ns) → slot V m s 1 = Ret (text_pv id) →
  (l <~ Packet_response_Addrs m s ;; Ret (elems m l)) = Ret as_ →
  packet_of m s = mkPacket (Ret ns) (Ret as_)
    (if Packet_Which m s =? 0 then request (Ret id)
     else if Packet_Which m s =? 1 then survey (Ret id) (Packet_survey_Distance m s)
     else if Packet_Which m s =? 2 then response (Ret id) else other).
Proof.
  intros H0 H1 Ha. unfold packet_of, Packet_Namespace, Packet_request_FromBytes,
    Packet_survey_FromBytes, Packet_response_PeerBytes, get_text, get_text_bytes.
  rewrite Ha. destruct (text_slot V _ _ _ _ H0) as [-> _]. by destruct (text_slot V _ _ _ _ H1) as [_ ->].
Qed.

Lemma bind_request_view ns m0 s m id m' :
  newPacket ns m0 = Ret (s, m) → bind_request id s m = Ret m' →
  packet_of m' s = mkPacket (Ret ns) (Ret []) (request (Ret id)).
Proof.
  intros (Hl & Hs & Hn & Hz)%newPacket_view (m1 & H1 & H2)%bind_Ret_inv.
  pose proof (SetUint_upd _ _ _ _ _ _ H1) as U1. pose proof (SetText_upd _ _ _ _ _ H2) as U2.
  rewrite (packet_of_view _ _ ns id []).
  - unfold Packet_Which. rewrite (ptr_upd_uint _ _ _ _ _ _ _ _ U2).
    by rewrite (SetUint_same _ _ _ _ _ _ _ H1).
  - by rewrite (slot_diff _ _ _ _ _ _ _ _ U2), (data_upd_slot _ _ _ _ _ _ _ U1).
  - apply (slot_same _ _ _ _ _ _ _ U2).
  - apply addrs_null. rewrite (slot_diff _ _ _ _ _ _ _ _ U2), (data_upd_slot _ _ _ _ _ _ _ U1) by done.
    by apply Hz.
Qed.

Lemma bind_survey_view ns m0 s m id d m' :
  newPacket ns m0 = Ret (s, m) → in_u 8 d → bind_surveyRequest id d s m = Ret m' →
  packet_of m' s = mkPacket (Ret ns) (Ret []) (survey (Ret id) d).
Proof.
  intros (Hl & Hs & Hn & Hz)%newPacket_view Hd (m1 & H1 & (m2 & H2 & H3)%bind_Ret_inv)%bind_Ret_inv.
  pose proof (SetUint_upd _ _ _ _ _ _ H1) as U1. pose proof (SetUint_upd _ _ _ _ _ _ H2) as U2.
  pose proof (SetText_upd _ _ _ _ _ H3) as U3.
  rewrite (packet_of_view _ _ ns id []).
  - unfold Packet_Which, Packet_survey_Distance. rewrite !(ptr_upd_uint _ _ _ _ _ _ _ _ U3).
    rewrite (SetUint_other _ _ _ _ _ _ _ _ _ H2), (SetUint_same _ _ _ _ _ _ _ H1) by lia.
    rewrite (SetUint_same _ _ _ _ _ _ _ H2). change (256 ^ Z.of_nat 1) with 256.
    by rewrite (Z.mod_small d 256).
  - by rewrite (slot_diff _ _ _ _ _ _ _ _ U3), (data_upd_slot _ _ _ _ _ _ _ U2),
      (data_upd_slot _ _ _ _ _ _ _ U1).
  - apply (slot_same _ _ _ _ _ _ _ U3).
  - apply addrs_null. rewrite (slot_diff _ _ _ _ _ _ _ _ U3), (data_upd_slot _ _ _ _ _ _ _ U2),
      (data_upd_slot _ _ _ _ _ _ _ U1) by done. by apply Hz.
Qed.

(** Filling a list writes nothing else. *)
Lemma set_all_view l as_ : ∀ i m m',
  set_all l i as_ m = Ret m' →
  (∀ k a, as_ !! k = Some a → ∃ x, data_pv a x ∧ slot V m' l (i + Z.of_nat k) = Ret x) ∧
  (∀ j, j < i → slot V m' l j = slot V m l j) ∧
  (∀ s j, s ≠ l → slot V m' s j = slot V m s j) ∧
  (∀ w s off, Uint w m' s off = Uint w m s off) ∧
  (live V m l → Len m' l = Len m l).
Proof.
  induction as_ as [|a as_ IH]; intros i m m'; cbn [set_all].
  - intros [= <-]. split_and!; done.
  - intros (m1 & H1 & H2)%bind_Ret_inv. destruct (SetData_upd _ _ _ _ _ H1) as (x1 & Hx1 & U1).
    destruct (IH _ _ _ H2) as (He & Hb & Ho & Hu & Hn). split_and!.
    + intros [|k] x Hx; cbn in Hx.
      * injection Hx as <-. exists x1. split; [done|]. rewrite Z.add_0_r, Hb by lia. apply (slot_same _ _ _ _ _ _ _ U1).
      * rewrite Nat2Z.inj_succ, <-Z.add_1_l, Z.add_assoc. by apply He.
    + intros j Hj. rewrite Hb, (slot_diff _ _ _ _ _ _ _ _ U1) by lia. done.
    + intros s j Hne. rewrite Ho by done. by apply (upd_slot_other _ _ _ _ _ _ U1).
    + intros w s off. rewrite Hu. apply (ptr_upd_uint _ _ _ _ _ _ _ _ U1).
    + intros Hl. rewrite Hn by (by apply (upd_live _ _ _ _ _ _ U1)). by apply (upd_len _ _ _ _ _ _ U1).
Qed.

Lemma elems_view m l as_ :
  Len m l = Z.of_nat (length as_) →
  (∀ k a, as_ !! k = Some a → ∃ x, data_pv a x ∧ slot V m l (Z.of_nat k) = Ret x) →
  elems m l = Ret <$> as_.
Proof.
  intros Hn He. unfold elems. rewrite Hn, Nat2Z.id. apply list_eq. intros k.
  rewrite !list_lookup_fmap. destruct (as_ !! k) as [a|] eqn:Hk; cbn.
  - assert (k < length as_)%nat by (by apply lookup_lt_Some in Hk).
    rewrite lookup_seq_lt by lia. cbn. f_equal. destruct (He _ _ Hk) as (x & Hx & Hs). by apply (data_slot V _ _ _ _ x).
  - apply lookup_ge_None in Hk. by rewrite lookup_seq_ge.
Qed.

Lemma bind_response_view ns m0 s m id as_ m' :
  newPacket ns m0 = Ret (s, m) → Z.of_nat (length as_) < 2 ^ 31 →
  bind_response id as_ s m = Ret m' →
  packet_of m' s = mkPacket (Ret ns) (Ret (Ret <$> as_)) (response (Ret id)).
Proof.
  intros (Hl & Hs & Hn & Hz)%newPacket_view Hlen
    (m1 & H1 & (m2 & H2 & ([l m4] & H3 & H5)%bind_Ret_inv)%bind_Ret_inv)%bind_Ret_inv.
  unfold Packet_response_NewAddrs in H3.
  apply bind_Ret_inv in H3 as ([l' m3] & H3 & (m4' & H4 & [= -> ->])%bind_Ret_inv). cbn [fst snd] in *.
  apply SetUint_upd in H1 as U1. apply SetText_upd in H2 as U2.
  apply NewList_upd in H3 as (Hf & Hl3 & Hn3 & U3). apply SetPtr_upd in H4 as U4; [|done].
  destruct (set_all_view _ _ _ _ _ H5) as (He & _ & Ho & Hu & Hlen5).
  assert (s ≠ l) as Hne.
  { intros <-. apply Hf. apply (upd_live _ _ _ _ _ _ U2), (upd_live _ _ _ _ _ _ U1), Hl. }
  assert (∀ j, j ≠ 1 → j ≠ 2 → slot V m' s j = slot V m s j) as Hkeep.
  { intros j J1 J2. rewrite Ho, (slot_diff _ _ _ _ _ _ _ _ U4), (upd_slot_other _ _ _ _ _ _ U3),
      (slot_diff _ _ _ _ _ _ _ _ U2), (data_upd_slot _ _ _ _ _ _ _ U1) by done. done. }
  rewrite (packet_of_view _ _ ns id (Ret <$> as_)).
  - unfold Packet_Which. rewrite Hu, (ptr_upd_uint _ _ _ _ _ _ _ _ U4), (other_uint _ _ _ _ _ _ _ _ _ U3),
      (ptr_upd_uint _ _ _ _ _ _ _ _ U2), (SetUint_same _ _ _ _ _ _ _ H1) by done. done.
  - by rewrite Hkeep.
  - rewrite Ho, (slot_diff _ _ _ _ _ _ _ _ U4), (upd_slot_other _ _ _ _ _ _ U3) by done.
    apply (slot_same _ _ _ _ _ _ _ U2).
  - unfold Packet_response_Addrs, get_obj. rewrite (obj_slot V m' s 2 l).
    + cbn. f_equal. apply elems_view; [|intros k a Hk; by apply (He k)].
      rewrite Hlen5, (upd_len _ _ _ _ _ _ U4), Hn3 by (done || by apply (upd_live _ _ _ _ _ _ U4)).
      rewrite wrap_i_small; [done|lia|]. unfold in_i. cbn. lia.
    + rewrite Ho by done. apply (slot_same _ _ _ _ _ _ _ U4).
Qed.

(** C17. The packets of the boot socket are what its code builds in and reads from a message:
    a request, survey or response packet built by the record cache, read through the
    generated accessors, is the packet [BootSocket] assumes, with its namespace, peer,
    distance and addresses; no field has overwritten another. *)
Theorem packets_refine (ns id : bytes) (m0 m : M) (s : S) :
  newPacket ns m0 = Ret (s, m) →
  (∀ m', bind_request id s m = Ret m' →
     request_packet (λ _, Ret tt) id ns = Ret (packet_of m' s)) ∧
  (∀ d m', in_u 8 d → bind_surveyRequest id d s m = Ret m' →
     survey_packet (λ _, Ret tt) id ns d = Ret (packet_of m' s)) ∧
  (∀ as_ m', Z.of_nat (length as_) < 2 ^ 31 → bind_response id as_ s m = Ret m' →
     response_packet (λ _, Ret tt) id as_ ns = Ret (packet_of m' s)).
Proof.
  intros Hp. split_and!.
  - intros m' Hb. by rewrite (bind_request_view _ _ _ _ _ _ Hp Hb).
  - intros d m' Hd Hb. by rewrite (bind_survey_view _ _ _ _ _ _ _ Hp Hd Hb).
  - intros as_ m' Hn Hb. rewrite (bind_response_view _ _ _ _ _ _ _ Hp Hn Hb).
    unfold response_packet. cbn.
    assert (omapM (λ _ : bytes, Ret () : sres ()) as_ = Ret (replicate (length as_) tt)) as ->; [|done].
    clear. induction as_ as [|a as_ IH]; [done|]. cbn. by rewrite IH.
Qed.
End packets.

(** ** Heartbeats *)
Section heartbeats.
Context {M S P : Type} `{!Capnp rerror M S P} `{!EqDecision S}.
Context (V : Views rerror M S P) `{!CapnpLaws rerror M S P V}.
Implicit Types (s : S) (m : M).

Definition texts m (l : S) : list (rres bytes) :=
  (λ i, get_text m l (Z.of_nat i)) <$> seq 0 (Z.to_nat (Len m l)).

Definition meta_of m s : rres Meta := l <~ Heartbeat_Meta m s ;; Ret (texts m l).

(** What [heartbeat.go] sees of a heartbeat. *)
Definition hb_of m s : api_Heartbeat :=
  mkHeartbeat (Heartbeat_Ttl m s) (Heartbeat_Server m s) (Heartbeat_HostBytes m s) (meta_of m s).

(** The metadata is absent or a list of its own. *)
Definition meta_ok m s : Prop :=
  slot V m s 1 = Ret PNull ∨ ∃ l, slot V m s 1 = Ret (PObj l) ∧ l ≠ s ∧ live V m l.

Lemma text_bytes_det m m' s i :
  slot V m' s i = slot V m s i → get_text_bytes m' s i = get_text_bytes m s i.
Proof. apply (slot_det V TextBytes). intros. by eapply Text_det. Qed.

Lemma meta_of_keeps m m' s :
  meta_ok m s → slot V m' s 1 = slot V m s 1 →
  (∀ l, l ≠ s → live V m l → Len m' l = Len m l ∧ ∀ i, slot V m' l i = slot V m l i) →
  meta_of m' s = meta_of m s.
Proof.
  unfold meta_of, Heartbeat_Meta, get_obj. intros Hok Hs Hl. destruct Hok as [H1|(l & H1 & Hne & Hlive)].
  - destruct (slot_ptr V _ _ _ _ H1) as (p & Hp & Hv). rewrite H1 in Hs.
    destruct (slot_ptr V _ _ _ _ Hs) as (p' & Hp' & Hv'). rewrite Hp, Hp'. cbn. unfold texts.
    by rewrite (proj2 (proj2 (proj2 (Null_view _ _ Hv)))), (proj2 (proj2 (proj2 (Null_view _ _ Hv')))).
  - rewrite H1 in Hs. rewrite (obj_slot V _ _ _ _ Hs), (obj_slot V _ _ _ _ H1). cbn. f_equal.
    destruct (Hl l Hne Hlive) as [Hn Hi]. unfold texts. rewrite Hn. apply list_fmap_ext.
    intros k i _. apply (slot_det V Text); [intros; by eapply Text_det|apply Hi].
Qed.

(** Writing data keeps the metadata and the host. *)
Lemma data_keeps_ptrs m m' s f :
  meta_ok m s → updated V m m' s f (slot V m s) →
  Heartbeat_HostBytes m' s = Heartbeat_HostBytes m s ∧ meta_of m' s = meta_of m s.
Proof.
  intros Hok Hu. split.
  - apply text_bytes_det, (data_upd_slot _ _ _ _ _ _ _ Hu).
  - apply meta_of_keeps; [done|apply (data_upd_slot _ _ _ _ _ _ _ Hu)|].
    intros l _ Hl. split; [by apply (upd_len _ _ _ _ _ _ Hu)|]. intros. apply (data_upd_slot _ _ _ _ _ _ _ Hu).
Qed.

Lemma new_heartbeat_view m s m' : NewRootHeartbeat m = Ret (s, m') → hb_of m' s = Pulse.NewHeartbeat.
Proof.
  intros (_ & _ & _ & Hu)%NewRootStruct_upd. unfold hb_of, Heartbeat_Ttl, Heartbeat_Server.
  assert (∀ w off, le w (byte V m' s) off = 0) as Hz.
  { intros w. induction w as [|w IH]; intros off; [done|].
    cbn [le]. by rewrite (upd_byte _ _ _ _ _ _ Hu), IH. }
  rewrite !Uint_le, !Hz. unfold Pulse.NewHeartbeat. f_equal.
  - unfold Heartbeat_HostBytes, get_text_bytes.
    destruct (slot_ptr V m' s 0 PNull) as (p & Hp & Hv); [apply (upd_slot _ _ _ _ _ _ Hu)|].
    rewrite Hp. cbn. by rewrite (proj1 (proj2 (Null_view _ _ Hv))).
  - unfold meta_of, Heartbeat_Meta, get_obj.
    destruct (slot_ptr V m' s 1 PNull) as (p & Hp & Hv); [apply (upd_slot _ _ _ _ _ _ Hu)|].
    rewrite Hp. cbn. unfold texts. by rewrite (proj2 (proj2 (proj2 (Null_view _ _ Hv)))).
Qed.

Lemma mod_wrap w n z : 256 ^ Z.of_nat n = 2 ^ w → wrap_u w z `mod` 256 ^ Z.of_nat n = wrap_u w z.
Proof. intros ->. apply Zmod_mod. Qed.

(** The heartbeat of [Pulse] is what the generated accessors read: a new root struct
    is the empty heartbeat, and writing the TTL, the server or the host through the
    generated setters changes exactly that field of it. *)
Theorem heartbeats_refine (s : S) (m m' : M) (d id : Z) (name : bytes) :
  (NewRootHeartbeat m = Ret (s, m') → hb_of m' s = Pulse.NewHeartbeat) ∧
  (meta_ok m s →
     (Heartbeat_SetTtl s (u32 (Z.quot d Millisecond)) m = Ret m' → hb_of m' s = SetTTL (hb_of m s) d) ∧
     (Heartbeat_SetServer s (u64 id) m = Ret m' → hb_of m' s = SetServer (hb_of m s) id) ∧
     (Heartbeat_SetHost s name m = Ret m' → hb_of m' s = SetHost (hb_of m s) name)).
Proof.
  split; [apply new_heartbeat_view|]. intros Hok.
  split_and!; intros H1; unfold hb_of, SetTTL, SetServer, SetHost, Heartbeat_Ttl, Heartbeat_Server in *;
    cbn [hb_ttl hb_server hb_host hb_meta].
  - pose proof (SetUint_upd _ _ _ _ _ _ H1) as U. destruct (data_keeps_ptrs _ _ _ _ Hok U) as [-> ->].
    rewrite (SetUint_same _ _ _ _ _ _ _ H1), (mod_wrap 32 4) by done.
    by rewrite (SetUint_other _ _ _ _ _ _ _ _ _ H1) by lia.
  - pose proof (SetUint_upd _ _ _ _ _ _ H1) as U. destruct (data_keeps_ptrs _ _ _ _ Hok U) as [-> ->].
    rewrite (SetUint_same _ _ _ _ _ _ _ H1), (mod_wrap 64 8) by done.
    by rewrite (SetUint_other _ _ _ _ _ _ _ _ _ H1) by lia.
  - pose proof (SetText_upd _ _ _ _ _ H1) as U. rewrite !(ptr_upd_uint _ _ _ _ _ _ _ _ U). f_equal.
    + apply (text_slot V), (slot_same _ _ _ _ _ _ _ U).
    + apply meta_of_keeps; [done|by apply (slot_diff _ _ _ _ _ _ _ _ U)|].
      intros l Hne Hl. split; [by apply (upd_len _ _ _ _ _ _ U)|].
      intros i. by apply (upd_slot_other _ _ _ _ _ _ U).
Qed.
End heartbeats.

(** ** Indexes *)
Section indexes.
Context {M S P : Type} `{!Capnp rerror M S P} `{!EqDecision S}.
Context (V : Views rerror M S P) `{!CapnpLaws rerror M S P V}.
Implicit Types (s : S) (m : M).

(** What the server sees of an index; an unknown member has no counterpart. *)
Definition index_of m s : option (rres View_Index) :=
  let w := View_Index_Which m s in
  let p := View_Index_Prefix m s in
  if w =? 0 then Some (b <~ View_Index_Peer m s ;; Ret (mkVIndex (Which_peer b) p))
  else if w =? 1 then Some (b <~ View_Index_Server m s ;; Ret (mkVIndex (Which_server b) p))
  else if w =? 2 then Some (b <~ View_Index_Host m s ;; Ret (mkVIndex (Which_host b) p))
  else if w =? 3 then Some (b <~ View_Index_Meta m s ;; Ret (mkVIndex (Which_meta b) p))
  else None.

(** The setter of a member. *)
Definition set_index (w : Index_Which) s m : rres M :=
  match w with
  | Which_peer x => View_Index_SetPeer s x m
  | Which_server x => View_Index_SetServer s x m
  | Which_host x => View_Index_SetHost s x m
  | Which_meta x => View_Index_SetMeta s x m
  end.

Definition member (w : Index_Which) : Z :=
  match w with Which_peer _ => 0 | Which_server _ => 1 | Which_host _ => 2 | Which_meta _ => 3 end.

Lemma set_index_view w s m m' :
  set_index w s m = Ret m' →
  View_Index_Which m' s = member w ∧ View_Index_Prefix m' s = View_Index_Prefix m s ∧
  match w with
  | Which_server x => ∃ v, data_pv x v ∧ slot V m' s 0 = Ret v
  | Which_peer x | Which_host x | Which_meta x => slot V m' s 0 = Ret (text_pv x)
  end.
Proof.
  destruct w; cbn [set_index]; intros (m1 & H1 & H2)%bind_Ret_inv;
    (apply SetText_upd in H2 as U2 || apply SetData_upd in H2 as (v & Hv & U2));
    unfold View_Index_Which, View_Index_Prefix;
    rewrite (ptr_upd_uint _ _ _ _ _ _ _ _ U2), (SetUint_same _ _ _ _ _ _ _ H1),
      (ptr_upd_bit _ _ _ _ _ _ _ U2), (SetUint_bit _ _ _ _ _ _ _ _ H1) by (left; vm_compute; done);
    (split; [done|]); (split; [done|]); try exists v; try (split; [done|]);
    apply (slot_same _ _ _ _ _ _ _ U2).
Qed.

(** C37. An index survives the wire: after the prefix flag and one of the four members have
    been set, the struct reads back as that member with that flag, and each of the other
    three guarded accessors panics. *)
Theorem indexes_roundtrip (w : Index_Which) (prefix : bool) (s : S) (m m1 m2 : M) :
  View_Index_SetPrefix s prefix m = Ret m1 → set_index w s m1 = Ret m2 →
  index_of m2 s = Some (Ret (mkVIndex w prefix)) ∧
  Forall (λ '(k, c), k ≠ member w → c = Panic)
    [(0, View_Index_Peer m2 s); (1, View_Index_Server m2 s);
     (2, View_Index_Host m2 s); (3, View_Index_Meta m2 s)].
Proof.
  intros H1 (Hw & Hp & Hs)%set_index_view.
  assert (View_Index_Prefix m1 s = prefix) as Hpre by (by apply (SetBit_same _ _ _ _ _ _ H1)).
  rewrite Hpre in Hp. unfold View_Index_Which in Hw.
  unfold index_of, View_Index_Peer, View_Index_Server, View_Index_Host, View_Index_Meta, View_Index_Which.
  rewrite Hw, Hp. destruct w; cbn [member Z.eqb guarded] in *.
  all: unfold guarded; cbn [Z.eqb Pos.eqb];
    first [rewrite (proj1 (text_slot V _ _ _ _ Hs)) || (unfold get_text; rewrite (proj1 (text_slot V _ _ _ _ Hs)))
          |unfold get_data; destruct Hs as (v & Hv & Hs); rewrite (data_slot V _ _ _ _ _ Hv Hs)];
    cbn [bind]; (split; [done|]); repeat constructor; intros; done.
Qed.
End indexes.

(** ** Sizes and integer fields *)
Section fields.
Context {E M S P : Type} `{!Capnp E M S P} `{!EqDecision S}.
Context (V : Views E M S P) `{!CapnpLaws E M S P V}.
Implicit Types (s : S) (m : M).

(** The integer fields of gossip records, routing records and constraints hold their
    64 bits and do not overlap: each reads back what was written modulo 2^64 and leaves its
    neighbour, and setting the limit of a constraint makes it the member that is set. *)
Theorem integer_fields (m m' : M) (s : S) (x : Z) :
  (Gossip_SetHop s x m = Ret m' →
     Gossip_Hop m' s = u64 x ∧ Gossip_Envelope m' s = Gossip_Envelope m s) ∧
  (View_Record_SetServer s x m = Ret m' →
     View_Record_Server m' s = u64 x ∧ View_Record_Seq m' s = View_Record_Seq m s) ∧
  (View_Record_SetSeq s x m = Ret m' →
     View_Record_Seq m' s = u64 x ∧ View_Record_Server m' s = View_Record_Server m s) ∧
  (View_Constraint_SetLimit s x m = Ret m' →
     View_Constraint_Limit m' s = Ret (u64 x) ∧ View_Constraint_To m' s = Panic ∧
     View_Constraint_HasTo m' s = false).
Proof.
  assert (∀ z, z `mod` 256 ^ Z.of_nat 8 = u64 z) as H64 by done.
  unfold Gossip_Hop, View_Record_Server, View_Record_Seq. split_and!; intros H1.
  - rewrite (SetUint_same V _ _ _ _ _ _ H1), H64. split; [done|].
    apply (slot_det V Data); [intros; by eapply Text_det|].
    by apply (data_upd_slot V _ _ _ _ _ _ (SetUint_upd _ _ _ _ _ _ H1)).
  - rewrite (SetUint_same V _ _ _ _ _ _ H1), H64. split; [done|].
    apply (SetUint_other V _ _ _ _ _ _ _ _ H1). lia.
  - rewrite (SetUint_same V _ _ _ _ _ _ H1), H64. split; [done|].
    apply (SetUint_other V _ _ _ _ _ _ _ _ H1). lia.
  - apply bind_Ret_inv in H1 as (m1 & H1 & H2).
    unfold View_Constraint_Limit, View_Constraint_To, View_Constraint_HasTo.
    rewrite (SetUint_other V _ _ _ _ _ _ 2 8 H2), (SetUint_same V _ _ _ _ _ _ H1) by lia.
    rewrite (SetUint_same V _ _ _ _ _ _ H2), H64. done.
Qed.
End fields.

(** ** Calls *)
Section calls.
Context {call err : Type}.
Abbreviation impl := (call → err).

Definition ids (ms : list (Method * impl)) : list (Z * Z) :=
  (λ p, (InterfaceID p.1, MethodID p.1)) <$> ms.

(** The library's server selects the method with the call's two identifiers. *)
Context (select : list (Method * impl) → Method → option impl).

(** A client stub reaches the method of its name: on a server whose table is made by
    [View_Methods], beside methods of other interfaces, the calls made by [Lookup], [Iter]
    and [Reverse] run the server's method of that name, whether or not parameters are
    given; likewise [Recv] on a handler. *)
Theorem stubs_reach_methods (methods : list (Method * impl)) (srv : View_Server call err)
    (recv : impl) (params : bool) :
  (∀ ms m m' f, NoDup (ids ms) → (m', f) ∈ ms → InterfaceID m' = InterfaceID m →
     MethodID m' = MethodID m → select ms m = Some f) →
  NoDup (ids methods) →
  Forall (λ i, i.1 ≠ View_TypeID ∧ i.1 ≠ View_Handler_TypeID) (ids methods) →
  select (View_Methods methods srv) (Send_Method (View_Lookup params)) = Some (srv_Lookup srv) ∧
  select (View_Methods methods srv) (Send_Method (View_Iter params)) = Some (srv_Iter srv) ∧
  select (View_Methods methods srv) (Send_Method (View_Reverse params)) = Some (srv_Reverse srv) ∧
  select (View_Handler_Methods methods recv) (Send_Method (View_Handler_Recv params)) = Some recv.
Proof.
  intros Hsel Hnd Hother. rewrite Forall_forall in Hother.
  assert (NoDup (ids (View_Methods methods srv))) as Hnd1.
  { unfold View_Methods, ids. rewrite fmap_app. apply NoDup_app. split_and!; [done| |].
    - intros i Hi Hv. destruct (Hother i Hi) as [Hv' _]. apply Hv'. set_unfold in Hv. naive_solver.
    - apply (bool_decide_unpack _). vm_compute. done. }
  assert (NoDup (ids (View_Handler_Methods methods recv))) as Hnd2.
  { unfold View_Handler_Methods, ids. rewrite fmap_app. apply NoDup_app. split_and!; [done| |].
    - intros i Hi Hv. destruct (Hother i Hi) as [_ Hv']. apply Hv'. set_unfold in Hv. naive_solver.
    - apply (bool_decide_unpack _). vm_compute. done. }
  split_and!; (eapply Hsel; [done| |reflexivity|reflexivity]);
    unfold View_Methods, View_Handler_Methods; apply elem_of_app; right; set_solver.
Qed.
End calls.

(** ** Names *)

(** The name of an index, as the server's [index.String] computes it. *)
Lemma index_names w prefix :
  (if member w =? 0 then bs "id" else View_Index_Which_String (member w)) =
  index_String (mkVIndex w prefix).
Proof. by destruct w. Qed.

Lemma packet_names :
  Packet_Which_String <$> [0; 1; 2; 7; 65535] =
  [bs "request"; bs "survey"; bs "response"; bs "Packet_Which(7)"; bs "Packet_Which(65535)"].
Proof. reflexivity. Qed.

Lemma selector_names :
  View_Selector_Which_String <$> [0; 1; 2; 3] =
  [bs "all"; bs "match"; bs "from"; bs "View_Selector_Which(3)"].
Proof. reflexivity. Qed.

Lemma constraint_names :
  (View_Constraint_Which_String <$> [0; 1]) ++ (View_MaybeRecord_Which_String <$> [0; 1]) =
  [bs "limit"; bs "to"; bs "nothing"; bs "just"].
Proof. reflexivity. Qed.

(** ** Concrete messages *)
#[local] Existing Instances Toy.toy_capnp Toy.toy_laws.

Lemma packets_refine_witness :
  ∃ s m m', newPacket (bs "ns") Toy.empty = Ret (s, m) ∧
    bind_response (bs "p") [bs "a"; bs "b"] s m = Ret m' ∧
    packet_of m' s = mkPacket (Ret (bs "ns")) (Ret [Ret (bs "a"); Ret (bs "b")]) (response (Ret (bs "p"))).
Proof.
  eexists _, _, _. split; [reflexivity|]. split; [reflexivity|].
  pose proof (proj2 (proj2 (packets_refine Toy.views (bs "ns") (bs "p") Toy.empty _ _ eq_refl))
    [bs "a"; bs "b"] _ ltac:(done) eq_refl) as H.
  exact (eq_sym (f_equal (λ o, match o with Ret p => p | _ => mkPacket Panic Panic other end) H)).
Defined.

Definition mem_of {E} (o : outcome E Toy.mem) : Toy.mem := match o with Ret m => m | _ => Toy.empty end.
Definition new_of {E} (o : outcome E (nat * Toy.mem)) : Toy.mem := mem_of (p <~ o ;; Ret (snd p)).

Definition toy_hb : Toy.mem := new_of (NewRootHeartbeat (E:=rerror) Toy.empty).
Definition toy_ix : Toy.mem := new_of (NewView_Index (E:=rerror) Toy.empty).
Definition toy_ix1 : Toy.mem := mem_of (View_Index_SetPrefix (E:=rerror) 1%nat true toy_ix).
Definition toy_ix2 : Toy.mem := mem_of (set_index (Which_host (bs "h")) 1%nat toy_ix1).
Definition toy_rec : Toy.mem := new_of (NewView_Record (E:=unit) Toy.empty).
Definition toy_gossip : Toy.mem := new_of (NewGossip (E:=unit) Toy.empty).

Lemma heartbeats_refine_witness :
  ∃ s m m', NewRootHeartbeat (E:=rerror) Toy.empty = Ret (s, m) ∧ hb_of m s = Pulse.NewHeartbeat ∧
    Heartbeat_SetServer (E:=rerror) s (u64 7) m = Ret m' ∧ hb_of m' s = SetServer Pulse.NewHeartbeat 7.
Proof.
  eexists _, _, _. split; [reflexivity|].
  pose proof (proj1 (heartbeats_refine Toy.views 1%nat Toy.empty toy_hb 0 0 []) eq_refl) as Hn.
  split; [exact Hn|]. split; [reflexivity|].
  pose proof (proj1 (proj2 (proj2 (heartbeats_refine Toy.views 1%nat toy_hb _ 0 7 [])
    ltac:(left; reflexivity))) eq_refl) as H. etransitivity; [exact H|]. exact (f_equal (λ h, SetServer h 7) Hn).
Defined.

Lemma indexes_roundtrip_witness :
  View_Index_SetPrefix (E:=rerror) 1%nat true toy_ix = Ret toy_ix1 ∧
  set_index (Which_host (bs "h")) 1%nat toy_ix1 = Ret toy_ix2 ∧
  index_of toy_ix2 1%nat = Some (Ret (mkVIndex (Which_host (bs "h")) true)).
Proof.
  split; [reflexivity|]. split; [reflexivity|].
  exact (proj1 (indexes_roundtrip Toy.views (Which_host (bs "h")) true 1%nat toy_ix toy_ix1 toy_ix2
    eq_refl eq_refl)).
Defined.

Lemma integer_fields_witness :
  ∃ m', View_Record_SetSeq (E:=unit) 1%nat (2 ^ 64 - 1) toy_rec = Ret m' ∧
    View_Record_Seq (E:=unit) m' 1%nat = 2 ^ 64 - 1.
Proof.
  eexists. split; [reflexivity|].
  exact (proj1 (proj1 (proj2 (proj2 (integer_fields Toy.views toy_rec _ 1%nat (2 ^ 64 - 1)))) eq_refl)).
Defined.

Definition find_method {A} (ms : list (Method * A)) (m : Method) : option A :=
  snd <$> find (λ p, (InterfaceID p.1 =? InterfaceID m) && (MethodID p.1 =? MethodID m)) ms.

Lemma find_method_law {call err} (ms : list (Method * (call → err))) m m' f :
  NoDup (ids ms) → (m', f) ∈ ms → InterfaceID m' = InterfaceID m → MethodID m' = MethodID m →
  find_method ms m = Some f.
Proof.
  unfold find_method. intros Hnd Hin H1 H2. induction ms as [|[m0 f0] ms IH]; [by apply not_elem_of_nil in Hin|].
  apply NoDup_cons in Hnd as [Hn Hnd]. cbn. apply elem_of_cons in Hin as [[= <- <-]|Hin].
  - by rewrite H1, H2, !Z.eqb_refl.
  - destruct (Z.eqb_spec (InterfaceID m0) (InterfaceID m)), (Z.eqb_spec (MethodID m0) (MethodID m));
      cbn; try by apply IH.
    exfalso. apply Hn. cbn. rewrite e, e0, <-H1, <-H2.
    by apply (list_elem_of_fmap_2 (λ p, (InterfaceID p.1, MethodID p.1)) ms (m', f)).
Qed.

Lemma stubs_reach_methods_witness :
  let srv := mkViewServer (λ n : Z, n + 1) (λ n, n + 2) (λ n, n + 3) in
  find_method (View_Methods [] srv) (Send_Method (View_Iter true)) = Some (srv_Iter srv).
Proof.
  intros srv.
  exact (proj1 (proj2 (stubs_reach_methods find_method [] srv (λ n, n) true find_method_law
    (NoDup_nil_2) (Forall_nil_2 _)))).
Defined.
