(* ===== verification/Bindings.v ===== *)
(** * Bindings of the debug and testing interfaces, and laws of all bindings
    ([src/internal/api/debug/debug.capnp.go], [testing/testing.capnp.go],
    [routing/routing.capnp.go], [boot/boot.capnp.go])

    The accessors of the [Debugger], [Snapshotter], [Sampler], [Echoer] and [Streamer]
    interfaces and of the structs they exchange, with the constructors, promises and
    allocations of the [View] interface that [Api] leaves out.

    The properties hold of the bindings as a whole.  A [field] describes where a value lies
    (bytes or a bit of the data section or a pointer, and the union member it belongs to),
    [structs] lists every pair of accessors with its field (those of capabilities are in
    [Capabilities]), and one theorem shows that each pair is a lens: what is set is read
    back, and nothing else changes but the members of the same union, whose accessors then
    panic, and fields that are the same place.  The layouts are compared by computation. *)

From stdpp Require Import base list gmap strings.
From Stdlib Require Import ZArith Lia.
From S2P Require Import Prelude Capnp Api.

Open Scope Z_scope.

(** ** Profiles *)
Definition Profile_cpu : Z := 0.
Definition Profile_allocs : Z := 1.
Definition Profile_block : Z := 2.
Definition Profile_goroutine : Z := 3.
Definition Profile_heap : Z := 4.
Definition Profile_mutex : Z := 5.
Definition Profile_threadcreate : Z := 6.

Definition Profile_String (c : Z) : bytes :=
  if c =? Profile_cpu then bs "cpu"
  else if c =? Profile_allocs then bs "allocs"
  else if c =? Profile_block then bs "block"
  else if c =? Profile_goroutine then bs "goroutine"
  else if c =? Profile_heap then bs "heap"
  else if c =? Profile_mutex then bs "mutex"
  else if c =? Profile_threadcreate then bs "threadcreate"
  else bs "".

Definition ProfileFromString (c : bytes) : Z :=
  if bytes_eqb c (bs "cpu") then Profile_cpu
  else if bytes_eqb c (bs "allocs") then Profile_allocs
  else if bytes_eqb c (bs "block") then Profile_block
  else if bytes_eqb c (bs "goroutine") then Profile_goroutine
  else if bytes_eqb c (bs "heap") then Profile_heap
  else if bytes_eqb c (bs "mutex") then Profile_mutex
  else if bytes_eqb c (bs "threadcreate") then Profile_threadcreate
  else 0.

Definition OSInfo_user_uid_Which_String (w : Z) : bytes :=
  let s := bs "nonenumerictoken" in
  if w =? 0 then slice s 0 4 else if w =? 1 then slice s 4 11 else if w =? 2 then slice s 11 16
  else unknown (bs "OSInfo_user_uid_Which") w.

Definition OSInfo_user_gid_Which_String (w : Z) : bytes :=
  let s := bs "nonenumerictoken" in
  if w =? 0 then slice s 0 4 else if w =? 1 then slice s 4 11 else if w =? 2 then slice s 11 16
  else unknown (bs "OSInfo_user_gid_Which") w.

(** ** Sizes *)
Definition Debugger_sysInfo_Params_size : ObjectSize := mkSize 0 0.
Definition Debugger_sysInfo_Results_size : ObjectSize := mkSize 0 1.
Definition Debugger_envVars_Params_size : ObjectSize := mkSize 0 0.
Definition Debugger_envVars_Results_size : ObjectSize := mkSize 0 1.
Definition Debugger_profiler_Params_size : ObjectSize := mkSize 8 0.
Definition Debugger_profiler_Results_size : ObjectSize := mkSize 0 1.
Definition Debugger_tracer_Params_size : ObjectSize := mkSize 0 0.
Definition Debugger_tracer_Results_size : ObjectSize := mkSize 0 1.
Definition SysInfo_size : ObjectSize := mkSize 0 4.
Definition RuntimeInfo_size : ObjectSize := mkSize 8 3.
Definition OSInfo_size : ObjectSize := mkSize 32 7.
Definition Snapshotter_snapshot_Params_size : ObjectSize := mkSize 8 0.
Definition Snapshotter_snapshot_Results_size : ObjectSize := mkSize 0 1.
Definition Sampler_Writer_write_Params_size : ObjectSize := mkSize 0 1.
Definition Sampler_sample_Params_size : ObjectSize := mkSize 8 1.
Definition Sampler_sample_Results_size : ObjectSize := mkSize 0 0.
Definition Echoer_echo_Params_size : ObjectSize := mkSize 0 1.
Definition Echoer_echo_Results_size : ObjectSize := mkSize 0 1.
Definition Streamer_recv_Params_size : ObjectSize := mkSize 0 0.
Definition View_Handler_recv_Params_size : ObjectSize := mkSize 0 1.
Definition View_lookup_Params_size : ObjectSize := mkSize 0 2.
Definition View_lookup_Results_size : ObjectSize := mkSize 0 1.
Definition View_iter_Params_size : ObjectSize := mkSize 0 3.
Definition View_iter_Results_size : ObjectSize := mkSize 0 0.
Definition View_reverse_Params_size : ObjectSize := mkSize 0 0.
Definition View_reverse_Results_size : ObjectSize := mkSize 0 1.

(** What [AllocResults] asks for. *)
Definition Debugger_sysInfo_AllocResults : ObjectSize := mkSize 0 1.
Definition Debugger_envVars_AllocResults : ObjectSize := mkSize 0 1.
Definition Debugger_profiler_AllocResults : ObjectSize := mkSize 0 1.
Definition Debugger_tracer_AllocResults : ObjectSize := mkSize 0 1.
Definition Snapshotter_snapshot_AllocResults : ObjectSize := mkSize 0 1.
Definition Sampler_sample_AllocResults : ObjectSize := mkSize 0 0.
Definition Sampler_Writer_write_AllocResults : ObjectSize := mkSize 0 0.
Definition Echoer_echo_AllocResults : ObjectSize := mkSize 0 1.
Definition Streamer_recv_AllocResults : ObjectSize := mkSize 0 0.
Definition View_lookup_AllocResults : ObjectSize := mkSize 0 1.
Definition View_iter_AllocResults : ObjectSize := mkSize 0 0.
Definition View_reverse_AllocResults : ObjectSize := mkSize 0 1.
Definition View_Handler_recv_AllocResults : ObjectSize := mkSize 0 0.

(** ** Accessors *)
Section accessors.
Context {E M S P : Type} `{!Capnp E M S P}.
Implicit Types (s v : S) (m : M).

(** *** debug *)
Definition NewDebugger_sysInfo_Params m := NewStruct Debugger_sysInfo_Params_size m.
Definition NewRootDebugger_sysInfo_Params m := NewRootStruct Debugger_sysInfo_Params_size m.
Definition ReadRootDebugger_sysInfo_Params m : outcome E S := p <~ Root m ;; Ret (Obj p).
Definition NewDebugger_sysInfo_Results m := NewStruct Debugger_sysInfo_Results_size m.
Definition NewRootDebugger_sysInfo_Results m := NewRootStruct Debugger_sysInfo_Results_size m.
Definition ReadRootDebugger_sysInfo_Results m : outcome E S := p <~ Root m ;; Ret (Obj p).
Definition Debugger_sysInfo_Results_SysInfo m s : outcome E S := get_obj m s 0.
Definition Debugger_sysInfo_Results_HasSysInfo m s : bool := HasPtr m s 0.
Definition Debugger_sysInfo_Results_SetSysInfo s v m : outcome E M := SetPtr s 0 (ToPtr v) m.
Definition Debugger_sysInfo_Results_NewSysInfo s m : outcome E (S * M) :=
  new_field SysInfo_size s 0 m.
Definition NewDebugger_envVars_Params m := NewStruct Debugger_envVars_Params_size m.
Definition NewRootDebugger_envVars_Params m := NewRootStruct Debugger_envVars_Params_size m.
Definition ReadRootDebugger_envVars_Params m : outcome E S := p <~ Root m ;; Ret (Obj p).
Definition NewDebugger_envVars_Results m := NewStruct Debugger_envVars_Results_size m.
Definition NewRootDebugger_envVars_Results m := NewRootStruct Debugger_envVars_Results_size m.
Definition ReadRootDebugger_envVars_Results m : outcome E S := p <~ Root m ;; Ret (Obj p).
Definition Debugger_envVars_Results_EnvVars m s : outcome E S := get_obj m s 0.
Definition Debugger_envVars_Results_HasEnvVars m s : bool := HasPtr m s 0.
Definition Debugger_envVars_Results_SetEnvVars s v m : outcome E M := SetPtr s 0 (ToPtr v) m.
Definition Debugger_envVars_Results_NewEnvVars s (n : Z) m : outcome E (S * M) :=
  p <~ NewList n m ;; m' <~ SetPtr s 0 (ToPtr (fst p)) (snd p) ;; Ret (fst p, m').
Definition NewDebugger_profiler_Params m := NewStruct Debugger_profiler_Params_size m.
Definition NewRootDebugger_profiler_Params m := NewRootStruct Debugger_profiler_Params_size m.
Definition ReadRootDebugger_profiler_Params m : outcome E S := p <~ Root m ;; Ret (Obj p).
Definition Debugger_profiler_Params_Profile m s : Z := Uint 2 m s 0.
Definition Debugger_profiler_Params_SetProfile s (x : Z) m : outcome E M := SetUint 2 s 0 x m.
Definition NewDebugger_profiler_Results m := NewStruct Debugger_profiler_Results_size m.
Definition NewRootDebugger_profiler_Results m := NewRootStruct Debugger_profiler_Results_size m.
Definition ReadRootDebugger_profiler_Results m : outcome E S := p <~ Root m ;; Ret (Obj p).
Definition Debugger_profiler_Results_HasProfiler m s : bool := HasPtr m s 0.
Definition NewDebugger_tracer_Params m := NewStruct Debugger_tracer_Params_size m.
Definition NewRootDebugger_tracer_Params m := NewRootStruct Debugger_tracer_Params_size m.
Definition ReadRootDebugger_tracer_Params m : outcome E S := p <~ Root m ;; Ret (Obj p).
Definition NewDebugger_tracer_Results m := NewStruct Debugger_tracer_Results_size m.
Definition NewRootDebugger_tracer_Results m := NewRootStruct Debugger_tracer_Results_size m.
Definition ReadRootDebugger_tracer_Results m : outcome E S := p <~ Root m ;; Ret (Obj p).
Definition Debugger_tracer_Results_HasTracer m s : bool := HasPtr m s 0.
Definition NewSysInfo m := NewStruct SysInfo_size m.
Definition NewRootSysInfo m := NewRootStruct SysInfo_size m.
Definition ReadRootSysInfo m : outcome E S := p <~ Root m ;; Ret (Obj p).
Definition SysInfo_Version m s : outcome E bytes := get_text m s 0.
Definition SysInfo_HasVersion m s : bool := HasPtr m s 0.
Definition SysInfo_VersionBytes m s : outcome E bytes := get_text_bytes m s 0.
Definition SysInfo_SetVersion s (x : bytes) m : outcome E M := SetText s 0 x m.
Definition SysInfo_AppVersion m s : outcome E bytes := get_text m s 1.
Definition SysInfo_HasAppVersion m s : bool := HasPtr m s 1.
Definition SysInfo_AppVersionBytes m s : outcome E bytes := get_text_bytes m s 1.
Definition SysInfo_SetAppVersion s (x : bytes) m : outcome E M := SetText s 1 x m.
Definition SysInfo_Runtime m s : outcome E S := get_obj m s 2.
Definition SysInfo_HasRuntime m s : bool := HasPtr m s 2.
Definition SysInfo_SetRuntime s v m : outcome E M := SetPtr s 2 (ToPtr v) m.
Definition SysInfo_NewRuntime s m : outcome E (S * M) := new_field RuntimeInfo_size s 2 m.
Definition SysInfo_Os m s : outcome E S := get_obj m s 3.
Definition SysInfo_HasOs m s : bool := HasPtr m s 3.
Definition SysInfo_SetOs s v m : outcome E M := SetPtr s 3 (ToPtr v) m.
Definition SysInfo_NewOs s m : outcome E (S * M) := new_field OSInfo_size s 3 m.
Definition NewRuntimeInfo m := NewStruct RuntimeInfo_size m.
Definition NewRootRuntimeInfo m := NewRootStruct RuntimeInfo_size m.
Definition ReadRootRuntimeInfo m : outcome E S := p <~ Root m ;; Ret (Obj p).
Definition RuntimeInfo_NumCPU m s : Z := Uint 4 m s 0.
Definition RuntimeInfo_SetNumCPU s (x : Z) m : outcome E M := SetUint 4 s 0 x m.
Definition RuntimeInfo_Os m s : outcome E bytes := get_text m s 0.
Definition RuntimeInfo_HasOs m s : bool := HasPtr m s 0.
Definition RuntimeInfo_OsBytes m s : outcome E bytes := get_text_bytes m s 0.
Definition RuntimeInfo_SetOs s (x : bytes) m : outcome E M := SetText s 0 x m.
Definition RuntimeInfo_Arch m s : outcome E bytes := get_text m s 1.
Definition RuntimeInfo_HasArch m s : bool := HasPtr m s 1.
Definition RuntimeInfo_ArchBytes m s : outcome E bytes := get_text_bytes m s 1.
Definition RuntimeInfo_SetArch s (x : bytes) m : outcome E M := SetText s 1 x m.
Definition RuntimeInfo_Compiler m s : outcome E bytes := get_text m s 2.
Definition RuntimeInfo_HasCompiler m s : bool := HasPtr m s 2.
Definition RuntimeInfo_CompilerBytes m s : outcome E bytes := get_text_bytes m s 2.
Definition RuntimeInfo_SetCompiler s (x : bytes) m : outcome E M := SetText s 2 x m.
Definition NewOSInfo m := NewStruct OSInfo_size m.
Definition NewRootOSInfo m := NewRootStruct OSInfo_size m.
Definition ReadRootOSInfo m : outcome E S := p <~ Root m ;; Ret (Obj p).
Definition OSInfo_Pid m s : Z := wrap_i 64 (Uint 8 m s 0).
Definition OSInfo_SetPid s (x : Z) m : outcome E M := SetUint 8 s 0 x m.
Definition OSInfo_Hostname m s : outcome E bytes := get_text m s 0.
Definition OSInfo_HasHostname m s : bool := HasPtr m s 0.
Definition OSInfo_HostnameBytes m s : outcome E bytes := get_text_bytes m s 0.
Definition OSInfo_SetHostname s (x : bytes) m : outcome E M := SetText s 0 x m.
Definition OSInfo_Args m s : outcome E S := get_obj m s 1.
Definition OSInfo_HasArgs m s : bool := HasPtr m s 1.
Definition OSInfo_SetArgs s v m : outcome E M := SetPtr s 1 (ToPtr v) m.
Definition OSInfo_NewArgs s (n : Z) m : outcome E (S * M) :=
  p <~ NewList n m ;; m' <~ SetPtr s 1 (ToPtr (fst p)) (snd p) ;; Ret (fst p, m').
Definition OSInfo_user_Username m s : outcome E bytes := get_text m s 2.
Definition OSInfo_user_HasUsername m s : bool := HasPtr m s 2.
Definition OSInfo_user_UsernameBytes m s : outcome E bytes := get_text_bytes m s 2.
Definition OSInfo_user_SetUsername s (x : bytes) m : outcome E M := SetText s 2 x m.
Definition OSInfo_user_DisplayName m s : outcome E bytes := get_text m s 3.
Definition OSInfo_user_HasDisplayName m s : bool := HasPtr m s 3.
Definition OSInfo_user_DisplayNameBytes m s : outcome E bytes := get_text_bytes m s 3.
Definition OSInfo_user_SetDisplayName s (x : bytes) m : outcome E M := SetText s 3 x m.
Definition OSInfo_user_HomeDir m s : outcome E bytes := get_text m s 4.
Definition OSInfo_user_HasHomeDir m s : bool := HasPtr m s 4.
Definition OSInfo_user_HomeDirBytes m s : outcome E bytes := get_text_bytes m s 4.
Definition OSInfo_user_SetHomeDir s (x : bytes) m : outcome E M := SetText s 4 x m.
Definition OSInfo_user_uid_Which m s : Z := Uint 2 m s 8.
Definition OSInfo_user_uid_SetNone s m : outcome E M := SetUint 2 s 8 0 m.
Definition OSInfo_user_uid_Numeric m s : outcome E Z :=
  guarded (Uint 2 m s 8) 1 (Ret (Uint 8 m s 16)).
Definition OSInfo_user_uid_SetNumeric s (x : Z) m : outcome E M :=
  m <~ SetUint 2 s 8 1 m ;; SetUint 8 s 16 x m.
Definition OSInfo_user_uid_Token m s : outcome E bytes := guarded (Uint 2 m s 8) 2 (get_text m s 5).
Definition OSInfo_user_uid_HasToken m s : bool := (Uint 2 m s 8 =? 2) && HasPtr m s 5.
Definition OSInfo_user_uid_TokenBytes m s : outcome E bytes := get_text_bytes m s 5.
Definition OSInfo_user_uid_SetToken s (x : bytes) m : outcome E M :=
  m <~ SetUint 2 s 8 2 m ;; SetText s 5 x m.
Definition OSInfo_user_gid_Which m s : Z := Uint 2 m s 10.
Definition OSInfo_user_gid_SetNone s m : outcome E M := SetUint 2 s 10 0 m.
Definition OSInfo_user_gid_Numeric m s : outcome E Z :=
  guarded (Uint 2 m s 10) 1 (Ret (Uint 8 m s 24)).
Definition OSInfo_user_gid_SetNumeric s (x : Z) m : outcome E M :=
  m <~ SetUint 2 s 10 1 m ;; SetUint 8 s 24 x m.
Definition OSInfo_user_gid_Token m s : outcome E bytes :=
  guarded (Uint 2 m s 10) 2 (get_text m s 6).
Definition OSInfo_user_gid_HasToken m s : bool := (Uint 2 m s 10 =? 2) && HasPtr m s 6.
Definition OSInfo_user_gid_TokenBytes m s : outcome E bytes := get_text_bytes m s 6.
Definition OSInfo_user_gid_SetToken s (x : bytes) m : outcome E M :=
  m <~ SetUint 2 s 10 2 m ;; SetText s 6 x m.
Definition NewSnapshotter_snapshot_Params m := NewStruct Snapshotter_snapshot_Params_size m.
Definition NewRootSnapshotter_snapshot_Params m := NewRootStruct Snapshotter_snapshot_Params_size m.
Definition ReadRootSnapshotter_snapshot_Params m : outcome E S := p <~ Root m ;; Ret (Obj p).
Definition Snapshotter_snapshot_Params_Debug m s : Z := Uint 1 m s 0.
Definition Snapshotter_snapshot_Params_SetDebug s (x : Z) m : outcome E M := SetUint 1 s 0 x m.
Definition NewSnapshotter_snapshot_Results m := NewStruct Snapshotter_snapshot_Results_size m.
Definition NewRootSnapshotter_snapshot_Results m :=
  NewRootStruct Snapshotter_snapshot_Results_size m.
Definition ReadRootSnapshotter_snapshot_Results m : outcome E S := p <~ Root m ;; Ret (Obj p).
Definition Snapshotter_snapshot_Results_Snapshot m s : outcome E bytes := get_data m s 0.
Definition Snapshotter_snapshot_Results_HasSnapshot m s : bool := HasPtr m s 0.
Definition Snapshotter_snapshot_Results_SetSnapshot s (x : bytes) m : outcome E M :=
  SetData s 0 x m.
Definition NewSampler_Writer_write_Params m := NewStruct Sampler_Writer_write_Params_size m.
Definition NewRootSampler_Writer_write_Params m := NewRootStruct Sampler_Writer_write_Params_size m.
Definition ReadRootSampler_Writer_write_Params m : outcome E S := p <~ Root m ;; Ret (Obj p).
Definition Sampler_Writer_write_Params_Sample m s : outcome E bytes := get_data m s 0.
Definition Sampler_Writer_write_Params_HasSample m s : bool := HasPtr m s 0.
Definition Sampler_Writer_write_Params_SetSample s (x : bytes) m : outcome E M := SetData s 0 x m.
Definition NewSampler_sample_Params m := NewStruct Sampler_sample_Params_size m.
Definition NewRootSampler_sample_Params m := NewRootStruct Sampler_sample_Params_size m.
Definition ReadRootSampler_sample_Params m : outcome E S := p <~ Root m ;; Ret (Obj p).
Definition Sampler_sample_Params_HasWriter m s : bool := HasPtr m s 0.
Definition Sampler_sample_Params_Duration m s : Z := wrap_i 64 (Uint 8 m s 0).
Definition Sampler_sample_Params_SetDuration s (x : Z) m : outcome E M := SetUint 8 s 0 x m.
Definition NewSampler_sample_Results m := NewStruct Sampler_sample_Results_size m.
Definition NewRootSampler_sample_Results m := NewRootStruct Sampler_sample_Results_size m.
Definition ReadRootSampler_sample_Results m : outcome E S := p <~ Root m ;; Ret (Obj p).

(** *** testing *)
Definition NewEchoer_echo_Params m := NewStruct Echoer_echo_Params_size m.
Definition NewRootEchoer_echo_Params m := NewRootStruct Echoer_echo_Params_size m.
Definition ReadRootEchoer_echo_Params m : outcome E S := p <~ Root m ;; Ret (Obj p).
Definition Echoer_echo_Params_Payload m s : outcome E bytes := get_text m s 0.
Definition Echoer_echo_Params_HasPayload m s : bool := HasPtr m s 0.
Definition Echoer_echo_Params_PayloadBytes m s : outcome E bytes := get_text_bytes m s 0.
Definition Echoer_echo_Params_SetPayload s (x : bytes) m : outcome E M := SetText s 0 x m.
Definition NewEchoer_echo_Results m := NewStruct Echoer_echo_Results_size m.
Definition NewRootEchoer_echo_Results m := NewRootStruct Echoer_echo_Results_size m.
Definition ReadRootEchoer_echo_Results m : outcome E S := p <~ Root m ;; Ret (Obj p).
Definition Echoer_echo_Results_Result m s : outcome E bytes := get_text m s 0.
Definition Echoer_echo_Results_HasResult m s : bool := HasPtr m s 0.
Definition Echoer_echo_Results_ResultBytes m s : outcome E bytes := get_text_bytes m s 0.
Definition Echoer_echo_Results_SetResult s (x : bytes) m : outcome E M := SetText s 0 x m.
Definition NewStreamer_recv_Params m := NewStruct Streamer_recv_Params_size m.
Definition NewRootStreamer_recv_Params m := NewRootStruct Streamer_recv_Params_size m.
Definition ReadRootStreamer_recv_Params m : outcome E S := p <~ Root m ;; Ret (Obj p).

(** *** routing *)
Definition NewView_Handler_recv_Params m := NewStruct View_Handler_recv_Params_size m.
Definition NewRootView_Handler_recv_Params m := NewRootStruct View_Handler_recv_Params_size m.
Definition ReadRootView_Handler_recv_Params m : outcome E S := p <~ Root m ;; Ret (Obj p).
Definition View_Handler_recv_Params_HasRecord m s : bool := HasPtr m s 0.
Definition NewRootView_Selector m := NewRootStruct View_Selector_size m.
Definition ReadRootView_Selector m : outcome E S := p <~ Root m ;; Ret (Obj p).
Definition NewRootView_Constraint m := NewRootStruct View_Constraint_size m.
Definition ReadRootView_Constraint m : outcome E S := p <~ Root m ;; Ret (Obj p).
Definition NewRootView_Index m := NewRootStruct View_Index_size m.
Definition ReadRootView_Index m : outcome E S := p <~ Root m ;; Ret (Obj p).
Definition NewRootView_Record m := NewRootStruct View_Record_size m.
Definition ReadRootView_Record m : outcome E S := p <~ Root m ;; Ret (Obj p).
Definition NewRootView_MaybeRecord m := NewRootStruct View_MaybeRecord_size m.
Definition ReadRootView_MaybeRecord m : outcome E S := p <~ Root m ;; Ret (Obj p).
Definition NewView_lookup_Params m := NewStruct View_lookup_Params_size m.
Definition NewRootView_lookup_Params m := NewRootStruct View_lookup_Params_size m.
Definition ReadRootView_lookup_Params m : outcome E S := p <~ Root m ;; Ret (Obj p).
Definition View_lookup_Params_HasSelector m s : bool := HasPtr m s 0.
Definition View_lookup_Params_HasConstraints m s : bool := HasPtr m s 1.
Definition View_lookup_Params_SetConstraints s v m : outcome E M := SetPtr s 1 (ToPtr v) m.
Definition NewView_lookup_Results m := NewStruct View_lookup_Results_size m.
Definition NewRootView_lookup_Results m := NewRootStruct View_lookup_Results_size m.
Definition ReadRootView_lookup_Results m : outcome E S := p <~ Root m ;; Ret (Obj p).
Definition View_lookup_Results_HasResult m s : bool := HasPtr m s 0.
Definition NewView_iter_Params m := NewStruct View_iter_Params_size m.
Definition NewRootView_iter_Params m := NewRootStruct View_iter_Params_size m.
Definition ReadRootView_iter_Params m : outcome E S := p <~ Root m ;; Ret (Obj p).
Definition View_iter_Params_HasHandler m s : bool := HasPtr m s 0.
Definition View_iter_Params_HasSelector m s : bool := HasPtr m s 1.
Definition View_iter_Params_HasConstraints m s : bool := HasPtr m s 2.
Definition View_iter_Params_SetConstraints s v m : outcome E M := SetPtr s 2 (ToPtr v) m.
Definition NewView_iter_Results m := NewStruct View_iter_Results_size m.
Definition NewRootView_iter_Results m := NewRootStruct View_iter_Results_size m.
Definition ReadRootView_iter_Results m : outcome E S := p <~ Root m ;; Ret (Obj p).
Definition NewView_reverse_Params m := NewStruct View_reverse_Params_size m.
Definition NewRootView_reverse_Params m := NewRootStruct View_reverse_Params_size m.
Definition ReadRootView_reverse_Params m : outcome E S := p <~ Root m ;; Ret (Obj p).
Definition NewView_reverse_Results m := NewStruct View_reverse_Results_size m.
Definition NewRootView_reverse_Results m := NewRootStruct View_reverse_Results_size m.
Definition ReadRootView_reverse_Results m : outcome E S := p <~ Root m ;; Ret (Obj p).
Definition View_reverse_Results_HasView m s : bool := HasPtr m s 0.

(** *** boot *)
Definition Packet_request_HasFrom m s : bool := HasPtr m s 1.
Definition Packet_survey_HasFrom m s : bool := HasPtr m s 1.
Definition Packet_response_HasPeer m s : bool := HasPtr m s 1.
End accessors.

(** ** Promises

    A promise is the path from the struct that is promised to one of its pointers;
    [p.Future.Field(i, nil)] extends it. *)
Definition future := list Z.

Definition Debugger_sysInfo_Results_Future_SysInfo (f : future) : future := f ++ [0].
Definition SysInfo_Future_Runtime (f : future) : future := f ++ [2].
Definition SysInfo_Future_Os (f : future) : future := f ++ [3].
Definition View_Handler_recv_Params_Future_Record (f : future) : future := f ++ [0].
Definition View_Selector_Future_Match (f : future) : future := f ++ [0].
Definition View_Selector_Future_From (f : future) : future := f ++ [0].
Definition View_Constraint_Future_To (f : future) : future := f ++ [0].
Definition View_Record_Future_Heartbeat (f : future) : future := f ++ [1].
Definition View_MaybeRecord_Future_Just (f : future) : future := f ++ [0].
Definition View_lookup_Params_Future_Selector (f : future) : future := f ++ [0].
Definition View_lookup_Results_Future_Result (f : future) : future := f ++ [0].
Definition View_iter_Params_Future_Selector (f : future) : future := f ++ [1].

(** What a promise resolves to once struct [s] is there: each step follows a pointer. *)
Fixpoint resolve {E M S P} `{!Capnp E M S P} (m : M) (s : S) (f : future) : outcome E S :=
  match f with
  | [] => Ret s
  | i :: f' => s' <~ get_obj m s i ;; resolve m s' f'
  end.

(** ** Client stubs and method tables *)
Definition Debugger_TypeID : Z := 0xc24c1801396ca74c.
Definition Snapshotter_TypeID : Z := 0xca6d27d101913471.
Definition Sampler_TypeID : Z := 0xcb9867bf09c9fd97.
Definition Sampler_Writer_TypeID : Z := 0xbad68cb175d6ef9e.
Definition Echoer_TypeID : Z := 0xef96789c0d60cd00.
Definition Streamer_TypeID : Z := 0x87f59ceaa25ddecc.

Definition Debugger_method (id : Z) (name : bytes) : Method :=
  mkMethod Debugger_TypeID id (bs "debug.capnp:Debugger") name.
Definition Snapshotter_method (id : Z) (name : bytes) : Method :=
  mkMethod Snapshotter_TypeID id (bs "debug.capnp:Snapshotter") name.
Definition Sampler_method (id : Z) (name : bytes) : Method :=
  mkMethod Sampler_TypeID id (bs "debug.capnp:Sampler") name.
Definition Sampler_Writer_method (id : Z) (name : bytes) : Method :=
  mkMethod Sampler_Writer_TypeID id (bs "debug.capnp:Sampler.Writer") name.
Definition Echoer_method (id : Z) (name : bytes) : Method :=
  mkMethod Echoer_TypeID id (bs "testing.capnp:Echoer") name.
Definition Streamer_method (id : Z) (name : bytes) : Method :=
  mkMethod Streamer_TypeID id (bs "testing.capnp:Streamer") name.

Definition Debugger_SysInfo (params : bool) : Send :=
  mkSend (Debugger_method 0 (bs "sysInfo")) (if params then Some (mkSize 0 0) else None).
Definition Debugger_EnvVars (params : bool) : Send :=
  mkSend (Debugger_method 1 (bs "envVars")) (if params then Some (mkSize 0 0) else None).
Definition Debugger_Profiler (params : bool) : Send :=
  mkSend (Debugger_method 2 (bs "profiler")) (if params then Some (mkSize 8 0) else None).
Definition Debugger_Tracer (params : bool) : Send :=
  mkSend (Debugger_method 3 (bs "tracer")) (if params then Some (mkSize 0 0) else None).
Definition Snapshotter_Snapshot (params : bool) : Send :=
  mkSend (Snapshotter_method 0 (bs "snapshot")) (if params then Some (mkSize 8 0) else None).
Definition Sampler_Sample (params : bool) : Send :=
  mkSend (Sampler_method 0 (bs "sample")) (if params then Some (mkSize 8 1) else None).
Definition Sampler_Writer_Write (params : bool) : Send :=
  mkSend (Sampler_Writer_method 0 (bs "write")) (if params then Some (mkSize 0 1) else None).
Definition Echoer_Echo (params : bool) : Send :=
  mkSend (Echoer_method 0 (bs "echo")) (if params then Some (mkSize 0 1) else None).
Definition Streamer_Recv (params : bool) : Send :=
  mkSend (Streamer_method 0 (bs "recv")) (if params then Some (mkSize 0 0) else None).

(** A server with several methods is a record of them, one with a single method that method. *)
Record Debugger_Server (call err : Type) := mkDebuggerServer {
  dbg_SysInfo : call → err; dbg_EnvVars : call → err; dbg_Profiler : call → err; dbg_Tracer : call → err }.
Arguments mkDebuggerServer {call err} _ _ _ _.
Arguments dbg_SysInfo {call err} _ _.
Arguments dbg_EnvVars {call err} _ _.
Arguments dbg_Profiler {call err} _ _.
Arguments dbg_Tracer {call err} _ _.

Section tables.
Context {call err : Type}.
Abbreviation table := (list (Method * (call → err))).

Definition Debugger_Methods (methods : table) (s : Debugger_Server call err) : table :=
  methods ++ [(Debugger_method 0 (bs "sysInfo"), dbg_SysInfo s);
              (Debugger_method 1 (bs "envVars"), dbg_EnvVars s);
              (Debugger_method 2 (bs "profiler"), dbg_Profiler s);
              (Debugger_method 3 (bs "tracer"), dbg_Tracer s)].
Definition Snapshotter_Methods (methods : table) (snapshot : call → err) : table :=
  methods ++ [(Snapshotter_method 0 (bs "snapshot"), snapshot)].
Definition Sampler_Methods (methods : table) (sample : call → err) : table :=
  methods ++ [(Sampler_method 0 (bs "sample"), sample)].
Definition Sampler_Writer_Methods (methods : table) (write : call → err) : table :=
  methods ++ [(Sampler_Writer_method 0 (bs "write"), write)].
Definition Echoer_Methods (methods : table) (echo : call → err) : table :=
  methods ++ [(Echoer_method 0 (bs "echo"), echo)].
Definition Streamer_Methods (methods : table) (recv : call → err) : table :=
  methods ++ [(Streamer_method 0 (bs "recv"), recv)].
End tables.

(** ** Fields *)

(** Where the value of a field lies: an integer of some bytes at an offset, signed or not, a
    bit, nothing at all (a member of a union without a value), or the pointer with an index,
    to a text, to data, or to a struct or a list. *)
Inductive kind :=
| KInt (w : nat) (off : Z) (signed : bool)
| KBit (n : Z)
| KVoid
| KText (i : Z)
| KData (i : Z)
| KObj (i : Z).

(** A member of a union also has the offset of the discriminant and its own value of it. *)
Record field := mkField { f_kind : kind; f_tag : option (Z * Z) }.

#[global] Instance kind_eq_dec : EqDecision kind.
Proof. solve_decision. Defined.
#[global] Instance field_eq_dec : EqDecision field.
Proof. solve_decision. Defined.

(** The bytes of the data section and the pointer it occupies. *)
Definition span (k : kind) : option (Z * Z) :=
  match k with
  | KInt w off _ => Some (off, Z.of_nat w)
  | KBit n => Some (n / 8, 1)
  | _ => None
  end.
Definition ptr_of (k : kind) : option Z :=
  match k with KText i | KData i | KObj i => Some i | _ => None end.
Definition tag_span (t : option (Z * Z)) : option (Z * Z) := (λ p, (p.1, 2)) <$> t.

Definition apart (f g : option (Z * Z)) : bool :=
  match f, g with
  | Some (a, n), Some (b, k) => (a + n <=? b) || (b + k <=? a)
  | _, _ => true
  end.

Definition kinds_apart (f g : kind) : bool :=
  apart (span f) (span g) &&
  match ptr_of f, ptr_of g with Some i, Some j => negb (i =? j) | _, _ => true end.

Definition tag_apart (f : kind) (t : option (Z * Z)) : bool := apart (span f) (tag_span t).

(** Setting [f] leaves [g] as it is. *)
Definition separate (f g : field) : bool :=
  kinds_apart (f_kind f) (f_kind g) && tag_apart (f_kind f) (f_tag g) && tag_apart (f_kind g) (f_tag f) &&
  apart (tag_span (f_tag f)) (tag_span (f_tag g)).

(** Setting [f] makes [g] another member of its union. *)
Definition excludes (f g : field) : bool :=
  match f_tag f, f_tag g with
  | Some (o, x), Some (o', y) => (o =? o') && negb (x =? y) && tag_apart (f_kind f) (f_tag f)
  | _, _ => false
  end.

(** Fields of different groups of a union, whose accessors do not look at the discriminant,
    can be the same place. *)
Definition overlays (f g : field) : bool := bool_decide (f = g).

Definition within (sz : ObjectSize) (f : field) : bool :=
  match f_kind f with
  | KInt w off _ => (0 <=? off) && (off + Z.of_nat w <=? DataSize sz)
  | KBit n => (0 <=? n) && (n <? 8 * DataSize sz)
  | KVoid => true
  | KText i | KData i | KObj i => (0 <=? i) && (i <? PointerCount sz)
  end &&
  match f_tag f with
  | Some (o, x) => (0 <=? o) && (o + 2 <=? DataSize sz) && (0 <=? x) && (x <? 65536) && tag_apart (f_kind f) (f_tag f)
  | None => true
  end.

(** The layout of a struct: its fields lie within it, and two of them are separate, members
    of one union or the same place. *)
Fixpoint pairwise (p : field → field → bool) (fs : list field) : bool :=
  match fs with
  | [] => true
  | f :: fs' => forallb (λ g, p f g && p g f) fs' && pairwise p fs'
  end.

Definition layout_ok (sz : ObjectSize) (fs : list field) : bool :=
  forallb (within sz) fs && pairwise (λ f g, separate f g || excludes f g || overlays f g) fs.

Inductive val (S : Type) := VInt (z : Z) | VBool (b : bool) | VUnit | VBytes (b : bytes) | VObj (o : S).
Arguments VInt {S} z.
Arguments VBool {S} b.
Arguments VUnit {S}.
Arguments VBytes {S} b.
Arguments VObj {S} o.

(** What an integer field reads back. *)
Definition norm {S} (k : kind) (v : val S) : val S :=
  match k, v with
  | KInt w _ false, VInt z => VInt (z `mod` 256 ^ Z.of_nat w)
  | KInt w _ true, VInt z => VInt (wrap_i (8 * Z.of_nat w) z)
  | _, v => v
  end.

Section fields.
Context {E M S P : Type} `{!Capnp E M S P} `{!EqDecision S}.
Implicit Types (s : S) (m : M).

(** Reading and writing a field as its description says. *)
Definition read_kind (k : kind) m s : outcome E (val S) :=
  match k with
  | KInt w off false => Ret (VInt (Uint w m s off))
  | KInt w off true => Ret (VInt (wrap_i (8 * Z.of_nat w) (Uint w m s off)))
  | KBit n => Ret (VBool (Bit m s n))
  | KVoid => Ret VUnit
  | KText i => b <~ get_text m s i ;; Ret (VBytes b)
  | KData i => b <~ get_data m s i ;; Ret (VBytes b)
  | KObj i => x <~ get_obj m s i ;; Ret (VObj x)
  end.

Definition read_field (f : field) m s : outcome E (val S) :=
  match f_tag f with
  | None => read_kind (f_kind f) m s
  | Some (o, x) => guarded (Uint 2 m s o) x (read_kind (f_kind f) m s)
  end.

Definition write_kind (k : kind) s (v : val S) m : outcome E M :=
  match k, v with
  | KInt w off _, VInt z => SetUint w s off z m
  | KBit n, VBool b => SetBit s n b m
  | KVoid, VUnit => Ret m
  | KText i, VBytes b => SetText s i b m
  | KData i, VBytes b => SetData s i b m
  | KObj i, VObj x => SetPtr s i (ToPtr x) m
  | _, _ => Panic
  end.

Definition typed (k : kind) (v : val S) : bool :=
  match k, v with
  | KInt _ _ _, VInt _ | KBit _, VBool _ | KVoid, VUnit | KText _, VBytes _ | KData _, VBytes _ | KObj _, VObj _ => true
  | _, _ => false
  end.

Definition write_field (f : field) s (v : val S) m : outcome E M :=
  if typed (f_kind f) v then
    match f_tag f with
    | None => write_kind (f_kind f) s v m
    | Some (o, x) => m <~ SetUint 2 s o x m ;; write_kind (f_kind f) s v m
    end
  else Panic.

(** A pair of generated accessors, with the field it is for. *)
Record accessor := mkAcc {
  a_field : field; a_get : M → S → outcome E (val S); a_set : S → val S → M → outcome E M }.

(** A member without a value is read by its discriminant. *)
Definition void_getter (which : M → S → Z) (x : Z) m s : outcome E (val S) := guarded (which m s) x (Ret VUnit).
Definition bool_getter (g : M → S → bool) m s : outcome E (val S) := Ret (VBool (g m s)).
Definition void_setter (f : S → M → outcome E M) s (v : val S) m : outcome E M :=
  match v with VUnit => f s m | _ => Panic end.
Definition bool_setter (f : S → bool → M → outcome E M) s (v : val S) m : outcome E M :=
  match v with VBool b => f s b m | _ => Panic end.
Definition int_getter (g : M → S → outcome E Z) m s : outcome E (val S) := z <~ g m s ;; Ret (VInt z).
Definition bytes_getter (g : M → S → outcome E bytes) m s : outcome E (val S) := b <~ g m s ;; Ret (VBytes b).
Definition obj_getter (g : M → S → outcome E S) m s : outcome E (val S) := x <~ g m s ;; Ret (VObj x).
Definition int_setter (f : S → Z → M → outcome E M) s (v : val S) m : outcome E M :=
  match v with VInt z => f s z m | _ => Panic end.
Definition bytes_setter (f : S → bytes → M → outcome E M) s (v : val S) m : outcome E M :=
  match v with VBytes b => f s b m | _ => Panic end.
Definition obj_setter (f : S → S → M → outcome E M) s (v : val S) m : outcome E M :=
  match v with VObj x => f s x m | _ => Panic end.

Definition acc_ok (a : accessor) : Prop :=
  (∀ m s, a_get a m s = read_field (a_field a) m s) ∧ (∀ s v m, a_set a s v m = write_field (a_field a) s v m).

(** Every struct of the bindings whose fields have setters, less the fields that hold a
    capability, which [Capabilities] is about. *)
Definition structs : list (ObjectSize * list accessor) :=
  [(Packet_size,
    [mkAcc (mkField (KText 0) None) (bytes_getter Packet_Namespace) (bytes_setter Packet_SetNamespace);
     mkAcc (mkField KVoid (Some (0, 0))) (void_getter Packet_Which 0) (void_setter Packet_SetRequest);
     mkAcc (mkField (KText 1) None) (bytes_getter Packet_request_From) (bytes_setter Packet_request_SetFrom);
     mkAcc (mkField KVoid (Some (0, 1))) (void_getter Packet_Which 1) (void_setter Packet_SetSurvey);
     mkAcc (mkField (KText 1) None) (bytes_getter Packet_survey_From) (bytes_setter Packet_survey_SetFrom);
     mkAcc (mkField (KInt 1 2 false) None) (int_getter (λ m s, Ret (Packet_survey_Distance m s))) (int_setter Packet_survey_SetDistance);
     mkAcc (mkField KVoid (Some (0, 2))) (void_getter Packet_Which 2) (void_setter Packet_SetResponse);
     mkAcc (mkField (KText 1) None) (bytes_getter Packet_response_Peer) (bytes_setter Packet_response_SetPeer);
     mkAcc (mkField (KObj 2) None) (obj_getter Packet_response_Addrs) (obj_setter Packet_response_SetAddrs)]);
   (Debugger_sysInfo_Results_size,
    [mkAcc (mkField (KObj 0) None) (obj_getter Debugger_sysInfo_Results_SysInfo) (obj_setter Debugger_sysInfo_Results_SetSysInfo)]);
   (Debugger_envVars_Results_size,
    [mkAcc (mkField (KObj 0) None) (obj_getter Debugger_envVars_Results_EnvVars) (obj_setter Debugger_envVars_Results_SetEnvVars)]);
   (Debugger_profiler_Params_size,
    [mkAcc (mkField (KInt 2 0 false) None) (int_getter (λ m s, Ret (Debugger_profiler_Params_Profile m s))) (int_setter Debugger_profiler_Params_SetProfile)]);
   (SysInfo_size,
    [mkAcc (mkField (KText 0) None) (bytes_getter SysInfo_Version) (bytes_setter SysInfo_SetVersion);
     mkAcc (mkField (KText 1) None) (bytes_getter SysInfo_AppVersion) (bytes_setter SysInfo_SetAppVersion);
     mkAcc (mkField (KObj 2) None) (obj_getter SysInfo_Runtime) (obj_setter SysInfo_SetRuntime);
     mkAcc (mkField (KObj 3) None) (obj_getter SysInfo_Os) (obj_setter SysInfo_SetOs)]);
   (RuntimeInfo_size,
    [mkAcc (mkField (KInt 4 0 false) None) (int_getter (λ m s, Ret (RuntimeInfo_NumCPU m s))) (int_setter RuntimeInfo_SetNumCPU);
     mkAcc (mkField (KText 0) None) (bytes_getter RuntimeInfo_Os) (bytes_setter RuntimeInfo_SetOs);
     mkAcc (mkField (KText 1) None) (bytes_getter RuntimeInfo_Arch) (bytes_setter RuntimeInfo_SetArch);
     mkAcc (mkField (KText 2) None) (bytes_getter RuntimeInfo_Compiler) (bytes_setter RuntimeInfo_SetCompiler)]);
   (OSInfo_size,
    [mkAcc (mkField (KInt 8 0 true) None) (int_getter (λ m s, Ret (OSInfo_Pid m s))) (int_setter OSInfo_SetPid);
     mkAcc (mkField (KText 0) None) (bytes_getter OSInfo_Hostname) (bytes_setter OSInfo_SetHostname);
     mkAcc (mkField (KObj 1) None) (obj_getter OSInfo_Args) (obj_setter OSInfo_SetArgs);
     mkAcc (mkField (KText 2) None) (bytes_getter OSInfo_user_Username) (bytes_setter OSInfo_user_SetUsername);
     mkAcc (mkField (KText 3) None) (bytes_getter OSInfo_user_DisplayName) (bytes_setter OSInfo_user_SetDisplayName);
     mkAcc (mkField (KText 4) None) (bytes_getter OSInfo_user_HomeDir) (bytes_setter OSInfo_user_SetHomeDir);
     mkAcc (mkField KVoid (Some (8, 0))) (void_getter OSInfo_user_uid_Which 0) (void_setter OSInfo_user_uid_SetNone);
     mkAcc (mkField (KInt 8 16 false) (Some (8, 1))) (int_getter OSInfo_user_uid_Numeric) (int_setter OSInfo_user_uid_SetNumeric);
     mkAcc (mkField (KText 5) (Some (8, 2))) (bytes_getter OSInfo_user_uid_Token) (bytes_setter OSInfo_user_uid_SetToken);
     mkAcc (mkField KVoid (Some (10, 0))) (void_getter OSInfo_user_gid_Which 0) (void_setter OSInfo_user_gid_SetNone);
     mkAcc (mkField (KInt 8 24 false) (Some (10, 1))) (int_getter OSInfo_user_gid_Numeric) (int_setter OSInfo_user_gid_SetNumeric);
     mkAcc (mkField (KText 6) (Some (10, 2))) (bytes_getter OSInfo_user_gid_Token) (bytes_setter OSInfo_user_gid_SetToken)]);
   (Snapshotter_snapshot_Params_size,
    [mkAcc (mkField (KInt 1 0 false) None) (int_getter (λ m s, Ret (Snapshotter_snapshot_Params_Debug m s))) (int_setter Snapshotter_snapshot_Params_SetDebug)]);
   (Snapshotter_snapshot_Results_size,
    [mkAcc (mkField (KData 0) None) (bytes_getter Snapshotter_snapshot_Results_Snapshot) (bytes_setter Snapshotter_snapshot_Results_SetSnapshot)]);
   (Sampler_Writer_write_Params_size,
    [mkAcc (mkField (KData 0) None) (bytes_getter Sampler_Writer_write_Params_Sample) (bytes_setter Sampler_Writer_write_Params_SetSample)]);
   (Sampler_sample_Params_size,
    [mkAcc (mkField (KInt 8 0 true) None) (int_getter (λ m s, Ret (Sampler_sample_Params_Duration m s))) (int_setter Sampler_sample_Params_SetDuration)]);
   (Echoer_echo_Params_size,
    [mkAcc (mkField (KText 0) None) (bytes_getter Echoer_echo_Params_Payload) (bytes_setter Echoer_echo_Params_SetPayload)]);
   (Echoer_echo_Results_size,
    [mkAcc (mkField (KText 0) None) (bytes_getter Echoer_echo_Results_Result) (bytes_setter Echoer_echo_Results_SetResult)]);
   (Gossip_size,
    [mkAcc (mkField (KInt 8 0 false) None) (int_getter (λ m s, Ret (Gossip_Hop m s))) (int_setter Gossip_SetHop);
     mkAcc (mkField (KData 0) None) (bytes_getter Gossip_Envelope) (bytes_setter Gossip_SetEnvelope)]);
   (Heartbeat_size,
    [mkAcc (mkField (KInt 4 0 false) None) (int_getter (λ m s, Ret (Heartbeat_Ttl m s))) (int_setter Heartbeat_SetTtl);
     mkAcc (mkField (KInt 8 8 false) None) (int_getter (λ m s, Ret (Heartbeat_Server m s))) (int_setter Heartbeat_SetServer);
     mkAcc (mkField (KText 0) None) (bytes_getter Heartbeat_Host) (bytes_setter Heartbeat_SetHost);
     mkAcc (mkField (KObj 1) None) (obj_getter Heartbeat_Meta) (obj_setter Heartbeat_SetMeta)]);
   (View_Handler_recv_Params_size,
    [mkAcc (mkField (KObj 0) None) (obj_getter View_Handler_recv_Params_Record) (obj_setter View_Handler_recv_Params_SetRecord)]);
   (View_Selector_size,
    [mkAcc (mkField KVoid (Some (0, 0))) (void_getter View_Selector_Which 0) (void_setter View_Selector_SetAll);
     mkAcc (mkField (KObj 0) (Some (0, 1))) (obj_getter View_Selector_Match) (obj_setter View_Selector_SetMatch);
     mkAcc (mkField (KObj 0) (Some (0, 2))) (obj_getter View_Selector_From) (obj_setter View_Selector_SetFrom)]);
   (View_Constraint_size,
    [mkAcc (mkField (KInt 8 0 false) (Some (8, 0))) (int_getter View_Constraint_Limit) (int_setter View_Constraint_SetLimit);
     mkAcc (mkField (KObj 0) (Some (8, 1))) (obj_getter View_Constraint_To) (obj_setter View_Constraint_SetTo)]);
   (View_Index_size,
    [mkAcc (mkField (KBit 0) None) (bool_getter View_Index_Prefix) (bool_setter View_Index_SetPrefix);
     mkAcc (mkField (KText 0) (Some (2, 0))) (bytes_getter View_Index_Peer) (bytes_setter View_Index_SetPeer);
     mkAcc (mkField (KData 0) (Some (2, 1))) (bytes_getter View_Index_Server) (bytes_setter View_Index_SetServer);
     mkAcc (mkField (KText 0) (Some (2, 2))) (bytes_getter View_Index_Host) (bytes_setter View_Index_SetHost);
     mkAcc (mkField (KText 0) (Some (2, 3))) (bytes_getter View_Index_Meta) (bytes_setter View_Index_SetMeta)]);
   (View_Record_size,
    [mkAcc (mkField (KText 0) None) (bytes_getter View_Record_Peer) (bytes_setter View_Record_SetPeer);
     mkAcc (mkField (KInt 8 0 false) None) (int_getter (λ m s, Ret (View_Record_Server m s))) (int_setter View_Record_SetServer);
     mkAcc (mkField (KInt 8 8 false) None) (int_getter (λ m s, Ret (View_Record_Seq m s))) (int_setter View_Record_SetSeq);
     mkAcc (mkField (KObj 1) None) (obj_getter View_Record_Heartbeat) (obj_setter View_Record_SetHeartbeat)]);
   (View_MaybeRecord_size,
    [mkAcc (mkField KVoid (Some (0, 0))) (void_getter View_MaybeRecord_Which 0) (void_setter View_MaybeRecord_SetNothing);
     mkAcc (mkField (KObj 0) (Some (0, 1))) (obj_getter View_MaybeRecord_Just) (obj_setter View_MaybeRecord_SetJust)]);
   (View_lookup_Params_size,
    [mkAcc (mkField (KObj 0) None) (obj_getter View_lookup_Params_Selector) (obj_setter View_lookup_Params_SetSelector);
     mkAcc (mkField (KObj 1) None) (obj_getter View_lookup_Params_Constraints) (obj_setter View_lookup_Params_SetConstraints)]);
   (View_lookup_Results_size,
    [mkAcc (mkField (KObj 0) None) (obj_getter View_lookup_Results_Result) (obj_setter View_lookup_Results_SetResult)]);
   (View_iter_Params_size,
    [mkAcc (mkField (KObj 1) None) (obj_getter View_iter_Params_Selector) (obj_setter View_iter_Params_SetSelector);
     mkAcc (mkField (KObj 2) None) (obj_getter View_iter_Params_Constraints) (obj_setter View_iter_Params_SetConstraints)])].

Lemma guarded_bind {A B} w x (c : outcome E A) (k : A → outcome E B) :
  bind (guarded w x c) k = guarded w x (bind c k).
Proof. unfold guarded. by destruct (w =? x). Qed.

Lemma bind_Ret {A} (c : outcome E A) : (x <~ c ;; Ret x) = c.
Proof. by destruct c. Qed.

Lemma structs_ok : Forall (λ st, Forall acc_ok st.2) structs.
Proof.
  repeat (apply Forall_cons; split); try apply Forall_nil_2; cbn [snd];
    repeat (apply Forall_cons; split); try apply Forall_nil_2;
    (split; [intros m s; first [reflexivity|exact (guarded_bind _ _ _ _)]
            |intros s [] m; first [reflexivity|symmetry; exact (bind_Ret _)]]).
Qed.

Lemma layouts_ok : Forall (λ st, layout_ok st.1 (a_field <$> st.2) = true) structs.
Proof. repeat (apply Forall_cons; split); try apply Forall_nil_2; reflexivity. Qed.

Context (V : Views E M S P) `{!CapnpLaws E M S P V}.

(** Values that can be stored, and fields in whose place there is nothing of another type: a
    pointer to an object is null, an object, or unreadable. *)
Definition storable m (v : val S) : Prop := match v with VObj o => live V m o | _ => True end.
Definition held m s (k : kind) : Prop :=
  match k with
  | KObj i => (∀ b, slot V m s i ≠ Ret (PText b)) ∧ (∀ b, slot V m s i ≠ Ret (PData b)) ∧
              (∀ id, slot V m s i ≠ Ret (PCap id))
  | _ => True
  end.

(** What setting a value does to the object. *)
Definition kind_bytes (k : kind) (v : val S) (f : Z → Z) : Z → Z :=
  match k, v with
  | KInt w off _, VInt z => set_bytes f off w z
  | KBit n, VBool b =>
      set_at f (n / 8) (if b then Z.setbit (f (n / 8)) (n `mod` 8) else Z.clearbit (f (n / 8)) (n `mod` 8))
  | _, _ => f
  end.
Definition kind_slots (k : kind) (x : pv S) (f : Z → outcome E (pv S)) : Z → outcome E (pv S) :=
  match ptr_of k with Some i => set_at f i (Ret x) | None => f end.
Definition kind_pv (k : kind) (v : val S) (x : pv S) : Prop :=
  match k, v with
  | KText _, VBytes b => x = text_pv b
  | KData _, VBytes b => data_pv b x
  | KObj _, VObj o => x = PObj o
  | _, _ => True
  end.

Lemma write_kind_upd k s v m m' :
  write_kind k s v m = Ret m' → storable m v →
  ∃ x, kind_pv k v x ∧ updated V m m' s (kind_bytes k v (byte V m s)) (kind_slots k x (slot V m s)).
Proof.
  destruct k, v; cbn; try done; intros Hw Hst.
  - exists PNull. split; [done|]. by apply SetUint_upd.
  - exists PNull. split; [done|]. by apply SetBit_upd.
  - exists PNull. split; [done|]. simplify_eq. by split.
  - eexists. split; [done|]. by apply SetText_upd.
  - by apply SetData_upd.
  - eexists. split; [done|]. by apply SetPtr_upd.
Qed.

Lemma apart_sym f g : apart f g = apart g f.
Proof. destruct f as [[a n]|], g as [[b k]|]; cbn; try done. by rewrite orb_comm. Qed.

Lemma kind_bytes_apart k v f a n j :
  apart (span k) (Some (a, n)) = true → a ≤ j < a + n → kind_bytes k v f j = f j.
Proof.
  destruct k as [w off sg|b| |i|i|i], v; cbn; try done;
    rewrite orb_true_iff, !Z.leb_le; intros Ha Hj.
  - unfold set_bytes. destruct (Z.leb_spec off j), (Z.ltb_spec j (off + Z.of_nat w)); cbn; try done; lia.
  - unfold set_at. destruct (Z.eqb_spec j (b / 8)); [lia|done].
Qed.

(** Reading depends on the bytes and the slot of the field. *)
Lemma uint_ext w m m' s off :
  (∀ j, off ≤ j < off + Z.of_nat w → byte V m' s j = byte V m s j) → Uint w m' s off = Uint w m s off.
Proof. intros Hb. rewrite !Uint_le. by apply le_ext. Qed.

Lemma read_kind_ext k m m' s :
  (∀ a n, span k = Some (a, n) → ∀ j, a ≤ j < a + n → byte V m' s j = byte V m s j) →
  (∀ i, ptr_of k = Some i → slot V m' s i = slot V m s i) → held m s k →
  read_kind k m' s = read_kind k m s.
Proof.
  intros Hb Hs Hh. destruct k as [w off sg|n| |i|i|i]; cbn.
  - rewrite (uint_ext w m m' s off (Hb _ _ eq_refl)). done.
  - rewrite !Bit_byte, (Hb _ _ eq_refl) by lia. done.
  - done.
  - assert (get_text m' s i = get_text m s i) as ->; [|done].
    apply (slot_det V Text); [intros ? ? ? ? Hp; apply (Text_det _ _ _ _ Hp)|auto].
  - assert (get_data m' s i = get_data m s i) as ->; [|done].
    apply (slot_det V Data); [intros ? ? ? ? Hp; apply (Text_det _ _ _ _ Hp)|auto].
  - destruct Hh as (H1 & H2 & H3). unfold get_obj. by rewrite (obj_det V m m' s i H1 H2 H3) by auto.
Qed.

(** Setting a kind keeps what lies apart from it. *)
Lemma write_kind_keeps k g s v m m' :
  write_kind k s v m = Ret m' → storable m v → kinds_apart k g = true → held m s g →
  read_kind g m' s = read_kind g m s.
Proof.
  intros Hw Hst Hk Hh. destruct (write_kind_upd _ _ _ _ _ Hw Hst) as (x & _ & Hu).
  unfold kinds_apart in Hk. apply andb_true_iff in Hk as [Ha Hp]. apply read_kind_ext; [| |done].
  - intros a n Hg j Hj. rewrite (upd_byte _ _ _ _ _ _ Hu). rewrite Hg in Ha. by apply (kind_bytes_apart _ _ _ a n).
  - intros i Hi. rewrite (upd_slot _ _ _ _ _ _ Hu). unfold kind_slots. rewrite Hi in Hp.
    destruct (ptr_of k) as [i'|]; [|done]. unfold set_at.
    destruct (Z.eqb_spec i i') as [->|]; [by rewrite Z.eqb_refl in Hp|done].
Qed.

Lemma write_kind_tag k s v m m' o x :
  write_kind k s v m = Ret m' → storable m v → tag_apart k (Some (o, x)) = true → Uint 2 m' s o = Uint 2 m s o.
Proof.
  intros Hw Hst Hk. destruct (write_kind_upd _ _ _ _ _ Hw Hst) as (y & _ & Hu). apply uint_ext.
  intros j Hj. rewrite (upd_byte _ _ _ _ _ _ Hu). by apply (kind_bytes_apart _ _ _ o 2).
Qed.

Lemma write_kind_same k s v m m' :
  (∀ n, k = KBit n → 0 ≤ n) → write_kind k s v m = Ret m' → storable m v →
  read_kind k m' s = Ret (norm k v).
Proof.
  intros Hn Hw Hst. destruct (write_kind_upd _ _ _ _ _ Hw Hst) as (x & Hx & Hu).
  destruct k as [w off sg|n| |i|i|i], v; cbn in *; try done.
  - rewrite (SetUint_same V _ _ _ _ _ _ Hw). destruct sg; [|done]. do 2 f_equal. unfold wrap_i.
    replace (256 ^ Z.of_nat w) with (2 ^ (8 * Z.of_nat w)) by (rewrite Z.pow_mul_r by lia; done).
    by rewrite Zplus_mod_idemp_l.
  - by rewrite (SetBit_same V _ _ _ _ _ Hw) by auto.
  - pose proof (slot_same V _ _ _ _ _ _ Hu) as Hs. subst x. unfold get_text. by rewrite (proj1 (text_slot V _ _ _ _ Hs)).
  - pose proof (slot_same V _ _ _ _ _ _ Hu) as Hs. unfold get_data. by rewrite (data_slot V _ _ _ _ _ Hx Hs).
  - pose proof (slot_same V _ _ _ _ _ _ Hu) as Hs. subst x. unfold get_obj. by rewrite (obj_slot V _ _ _ _ Hs).
Qed.

(** The discriminant is an unsigned integer of two bytes. *)
Lemma tag_write_kind s o x m : SetUint 2 s o x m = write_kind (KInt 2 o false) s (VInt x) m.
Proof. done. Qed.

Lemma write_field_inv f s v m m' :
  write_field f s v m = Ret m' → storable m v →
  ∃ m1, write_kind (f_kind f) s v m1 = Ret m' ∧ storable m1 v ∧
    match f_tag f with None => m1 = m | Some (o, x) => SetUint 2 s o x m = Ret m1 end.
Proof.
  unfold write_field. destruct (typed _ _); [|done]. destruct (f_tag f) as [[o x]|].
  - intros (m1 & H1 & H2)%bind_Ret_inv Hst. exists m1. split; [done|]. split; [|done].
    destruct v; cbn in *; try done. by apply (upd_live _ _ _ _ _ _ (SetUint_upd _ _ _ _ _ _ H1)).
  - intros Hw Hst. by exists m.
Qed.

Lemma within_tag sz f o x :
  within sz f = true → f_tag f = Some (o, x) → 0 ≤ x < 65536 ∧ tag_apart (f_kind f) (Some (o, x)) = true.
Proof.
  unfold within. intros Hw Ht. rewrite Ht, !andb_true_iff, !Z.leb_le, Z.ltb_lt in Hw. naive_solver lia.
Qed.

Lemma within_bit sz f : within sz f = true → ∀ n, f_kind f = KBit n → 0 ≤ n.
Proof.
  unfold within. intros Hw n Hn. rewrite Hn, !andb_true_iff, Z.leb_le in Hw. naive_solver.
Qed.

Lemma tag_value s o x m m' : 0 ≤ x < 65536 → SetUint 2 s o x m = Ret m' → Uint 2 m' s o = x.
Proof. intros Hx Hs. rewrite (SetUint_same V _ _ _ _ _ _ Hs). by apply Z.mod_small. Qed.

Lemma write_field_same sz f s v m m' :
  within sz f = true → write_field f s v m = Ret m' → storable m v → read_field f m' s = Ret (norm (f_kind f) v).
Proof.
  intros Hin Hw Hst. destruct (write_field_inv _ _ _ _ _ Hw Hst) as (m1 & Hw1 & Hst1 & Ht).
  unfold read_field. rewrite (write_kind_same _ _ _ _ _ (within_bit _ _ Hin) Hw1 Hst1).
  destruct (f_tag f) as [[o x]|] eqn:Hf; [|done]. destruct (within_tag _ _ _ _ Hin Hf) as [Hx Ha].
  rewrite (write_kind_tag _ _ _ _ _ o x Hw1 Hst1 Ha), (tag_value _ _ _ _ _ Hx Ht). unfold guarded. by rewrite Z.eqb_refl.
Qed.

Lemma read_field_keeps k g s v m m' :
  write_kind k s v m = Ret m' → storable m v → kinds_apart k (f_kind g) = true → tag_apart k (f_tag g) = true →
  held m s (f_kind g) → read_field g m' s = read_field g m s.
Proof.
  intros Hw Hst Hk Ht Hh. unfold read_field. rewrite (write_kind_keeps _ _ _ _ _ _ Hw Hst Hk Hh).
  destruct (f_tag g) as [[o x]|]; [|done]. by rewrite (write_kind_tag _ _ _ _ _ o x Hw Hst Ht).
Qed.

Lemma held_upd f m m' s k : updated V m m' s f (slot V m s) → held m s k → held m' s k.
Proof. intros Hu. destruct k; try done. cbn. by rewrite (data_upd_slot V _ _ _ _ _ _ Hu). Qed.

Lemma write_field_keeps f g s v m m' :
  separate f g = true → write_field f s v m = Ret m' → storable m v → held m s (f_kind g) →
  read_field g m' s = read_field g m s.
Proof.
  unfold separate. rewrite !andb_true_iff. intros (((Hk & Ht) & Htf) & Htt) Hw Hst Hh.
  destruct (write_field_inv _ _ _ _ _ Hw Hst) as (m1 & Hw1 & Hst1 & Hm1).
  destruct (f_tag f) as [[o x]|] eqn:Hf; [|subst m1; by apply (read_field_keeps (f_kind f) g s v)].
  pose proof (SetUint_upd _ _ _ _ _ _ Hm1) as Hu.
  rewrite (read_field_keeps _ _ _ _ _ _ Hw1 Hst1 Hk Ht) by (by eapply held_upd).
  apply (read_field_keeps (KInt 2 o false) g s (VInt x)); try done.
  unfold kinds_apart. cbn [ptr_of]. rewrite andb_true_r, apart_sym. exact Htf.
Qed.

Lemma write_field_excludes sz f g s v m m' :
  within sz f = true → excludes f g = true → write_field f s v m = Ret m' → storable m v → read_field g m' s = Panic.
Proof.
  unfold excludes. intros Hin He Hw Hst. destruct (write_field_inv _ _ _ _ _ Hw Hst) as (m1 & Hw1 & Hst1 & Hm1).
  destruct (f_tag f) as [[o x]|] eqn:Hf; [|done]. destruct (within_tag _ _ _ _ Hin Hf) as [Hx Ha].
  unfold read_field. destruct (f_tag g) as [[o' y]|]; [|done].
  rewrite !andb_true_iff, negb_true_iff, Z.eqb_eq, Z.eqb_neq in He. destruct He as [[<- Hne] _].
  rewrite (write_kind_tag _ _ _ _ _ o x Hw1 Hst1 Ha), (tag_value _ _ _ _ _ Hx Hm1). unfold guarded.
  by rewrite (proj2 (Z.eqb_neq x y) Hne).
Qed.

Lemma pairwise_lookup p fs i j f g :
  pairwise p fs = true → fs !! i = Some f → fs !! j = Some g → i ≠ j → p f g = true.
Proof.
  revert i j. induction fs as [|h fs IH]; [done|]. cbn. intros i j Hp Hi Hj Hne.
  apply andb_true_iff in Hp as [Hh Hp]. rewrite forallb_forall in Hh.
  destruct i as [|i], j as [|j]; cbn in Hi, Hj; simplify_eq.
  - specialize (Hh g (proj1 (list_elem_of_In _ _) (list_elem_of_lookup_2 _ _ _ Hj))). by apply andb_true_iff in Hh as [? _].
  - specialize (Hh f (proj1 (list_elem_of_In _ _) (list_elem_of_lookup_2 _ _ _ Hi))). by apply andb_true_iff in Hh as [_ ?].
  - apply (IH i j); auto.
Qed.

Lemma layout_lookup sz accs i a :
  layout_ok sz (a_field <$> accs) = true → accs !! i = Some a →
  within sz (a_field a) = true ∧
  ∀ j b, accs !! j = Some b → j ≠ i → separate (a_field a) (a_field b) || excludes (a_field a) (a_field b) || overlays (a_field a) (a_field b) = true.
Proof.
  unfold layout_ok. rewrite andb_true_iff, forallb_forall. intros [Hw Hp] Hi. split.
  - apply Hw, list_elem_of_In, (list_elem_of_lookup_2 _ i). by rewrite list_lookup_fmap, Hi.
  - intros j b Hj Hne. apply (pairwise_lookup _ _ i j _ _ Hp); [by rewrite list_lookup_fmap, Hi|by rewrite list_lookup_fmap, Hj|done].
Qed.

(** Where a setter gets: past the discriminant, with the struct in place. *)
Lemma write_field_reaches sz f s v m :
  within sz f = true → live V m s → size V m s = sz → typed (f_kind f) v = true →
  ∃ m1, live V m1 s ∧ size V m1 s = sz ∧ write_field f s v m = write_kind (f_kind f) s v m1.
Proof.
  intros Hin Hl Hs Ht. unfold write_field. rewrite Ht. unfold within in Hin. apply andb_true_iff in Hin as [_ Htag].
  destruct (f_tag f) as [[o x]|]; [|by exists m].
  rewrite !andb_true_iff, !Z.leb_le in Htag. destruct Htag as ((((Ho & Hob) & _) & _) & _).
  destruct (SetUint_ok 2 s o x m) as [m1 H1]; [done|done|by rewrite Hs|]. rewrite H1. exists m1.
  pose proof (SetUint_upd _ _ _ _ _ _ H1) as Hu. split_and!; [by apply (upd_live _ _ _ _ _ _ Hu)| |done].
  by rewrite (upd_size _ _ _ _ _ _ Hu).
Qed.

Lemma write_scalar_ok sz f s v m :
  within sz f = true → live V m s → size V m s = sz → typed (f_kind f) v = true → ptr_of (f_kind f) = None →
  ∃ m', write_field f s v m = Ret m'.
Proof.
  intros Hin Hl Hs Ht Hp. destruct (write_field_reaches sz f s v m Hin Hl Hs Ht) as (m1 & Hl1 & Hs1 & ->).
  unfold within in Hin. apply andb_true_iff in Hin as [Hin _].
  destruct (f_kind f) as [w off sg|n| | | |], v; try done; cbn [write_kind].
  - rewrite !andb_true_iff, !Z.leb_le in Hin. apply SetUint_ok; rewrite ?Hs1; naive_solver.
  - rewrite !andb_true_iff, Z.leb_le, Z.ltb_lt in Hin. by apply SetBit_ok; rewrite ?Hs1.
  - by exists m1.
Qed.

(** ** Properties *)

(** C36. The generated accessors are lenses.  In every struct of the bindings and for all its
    fields but capabilities: when setting a field succeeds, getting it returns the value set,
    an integer taken at the width of the field; every other field reads as before, unless
    it is a member of the same union, whose getter then panics (for a member without a
    value: the discriminant is another), or it is the same place (the peer of the groups of a
    packet, whose accessors do not look at the discriminant), and then it reads as the
    value set.  An object that is set has to be one of the message; nothing is said of an
    object field in whose place a malformed message has a text, data or a capability. *)
Theorem bindings_are_lenses sz (accs : list accessor) i a s v m m' :
  (sz, accs) ∈ structs → accs !! i = Some a → a_set a s v m = Ret m' → storable m v →
  a_get a m' s = Ret (norm (f_kind (a_field a)) v) ∧
  ∀ j b, accs !! j = Some b → j ≠ i → held m s (f_kind (a_field b)) →
    a_get b m' s = a_get b m s ∨
    (a_get b m' s = Panic ∧ (fst <$> f_tag (a_field a)) = (fst <$> f_tag (a_field b)) ∧
     is_Some (f_tag (a_field b))) ∨
    (a_field b = a_field a ∧ a_get b m' s = Ret (norm (f_kind (a_field a)) v)).
Proof.
  intros Hst Hi Hw Hv. pose proof structs_ok as Hok. pose proof layouts_ok as Hlay. rewrite Forall_forall in Hok, Hlay.
  specialize (Hok _ Hst). specialize (Hlay _ Hst). cbn in Hok, Hlay.
  destruct (layout_lookup sz accs i a Hlay Hi) as [Hin Hsep].
  destruct (Forall_lookup_1 _ _ _ _ Hok Hi) as [Hget Hset]. rewrite Hset in Hw.
  pose proof (write_field_same sz _ s v m m' Hin Hw Hv) as Hsame. rewrite Hget. split; [done|].
  intros j b Hj Hne Hh. destruct (Forall_lookup_1 _ _ _ _ Hok Hj) as [Hgetb _]. rewrite !Hgetb.
  specialize (Hsep j b Hj Hne). rewrite !orb_true_iff in Hsep. destruct Hsep as [[Hs|He]|Ho].
  - left. by apply (write_field_keeps (a_field a) _ s v).
  - right. left. split; [by apply (write_field_excludes sz (a_field a) _ s v m)|]. unfold excludes in He.
    destruct (f_tag (a_field a)) as [[o x]|], (f_tag (a_field b)) as [[o' y]|]; try done.
    rewrite !andb_true_iff, Z.eqb_eq in He. destruct He as [[-> _] _]. by split.
  - right. right. apply bool_decide_eq_true in Ho as <-. done.
Qed.

(** C38. The generated setters stay within their structs.  On any struct of a message that
    was allocated with the size of its type, setting an integer, a flag or a member without
    a value succeeds whatever the value; and any other setter (capabilities apart) gets
    past the write of its discriminant to the write of a pointer that lies in the struct's
    pointer section. *)
Theorem setters_in_bounds sz (accs : list accessor) i a s v m :
  (sz, accs) ∈ structs → accs !! i = Some a → live V m s → size V m s = sz →
  typed (f_kind (a_field a)) v = true →
  match ptr_of (f_kind (a_field a)) with
  | None => ∃ m', a_set a s v m = Ret m'
  | Some p => 0 ≤ p < PointerCount sz ∧
      ∃ m1, live V m1 s ∧ size V m1 s = sz ∧ a_set a s v m = write_kind (f_kind (a_field a)) s v m1
  end.
Proof.
  intros Hst Hi Hl Hs Ht. pose proof structs_ok as Hok. pose proof layouts_ok as Hlay. rewrite Forall_forall in Hok, Hlay.
  specialize (Hok _ Hst). specialize (Hlay _ Hst). cbn in Hok, Hlay.
  destruct (layout_lookup sz accs i a Hlay Hi) as [Hin _].
  destruct (Forall_lookup_1 _ _ _ _ Hok Hi) as [_ Hset]. rewrite Hset.
  destruct (ptr_of (f_kind (a_field a))) as [p|] eqn:Hp; [|by eapply write_scalar_ok].
  split; [|by apply write_field_reaches].
  unfold within in Hin. apply andb_true_iff in Hin as [Hin _].
  destruct (f_kind (a_field a)); simplify_eq/=; rewrite andb_true_iff, Z.leb_le, Z.ltb_lt in Hin; lia.
Qed.
End fields.

(** ** Promises *)
Section promises.
Context {E M S P : Type} `{!Capnp E M S P}.

(** A field of a promise, and the accessor of the struct that is promised. *)
Definition promises : list ((future → future) * (M → S → outcome E S)) :=
  [(Debugger_sysInfo_Results_Future_SysInfo, Debugger_sysInfo_Results_SysInfo);
   (SysInfo_Future_Runtime, SysInfo_Runtime);
   (SysInfo_Future_Os, SysInfo_Os);
   (View_Handler_recv_Params_Future_Record, View_Handler_recv_Params_Record);
   (View_Selector_Future_Match, View_Selector_Match);
   (View_Selector_Future_From, View_Selector_From);
   (View_Constraint_Future_To, View_Constraint_To);
   (View_Record_Future_Heartbeat, View_Record_Heartbeat);
   (View_MaybeRecord_Future_Just, View_MaybeRecord_Just);
   (View_lookup_Params_Future_Selector, View_lookup_Params_Selector);
   (View_lookup_Results_Future_Result, View_lookup_Results_Result);
   (View_iter_Params_Future_Selector, View_iter_Params_Selector)].

Lemma resolve_app m s (f g : future) : resolve (E:=E) m s (f ++ g) = (x <~ resolve m s f ;; resolve m x g).
Proof. revert s. induction f as [|i f IH]; intros s; cbn; [done|]. destruct (get_obj m s i); cbn; auto. Qed.

Lemma guarded_Ret {A} w x (c : outcome E A) y : guarded w x c = Ret y → c = Ret y.
Proof. unfold guarded. by destruct (w =? x). Qed.

(** Pipelining agrees with waiting: when the struct behind a promise is there and its
    accessor returns a field, the promise of that field, on which calls could be made
    before, resolves to the same. *)
Theorem promises_agree (F : future → future) get m (s x y : S) f :
  (F, get) ∈ promises → resolve m s f = Ret x → get m x = Ret y → resolve m s (F f) = Ret y.
Proof.
  intros Hin Hf Hg. enough (∃ i, F f = f ++ [i] ∧ get_obj m x i = Ret y) as (i & -> & Hi).
  { rewrite resolve_app, Hf. cbn. by rewrite Hi. }
  unfold promises in Hin.
  repeat (apply elem_of_cons in Hin as [[= -> ->]|Hin];
          [eexists; split; [reflexivity|]; first [exact Hg|by apply (guarded_Ret _ _ _ _ Hg)]|]).
  by apply elem_of_nil in Hin.
Qed.
End promises.

(** ** Calls *)

(** The call a stub makes, the type of its parameters, and the results a server allocates
    with the type of the results. *)
Definition calls : list (Send * ObjectSize * ObjectSize * ObjectSize) :=
  [(Debugger_SysInfo true, Debugger_sysInfo_Params_size, Debugger_sysInfo_AllocResults, Debugger_sysInfo_Results_size);
   (Debugger_EnvVars true, Debugger_envVars_Params_size, Debugger_envVars_AllocResults, Debugger_envVars_Results_size);
   (Debugger_Profiler true, Debugger_profiler_Params_size, Debugger_profiler_AllocResults, Debugger_profiler_Results_size);
   (Debugger_Tracer true, Debugger_tracer_Params_size, Debugger_tracer_AllocResults, Debugger_tracer_Results_size);
   (Snapshotter_Snapshot true, Snapshotter_snapshot_Params_size, Snapshotter_snapshot_AllocResults, Snapshotter_snapshot_Results_size);
   (Sampler_Sample true, Sampler_sample_Params_size, Sampler_sample_AllocResults, Sampler_sample_Results_size);
   (Echoer_Echo true, Echoer_echo_Params_size, Echoer_echo_AllocResults, Echoer_echo_Results_size);
   (View_Lookup true, View_lookup_Params_size, View_lookup_AllocResults, View_lookup_Results_size);
   (View_Iter true, View_iter_Params_size, View_iter_AllocResults, View_iter_Results_size);
   (View_Reverse true, View_reverse_Params_size, View_reverse_AllocResults, View_reverse_Results_size)].

(** The streaming calls have no results. *)
Definition stream_calls : list (Send * ObjectSize) :=
  [(Sampler_Writer_Write true, Sampler_Writer_write_Params_size);
   (Streamer_Recv true, Streamer_recv_Params_size);
   (View_Handler_Recv true, View_Handler_recv_Params_size)].

(** Arguments and results are allocated with the size of their types, so that the setters
    of the parameters and the results work on them. *)
Lemma call_sizes :
  Forall (λ c, ArgsSize c.1.1.1 = Some c.1.1.2 ∧ c.1.2 = c.2) calls ∧
  Forall (λ c, ArgsSize c.1 = Some c.2) stream_calls.
Proof. split; repeat constructor. Qed.

Section reach.
Context {call err : Type} (select : list (Method * (call → err)) → Method → option (call → err)).
Hypothesis select_law : ∀ ms m m' f, NoDup (ids ms) → (m', f) ∈ ms → InterfaceID m' = InterfaceID m →
  MethodID m' = MethodID m → select ms m = Some f.

Lemma select_appended ms (rows : list (Method * (call → err))) T m f :
  NoDup (ids ms) → Forall (λ i, i.1 ≠ T) (ids ms) → NoDup (ids rows) → Forall (λ r, InterfaceID r.1 = T) rows →
  (m, f) ∈ rows → select (ms ++ rows) m = Some f.
Proof.
  intros H1 H2 H3 H4 H5. apply (select_law _ _ m); [|apply elem_of_app; by right|done|done].
  unfold ids. rewrite fmap_app. apply NoDup_app. split_and!; [done| |done]. rewrite Forall_forall in H2. rewrite Forall_forall in H4.
  intros i Hi (r & -> & Hr)%list_elem_of_fmap. apply (H2 _ Hi). by apply H4.
Qed.

(** The stubs of the debug and testing interfaces reach the methods of their names on a
    server whose table was made for the interface, beside the methods of others. *)
Theorem debug_stubs_reach (ms : list (Method * (call → err))) (srv : Debugger_Server call err) (impl : call → err)
    (params : bool) :
  NoDup (ids ms) →
  Forall (λ i, i.1 ∉ [Debugger_TypeID; Snapshotter_TypeID; Sampler_TypeID; Sampler_Writer_TypeID; Echoer_TypeID;
                      Streamer_TypeID]) (ids ms) →
  select (Debugger_Methods ms srv) (Send_Method (Debugger_SysInfo params)) = Some (dbg_SysInfo srv) ∧
  select (Debugger_Methods ms srv) (Send_Method (Debugger_EnvVars params)) = Some (dbg_EnvVars srv) ∧
  select (Debugger_Methods ms srv) (Send_Method (Debugger_Profiler params)) = Some (dbg_Profiler srv) ∧
  select (Debugger_Methods ms srv) (Send_Method (Debugger_Tracer params)) = Some (dbg_Tracer srv) ∧
  select (Snapshotter_Methods ms impl) (Send_Method (Snapshotter_Snapshot params)) = Some impl ∧
  select (Sampler_Methods ms impl) (Send_Method (Sampler_Sample params)) = Some impl ∧
  select (Sampler_Writer_Methods ms impl) (Send_Method (Sampler_Writer_Write params)) = Some impl ∧
  select (Echoer_Methods ms impl) (Send_Method (Echoer_Echo params)) = Some impl ∧
  select (Streamer_Methods ms impl) (Send_Method (Streamer_Recv params)) = Some impl.
Proof.
  intros Hnd Hother. assert (∀ T, T ∈ [Debugger_TypeID; Snapshotter_TypeID; Sampler_TypeID; Sampler_Writer_TypeID;
    Echoer_TypeID; Streamer_TypeID] → Forall (λ i, i.1 ≠ T) (ids ms)) as HT.
  { intros T HT. eapply Forall_impl; [exact Hother|]. intros i Hi Heq. apply Hi. by rewrite Heq. }
  assert (∀ T rows m f, T ∈ [Debugger_TypeID; Snapshotter_TypeID; Sampler_TypeID; Sampler_Writer_TypeID;
    Echoer_TypeID; Streamer_TypeID] → bool_decide (NoDup (ids rows)) = true → Forall (λ r, InterfaceID r.1 = T) rows →
    (m, f) ∈ rows → select (ms ++ rows) m = Some f) as Hsel.
  { intros T rows m f H1 H2%bool_decide_eq_true H3 H4. by apply (select_appended ms rows T); auto. }
  split_and!; (eapply Hsel; [|vm_compute; reflexivity|repeat constructor|]); set_solver.
Qed.
End reach.

(** ** Names *)

(** A profile is printed and parsed back: the seven profiles have distinct names, which
    are read as the profiles they name; other numbers print as the empty string and other
    strings, the empty one included, are read as the processor profile. *)
Theorem profile_roundtrip :
  (∀ c, 0 ≤ c ≤ 6 → ProfileFromString (Profile_String c) = c) ∧
  (∀ c, c < 0 ∨ 6 < c → Profile_String c = [] ∧ ProfileFromString (Profile_String c) = Profile_cpu) ∧
  (∀ b, ProfileFromString b ≠ Profile_cpu → Profile_String (ProfileFromString b) = b).
Proof.
  split; [|split].
  - intros c Hc. assert (c ∈ [0; 1; 2; 3; 4; 5; 6]) as Hin by (rewrite !elem_of_cons, elem_of_nil; lia).
    repeat (apply elem_of_cons in Hin as [->|Hin]; [reflexivity|]). by apply elem_of_nil in Hin.
  - intros c Hc. assert (Profile_String c = []) as ->; [|done]. unfold Profile_String.
    repeat (rewrite (proj2 (Z.eqb_neq _ _)) by (vm_compute Profile_cpu; unfold Profile_cpu, Profile_allocs, Profile_block,
      Profile_goroutine, Profile_heap, Profile_mutex, Profile_threadcreate; lia)). done.
  - intros b. unfold ProfileFromString.
    repeat (destruct (bytes_eqb b _) eqn:Hb; [apply bool_decide_eq_true in Hb as ->; intros _; reflexivity|clear Hb]). done.
Qed.

(** ** Concrete messages *)
#[local] Existing Instances Toy.toy_capnp Toy.toy_laws.

Definition toy_os : Toy.mem := new_of (NewOSInfo (E:=unit) Toy.empty).
Definition toy_accs : list (accessor (E:=unit) (M:=Toy.mem) (S:=nat)) := (nth 6 structs (mkSize 0 0, [])).2.
Definition toy_uid : accessor (E:=unit) (M:=Toy.mem) (S:=nat) :=
  mkAcc (mkField (KInt 8 16 false) (Some (8, 1))) (int_getter OSInfo_user_uid_Numeric)
    (int_setter OSInfo_user_uid_SetNumeric).

(** The numeric user id of an [OSInfo]. *)
Lemma bindings_are_lenses_witness :
  ∃ m', OSInfo_user_uid_SetNumeric (E:=unit) 1%nat 1000 toy_os = Ret m' ∧
    int_getter (E:=unit) OSInfo_user_uid_Numeric m' 1%nat = Ret (VInt 1000).
Proof.
  eexists. split; [reflexivity|].
  refine (proj1 (bindings_are_lenses Toy.views OSInfo_size toy_accs 7 toy_uid 1%nat (VInt 1000) toy_os _
    _ eq_refl eq_refl I)).
  apply (list_elem_of_lookup_2 _ 6). reflexivity.
Defined.

Lemma setters_in_bounds_witness :
  ∃ m', OSInfo_user_uid_SetNumeric (E:=unit) 1%nat (2 ^ 64 - 1) toy_os = Ret m'.
Proof.
  refine (setters_in_bounds Toy.views OSInfo_size toy_accs 7 toy_uid 1%nat (VInt (2 ^ 64 - 1)) toy_os
    _ eq_refl _ eq_refl eq_refl).
  - apply (list_elem_of_lookup_2 _ 6). reflexivity.
  - cbn. lia.
Defined.

(** A [SysInfo] with its runtime. *)
Definition toy_sys : Toy.mem :=
  mem_of (p <~ NewSysInfo (E:=unit) Toy.empty ;; q <~ SysInfo_NewRuntime (fst p) (snd p) ;; Ret (snd q)).

Lemma promises_agree_witness :
  SysInfo_Runtime (E:=unit) toy_sys 1%nat = Ret 2%nat ∧
  resolve (E:=unit) toy_sys 1%nat (SysInfo_Future_Runtime []) = Ret 2%nat.
Proof.
  split; [reflexivity|].
  refine (promises_agree (E:=unit) SysInfo_Future_Runtime SysInfo_Runtime toy_sys 1%nat 1%nat 2%nat [] _ _ _).
  - apply (list_elem_of_lookup_2 _ 1). reflexivity.
  - reflexivity.
  - reflexivity.
Defined.

Lemma debug_stubs_reach_witness :
  let srv := mkDebuggerServer (λ n : Z, n + 1) (λ n, n + 2) (λ n, n + 3) (λ n, n + 4) in
  find_method (Debugger_Methods [] srv) (Send_Method (Debugger_Profiler true)) = Some (dbg_Profiler srv).
Proof.
  intros srv.
  exact (proj1 (proj2 (proj2 (debug_stubs_reach find_method find_method_law [] srv (λ n, n) true
    NoDup_nil_2 (Forall_nil_2 _))))).
Defined.
