(* ===== verification/Schemas.v ===== *)
(** * Schemas and typed lists of the bindings ([src/internal/api])

    Every file of bindings registers the schema it was generated from under the ids of its
    nodes ([RegisterSchema]), and every struct prints itself by looking its type id up among
    the registered schemas ([String]).  Every struct type has a constructor of lists, which
    has to allocate elements of the size of the struct.

    The registry and the lists of the Cap'n Proto library are the interfaces [Registry] and
    [CompositeLists]; tables of all schemas, types and lists state the properties once for
    all rows. *)

From stdpp Require Import base list gmap strings.
From Stdlib Require Import ZArith Lia.
From S2P Require Import Prelude Capnp Api Bindings.

Open Scope Z_scope.

(** ** Schemas: the ids of their nodes *)
Definition debug_RegisterSchema : list Z :=
  [0x824eafd52229a594; 0x83db2441501729b0; 0x8a7b0758ee0ddecb; 0x8e15524f9d7d00dd; 0x8fdb5f6d26c5dc7d;
   0x95d1c46932719c75; 0x99709cf2f55a9742; 0xa78273130755c2b8; 0xaaf96929f804b361; 0xaf1f635ea04daf65;
   0xb0d6060017654bb5; 0xb7089c9e44bf69bc; 0xbad68cb175d6ef9e; 0xc24c1801396ca74c; 0xca4856ba299657e7;
   0xca6d27d101913471; 0xcb9867bf09c9fd97; 0xd19693a973f6d246; 0xd9d25e11d54da126; 0xdef7de19d8fdbf8d;
   0xdfdba19e4a7c94f1; 0xe5abfacae53c612f; 0xe9c5e5ae3dbeef0f; 0xf9a6bfc943cf37b8].
Definition testing_RegisterSchema : list Z :=
  [0x87f59ceaa25ddecc; 0x97878b56a59dadff; 0xa46d5fd1187fd6ee; 0xef96789c0d60cd00; 0xf01f1821166adede].
Definition routing_RegisterSchema : list Z :=
  [0x81107838ed1339e2; 0x83bca0e4d70e0e82; 0x8b8f9a8dbc645c7a; 0x92dd7cf694dc2a0d; 0x9321a2d72dff5f08;
   0x9764ff97950b0e11; 0x9bbf333a5450f2d0; 0xb06e55bb4d9bb7e2; 0xb8cc1b0ba89ddfd2; 0xb999cf53764e76ae;
   0xc390eec5b4e4aaef; 0xdb1aee7a06a493b6; 0xf107ba55f0ab3244; 0xf155c3664dada7ff; 0xf8eb7e44ba7b1fa8].
Definition boot_RegisterSchema : list Z :=
  [0x82cca408afabd7c4; 0xb1db81b845eb3a2f; 0xc84d656f17f92c4e; 0xe12a1e555ca80e30].
Definition pex_RegisterSchema : list Z :=
  [0xfcef4b0e93332397].

(** ** Type ids *)
Definition Profile_TypeID : Z := 0x8fdb5f6d26c5dc7d.
Definition Debugger_sysInfo_Params_TypeID : Z := 0xe5abfacae53c612f.
Definition Debugger_sysInfo_Results_TypeID : Z := 0x824eafd52229a594.
Definition Debugger_envVars_Params_TypeID : Z := 0x83db2441501729b0.
Definition Debugger_envVars_Results_TypeID : Z := 0xb0d6060017654bb5.
Definition Debugger_profiler_Params_TypeID : Z := 0x8a7b0758ee0ddecb.
Definition Debugger_profiler_Results_TypeID : Z := 0x95d1c46932719c75.
Definition Debugger_tracer_Params_TypeID : Z := 0xaaf96929f804b361.
Definition Debugger_tracer_Results_TypeID : Z := 0xf9a6bfc943cf37b8.
Definition SysInfo_TypeID : Z := 0xb7089c9e44bf69bc.
Definition RuntimeInfo_TypeID : Z := 0xd19693a973f6d246.
Definition OSInfo_TypeID : Z := 0xa78273130755c2b8.
Definition Snapshotter_snapshot_Params_TypeID : Z := 0xdfdba19e4a7c94f1.
Definition Snapshotter_snapshot_Results_TypeID : Z := 0x8e15524f9d7d00dd.
Definition Sampler_Writer_write_Params_TypeID : Z := 0xe9c5e5ae3dbeef0f.
Definition Sampler_sample_Params_TypeID : Z := 0xd9d25e11d54da126.
Definition Sampler_sample_Results_TypeID : Z := 0xca4856ba299657e7.
Definition Echoer_echo_Params_TypeID : Z := 0x97878b56a59dadff.
Definition Echoer_echo_Results_TypeID : Z := 0xa46d5fd1187fd6ee.
Definition Streamer_recv_Params_TypeID : Z := 0xf01f1821166adede.
Definition Heartbeat_TypeID : Z := 0x83bca0e4d70e0e82.
Definition View_Handler_recv_Params_TypeID : Z := 0xf155c3664dada7ff.
Definition View_Selector_TypeID : Z := 0xf8eb7e44ba7b1fa8.
Definition View_Constraint_TypeID : Z := 0x92dd7cf694dc2a0d.
Definition View_Index_TypeID : Z := 0xdb1aee7a06a493b6.
Definition View_Record_TypeID : Z := 0xc390eec5b4e4aaef.
Definition View_MaybeRecord_TypeID : Z := 0xf107ba55f0ab3244.
Definition View_lookup_Params_TypeID : Z := 0xb06e55bb4d9bb7e2.
Definition View_lookup_Results_TypeID : Z := 0x9bbf333a5450f2d0.
Definition View_iter_Params_TypeID : Z := 0x8b8f9a8dbc645c7a.
Definition View_iter_Results_TypeID : Z := 0x9764ff97950b0e11.
Definition View_reverse_Params_TypeID : Z := 0x81107838ed1339e2.
Definition View_reverse_Results_TypeID : Z := 0xb999cf53764e76ae.
Definition Packet_TypeID : Z := 0xe12a1e555ca80e30.
Definition Gossip_TypeID : Z := 0xfcef4b0e93332397.

(** ** Printing

    [text_Marshal reg id m s] fails when the schema of [id] is not registered; the error is
    dropped and the string is then empty. *)
Section printing.
Context {R M S : Type} (text_Marshal : R → Z → M → S → option bytes) (reg : R).

Definition Debugger_sysInfo_Params_String m s : bytes := default [] (text_Marshal reg 0xe5abfacae53c612f m s).
Definition Debugger_sysInfo_Results_String m s : bytes := default [] (text_Marshal reg 0x824eafd52229a594 m s).
Definition Debugger_envVars_Params_String m s : bytes := default [] (text_Marshal reg 0x83db2441501729b0 m s).
Definition Debugger_envVars_Results_String m s : bytes := default [] (text_Marshal reg 0xb0d6060017654bb5 m s).
Definition Debugger_profiler_Params_String m s : bytes := default [] (text_Marshal reg 0x8a7b0758ee0ddecb m s).
Definition Debugger_profiler_Results_String m s : bytes := default [] (text_Marshal reg 0x95d1c46932719c75 m s).
Definition Debugger_tracer_Params_String m s : bytes := default [] (text_Marshal reg 0xaaf96929f804b361 m s).
Definition Debugger_tracer_Results_String m s : bytes := default [] (text_Marshal reg 0xf9a6bfc943cf37b8 m s).
Definition SysInfo_String m s : bytes := default [] (text_Marshal reg 0xb7089c9e44bf69bc m s).
Definition RuntimeInfo_String m s : bytes := default [] (text_Marshal reg 0xd19693a973f6d246 m s).
Definition OSInfo_String m s : bytes := default [] (text_Marshal reg 0xa78273130755c2b8 m s).
Definition Snapshotter_snapshot_Params_String m s : bytes := default [] (text_Marshal reg 0xdfdba19e4a7c94f1 m s).
Definition Snapshotter_snapshot_Results_String m s : bytes := default [] (text_Marshal reg 0x8e15524f9d7d00dd m s).
Definition Sampler_Writer_write_Params_String m s : bytes := default [] (text_Marshal reg 0xe9c5e5ae3dbeef0f m s).
Definition Sampler_sample_Params_String m s : bytes := default [] (text_Marshal reg 0xd9d25e11d54da126 m s).
Definition Sampler_sample_Results_String m s : bytes := default [] (text_Marshal reg 0xca4856ba299657e7 m s).
Definition Echoer_echo_Params_String m s : bytes := default [] (text_Marshal reg 0x97878b56a59dadff m s).
Definition Echoer_echo_Results_String m s : bytes := default [] (text_Marshal reg 0xa46d5fd1187fd6ee m s).
Definition Streamer_recv_Params_String m s : bytes := default [] (text_Marshal reg 0xf01f1821166adede m s).
Definition Heartbeat_String m s : bytes := default [] (text_Marshal reg 0x83bca0e4d70e0e82 m s).
Definition View_Handler_recv_Params_String m s : bytes := default [] (text_Marshal reg 0xf155c3664dada7ff m s).
Definition View_Selector_String m s : bytes := default [] (text_Marshal reg 0xf8eb7e44ba7b1fa8 m s).
Definition View_Constraint_String m s : bytes := default [] (text_Marshal reg 0x92dd7cf694dc2a0d m s).
Definition View_Index_String m s : bytes := default [] (text_Marshal reg 0xdb1aee7a06a493b6 m s).
Definition View_Record_String m s : bytes := default [] (text_Marshal reg 0xc390eec5b4e4aaef m s).
Definition View_MaybeRecord_String m s : bytes := default [] (text_Marshal reg 0xf107ba55f0ab3244 m s).
Definition View_lookup_Params_String m s : bytes := default [] (text_Marshal reg 0xb06e55bb4d9bb7e2 m s).
Definition View_lookup_Results_String m s : bytes := default [] (text_Marshal reg 0x9bbf333a5450f2d0 m s).
Definition View_iter_Params_String m s : bytes := default [] (text_Marshal reg 0x8b8f9a8dbc645c7a m s).
Definition View_iter_Results_String m s : bytes := default [] (text_Marshal reg 0x9764ff97950b0e11 m s).
Definition View_reverse_Params_String m s : bytes := default [] (text_Marshal reg 0x81107838ed1339e2 m s).
Definition View_reverse_Results_String m s : bytes := default [] (text_Marshal reg 0xb999cf53764e76ae m s).
Definition Packet_String m s : bytes := default [] (text_Marshal reg 0xe12a1e555ca80e30 m s).
Definition Gossip_String m s : bytes := default [] (text_Marshal reg 0xfcef4b0e93332397 m s).

(** Every struct with its type id. *)
Definition strings : list (Z * (M → S → bytes)) :=
  [(Debugger_sysInfo_Params_TypeID, Debugger_sysInfo_Params_String);
   (Debugger_sysInfo_Results_TypeID, Debugger_sysInfo_Results_String);
   (Debugger_envVars_Params_TypeID, Debugger_envVars_Params_String);
   (Debugger_envVars_Results_TypeID, Debugger_envVars_Results_String);
   (Debugger_profiler_Params_TypeID, Debugger_profiler_Params_String);
   (Debugger_profiler_Results_TypeID, Debugger_profiler_Results_String);
   (Debugger_tracer_Params_TypeID, Debugger_tracer_Params_String);
   (Debugger_tracer_Results_TypeID, Debugger_tracer_Results_String);
   (SysInfo_TypeID, SysInfo_String);
   (RuntimeInfo_TypeID, RuntimeInfo_String);
   (OSInfo_TypeID, OSInfo_String);
   (Snapshotter_snapshot_Params_TypeID, Snapshotter_snapshot_Params_String);
   (Snapshotter_snapshot_Results_TypeID, Snapshotter_snapshot_Results_String);
   (Sampler_Writer_write_Params_TypeID, Sampler_Writer_write_Params_String);
   (Sampler_sample_Params_TypeID, Sampler_sample_Params_String);
   (Sampler_sample_Results_TypeID, Sampler_sample_Results_String);
   (Echoer_echo_Params_TypeID, Echoer_echo_Params_String);
   (Echoer_echo_Results_TypeID, Echoer_echo_Results_String);
   (Streamer_recv_Params_TypeID, Streamer_recv_Params_String);
   (Heartbeat_TypeID, Heartbeat_String);
   (View_Handler_recv_Params_TypeID, View_Handler_recv_Params_String);
   (View_Selector_TypeID, View_Selector_String);
   (View_Constraint_TypeID, View_Constraint_String);
   (View_Index_TypeID, View_Index_String);
   (View_Record_TypeID, View_Record_String);
   (View_MaybeRecord_TypeID, View_MaybeRecord_String);
   (View_lookup_Params_TypeID, View_lookup_Params_String);
   (View_lookup_Results_TypeID, View_lookup_Results_String);
   (View_iter_Params_TypeID, View_iter_Params_String);
   (View_iter_Results_TypeID, View_iter_Results_String);
   (View_reverse_Params_TypeID, View_reverse_Params_String);
   (View_reverse_Results_TypeID, View_reverse_Results_String);
   (Packet_TypeID, Packet_String);
   (Gossip_TypeID, Gossip_String)].
End printing.

(** All type ids, of structs, enums and interfaces. *)
Definition type_ids : list Z :=
  [Profile_TypeID; Debugger_TypeID; Debugger_sysInfo_Params_TypeID;
   Debugger_sysInfo_Results_TypeID; Debugger_envVars_Params_TypeID; Debugger_envVars_Results_TypeID;
   Debugger_profiler_Params_TypeID; Debugger_profiler_Results_TypeID; Debugger_tracer_Params_TypeID;
   Debugger_tracer_Results_TypeID; SysInfo_TypeID; RuntimeInfo_TypeID;
   OSInfo_TypeID; Snapshotter_TypeID; Snapshotter_snapshot_Params_TypeID;
   Snapshotter_snapshot_Results_TypeID; Sampler_TypeID; Sampler_Writer_TypeID;
   Sampler_Writer_write_Params_TypeID; Sampler_sample_Params_TypeID; Sampler_sample_Results_TypeID;
   Echoer_TypeID; Echoer_echo_Params_TypeID; Echoer_echo_Results_TypeID;
   Streamer_TypeID; Streamer_recv_Params_TypeID; Heartbeat_TypeID;
   View_TypeID; View_Handler_TypeID; View_Handler_recv_Params_TypeID;
   View_Selector_TypeID; View_Constraint_TypeID; View_Index_TypeID;
   View_Record_TypeID; View_MaybeRecord_TypeID; View_lookup_Params_TypeID;
   View_lookup_Results_TypeID; View_iter_Params_TypeID; View_iter_Results_TypeID;
   View_reverse_Params_TypeID; View_reverse_Results_TypeID; Packet_TypeID;
   Gossip_TypeID].

Definition schemas : list (list Z) :=
  [debug_RegisterSchema; testing_RegisterSchema; routing_RegisterSchema; boot_RegisterSchema; pex_RegisterSchema].

(** ** Lists *)

(** A composite list is a list of structs laid out one after the other. *)
Class CompositeLists (E M S : Type) := {
  NewCompositeList : ObjectSize → Z → M → outcome E (S * M);
  At : S → Z → S }.

Section lists.
Context {E M S P : Type} `{!Capnp E M S P} `{!CompositeLists E M S}.

Definition NewDebugger_sysInfo_Params_List (n : Z) m : outcome E (S * M) := NewCompositeList (mkSize 0 0) n m.
Definition NewDebugger_sysInfo_Results_List (n : Z) m : outcome E (S * M) := NewCompositeList (mkSize 0 1) n m.
Definition NewDebugger_envVars_Params_List (n : Z) m : outcome E (S * M) := NewCompositeList (mkSize 0 0) n m.
Definition NewDebugger_envVars_Results_List (n : Z) m : outcome E (S * M) := NewCompositeList (mkSize 0 1) n m.
Definition NewDebugger_profiler_Params_List (n : Z) m : outcome E (S * M) := NewCompositeList (mkSize 8 0) n m.
Definition NewDebugger_profiler_Results_List (n : Z) m : outcome E (S * M) := NewCompositeList (mkSize 0 1) n m.
Definition NewDebugger_tracer_Params_List (n : Z) m : outcome E (S * M) := NewCompositeList (mkSize 0 0) n m.
Definition NewDebugger_tracer_Results_List (n : Z) m : outcome E (S * M) := NewCompositeList (mkSize 0 1) n m.
Definition NewSysInfo_List (n : Z) m : outcome E (S * M) := NewCompositeList (mkSize 0 4) n m.
Definition NewRuntimeInfo_List (n : Z) m : outcome E (S * M) := NewCompositeList (mkSize 8 3) n m.
Definition NewOSInfo_List (n : Z) m : outcome E (S * M) := NewCompositeList (mkSize 32 7) n m.
Definition NewSnapshotter_snapshot_Params_List (n : Z) m : outcome E (S * M) := NewCompositeList (mkSize 8 0) n m.
Definition NewSnapshotter_snapshot_Results_List (n : Z) m : outcome E (S * M) := NewCompositeList (mkSize 0 1) n m.
Definition NewSampler_Writer_write_Params_List (n : Z) m : outcome E (S * M) := NewCompositeList (mkSize 0 1) n m.
Definition NewSampler_sample_Params_List (n : Z) m : outcome E (S * M) := NewCompositeList (mkSize 8 1) n m.
Definition NewSampler_sample_Results_List (n : Z) m : outcome E (S * M) := NewCompositeList (mkSize 0 0) n m.
Definition NewEchoer_echo_Params_List (n : Z) m : outcome E (S * M) := NewCompositeList (mkSize 0 1) n m.
Definition NewEchoer_echo_Results_List (n : Z) m : outcome E (S * M) := NewCompositeList (mkSize 0 1) n m.
Definition NewStreamer_recv_Params_List (n : Z) m : outcome E (S * M) := NewCompositeList (mkSize 0 0) n m.
Definition NewHeartbeat_List (n : Z) m : outcome E (S * M) := NewCompositeList (mkSize 16 2) n m.
Definition NewView_Handler_recv_Params_List (n : Z) m : outcome E (S * M) := NewCompositeList (mkSize 0 1) n m.
Definition NewView_Selector_List (n : Z) m : outcome E (S * M) := NewCompositeList (mkSize 8 1) n m.
Definition NewView_Constraint_List (n : Z) m : outcome E (S * M) := NewCompositeList (mkSize 16 1) n m.
Definition NewView_Index_List (n : Z) m : outcome E (S * M) := NewCompositeList (mkSize 8 1) n m.
Definition NewView_Record_List (n : Z) m : outcome E (S * M) := NewCompositeList (mkSize 16 2) n m.
Definition NewView_MaybeRecord_List (n : Z) m : outcome E (S * M) := NewCompositeList (mkSize 8 1) n m.
Definition NewView_lookup_Params_List (n : Z) m : outcome E (S * M) := NewCompositeList (mkSize 0 2) n m.
Definition NewView_lookup_Results_List (n : Z) m : outcome E (S * M) := NewCompositeList (mkSize 0 1) n m.
Definition NewView_iter_Params_List (n : Z) m : outcome E (S * M) := NewCompositeList (mkSize 0 3) n m.
Definition NewView_iter_Results_List (n : Z) m : outcome E (S * M) := NewCompositeList (mkSize 0 0) n m.
Definition NewView_reverse_Params_List (n : Z) m : outcome E (S * M) := NewCompositeList (mkSize 0 0) n m.
Definition NewView_reverse_Results_List (n : Z) m : outcome E (S * M) := NewCompositeList (mkSize 0 1) n m.
Definition NewPacket_List (n : Z) m : outcome E (S * M) := NewCompositeList (mkSize 8 3) n m.
Definition NewGossip_List (n : Z) m : outcome E (S * M) := NewCompositeList (mkSize 8 1) n m.

(** Lists of capabilities are lists of pointers. *)
Definition NewDebugger_List (n : Z) m : outcome E (S * M) := NewList n m.
Definition NewSnapshotter_List (n : Z) m : outcome E (S * M) := NewList n m.
Definition NewSampler_List (n : Z) m : outcome E (S * M) := NewList n m.
Definition NewSampler_Writer_List (n : Z) m : outcome E (S * M) := NewList n m.
Definition NewEchoer_List (n : Z) m : outcome E (S * M) := NewList n m.
Definition NewStreamer_List (n : Z) m : outcome E (S * M) := NewList n m.
Definition NewView_List (n : Z) m : outcome E (S * M) := NewList n m.
Definition NewView_Handler_List (n : Z) m : outcome E (S * M) := NewList n m.

Definition View_lookup_Params_NewConstraints s (n : Z) m : outcome E (S * M) :=
  p <~ NewView_Constraint_List n m ;; m' <~ SetPtr s 1 (ToPtr (fst p)) (snd p) ;; Ret (fst p, m').
Definition View_iter_Params_NewConstraints s (n : Z) m : outcome E (S * M) :=
  p <~ NewView_Constraint_List n m ;; m' <~ SetPtr s 2 (ToPtr (fst p)) (snd p) ;; Ret (fst p, m').

(** Every struct type with the constructor of its lists. *)
Definition struct_lists : list (ObjectSize * (Z → M → outcome E (S * M))) :=
  [(Debugger_sysInfo_Params_size, NewDebugger_sysInfo_Params_List);
   (Debugger_sysInfo_Results_size, NewDebugger_sysInfo_Results_List);
   (Debugger_envVars_Params_size, NewDebugger_envVars_Params_List);
   (Debugger_envVars_Results_size, NewDebugger_envVars_Results_List);
   (Debugger_profiler_Params_size, NewDebugger_profiler_Params_List);
   (Debugger_profiler_Results_size, NewDebugger_profiler_Results_List);
   (Debugger_tracer_Params_size, NewDebugger_tracer_Params_List);
   (Debugger_tracer_Results_size, NewDebugger_tracer_Results_List);
   (SysInfo_size, NewSysInfo_List);
   (RuntimeInfo_size, NewRuntimeInfo_List);
   (OSInfo_size, NewOSInfo_List);
   (Snapshotter_snapshot_Params_size, NewSnapshotter_snapshot_Params_List);
   (Snapshotter_snapshot_Results_size, NewSnapshotter_snapshot_Results_List);
   (Sampler_Writer_write_Params_size, NewSampler_Writer_write_Params_List);
   (Sampler_sample_Params_size, NewSampler_sample_Params_List);
   (Sampler_sample_Results_size, NewSampler_sample_Results_List);
   (Echoer_echo_Params_size, NewEchoer_echo_Params_List);
   (Echoer_echo_Results_size, NewEchoer_echo_Results_List);
   (Streamer_recv_Params_size, NewStreamer_recv_Params_List);
   (Heartbeat_size, NewHeartbeat_List);
   (View_Handler_recv_Params_size, NewView_Handler_recv_Params_List);
   (View_Selector_size, NewView_Selector_List);
   (View_Constraint_size, NewView_Constraint_List);
   (View_Index_size, NewView_Index_List);
   (View_Record_size, NewView_Record_List);
   (View_MaybeRecord_size, NewView_MaybeRecord_List);
   (View_lookup_Params_size, NewView_lookup_Params_List);
   (View_lookup_Results_size, NewView_lookup_Results_List);
   (View_iter_Params_size, NewView_iter_Params_List);
   (View_iter_Results_size, NewView_iter_Results_List);
   (View_reverse_Params_size, NewView_reverse_Params_List);
   (View_reverse_Results_size, NewView_reverse_Results_List);
   (Packet_size, NewPacket_List);
   (Gossip_size, NewGossip_List)].
End lists.

(** ** What is relied on *)

(** [Register] indexes a schema; "it is an error to register schemas with overlapping
    IDs". *)
Class Registry (R : Type) := {
  reg_Register : list Z → R → option R;
  reg_knows : R → Z → bool }.

Class RegistryLaws (R : Type) `{Registry R} : Prop :=
  register_ok (r : R) (nodes : list Z) :
    NoDup nodes → (∀ n, n ∈ nodes → reg_knows r n = false) →
    ∃ r', reg_Register nodes r = Some r' ∧ ∀ n, reg_knows r' n = bool_decide (n ∈ nodes) || reg_knows r n.

(** The elements of a new list are new structs of the given size, all different, and
    nothing else changes. *)
Class CompositeLaws (E M S P : Type) `{!Capnp E M S P} `{!CompositeLists E M S} (V : Views E M S P) : Prop := {
  composite_elements sz n m l m' i : NewCompositeList sz n m = Ret (l, m') → 0 ≤ i < n →
    live V m' (At l i) ∧ ¬ live V m (At l i) ∧ size V m' (At l i) = sz ∧
    (∀ j, byte V m' (At l i) j = 0) ∧ (∀ j, slot V m' (At l i) j = Ret PNull);
  composite_list sz n m l m' : NewCompositeList sz n m = Ret (l, m') → live V m' l;
  composite_distinct sz n m l m' i j : NewCompositeList sz n m = Ret (l, m') →
    0 ≤ i < n → 0 ≤ j < n → At l i = At l j → i = j;
  composite_keeps sz n m l m' s : NewCompositeList sz n m = Ret (l, m') → live V m s →
    live V m' s ∧ size V m' s = size V m s ∧ (∀ j, byte V m' s j = byte V m s j) ∧ (∀ j, slot V m' s j = slot V m s j) }.

(** ** Facts *)

(** Registering schemas one after the other. *)
Definition register_all {R} `{Registry R} (ss : list (list Z)) (r : R) : option R :=
  foldl (λ acc nodes, acc ≫= reg_Register nodes) (Some r) ss.

Lemma register_all_ok {R} `{RegistryLaws R} (ss : list (list Z)) (r : R) :
  NoDup (mjoin ss) → (∀ n, n ∈ mjoin ss → reg_knows r n = false) →
  ∃ r', register_all ss r = Some r' ∧ ∀ n, reg_knows r' n = bool_decide (n ∈ mjoin ss) || reg_knows r n.
Proof.
  revert r. induction ss as [|s ss IH]; intros r Hnd Hk; [by exists r|]. change (mjoin (s :: ss)) with (s ++ mjoin ss) in *.
  apply NoDup_app in Hnd as (Hs & Hdis & Hss).
  destruct (register_ok r s Hs) as (r1 & H1 & Hk1); [intros n Hn; apply Hk, elem_of_app; by left|].
  destruct (IH r1 Hss) as (r' & Hr' & Hk').
  { intros n Hn. rewrite Hk1, (Hk n) by (apply elem_of_app; by right). rewrite bool_decide_false; [done|].
    intros Hin. by apply (Hdis n Hin). }
  exists r'. unfold register_all in *. cbn. rewrite H1. split; [done|]. intros n. rewrite Hk', Hk1.
  rewrite (bool_decide_ext (n ∈ s ++ mjoin ss) (n ∈ s ∨ n ∈ mjoin ss)) by apply elem_of_app.
  rewrite bool_decide_or. by destruct (bool_decide (n ∈ s)), (bool_decide (n ∈ mjoin ss)).
Qed.

Lemma schemas_disjoint : NoDup (mjoin schemas).
Proof. apply (bool_decide_eq_true_1 _). vm_compute. reflexivity. Qed.

Lemma types_have_nodes : Forall (λ id, id ∈ mjoin schemas) type_ids.
Proof. apply (bool_decide_eq_true_1 _). vm_compute. reflexivity. Qed.

(** ** Properties *)

(** Every value of the bindings can be printed: the five schemas have no node in common, so
    that they can be registered together in any order, and the type id under which each
    struct looks up its schema is its own and is registered then. *)
Theorem schemas_register {R M S : Type} `{RegistryLaws R} (text_Marshal : R → Z → M → S → option bytes)
    (reg : R) (order : list (list Z)) :
  (∀ n, reg_knows reg n = false) → order ≡ₚ schemas →
  ∃ reg', register_all order reg = Some reg' ∧
    (∀ id, id ∈ type_ids → reg_knows reg' id = true) ∧
    ∀ id print, (id, print) ∈ strings text_Marshal reg' →
      id ∈ type_ids ∧ ∀ m s, print m s = default [] (text_Marshal reg' id m s).
Proof.
  intros Hempty Hperm. assert (mjoin order ≡ₚ mjoin schemas) as Hc by (by apply join_Permutation).
  destruct (register_all_ok order reg) as (reg' & Hr & Hk); [rewrite Hc; apply schemas_disjoint|done|].
  exists reg'. split; [done|]. split.
  - intros id Hid. rewrite Hk, bool_decide_true; [done|]. rewrite Hc.
    pose proof types_have_nodes as Ht. rewrite Forall_forall in Ht. by apply Ht.
  - assert (Forall (λ p, p.1 ∈ type_ids ∧ ∀ m s, p.2 m s = default [] (text_Marshal reg' p.1 m s))
      (strings text_Marshal reg')) as Hall.
    { unfold strings. repeat (apply Forall_cons; split); try apply Forall_nil_2;
        (split; [apply (bool_decide_eq_true_1 _); vm_compute; reflexivity|reflexivity]). }
    rewrite Forall_forall in Hall. intros id print Hin. exact (Hall _ Hin).
Qed.

Section typed.
Context {E M S P : Type} `{!Capnp E M S P} (V : Views E M S P) `{!CapnpLaws E M S P V}.
Context `{!CompositeLists E M S} `{!CompositeLaws E M S P V}.

(** Setting a field of one struct keeps the fields of another. *)
Lemma write_field_other f g s s' v m m' :
  write_field f s v m = Ret m' → storable V m v → s' ≠ s → held V m s' (f_kind g) →
  read_field g m' s' = read_field g m s'.
Proof.
  intros Hw Hst Hne Hh. destruct (write_field_inv V _ _ _ _ _ Hw Hst) as (m1 & Hw1 & Hst1 & Ht).
  assert (∀ m m1, (∀ j, byte V m1 s' j = byte V m s' j) → (∀ i, slot V m1 s' i = slot V m s' i) →
    held V m s' (f_kind g) → held V m1 s' (f_kind g) ∧ read_field g m1 s' = read_field g m s') as Hext.
  { clear -CapnpLaws0. intros m m1 Hb Hs Hh. split.
    - destruct (f_kind g); try done. cbn in *. by rewrite Hs.
    - unfold read_field. rewrite (read_kind_ext V (f_kind g) m m1 s') by (intros; auto).
      destruct (f_tag g) as [[o x]|]; [|done]. by rewrite (uint_ext V 2 m m1 s' o) by auto. }
  destruct (write_kind_upd V _ _ _ _ _ Hw1 Hst1) as (y & _ & Hu1).
  assert (held V m1 s' (f_kind g) ∧ read_field g m1 s' = read_field g m s') as [Hh1 <-].
  { destruct (f_tag f) as [[o x]|]; [|by subst m1]. pose proof (SetUint_upd _ _ _ _ _ _ Ht) as Hu.
    apply Hext; [intros; by apply (upd_byte_other _ _ _ _ _ _ Hu)|intros; by apply (upd_slot_other _ _ _ _ _ _ Hu)|done]. }
  apply Hext; [intros; by apply (upd_byte_other _ _ _ _ _ _ Hu1)|intros; by apply (upd_slot_other _ _ _ _ _ _ Hu1)|done].
Qed.

Lemma struct_lists_ok : Forall (λ p, p.2 = NewCompositeList p.1) (struct_lists (E:=E) (M:=M) (S:=S)).
Proof. repeat (apply Forall_cons; split); try apply Forall_nil_2; reflexivity. Qed.

(** The lists of the bindings hold structs of their types: in a new list of any of the
    struct types every field of every element can be set to an integer and is read back at
    its width, and setting it changes no other element and nothing outside the list. *)
Theorem lists_hold_structs sz (New : Z → M → outcome E (S * M)) (accs : list accessor) n m l m' i a z :
  (sz, New) ∈ struct_lists → (sz, accs) ∈ structs → New n m = Ret (l, m') → 0 ≤ i < n →
  a ∈ accs → typed (S:=S) (f_kind (a_field a)) (VInt z) = true →
  ∃ m'', a_set a (At l i) (VInt z) m' = Ret m'' ∧
    a_get a m'' (At l i) = Ret (norm (f_kind (a_field a)) (VInt z)) ∧
    ∀ b s, b ∈ accs → held V m' s (f_kind (a_field b)) →
      (live V m s ∨ ∃ j, 0 ≤ j < n ∧ j ≠ i ∧ s = At l j) → a_get b m'' s = a_get b m' s.
Proof.
  intros Hl Hst Hnew Hi Ha Ht. pose proof struct_lists_ok as Hlists. rewrite Forall_forall in Hlists.
  specialize (Hlists _ Hl). cbn in Hlists. subst New.
  pose proof structs_ok as Hok. pose proof layouts_ok as Hlay. rewrite Forall_forall in Hok, Hlay.
  specialize (Hok _ Hst). specialize (Hlay _ Hst). cbn in Hok, Hlay. rewrite Forall_forall in Hok.
  destruct (proj1 (list_elem_of_lookup _ _) Ha) as [x Hx]. destruct (layout_lookup sz accs x a Hlay Hx) as [Hin _].
  destruct (composite_elements sz n m l m' i Hnew Hi) as (Hlive & Hfresh & Hsize & _).
  destruct (write_scalar_ok V sz (a_field a) (At l i) (VInt z) m' Hin Hlive Hsize Ht) as [m'' Hw];
    [by destruct (f_kind (a_field a))|].
  destruct (Hok a Ha) as [Hget Hset]. exists m''. rewrite Hset, Hget. split; [done|].
  split; [by apply (write_field_same V sz _ (At l i) (VInt z) m')|].
  intros b s Hb Hh Hs. destruct (Hok b Hb) as [Hgetb _]. rewrite !Hgetb.
  apply (write_field_other (a_field a) _ (At l i) s (VInt z)); [done|done| |done].
  intros ->. destruct Hs as [Hs|(j & Hj & Hne & Heq)]; [done|]. by apply Hne, (composite_distinct sz n m l m').
Qed.
End typed.

(** ** Concrete messages *)
#[local] Existing Instances Toy.toy_capnp Toy.toy_laws.

(** A registry is the set of its ids. *)
#[local] Instance toy_registry : Registry (gset Z) := {
  reg_Register nodes r := if decide (NoDup nodes ∧ Forall (λ n, n ∉ r) nodes) then Some (list_to_set nodes ∪ r) else None;
  reg_knows r n := bool_decide (n ∈ r) }.

#[local] Instance toy_registry_laws : RegistryLaws (gset Z).
Proof.
  intros r nodes Hnd Hk. cbn. rewrite decide_True.
  - eexists. split; [done|]. intros n.
    rewrite (bool_decide_ext (n ∈ list_to_set nodes ∪ r) (n ∈ nodes ∨ n ∈ r)) by set_solver.
    by rewrite bool_decide_or.
  - split; [done|]. apply Forall_forall. intros n Hn. specialize (Hk n Hn). by apply bool_decide_eq_false in Hk.
Qed.

Lemma schemas_register_witness :
  ∃ reg', register_all (rev schemas) (∅ : gset Z) = Some reg' ∧ reg_knows reg' View_Record_TypeID = true ∧
    View_Record_String (λ r id (m s : unit), if reg_knows r id then Some (bs "v") else None) reg' tt tt = bs "v".
Proof.
  destruct (schemas_register (R := gset Z) (λ r id (m s : unit), if reg_knows r id then Some (bs "v") else None) ∅ (rev schemas))
    as (reg' & Hr & Hk & Hs).
  - intros n. reflexivity.
  - symmetry. apply Permutation_rev.
  - exists reg'. split; [exact Hr|]. assert (reg_knows reg' View_Record_TypeID = true) as Hv.
    { apply Hk. apply (bool_decide_eq_true_1 _). vm_compute. reflexivity. }
    split; [exact Hv|]. unfold View_Record_String. change 0xc390eec5b4e4aaef with View_Record_TypeID. by rewrite Hv.
Defined.

(** The elements of a list are allocated after it. *)
#[local] Instance toy_lists {E} : CompositeLists E Toy.mem nat := {
  NewCompositeList sz n m :=
    let l := S (Toy.m_next m) in let k := Z.to_nat n in
    Ret (l, Toy.mkMem (l + k) (Toy.m_root m)
              (λ s, if decide (l ≤ s ≤ l + k)%nat then Toy.mkObj sz 0 (λ _, 0) (λ _, PNull) else Toy.m_objs m s));
  At l i := (l + 1 + Z.to_nat i)%nat }.

#[local] Instance toy_lists_laws {E} : CompositeLaws E Toy.mem nat (pv nat) Toy.views.
Proof.
  split.
  - intros sz n m l m' i [= <- <-] Hi. cbn. rewrite decide_True by lia. cbn. split_and!; try done; lia.
  - intros sz n m l m' [= <- <-]. cbn. lia.
  - intros sz n m l m' i j [= <- <-] Hi Hj. cbn. lia.
  - intros sz n m l m' s [= <- <-] Hs. cbn in *. rewrite decide_False by lia. split_and!; try done; lia.
Qed.

Definition toy_records : Toy.mem := new_of (NewView_Record_List (E:=unit) 2 Toy.empty).

(** The sequence number of the second record of a list of two. *)
Lemma lists_hold_structs_witness :
  ∃ m'', NewView_Record_List (E:=unit) 2 Toy.empty = Ret (1%nat, toy_records) ∧
    View_Record_SetSeq (E:=unit) 3%nat 7 toy_records = Ret m'' ∧ View_Record_Seq (E:=unit) m'' 3%nat = 7.
Proof.
  destruct (lists_hold_structs (E:=unit) Toy.views View_Record_size NewView_Record_List
    (nth 19 structs (mkSize 0 0, [])).2
    2 Toy.empty 1%nat toy_records 1
    (mkAcc (mkField (KInt 8 8 false) None) (int_getter (λ m s, Ret (View_Record_Seq (E:=unit) m s)))
       (int_setter View_Record_SetSeq)) 7)
    as (m'' & Hset & Hget & _).
  - apply (list_elem_of_lookup_2 _ 24). reflexivity.
  - apply (list_elem_of_lookup_2 _ 19). reflexivity.
  - reflexivity.
  - lia.
  - apply (list_elem_of_lookup_2 _ 2). reflexivity.
  - reflexivity.
  - exists m''. split; [reflexivity|]. split; [exact Hset|]. by injection Hget.
Defined.
