(* ===== verification/Capabilities.v ===== *)
(** * Capabilities in messages ([src/internal/api/routing], [debug]; [src/pkg/cluster/client.go])

    Some fields of the bindings hold a capability: the handler of an [Iter] call, the view a
    [Reverse] call returns, the samplers of the debugger.  A setter puts the client into the
    capability table of the message, which takes over the reference, and stores its index;
    a getter borrows the client from the table, and an invalid client is stored as a null
    pointer.

    The clients and the table of a message are the interface [Caps], with the behaviour the
    comments of the bindings and of the library give ([CapsLaws]). *)

From stdpp Require Import base list gmap strings.
From Stdlib Require Import ZArith Lia.
From S2P Require Import Prelude Capnp Api Bindings Schemas.

Open Scope Z_scope.

(** ** Clients

    [T]: the clients of the process and the capability table of the message, [C]: clients
    (references to capabilities), [P]: pointers. *)
Class Caps (M P C T : Type) := {
  nil_ptr : P;                              (* capnp.Ptr{} *)
  NewInterface : Z → P;                     (* capnp.NewInterface(seg, id).ToPtr() *)
  Interface_Client : T → M → P → C;         (* p.Interface().Client() *)
  CapTable_Add : C → T → Z * T;
  IsValid : T → C → bool;
  AddRef : C → T → C * T;
  Release : C → T → option T }.             (* None: it panics *)

(** [cap t c] is the capability a valid reference denotes, [tab t id] an entry of the table. *)
Record CapViews (C T : Type) := mkCapViews { cap : T → C → option Z; tab : T → Z → option C }.
Arguments mkCapViews {C T} _ _.
Arguments cap {C T} _ _ _.
Arguments tab {C T} _ _ _.

Class CapsLaws (E M S P C T : Type) `{!Capnp E M S P} `{!Caps M P C T} (V : Views E M S P) (K : CapViews C T) : Prop := {
  SetPtr_cap s i id (m m' : M) : SetPtr s i (NewInterface id) m = Ret m' →
    updated V m m' s (byte V m s) (set_at (slot V m s) i (Ret (PCap id)));
  SetPtr_nil s i (m m' : M) : SetPtr s i nil_ptr m = Ret m' →
    updated V m m' s (byte V m s) (set_at (slot V m s) i (Ret PNull));
  Client_cap t (m : M) (p : P) id c : pview V m p = PCap id → tab K t id = Some c → Interface_Client t m p = c;
  Client_null t (m : M) (p : P) : pview V m p = PNull → cap K t (Interface_Client t m p) = None;
  Add_table c t id t' : CapTable_Add c t = (id, t') →
    tab K t id = None ∧ tab K t' id = Some c ∧ (∀ j, j ≠ id → tab K t' j = tab K t j) ∧ ∀ d, cap K t' d = cap K t d;
  IsValid_cap t c : IsValid t c = bool_decide (is_Some (cap K t c));
  AddRef_cap t c c' t' k : cap K t c = Some k → AddRef c t = (c', t') →
    cap K t c' = None ∧ cap K t' c' = Some k ∧ (∀ d, d ≠ c' → cap K t' d = cap K t d) ∧ ∀ j, tab K t' j = tab K t j;
  Release_cap t c k : cap K t c = Some k →
    ∃ t', Release c t = Some t' ∧ cap K t' c = None ∧ (∀ d, d ≠ c → cap K t' d = cap K t d) ∧ ∀ j, tab K t' j = tab K t j }.

(** ** Fields that hold a capability *)
Section fields.
Context {E M S P C T : Type} `{!Capnp E M S P} `{!Caps M P C T}.

(** [p, _ := Ptr(i)]: an error leaves the null pointer. *)
Definition get_cap m t s (i : Z) : C :=
  match Ptr m s i with Ret p => Interface_Client t m p | _ => Interface_Client t m nil_ptr end.

Definition set_cap s (i : Z) (v : C) m t : outcome E (M * T) :=
  if negb (IsValid t v) then m' <~ SetPtr s i nil_ptr m ;; Ret (m', t)
  else let '(id, t') := CapTable_Add v t in m' <~ SetPtr s i (NewInterface id) m ;; Ret (m', t').

Definition Debugger_profiler_Results_Profiler m t s : C := get_cap m t s 0.
Definition Debugger_profiler_Results_SetProfiler s v m t : outcome E (M * T) := set_cap s 0 v m t.
Definition Debugger_tracer_Results_Tracer m t s : C := get_cap m t s 0.
Definition Debugger_tracer_Results_SetTracer s v m t : outcome E (M * T) := set_cap s 0 v m t.
Definition Sampler_sample_Params_Writer m t s : C := get_cap m t s 0.
Definition Sampler_sample_Params_SetWriter s v m t : outcome E (M * T) := set_cap s 0 v m t.
Definition View_iter_Params_Handler m t s : C := get_cap m t s 0.
Definition View_iter_Params_SetHandler s v m t : outcome E (M * T) := set_cap s 0 v m t.
Definition View_reverse_Results_View m t s : C := get_cap m t s 0.
Definition View_reverse_Results_SetView s v m t : outcome E (M * T) := set_cap s 0 v m t.

(** The accessors of each field, with the size of its struct. *)
Definition cap_fields : list (ObjectSize * (S → C → M → T → outcome E (M * T)) * (M → T → S → C) * (M → S → bool)) :=
  [(Debugger_profiler_Results_size, Debugger_profiler_Results_SetProfiler, Debugger_profiler_Results_Profiler,
      Debugger_profiler_Results_HasProfiler);
   (Debugger_tracer_Results_size, Debugger_tracer_Results_SetTracer, Debugger_tracer_Results_Tracer,
      Debugger_tracer_Results_HasTracer);
   (Sampler_sample_Params_size, Sampler_sample_Params_SetWriter, Sampler_sample_Params_Writer,
      Sampler_sample_Params_HasWriter);
   (View_iter_Params_size, View_iter_Params_SetHandler, View_iter_Params_Handler, View_iter_Params_HasHandler);
   (View_reverse_Results_size, View_reverse_Results_SetView, View_reverse_Results_View, View_reverse_Results_HasView)].

(** What a query writes for an [Iter] call ([NewQuery] in [view.go]): a selector and [n]
    constraints, to be filled in. *)
Definition iter_query `{!CompositeLists E M S} (n : Z) (ps : S) (m : M) : outcome E (S * S * M) :=
  p <~ View_iter_Params_NewSelector ps m ;; q <~ View_iter_Params_NewConstraints ps n (snd p) ;;
  Ret (fst p, fst q, snd q).

(** [handler.Handler]: the query's selector and constraints are written first; its error
    closes the channel of the handler, the second result.  [ServerToClient] makes the
    client of the handler. *)
Definition handler_Handler (query : S → M → outcome E M) (server_to_client : T → C * T)
    (ps : S) (m : M) (t : T) : outcome E (M * T) * bool :=
  match query ps m with
  | Ret m' => let '(c, t') := server_to_client t in (View_iter_Params_SetHandler ps c m' t', false)
  | Fail e => (Fail e, true)
  | Panic => (Panic, false)
  end.
End fields.

(** ** Facts *)
Section facts.
Context {E M S P C T : Type} `{!Capnp E M S P} `{!Caps M P C T} `{!EqDecision S}.
Context (V : Views E M S P) (K : CapViews C T) `{!CapnpLaws E M S P V} `{!CapsLaws E M S P C T V K}.

Lemma get_cap_slot m t s i id c : slot V m s i = Ret (PCap id) → tab K t id = Some c → get_cap (E:=E) m t s i = c.
Proof. intros (p & Hp & Hv)%(slot_ptr V) Ht. unfold get_cap. rewrite Hp. by apply (Client_cap (V:=V) (K:=K) t m p id). Qed.

(** What a setter does. *)
Lemma set_cap_upd s i v m t m' t' :
  set_cap (E:=E) s i v m t = Ret (m', t') →
  match cap K t v with
  | Some k => ∃ id, CapTable_Add v t = (id, t') ∧
      updated V m m' s (byte V m s) (set_at (slot V m s) i (Ret (PCap id)))
  | None => t' = t ∧ updated V m m' s (byte V m s) (set_at (slot V m s) i (Ret PNull))
  end.
Proof.
  unfold set_cap. rewrite (IsValid_cap (K:=K)). destruct (cap K t v) as [k|].
  - rewrite bool_decide_true by done. cbn. destruct (CapTable_Add v t) as [id t1] eqn:Ha.
    intros (m1 & H1 & [= <- <-])%bind_Ret_inv. exists id. split; [done|]. by apply (SetPtr_cap (K:=K)).
  - rewrite bool_decide_false by (by intros []). cbn. intros (m1 & H1 & [= <- <-])%bind_Ret_inv.
    split; [done|]. by apply (SetPtr_nil (K:=K)).
Qed.

Lemma cap_fields_ok :
  Forall (λ f, f.1.1.2 = (λ s, set_cap s 0) ∧ f.1.2 = (λ m t s, get_cap m t s 0) ∧ f.2 = (λ m s, HasPtr m s 0))
    (cap_fields (E:=E) (M:=M) (S:=S) (C:=C) (T:=T)).
Proof. repeat (apply Forall_cons; split); try apply Forall_nil_2; by split_and!. Qed.
End facts.

(** ** Properties *)
Section properties.
Context {E M S P C T : Type} `{!Capnp E M S P} `{!Caps M P C T} `{!EqDecision S}.
Context (V : Views E M S P) (K : CapViews C T) `{!CapnpLaws E M S P V} `{!CapsLaws E M S P C T V K}.

(** C39. Capabilities survive in messages and keep their references: after setting a field to a
    valid client the getter returns that client, still valid, and the table of the message
    holds it, so that a caller who passes a reference of its own made with [AddRef] keeps
    its client when the message gives its reference up; an invalid client clears the field;
    no other field and no other struct changes. *)
Theorem caps_roundtrip sz set get has s v m t m' t' :
  (sz, set, get, has) ∈ cap_fields (E:=E) → set s v m t = Ret (m', t') →
  (∀ k, cap K t v = Some k → get m' t' s = v ∧ has m' s = true ∧ cap K t' v = Some k ∧
     (∃ id, tab K t id = None ∧ tab K t' id = Some v) ∧
     ∀ t0 c, cap K t0 c = Some k → AddRef c t0 = (v, t) →
       ∃ t'', Release v t' = Some t'' ∧ cap K t'' v = None ∧ cap K t'' c = Some k) ∧
  (cap K t v = None → has m' s = false ∧ cap K t' (get m' t' s) = None ∧ t' = t) ∧
  (∀ s' i, s' ≠ s ∨ i ≠ 0 → slot V m' s' i = slot V m s' i) ∧ (∀ s' j, byte V m' s' j = byte V m s' j).
Proof.
  intros Hin Hset. pose proof (cap_fields_ok (E:=E) (M:=M) (S:=S) (P:=P) (C:=C) (T:=T)) as Hok. rewrite Forall_forall in Hok.
  destruct (Hok _ Hin) as (H1 & H2 & H3). cbn in H1, H2, H3. subst set get has.
  pose proof (set_cap_upd V K _ _ _ _ _ _ _ Hset) as Hu.
  assert (∃ w, updated V m m' s (byte V m s) (set_at (slot V m s) 0 (Ret w))) as [w Hw].
  { destruct (cap K t v); [destruct Hu as (id & _ & Hu)|destruct Hu as [_ Hu]]; by eexists. }
  split; [|split; [|split]].
  - intros k Hk. rewrite Hk in Hu. destruct Hu as (id & Ha & Hu). pose proof (slot_same V _ _ _ _ _ _ Hu) as Hs.
    destruct (Add_table v t id t' Ha) as (Hn & Ht & _ & Hc).
    split; [by apply (get_cap_slot V K _ _ _ _ id)|]. split; [by rewrite (HasPtr_slot m' s 0 _ Hs)|].
    split; [by rewrite Hc|]. split; [by exists id|]. intros t0 c Hc0 Har.
    destruct (AddRef_cap (K:=K) t0 c v t k Hc0 Har) as (Hv0 & Hv & Hd & _).
    destruct (Release_cap (K:=K) t' v k) as (t'' & Hr & Hg & Hk' & _); [by rewrite Hc|].
    assert (c ≠ v) as Hne by (intros ->; congruence).
    exists t''. split; [done|]. split; [done|]. rewrite Hk', Hc, Hd by done. done.
  - intros Hk. rewrite Hk in Hu. destruct Hu as [-> Hu]. pose proof (slot_same V _ _ _ _ _ _ Hu) as Hs.
    split; [by rewrite (HasPtr_slot m' s 0 _ Hs)|]. split; [|done].
    destruct (slot_ptr V _ _ _ _ Hs) as (p & Hp & Hv). unfold get_cap. rewrite Hp. by apply (Client_null (V:=V)).
  - intros s' i Hne. destruct (decide (s' = s)) as [->|Hs]; [|by apply (upd_slot_other _ _ _ _ _ _ Hw)].
    rewrite (upd_slot _ _ _ _ _ _ Hw). unfold set_at. destruct (Z.eqb_spec i 0); [by destruct Hne|done].
  - intros s' j. by apply (ptr_upd_byte V _ _ _ _ _ _ Hw).
Qed.

(** The parameters of an [Iter] call arrive: after the query has written its selector and its
    [n] constraints and the client its handler, the server reads that handler, that
    selector and that list, with room for what is written into them. *)
Theorem iter_params_arrive `{!CompositeLists E M S} `{!CompositeLaws E M S P V} (server_to_client : T → C * T)
    n ps sel cs m m1 t t1 c k m' t' closed :
  live V m ps → iter_query n ps m = Ret (sel, cs, m1) → server_to_client t = (c, t1) → cap K t1 c = Some k →
  handler_Handler (λ ps m, p <~ iter_query n ps m ;; Ret (snd p)) server_to_client ps m t = (Ret (m', t'), closed) →
  closed = false ∧ View_iter_Params_Handler (E:=E) m' t' ps = c ∧ cap K t' c = Some k ∧
  View_iter_Params_Selector m' ps = Ret sel ∧ View_iter_Params_Constraints m' ps = Ret cs ∧
  size V m' sel = View_Selector_size ∧ ∀ i, 0 ≤ i < n → size V m' (At cs i) = View_Constraint_size.
Proof.
  intros Hps Hq Hs Hk Hh. unfold handler_Handler in Hh. rewrite Hq in Hh. cbn [bind snd] in Hh. rewrite Hs in Hh.
  injection Hh as Hset <-. split; [done|].
  unfold iter_query, View_iter_Params_NewSelector, View_iter_Params_NewConstraints, new_field in Hq.
  apply bind_Ret_inv in Hq as (p & (pa & Hna & (mb & Hsb & [= <-])%bind_Ret_inv)%bind_Ret_inv & Hq). cbn [fst snd] in *.
  apply bind_Ret_inv in Hq as (q & (pc & Hnc & (md & Hsd & [= <-])%bind_Ret_inv)%bind_Ret_inv & [= <- <- <-]). cbn [fst snd] in *.
  destruct pa as [sel ma], pc as [cs mc]. cbn [fst snd] in *.
  apply NewStruct_upd in Hna as (Hfa & Hla & Hza & Ua). pose proof (upd_live _ _ _ _ _ _ Ua _ Hps) as Hps1.
  apply SetPtr_upd in Hsb as Ub; [|done]. pose proof (upd_live _ _ _ _ _ _ Ub _ Hps1) as Hps2.
  pose proof (slot_same V _ _ _ _ _ _ Ub) as S1. pose proof (upd_live _ _ _ _ _ _ Ub _ Hla) as Hlb.
  destruct (composite_keeps _ _ _ _ _ _ Hnc Hps2) as (Hps3 & _ & _ & S1c). destruct (composite_keeps _ _ _ _ _ _ Hnc Hlb) as (Hlc & Hzc & _).
  apply SetPtr_upd in Hsd as Ud; [|by apply (composite_list _ _ _ _ _ Hnc)]. pose proof (slot_same V _ _ _ _ _ _ Ud) as S2.
  pose proof (set_cap_upd V K _ _ _ _ _ _ _ Hset) as Hu. rewrite Hk in Hu. destruct Hu as (id & Ha & Hu).
  destruct (Add_table c t1 id t' Ha) as (_ & Ht & _ & Hc).
  assert (slot V m' ps 1 = Ret (PObj sel)) as R1.
  { rewrite (upd_slot _ _ _ _ _ _ Hu). cbn. rewrite (upd_slot _ _ _ _ _ _ Ud). cbn. by rewrite S1c. }
  assert (slot V m' ps 2 = Ret (PObj cs)) as R2 by (rewrite (upd_slot _ _ _ _ _ _ Hu); exact S2).
  split; [apply (get_cap_slot V K _ _ _ _ id); [by apply (slot_same V _ _ _ _ _ _ Hu)|done]|]. split; [by rewrite Hc|].
  split; [by apply (obj_slot V)|]. split; [by apply (obj_slot V)|]. split.
  - rewrite (upd_size _ _ _ _ _ _ Hu) by (by apply (upd_live _ _ _ _ _ _ Ud)).
    rewrite (upd_size _ _ _ _ _ _ Ud) by done. rewrite Hzc, (upd_size _ _ _ _ _ _ Ub) by done. done.
  - intros i Hi. destruct (composite_elements _ _ _ _ _ _ Hnc Hi) as (Hle & _ & Hze & _).
    rewrite (upd_size _ _ _ _ _ _ Hu) by (by apply (upd_live _ _ _ _ _ _ Ud)). by rewrite (upd_size _ _ _ _ _ _ Ud).
Qed.
End properties.

(** ** A concrete process *)

(** Clients are numbers; a table of the capabilities they refer to, and the entries of the
    message. *)
Record toy_t := mkToyT { t_next : nat; t_caps : nat → option Z; t_tab : list nat }.

Definition toy_views : CapViews nat toy_t :=
  mkCapViews (λ t c, if (c <? t_next t)%nat then t_caps t c else None) (λ t id, if id <? 0 then None else t_tab t !! Z.to_nat id).

#[local] Instance toy_caps : Caps Toy.mem (pv nat) nat toy_t := {
  nil_ptr := PNull;
  NewInterface id := PCap id;
  Interface_Client t _ p := match p with PCap id => default (t_next t) (tab toy_views t id) | _ => t_next t end;
  CapTable_Add c t := (Z.of_nat (length (t_tab t)), mkToyT (t_next t) (t_caps t) (t_tab t ++ [c]));
  IsValid t c := bool_decide (is_Some (cap toy_views t c));
  AddRef c t := (t_next t, mkToyT (S (t_next t)) (λ d, if decide (d = t_next t) then cap toy_views t c else t_caps t d) (t_tab t));
  Release c t := match cap toy_views t c with
                 | Some _ => Some (mkToyT (t_next t) (λ d, if decide (d = c) then None else t_caps t d) (t_tab t))
                 | None => None
                 end }.

#[local] Existing Instances Toy.toy_capnp Toy.toy_laws toy_lists toy_lists_laws.

#[local] Instance toy_caps_laws {E} : CapsLaws E Toy.mem nat (pv nat) nat toy_t Toy.views toy_views.
Proof.
  split.
  - intros s i id m m' [= <-]. apply Toy.set_ptr_upd.
  - intros s i m m' [= <-]. apply Toy.set_ptr_upd.
  - intros t m p id c Hp Ht. cbn in Hp. subst p. cbn -[toy_views Nat.ltb]. by rewrite Ht.
  - intros t m p Hp. cbn in Hp. subst p. cbn -[Nat.ltb]. by rewrite Nat.ltb_irrefl.
  - intros c t id t' [= <- <-]. cbn -[Nat.ltb Z.ltb]. rewrite (proj2 (Z.ltb_ge _ _)) by lia. rewrite Nat2Z.id.
    split; [by apply lookup_ge_None_2|]. split; [by rewrite lookup_app_r, Nat.sub_diag|]. split; [|done].
    intros j Hj. destruct (Z.ltb_spec j 0); [done|]. destruct (decide (Z.to_nat j < length (t_tab t))%nat).
    + by rewrite lookup_app_l.
    + rewrite !lookup_ge_None_2; [done|lia|rewrite length_app; cbn; lia].
  - done.
  - intros t c c' t' k Hk [= <- <-]. cbn -[Nat.ltb] in *. split; [by rewrite Nat.ltb_irrefl|].
    split; [rewrite decide_True by done; rewrite (proj2 (Nat.ltb_lt _ _)) by lia; done|]. split; [|done].
    intros d Hd. rewrite (decide_False (P:=d = t_next t)) by done.
    destruct (Nat.ltb_spec d (S (t_next t))), (Nat.ltb_spec d (t_next t)); (done || lia).
  - intros t c k Hk. cbn -[toy_views Nat.ltb]. rewrite Hk. eexists. split; [done|]. cbn -[Nat.ltb] in *.
    split; [rewrite decide_True by done; by destruct (_ <? _)%nat|]. split; [|done].
    intros d Hd. by rewrite decide_False.
Qed.

Definition toy_t0 : toy_t := mkToyT 1 (λ _, Some 42) [].
Definition toy_ps : Toy.mem := new_of (NewView_iter_Params (E:=unit) Toy.empty).

Lemma caps_roundtrip_witness :
  ∃ m' t', View_iter_Params_SetHandler (E:=unit) 1%nat 0%nat toy_ps toy_t0 = Ret (m', t') ∧
    View_iter_Params_Handler (E:=unit) m' t' 1%nat = 0%nat ∧ cap toy_views t' 0%nat = Some 42.
Proof.
  eexists _, _. split; [reflexivity|].
  destruct (caps_roundtrip (E:=unit) Toy.views toy_views View_iter_Params_size View_iter_Params_SetHandler
    (View_iter_Params_Handler (E:=unit)) (View_iter_Params_HasHandler (E:=unit)) 1%nat 0%nat toy_ps toy_t0 _ _
    ltac:(apply (list_elem_of_lookup_2 _ 3); reflexivity) eq_refl) as (H & _).
  destruct (H 42 eq_refl) as (H1 & _ & H2 & _). split; [exact H1|exact H2].
Defined.

Lemma iter_params_arrive_witness :
  ∃ m' t' closed,
    handler_Handler (λ ps m, p <~ iter_query (E:=unit) (P:=pv nat) 2 ps m ;; Ret (snd p)) (λ t, (0%nat, t)) 1%nat toy_ps toy_t0
      = (Ret (m', t'), closed) ∧
    View_iter_Params_Handler (E:=unit) m' t' 1%nat = 0%nat ∧ View_iter_Params_Selector (E:=unit) m' 1%nat = Ret 2%nat ∧
    View_iter_Params_Constraints (E:=unit) m' 1%nat = Ret 3%nat.
Proof.
  eexists _, _, _. split; [reflexivity|].
  destruct (iter_params_arrive (E:=unit) Toy.views toy_views (λ t, (0%nat, t)) 2 1%nat 2%nat 3%nat toy_ps _ toy_t0 toy_t0 0%nat 42
    _ _ _ ltac:(cbn; lia) eq_refl eq_refl eq_refl eq_refl) as (_ & H1 & _ & H2 & H3 & _).
  split; [exact H1|]. split; [exact H2|exact H3].
Defined.
